(* ===== verification/_CoqProject ===== *)
-Q . S2P
Prelude.v
GoStd.v
Records.v
Skiplist.v
Versions.v
Memtable.v
Config.v
Wal.v
Batch.v
GoHeap.v
Iterators.v
GoIO.v
Filter.v
Blocks.v
BlockCache.v
Names.v
TableWriter.v
TableReader.v
Meta.v
Scan.v
EngineState.v
EngineRead.v
EngineCompact.v
EngineWrite.v
EngineOpen.v
EngineFs.v
EngineDisk.v
EngineFlow.v
EngineFlush.v
EngineMerge.v
EngineSwap.v
EngineRefine.v
EngineSim.v
EngineRun.v
EngineKeep.v
EngineRecover.v
EngineFaults.v
