(* ===== verification/Prelude.v ===== *)
(** * AscentDB: a verification development

    AscentDB is an embedded key-value store on a log-structured merge tree, written in Go.  A write
    takes a sequence number, goes to the write-ahead log and into the memtable; a full memtable is
    rotated out and flushed into a table of level 0; compactions merge tables into the next level.  A
    read at a sequence number looks through the memtables and the levels for the newest version that
    is not after it.  The manifest logs every change of the set of tables, and New replays the manifest
    and the logs.  This development models the program as executable functions on explicit states and
    proves what its parts promise to each other and what the engine promises to its clients.

    ** Conventions

    A Go function that returns an error and may panic is a function into [res]: [Ok], [Err] or
    [Panic].  Integers are Z, with the wrap-around of their Go type written out ([u8] to [u64],
    [i64]); bytes are [list byte]; an index or slice out of range is [Panic].  Objects that several
    pointers reach (skip-list nodes, memtables, logs, list elements, the iterators of a scan) live in
    stores and are named by index.  The engine's operations are in the monad [EngineState.EM], which
    threads the whole engine with its file system.  System calls consume a list of faults, so that
    error paths are executions like any other.

    ** Files and what they model

    The standard library: [GoStd] (crc32, fnv, varints, sort.Search, slices.Sort, files), [GoHeap]
    (container/heap), [GoIO] (bufio.Writer, io.MultiWriter, ReadAt).  They are models of documented
    behaviour of Go, written as the library is.

    Records and the memtable, src/internal/record and src/internal/memtable: [Records] (keys, their
    order, codecs), [Skiplist] (skiplist.go), [Memtable] (memtable.go, iterator.go).  [Versions] is the
    specification of multi-version reads that everything above is proved against: [newest k s l o]
    says that [o] is the newest version of [k] not after [s] in [l].

    Log and batches: [Wal] (wal/wal.go: frames, replay, and the group commit as a step relation whose
    rules are the lock regions of submit, the committer and Close), [Batch] (batch/batch.go), [Config]
    (config/options.go).

    Iterators, src/internal/iterator.go, iterator_heap.go and compaction/merger.go: [Iterators], with
    the class [IteratorOps] for the Go interface and [IteratorLaws] for its contract, which the
    memtable and table iterators implement.

    Tables, src/internal/sstable: [Filter] (filter.go), [Blocks] (block.go, index.go, footer.go),
    [BlockCache] (block_cache.go), [TableWriter] (writer.go), [TableReader] (reader.go, iterator.go).

    The set of tables, src/internal/meta: [Meta] (table_meta.go, version.go, version_set.go,
    manifest.go, overlap.go).

    The engine, src/internal/engine: [Names] (helpers.go and the scanning of names), [Scan]
    (iterator.go), [EngineState] (engine.go's state, snapshot.go, the table cache), [EngineRead]
    (read.go), [EngineCompact] (compactor.go), [EngineWrite] (write.go, flusher.go), [EngineOpen]
    (recover.go and the life cycle of engine.go).

    The proofs about the whole engine: [EngineFs] (calls without faults), [EngineDisk] (what the
    directory holds for a later opening), [EngineFlow] and [EngineFlush] (the invariants [base_ok] and
    [state_ok], and that writes, rotations and flushes keep them), [EngineRefine] (the abstract store),
    [EngineSim] and [EngineRun] (the simulation and its consequence for runs from New on),
    [EngineMerge], [EngineSwap] and [EngineKeep] (what a compaction writes, what it does to the levels,
    and that reads do not see it), [EngineRecover] (New after a crash), [EngineFaults] (runs in which
    the program does not keep what it means to).

    ** What the theorems show

    The engine.  [EngineRun.engine_refines_store]: from New in an empty directory on, without file
    system faults and without compaction turns, every paced sequence of puts, deletes, batches, reads,
    scans, snapshots and flusher turns answers as a store that keeps the map of every sequence number;
    [EngineRun.run_well_formed]: its state is well formed at the end of every such run.
    [EngineRecover.New_after_crash]: after such a run, with crash recovery on, records in the memtable
    and no flush pending, the first loss of the process, or of power if the logs are synced with every
    batch, leaves a directory on which New gives the latest map again.
    [EngineKeep.compaction_keeps_reads]: a compaction that meets its conditions ([EngineKeep.compactable])
    runs to its end and changes the result of no read at or after the newest sequence number;
    [EngineKeep.scheduled_compaction]: what the scheduler queues meets all of these conditions but one,
    that no table of the next level lies beyond the inputs, and all of them if and only if it meets
    that one.
    [EngineRead.get_newest], [EngineRead.scan_exact]: what reads return in any state whose levels are
    layers.

    The parts, each against its own specification: the skip list and the memtable against sorted
    insertion and [newest]; the log (replay of what was written, of a torn tail and of corrupt frames;
    group commit durable, exactly once, answered; the interval mode loses at most what
    came after the last tick); the manifest (replay gives the version in memory);
    tables (what Close leaves is a complete table, which the reader answers exactly); the Bloom filter
    (no false negatives, and the answers are its probes); the block cache (an LRU list); the merging
    heap (sorted, all records once); the codecs (round trips, and which bytes are accepted).

    What the program does not keep is proved as well, as runs or as general statements:
    [EngineFaults], [Wal.submit_close_race], [TableReader.closed_reader_loses_records],
    [Meta.torn_record_accepted], [Filter.Add_no_bits_panics], [EngineRead.unsorted_level_misses].

    ** Bounds and fuel

    Loops whose end is not structural take fuel.  The theorems give a bound that is enough, so that
    they say that the code returns: the skip list's loops take the number of its nodes, replay takes
    the length of the log ([Wal.Replay_terminates], [Meta.replay_terminates]), scans and compactions the
    number of records they merge.  File numbers stay below 10^6, since names are scanned with six
    digits ([Names.names_round_trip]); runs have at most 400000 operations for that reason.
    A memtable holds at most 2^28 bytes ([max_memtable]) and a record 2^27 ([max_record]), so that
    every table and every merged range fits the 32-bit offsets and sizes of the file format.
    A paced run lets the flusher take its turn before a second memtable is full: the program does not
    wait for it, and then loses sight of the immutable memtable ([EngineFaults.rotation_hides_memtable]).
    A compaction's theorem asks that no table of the next level lies beyond its inputs: the
    program appends the new tables to the level, which is then out of order
    ([EngineFaults.compactions_lose_keys]), and it ignores snapshots
    ([EngineFaults.compaction_ignores_snapshots]).

    ** Parameters

    [Filter.FloatEnv] holds math.Log and the conversion of floats that the Go specification leaves to
    the platform; random levels of the skip list are the argument [flips], a list of coin flips that may
    be anything.

    ** Not modelled

    cmd/ascentdb/main.go is a demonstration program over the public calls.  The ticks of the log's
    interval mode are operations of [Wal] ([Wal.interval_step]), which the engine's runs do not have;
    the start and stop of goroutines is left out.  The engine's mutexes are not part of its state: that
    write returns with e.mu locked where rotate fails is not seen ([EngineWrite.write]), and of the
    table cache's lock only how Close leaves it ([EngineOpen.Close]).  That the flush channel is closed
    is an argument of Close, which panics then; a write after Close is not modelled.  A flush or a compaction is one turn ([run_flush],
    [run_compaction]) between operations of clients, so that interleavings inside a turn are modelled
    only for the group commit and for Close ([Wal.step]).  The engine's logs are driven by one client at
    a time ([EngineState.wal_submit]).  The store's operations do not include compactions, which keep
    the latest map but not those of older snapshots.  The order in which a file system makes directory
    entries durable is not modelled: a crash keeps the entries and cuts files back to what was synced. *)

From Stdlib Require Export ZArith Lia.
From Stdlib Require Strings.Byte.
From stdpp Require Export prelude list option strings gmap sorting.

#[global] Open Scope Z_scope.

(** [lia] decides division and remainder by constants as well. *)
Ltac Zify.zify_post_hook ::= Z.div_mod_to_equations.

(** ** Results of Go functions

    A Go function that returns [(T, error)] and may panic is modelled by a value of [res T]. *)

Inductive error :=
  | ErrCorruptRecord
  | ErrIO
  | ErrEOF
  | ErrUnexpectedEOF
  | ErrText (msg : string).

#[export] Instance error_eq_dec : EqDecision error.
Proof. solve_decision. Defined.

Inductive res (A : Type) :=
  | Ok (a : A)
  | Err (e : error)
  | Panic.
Arguments Ok {A} _.
Arguments Err {A} _.
Arguments Panic {A}.

#[export] Instance res_ret : MRet res := @Ok.
#[export] Instance res_bind : MBind res := λ A B f m,
  match m with Ok a => f a | Err e => Err e | Panic => Panic end.
#[export] Instance res_fmap : FMap res := λ A B f m,
  match m with Ok a => Ok (f a) | Err e => Err e | Panic => Panic end.

Definition guard_ok (b : bool) (e : error) : res unit := if b then Ok tt else Err e.

Definition must {A} (o : option A) : res A :=
  match o with Some a => Ok a | None => Panic end.

(** [m] does not panic. *)
Definition safe {A} (m : res A) : Prop := m ≠ Panic.

(** ** Bytes and byte slices *)

Abbreviation byte := Byte.byte.
Abbreviation bytes := (list Byte.byte).

#[export] Instance byte_eq_dec : EqDecision byte := Byte.byte_eq_dec.

Definition byte_to_Z (b : byte) : Z := Z.of_N (Byte.to_N b).

Definition byte_of_Z (z : Z) : byte :=
  match Byte.of_N (Z.to_N (z mod 256)) with Some b => b | None => Byte.x00 end.

Definition len {A} (l : list A) : Z := Z.of_nat (length l).
Definition zeros (n : Z) : bytes := replicate (Z.to_nat n) Byte.x00.

(** A Go slice that the code compares with nil: [None] is nil. *)
Definition sbytes (s : option bytes) : bytes := default [] s.

(** Conversions to the unsigned machine types. *)
Definition u8 (z : Z) : Z := z mod 2 ^ 8.
Definition u32 (z : Z) : Z := z mod 2 ^ 32.
Definition u64 (z : Z) : Z := z mod 2 ^ 64.
Definition MaxUint64 : Z := 2 ^ 64 - 1.

(** [int64(x)] of a uint64. *)
Definition i64 (z : Z) : Z := (z + 2 ^ 63) mod 2 ^ 64 - 2 ^ 63.

(** encoding/binary, little endian. *)
Fixpoint le_bytes (n : nat) (z : Z) : bytes :=
  match n with
  | O => []
  | S n => byte_of_Z z :: le_bytes n (z / 256)
  end.

Fixpoint le_value (b : bytes) : Z :=
  match b with
  | [] => 0
  | x :: t => byte_to_Z x + 256 * le_value t
  end.

(** [b[lo:hi]]. *)
Definition slice {A} (b : list A) (lo hi : Z) : res (list A) :=
  if (0 <=? lo) && (lo <=? hi) && (hi <=? len b)
  then Ok (take (Z.to_nat (hi - lo)) (drop (Z.to_nat lo) b))
  else Panic.

(** [b[i]]. *)
Definition index {A} (b : list A) (i : Z) : res A :=
  if 0 <=? i then must (b !! Z.to_nat i) else Panic.

(** Overwrite the bytes of [dst] from [off] on with [src]; panics out of range. *)
Definition put_at (dst : bytes) (off : Z) (src : bytes) : res bytes :=
  if (0 <=? off) && (off + len src <=? len dst)
  then Ok (take (Z.to_nat off) dst ++ src ++ drop (Z.to_nat off + length src) dst)
  else Panic.

(** [copy(dst[off:], src)]: copies what fits. *)
Definition copy_at (dst : bytes) (off : Z) (src : bytes) : res bytes :=
  if (0 <=? off) && (off <=? len dst)
  then put_at dst off (take (Z.to_nat (len dst - off)) src)
  else Panic.

Definition PutUint32 (dst : bytes) (off v : Z) : res bytes := put_at dst off (le_bytes 4 v).
Definition PutUint64 (dst : bytes) (off v : Z) : res bytes := put_at dst off (le_bytes 8 v).
Definition PutByte (dst : bytes) (off v : Z) : res bytes := put_at dst off [byte_of_Z v].

Definition Uint32 (b : bytes) (off : Z) : res Z := le_value <$> slice b off (off + 4).
Definition Uint64 (b : bytes) (off : Z) : res Z := le_value <$> slice b off (off + 8).
Definition ByteAt (b : bytes) (off : Z) : res Z := byte_to_Z <$> index b off.

(** bytes.Compare *)
Fixpoint bytes_Compare (a b : bytes) : Z :=
  match a, b with
  | [], [] => 0
  | [], _ :: _ => -1
  | _ :: _, [] => 1
  | x :: a', y :: b' =>
      if byte_to_Z x <? byte_to_Z y then -1
      else if byte_to_Z y <? byte_to_Z x then 1
      else bytes_Compare a' b'
  end.

Definition bytes_Equal (a b : bytes) : bool := bool_decide (a = b).

(** A Go three-way comparison function. *)
Class Comparator (A : Type) := cmp : A -> A -> Z.

Class ComparatorLaws (A : Type) `{Comparator A} : Prop := {
  cmp_opp (a b : A) : cmp b a = - cmp a b;
  cmp_le_trans (a b c : A) : cmp a b <= 0 -> cmp b c <= 0 -> cmp a c <= 0
}.

#[export] Instance bytes_Comparator : Comparator bytes := bytes_Compare.

(** [rest] is what [data] holds from offset [off] on. *)
Definition at_off (data : bytes) (off : Z) (rest : bytes) : Prop :=
  ∃ p, data = p ++ rest ∧ off = len p.

(** ** Lengths *)

Create Rewrite HintDb len.

Lemma len_nil {A} : len (@nil A) = 0.
Proof. reflexivity. Qed.

Lemma len_cons {A} (x : A) l : len (x :: l) = 1 + len l.
Proof. unfold len. cbn [length]. lia. Qed.

Lemma len_app {A} (l k : list A) : len (l ++ k) = len l + len k.
Proof. unfold len. rewrite length_app. lia. Qed.

Lemma len_nonneg {A} (l : list A) : 0 <= len l.
Proof. unfold len. lia. Qed.

Lemma len_zero_inv {A} (l : list A) : len l = 0 -> l = [].
Proof. destruct l; [done|]. rewrite len_cons. pose proof (len_nonneg l). lia. Qed.

Lemma len_map {A B} (f : A -> B) l : len (map f l) = len l.
Proof. unfold len. by rewrite length_map. Qed.

Lemma len_take {A} n (l : list A) : 0 <= n <= len l -> len (take (Z.to_nat n) l) = n.
Proof. unfold len. rewrite length_take. lia. Qed.

Lemma len_drop {A} n (l : list A) : 0 <= n <= len l -> len (drop (Z.to_nat n) l) = len l - n.
Proof. unfold len. rewrite length_drop. lia. Qed.

Lemma len_le_bytes n z : len (le_bytes n z) = Z.of_nat n.
Proof.
  revert z. induction n as [|n IH]; intros z; [done|].
  cbn [le_bytes]. rewrite len_cons, IH. lia.
Qed.

Lemma length_le_bytes n z : length (le_bytes n z) = n.
Proof. pose proof (len_le_bytes n z) as H. unfold len in H. lia. Qed.

Lemma len_zeros n : 0 <= n -> len (zeros n) = n.
Proof. unfold len, zeros. rewrite length_replicate. lia. Qed.

Lemma len_fold {A} (l : list A) : Z.of_nat (length l) = len l.
Proof. reflexivity. Qed.

Lemma len_drop_max {A} n (l : list A) : len (drop n l) = Z.max 0 (len l - Z.of_nat n).
Proof. unfold len. rewrite length_drop. lia. Qed.

Lemma len_take_min {A} n (l : list A) : len (take n l) = Z.min (Z.of_nat n) (len l).
Proof. unfold len. rewrite length_take. lia. Qed.

#[export] Hint Rewrite @len_nil @len_cons @len_app @len_map len_le_bytes @len_fold @len_drop_max
  @len_take_min : len.

(** Normalise the lengths in the goal and the context, then linear arithmetic. *)
Ltac len_lia :=
  autorewrite with len in *;
  repeat match goal with
  | |- context [len ?l] => lazymatch goal with
      | _ : 0 <= len l |- _ => fail | _ => pose proof (len_nonneg l) end
  | _ : context [len ?l] |- _ => lazymatch goal with
      | _ : 0 <= len l |- _ => fail | _ => pose proof (len_nonneg l) end
  end; lia.

(** ** Bytes *)

Lemma byte_to_Z_range b : 0 <= byte_to_Z b < 256.
Proof. unfold byte_to_Z. pose proof (Byte.to_N_bounded b). lia. Qed.

Lemma byte_of_to_Z b : byte_of_Z (byte_to_Z b) = b.
Proof.
  unfold byte_of_Z. rewrite Z.mod_small by apply byte_to_Z_range.
  unfold byte_to_Z. by rewrite N2Z.id, Byte.of_to_N.
Qed.

Lemma byte_to_of_Z z : byte_to_Z (byte_of_Z z) = z mod 256.
Proof.
  unfold byte_of_Z, byte_to_Z.
  pose proof (Z.mod_pos_bound z 256 ltac:(lia)) as Hr.
  destruct (Byte.of_N (Z.to_N (z mod 256))) as [b|] eqn:E.
  - apply Byte.to_of_N in E. rewrite E. lia.
  - apply Byte.of_N_None_iff in E. lia.
Qed.

#[export] Instance byte_to_Z_inj : Inj (=) (=) byte_to_Z.
Proof. intros a b H. by rewrite <- (byte_of_to_Z a), H, byte_of_to_Z. Qed.

#[export] Instance byte_countable : Countable byte.
Proof.
  apply (inj_countable' Byte.to_N (fun n => default Byte.x00 (Byte.of_N n))).
  intros b. by rewrite Byte.of_to_N.
Defined.

(** ** Little-endian integers *)

Lemma le_value_le_bytes n z : le_value (le_bytes n z) = z mod 256 ^ Z.of_nat n.
Proof.
  revert z. induction n as [|n IH]; intros z; cbn [le_bytes le_value].
  - by rewrite Z.mod_1_r.
  - rewrite IH, byte_to_of_Z, Nat2Z.inj_succ, Z.pow_succ_r by lia.
    rewrite Z.rem_mul_r by lia. lia.
Qed.

Lemma le_value_range b : 0 <= le_value b < 256 ^ len b.
Proof.
  induction b as [|x b IH]; cbn [le_value]; [vm_compute; intuition congruence|].
  rewrite len_cons, Z.pow_add_r by (pose proof (len_nonneg b); lia).
  pose proof (byte_to_Z_range x). nia.
Qed.

Lemma le_bytes_le_value b : le_bytes (length b) (le_value b) = b.
Proof.
  induction b as [|x b IH]; cbn [length le_value le_bytes]; [done|].
  pose proof (byte_to_Z_range x).
  replace ((byte_to_Z x + 256 * le_value b) / 256) with (le_value b)
    by (rewrite (Z.mul_comm 256), Z.div_add, Z.div_small by lia; lia).
  rewrite IH. f_equal. unfold byte_of_Z.
  rewrite (Z.mul_comm 256), Z.mod_add, Z.mod_small by lia.
  unfold byte_to_Z. by rewrite N2Z.id, Byte.of_to_N.
Qed.

Lemma le_value_4 z : le_value (le_bytes 4 z) = u32 z.
Proof. rewrite le_value_le_bytes. reflexivity. Qed.

Lemma le_value_8 z : le_value (le_bytes 8 z) = u64 z.
Proof. rewrite le_value_le_bytes. reflexivity. Qed.

Lemma u32_small z : 0 <= z < 2 ^ 32 -> u32 z = z.
Proof. apply Z.mod_small. Qed.

Lemma u64_small z : 0 <= z < 2 ^ 64 -> u64 z = z.
Proof. apply Z.mod_small. Qed.

Lemma u8_small z : 0 <= z < 256 -> u8 z = z.
Proof. apply Z.mod_small. Qed.

Lemma i64_small z : - 2 ^ 63 <= z < 2 ^ 63 -> i64 z = z.
Proof. intros Hz. unfold i64. rewrite Z.mod_small by lia. lia. Qed.

Lemma u32_range z : 0 <= u32 z < 2 ^ 32.
Proof. apply Z.mod_pos_bound. lia. Qed.

Lemma u64_range z : 0 <= u64 z < 2 ^ 64.
Proof. apply Z.mod_pos_bound. lia. Qed.

Lemma u32_idem z : u32 (u32 z) = u32 z.
Proof. apply u32_small, u32_range. Qed.

(** ** Reading at an offset *)

Lemma at_off_start data : at_off data 0 data.
Proof. by exists []. Qed.

Lemma at_off_len data off rest : at_off data off rest -> 0 <= off ∧ off + len rest = len data.
Proof. intros (p & -> & ->). len_lia. Qed.

Lemma at_off_app data off c rest :
  at_off data off (c ++ rest) -> at_off data (off + len c) rest.
Proof. intros (p & -> & ->). exists (p ++ c). by rewrite <- app_assoc, len_app. Qed.

Lemma at_off_drop data off n rest :
  at_off data off rest -> 0 <= n <= len rest -> at_off data (off + n) (drop (Z.to_nat n) rest).
Proof.
  intros H Hn. rewrite <- (take_drop (Z.to_nat n) rest) in H.
  apply at_off_app in H. by rewrite len_take in H by lia.
Qed.

Lemma at_off_prefix data off rest : at_off data off rest -> rest = drop (Z.to_nat off) data.
Proof.
  intros (p & -> & ->). unfold len. by rewrite Nat2Z.id, drop_app_length.
Qed.

Lemma slice_at data off rest n :
  at_off data off rest -> 0 <= n <= len rest ->
  slice data off (off + n) = Ok (take (Z.to_nat n) rest).
Proof.
  intros H Hn. pose proof (at_off_len _ _ _ H). unfold slice.
  rewrite (proj2 (Z.leb_le 0 off)), (proj2 (Z.leb_le off _)), (proj2 (Z.leb_le _ (len data)))
    by lia.
  cbn [andb]. rewrite (at_off_prefix _ _ _ H). do 2 f_equal. lia.
Qed.

Lemma slice_at_app data off c rest :
  at_off data off (c ++ rest) -> slice data off (off + len c) = Ok c.
Proof.
  intros H. rewrite (slice_at _ _ _ _ H) by len_lia.
  unfold len. by rewrite Nat2Z.id, take_app_length.
Qed.

Lemma Uint32_at data off v rest :
  at_off data off (le_bytes 4 v ++ rest) -> Uint32 data off = Ok (u32 v).
Proof.
  intros H. apply slice_at_app in H. rewrite len_le_bytes in H. change (Z.of_nat 4) with 4 in H.
  unfold Uint32. rewrite H. cbn [fmap res_fmap]. by rewrite <- le_value_4.
Qed.

Lemma Uint64_at data off v rest :
  at_off data off (le_bytes 8 v ++ rest) -> Uint64 data off = Ok (u64 v).
Proof.
  intros H. apply slice_at_app in H. rewrite len_le_bytes in H. change (Z.of_nat 8) with 8 in H.
  unfold Uint64. rewrite H. cbn [fmap res_fmap]. by rewrite <- le_value_8.
Qed.

Lemma index_at {A} (p : list A) x rest : index (p ++ x :: rest) (len p) = Ok x.
Proof.
  unfold index. rewrite (proj2 (Z.leb_le 0 _)) by apply len_nonneg.
  unfold len. rewrite Nat2Z.id, lookup_app_r, Nat.sub_diag by lia. done.
Qed.

Lemma ByteAt_at data off b rest :
  at_off data off (b :: rest) -> ByteAt data off = Ok (byte_to_Z b).
Proof. intros (p & -> & ->). unfold ByteAt. by rewrite index_at. Qed.

Lemma at_off_le_bytes n data off v rest :
  at_off data off (le_bytes n v ++ rest) -> at_off data (off + Z.of_nat n) rest.
Proof. intros H. apply at_off_app in H. by rewrite len_le_bytes in H. Qed.

Lemma at_off_byte data off b rest : at_off data off (b :: rest) -> at_off data (off + 1) rest.
Proof. intros H. by apply (at_off_app _ _ [b]) in H. Qed.

(** The converses: what a successful read says of the data. *)
Lemma take_le_bytes (n : nat) (b : bytes) :
  Z.of_nat n <= len b -> b = le_bytes n (le_value (take n b)) ++ drop n b.
Proof.
  intros H. rewrite <- (take_drop n b) at 1. f_equal.
  rewrite <- (le_bytes_le_value (take n b)) at 1.
  rewrite length_take. unfold len in H. by replace (n `min` length b)%nat with n by lia.
Qed.

Lemma Uint32_inv data off rest :
  at_off data off rest -> off + 4 <= len data ->
  ∃ v rest', Uint32 data off = Ok v ∧ rest = le_bytes 4 v ++ rest' ∧ 0 <= v < 2 ^ 32 ∧
    at_off data (off + 4) rest'.
Proof.
  intros H Hl. pose proof (at_off_len _ _ _ H).
  pose proof (take_le_bytes 4 rest ltac:(lia)) as E.
  exists (le_value (take 4 rest)), (drop 4 rest).
  assert (0 <= le_value (take 4 rest) < 2 ^ 32) as Hr.
  { pose proof (le_value_range (take 4 rest)) as Hv.
    replace (len (take 4 rest)) with 4 in Hv by (unfold len in *; rewrite length_take; lia).
    exact Hv. }
  rewrite E in H. rewrite (Uint32_at _ _ _ _ H), (u32_small _ Hr).
  split_and!; try done; try lia. by apply at_off_le_bytes in H.
Qed.

Lemma Uint64_inv data off rest :
  at_off data off rest -> off + 8 <= len data ->
  ∃ v rest', Uint64 data off = Ok v ∧ rest = le_bytes 8 v ++ rest' ∧ 0 <= v < 2 ^ 64 ∧
    at_off data (off + 8) rest'.
Proof.
  intros H Hl. pose proof (at_off_len _ _ _ H).
  pose proof (take_le_bytes 8 rest ltac:(lia)) as E.
  exists (le_value (take 8 rest)), (drop 8 rest).
  assert (0 <= le_value (take 8 rest) < 2 ^ 64) as Hr.
  { pose proof (le_value_range (take 8 rest)) as Hv.
    replace (len (take 8 rest)) with 8 in Hv by (unfold len in *; rewrite length_take; lia).
    exact Hv. }
  rewrite E in H. rewrite (Uint64_at _ _ _ _ H), (u64_small _ Hr).
  split_and!; try done; try lia. by apply at_off_le_bytes in H.
Qed.

Lemma ByteAt_inv data off rest :
  at_off data off rest -> off + 1 <= len data ->
  ∃ b rest', ByteAt data off = Ok (byte_to_Z b) ∧ rest = b :: rest' ∧ at_off data (off + 1) rest'.
Proof.
  intros H Hl. pose proof (at_off_len _ _ _ H).
  destruct rest as [|b rest']; [len_lia|].
  exists b, rest'. split_and!; [by eapply ByteAt_at|done|by eapply at_off_byte].
Qed.

Lemma slice_inv data off n rest :
  at_off data off rest -> 0 <= n -> off + n <= len data ->
  ∃ c rest', slice data off (off + n) = Ok c ∧ rest = c ++ rest' ∧ len c = n ∧
    at_off data (off + n) rest'.
Proof.
  intros H Hn Hl. pose proof (at_off_len _ _ _ H).
  exists (take (Z.to_nat n) rest), (drop (Z.to_nat n) rest).
  split_and!.
  - apply slice_at; [done|lia].
  - by rewrite take_drop.
  - apply len_take. lia.
  - apply at_off_drop; [done|lia].
Qed.

(** ** Writing at an offset *)

Lemma put_at_app p tl src off :
  len p = off -> len src <= len tl ->
  put_at (p ++ tl) off src = Ok ((p ++ src) ++ drop (length src) tl).
Proof.
  intros <- H. unfold put_at.
  rewrite (proj2 (Z.leb_le 0 _)), (proj2 (Z.leb_le _ _)) by len_lia. cbn [andb].
  unfold len. rewrite Nat2Z.id, take_app_length, <- drop_drop, drop_app_length.
  by rewrite app_assoc.
Qed.

Lemma copy_at_app p tl src off :
  len p = off -> len src <= len tl ->
  copy_at (p ++ tl) off src = Ok ((p ++ src) ++ drop (length src) tl).
Proof.
  intros <- H. unfold copy_at.
  rewrite (proj2 (Z.leb_le 0 _)), (proj2 (Z.leb_le _ _)) by len_lia. cbn [andb].
  rewrite take_ge; [by apply put_at_app|].
  rewrite len_app. unfold len in *. lia.
Qed.

Lemma put_at_panics dst off src : len dst < off + len src -> put_at dst off src = Panic.
Proof.
  intros H. unfold put_at. rewrite (proj2 (Z.leb_gt _ (len dst))) by lia.
  by rewrite andb_false_r.
Qed.

Lemma put_at_length dst off src dst' : put_at dst off src = Ok dst' -> len dst' = len dst.
Proof.
  unfold put_at. destruct (_ && _) eqn:E; [|done]. intros [= <-].
  apply andb_true_iff in E as [E1%Z.leb_le E2%Z.leb_le].
  unfold len in *. rewrite !length_app, length_take, length_drop. lia.
Qed.

(** One encoding step: the buffer is a finished part followed by room for the rest. *)
Ltac put_step :=
  first [rewrite put_at_app by len_lia | rewrite copy_at_app by len_lia]; cbn [mbind res_bind].

(** ** Comparators *)

Section comparator.
Context {A} `{ComparatorLaws A}.
Implicit Types a b c : A.

Lemma cmp_refl a : cmp a a = 0.
Proof. pose proof (cmp_opp a a). lia. Qed.

Lemma cmp_lt_le_trans a b c : cmp a b < 0 -> cmp b c <= 0 -> cmp a c < 0.
Proof.
  intros H1 H2. destruct (Z.lt_ge_cases (cmp a c) 0); [done|].
  pose proof (cmp_opp a c). pose proof (cmp_opp a b).
  pose proof (cmp_le_trans b c a). lia.
Qed.

Lemma cmp_le_lt_trans a b c : cmp a b <= 0 -> cmp b c < 0 -> cmp a c < 0.
Proof.
  intros H1 H2. destruct (Z.lt_ge_cases (cmp a c) 0); [done|].
  pose proof (cmp_opp a c). pose proof (cmp_opp b c).
  pose proof (cmp_le_trans c a b). lia.
Qed.

Lemma cmp_lt_trans a b c : cmp a b < 0 -> cmp b c < 0 -> cmp a c < 0.
Proof. intros. apply cmp_lt_le_trans with b; lia. Qed.

Lemma cmp_eq_l a b c : cmp a b = 0 -> cmp a c <= 0 <-> cmp b c <= 0.
Proof.
  intros E. pose proof (cmp_opp a b). split; intros.
  - apply cmp_le_trans with a; lia.
  - apply cmp_le_trans with b; lia.
Qed.
End comparator.

Lemma bytes_Compare_opp a b : bytes_Compare b a = - bytes_Compare a b.
Proof.
  revert b. induction a as [|x a IH]; intros [|y b]; cbn; try done.
  destruct (Z.ltb_spec (byte_to_Z x) (byte_to_Z y)), (Z.ltb_spec (byte_to_Z y) (byte_to_Z x));
    try lia; auto.
Qed.

Lemma bytes_Compare_eq a b : bytes_Compare a b = 0 <-> a = b.
Proof.
  split.
  - revert b. induction a as [|x a IH]; intros [|y b]; cbn; try done.
    destruct (Z.ltb_spec (byte_to_Z x) (byte_to_Z y)); [done|].
    destruct (Z.ltb_spec (byte_to_Z y) (byte_to_Z x)); [done|].
    intros ?%IH. f_equal; [|done]. apply byte_to_Z_inj. lia.
  - intros ->. pose proof (bytes_Compare_opp b b). lia.
Qed.

Lemma bytes_Compare_le_trans a b c :
  bytes_Compare a b <= 0 -> bytes_Compare b c <= 0 -> bytes_Compare a c <= 0.
Proof.
  revert b c. induction a as [|x a IH]; intros [|y b] [|z c]; cbn; try lia.
  destruct (Z.ltb_spec (byte_to_Z x) (byte_to_Z y)), (Z.ltb_spec (byte_to_Z y) (byte_to_Z x)),
    (Z.ltb_spec (byte_to_Z y) (byte_to_Z z)), (Z.ltb_spec (byte_to_Z z) (byte_to_Z y)),
    (Z.ltb_spec (byte_to_Z x) (byte_to_Z z)), (Z.ltb_spec (byte_to_Z z) (byte_to_Z x));
    try lia; eauto.
Qed.

#[export] Instance bytes_ComparatorLaws : ComparatorLaws bytes.
Proof. split; [apply bytes_Compare_opp|apply bytes_Compare_le_trans]. Qed.

Lemma bytes_Equal_spec a b : bytes_Equal a b = true <-> a = b.
Proof. apply bool_decide_eq_true. Qed.

(** A sorted list splits at any key into the smaller elements and the others. *)
Lemma sorted_split {A K} `{ComparatorLaws K} (f : A -> K) (t : K) (l : list A) :
  StronglySorted (fun x y => cmp (f x) (f y) <= 0) l ->
  ∃ pre post, l = pre ++ post ∧ Forall (fun x => cmp (f x) t < 0) pre ∧
    Forall (fun x => 0 <= cmp (f x) t) post.
Proof.
  induction 1 as [|x l Hs IH Hx]; [by exists [], []|].
  destruct (Z.lt_ge_cases (cmp (f x) t) 0) as [Hlt|Hge].
  - destruct IH as (pre & post & -> & Hpre & Hpost).
    exists (x :: pre), post. by rewrite Forall_cons.
  - exists [], (x :: l). split_and!; [done..|]. rewrite Forall_cons. split; [done|].
    eapply Forall_impl; [exact Hx|]. cbn. intros y Hy.
    destruct (Z.lt_ge_cases (cmp (f y) t) 0); [|done].
    pose proof (cmp_le_lt_trans (f x) (f y) t). lia.
Qed.

(** The last element satisfying a test splits a list. *)
Lemma last_filter_split {A} (P : A -> Prop) `{∀ x, Decision (P x)} (l : list A) :
  ∃ a b, l = a ++ b ∧ last a = last (filter P l).
Proof.
  induction l as [|x l IH] using rev_ind; [by exists [], []|].
  rewrite filter_app. destruct (decide (P x)) as [HP|HP].
  - exists (l ++ [x]), []. rewrite app_nil_r, filter_cons_True, filter_nil by done.
    by rewrite !last_snoc.
  - rewrite filter_cons_False, filter_nil, app_nil_r by done.
    destruct IH as (a & b & -> & Hl). exists a, (b ++ [x]). by rewrite app_assoc.
Qed.

Lemma last_app_default {A} (d : A) l k :
  default d (last (l ++ k)) = default (default d (last l)) (last k).
Proof. rewrite last_app. by destruct (last k). Qed.

Lemma filter_all {A} (P : A -> Prop) `{!∀ x, Decision (P x)} (l : list A) :
  (∀ x, x ∈ l -> P x) -> filter P l = l.
Proof.
  induction l as [|x l IH]; intros Hl; [done|]. rewrite filter_cons_True by (apply Hl; left).
  f_equal. apply IH. intros y Hy. apply Hl. by right.
Qed.

Lemma Forall2_impl_elem {A B} (P Q : A -> B -> Prop) (l : list A) (k : list B) :
  Forall2 P l k -> (∀ x y, x ∈ l -> P x y -> Q x y) -> Forall2 Q l k.
Proof.
  induction 1 as [|x y l k Hxy _ IH]; intros H; constructor; [apply H; [left|done]|].
  apply IH. intros x' y' Hin. apply H. by right.
Qed.
