(* ===== verification/GoStd.v ===== *)
(** * The parts of Go's standard library the program calls

    Executable models of [hash/crc32], [hash/fnv], [encoding/binary]'s varints, [sort.Search],
    [slices.Sort] on integers, [io.Writer] and [os.File].  A [File] carries a list of faults: each
    system call on it consumes one entry, and the call fails when the entry says so. *)

From S2P Require Import Prelude.

(** ** hash/crc32, IEEE polynomial *)

Definition crc32_poly : Z := 3988292384. (* 0xEDB88320 *)

Fixpoint crc32_shift (n : nat) (c : Z) : Z :=
  match n with
  | O => c
  | S n => crc32_shift n (if Z.odd c then Z.lxor (Z.shiftr c 1) crc32_poly else Z.shiftr c 1)
  end.

Definition crc32_byte (c : Z) (b : byte) : Z := crc32_shift 8 (Z.lxor c (byte_to_Z b)).

(** [crc32.Update]: complement, feed the bytes, complement. *)
Definition crc32_Update (c : Z) (p : bytes) : Z :=
  Z.lxor (foldl crc32_byte (Z.lxor c (2 ^ 32 - 1)) p) (2 ^ 32 - 1).

Definition crc32_ChecksumIEEE (p : bytes) : Z := crc32_Update 0 p.

(** ** hash/fnv, 64-bit FNV-1a *)

Definition fnv64a_offset : Z := 14695981039346656037.
Definition fnv64a_prime : Z := 1099511628211.

Definition fnv64a_Write (h : Z) (p : bytes) : Z :=
  foldl (fun h b => u64 (Z.lxor h (byte_to_Z b) * fnv64a_prime)) h p.

(** ** encoding/binary varints *)

Definition MaxVarintLen64 : nat := 10.

Fixpoint uvarint_bytes (fuel : nat) (x : Z) : bytes :=
  match fuel with
  | O => []
  | S n =>
      if 128 <=? x
      then byte_of_Z (Z.lor (x mod 256) 128) :: uvarint_bytes n (Z.shiftr x 7)
      else [byte_of_Z x]
  end.

(** [PutUvarint(tmp, x)] followed by [tmp[:n]], for [len(tmp) = MaxVarintLen64]. *)
Definition PutUvarint (x : Z) : bytes := uvarint_bytes MaxVarintLen64 x.

(** [binary.ReadUvarint]: the value, the error and the unread bytes.  [i] counts the bytes read. *)
Fixpoint ReadUvarint_loop (n i : nat) (x s : Z) (data : bytes) : Z * option error * bytes :=
  match n with
  | O => (x, Some (ErrText "binary: varint overflows a 64-bit integer"), data)
  | S n =>
      match data with
      | [] => (x, Some (if (0 <? i)%nat then ErrUnexpectedEOF else ErrEOF), [])
      | c :: rest =>
          let b := byte_to_Z c in
          if b <? 128 then
            if (i =? MaxVarintLen64 - 1)%nat && (1 <? b)
            then (x, Some (ErrText "binary: varint overflows a 64-bit integer"), rest)
            else (Z.lor x (u64 (Z.shiftl b s)), None, rest)
          else ReadUvarint_loop n (S i) (Z.lor x (u64 (Z.shiftl (Z.land b 127) s))) (s + 7) rest
      end
  end.

Definition ReadUvarint (data : bytes) : Z * option error * bytes :=
  ReadUvarint_loop MaxVarintLen64 0 0 0 data.

(** ** sort.Search *)

Fixpoint sort_Search_loop (fuel : nat) (f : nat -> bool) (i j : nat) : nat :=
  match fuel with
  | O => i
  | S fuel =>
      if (i <? j)%nat then
        let h := ((i + j) / 2)%nat in
        if f h then sort_Search_loop fuel f i h else sort_Search_loop fuel f (S h) j
      else i
  end.

(** The smallest index in [0, n) at which the monotone [f] holds, [n] if there is none. *)
Definition sort_Search (n : nat) (f : nat -> bool) : nat := sort_Search_loop n f 0 n.

(** ** slices.Sort on unsigned integers: the sorted permutation is unique, so any sort will do. *)

Definition slices_Sort (l : list Z) : list Z := merge_sort Z.le l.

(** ** io.Writer *)

Class Writer (W : Type) := w_Write : W -> bytes -> W * Z * option error.

(** bytes.Buffer, which never fails. *)
#[export] Instance Buffer_Writer : Writer bytes := fun b p => (b ++ p, len p, None).

(** ** os.File

    [fdata] is what has been written, [fdurable] how much of it is known to survive a crash
    (everything written before the last successful Sync).  A fault [Some k] makes the next call
    fail, a write after [k] bytes; [None] or the end of the list lets it succeed. *)

Record File := mkFile { fdata : bytes; fdurable : Z; ffaults : list (option Z) }.

Definition NewFile : File := mkFile [] 0 [].

Definition file_Write (f : File) (p : bytes) : File * Z * option error :=
  match ffaults f with
  | Some k :: fl =>
      let q := take (Z.to_nat k) p in
      (mkFile (fdata f ++ q) (fdurable f) fl, len q, Some ErrIO)
  | fl => (mkFile (fdata f ++ p) (fdurable f) (tail fl), len p, None)
  end.

Definition file_Sync (f : File) : File * option error :=
  match ffaults f with
  | Some _ :: fl => (mkFile (fdata f) (fdurable f) fl, Some ErrIO)
  | fl => (mkFile (fdata f) (len (fdata f)) (tail fl), None)
  end.

#[export] Instance File_Writer : Writer File := file_Write.

(** ** Lemmas *)

Lemma crc32_Update_app c a b : crc32_Update (crc32_Update c a) b = crc32_Update c (a ++ b).
Proof.
  unfold crc32_Update. rewrite foldl_app, Z.lxor_assoc, Z.lxor_nilpotent, Z.lxor_0_r. done.
Qed.

(** A value below [2 ^ n] is one with no bit at [n] or above. *)
Lemma below_pow2_bits x n :
  0 <= n -> 0 <= x -> (∀ i, n <= i -> Z.testbit x i = false) -> x < 2 ^ n.
Proof.
  intros Hn Hx H. destruct (Z.eq_dec x 0) as [->|]; [lia|].
  apply Z.log2_lt_pow2; [lia|]. destruct (Z.lt_ge_cases (Z.log2 x) n) as [|Hge]; [done|].
  pose proof (Z.bit_log2 x ltac:(lia)). rewrite (H _ Hge) in *. done.
Qed.

Lemma testbit_above x n i : 0 <= x < 2 ^ n -> n <= i -> Z.testbit x i = false.
Proof.
  intros Hx Hi. destruct (Z.eq_dec x 0) as [->|]; [apply Z.bits_0|].
  apply Z.bits_above_log2; [lia|].
  apply Z.lt_le_trans with n; [apply Z.log2_lt_pow2; lia|done].
Qed.

Lemma lxor_range n x y : 0 <= n -> 0 <= x < 2 ^ n -> 0 <= y < 2 ^ n -> 0 <= Z.lxor x y < 2 ^ n.
Proof.
  intros Hn Hx Hy. assert (0 <= Z.lxor x y) by (apply Z.lxor_nonneg; lia).
  split; [done|]. apply below_pow2_bits; [done..|]. intros i Hi.
  by rewrite Z.lxor_spec, (testbit_above x n), (testbit_above y n).
Qed.

Lemma shiftr1_range n x : 0 <= x < 2 ^ n -> 0 <= Z.shiftr x 1 < 2 ^ n.
Proof.
  intros Hx. rewrite Z.shiftr_div_pow2 by lia. change (2 ^ 1) with 2.
  set (m := 2 ^ n) in *. lia.
Qed.

Lemma crc32_shift_range n c : 0 <= c < 2 ^ 32 -> 0 <= crc32_shift n c < 2 ^ 32.
Proof.
  revert c. induction n as [|n IH]; intros c Hc; [done|]. cbn [crc32_shift].
  apply IH. pose proof (shiftr1_range 32 c Hc).
  destruct (Z.odd c); [|done]. apply lxor_range; [lia|done|]. unfold crc32_poly. lia.
Qed.

Lemma crc32_range p : 0 <= crc32_ChecksumIEEE p < 2 ^ 32.
Proof.
  unfold crc32_ChecksumIEEE, crc32_Update. apply lxor_range; [lia| |lia].
  assert (∀ c, 0 <= c < 2 ^ 32 -> 0 <= foldl crc32_byte c p < 2 ^ 32) as H.
  { induction p as [|b p IH]; intros c Hc; [done|]. cbn [foldl]. apply IH.
    apply crc32_shift_range, lxor_range; [lia|done|]. pose proof (byte_to_Z_range b). lia. }
  apply H. change (Z.lxor 0 (2 ^ 32 - 1)) with (2 ^ 32 - 1). lia.
Qed.

Lemma fnv64a_range h p : 0 <= h < 2 ^ 64 -> 0 <= fnv64a_Write h p < 2 ^ 64.
Proof.
  unfold fnv64a_Write. revert h. induction p as [|b p IH]; intros h Hh; [done|].
  cbn [foldl]. apply IH, u64_range.
Qed.

(** *** sort.Search returns the boundary of a monotone predicate *)

Lemma sort_Search_loop_spec fuel (f : nat -> bool) n i j :
  (∀ a b, (a <= b)%nat -> (b < n)%nat -> f a = true -> f b = true) ->
  (j - i <= fuel)%nat -> (i <= j <= n)%nat ->
  (∀ a, (a < i)%nat -> f a = false) -> (∀ b, (j <= b)%nat -> (b < n)%nat -> f b = true) ->
  let r := sort_Search_loop fuel f i j in
  (i <= r <= j)%nat ∧ (∀ a, (a < r)%nat -> f a = false) ∧
  (∀ b, (r <= b)%nat -> (b < n)%nat -> f b = true).
Proof.
  intros Hm. revert i j. induction fuel as [|fuel IH]; intros i j Hf Hij Hlo Hhi.
  - cbn. split_and!; try lia; [done|]. intros. apply Hhi; lia.
  - cbn [sort_Search_loop]. destruct (Nat.ltb_spec i j) as [Hlt|Hge]; cycle 1.
    { cbn. split_and!; try lia; [done|]. intros. apply Hhi; lia. }
    pose proof (Nat.div_mod_eq (i + j) 2) as Hd.
    pose proof (Nat.mod_upper_bound (i + j) 2 ltac:(lia)).
    set (h := ((i + j) / 2)%nat) in *.
    destruct (f h) eqn:Hfh.
    + destruct (IH i h) as (? & ? & ?); [lia|lia|done| |split_and!; [lia|lia|done|done]].
      intros b ??. apply (Hm h); [lia..|done].
    + destruct (IH (S h) j) as (? & ? & ?); [lia|lia| |done|split_and!; [lia|lia|done|done]].
      intros a Ha. destruct (f a) eqn:Hfa; [|done].
      rewrite (Hm a h) in Hfh; [done|lia|lia|done].
Qed.

Lemma sort_Search_spec n (f : nat -> bool) :
  (∀ a b, (a <= b)%nat -> (b < n)%nat -> f a = true -> f b = true) ->
  (sort_Search n f <= n)%nat ∧ (∀ a, (a < sort_Search n f)%nat -> f a = false) ∧
  (∀ b, (sort_Search n f <= b)%nat -> (b < n)%nat -> f b = true).
Proof.
  intros Hm. destruct (sort_Search_loop_spec n f n 0 n) as (? & ? & ?); try lia; [done|].
  split_and!; [unfold sort_Search; lia|done|done].
Qed.

(** Whatever the predicate, the result is an index in range or [n]. *)
Lemma sort_Search_loop_le fuel f i j :
  (i <= j)%nat -> (i <= sort_Search_loop fuel f i j <= j)%nat.
Proof.
  revert i j. induction fuel as [|fuel IH]; intros i j Hij; cbn [sort_Search_loop]; [lia|].
  destruct (Nat.ltb_spec i j); [|lia].
  pose proof (Nat.div_mod_eq (i + j) 2).
  pose proof (Nat.mod_upper_bound (i + j) 2 ltac:(lia)).
  destruct (f _); [specialize (IH i ((i + j) / 2)%nat)|specialize (IH (S ((i + j) / 2)) j)]; lia.
Qed.

(** The predicate the program searches with: splitting a list whose prefix fails and whose suffix
    satisfies a test. *)
Lemma sort_Search_app {A} (p : A -> bool) (l1 l2 : list A) (f : nat -> bool) :
  Forall (fun x => p x = false) l1 -> Forall (fun x => p x = true) l2 ->
  (∀ i x, (l1 ++ l2) !! i = Some x -> f i = p x) ->
  sort_Search (length (l1 ++ l2)) f = length l1.
Proof.
  intros H1 H2 Hf. rewrite Forall_lookup in H1, H2.
  assert (∀ a, (a < length l1)%nat -> f a = false) as Hlo.
  { intros a Ha. destruct (lookup_lt_is_Some_2 l1 a Ha) as [x Hx].
    rewrite (Hf a x) by (by rewrite lookup_app_l). by eapply H1. }
  assert (∀ a, (length l1 <= a)%nat -> (a < length (l1 ++ l2))%nat -> f a = true) as Hhi.
  { intros a Ha Hb. destruct (lookup_lt_is_Some_2 _ _ Hb) as [x Hx].
    rewrite (Hf a x) by done. rewrite lookup_app_r in Hx by lia. by eapply H2. }
  destruct (sort_Search_spec (length (l1 ++ l2)) f) as (Hr & Ha & Hb).
  { intros a b Hab Hb Ht. apply Hhi; [|done].
    destruct (Nat.lt_ge_cases a (length l1)) as [Hc|]; [|lia]. by rewrite Hlo in Ht. }
  set (r := sort_Search _ f) in *. rewrite length_app in *.
  destruct (Nat.lt_trichotomy r (length l1)) as [Hc|[Hc|Hc]]; [|done|].
  - specialize (Hb r). rewrite Hlo in Hb by done. specialize (Hb ltac:(lia) ltac:(lia)). done.
  - specialize (Ha (length l1) Hc). rewrite Hhi in Ha by lia. done.
Qed.

(** *** Varints round trip *)

Lemma lor_disjoint a b s : 0 <= s -> 0 <= a < 2 ^ s -> Z.lor a (Z.shiftl b s) = a + b * 2 ^ s.
Proof.
  intros Hs Ha. rewrite <- Z.shiftl_mul_pow2 by done.
  rewrite <- Z.add_lor_land. replace (Z.land a (Z.shiftl b s)) with 0; [lia|].
  apply Z.bits_inj'. intros i Hi. rewrite Z.bits_0, Z.land_spec.
  destruct (Z.lt_ge_cases i s).
  - by rewrite Z.shiftl_spec_low, andb_false_r.
  - by rewrite (testbit_above a s).
Qed.

Lemma varint_byte v :
  0 <= v < 256 -> Z.land (Z.lor v 128) 127 = v mod 128 ∧ 128 <= Z.lor v 128 < 256.
Proof.
  intros Hv.
  assert (Forall (fun v => Z.land (Z.lor v 128) 127 = v mod 128 ∧
    128 <= Z.lor v 128 ∧ Z.lor v 128 < 256) (seqZ 0 256)) as H
    by (apply (bool_decide_unpack _); vm_compute; exact I).
  rewrite Forall_forall in H. apply H. apply elem_of_seqZ. lia.
Qed.

Lemma ReadUvarint_loop_PutUvarint n i acc x rest :
  (n + i = 10)%nat -> (0 < n)%nat -> let s := 7 * Z.of_nat i in
  0 <= acc < 2 ^ s -> 0 <= x < 2 ^ (64 - s) ->
  ReadUvarint_loop n i acc s (uvarint_bytes n x ++ rest) = (acc + x * 2 ^ s, None, rest).
Proof.
  revert i acc x. induction n as [|n IH]; intros i acc x Hn Hpos s Hacc Hx; [lia|].
  assert (2 ^ 64 = 2 ^ (64 - s) * 2 ^ s) as E64 by (rewrite <- Z.pow_add_r by lia; f_equal; lia).
  assert (0 < 2 ^ s) by (apply Z.pow_pos_nonneg; lia).
  cbn [uvarint_bytes]. destruct (Z.leb_spec 128 x) as [Hge|Hlt].
  - destruct (varint_byte (x mod 256)) as [Hland Hlor]; [lia|].
    cbn [app ReadUvarint_loop]. rewrite byte_to_of_Z, (Z.mod_small (Z.lor _ _)) by lia.
    rewrite (proj2 (Z.ltb_ge _ 128)), Hland by lia.
    replace ((x mod 256) mod 128) with (x mod 128) by lia.
    assert (64 - s > 7) as Hs7.
    { destruct (Z.le_gt_cases (64 - s) 7); [|lia].
      assert (2 ^ (64 - s) <= 2 ^ 7) by (apply Z.pow_le_mono_r; lia). lia. }
    assert (2 ^ (s + 7) = 2 ^ s * 128) as E7 by (rewrite Z.pow_add_r by lia; done).
    assert (2 ^ (64 - s) = 2 ^ (64 - s - 7) * 128) as E57
      by (rewrite <- (Z.pow_add_r 2 _ 7) by lia; f_equal; lia).
    rewrite u64_small by (rewrite Z.shiftl_mul_pow2 by lia; nia).
    rewrite lor_disjoint by lia.
    replace (s + 7) with (7 * Z.of_nat (S i)) by lia.
    rewrite Z.shiftr_div_pow2 by lia. change (2 ^ 7) with 128.
    rewrite IH; [| lia | lia | |].
    + replace (7 * Z.of_nat (S i)) with (s + 7) by lia. rewrite E7. do 2 f_equal. nia.
    + replace (7 * Z.of_nat (S i)) with (s + 7) by lia. nia.
    + replace (64 - 7 * Z.of_nat (S i)) with (64 - s - 7) by lia. lia.
  - cbn [app ReadUvarint_loop]. rewrite byte_to_of_Z, (Z.mod_small x) by lia.
    rewrite (proj2 (Z.ltb_lt x 128)) by lia.
    replace ((i =? MaxVarintLen64 - 1)%nat && (1 <? x)) with false.
    + rewrite u64_small by (rewrite Z.shiftl_mul_pow2 by lia; nia).
      rewrite lor_disjoint by lia. done.
    + symmetry. apply andb_false_iff. unfold MaxVarintLen64.
      destruct (Nat.eq_dec i 9%nat); [right|left; apply Nat.eqb_neq; lia].
      apply Z.ltb_ge. assert (64 - s = 1) as Hs1 by lia. rewrite Hs1 in Hx. lia.
Qed.

Lemma ReadUvarint_PutUvarint x rest :
  0 <= x < 2 ^ 64 -> ReadUvarint (PutUvarint x ++ rest) = (x, None, rest).
Proof.
  intros Hx. unfold ReadUvarint, PutUvarint.
  pose proof (ReadUvarint_loop_PutUvarint 10 0 0 x rest) as H. cbn beta iota zeta in H.
  change (7 * Z.of_nat 0) with 0 in H. unfold MaxVarintLen64.
  rewrite H by lia. change (2 ^ 0) with 1. by rewrite Z.mul_1_r.
Qed.

Lemma uvarint_bytes_cons n x : ∃ b l, uvarint_bytes (S n) x = b :: l.
Proof. cbn [uvarint_bytes]. destruct (128 <=? x); eauto. Qed.

(** *** The contract of io.Writer

    A write appends a prefix of its argument, reports how much, and appends all of it when it
    returns no error. *)

Class WriterLaws (W : Type) `{Writer W} (wdata : W -> bytes) : Prop :=
  w_Write_spec (w : W) (p : bytes) : let '(w', n, err) := w_Write w p in
    ∃ q, q `prefix_of` p ∧ wdata w' = wdata w ++ q ∧ n = len q ∧ (err = None -> q = p).

#[export] Instance Buffer_WriterLaws : WriterLaws bytes id.
Proof. intros w p. by exists p. Qed.

#[export] Instance File_WriterLaws : WriterLaws File fdata.
Proof.
  intros [d du fl] p. unfold w_Write, File_Writer, file_Write. cbn.
  destruct fl as [|[k|] fl]; cbn.
  - by exists p.
  - exists (take (Z.to_nat k) p). split_and!; try done. apply prefix_take.
  - by exists p.
Qed.
