(* ===== verification/Records.v ===== *)
(** * Package record: internal keys and records

    [internal_key.go] and [record.go]: the three-way comparison of internal keys, the sizes, and
    the encoders and decoders of keys and records.  The abstract layouts [key_bytes] and
    [record_bytes] are what the encoders are shown to write and the decoders to accept. *)

From S2P Require Import Prelude.
From S2P Require Import GoStd.

(** ** Internal keys *)

(** [IKType] is a uint8; the decoders accept any byte. *)
Definition TypePut : Z := 1.
Definition TypeDel : Z := 0.

Record InternalKey := mkIK { UserKey : bytes; SeqNum : Z; KType : Z }.

Definition KeySize (k : InternalKey) : Z := u32 (4 + u32 (len (UserKey k)) + 8 + 1).

Definition keyLen (k : InternalKey) : Z := u32 (len (UserKey k)).

(** User keys ascending, sequence numbers descending; the type does not take part. *)
Definition Compare (k other : InternalKey) : Z :=
  let c := bytes_Compare (UserKey k) (UserKey other) in
  if negb (c =? 0) then c
  else if SeqNum k <? SeqNum other then 1
  else if SeqNum other <? SeqNum k then -1
  else 0.

Definition EncodeInternalKey (dst : bytes) (off : Z) (k : InternalKey) : res (bytes * Z) :=
  dst ← PutUint32 dst off (u32 (len (UserKey k)));
  let off := off + 4 in
  dst ← copy_at dst off (UserKey k);
  let off := off + len (UserKey k) in
  dst ← PutUint64 dst off (SeqNum k);
  let off := off + 8 in
  dst ← PutByte dst off (KType k);
  let off := off + 1 in
  Ok (dst, off).

Definition DecodeInternalKey (src : bytes) (off : Z) : res (InternalKey * Z) :=
  if len src <? off + 4 then Err ErrCorruptRecord else
  keyLen ← Uint32 src off;
  let off := off + 4 in
  if len src <? off + keyLen then Err ErrCorruptRecord else
  userKey ← slice src off (off + keyLen);
  let off := off + keyLen in
  if len src <? off + 8 then Err ErrCorruptRecord else
  seq ← Uint64 src off;
  let off := off + 8 in
  if len src <? off + 1 then Err ErrCorruptRecord else
  typ ← ByteAt src off;
  let off := off + 1 in
  Ok (mkIK userKey seq typ, off).

(** ** Records *)

(** [Value] may be nil, which WriteBatch tells from empty. *)
Record Rec := mkRec { RKey : InternalKey; Value : option bytes }.
Coercion RKey : Rec >-> InternalKey.

Definition IsTombstone (r : Rec) : bool := KType r =? TypeDel.

Definition Size (r : Rec) : Z := u32 (KeySize r + 4 + u32 (len (sbytes (Value r)))).
Definition KeyLen (r : Rec) : Z := keyLen r.
Definition ValueLen (r : Rec) : Z := u32 (len (sbytes (Value r))).

(** One write of the chain, the total so far threaded through; an error ends the chain. *)
Definition write_step {W} `{Writer W} (p : bytes) (st : W * Z * option error) :
    W * Z * option error :=
  match st with
  | (w, total, None) => let '(w, n, err) := w_Write w p in (w, total + n, err)
  | _ => st
  end.

Definition EncodeRecordIntoWriter {W} `{Writer W} (w : W) (r : Rec) : W * Z * option error :=
  let st := (w, 0, None) in
  let st := write_step (le_bytes 4 (u32 (len (UserKey r)))) st in
  let st := write_step (UserKey r) st in
  let st := write_step (le_bytes 8 (SeqNum r)) st in
  let st := write_step [byte_of_Z (KType r)] st in
  let st := write_step (le_bytes 4 (u32 (len (sbytes (Value r))))) st in
  write_step (sbytes (Value r)) st.

Definition EncodeRecordInto (dst : bytes) (r : Rec) : res (bytes * Z) :=
  let off := 0 in
  dst ← PutUint32 dst off (u32 (len (UserKey r)));
  let off := off + 4 in
  dst ← copy_at dst off (UserKey r);
  let off := off + len (UserKey r) in
  dst ← PutUint64 dst off (SeqNum r);
  let off := off + 8 in
  dst ← PutByte dst off (KType r);
  let off := off + 1 in
  dst ← PutUint32 dst off (u32 (len (sbytes (Value r))));
  let off := off + 4 in
  dst ← copy_at dst off (sbytes (Value r));
  let off := off + len (sbytes (Value r)) in
  Ok (dst, off).

Definition DecodeRecord (data : bytes) : res Rec :=
  let off := 0 in
  if len data <? 4 then Err ErrCorruptRecord else
  keyLen ← Uint32 data off;
  let off := off + 4 in
  if len data <? off + keyLen then Err ErrCorruptRecord else
  userKey ← slice data off (off + keyLen);
  let off := off + keyLen in
  if len data <? off + 8 then Err ErrCorruptRecord else
  seq ← Uint64 data off;
  let off := off + 8 in
  if len data <? off + 1 then Err ErrCorruptRecord else
  typ ← ByteAt data off;
  let off := off + 1 in
  if len data <? off + 4 then Err ErrCorruptRecord else
  valLen ← Uint32 data off;
  let off := off + 4 in
  if len data <? off + valLen then Err ErrCorruptRecord else
  value ← slice data off (off + valLen);
  Ok (mkRec (mkIK userKey seq typ) (Some value)).

(** ** Specification: the layouts and the representable values *)

Definition key_bytes (k : InternalKey) : bytes :=
  le_bytes 4 (len (UserKey k)) ++ UserKey k ++ le_bytes 8 (SeqNum k) ++ [byte_of_Z (KType k)].

Definition record_bytes (r : Rec) : bytes :=
  key_bytes r ++ le_bytes 4 (len (sbytes (Value r))) ++ sbytes (Value r).

(** Field values of the Go types, and a length that its uint32 field can hold. *)
Definition wf_key (k : InternalKey) : Prop :=
  len (UserKey k) < 2 ^ 32 ∧ 0 <= SeqNum k < 2 ^ 64 ∧ 0 <= KType k < 256.

Definition wf_rec (r : Rec) : Prop := wf_key r ∧ len (sbytes (Value r)) < 2 ^ 32.

(** Its encoding fits a uint32 as well, so that [Size] is exact. *)
Definition small_rec (r : Rec) : Prop :=
  wf_rec r ∧ len (UserKey r) + len (sbytes (Value r)) + 17 < 2 ^ 32.

(** Decoding always allocates the value: nil comes back as an empty slice. *)
Definition normalize (r : Rec) : Rec := mkRec (RKey r) (Some (sbytes (Value r))).

(** *** Decidability and instances *)

#[export] Instance InternalKey_eq_dec : EqDecision InternalKey.
Proof. solve_decision. Defined.

#[export] Instance Rec_eq_dec : EqDecision Rec.
Proof. solve_decision. Defined.

#[export] Instance InternalKey_Comparator : Comparator InternalKey := Compare.

Lemma small_normalize r : small_rec r -> small_rec (normalize r).
Proof. done. Qed.

#[export] Instance wf_key_dec k : Decision (wf_key k).
Proof. unfold wf_key. solve_decision. Defined.

#[export] Instance wf_rec_dec r : Decision (wf_rec r).
Proof. unfold wf_rec. solve_decision. Defined.

#[export] Instance small_rec_dec r : Decision (small_rec r).
Proof. unfold small_rec. solve_decision. Defined.

(** ** The order of internal keys *)

Lemma Compare_opp a b : Compare b a = - Compare a b.
Proof.
  unfold Compare. rewrite (bytes_Compare_opp (UserKey a)).
  destruct (Z.eqb_spec (bytes_Compare (UserKey a) (UserKey b)) 0) as [E|E].
  - rewrite E, Z.opp_0, Z.eqb_refl. cbn [negb]. destruct (Z.ltb_spec (SeqNum a) (SeqNum b)),
      (Z.ltb_spec (SeqNum b) (SeqNum a)); lia.
  - rewrite (proj2 (Z.eqb_neq _ 0)) by lia. done.
Qed.

(** The comparison is the lexicographic order of the user key and the reversed sequence number. *)
Lemma Compare_le_iff a b :
  Compare a b <= 0 <->
  bytes_Compare (UserKey a) (UserKey b) < 0 ∨ UserKey a = UserKey b ∧ SeqNum b <= SeqNum a.
Proof.
  unfold Compare. rewrite <- bytes_Compare_eq.
  destruct (Z.eqb_spec (bytes_Compare (UserKey a) (UserKey b)) 0) as [E|E]; cbn; [|lia].
  destruct (Z.ltb_spec (SeqNum a) (SeqNum b)), (Z.ltb_spec (SeqNum b) (SeqNum a)); lia.
Qed.

Lemma Compare_lt_iff a b :
  Compare a b < 0 <->
  bytes_Compare (UserKey a) (UserKey b) < 0 ∨ UserKey a = UserKey b ∧ SeqNum b < SeqNum a.
Proof.
  unfold Compare. rewrite <- bytes_Compare_eq.
  destruct (Z.eqb_spec (bytes_Compare (UserKey a) (UserKey b)) 0) as [E|E]; cbn; [|lia].
  destruct (Z.ltb_spec (SeqNum a) (SeqNum b)), (Z.ltb_spec (SeqNum b) (SeqNum a)); lia.
Qed.

Lemma Compare_eq_iff a b : Compare a b = 0 <-> UserKey a = UserKey b ∧ SeqNum a = SeqNum b.
Proof.
  pose proof (Compare_le_iff a b) as H1. pose proof (Compare_lt_iff a b) as H2.
  rewrite <- bytes_Compare_eq in *. lia.
Qed.

#[export] Instance InternalKey_ComparatorLaws : ComparatorLaws InternalKey.
Proof.
  split; [apply Compare_opp|]. intros a b c. unfold cmp, InternalKey_Comparator.
  rewrite !Compare_le_iff.
  pose proof (cmp_lt_trans (UserKey a) (UserKey b) (UserKey c)) as Ht.
  unfold cmp, bytes_Comparator in Ht.
  intros [H1|[-> H1]] [H2|[<- H2]]; auto with lia.
Qed.

(** ** Sizes *)

Lemma len_key_bytes k : len (key_bytes k) = len (UserKey k) + 13.
Proof. unfold key_bytes. len_lia. Qed.

Lemma len_record_bytes r :
  len (record_bytes r) = len (UserKey r) + len (sbytes (Value r)) + 17.
Proof. unfold record_bytes. rewrite !len_app, len_key_bytes, len_le_bytes. lia. Qed.

#[export] Hint Rewrite len_key_bytes len_record_bytes : len.

Lemma KeySize_exact k : len (UserKey k) + 13 < 2 ^ 32 -> KeySize k = len (key_bytes k).
Proof.
  intros H. unfold KeySize. rewrite len_key_bytes. pose proof (len_nonneg (UserKey k)).
  rewrite (u32_small (len _)) by lia. rewrite u32_small; lia.
Qed.

Lemma Size_exact r : small_rec r -> Size r = len (record_bytes r).
Proof.
  intros [_ H]. unfold Size.
  pose proof (len_nonneg (UserKey r)). pose proof (len_nonneg (sbytes (Value r))).
  rewrite KeySize_exact by lia. rewrite len_record_bytes, len_key_bytes.
  rewrite (u32_small (len _)) by lia. rewrite u32_small by lia. lia.
Qed.

Lemma Size_range r : 0 <= Size r < 2 ^ 32.
Proof. apply u32_range. Qed.

(** ** Encoding *)

Lemma le_bytes_u32 z : le_bytes 4 (u32 z) = le_bytes 4 z.
Proof.
  rewrite <- (le_bytes_le_value (le_bytes 4 z)), le_value_4. reflexivity.
Qed.

(** The encoders fill a long enough buffer with the layout and leave the rest alone. *)
Lemma EncodeInternalKey_app p tl k off :
  len p = off -> len (key_bytes k) <= len tl ->
  EncodeInternalKey (p ++ tl) off k =
    Ok ((p ++ key_bytes k) ++ drop (length (key_bytes k)) tl, off + len (key_bytes k)).
Proof.
  intros Hp Hl. rewrite len_key_bytes in *.
  unfold EncodeInternalKey, PutUint32, PutUint64, PutByte. rewrite !le_bytes_u32.
  do 4 put_step. unfold key_bytes. rewrite !drop_drop, <- !app_assoc, !length_app.
  do 2 f_equal. lia.
Qed.

Lemma EncodeRecordInto_app tl r :
  len (record_bytes r) <= len tl ->
  EncodeRecordInto tl r =
    Ok (record_bytes r ++ drop (length (record_bytes r)) tl, len (record_bytes r)).
Proof.
  intros Hl. rewrite len_record_bytes in *. change tl with ([] ++ tl) at 1.
  unfold EncodeRecordInto, PutUint32, PutUint64, PutByte. rewrite !le_bytes_u32.
  do 6 put_step. unfold record_bytes, key_bytes.
  rewrite !drop_drop, <- !app_assoc, !length_app.
  do 2 f_equal. lia.
Qed.

(** ** Decoding *)

(** Step through a decoder: a successful bounds check, then a read of the known data. *)
Ltac decode_step H :=
  lazymatch type of H with
  | at_off ?d ?o (le_bytes 4 ?v ++ _) =>
      rewrite (Uint32_at _ _ _ _ H); apply (at_off_le_bytes 4) in H; change (Z.of_nat 4) with 4 in H
  | at_off ?d ?o (le_bytes 8 ?v ++ _) =>
      rewrite (Uint64_at _ _ _ _ H); apply (at_off_le_bytes 8) in H; change (Z.of_nat 8) with 8 in H
  | at_off ?d ?o (?b :: _) =>
      rewrite (ByteAt_at _ _ _ _ H); apply at_off_byte in H
  | at_off ?d ?o (?c ++ _) =>
      rewrite (slice_at_app _ _ _ _ H); apply at_off_app in H
  end; cbn [mbind res_bind].

Ltac check_ok H :=
  rewrite (proj2 (Z.ltb_ge (len _) _)) by (pose proof (at_off_len _ _ _ H); len_lia).

Lemma DecodeInternalKey_key_bytes data off k rest :
  wf_key k -> at_off data off (key_bytes k ++ rest) ->
  DecodeInternalKey data off = Ok (k, off + len (key_bytes k)).
Proof.
  intros (H1 & H2 & H3) H. unfold key_bytes in H. rewrite <- !app_assoc in H.
  pose proof (len_nonneg (UserKey k)). unfold DecodeInternalKey.
  check_ok H. decode_step H. rewrite u32_small by lia.
  check_ok H. decode_step H.
  check_ok H. decode_step H. rewrite u64_small by lia.
  cbn [app] in H. check_ok H. decode_step H.
  rewrite byte_to_of_Z, Z.mod_small by lia.
  rewrite len_key_bytes. destruct k; cbn in *. do 2 f_equal. lia.
Qed.

Lemma DecodeRecord_record_bytes r rest :
  wf_rec r -> DecodeRecord (record_bytes r ++ rest) = Ok (normalize r).
Proof.
  intros [(H1 & H2 & H3) H4].
  remember (record_bytes r ++ rest) as data eqn:E.
  pose proof (at_off_start data) as H. rewrite E in H at 2. clear E.
  unfold record_bytes, key_bytes in H. rewrite <- !app_assoc in H.
  pose proof (len_nonneg (UserKey r)). pose proof (len_nonneg (sbytes (Value r))).
  unfold DecodeRecord.
  check_ok H. decode_step H. rewrite u32_small by lia.
  check_ok H. decode_step H.
  check_ok H. decode_step H. rewrite u64_small by lia.
  cbn [app] in H. check_ok H. decode_step H.
  rewrite byte_to_of_Z, Z.mod_small by lia.
  check_ok H. decode_step H. rewrite u32_small by lia.
  check_ok H. decode_step H.
  by destruct r as [[]].
Qed.

(** Step through a decoder whose input is unknown: a failed bounds check is an error, a passed one
    reveals the next field. *)
Ltac decode_cases H :=
  let v := fresh "v" in let rest := fresh "rest" in let E := fresh "E" in let R := fresh "R" in
  match goal with
  | |- context [if ?a <? ?b then Err _ else _] =>
      destruct (Z.ltb_spec a b); [by right|]
  | |- context [Uint32 ?d ?o] =>
      destruct (Uint32_inv d o _ H) as (v & rest & E & -> & R & ?); [lia|];
      rewrite E; clear E H; rename select (at_off d _ rest) into H
  | |- context [Uint64 ?d ?o] =>
      destruct (Uint64_inv d o _ H) as (v & rest & E & -> & R & ?); [lia|];
      rewrite E; clear E H; rename select (at_off d _ rest) into H
  | |- context [ByteAt ?d ?o] =>
      destruct (ByteAt_inv d o _ H) as (v & rest & E & -> & ?); [lia|];
      rewrite E; clear E H; rename select (at_off d _ rest) into H
  | |- context [slice ?d ?o (?o + ?n)] =>
      destruct (slice_inv d o n _ H) as (v & rest & E & -> & R & ?); [lia|lia|];
      rewrite E; clear E H; rename select (at_off d _ rest) into H
  end; cbn [mbind res_bind].

Lemma DecodeInternalKey_cases src off rest :
  at_off src off rest ->
  (∃ k rest', DecodeInternalKey src off = Ok (k, off + len (key_bytes k)) ∧
     rest = key_bytes k ++ rest' ∧ wf_key k) ∨
  DecodeInternalKey src off = Err ErrCorruptRecord.
Proof.
  intros H. unfold DecodeInternalKey. repeat decode_cases H.
  rename select (len _ = _) into Hlen. left. pose proof (byte_to_Z_range v2).
  eexists (mkIK v0 v1 (byte_to_Z v2)), _. rewrite len_key_bytes. cbn. split_and!.
  - do 2 f_equal. lia.
  - unfold key_bytes. cbn. by rewrite Hlen, byte_of_to_Z, <- !app_assoc.
  - unfold wf_key. cbn. lia.
Qed.

Lemma DecodeRecord_cases data :
  (∃ r rest, DecodeRecord data = Ok r ∧ data = record_bytes r ++ rest ∧ wf_rec r ∧
     is_Some (Value r)) ∨
  DecodeRecord data = Err ErrCorruptRecord.
Proof.
  assert (∃ tl, at_off data 0 tl ∧ data = tl) as (tl & H & Htl) by eauto using at_off_start.
  unfold DecodeRecord. repeat decode_cases H.
  repeat match goal with E : len _ = _ |- _ => revert E end. intros Hv Hk. left.
  rename select (byte) into b. pose proof (byte_to_Z_range b).
  eexists (mkRec (mkIK _ _ (byte_to_Z b)) (Some _)), _. split_and!.
  - reflexivity.
  - rewrite Htl. unfold record_bytes, key_bytes. cbn.
    rewrite Hk, Hv, byte_of_to_Z, <- !app_assoc. reflexivity.
  - unfold wf_rec, wf_key. cbn. lia.
  - done.
Qed.

(** ** What the codecs guarantee *)

(** C34. The decoder accepts exactly the layouts of records, whatever follows them, and returns the
    record that was laid out. *)
Theorem DecodeRecord_iff data r :
  DecodeRecord data = Ok r <->
  wf_rec r ∧ is_Some (Value r) ∧ ∃ rest, data = record_bytes r ++ rest.
Proof.
  split.
  - destruct (DecodeRecord_cases data) as [(r' & rest & E & -> & Hwf & Hv)|E];
      rewrite E; [|done]. intros [= <-]. eauto.
  - intros (Hwf & [v Hv] & rest & ->). rewrite DecodeRecord_record_bytes by done.
    destruct r as [k val]. cbn in Hv. by subst val.
Qed.

(** No proper prefix of an encoded record decodes, and decoding never panics. *)
Theorem DecodeRecord_truncated r n :
  wf_rec r -> 0 <= n < len (record_bytes r) ->
  DecodeRecord (take (Z.to_nat n) (record_bytes r)) = Err ErrCorruptRecord.
Proof.
  intros Hwf Hn.
  destruct (DecodeRecord_cases (take (Z.to_nat n) (record_bytes r)))
    as [(r' & rest & _ & E & Hwf' & _)|E]; [|done].
  pose proof (DecodeRecord_record_bytes r [] Hwf) as D1. rewrite app_nil_r in D1.
  assert (record_bytes r = record_bytes r' ++ rest ++ drop (Z.to_nat n) (record_bytes r)) as E2
    by (rewrite app_assoc, <- E; by rewrite take_drop).
  rewrite E2, DecodeRecord_record_bytes in D1 by done. injection D1 as Hk Hv.
  assert (record_bytes r' = record_bytes r) as Hr by (unfold record_bytes; by rewrite Hk, Hv).
  apply (f_equal len) in E. rewrite Hr in E. len_lia.
Qed.

Lemma DecodeRecord_safe data : safe (DecodeRecord data).
Proof. destruct (DecodeRecord_cases data) as [(r & rest & -> & _)| -> ]; done. Qed.

(** The streaming encoder is the layout too: on any writer it appends a prefix of it and reports the
    length, and the whole of it exactly when no write failed. *)
Definition appends {W} (wdata : W -> bytes) (w : W) (p : bytes) (st : W * Z * option error) : Prop :=
  let '(w', n, err) := st in
  ∃ q, q `prefix_of` p ∧ wdata w' = wdata w ++ q ∧ n = len q ∧ (err = None -> q = p).

Lemma write_step_appends {W} `{WriterLaws W wdata} w p q st :
  appends wdata w p st -> appends wdata w (p ++ q) (write_step q st).
Proof.
  destruct st as [[w1 n] err]. intros (s & Hs & Hd & -> & He). destruct err as [e|]; cbn.
  - exists s. split_and!; [|done..]. by apply prefix_app_r.
  - rewrite (He eq_refl) in *. clear s Hs He.
    pose proof (w_Write_spec w1 q) as Hw. destruct (w_Write w1 q) as [[w2 m] err2].
    destruct Hw as (s & Hs & Hd2 & -> & He2). exists (p ++ s). split_and!.
    + by apply prefix_app.
    + by rewrite Hd2, Hd, app_assoc.
    + len_lia.
    + intros He. by rewrite (He2 He).
Qed.

Lemma EncodeRecordIntoWriter_layout {W} `{WriterLaws W wdata} (w : W) r :
  appends wdata w (record_bytes r) (EncodeRecordIntoWriter w r).
Proof.
  unfold EncodeRecordIntoWriter, record_bytes, key_bytes. rewrite !le_bytes_u32.
  rewrite !app_assoc, <- (app_nil_l (le_bytes 4 (len (UserKey r)))).
  do 6 apply write_step_appends. exists []. by rewrite app_nil_r.
Qed.
