(* ===== verification/Skiplist.v ===== *)
(** * Package memtable: the skip list

    [skiplist.go].  Nodes live in a store and are named by their index in it; the head is node 0.  A
    [forward] array holds node names, [None] for nil.  The operations return [None] where the Go
    code would dereference nil or index out of range, and when the fuel of a loop runs out; the
    theorems show that neither happens on a well-formed list. *)

From S2P Require Import Prelude.
From S2P Require Import GoStd.
From S2P Require Import Records.

Record SkiplistNode := mkNode {
  key : InternalKey;
  value : option bytes;
  forward : list (option nat)
}.

Record Skiplist := mkSL {
  nodes : list SkiplistNode;
  level : nat;
  maxLevel : nat
}.

Definition head : nat := 0.

(** [p.forward[i]]. *)
Definition fwd (ns : list SkiplistNode) (p i : nat) : option (option nat) :=
  n ← ns !! p; forward n !! i.

(** [p.forward[i] = q]. *)
Definition set_fwd (ns : list SkiplistNode) (p i : nat) (q : option nat) :
    option (list SkiplistNode) :=
  n ← ns !! p;
  if (i <? length (forward n))%nat
  then Some (<[p := mkNode (key n) (value n) (<[i := q]> (forward n))]> ns)
  else None.

Definition NewSkiplist (maxLevel : nat) : Skiplist :=
  mkSL [mkNode (mkIK [] 0 0) None (replicate maxLevel None)] 1 maxLevel.

(** [flips] are the outcomes of the comparisons [rand.Float64() < sl.p]. *)
Fixpoint randomLevel_loop (flips : list bool) (lvl max : nat) : nat :=
  match flips with
  | true :: flips => if (lvl <? max)%nat then randomLevel_loop flips (S lvl) max else lvl
  | _ => lvl
  end.

Definition randomLevel (sl : Skiplist) (flips : list bool) : nat :=
  randomLevel_loop flips 1 (maxLevel sl).

Section skiplist.
Context `{Comparator InternalKey}.

(** The inner loop: along level [i] while the next key is smaller than the target. *)
Fixpoint walk (fuel : nat) (ns : list SkiplistNode) (i : nat) (target : InternalKey) (curr : nat) :
    option nat :=
  match fuel with
  | O => None
  | S fuel =>
      next ← fwd ns curr i;
      match next with
      | None => Some curr
      | Some q =>
          n ← ns !! q;
          if cmp (key n) target <? 0 then walk fuel ns i target q else Some curr
      end
  end.

Definition fuel_of (sl : Skiplist) : nat := S (length (nodes sl)).

(** The outer loop of search and Seek: [for i := n-1; i >= 0; i--]. *)
Fixpoint descend (sl : Skiplist) (target : InternalKey) (n curr : nat) : option nat :=
  match n with
  | O => Some curr
  | S i =>
      curr ← walk (fuel_of sl) (nodes sl) i target curr;
      descend sl target i curr
  end.

(** The outer loop of insert, which also records the predecessors. *)
Fixpoint descend_update (sl : Skiplist) (target : InternalKey) (n curr : nat)
    (update : list (option nat)) : option (list (option nat)) :=
  match n with
  | O => Some update
  | S i =>
      curr ← walk (fuel_of sl) (nodes sl) i target curr;
      if (i <? length update)%nat
      then descend_update sl target i curr (<[i := Some curr]> update)
      else None
  end.

(** [for i := i; i < i + n; i++ { update[i] = sl.head }]. *)
Fixpoint raise_update (n i : nat) (update : list (option nat)) : option (list (option nat)) :=
  match n with
  | O => Some update
  | S n =>
      if (i <? length update)%nat
      then raise_update n (S i) (<[i := Some head]> update)
      else None
  end.

(** The splicing loop of insert, for the levels [i], ..., [i + n - 1]. *)
Fixpoint link_levels (n i : nat) (update : list (option nat)) (new : nat)
    (ns : list SkiplistNode) : option (list SkiplistNode) :=
  match n with
  | O => Some ns
  | S n =>
      u ← update !! i;
      p ← u;
      next ← fwd ns p i;
      ns ← set_fwd ns new i next;
      ns ← set_fwd ns p i (Some new);
      link_levels n (S i) update new ns
  end.

Definition insert (sl : Skiplist) (flips : list bool) (k : InternalKey) (v : option bytes) :
    option Skiplist :=
  update ← descend_update sl k (level sl) head (replicate (maxLevel sl) None);
  let lvl := randomLevel sl flips in
  '(update, level) ←
    (if (level sl <? lvl)%nat
     then update ← raise_update (lvl - level sl) (level sl) update; Some (update, lvl)
     else Some (update, level sl));
  let new := length (nodes sl) in
  let ns := nodes sl ++ [mkNode k v (replicate lvl None)] in
  ns ← link_levels lvl 0 update new ns;
  Some (mkSL ns level (maxLevel sl)).

(** The value, whether the key was found, whether it is deleted. *)
Definition search (sl : Skiplist) (userKey : bytes) (lookupKey : InternalKey) :
    option (option bytes * bool * bool) :=
  curr ← descend sl lookupKey (level sl) head;
  next ← fwd (nodes sl) curr 0;
  match next with
  | None => Some (None, false, false)
  | Some q =>
      n ← nodes sl !! q;
      if bytes_Equal (UserKey (key n)) userKey then
        if KType (key n) =? TypeDel then Some (None, true, true)
        else Some (value n, true, false)
      else Some (None, false, false)
  end.
End skiplist.

(** ** The abstract list and the well-formedness invariant *)

(** The reference: a list of records sorted by internal key. *)
Section reference.
Context `{Comparator InternalKey}.

Fixpoint insert_sorted (r : Rec) (l : list Rec) : list Rec :=
  match l with
  | [] => [r]
  | x :: l' => if cmp (RKey x) (RKey r) <? 0 then x :: insert_sorted r l' else r :: l
  end.

(** The records from the first one at or after [t] on. *)
Fixpoint seek_sorted (t : InternalKey) (l : list Rec) : list Rec :=
  match l with
  | [] => []
  | x :: l' => if cmp (RKey x) t <? 0 then seek_sorted t l' else l
  end.

Definition lookup_sorted (userKey : bytes) (t : InternalKey) (l : list Rec) :
    option bytes * bool * bool :=
  match seek_sorted t l with
  | x :: _ =>
      if bytes_Equal (UserKey x) userKey then
        if IsTombstone x then (None, true, true) else (Value x, true, false)
      else (None, false, false)
  | [] => (None, false, false)
  end.
End reference.

Definition dnode : SkiplistNode := mkNode (mkIK [] 0 0) None [].
Definition node (ns : list SkiplistNode) (p : nat) : SkiplistNode := default dnode (ns !! p).
Definition height (ns : list SkiplistNode) (p : nat) : nat := length (forward (node ns p)).
Definition rec_of (ns : list SkiplistNode) (p : nat) : Rec :=
  mkRec (key (node ns p)) (value (node ns p)).

(** The nodes of [ids] that take part in level [i]. *)
Definition at_level (ns : list SkiplistNode) (i : nat) (ids : list nat) : list nat :=
  filter (fun p => (i < height ns p)%nat) ids.

(** [F] chains [x] through [l] to nil. *)
Fixpoint linked (F : nat -> option (option nat)) (x : nat) (l : list nat) : Prop :=
  match l with
  | [] => F x = Some None
  | y :: l => F x = Some (Some y) ∧ linked F y l
  end.

Record wf_skiplist `{Comparator InternalKey} (sl : Skiplist) (ids : list nat) : Prop := {
  wf_level : (1 <= level sl <= maxLevel sl)%nat;
  wf_head : height (nodes sl) head = maxLevel sl ∧ is_Some (nodes sl !! head);
  wf_ids : Forall (fun p => p ≠ head ∧ is_Some (nodes sl !! p) ∧
             (1 <= height (nodes sl) p <= level sl)%nat) ids;
  wf_nodup : NoDup ids;
  wf_sorted : StronglySorted
    (fun p q => cmp (key (node (nodes sl) p)) (key (node (nodes sl) q)) <= 0) ids;
  wf_linked : ∀ i, (i < maxLevel sl)%nat ->
    linked (fun p => fwd (nodes sl) p i) head (at_level (nodes sl) i ids)
}.

(** [sl] is well formed and holds the records [l], in this order. *)
Definition represents `{Comparator InternalKey} (sl : Skiplist) (l : list Rec) : Prop :=
  ∃ ids, wf_skiplist sl ids ∧ l = map (rec_of (nodes sl)) ids.

(** ** Chains *)

Lemma linked_suffix F x a b : linked F x (a ++ b) -> linked F (default x (last a)) b.
Proof.
  revert x. induction a as [|y a IH]; intros x Hl; [done|].
  destruct Hl as [_ Hl]. apply IH in Hl. rewrite last_cons. by destruct (last a).
Qed.

Lemma linked_next F x l : linked F x l -> F x = Some (hd_error l).
Proof. destruct l; cbn; tauto. Qed.

Lemma linked_ext F F' x l :
  (∀ p, p ∈ x :: l -> F' p = F p) -> linked F x l -> linked F' x l.
Proof.
  revert x. induction l as [|y l IH]; intros x He; cbn.
  - rewrite He; [done|set_solver].
  - intros [E Hl]. rewrite He by set_solver. split; [done|]. apply IH; [|done].
    intros p Hp. apply He. set_solver.
Qed.

(** Splicing a fresh node into a chain. *)
Lemma linked_insert F F' x a b new :
  linked F x (a ++ b) -> NoDup (x :: a ++ b) -> new ∉ x :: a ++ b ->
  let p := default x (last a) in
  F' new = F p -> F' p = Some (Some new) -> (∀ q, q ≠ new -> q ≠ p -> F' q = F q) ->
  linked F' x (a ++ new :: b).
Proof.
  revert x. induction a as [|y a IH]; intros x Hl Hd Hn p Hnew Hp Hq.
  - cbn in *. split; [done|]. apply linked_next in Hl as Hx.
    assert (∀ q, q ∈ b -> F' q = F q) as Hb.
    { intros q Hqb. apply Hq; [set_solver|]. apply NoDup_cons in Hd as [Hd _]. set_solver. }
    destruct b as [|z b]; cbn in *; [congruence|].
    destruct Hl as [_ Hl]. split; [congruence|].
    apply (linked_ext F); [|done]. intros q Hqb. apply Hb. set_solver.
  - cbn [app linked] in *. destruct Hl as [Hx Hl].
    assert (p = default y (last a)) as Ep by (subst p; rewrite last_cons; by destruct (last a)).
    assert (p ∈ y :: a) as Hpin.
    { rewrite Ep. destruct (last a) as [z|] eqn:E; [|set_solver].
      apply last_Some_elem_of in E. set_solver. }
    apply NoDup_cons in Hd as [Hxn Hd]. split.
    + rewrite Hq; [done|set_solver|]. intros <-. apply Hxn. set_solver.
    + apply IH; [done|done|set_solver|..]; rewrite <- Ep; done.
Qed.

(** ** Stores *)

Lemma fwd_is_Some ns p i : is_Some (fwd ns p i) <-> (i < height ns p)%nat.
Proof.
  unfold fwd, height, node. destruct (ns !! p) as [n|]; cbn; [apply lookup_lt_is_Some|].
  split; [intros [? [=]]|lia].
Qed.

(** What a link update leaves alone. *)
Definition same_shape (ns ns' : list SkiplistNode) : Prop :=
  length ns' = length ns ∧
  ∀ p, key (node ns' p) = key (node ns p) ∧ value (node ns' p) = value (node ns p) ∧
       height ns' p = height ns p.

#[export] Instance same_shape_preorder : PreOrder same_shape.
Proof.
  split; [done|]. intros a b c [H1 H2] [H3 H4]. split; [congruence|].
  intros p. specialize (H2 p). specialize (H4 p). intuition congruence.
Qed.

Lemma set_fwd_spec ns p i q :
  (i < height ns p)%nat ->
  ∃ ns', set_fwd ns p i q = Some ns' ∧ same_shape ns ns' ∧
    ∀ p' j, fwd ns' p' j = if decide (p' = p ∧ j = i) then Some q else fwd ns p' j.
Proof.
  unfold height, set_fwd, node. destruct (ns !! p) as [n|] eqn:E; [|cbn; lia].
  intros Hi. cbn [default from_option id mbind option_bind] in *. rewrite (proj2 (Nat.ltb_lt _ _) Hi). eexists. split; [done|].
  pose proof (lookup_lt_Some _ _ _ E) as Hp. split.
  - split; [by rewrite length_insert|]. intros p'. unfold height, node.
    destruct (decide (p' = p)) as [->|Hne].
    + rewrite list_lookup_insert_eq, E by done. cbn. by rewrite length_insert.
    + by rewrite list_lookup_insert_ne.
  - intros p' j. unfold fwd. destruct (decide (p' = p)) as [->|Hne].
    + rewrite list_lookup_insert_eq, E by done. cbn.
      destruct (decide (j = i)) as [->|Hj].
      * rewrite decide_True by done. by rewrite list_lookup_insert_eq.
      * rewrite decide_False by tauto. by rewrite list_lookup_insert_ne.
    + rewrite decide_False by tauto. by rewrite list_lookup_insert_ne.
Qed.

(** The effect of the splicing loop on every link. *)
Lemma link_levels_spec n i update new ns (pred : nat -> nat) :
  (∀ j, (i <= j < i + n)%nat -> update !! j = Some (Some (pred j)) ∧ pred j ≠ new ∧
     (j < height ns (pred j))%nat ∧ (j < height ns new)%nat) ->
  ∃ ns', link_levels n i update new ns = Some ns' ∧ same_shape ns ns' ∧
    ∀ p j, fwd ns' p j =
      if decide (i <= j < i + n)%nat then
        if decide (p = new) then fwd ns (pred j) j
        else if decide (p = pred j) then Some (Some new) else fwd ns p j
      else fwd ns p j.
Proof.
  revert i ns. induction n as [|n IH]; intros i ns Hu.
  - exists ns. cbn. split_and!; [done..|]. intros p j. by rewrite decide_False by lia.
  - destruct (Hu i) as (Eu & Hpn & Hp & Hn); [lia|]. cbn [link_levels]. rewrite Eu. cbn.
    destruct (proj2 (fwd_is_Some ns (pred i) i) Hp) as [next En]. rewrite En. cbn.
    destruct (set_fwd_spec ns new i next Hn) as (ns1 & -> & Hs1 & Hf1). cbn.
    destruct (set_fwd_spec ns1 (pred i) i (Some new)) as (ns2 & -> & Hs2 & Hf2).
    { by rewrite (proj2 (proj2 (proj2 Hs1 _))). }
    cbn. assert (same_shape ns ns2) as Hs by (by etrans).
    destruct (IH (S i) ns2) as (ns' & -> & Hs' & Hf').
    { intros j Hj. destruct (Hu j) as (? & ? & ? & ?); [lia|].
      by rewrite !(proj2 (proj2 (proj2 Hs _))). }
    exists ns'. split_and!; [done|by etrans|]. intros p j. rewrite Hf', !Hf2, !Hf1.
    destruct (Nat.eq_dec j i) as [->|Hne].
    + rewrite (decide_False (P := (S i <= i < _)%nat)), (decide_True (P := (i <= i < _)%nat)) by lia.
      repeat case_decide; naive_solver.
    + repeat case_decide; try lia; naive_solver.
Qed.

(** ** Walking a well-formed list *)

Section walking.
Context `{ComparatorLaws InternalKey}.
Implicit Types (sl : Skiplist) (t : InternalKey) (l : list Rec).

Abbreviation keyn ns p := (key (node ns p)).

Lemma walk_spec fuel ns i t x a b :
  linked (fun p => fwd ns p i) x (a ++ b) ->
  Forall (fun p => is_Some (ns !! p)) (a ++ b) ->
  Forall (fun p => cmp (keyn ns p) t < 0) a ->
  Forall (fun p => 0 <= cmp (keyn ns p) t) b ->
  (length a < fuel)%nat ->
  walk fuel ns i t x = Some (default x (last a)).
Proof.
  revert x fuel. induction a as [|y a IH]; intros x fuel Hl Hs Ha Hb Hf;
    (destruct fuel as [|fuel]; [cbn in *; lia|]); cbn [walk].
  - apply linked_next in Hl as ->. destruct b as [|y b]; [done|].
    apply Forall_cons in Hs as [[n Hn] _]. apply Forall_cons in Hb as [Hy _]. cbn.
    unfold node in Hy. rewrite Hn in *. cbn in *. by rewrite (proj2 (Z.ltb_ge _ 0)).
  - apply linked_next in Hl as Hx. rewrite Hx. cbn [hd_error app mbind option_bind].
    apply Forall_cons in Hs as [[n Hn] Hs]. apply Forall_cons in Ha as [Hy Ha].
    unfold node in Hy. rewrite Hn in *. cbn [mbind option_bind] in *.
    rewrite (proj2 (Z.ltb_lt _ 0)) by done. destruct Hl as [_ Hl].
    rewrite (IH y fuel) by (done || (cbn in *; lia)).
    rewrite last_cons. by destruct (last a).
Qed.

(** The predecessor at level [i]: the last of the smaller nodes that take part in the level. *)
Definition pred_at (ns : list SkiplistNode) (pre : list nat) (i : nat) : nat :=
  default head (last (at_level ns i pre)).

Lemma at_level_app ns i a b : at_level ns i (a ++ b) = at_level ns i a ++ at_level ns i b.
Proof. apply filter_app. Qed.

Lemma at_level_S ns i ids :
  at_level ns (S i) ids = filter (fun p => (S i < height ns p)%nat) (at_level ns i ids).
Proof.
  unfold at_level. induction ids as [|p ids IH]; [done|].
  rewrite !filter_cons. repeat case_decide; rewrite ?filter_cons, ?IH; repeat case_decide;
    try lia; done.
Qed.

Lemma at_level_all sl ids : wf_skiplist sl ids -> at_level (nodes sl) 0 ids = ids.
Proof.
  intros Hwf. unfold at_level.
  pose proof (wf_ids _ _ Hwf) as Hi. clear Hwf. induction Hi as [|p ids Hp _ IH]; [done|].
  rewrite filter_cons_True by lia. by f_equal.
Qed.

Lemma pred_at_top sl ids pre i :
  wf_skiplist sl ids -> pre ⊆ ids -> (level sl <= i)%nat -> pred_at (nodes sl) pre i = head.
Proof.
  intros Hwf Hsub Hi. unfold pred_at, at_level.
  replace (filter _ pre) with (@nil nat); [done|]. symmetry.
  pose proof (wf_ids _ _ Hwf) as Hids. rewrite Forall_forall in Hids.
  induction pre as [|p pre IH]; [done|]. rewrite filter_cons_False; [set_solver|].
  destruct (Hids p) as (_ & _ & Hh); [set_solver|lia].
Qed.

Lemma wf_length sl ids : wf_skiplist sl ids -> (length ids < length (nodes sl))%nat.
Proof.
  intros Hwf. assert (NoDup (head :: ids)) as Hd.
  { apply NoDup_cons. split; [|apply (wf_nodup _ _ Hwf)].
    intros Hin. pose proof (wf_ids _ _ Hwf) as Hi. rewrite Forall_forall in Hi.
    destruct (Hi _ Hin). done. }
  assert (head :: ids ⊆+ seq 0 (length (nodes sl))) as Hsub.
  { apply NoDup_submseteq; [done|]. intros p Hp. apply elem_of_seq.
    assert (is_Some (nodes sl !! p)) as Hs%lookup_lt_is_Some; [|lia].
    apply elem_of_cons in Hp as [->|Hp]; [apply (wf_head _ _ Hwf)|].
    pose proof (wf_ids _ _ Hwf) as Hi. rewrite Forall_forall in Hi. by apply Hi. }
  apply submseteq_length in Hsub. rewrite length_seq in Hsub. cbn in Hsub. lia.
Qed.

(** One step down: from the predecessor at level [i + 1] to the one at level [i]. *)
Lemma walk_pred sl pre post t i :
  wf_skiplist sl (pre ++ post) ->
  Forall (fun p => cmp (keyn (nodes sl) p) t < 0) pre ->
  Forall (fun p => 0 <= cmp (keyn (nodes sl) p) t) post ->
  (i < maxLevel sl)%nat ->
  walk (fuel_of sl) (nodes sl) i t (pred_at (nodes sl) pre (S i)) =
    Some (pred_at (nodes sl) pre i).
Proof.
  intros Hwf Hpre Hpost Hi. set (ns := nodes sl) in *.
  destruct (last_filter_split (fun p => (S i < height ns p)%nat) (at_level ns i pre))
    as (a & b & Eab & Hlast).
  rewrite <- at_level_S in Hlast. unfold pred_at at 1. rewrite <- Hlast.
  pose proof (wf_linked _ _ Hwf i Hi) as Hl. fold ns in Hl.
  rewrite at_level_app, Eab, <- app_assoc in Hl. apply linked_suffix in Hl.
  assert (∀ p, p ∈ at_level ns i pre -> p ∈ pre) as Hin1
    by (intros p; unfold at_level; rewrite list_elem_of_filter; tauto).
  assert (∀ p, p ∈ at_level ns i post -> p ∈ post) as Hin2
    by (intros p; unfold at_level; rewrite list_elem_of_filter; tauto).
  rewrite (walk_spec _ _ _ _ _ b (at_level ns i post)); [| done | | | |].
  - unfold pred_at. by rewrite Eab, last_app_default.
  - pose proof (wf_ids _ _ Hwf) as Hids. rewrite Forall_forall in Hids |- *.
    intros p Hp. apply Hids, elem_of_app. apply elem_of_app in Hp as [Hp|Hp]; [left|right; auto].
    apply Hin1. rewrite Eab. set_solver.
  - rewrite Forall_forall in Hpre |- *. intros p Hp. apply Hpre, Hin1. rewrite Eab. set_solver.
  - rewrite Forall_forall in Hpost |- *. auto.
  - apply wf_length in Hwf. rewrite length_app in Hwf. unfold fuel_of.
    assert (length (a ++ b) <= length pre)%nat as Hle by (rewrite <- Eab; apply length_filter).
    rewrite length_app in Hle. lia.
Qed.

Lemma descend_spec sl pre post t n :
  wf_skiplist sl (pre ++ post) ->
  Forall (fun p => cmp (keyn (nodes sl) p) t < 0) pre ->
  Forall (fun p => 0 <= cmp (keyn (nodes sl) p) t) post ->
  (n <= maxLevel sl)%nat ->
  descend sl t n (pred_at (nodes sl) pre n) = Some (pred_at (nodes sl) pre 0).
Proof.
  intros Hwf Hpre Hpost. induction n as [|n IH]; intros Hn; [done|].
  cbn [descend]. rewrite (walk_pred sl pre post) by (done || lia). cbn. apply IH. lia.
Qed.

Lemma descend_update_spec sl pre post t n update :
  wf_skiplist sl (pre ++ post) ->
  Forall (fun p => cmp (keyn (nodes sl) p) t < 0) pre ->
  Forall (fun p => 0 <= cmp (keyn (nodes sl) p) t) post ->
  (n <= maxLevel sl)%nat -> length update = maxLevel sl ->
  ∃ u, descend_update sl t n (pred_at (nodes sl) pre n) update = Some u ∧
    length u = maxLevel sl ∧
    ∀ j, u !! j = if decide (j < n)%nat then Some (Some (pred_at (nodes sl) pre j))
                  else update !! j.
Proof.
  intros Hwf Hpre Hpost. revert update. induction n as [|n IH]; intros update Hn Hlen.
  { exists update. done. }
  cbn [descend_update]. rewrite (walk_pred sl pre post) by (done || lia). cbn [mbind option_bind].
  rewrite (proj2 (Nat.ltb_lt _ _)) by lia.
  edestruct IH as (u & -> & Hul & Hu); [lia|rewrite length_insert; exact Hlen|].
  exists u. split_and!; [done..|]. intros j. rewrite Hu.
  repeat case_decide; try lia; [done| |].
  - assert (j = n) as -> by lia. by rewrite list_lookup_insert_eq by lia.
  - by rewrite list_lookup_insert_ne by lia.
Qed.

Lemma raise_update_spec n i update :
  (i + n <= length update)%nat ->
  ∃ u, raise_update n i update = Some u ∧ length u = length update ∧
    ∀ j, u !! j = if decide (i <= j < i + n)%nat then Some (Some head) else update !! j.
Proof.
  revert i update. induction n as [|n IH]; intros i update Hl.
  { exists update. split_and!; [done..|]. intros j. by rewrite decide_False by lia. }
  cbn [raise_update]. rewrite (proj2 (Nat.ltb_lt _ _)) by lia.
  destruct (IH (S i) (<[i:=Some head]> update)) as (u & -> & Hul & Hu);
    [rewrite length_insert; lia|].
  exists u. split_and!; [done|by rewrite Hul, length_insert|]. intros j. rewrite Hu.
  repeat case_decide; try lia; [done| |].
  - assert (j = i) as -> by lia. by rewrite list_lookup_insert_eq by lia.
  - by rewrite list_lookup_insert_ne by lia.
Qed.

Lemma randomLevel_loop_range flips lvl max :
  (lvl <= max)%nat -> (lvl <= randomLevel_loop flips lvl max <= max)%nat.
Proof.
  revert lvl. induction flips as [|[] flips IH]; intros lvl Hl; cbn [randomLevel_loop]; try lia.
  destruct (Nat.ltb_spec lvl max); [|lia]. specialize (IH (S lvl)). lia.
Qed.

Lemma insert_sorted_app r l1 l2 :
  Forall (fun x : Rec => cmp (RKey x) (RKey r) < 0) l1 ->
  Forall (fun x : Rec => 0 <= cmp (RKey x) (RKey r)) l2 ->
  insert_sorted r (l1 ++ l2) = l1 ++ r :: l2.
Proof.
  induction l1 as [|x l1 IH]; intros H1 H2; cbn [app insert_sorted].
  - destruct l2 as [|y l2]; [done|]. cbn. apply Forall_cons in H2 as [H2 _].
    by rewrite (proj2 (Z.ltb_ge _ 0)).
  - apply Forall_cons in H1 as [Hx H1]. rewrite (proj2 (Z.ltb_lt _ 0)) by done.
    by rewrite IH.
Qed.

Lemma seek_sorted_app t l1 l2 :
  Forall (fun x : Rec => cmp (RKey x) t < 0) l1 ->
  Forall (fun x : Rec => 0 <= cmp (RKey x) t) l2 ->
  seek_sorted t (l1 ++ l2) = l2.
Proof.
  induction l1 as [|x l1 IH]; intros H1 H2; cbn [app seek_sorted].
  - destruct l2 as [|y l2]; [done|]. cbn. apply Forall_cons in H2 as [H2 _].
    by rewrite (proj2 (Z.ltb_ge _ 0)).
  - apply Forall_cons in H1 as [Hx H1]. rewrite (proj2 (Z.ltb_lt _ 0)) by done. auto.
Qed.

(** What splicing the node [new] with key [k] into the levels below [lvl] leaves in the store. *)
Definition spliced (ns ns' : list SkiplistNode) (pre : list nat) (lvl : nat) (r : Rec) : Prop :=
  let new := length ns in
  length ns' = S new ∧
  rec_of ns' new = r ∧ height ns' new = lvl ∧
  (∀ p, (p < new)%nat -> rec_of ns' p = rec_of ns p ∧ height ns' p = height ns p) ∧
  (∀ j, (j < lvl)%nat -> fwd ns' new j = fwd ns (pred_at ns pre j) j) ∧
  (∀ p j, (p < new)%nat -> fwd ns' p j =
     if decide ((j < lvl)%nat ∧ p = pred_at ns pre j) then Some (Some new) else fwd ns p j).

Lemma at_level_ext ns ns' i ids :
  (∀ p, p ∈ ids -> height ns' p = height ns p) -> at_level ns' i ids = at_level ns i ids.
Proof.
  unfold at_level. induction ids as [|p ids IH]; intros He; [done|].
  rewrite !filter_cons, He, IH by set_solver. done.
Qed.

Lemma wf_lookup sl ids p : wf_skiplist sl ids -> p ∈ head :: ids -> (p < length (nodes sl))%nat.
Proof.
  intros Hwf Hp. apply lookup_lt_is_Some.
  apply elem_of_cons in Hp as [->|Hp]; [apply (wf_head _ _ Hwf)|].
  pose proof (wf_ids _ _ Hwf) as Hi. rewrite Forall_forall in Hi. by apply Hi.
Qed.

Lemma spliced_linked sl ns' pre post lvl r i :
  wf_skiplist sl (pre ++ post) -> spliced (nodes sl) ns' pre lvl r -> (i < maxLevel sl)%nat ->
  linked (fun p => fwd ns' p i) head (at_level ns' i (pre ++ length (nodes sl) :: post)).
Proof.
  intros Hwf (Hlen & Hr & Hh & Hold & Hnew & Hfwd) Hi. set (ns := nodes sl) in *.
  pose proof (wf_linked _ _ Hwf i Hi) as Hl. fold ns in Hl.
  assert (∀ p, p ∈ head :: pre ++ post -> (p < length ns)%nat) as Hlt
    by (intros p; by apply wf_lookup).
  rewrite at_level_app in Hl |- *. unfold at_level at 2. rewrite filter_cons. fold (at_level ns' i post).
  rewrite (at_level_ext ns ns' i pre) by (intros p Hp; apply Hold, Hlt; set_solver).
  rewrite (at_level_ext ns ns' i post) by (intros p Hp; apply Hold, Hlt; set_solver).
  rewrite Hh. destruct (decide (i < lvl)%nat) as [Hil|Hil].
  - eapply linked_insert; [exact Hl| | |by apply Hnew| |].
    + rewrite <- at_level_app. apply NoDup_cons. split.
      * unfold at_level. rewrite list_elem_of_filter. intros [_ Hin].
        pose proof (wf_ids _ _ Hwf) as Hids. rewrite Forall_forall in Hids.
        by destruct (Hids _ Hin).
      * apply NoDup_filter, (wf_nodup _ _ Hwf).
    + rewrite <- at_level_app. intros Hin.
      assert (length ns ∈ head :: pre ++ post) as Hin'.
      { apply elem_of_cons in Hin as [->|Hin]; [set_solver|].
        unfold at_level in Hin. apply list_elem_of_filter in Hin as [_ Hin]. set_solver. }
      apply Hlt in Hin'. lia.
    + fold (pred_at ns pre i). rewrite Hfwd, decide_True; [done|done|].
      apply Hlt. unfold pred_at. destruct (last _) as [p|] eqn:E; [|set_solver].
      apply last_Some_elem_of in E. unfold at_level in E.
      apply list_elem_of_filter in E as [_ E]. cbn. set_solver.
    + fold (pred_at ns pre i). intros q Hq1 Hq2.
      destruct (Nat.lt_ge_cases q (length ns)) as [Hq|Hq].
      * rewrite Hfwd, decide_False; [done|tauto|done].
      * unfold fwd. rewrite !lookup_ge_None_2; [done|lia|lia].
  - eapply linked_ext; [|exact Hl]. intros p Hp.
    rewrite Hfwd, decide_False; [done|tauto|]. apply Hlt.
    apply elem_of_cons in Hp as [->|Hp]; [set_solver|].
    rewrite <- at_level_app in Hp. unfold at_level in Hp.
    apply list_elem_of_filter in Hp as [_ Hp]. set_solver.
Qed.

Lemma map_rec_of_ext ns ns' ids :
  (∀ p, p ∈ ids -> rec_of ns' p = rec_of ns p) -> map (rec_of ns') ids = map (rec_of ns) ids.
Proof. intros He. apply map_ext_in. intros p Hp. apply He. by apply list_elem_of_In. Qed.

(** The order of the nodes, as an order of the records they hold. *)
Lemma sorted_map ns ids :
  StronglySorted (fun x y : Rec => cmp (RKey x) (RKey y) <= 0) (map (rec_of ns) ids) <->
  StronglySorted (fun p q => cmp (keyn ns p) (keyn ns q) <= 0) ids.
Proof.
  induction ids as [|p ids IH]; [split; constructor|].
  cbn [map]. rewrite !StronglySorted_cons, Forall_map, IH. done.
Qed.

Lemma spliced_wf sl ns' pre post lvl r :
  wf_skiplist sl (pre ++ post) -> spliced (nodes sl) ns' pre lvl r ->
  (1 <= lvl <= maxLevel sl)%nat ->
  Forall (fun p => cmp (keyn (nodes sl) p) (RKey r) < 0) pre ->
  Forall (fun p => 0 <= cmp (keyn (nodes sl) p) (RKey r)) post ->
  wf_skiplist (mkSL ns' (level sl `max` lvl) (maxLevel sl)) (pre ++ length (nodes sl) :: post).
Proof.
  intros Hwf Hsp Hlvl Hpre Hpost.
  pose proof (spliced_linked sl ns' pre post lvl r) as Hlink.
  destruct Hsp as (Hlen & Hr & Hh & Hold & Hnew & Hfwd) eqn:Esp. clear Esp.
  set (ns := nodes sl) in *.
  assert (∀ p, p ∈ head :: pre ++ post -> (p < length ns)%nat) as Hlt
    by (intros p; by apply wf_lookup).
  destruct (wf_head _ _ Hwf) as [Hhead _]. pose proof (wf_level _ _ Hwf).
  split; cbn [nodes level maxLevel].
  - lia.
  - split; [|apply lookup_lt_is_Some; unfold head; lia].
    rewrite (proj2 (Hold head (Hlt head ltac:(set_solver)))). done.
  - pose proof (wf_ids _ _ Hwf) as Hids. fold ns in Hids.
    rewrite Forall_forall in Hids |- *. intros p Hp.
    destruct (decide (p = length ns)) as [->|Hne].
    + split_and!; [|apply lookup_lt_is_Some; lia|lia..].
      intros E. specialize (Hlt head ltac:(set_solver)). lia.
    + assert (p ∈ pre ++ post) as Hp' by set_solver.
      destruct (Hids p Hp') as (? & ? & ?). specialize (Hlt p ltac:(set_solver)).
      split_and!; [done|apply lookup_lt_is_Some; lia|rewrite (proj2 (Hold p Hlt))..]; lia.
  - rewrite <- Permutation_middle. apply NoDup_cons. split; [|apply (wf_nodup _ _ Hwf)].
    intros Hin. specialize (Hlt (length ns) ltac:(set_solver)). lia.
  - apply sorted_map. rewrite map_app. cbn [map]. rewrite Hr.
    rewrite (map_rec_of_ext ns ns' pre) by (intros p Hp; apply Hold, Hlt; set_solver).
    rewrite (map_rec_of_ext ns ns' post) by (intros p Hp; apply Hold, Hlt; set_solver).
    pose proof (wf_sorted _ _ Hwf) as Hs. apply sorted_map in Hs. rewrite map_app in Hs.
    apply StronglySorted_app in Hs as (Hs1 & Hs2 & Hs3).
    apply StronglySorted_app. rewrite StronglySorted_cons, !Forall_map. split_and!; [|done|..].
    + intros x y Hx Hy. apply elem_of_cons in Hy as [->|Hy]; [|by apply Hs1].
      apply list_elem_of_fmap in Hx as (p & -> & Hp). rewrite Forall_forall in Hpre.
      specialize (Hpre p Hp). cbn. lia.
    + eapply Forall_impl; [exact Hpost|]. intros p Hp. cbn in *.
      rewrite (cmp_opp (keyn ns p)). lia.
    + done.
  - intros i Hi. apply Hlink; done.
Qed.

(** The store after the splicing loop. *)
Lemma insert_spliced sl pre post update lvl r :
  wf_skiplist sl (pre ++ post) -> (1 <= lvl <= maxLevel sl)%nat ->
  (∀ j, (j < lvl)%nat -> update !! j = Some (Some (pred_at (nodes sl) pre j))) ->
  let new := length (nodes sl) in
  let grown := nodes sl ++ [mkNode (RKey r) (Value r) (replicate lvl None)] in
  ∃ ns', link_levels lvl 0 update new grown = Some ns' ∧ spliced (nodes sl) ns' pre lvl r.
Proof.
  intros Hwf Hlvl Hu new grown. set (ns := nodes sl) in *.
  assert (∀ p, (p < new)%nat -> grown !! p = ns !! p) as Hg
    by (intros p Hp; unfold grown; by rewrite lookup_app_l).
  assert (grown !! new = Some (mkNode (RKey r) (Value r) (replicate lvl None))) as Hgn
    by (unfold grown; by rewrite lookup_app_r, Nat.sub_diag).
  assert (∀ j, (j < lvl)%nat -> (pred_at ns pre j < new)%nat ∧ (j < height ns (pred_at ns pre j))%nat)
    as Hpred.
  { intros j Hj. unfold pred_at. destruct (last _) as [p|] eqn:E; cbn.
    - apply last_Some_elem_of in E. unfold at_level in E. apply list_elem_of_filter in E as [? E].
      split; [|done]. eapply wf_lookup; [exact Hwf|set_solver].
    - split; [eapply wf_lookup; [exact Hwf|set_solver]|].
      destruct (wf_head _ _ Hwf) as [Hh _]. fold ns in Hh. lia. }
  destruct (link_levels_spec lvl 0 update new grown (pred_at ns pre)) as (ns' & -> & [Hlen Hs] & Hf).
  { intros j Hj. destruct (Hpred j) as [? ?]; [lia|]. split_and!; [apply Hu; lia|lia| |].
    - unfold height, node in *. by rewrite Hg.
    - unfold height, node. rewrite Hgn. cbn. rewrite length_replicate. lia. }
  exists ns'. split; [done|]. unfold spliced. change (length ns) with new. split_and!.
  - rewrite Hlen. unfold grown. rewrite length_app. cbn. lia.
  - unfold rec_of. destruct (Hs new) as (-> & -> & _). unfold node. rewrite Hgn. by destruct r.
  - destruct (Hs new) as (_ & _ & ->). unfold height, node. rewrite Hgn. cbn.
    by rewrite length_replicate.
  - intros p Hp. unfold rec_of. destruct (Hs p) as (-> & -> & ->).
    unfold height, node. by rewrite Hg.
  - intros j Hj. rewrite Hf, decide_True, decide_True by lia.
    unfold fwd. rewrite Hg; [done|by apply Hpred].
  - intros p j Hp. rewrite Hf. rewrite (decide_False (P := p = new)) by lia.
    replace (fwd grown p j) with (fwd ns p j) by (unfold fwd; by rewrite Hg).
    repeat case_decide; naive_solver lia.
Qed.

Lemma represents_split sl l t :
  represents sl l ->
  ∃ pre post, wf_skiplist sl (pre ++ post) ∧
    l = map (rec_of (nodes sl)) pre ++ map (rec_of (nodes sl)) post ∧
    Forall (fun p => cmp (keyn (nodes sl) p) t < 0) pre ∧
    Forall (fun p => 0 <= cmp (keyn (nodes sl) p) t) post.
Proof.
  intros (ids & Hwf & ->).
  destruct (sorted_split (fun p => keyn (nodes sl) p) t ids (wf_sorted _ _ Hwf))
    as (pre & post & -> & Hpre & Hpost).
  exists pre, post. by rewrite map_app.
Qed.

(** Insertion keeps the list well formed and inserts into the sorted list, whatever the level drawn. *)
Lemma insert_represents sl l flips k v :
  represents sl l ->
  ∃ sl', insert sl flips k v = Some sl' ∧ represents sl' (insert_sorted (mkRec k v) l) ∧
    maxLevel sl' = maxLevel sl.
Proof.
  intros (pre & post & Hwf & -> & Hpre & Hpost)%(represents_split _ _ k).
  pose proof (wf_level _ _ Hwf). set (lvl := randomLevel sl flips).
  assert (1 <= lvl <= maxLevel sl)%nat as Hlvl by (apply randomLevel_loop_range; lia).
  unfold insert. fold lvl.
  destruct (descend_update_spec sl pre post k (level sl) (replicate (maxLevel sl) None))
    as (u & Eu & Hul & Hu); [done..|lia|by rewrite length_replicate|].
  rewrite (pred_at_top sl (pre ++ post)) in Eu by (done || set_solver). rewrite Eu.
  cbn [mbind option_bind].
  assert (∃ u', (if (level sl <? lvl)%nat
    then update ← raise_update (lvl - level sl) (level sl) u; Some (update, lvl)
    else Some (u, level sl)) = Some (u', level sl `max` lvl)%nat ∧
    ∀ j, (j < lvl)%nat -> u' !! j = Some (Some (pred_at (nodes sl) pre j))) as (u' & -> & Hu').
  { destruct (Nat.ltb_spec (level sl) lvl) as [Hlt|Hge].
    - destruct (raise_update_spec (lvl - level sl) (level sl) u) as (u' & -> & _ & Hu'); [lia|].
      exists u'. cbn. split; [do 2 f_equal; lia|]. intros j Hj. rewrite Hu', Hu.
      repeat case_decide; try lia; [|done].
      by rewrite (pred_at_top sl (pre ++ post)) by (done || set_solver || lia).
    - exists u. split; [do 2 f_equal; lia|]. intros j Hj. rewrite Hu, decide_True by lia. done. }
  cbn [mbind option_bind].
  destruct (insert_spliced sl pre post u' lvl (mkRec k v) Hwf Hlvl Hu') as (ns' & E & Hsp).
  cbn [RKey Value] in E. rewrite E. cbn [mbind option_bind].
  eexists. split; [done|]. split; [|done].
  exists (pre ++ length (nodes sl) :: post). split; [by apply (spliced_wf _ _ _ _ lvl (mkRec k v))|].
  rewrite insert_sorted_app by (by rewrite Forall_map).
  rewrite map_app. cbn [map nodes]. destruct Hsp as (_ & -> & _ & Hold & _).
  assert (∀ p, p ∈ pre ++ post -> rec_of ns' p = rec_of (nodes sl) p) as Hr.
  { intros p Hp. apply Hold. eapply wf_lookup; [exact Hwf|set_solver]. }
  rewrite (map_rec_of_ext (nodes sl) ns' pre) by (intros p Hp; apply Hr; set_solver).
  rewrite (map_rec_of_ext (nodes sl) ns' post) by (intros p Hp; apply Hr; set_solver). done.
Qed.

Lemma search_represents sl l userKey t :
  represents sl l -> search sl userKey t = Some (lookup_sorted userKey t l).
Proof.
  intros (pre & post & Hwf & -> & Hpre & Hpost)%(represents_split _ _ t).
  unfold lookup_sorted. rewrite seek_sorted_app by (by rewrite Forall_map).
  unfold search. pose proof (wf_level _ _ Hwf) as Hlv.
  rewrite <- (pred_at_top sl (pre ++ post) pre (level sl)) at 1 by (done || set_solver).
  rewrite (descend_spec sl pre post) by (done || lia). cbn [mbind option_bind].
  pose proof (wf_linked _ _ Hwf 0 ltac:(lia)) as Hl.
  rewrite at_level_app in Hl. apply linked_suffix, linked_next in Hl.
  fold (pred_at (nodes sl) pre 0) in Hl. rewrite Hl. cbn [mbind option_bind].
  pose proof (at_level_all _ _ Hwf) as Hall. rewrite at_level_app in Hall.
  assert (at_level (nodes sl) 0 post = post) as ->.
  { apply app_inj_2 in Hall as [_ ?]; [done|].
    pose proof (length_filter (fun p => (0 < height (nodes sl) p)%nat) pre).
    pose proof (length_filter (fun p => (0 < height (nodes sl) p)%nat) post).
    apply (f_equal length) in Hall. rewrite !length_app in Hall. unfold at_level in *. lia. }
  destruct post as [|q post]; [done|]. cbn [hd_error map].
  pose proof (wf_ids _ _ Hwf) as Hids. rewrite Forall_forall in Hids.
  destruct (Hids q) as (_ & [n Hn] & _); [set_solver|]. rewrite Hn. cbn [mbind option_bind].
  unfold rec_of, node, IsTombstone. rewrite Hn. cbn [default from_option id RKey Value].
  destruct (bytes_Equal _ _); [|done]. by destruct (KType (key n) =? TypeDel).
Qed.

Lemma NewSkiplist_represents max : (1 <= max)%nat -> represents (NewSkiplist max) [].
Proof.
  intros Hmax. exists []. split; [|done]. split; cbn [NewSkiplist nodes level maxLevel].
  - lia.
  - split; [|done]. apply length_replicate.
  - constructor.
  - constructor.
  - constructor.
  - intros i Hi. cbn. by apply lookup_replicate_2.
Qed.
End walking.
