(* ===== verification/Versions.v ===== *)
(** * Multi-version lookups: the abstract specification

    The program keeps several versions of a user key, told apart by sequence numbers.  A read of key
    [k] at sequence number [s] must return the newest version not after [s].  [newest] states that
    over any collection of records; the lemmas say what a sorted list yields, and how the answers of
    two collections combine, which is how the engine searches its memtables and tables. *)

From S2P Require Import Prelude.
From S2P Require Import GoStd.
From S2P Require Import Records.
From S2P Require Import Skiplist.

Definition visible (k : bytes) (s : Z) (r : Rec) : Prop := UserKey r = k ∧ SeqNum r <= s.

#[export] Instance visible_dec k s r : Decision (visible k s r).
Proof. unfold visible. solve_decision. Defined.

(** [o] is the newest version of [k] in [l] not after [s], if there is one. *)
Definition newest (k : bytes) (s : Z) (l : list Rec) (o : option Rec) : Prop :=
  match o with
  | Some r => r ∈ l ∧ visible k s r ∧ ∀ r', r' ∈ l -> visible k s r' -> SeqNum r' <= SeqNum r
  | None => ∀ r, r ∈ l -> ¬ visible k s r
  end.

(** The newer of two candidates, as the engine picks it: the first one on a tie. *)
Definition newer (o1 o2 : option Rec) : option Rec :=
  match o1, o2 with
  | Some r1, Some r2 => if SeqNum r1 <? SeqNum r2 then Some r2 else Some r1
  | Some r1, None => Some r1
  | None, _ => o2
  end.

(** The sequence numbers tell the versions of a key apart. *)
Definition unique_versions (l : list Rec) : Prop :=
  ∀ r r' : Rec, r ∈ l -> r' ∈ l -> UserKey r = UserKey r' -> SeqNum r = SeqNum r' -> r = r'.

Definition sorted_recs (l : list Rec) : Prop :=
  StronglySorted (fun x y : Rec => Compare x y <= 0) l.

(** What a read returns for the newest version found. *)
Definition read_result (o : option Rec) : option (option bytes) :=
  match o with
  | Some r => if IsTombstone r then None else Some (Value r)
  | None => None
  end.

(** The same answer in the form of the memtable: value, found, deleted. *)
Definition memtable_result (o : option Rec) : option bytes * bool * bool :=
  match o with
  | Some r => if IsTombstone r then (None, true, true) else (Value r, true, false)
  | None => (None, false, false)
  end.

(** The candidate of a sorted list: the first record at or after the lookup key, if it is a version
    of the key. *)
Definition candidate (k : bytes) (s : Z) (l : list Rec) : option Rec :=
  match seek_sorted (mkIK k s 0) l with
  | r :: _ => if bytes_Equal (UserKey r) k then Some r else None
  | [] => None
  end.

(** ** Lemmas *)

#[export] Instance newest_Permutation k s : Proper ((≡ₚ) ==> (=) ==> iff) (newest k s).
Proof.
  intros l l' Hl o _ <-. destruct o as [r|]; cbn; [|by setoid_rewrite Hl].
  setoid_rewrite Hl. done.
Qed.

Lemma newest_app k s l1 l2 o1 o2 :
  newest k s l1 o1 -> newest k s l2 o2 -> newest k s (l1 ++ l2) (newer o1 o2).
Proof.
  intros H1 H2. destruct o1 as [r1|], o2 as [r2|]; cbn [newer] in *.
  - destruct H1 as (Hi1 & Hv1 & Hm1), H2 as (Hi2 & Hv2 & Hm2).
    destruct (Z.ltb_spec (SeqNum r1) (SeqNum r2)); cbn; (split_and!; [set_solver|done|]);
      intros r [Hr|Hr]%elem_of_app Hv.
    + specialize (Hm1 r Hr Hv). lia.
    + by apply Hm2.
    + by apply Hm1.
    + specialize (Hm2 r Hr Hv). lia.
  - destruct H1 as (Hi1 & Hv1 & Hm1). cbn in *. split_and!; [set_solver|done|].
    intros r [Hr|Hr]%elem_of_app Hv; [by apply Hm1|]. by destruct (H2 r Hr).
  - destruct H2 as (Hi2 & Hv2 & Hm2). cbn in *. split_and!; [set_solver|done|].
    intros r [Hr|Hr]%elem_of_app Hv; [|by apply Hm2]. by destruct (H1 r Hr).
  - cbn in *. intros r [Hr|Hr]%elem_of_app; auto.
Qed.

Lemma newest_exists k s l : ∃ o, newest k s l o.
Proof.
  induction l as [|x l [o IH]]; [exists None; intros r Hr; by inversion Hr|].
  assert (∃ o', newest k s [x] o') as [o' Ho'].
  { destruct (decide (visible k s x)) as [Hv|Hv]; [exists (Some x)|exists None]; cbn.
    - split_and!; [by apply list_elem_of_singleton|done|]. by intros r ->%list_elem_of_singleton.
    - by intros r ->%list_elem_of_singleton. }
  exists (newer o' o). change (x :: l) with ([x] ++ l). by apply newest_app.
Qed.

Lemma newest_unique k s l o1 o2 :
  unique_versions l -> newest k s l o1 -> newest k s l o2 -> o1 = o2.
Proof.
  intros Hu H1 H2. destruct o1 as [r1|], o2 as [r2|]; cbn in *; [|exfalso..|done].
  - destruct H1 as (Hi1 & [Hk1 Hs1] & Hm1), H2 as (Hi2 & [Hk2 Hs2] & Hm2).
    f_equal. apply Hu; [done..|congruence|].
    pose proof (Hm1 r2 Hi2 (conj Hk2 Hs2)). pose proof (Hm2 r1 Hi1 (conj Hk1 Hs1)). lia.
  - destruct H1 as (Hi1 & Hv1 & _). by apply (H2 r1).
  - destruct H2 as (Hi2 & Hv2 & _). by apply (H1 r2).
Qed.

(** A collection with no version of [k] does not matter. *)
Lemma newest_none k s l : (∀ r : Rec, r ∈ l -> UserKey r ≠ k) -> newest k s l None.
Proof. intros H r Hr [Hk _]. by apply (H r). Qed.

Lemma seek_sorted_spec t l :
  sorted_recs l ->
  ∃ pre, l = pre ++ seek_sorted t l ∧
    Forall (fun x : Rec => Compare x t < 0) pre ∧
    Forall (fun x : Rec => 0 <= Compare x t) (seek_sorted t l).
Proof.
  intros Hs. destruct (sorted_split (fun x : Rec => RKey x) t l Hs) as (pre & post & -> & H1 & H2).
  exists pre. by rewrite (seek_sorted_app t pre post).
Qed.

(** The first record at or after [(k, s)] in a sorted list is the newest visible version of [k]. *)
Lemma candidate_newest k s l : sorted_recs l -> newest k s l (candidate k s l).
Proof.
  intros Hs. destruct (seek_sorted_spec (mkIK k s 0) l Hs) as (pre & El & Hpre & Hpost).
  unfold candidate.
  assert (∀ r, r ∈ pre -> ¬ visible k s r) as Hno.
  { intros r Hr [Hk Hsq]. rewrite Forall_forall in Hpre. specialize (Hpre r Hr).
    apply Compare_lt_iff in Hpre. cbn in Hpre.
    pose proof (proj2 (bytes_Compare_eq (UserKey r) k) Hk). lia. }
  assert (∀ r : Rec, r ∈ seek_sorted (mkIK k s 0) l -> UserKey r = k -> SeqNum r <= s) as Hle.
  { intros r Hr Hk. rewrite Forall_forall in Hpost. specialize (Hpost r Hr).
    destruct (Z.le_gt_cases (SeqNum r) s); [done|].
    pose proof (Compare_lt_iff r (mkIK k s 0)) as Hc. cbn in Hc. subst k. intuition lia. }
  destruct (seek_sorted (mkIK k s 0) l) as [|r post] eqn:E.
  - rewrite El, app_nil_r. exact Hno.
  - assert (∀ r' : Rec, r' ∈ post -> Compare r r' <= 0) as Hsorted.
    { rewrite El in Hs. apply StronglySorted_app in Hs as (_ & _ & Hs).
      apply StronglySorted_cons in Hs as [Hs _]. by rewrite Forall_forall in Hs. }
    destruct (bytes_Equal (UserKey r) k) eqn:Ek.
    + apply bytes_Equal_spec in Ek. cbn. rewrite El. split_and!; [set_solver|split|].
      * done.
      * apply Hle; [set_solver|done].
      * intros r' [Hr|[->|Hr]%elem_of_cons]%elem_of_app Hv; [by destruct (Hno r')|lia|].
        specialize (Hsorted r' Hr). apply Compare_le_iff in Hsorted. destruct Hv as [Hk _].
        pose proof (proj2 (bytes_Compare_eq (UserKey r) (UserKey r'))). rewrite Hk in *.
        intuition lia.
    + assert (UserKey r ≠ k) as Hne by (intros ?%bytes_Equal_spec; congruence).
      cbn. rewrite El. intros r' [Hr|[->|Hr]%elem_of_cons]%elem_of_app; [by apply Hno| |].
      * by intros [? _].
      * intros [Hk _]. specialize (Hsorted r' Hr). apply Compare_le_iff in Hsorted.
        rewrite Forall_forall in Hpost. specialize (Hpost r ltac:(set_solver)).
        pose proof (Compare_lt_iff r (mkIK k s 0)) as Hc. cbn in Hc. rewrite Hk in Hsorted.
        destruct Hsorted as [?|[? _]]; [lia|done].
Qed.

Lemma lookup_sorted_candidate k s l :
  lookup_sorted k (mkIK k s 0) l = memtable_result (candidate k s l).
Proof.
  unfold lookup_sorted, candidate. destruct (seek_sorted _ l) as [|r post]; [done|].
  by destruct (bytes_Equal _ _).
Qed.

Lemma insert_sorted_Permutation r l : insert_sorted r l ≡ₚ r :: l.
Proof.
  induction l as [|x l IH]; cbn [insert_sorted]; [done|].
  destruct (_ <? _); [|done]. rewrite IH. apply Permutation_swap.
Qed.

Lemma insert_sorted_sorted r l : sorted_recs l -> sorted_recs (insert_sorted r l).
Proof.
  intros Hs. destruct (sorted_split (fun x : Rec => RKey x) (RKey r) l Hs)
    as (pre & post & -> & H1 & H2).
  rewrite insert_sorted_app by done.
  apply StronglySorted_app in Hs as (Hs1 & Hs2 & Hs3). unfold sorted_recs.
  rewrite StronglySorted_app, StronglySorted_cons. split_and!; [|done|..|done].
  - intros x y Hx [->|Hy]%elem_of_cons; [|by apply Hs1].
    rewrite Forall_forall in H1. specialize (H1 x Hx). unfold cmp, InternalKey_Comparator in H1. lia.
  - eapply Forall_impl; [exact H2|]. intros x Hx. cbn in *.
    unfold cmp, InternalKey_Comparator in Hx. rewrite (Compare_opp x). lia.
Qed.
