(* ===== verification/Memtable.v ===== *)
(** * Package memtable: the memtable and its iterator

    [memtable.go] and [iterator.go] over the skip list of [Skiplist].  The reader-writer lock makes
    every operation atomic, so each is one function of the state.  [refs] is the Go atomic.Int32. *)

From S2P Require Import Prelude.
From S2P Require Import GoStd.
From S2P Require Import Records.
From S2P Require Import Skiplist.
From S2P Require Import Versions.

(** [int32(x)]. *)
Definition i32 (z : Z) : Z := (z + 2 ^ 31) mod 2 ^ 32 - 2 ^ 31.

Record Memtable := mkMT { list_ : Skiplist; size : Z; maxSize : Z; refs : Z }.

Definition New (maxSize : Z) (slMaxLevel : nat) : Memtable :=
  let mt := mkMT (NewSkiplist slMaxLevel) 0 maxSize 0 in
  mkMT (list_ mt) (size mt) (maxSize) (i32 (refs mt + 1)).

(** [flips] feeds the skip list's random level. *)
Definition Put (m : Memtable) (flips : list bool) (r : Rec) : option Memtable :=
  l ← insert (list_ m) flips (RKey r) (Value r);
  Some (mkMT l (u64 (size m + Size r)) (maxSize m) (refs m)).

Definition Get (m : Memtable) (userKey : bytes) (lookupKey : InternalKey) :
    option (option bytes * bool * bool) :=
  search (list_ m) userKey lookupKey.

Definition IsFull (m : Memtable) : bool := maxSize m <=? size m.

Definition Ref (m : Memtable) : Memtable := mkMT (list_ m) (size m) (maxSize m) (i32 (refs m + 1)).
Definition Unref (m : Memtable) : Memtable := mkMT (list_ m) (size m) (maxSize m) (i32 (refs m - 1)).

(** ** The iterator: the list and the current node, nil at the end *)

Record MemtableIterator := mkMI { it_list : Skiplist; it_curr : option nat }.

Definition Iterator (sl : Skiplist) : option MemtableIterator :=
  c ← fwd (nodes sl) head 0; Some (mkMI sl c).

Definition Next (it : MemtableIterator) : option MemtableIterator :=
  match it_curr it with
  | None => Some it
  | Some p => c ← fwd (nodes (it_list it)) p 0; Some (mkMI (it_list it) c)
  end.

Definition Valid (it : MemtableIterator) : bool :=
  match it_curr it with Some _ => true | None => false end.

Definition it_InternalKey (it : MemtableIterator) : InternalKey :=
  match it_curr it with
  | Some p => key (node (nodes (it_list it)) p)
  | None => mkIK [] 0 0
  end.

(** [Key()] always returns nil. *)
Definition it_Key (it : MemtableIterator) : option bytes := None.

Definition it_Value (it : MemtableIterator) : option bytes :=
  match it_curr it with
  | Some p => value (node (nodes (it_list it)) p)
  | None => None
  end.

Definition Seek (it : MemtableIterator) (target : InternalKey) : option MemtableIterator :=
  curr ← descend (it_list it) target (level (it_list it)) head;
  c ← fwd (nodes (it_list it)) curr 0;
  Some (mkMI (it_list it) c).

Definition Rewind (it : MemtableIterator) : option MemtableIterator :=
  c ← fwd (nodes (it_list it)) head 0; Some (mkMI (it_list it) c).

(** ** Specification *)

(** The memtable holds the records [l], sorted. *)
Definition holds (m : Memtable) (l : list Rec) : Prop :=
  represents (list_ m) l ∧ sorted_recs l.

(** [l] is what the iterator has still to deliver. *)
Definition remaining (it : MemtableIterator) (l : list Rec) : Prop :=
  ∃ pre post, wf_skiplist (it_list it) (pre ++ post) ∧ it_curr it = hd_error post ∧
    l = map (rec_of (nodes (it_list it))) post.

(** Insert the records one by one, each with its own coin flips. *)
Fixpoint Put_all (m : Memtable) (rs : list (list bool * Rec)) : option Memtable :=
  match rs with
  | [] => Some m
  | (flips, r) :: rs => m ← Put m flips r; Put_all m rs
  end.

(** Collect what an iterator delivers. *)
Fixpoint collect (fuel : nat) (it : MemtableIterator) : option (list Rec) :=
  if Valid it then
    match fuel with
    | O => None
    | S fuel =>
        it' ← Next it;
        rest ← collect fuel it';
        Some (mkRec (it_InternalKey it) (it_Value it) :: rest)
    end
  else Some [].

(** ** Lemmas *)

Lemma New_holds maxSize slMaxLevel : (1 <= slMaxLevel)%nat -> holds (New maxSize slMaxLevel) [].
Proof. intros H. split; [by apply NewSkiplist_represents|constructor]. Qed.

Lemma Put_holds m l flips r :
  holds m l ->
  ∃ m', Put m flips r = Some m' ∧ holds m' (insert_sorted r l) ∧
    size m' = u64 (size m + Size r) ∧ maxSize m' = maxSize m ∧ refs m' = refs m.
Proof.
  intros [Hr Hs]. unfold Put.
  destruct (insert_represents (list_ m) l flips (RKey r) (Value r) Hr) as (sl' & -> & Hr' & _).
  eexists. cbn. split_and!; [done| |done..]. destruct r. split; [done|by apply insert_sorted_sorted].
Qed.

Lemma Get_holds m l k s :
  holds m l -> Get m k (mkIK k s 0) = Some (memtable_result (candidate k s l)).
Proof.
  intros [Hr Hs]. unfold Get. by rewrite (search_represents _ l), lookup_sorted_candidate.
Qed.

Lemma holds_sorted m l : holds m l -> sorted_recs l.
Proof. by intros [_ H]. Qed.

Lemma Put_all_holds m l rs :
  holds m l ->
  ∃ m' l', Put_all m rs = Some m' ∧ holds m' l' ∧ l' ≡ₚ map snd rs ++ l ∧
    size m' = foldl (fun n r => u64 (n + Size r)) (size m) (map snd rs).
Proof.
  revert m l. induction rs as [|[flips r] rs IH]; intros m l Hm; cbn [Put_all map foldl].
  - by exists m, l.
  - destruct (Put_holds m l flips r Hm) as (m1 & -> & Hm1 & Hsz & _). cbn [mbind option_bind].
    destruct (IH m1 _ Hm1) as (m' & l' & -> & Hm' & Hl' & Hsz').
    exists m', l'. rewrite Hsz in Hsz'. split_and!; [done..| |done].
    rewrite Hl', insert_sorted_Permutation. cbn. by rewrite Permutation_middle.
Qed.

(** *** The iterator *)

Lemma linked_zero sl pre x post :
  wf_skiplist sl (pre ++ x :: post) -> fwd (nodes sl) x 0 = Some (hd_error post).
Proof.
  intros Hwf. pose proof (wf_level _ _ Hwf).
  pose proof (wf_linked _ _ Hwf 0 ltac:(lia)) as Hl.
  rewrite (at_level_all _ _ Hwf) in Hl. apply linked_suffix in Hl as [_ Hl].
  by apply linked_next in Hl.
Qed.

Lemma Iterator_remaining sl l :
  represents sl l -> ∃ it, Iterator sl = Some it ∧ remaining it l ∧ it_list it = sl.
Proof.
  intros (ids & Hwf & ->). pose proof (wf_level _ _ Hwf).
  pose proof (wf_linked _ _ Hwf 0 ltac:(lia)) as Hl. rewrite (at_level_all _ _ Hwf) in Hl.
  apply linked_next in Hl. unfold Iterator. rewrite Hl. cbn. eexists. split_and!; [done| |done].
  by exists [], ids.
Qed.

Lemma Valid_remaining it l : remaining it l -> Valid it = negb (bool_decide (l = [])).
Proof. intros (pre & [|p post] & _ & Hc & ->); unfold Valid; by rewrite Hc. Qed.

Lemma current_remaining it r l :
  remaining it (r :: l) -> it_InternalKey it = RKey r ∧ it_Value it = Value r.
Proof.
  intros (pre & [|p post] & _ & Hc & [=]). unfold it_InternalKey, it_Value. rewrite Hc. by subst r.
Qed.

Lemma Next_remaining it r l :
  remaining it (r :: l) -> ∃ it', Next it = Some it' ∧ remaining it' l ∧ it_list it' = it_list it.
Proof.
  intros (pre & [|p post] & Hwf & Hc & [=]). unfold Next. rewrite Hc. cbn [hd_error].
  rewrite (linked_zero _ _ _ _ Hwf). cbn [mbind option_bind]. eexists. split_and!; [done| |done].
  exists (pre ++ [p]), post. by rewrite <- app_assoc.
Qed.

Lemma Seek_remaining it l t :
  represents (it_list it) l ->
  ∃ it', Seek it t = Some it' ∧ remaining it' (seek_sorted t l) ∧ it_list it' = it_list it.
Proof.
  intros (pre & post & Hwf & -> & Hpre & Hpost)%(represents_split _ _ t).
  rewrite seek_sorted_app by (by rewrite Forall_map).
  pose proof (wf_level _ _ Hwf).
  pose proof (descend_spec (it_list it) pre post t (level (it_list it)) Hwf Hpre Hpost) as Hd.
  rewrite (pred_at_top (it_list it) (pre ++ post)) in Hd by (done || set_solver).
  unfold Seek. rewrite Hd by lia. cbn [mbind option_bind].
  pose proof (wf_linked _ _ Hwf 0 ltac:(lia)) as Hl.
  rewrite (at_level_all _ _ Hwf) in Hl. unfold pred_at.
  assert (at_level (nodes (it_list it)) 0 pre = pre) as ->.
  { pose proof (wf_ids _ _ Hwf) as Hi. apply Forall_app in Hi as [Hi _]. unfold at_level.
    clear -Hi. induction Hi as [|p ids Hp _ IH]; [done|].
    rewrite filter_cons_True by lia. by f_equal. }
  apply linked_suffix, linked_next in Hl. rewrite Hl. cbn [mbind option_bind].
  eexists. split_and!; [done| |done]. by exists pre, post.
Qed.

Lemma collect_remaining it l fuel :
  remaining it l -> (length l <= fuel)%nat -> collect fuel it = Some l.
Proof.
  revert it fuel. induction l as [|r l IH]; intros it fuel Hr Hf.
  - pose proof (Valid_remaining _ _ Hr) as Hv. cbn in Hv. destruct fuel; cbn; by rewrite Hv.
  - pose proof (Valid_remaining _ _ Hr) as Hv. cbn in Hv.
    destruct fuel as [|fuel]; [cbn in *; lia|]. cbn [collect]. rewrite Hv.
    destruct (Next_remaining _ _ _ Hr) as (it' & -> & Hr' & _). cbn [mbind option_bind].
    rewrite (IH it' fuel) by (done || (cbn in *; lia)). cbn [mbind option_bind].
    destruct (current_remaining _ _ _ Hr) as [-> ->]. by destruct r.
Qed.

(** ** What the memtable guarantees *)

(** C16. Whatever levels the skip list draws, a memtable filled with [rs] never panics, accounts for the
    sizes of all records, and answers every read at (key, sequence) with the newest version of the
    key not after the sequence. *)
Theorem Memtable_Get_newest maxSize slMaxLevel rs :
  (1 <= slMaxLevel)%nat ->
  ∃ m, Put_all (New maxSize slMaxLevel) rs = Some m ∧
    size m = foldl (fun n r => u64 (n + Size r)) 0 (map snd rs) ∧
    ∀ k s, ∃ o, newest k s (map snd rs) o ∧ Get m k (mkIK k s 0) = Some (memtable_result o).
Proof.
  intros H. destruct (Put_all_holds _ _ rs (New_holds maxSize slMaxLevel H))
    as (m & l & -> & Hm & Hl & Hsz). rewrite app_nil_r in Hl.
  exists m. split_and!; [done..|]. intros k s. exists (candidate k s l).
  rewrite (Get_holds m l) by done. split; [|done].
  rewrite <- Hl. apply candidate_newest. by apply holds_sorted in Hm.
Qed.

Definition example_puts : list (list bool * Rec) :=
  [([true; true], mkRec (mkIK [Byte.x61] 1 TypePut) (Some [Byte.x31]));
   ([], mkRec (mkIK [Byte.x61] 3 TypeDel) None);
   ([true], mkRec (mkIK [Byte.x62] 2 TypePut) (Some [Byte.x32]))].

Lemma Memtable_Get_newest_witness :
  (1 <= 4)%nat ∧
  ∃ m, Put_all (New 100 4) example_puts = Some m ∧ size m = 56 ∧
    ∀ k s, ∃ o, newest k s (map snd example_puts) o ∧
      Get m k (mkIK k s 0) = Some (memtable_result o).
Proof. split; [lia|]. apply (Memtable_Get_newest 100 4 example_puts). lia. Defined.

(** C26. A scan of the memtable delivers every record once, in the order of internal keys; after a Seek
    it delivers those at or after the target. *)
Theorem MemtableIterator_sorted maxSize slMaxLevel rs t :
  (1 <= slMaxLevel)%nat ->
  ∃ m it it' l, Put_all (New maxSize slMaxLevel) rs = Some m ∧ Iterator (list_ m) = Some it ∧
    collect (length rs) it = Some l ∧ l ≡ₚ map snd rs ∧ sorted_recs l ∧
    Seek it t = Some it' ∧ collect (length rs) it' = Some (seek_sorted t l).
Proof.
  intros H. destruct (Put_all_holds _ _ rs (New_holds maxSize slMaxLevel H))
    as (m & l & -> & Hm & Hl & _). rewrite app_nil_r in Hl. destruct Hm as [Hr Hs].
  destruct (Iterator_remaining _ _ Hr) as (it & Hit & Hrem & Eit).
  destruct (Seek_remaining it l t) as (it' & Hsk & Hrem' & _); [by rewrite Eit|].
  assert (length l = length rs) as Hlen by (by rewrite Hl, length_map).
  exists m, it, it', l. split_and!; try done.
  - apply collect_remaining; [done|lia].
  - apply collect_remaining; [done|]. rewrite <- Hlen.
    destruct (seek_sorted_spec t l Hs) as (pre & E & _). rewrite E at 2. rewrite length_app. lia.
Qed.

Lemma MemtableIterator_sorted_witness :
  (1 <= 2)%nat ∧
  ∃ m it it' l, Put_all (New 100 2) example_puts = Some m ∧ Iterator (list_ m) = Some it ∧
    collect 3 it = Some l ∧ l ≡ₚ map snd example_puts ∧ sorted_recs l ∧
    Seek it (mkIK [Byte.x62] 9 0) = Some it' ∧
    collect 3 it' = Some (seek_sorted (mkIK [Byte.x62] 9 0) l).
Proof. split; [lia|]. apply (MemtableIterator_sorted 100 2 example_puts). lia. Defined.
