(* ===== verification/Config.v ===== *)
(** * Package config: the options

    [options.go].  Integers are Z; the two probabilities are binary64 floats. *)

From S2P Require Import Prelude.
From Stdlib Require Import PrimFloat.

(** The decimal probabilities of the source are rounded to binary64, as Go does. *)
#[local] Set Warnings "-inexact-float".

Inductive SyncMode := SyncNone | SyncBatch.

#[export] Instance SyncMode_eq_dec : EqDecision SyncMode.
Proof. solve_decision. Defined.

(** SyncOptions is embedded: [Mode] and [Interval]. *)
Record Options := mkOptions {
  DataDir : string;
  CrashRecovery : bool;
  MemtableSize : Z;
  BlockSize : Z;
  FilterExpectedKeys : Z;
  FilterFPRate : float;
  BlockCacheSize : Z;
  MaxL0Files : Z;
  MaxBytesBase : Z;
  LevelMultiplier : Z;
  MaxSSTableSize : Z;
  NumLevels : Z;
  SkiplistMaxLevel : Z;
  SkiplistP : float;
  Mode : SyncMode;
  Interval : Z
}.

Definition or_default (x d : Z) : Z := if x =? 0 then d else x.

Definition or_default_float (x d : float) : float := if PrimFloat.eqb x 0 then d else x.

Definition WithDefaults (opts : Options) : Options := {|
  DataDir := DataDir opts;
  CrashRecovery := CrashRecovery opts;
  MemtableSize := MemtableSize opts;
  BlockSize := BlockSize opts;
  FilterExpectedKeys := or_default (FilterExpectedKeys opts) 1000;
  FilterFPRate := or_default_float (FilterFPRate opts) 0.01;
  BlockCacheSize := or_default (BlockCacheSize opts) 1024;
  MaxL0Files := or_default (MaxL0Files opts) 4;
  MaxBytesBase := or_default (MaxBytesBase opts) (10 * 1024 * 1024);
  LevelMultiplier := or_default (LevelMultiplier opts) 10;
  MaxSSTableSize := or_default (MaxSSTableSize opts) (4 * 1024 * 1024);
  NumLevels := or_default (NumLevels opts) 7;
  SkiplistMaxLevel := or_default (SkiplistMaxLevel opts) 16;
  SkiplistP := or_default_float (SkiplistP opts) 0.25;
  Mode := Mode opts;
  Interval := Interval opts
|}.

(** Values of the Go types that the program can work with: no unsigned field is negative. *)
Definition wf_options (o : Options) : Prop :=
  0 <= MemtableSize o < 2 ^ 32 ∧ 0 <= BlockSize o < 2 ^ 64 ∧ 0 <= FilterExpectedKeys o < 2 ^ 64 ∧
  0 <= MaxL0Files o < 2 ^ 62 ∧ 0 <= LevelMultiplier o < 2 ^ 63 ∧ 0 <= NumLevels o < 2 ^ 63 ∧
  0 <= SkiplistMaxLevel o < 2 ^ 63.

Lemma or_default_idem x d : or_default (or_default x d) d = or_default x d.
Proof. unfold or_default. destruct (x =? 0) eqn:E; [|by rewrite E]. by destruct (d =? 0). Qed.

Lemma or_default_float_idem x d : or_default_float (or_default_float x d) d = or_default_float x d.
Proof.
  unfold or_default_float. destruct (PrimFloat.eqb x 0) eqn:E; [|by rewrite E].
  by destruct (PrimFloat.eqb d 0).
Qed.

Lemma or_default_pos x d : 0 <= x -> 0 < d -> 0 < or_default x d.
Proof. unfold or_default. destruct (Z.eqb_spec x 0); lia. Qed.

(** WithDefaults fills each unset option and keeps the rest: applying it twice changes nothing more,
    and with fields of the Go types the sizes, counts and levels the engine divides or indexes by
    are positive. *)
Theorem WithDefaults_complete o :
  wf_options o ->
  WithDefaults (WithDefaults o) = WithDefaults o ∧
  0 < FilterExpectedKeys (WithDefaults o) ∧ BlockCacheSize (WithDefaults o) ≠ 0 ∧
  0 < MaxL0Files (WithDefaults o) ∧ 0 < LevelMultiplier (WithDefaults o) ∧
  0 < NumLevels (WithDefaults o) ∧ 0 < SkiplistMaxLevel (WithDefaults o) ∧
  (NumLevels o ≠ 0 -> NumLevels (WithDefaults o) = NumLevels o).
Proof.
  intros (_ & _ & H1 & H2 & H3 & H4 & H5). unfold WithDefaults. cbn.
  rewrite !or_default_idem, !or_default_float_idem.
  split_and!; try (apply or_default_pos; lia); [done|..].
  - unfold or_default. by destruct (Z.eqb_spec (BlockCacheSize o) 0).
  - intros Hn. unfold or_default. by rewrite (proj2 (Z.eqb_neq _ _) Hn).
Qed.

Definition example_options : Options := {|
  DataDir := "data"; CrashRecovery := true; MemtableSize := 100; BlockSize := 64;
  FilterExpectedKeys := 0; FilterFPRate := 0; BlockCacheSize := 0; MaxL0Files := 0;
  MaxBytesBase := 0; LevelMultiplier := 0; MaxSSTableSize := 0; NumLevels := 3;
  SkiplistMaxLevel := 0; SkiplistP := 0; Mode := SyncNone; Interval := 0 |}.

Lemma WithDefaults_complete_witness :
  NumLevels example_options ≠ 0 ∧ NumLevels (WithDefaults example_options) = 3 ∧
  0 < MaxL0Files (WithDefaults example_options).
Proof.
  assert (NumLevels example_options ≠ 0) as Hn by done.
  destruct (WithDefaults_complete example_options) as (_ & _ & _ & H & _ & _ & _ & Hk).
  { unfold wf_options. cbn. lia. }
  split_and!; [done|by rewrite (Hk Hn)|done].
Defined.
