(* ===== verification/Wal.v ===== *)
(** * Package wal: the write-ahead log

    [wal.go].  The frame format with its checksum, the replay loop, the log object in the mode that
    writes directly (SyncNone), and the group commit of SyncBatch, where clients hand their buffers
    over a channel to one committer goroutine: its interleavings are the step relation [step]. *)

From S2P Require Import Prelude.
From S2P Require Import GoStd.
From S2P Require Import Records.
From S2P Require Import Config.

(** ** Frames: [size(4)][record][crc32(4)] *)

(** The loop of encodeRecords: [buf] from [off] on is still to be filled. *)
Fixpoint encodeRecords_loop (recs : list Rec) (buf : bytes) (off : Z) : res bytes :=
  match recs with
  | [] => Ok buf
  | rec :: recs =>
      let size := Size rec in
      buf ← PutUint32 buf off size;
      let off := off + 4 in
      dst ← slice buf off (off + size);
      '(dst, _) ← EncodeRecordInto dst rec;
      buf ← put_at buf off dst;
      payload ← slice buf off (off + size);
      let crc := crc32_ChecksumIEEE payload in
      let off := off + size in
      buf ← PutUint32 buf off crc;
      let off := off + 4 in
      encodeRecords_loop recs buf off
  end.

Definition encodeRecords (recs : list Rec) : res bytes :=
  let total := foldl (fun total rec => total + (4 + Size rec + 4)) 0 recs in
  encodeRecords_loop recs (zeros total) 0.

(** ** Replay *)

(** io.ReadFull of [n] bytes: the bytes and what follows them, or the error. *)
Definition ReadFull (data : bytes) (n : Z) : bytes * bytes + error :=
  if n <=? len data then inl (take (Z.to_nat n) data, drop (Z.to_nat n) data)
  else if len data =? 0 then inr ErrEOF else inr ErrUnexpectedEOF.

Definition ErrTruncatedHeader : error := ErrText "wal: truncated header".
Definition ErrTruncatedPayload : error := ErrText "wal: truncated payload".
Definition ErrTruncatedChecksum : error := ErrText "wal: truncated checksum".
Definition ErrCorruptWal : error := ErrText "wal: corrupt record".
Definition ErrClosed : error := ErrText "wal: closed".

Section replay.
(** The callback and the state it works on. *)
Context {T : Type} (fn : T -> Rec -> T * option error).

Fixpoint Replay_loop (fuel : nat) (s : T) (data : bytes) : option (res (T * option error)) :=
  match fuel with
  | O => None
  | S fuel =>
      match ReadFull data 4 with
      | inr ErrEOF => Some (Ok (s, None))
      | inr _ => Some (Ok (s, Some ErrTruncatedHeader))
      | inl (sizeHeader, data) =>
          let recSize := le_value sizeHeader in
          match ReadFull data recSize with
          | inr _ => Some (Ok (s, Some ErrTruncatedPayload))
          | inl (recBuf, data) =>
              match ReadFull data 4 with
              | inr _ => Some (Ok (s, Some ErrTruncatedChecksum))
              | inl (checkSumBuf, data) =>
                  let expectedCRC := le_value checkSumBuf in
                  if negb (crc32_ChecksumIEEE recBuf =? expectedCRC)
                  then Some (Ok (s, Some ErrCorruptWal))
                  else
                    match DecodeRecord recBuf with
                    | Panic => Some Panic
                    | Err e => Some (Ok (s, Some e))
                    | Ok rec =>
                        match fn s rec with
                        | (s, Some e) => Some (Ok (s, Some e))
                        | (s, None) => Replay_loop fuel s data
                        end
                    end
              end
          end
      end
  end.

(** Every round reads at least four bytes. *)
Definition Replay (s : T) (data : bytes) : option (res (T * option error)) :=
  Replay_loop (S (length data)) s data.
End replay.

(** ** The log object *)

Record WAL := mkWAL { file : File; mode : SyncMode; closed : bool }.

Definition Open (f : File) (mode : SyncMode) : WAL := mkWAL f mode false.

(** The committer's round on the buffers it has drained: one write, then a sync if it succeeded. *)
Definition commit_batch (f : File) (reqs : list bytes) : File * option error :=
  let batch := concat reqs in
  let '(f, _, err) := file_Write f batch in
  match err with
  | None => file_Sync f
  | Some e => (f, Some e)
  end.

(** submit in the default mode, under the mutex. *)
Definition submit (w : WAL) (buf : bytes) : WAL * option error :=
  if closed w then (w, Some ErrClosed)
  else
    let '(f, _, err) := file_Write (file w) buf in
    (mkWAL f (mode w) (closed w), err).

Definition Append (w : WAL) (r : Rec) : res (WAL * option error) :=
  buf ← encodeRecords [r]; Ok (submit w buf).

(** [recs[i].SeqNum = startSeq + uint64(i)]; the caller's slice is changed in place. *)
Fixpoint renumber (recs : list Rec) (seq : Z) : list Rec :=
  match recs with
  | [] => []
  | r :: recs =>
      mkRec (mkIK (UserKey r) (u64 seq) (KType r)) (Value r) :: renumber recs (seq + 1)
  end.

Definition AppendBatch (w : WAL) (recs : list Rec) (startSeq : Z) :
    res (WAL * option error * list Rec) :=
  let recs := renumber recs startSeq in
  buf ← encodeRecords recs; Ok (submit w buf, recs).

Definition Sync (w : WAL) : WAL * option error :=
  let '(f, err) := file_Sync (file w) in (mkWAL f (mode w) (closed w), err).

(** Close of a possibly nil log: idempotent, syncs before it closes the file. *)
Definition Close (w : option WAL) : option WAL * option error :=
  match w with
  | None => (None, None)
  | Some w =>
      if closed w then (Some w, None)
      else
        let '(f, err) := file_Sync (file w) in
        (Some (mkWAL f (mode w) true), err)
  end.

(** ** The interval mode (SyncNone with an interval)

    A ticker makes the goroutine of intervalSyncer sync the file, under the mutex, between the calls of
    clients; Close stops it.  Ticks that the ticker drops change nothing. *)

(** One tick: the error of Sync is dropped; the file of a closed log cannot be synced. *)
Definition interval_tick (w : WAL) : WAL := if closed w then w else (Sync w).1.

Inductive interval_op := SubmitOp (buf : bytes) | SyncOp | TickOp | CloseOp.

Definition interval_step (w : WAL) (o : interval_op) : WAL :=
  match o with
  | SubmitOp buf => (submit w buf).1
  | SyncOp => if closed w then w else (Sync w).1
  | TickOp => interval_tick w
  | CloseOp => default w (Close (Some w)).1
  end.

(** ** Group commit (SyncBatch)

    Clients are numbered; [buf i] is what client [i] submits.  A client checks [closed] under the
    mutex, then sends its request, then waits.  The channel holds at most 256 requests. *)

Inductive client :=
  | Start
  | Checked
  | Waiting
  | Returned (err : option error)
  | ClientPanic.

Inductive committer_state :=
  | Receiving
  | Draining (reqs : list nat)
  | Committing (reqs : list nat)
  | Exited.

Record gstate := mkG {
  gfile : File;
  gclosed : bool;
  chan : list nat;
  chan_closed : bool;
  committer : committer_state;
  clients : gmap nat client
}.

Definition chan_cap : nat := 256.

Section group.
Context (buf : nat -> bytes).

Definition set_client (s : gstate) (i : nat) (c : client) : gstate :=
  mkG (gfile s) (gclosed s) (chan s) (chan_closed s) (committer s) (<[i := c]> (clients s)).

(** [r.err = err; r.wg.Done()] for every drained request. *)
Definition ack_all (reqs : list nat) (err : option error) (cs : gmap nat client) : gmap nat client :=
  foldr (fun i cs => <[i := Returned err]> cs) cs reqs.

(** One step of a goroutine. The send on a closed channel panics, which ends the Go process: here it is
    the client's last step and the others may go on, so that what holds of all reachable states holds
    of those the program reaches, and of more. *)
Inductive step : gstate -> gstate -> Prop :=
  | step_submit_closed s i :
      clients s !! i = Some Start -> gclosed s = true ->
      step s (set_client s i (Returned (Some ErrClosed)))
  | step_submit_open s i :
      clients s !! i = Some Start -> gclosed s = false ->
      step s (set_client s i Checked)
  | step_send s i :
      clients s !! i = Some Checked -> chan_closed s = false ->
      (length (chan s) < chan_cap)%nat ->
      step s (mkG (gfile s) (gclosed s) (chan s ++ [i]) (chan_closed s) (committer s)
               (<[i := Waiting]> (clients s)))
  | step_send_closed s i :
      clients s !! i = Some Checked -> chan_closed s = true ->
      step s (set_client s i ClientPanic)
  | step_receive s i q :
      committer s = Receiving -> chan s = i :: q ->
      step s (mkG (gfile s) (gclosed s) q (chan_closed s) (Draining [i]) (clients s))
  | step_exit s :
      committer s = Receiving -> chan s = [] -> chan_closed s = true ->
      step s (mkG (gfile s) (gclosed s) [] true Exited (clients s))
  | step_drain s reqs i q :
      committer s = Draining reqs -> chan s = i :: q ->
      step s (mkG (gfile s) (gclosed s) q (chan_closed s) (Draining (reqs ++ [i])) (clients s))
  | step_drained s reqs :
      committer s = Draining reqs -> chan s = [] ->
      step s (mkG (gfile s) (gclosed s) [] (chan_closed s) (Committing reqs) (clients s))
  | step_commit s reqs f err :
      committer s = Committing reqs ->
      commit_batch (gfile s) (map buf reqs) = (f, err) ->
      step s (mkG f (gclosed s) (chan s) (chan_closed s) Receiving (ack_all reqs err (clients s)))
  | step_close s :
      gclosed s = false ->
      step s (mkG (gfile s) true (chan s) true (committer s) (clients s)).

Definition initial (f : File) (n : nat) : gstate :=
  mkG f false [] false Receiving (list_to_map (map (fun i => (i, Start)) (seq 0 n))).
End group.

(** ** Specification *)

Definition frame (payload : bytes) : bytes :=
  le_bytes 4 (len payload) ++ payload ++ le_bytes 4 (crc32_ChecksumIEEE payload).

Definition wal_bytes (recs : list Rec) : bytes := concat (map (fun r => frame (record_bytes r)) recs).

(** ** Encoding *)

Lemma len_frame p : len (frame p) = len p + 8.
Proof. unfold frame. len_lia. Qed.

#[export] Hint Rewrite len_frame : len.

Lemma wal_bytes_cons r recs : wal_bytes (r :: recs) = frame (record_bytes r) ++ wal_bytes recs.
Proof. reflexivity. Qed.

Lemma wal_bytes_app recs1 recs2 : wal_bytes (recs1 ++ recs2) = wal_bytes recs1 ++ wal_bytes recs2.
Proof. unfold wal_bytes. by rewrite map_app, concat_app. Qed.

Lemma slice_mid {A} (p c tl : list A) lo hi :
  len p = lo -> lo + len c = hi -> slice (p ++ c ++ tl) lo hi = Ok c.
Proof.
  intros <- <-. unfold slice.
  rewrite (proj2 (Z.leb_le 0 _)), (proj2 (Z.leb_le _ (_ + _))), (proj2 (Z.leb_le _ (len (p ++ _))))
    by len_lia.
  cbn [andb]. unfold len. rewrite Nat2Z.id, drop_app_length, Z.add_simpl_l, Nat2Z.id.
  by rewrite take_app_length.
Qed.

Lemma encodeRecords_loop_spec recs p tl off :
  Forall small_rec recs -> len p = off -> len tl = len (wal_bytes recs) ->
  encodeRecords_loop recs (p ++ tl) off = Ok (p ++ wal_bytes recs).
Proof.
  intros Hs. revert p tl off. induction Hs as [|r recs Hr Hs IH]; intros p tl off Hp Htl.
  - apply len_zero_inv in Htl as ->. done.
  - rewrite wal_bytes_cons in *. autorewrite with len in Htl. cbn [encodeRecords_loop].
    rewrite (Size_exact r Hr). pose proof (len_nonneg (wal_bytes recs)) as Hn1.
    pose proof (len_record_bytes r) as Hlr. pose proof (len_nonneg (record_bytes r)) as Hn2.
    set (rb := record_bytes r) in *. unfold PutUint32. put_step.
    set (tl1 := drop _ tl). assert (len tl1 = len rb + 4 + len (wal_bytes recs)) as Htl1
      by (subst tl1; len_lia).
    set (p1 := p ++ _). assert (len p1 = off + 4) as Hp1 by (subst p1; len_lia).
    rewrite <- (take_drop (length rb) tl1) at 1.
    rewrite slice_mid by (rewrite ?len_take_min, ?len_fold; lia). cbn [mbind res_bind].
    rewrite EncodeRecordInto_app by (rewrite len_take_min, len_fold; fold rb; lia).
    cbn [mbind res_bind]. fold rb.
    rewrite (drop_ge (take _ tl1)) by (rewrite length_take; lia). rewrite app_nil_r.
    put_step.
    set (tl2 := drop (length rb) tl1).
    rewrite <- (app_assoc p1), slice_mid by lia. cbn [mbind res_bind]. rewrite app_assoc.
    rewrite put_at_app by (subst tl2; len_lia). cbn [mbind res_bind].
    rewrite IH; [|len_lia|subst tl2; len_lia].
    subst p1. unfold frame. fold rb. by rewrite <- !app_assoc.
Qed.

Lemma foldl_total recs n :
  Forall small_rec recs ->
  foldl (fun total rec => total + (4 + Size rec + 4)) n recs = n + len (wal_bytes recs).
Proof.
  intros Hs. revert n. induction Hs as [|r recs Hr Hs IH]; intros n; cbn [foldl].
  - len_lia.
  - rewrite IH, wal_bytes_cons, (Size_exact r Hr). len_lia.
Qed.

Lemma encodeRecords_spec recs :
  Forall small_rec recs -> encodeRecords recs = Ok (wal_bytes recs).
Proof.
  intros Hs. unfold encodeRecords. rewrite foldl_total by done. cbv zeta.
  apply (encodeRecords_loop_spec recs [] (zeros (0 + len (wal_bytes recs))) 0); [done|done|].
  rewrite len_zeros; [lia|]. pose proof (len_nonneg (wal_bytes recs)). lia.
Qed.

(** ** Replaying *)

Lemma ReadFull_app p rest n : n = len p -> ReadFull (p ++ rest) n = inl (p, rest).
Proof.
  intros ->. unfold ReadFull. rewrite (proj2 (Z.leb_le _ _)) by len_lia.
  unfold len. by rewrite Nat2Z.id, take_app_length, drop_app_length.
Qed.

Lemma ReadFull_short data n :
  len data < n -> ReadFull data n = inr (if len data =? 0 then ErrEOF else ErrUnexpectedEOF).
Proof.
  intros H. unfold ReadFull. rewrite (proj2 (Z.leb_gt _ _)) by lia. by destruct (len data =? 0).
Qed.

Lemma crc32_le_value p : le_value (le_bytes 4 (crc32_ChecksumIEEE p)) = crc32_ChecksumIEEE p.
Proof. rewrite le_value_4. apply u32_small, crc32_range. Qed.

Section replay_lemmas.
Context {T : Type} (fn : T -> Rec -> T * option error).

(** The callback on the records in order, up to its first error. *)
Fixpoint deliver (s : T) (recs : list Rec) : T * option error :=
  match recs with
  | [] => (s, None)
  | r :: recs =>
      match fn s r with
      | (s, None) => deliver s recs
      | (s, Some e) => (s, Some e)
      end
  end.

(** One round on a whole frame. *)
Lemma Replay_loop_frame fuel s p rest :
  len p < 2 ^ 32 ->
  Replay_loop fn (S fuel) s (frame p ++ rest) =
    match DecodeRecord p with
    | Panic => Some Panic
    | Err e => Some (Ok (s, Some e))
    | Ok rec =>
        match fn s rec with
        | (s, Some e) => Some (Ok (s, Some e))
        | (s, None) => Replay_loop fn fuel s rest
        end
    end.
Proof.
  intros Hp. pose proof (len_nonneg p). cbn [Replay_loop]. unfold frame. rewrite <- !app_assoc.
  rewrite ReadFull_app by (by rewrite len_le_bytes).
  rewrite le_value_4, u32_small by lia. rewrite ReadFull_app by done.
  rewrite ReadFull_app by (by rewrite len_le_bytes).
  by rewrite crc32_le_value, Z.eqb_refl.
Qed.

(** Replay of well-formed frames hands their records to the callback, then goes on. *)
Lemma Replay_loop_wal fuel s recs rest :
  Forall small_rec recs ->
  Replay_loop fn (length recs + fuel) s (wal_bytes recs ++ rest) =
    match deliver s (map normalize recs) with
    | (s, None) => Replay_loop fn fuel s rest
    | r => Some (Ok r)
    end.
Proof.
  intros Hs. revert s. induction Hs as [|r recs Hr Hs IH]; intros s; [done|].
  rewrite wal_bytes_cons, <- app_assoc. cbn [length Nat.add map deliver].
  destruct Hr as [Hwf Hsz].
  rewrite Replay_loop_frame by (rewrite len_record_bytes; lia).
  pose proof (DecodeRecord_record_bytes r [] Hwf) as D. rewrite app_nil_r in D. rewrite D.
  destruct (fn s (normalize r)) as [s' [e|]]; [done|]. apply IH.
Qed.

(** More fuel never changes the outcome. *)
Lemma Replay_loop_mono fuel fuel' s data r :
  Replay_loop fn fuel s data = Some r -> (fuel <= fuel')%nat -> Replay_loop fn fuel' s data = Some r.
Proof.
  revert fuel' s data. induction fuel as [|fuel IH]; intros fuel' s data; [done|].
  destruct fuel' as [|fuel']; [lia|]. cbn [Replay_loop]. intros Hr Hf.
  destruct (ReadFull data 4) as [[h d1]|[]]; try done.
  destruct (ReadFull d1 _) as [[b d2]|?]; try done.
  destruct (ReadFull d2 4) as [[c d3]|?]; try done.
  destruct (negb _); try done. destruct (DecodeRecord b) as [rec| |]; try done.
  destruct (fn s rec) as [s' [e|]]; [done|]. apply IH; [done|lia].
Qed.

(** The fuel of [Replay] is enough for any log. *)
Lemma Replay_loop_total fuel s data :
  (length data < fuel)%nat -> is_Some (Replay_loop fn fuel s data).
Proof.
  revert s data. induction fuel as [|fuel IH]; intros s data Hf; [lia|]. cbn [Replay_loop].
  destruct (ReadFull data 4) as [[h d1]|[]] eqn:E1; try (by eexists).
  destruct (ReadFull d1 _) as [[b d2]|?] eqn:E2; try (by eexists).
  destruct (ReadFull d2 4) as [[c d3]|?] eqn:E3; try (by eexists).
  destruct (negb _); try (by eexists). destruct (DecodeRecord b) as [rec| |]; try (by eexists).
  destruct (fn s rec) as [s' [e|]]; [by eexists|]. apply IH.
  unfold ReadFull in *. repeat case_match; simplify_eq. rewrite !length_drop.
  destruct (decide (length data = 0)%nat) as [Hz|]; [|lia].
  apply nil_length_inv in Hz as ->. done.
Qed.

Lemma Replay_wal s recs rest :
  Forall small_rec recs ->
  ∃ fuel, (length rest < fuel)%nat ∧
  Replay fn s (wal_bytes recs ++ rest) =
    match deliver s (map normalize recs) with
    | (s, None) => Replay_loop fn fuel s rest
    | r => Some (Ok r)
    end.
Proof.
  intros Hs. unfold Replay.
  assert (length recs <= length (wal_bytes recs))%nat as Hl.
  { clear Hs. induction recs as [|r recs IH]; [done|]. rewrite wal_bytes_cons, length_app.
    pose proof (len_frame (record_bytes r)) as H. pose proof (len_nonneg (record_bytes r)).
    unfold len in *. cbn [length]. lia. }
  exists (S (length (wal_bytes recs) - length recs + length rest)). split; [lia|].
  rewrite <- Replay_loop_wal by done. f_equal. rewrite length_app. lia.
Qed.

Lemma Replay_loop_nil fuel s : Replay_loop fn (S fuel) s [] = Some (Ok (s, None)).
Proof. reflexivity. Qed.

(** A torn frame is an error: which one depends on where it was cut. *)
Lemma Replay_loop_torn fuel s r n :
  small_rec r -> 0 < n < len (frame (record_bytes r)) ->
  ∃ e, Replay_loop fn (S fuel) s (take (Z.to_nat n) (frame (record_bytes r))) =
    Some (Ok (s, Some e)) ∧
    (e = ErrTruncatedHeader ∨ e = ErrTruncatedPayload ∨ e = ErrTruncatedChecksum).
Proof.
  intros [_ Hsz] Hn. rewrite len_frame in Hn. pose proof (len_record_bytes r) as Hlr.
  set (p := record_bytes r) in *. pose proof (len_nonneg p). cbn [Replay_loop].
  destruct (Z.lt_ge_cases n 4) as [H4|H4].
  { rewrite ReadFull_short by (rewrite len_take; rewrite ?len_frame; lia).
    rewrite len_take by (rewrite len_frame; lia). rewrite (proj2 (Z.eqb_neq n 0)) by lia. eauto. }
  assert (take (Z.to_nat n) (frame p) =
    le_bytes 4 (len p) ++ take (Z.to_nat (n - 4)) (p ++ le_bytes 4 (crc32_ChecksumIEEE p))) as ->.
  { unfold frame. rewrite take_app. f_equal; [apply take_ge; cbn; lia|].
    f_equal. change (length (le_bytes 4 (len p))) with 4%nat. lia. }
  rewrite ReadFull_app by (by rewrite len_le_bytes). rewrite le_value_4, u32_small by lia.
  destruct (Z.lt_ge_cases (n - 4) (len p)) as [Hp|Hp].
  { rewrite ReadFull_short; [eauto|]. rewrite len_take by len_lia. lia. }
  assert (take (Z.to_nat (n - 4)) (p ++ le_bytes 4 (crc32_ChecksumIEEE p)) =
    p ++ take (Z.to_nat (n - 4 - len p)) (le_bytes 4 (crc32_ChecksumIEEE p))) as ->.
  { rewrite take_app. f_equal; [apply take_ge; unfold len in *; lia|].
    f_equal. unfold len in *. lia. }
  rewrite ReadFull_app by done. rewrite ReadFull_short; [eauto|].
  rewrite len_take by len_lia. lia.
Qed.

(** A frame whose checksum does not match its payload. *)
Lemma Replay_loop_corrupt fuel s p c rest :
  len p < 2 ^ 32 -> len c = 4 -> le_value c ≠ crc32_ChecksumIEEE p ->
  Replay_loop fn (S fuel) s (le_bytes 4 (len p) ++ p ++ c ++ rest) =
    Some (Ok (s, Some ErrCorruptWal)).
Proof.
  intros Hp Hc Hne. pose proof (len_nonneg p). cbn [Replay_loop].
  rewrite ReadFull_app by (by rewrite len_le_bytes). rewrite le_value_4, u32_small by lia.
  rewrite ReadFull_app by done. rewrite ReadFull_app by done.
  by rewrite (proj2 (Z.eqb_neq _ (le_value c))).
Qed.
End replay_lemmas.

(** ** What the log guarantees *)

(** C8. Encoding records and replaying the bytes hands exactly those records to the callback, in order,
    up to the first error of the callback. *)
Theorem Replay_encodeRecords {T} (fn : T -> Rec -> T * option error) s recs :
  Forall small_rec recs ->
  ∃ data, encodeRecords recs = Ok data ∧
    Replay fn s data = Some (Ok (deliver fn s (map normalize recs))).
Proof.
  intros Hs. exists (wal_bytes recs). split; [by apply encodeRecords_spec|].
  destruct (Replay_wal fn s recs [] Hs) as (fuel & Hf & E). rewrite app_nil_r in E. rewrite E.
  destruct (deliver fn s (map normalize recs)) as [s' [e|]]; [done|].
  destruct fuel; [lia|]. done.
Qed.

(** Callback of the examples: collect the records. *)
Definition collect_fn (l : list Rec) (r : Rec) : list Rec * option error := (l ++ [r], None).

Definition example_rec : Rec := mkRec (mkIK [Byte.x61; Byte.x62] 7 TypePut) (Some [Byte.x31]).

Lemma Replay_encodeRecords_witness :
  Forall small_rec [example_rec; example_rec] ∧
  ∃ data, encodeRecords [example_rec; example_rec] = Ok data ∧
    Replay collect_fn [] data = Some (Ok ([example_rec; example_rec], None)).
Proof.
  assert (Forall small_rec [example_rec; example_rec]) as H by (apply (bool_decide_unpack _); reflexivity).
  split; [exact H|]. exact (Replay_encodeRecords collect_fn [] [example_rec; example_rec] H).
Defined.

(** C9. A log whose last frame was torn by a crash, at whatever point: every earlier record is delivered,
    and the replay then reports a truncated log instead of ending. *)
Theorem Replay_torn_tail {T} (fn : T -> Rec -> T * option error) s recs r n s' :
  Forall small_rec recs -> small_rec r -> 0 < n < len (frame (record_bytes r)) ->
  deliver fn s (map normalize recs) = (s', None) ->
  ∃ e, Replay fn s (wal_bytes recs ++ take (Z.to_nat n) (frame (record_bytes r))) =
    Some (Ok (s', Some e)) ∧
    (e = ErrTruncatedHeader ∨ e = ErrTruncatedPayload ∨ e = ErrTruncatedChecksum).
Proof.
  intros Hs Hr Hn Hd.
  destruct (Replay_wal fn s recs (take (Z.to_nat n) (frame (record_bytes r))) Hs)
    as (fuel & Hf & ->).
  rewrite Hd. destruct fuel as [|fuel]; [lia|]. by apply Replay_loop_torn.
Qed.

Lemma Replay_torn_tail_witness :
  ∃ e, Replay collect_fn [] (wal_bytes [example_rec] ++
      take (Z.to_nat 9) (frame (record_bytes example_rec))) = Some (Ok ([example_rec], Some e)) ∧
    (e = ErrTruncatedHeader ∨ e = ErrTruncatedPayload ∨ e = ErrTruncatedChecksum).
Proof.
  apply (Replay_torn_tail collect_fn [] [example_rec] example_rec 9).
  - apply (bool_decide_unpack _). reflexivity.
  - apply (bool_decide_unpack _). reflexivity.
  - vm_compute. intuition congruence.
  - reflexivity.
Defined.

(** C10. A damaged payload or checksum is detected: the records before it are delivered, nothing after
    it is. *)
Theorem Replay_corrupt_frame {T} (fn : T -> Rec -> T * option error) s recs p c rest s' :
  Forall small_rec recs -> len p < 2 ^ 32 -> len c = 4 -> le_value c ≠ crc32_ChecksumIEEE p ->
  deliver fn s (map normalize recs) = (s', None) ->
  Replay fn s (wal_bytes recs ++ le_bytes 4 (len p) ++ p ++ c ++ rest) =
    Some (Ok (s', Some ErrCorruptWal)).
Proof.
  intros Hs Hp Hc Hne Hd.
  destruct (Replay_wal fn s recs (le_bytes 4 (len p) ++ p ++ c ++ rest) Hs) as (fuel & Hf & ->).
  rewrite Hd. destruct fuel as [|fuel]; [lia|]. by apply Replay_loop_corrupt.
Qed.

Lemma Replay_corrupt_frame_witness :
  Replay collect_fn [] (wal_bytes [example_rec] ++ le_bytes 4 1 ++ [Byte.x00] ++ zeros 4 ++ []) =
    Some (Ok ([example_rec], Some ErrCorruptWal)).
Proof.
  apply (Replay_corrupt_frame collect_fn [] [example_rec] [Byte.x00] (zeros 4)).
  - apply (bool_decide_unpack _). reflexivity.
  - reflexivity.
  - reflexivity.
  - vm_compute. discriminate.
  - reflexivity.
Defined.

(** C27. Replay ends on every file content, whatever it holds, and never panics. *)
Theorem Replay_terminates {T} (fn : T -> Rec -> T * option error) s data :
  ∃ r, Replay fn s data = Some (Ok r).
Proof.
  destruct (Replay_loop_total fn (S (length data)) s data ltac:(lia)) as [r Hr].
  unfold Replay. rewrite Hr. enough (∃ r', r = Ok r') as [r' ->] by by exists r'.
  revert Hr. generalize (S (length data)) as fuel. intros fuel. revert s data.
  induction fuel as [|fuel IH]; intros s data; [done|]. cbn [Replay_loop].
  repeat (case_match; try (intros; simplify_eq; by eexists)); intros; try by eapply IH.
  simplify_eq. by destruct (DecodeRecord_safe l1).
Qed.

(** ** Group commit *)

#[local] Arguments commit_batch : simpl never.
#[local] Arguments ack_all : simpl never.

Section group_lemmas.
Context (buf : nat -> bytes).

Definition pending (c : committer_state) : list nat :=
  match c with Draining reqs | Committing reqs => reqs | _ => [] end.

Lemma ack_all_lookup reqs err cs i :
  ack_all reqs err cs !! i = if decide (i ∈ reqs) then Some (Returned err) else cs !! i.
Proof.
  induction reqs as [|j reqs IH]; unfold ack_all; cbn [foldr].
  - rewrite decide_False by set_solver. done.
  - rewrite lookup_insert. destruct (decide (j = i)) as [->|Hne].
    + rewrite decide_True by set_solver. done.
    + fold (ack_all reqs err cs). rewrite IH.
      destruct (decide (i ∈ reqs)); [rewrite decide_True by set_solver|
        rewrite decide_False by set_solver]; done.
Qed.

Lemma commit_batch_ok f reqs f' :
  commit_batch f reqs = (f', None) ->
  fdata f' = fdata f ++ concat reqs ∧ fdurable f' = len (fdata f').
Proof.
  unfold commit_batch, file_Write, file_Sync.
  destruct f as [d du [|[k|] [|[k'|] fl]]]; cbn; intros [= <-]; done.
Qed.

Lemma commit_batch_mono f reqs f' err :
  commit_batch f reqs = (f', err) -> 0 <= fdurable f <= len (fdata f) ->
  fdata f `prefix_of` fdata f' ∧ fdurable f <= fdurable f' <= len (fdata f').
Proof.
  unfold commit_batch, file_Write, file_Sync.
  destruct f as [d du [|[k|] [|[k'|] fl]]]; cbn; intros [= <- <-] ?; cbn;
    (split; [by eexists|len_lia]).
Qed.

Lemma commit_batch_no_faults f reqs :
  ffaults f = [] ->
  commit_batch f reqs =
    (mkFile (fdata f ++ concat reqs) (len (fdata f ++ concat reqs)) [], None).
Proof. destruct f as [d du fl]. cbn. by intros ->. Qed.

(** What holds of every reachable state, whatever fails. *)
Definition durable_inv (s : gstate) : Prop :=
  0 <= fdurable (gfile s) <= len (fdata (gfile s)) ∧
  ∀ i, clients s !! i = Some (Returned None) ->
    ∃ a b, take (Z.to_nat (fdurable (gfile s))) (fdata (gfile s)) = a ++ buf i ++ b.

Lemma durable_mono f f' i :
  fdata f `prefix_of` fdata f' -> fdurable f <= fdurable f' ->
  (∃ a b, take (Z.to_nat (fdurable f)) (fdata f) = a ++ buf i ++ b) ->
  0 <= fdurable f <= len (fdata f) ->
  ∃ a b, take (Z.to_nat (fdurable f')) (fdata f') = a ++ buf i ++ b.
Proof.
  intros [k Hk] Hd (a & b & E) Hr.
  exists a, (b ++ take (Z.to_nat (fdurable f' - fdurable f)) (drop (Z.to_nat (fdurable f)) (fdata f'))).
  rewrite !app_assoc, <- (app_assoc a), <- E.
  replace (Z.to_nat (fdurable f')) with
    (Z.to_nat (fdurable f) + Z.to_nat (fdurable f' - fdurable f))%nat by lia.
  rewrite <- take_take_drop. f_equal. rewrite Hk, take_app_le; [done|].
  unfold len in Hr. lia.
Qed.

Lemma durable_inv_step s s' : durable_inv s -> step buf s s' -> durable_inv s'.
Proof.
  intros [Hr Hd] Hstep.
  destruct Hstep; unfold set_client in *; split; cbn in *; try done;
    try (intros j; rewrite ?lookup_insert; case_decide; [done|apply Hd]);
    rename select (commit_batch _ _ = _) into Hb;
    pose proof (commit_batch_mono _ _ _ _ Hb Hr) as (Hp & Hm).
  - lia.
  -
    intros j. rewrite ack_all_lookup. case_decide as Hj.
    + intros [= ->]. apply commit_batch_ok in Hb as [Hdata Hdur].
      rewrite Hdur. unfold len. rewrite Nat2Z.id, take_ge, Hdata by lia.
      apply list_elem_of_split in Hj as (l1 & l2 & ->).
      exists (fdata (gfile s) ++ concat (map buf l1)), (concat (map buf l2)).
      rewrite map_app, concat_app. cbn. by rewrite <- !app_assoc.
    + intros Hj'. eapply (durable_mono (gfile s)); try done; [lia|]. by apply Hd.
Qed.

Lemma durable_inv_initial f n :
  0 <= fdurable f <= len (fdata f) -> durable_inv (initial f n).
Proof.
  intros Hf. split; [done|]. intros i Hi. cbn in Hi.
  apply elem_of_list_to_map_2 in Hi. apply list_elem_of_fmap in Hi as (? & ? & _). done.
Qed.

(** Every waiting client is queued exactly once, and the committer only exits with an empty, closed
    channel. *)
Record queue_inv (s : gstate) : Prop := {
  q_nodup : NoDup (pending (committer s) ++ chan s);
  q_waiting i : clients s !! i = Some Waiting <-> i ∈ pending (committer s) ++ chan s;
  q_exited : committer s = Exited -> chan s = [] ∧ chan_closed s = true
}.

Ltac client_case j :=
  intros j; rewrite ?ack_all_lookup, ?lookup_insert; case_decide; subst.

Lemma queue_inv_step s s' : queue_inv s -> step buf s s' -> queue_inv s'.
Proof.
  intros [Hd Hw He] Hstep.
  destruct Hstep as [s i Hi _|s i Hi _|s i Hi Hcl _|s i Hi _|s i q Hc Hq|s Hc Hq Hcl|s reqs i q Hc Hq|s reqs Hc Hq|s reqs f err Hc Hb|s Hcl];
    unfold set_client; split; cbn [pending clients chan committer chan_closed] in *;
    rewrite ?Hc, ?Hq in *; cbn [pending app] in *; rewrite ?app_nil_r in *; rewrite <- ?app_assoc in *;
    try done; try (by intros H; split; [|apply He]; destruct (He H)).
  all: try (client_case j; [|by auto]; split; [done|intros Hj%Hw; congruence]).
  - rewrite app_assoc. apply NoDup_app. split_and!; [done| |apply NoDup_singleton].
    intros j Hj%Hw ->%list_elem_of_singleton. congruence.
  - client_case j.
    + split; [set_solver|done].
    + rewrite Hw. set_solver.
  - intros H. destruct (He H). congruence.
  - by apply NoDup_app in Hd as (_ & _ & ?).
  - client_case j.
    + split; [done|]. apply NoDup_app in Hd as (_ & Hd & _). intros Hj. by destruct (Hd j).
    + rewrite Hw. set_solver.
  - intros H. split; [by apply He|done].
Qed.

(** Without faults the file is the concatenation of whole buffers, one per successful client. *)
Definition content_inv (d0 : bytes) (s : gstate) : Prop :=
  ∃ acked, ffaults (gfile s) = [] ∧ fdata (gfile s) = d0 ++ concat (map buf acked) ∧ NoDup acked ∧
    ∀ i, clients s !! i = Some (Returned None) <-> i ∈ acked.

Lemma content_inv_step d0 s s' :
  queue_inv s -> content_inv d0 s -> step buf s s' -> content_inv d0 s'.
Proof.
  intros [Hqd Hw He] (acked & Hf & Hdata & Hd & Ha) Hstep.
  destruct Hstep as [s i Hi _|s i Hi _|s i Hi Hcl _|s i Hi _|s i q Hc Hq|s Hc Hq Hcl|s reqs i q Hc Hq|s reqs Hc Hq|s reqs f err Hc Hb|s Hcl];
    unfold set_client, content_inv; cbn [clients gfile] in *; try by exists acked.
  1-4: exists acked; split_and!; [done..|]; client_case j; [|by auto];
    split; [done|intros Hj%Ha; congruence].
  rewrite Hc in *. cbn [pending] in *.
  rewrite commit_batch_no_faults in Hb by done. injection Hb as <- <-.
  exists (acked ++ reqs). cbn [ffaults fdata]. split_and!; [done|..].
  - by rewrite Hdata, map_app, concat_app, app_assoc.
  - apply NoDup_app in Hqd as (Hqd & _ & _).
    apply NoDup_app. split_and!; [done| |done]. intros i Hi%Ha Hi'.
    assert (i ∈ reqs ++ chan s) as Hi''%Hw by set_solver. congruence.
  - client_case j; [set_solver|]. rewrite Ha. set_solver.
Qed.

Lemma initial_start f n i c : clients (initial f n) !! i = Some c -> c = Start.
Proof.
  cbn. intros Hi. apply elem_of_list_to_map_2, list_elem_of_fmap in Hi as (? & [= -> ->] & _). done.
Qed.

Lemma queue_inv_initial f n : queue_inv (initial f n).
Proof.
  split; [constructor| |done]. intros i. split; [by intros ?%initial_start|set_solver].
Qed.

Lemma content_inv_initial f n : ffaults f = [] -> content_inv (fdata f) (initial f n).
Proof.
  intros Hf. exists []. split_and!; [done|by rewrite app_nil_r|constructor|].
  intros i. split; [by intros ?%initial_start|set_solver].
Qed.

Lemma reachable_ind (P : gstate -> Prop) s s' :
  (∀ s s', P s -> step buf s s' -> P s') -> P s -> rtc (step buf) s s' -> P s'.
Proof. intros Hstep Hs Hr. induction Hr; eauto. Qed.

Lemma queue_inv_reachable f n s : rtc (step buf) (initial f n) s -> queue_inv s.
Proof. apply reachable_ind; [apply queue_inv_step|apply queue_inv_initial]. Qed.

(** The committer drains the channel and commits. *)
Lemma drain_commit s reqs :
  committer s = Draining reqs ->
  ∃ s' err, rtc (step buf) s s' ∧ clients s' = ack_all (reqs ++ chan s) err (clients s).
Proof.
  remember (chan s) as q eqn:Hq. revert s reqs Hq.
  induction q as [|j q IH]; intros s reqs Hq Hc.
  - destruct (commit_batch (gfile s) (map buf reqs)) as [f err] eqn:Hb.
    eexists _, err. split.
    + eapply rtc_l; [by apply step_drained|]. by eapply rtc_once, step_commit.
    + cbn. by rewrite app_nil_r.
  - edestruct (IH (mkG (gfile s) (gclosed s) q (chan_closed s) (Draining (reqs ++ [j])) (clients s)))
      as (s' & err & Hs' & Hcl); [done..|].
    exists s', err. split; [eapply rtc_l; [by apply step_drain|exact Hs']|].
    rewrite Hcl. cbn. by rewrite <- app_assoc.
Qed.

(** A committer that is writing answers its batch, goes on to the channel, and answers that. *)
Lemma answer_committing s reqs i :
  committer s = Committing reqs -> i ∈ reqs ++ chan s ->
  ∃ s' err, rtc (step buf) s s' ∧ clients s' !! i = Some (Returned err).
Proof.
  intros Hc Hi. destruct (commit_batch (gfile s) (map buf reqs)) as [f err] eqn:Hb.
  pose proof (step_commit buf s reqs f err Hc Hb) as Hstep.
  destruct (decide (i ∈ chan s)) as [Hin|Hout].
  - destruct (chan s) as [|j q] eqn:Hq; [set_solver|].
    edestruct (drain_commit (mkG f (gclosed s) q (chan_closed s) (Draining [j])
      (ack_all reqs err (clients s)))) as (s' & err' & Hs' & Hcl); [done|].
    exists s', err'. split.
    + eapply rtc_l; [exact Hstep|]. eapply rtc_l; [by eapply step_receive|exact Hs'].
    + rewrite Hcl, ack_all_lookup, decide_True by done. done.
  - eexists _, err. split; [by apply rtc_once|]. cbn.
    rewrite ack_all_lookup, decide_True by set_solver. done.
Qed.
End group_lemmas.

(** C11. A client told that its buffer was committed finds the whole buffer in the part of the file that
    survives a crash, under every interleaving and every fault of the file. *)
Theorem group_commit_durable buf f n s i :
  0 <= fdurable f <= len (fdata f) -> rtc (step buf) (initial f n) s ->
  clients s !! i = Some (Returned None) ->
  ∃ a b, take (Z.to_nat (fdurable (gfile s))) (fdata (gfile s)) = a ++ buf i ++ b.
Proof.
  intros Hf Hr. enough (durable_inv buf s) as [_ Hd] by apply Hd.
  eapply reachable_ind; [apply durable_inv_step|by apply durable_inv_initial|exact Hr].
Qed.

Definition example_buf (i : nat) : bytes := [byte_of_Z (Z.of_nat i); Byte.xff].

Definition example_commit : gstate :=
  mkG (mkFile (example_buf 0) 2 []) false [] false Receiving {[0%nat := Returned None]}.

Lemma group_commit_durable_witness :
  rtc (step example_buf) (initial NewFile 1) example_commit ∧
  ∃ a b, take 2 (example_buf 0) = a ++ example_buf 0 ++ b.
Proof.
  assert (rtc (step example_buf) (initial NewFile 1) example_commit) as Hr.
  { eapply rtc_l; [apply (step_submit_open _ _ 0); reflexivity|].
    eapply rtc_l; [apply (step_send _ _ 0); [reflexivity|reflexivity|vm_compute; lia]|].
    eapply rtc_l; [apply (step_receive _ _ 0 []); reflexivity|].
    eapply rtc_l; [apply (step_drained _ _ [0%nat]); reflexivity|].
    eapply rtc_l; [eapply (step_commit _ _ [0%nat]); reflexivity|].
    apply rtc_refl. }
  split; [exact Hr|].
  apply (group_commit_durable example_buf NewFile 1 example_commit 0);
    [vm_compute; intuition congruence|exact Hr|reflexivity].
Defined.

(** C14. Without faults the log is exactly the old content followed by the whole buffers of the successful
    clients, each once; a client that succeeded is never dropped, one that is still waiting is not
    yet in it. *)
Theorem group_commit_exactly_once buf f n s :
  ffaults f = [] -> rtc (step buf) (initial f n) s ->
  ∃ acked, fdata (gfile s) = fdata f ++ concat (map buf acked) ∧ NoDup acked ∧
    ∀ i, clients s !! i = Some (Returned None) <-> i ∈ acked.
Proof.
  intros Hf Hr.
  assert (queue_inv s ∧ content_inv buf (fdata f) s) as [_ (acked & _ & ? & ? & ?)].
  { eapply (reachable_ind buf (fun s => queue_inv s ∧ content_inv buf (fdata f) s)); [| |exact Hr].
    - intros ?? [Hq Hc] Hs. eauto using queue_inv_step, content_inv_step.
    - split; [apply queue_inv_initial|by apply content_inv_initial]. }
  eauto.
Qed.

Lemma group_commit_exactly_once_witness :
  ∃ acked, example_buf 0 = [] ++ concat (map example_buf acked) ∧ NoDup acked ∧
    ∀ i, clients example_commit !! i = Some (Returned None) <-> i ∈ acked.
Proof.
  apply (group_commit_exactly_once example_buf NewFile 1 example_commit); [reflexivity|].
  exact (proj1 group_commit_durable_witness).
Defined.

(** C28. No request is lost: from every reachable state the committer alone can answer a waiting client. *)
Theorem group_commit_answers buf f n s i :
  rtc (step buf) (initial f n) s -> clients s !! i = Some Waiting ->
  ∃ s' err, rtc (step buf) s s' ∧ clients s' !! i = Some (Returned err).
Proof.
  intros [Hd Hw He]%queue_inv_reachable Hi%Hw. destruct (committer s) as [|reqs|reqs|] eqn:Hc.
  - cbn in Hi. destruct (chan s) as [|j q] eqn:Hq; [set_solver|].
    edestruct (drain_commit buf (mkG (gfile s) (gclosed s) q (chan_closed s) (Draining [j]) (clients s)))
      as (s' & err & Hs' & Hcl); [done|].
    exists s', err. split; [eapply rtc_l; [by apply step_receive|exact Hs']|].
    rewrite Hcl, ack_all_lookup, decide_True by done. done.
  - destruct (drain_commit buf s reqs Hc) as (s' & err & Hs' & Hcl).
    exists s', err. split; [done|]. rewrite Hcl, ack_all_lookup, decide_True by done. done.
  - destruct (answer_committing buf s reqs i Hc Hi) as (s' & err & ? & ?); eauto.
  - destruct (He eq_refl) as [Hq _]. rewrite Hq in Hi. set_solver.
Qed.

Definition example_waiting : gstate :=
  mkG NewFile false [0%nat] false Receiving {[0%nat := Waiting]}.

Lemma group_commit_answers_witness :
  ∃ s' err, rtc (step example_buf) example_waiting s' ∧ clients s' !! 0%nat = Some (Returned err).
Proof.
  apply (group_commit_answers example_buf NewFile 1 example_waiting 0); [|reflexivity].
  eapply rtc_l; [apply (step_submit_open _ _ 0); reflexivity|].
  eapply rtc_l; [apply (step_send _ _ 0); [reflexivity|reflexivity|vm_compute; lia]|].
  apply rtc_refl.
Defined.

(** C15. Close may come between a client's check of [closed] and its send: the send on the closed channel
    panics. *)
Theorem submit_close_race buf :
  ∃ s, rtc (step buf) (initial NewFile 1) s ∧ clients s !! 0%nat = Some ClientPanic.
Proof.
  eexists. split.
  - eapply rtc_l; [apply (step_submit_open _ _ 0); reflexivity|].
    eapply rtc_l; [apply step_close; reflexivity|].
    eapply rtc_l; [apply (step_send_closed _ _ 0); reflexivity|]. apply rtc_refl.
  - reflexivity.
Qed.

(** *** The interval mode *)

(** What has been synced stays in the part that survives a crash. *)
Definition survives (d : bytes) (w : WAL) : Prop := d `prefix_of` take (Z.to_nat (fdurable (file w))) (fdata (file w)).

Lemma survives_Sync d w : survives d w -> survives d (Sync w).1.
Proof.
  intros Hd. unfold survives, Sync, file_Sync in *. pose proof (prefix_take (fdata (file w)) (Z.to_nat (fdurable (file w)))) as Hp.
  destruct (ffaults (file w)) as [|[k|] fl]; cbn in *; try done; (unfold len; rewrite Nat2Z.id, firstn_all; by etrans).
Qed.

Lemma survives_Write d f p : d `prefix_of` take (Z.to_nat (fdurable f)) (fdata f) ->
  let f' := (file_Write f p).1.1 in d `prefix_of` take (Z.to_nat (fdurable f')) (fdata f').
Proof.
  intros Hd. destruct (file_Write f p) as [[f' n] err] eqn:E. cbn. unfold file_Write in E.
  assert (∃ q, fdata f' = fdata f ++ q ∧ fdurable f' = fdurable f) as (q & -> & ->).
  { destruct (ffaults f) as [|[k|] fl]; injection E as <- <- <-; by eexists. }
  etrans; [exact Hd|]. rewrite firstn_app. by apply prefix_app_r.
Qed.

Lemma survives_step d w o : survives d w -> survives d (interval_step w o).
Proof.
  intros Hd. destruct o as [buf| | |]; cbn [interval_step].
  - unfold submit. destruct (closed w); [done|]. pose proof (survives_Write d (file w) buf Hd) as Hw.
    destruct (file_Write (file w) buf) as [[f n] err]. exact Hw.
  - destruct (closed w); [done|]. by apply survives_Sync.
  - unfold interval_tick. destruct (closed w); [done|]. by apply survives_Sync.
  - cbn [Close]. destruct (closed w); [done|]. pose proof (survives_Sync d w Hd) as Hs. unfold Sync in Hs.
    destruct (file_Sync (file w)) as [f err]. exact Hs.
Qed.

(** C40. In the interval mode a crash loses at most what was submitted after the last tick whose sync
    succeeded: everything in the file at that tick is in the part that survives a crash from then on,
    whatever calls, ticks and faults follow, and whether or not the log has been closed meanwhile. *)
Theorem interval_bounds_loss w ops :
  closed w = false -> (∀ k, hd_error (ffaults (file w)) ≠ Some (Some k)) ->
  survives (fdata (file w)) (foldl interval_step (interval_tick w) ops).
Proof.
  intros Hc Hf. assert (survives (fdata (file w)) (interval_tick w)) as Hs.
  { unfold interval_tick, survives, Sync, file_Sync. rewrite Hc. destruct (ffaults (file w)) as [|[k|] fl]; [|by destruct (Hf k)|];
      cbn; unfold len; by rewrite Nat2Z.id, firstn_all. }
  revert Hs. generalize (interval_tick w). induction ops as [|o ops IH]; intros w1 Hs; [done|]. apply IH. by apply survives_step.
Qed.

(** A write that fails half way and a failed sync follow the tick. *)
Lemma interval_bounds_loss_witness :
  let w := mkWAL (mkFile (example_buf 1) 0 [None; Some 1; Some 0]) SyncNone false in
  let w' := foldl interval_step (interval_tick w) [SubmitOp (example_buf 2); TickOp; CloseOp; TickOp] in
  survives (example_buf 1) w' ∧ closed w' = true ∧ fdata (file w') = example_buf 1 ++ take 1 (example_buf 2).
Proof.
  split; [|split; vm_compute; reflexivity].
  apply (interval_bounds_loss (mkWAL (mkFile (example_buf 1) 0 [None; Some 1; Some 0]) SyncNone false)
    [SubmitOp (example_buf 2); TickOp; CloseOp; TickOp]); [reflexivity|]. intros k H. discriminate H.
Defined.
