(* ===== verification/Batch.v ===== *)
(** * Package batch: write batches

    [batch.go].  A batch is a slice of records without sequence numbers. *)

From S2P Require Import Prelude.
From S2P Require Import GoStd.
From S2P Require Import Records.
From S2P Require Import Config.
From S2P Require Import Wal.

Record Batch := mkBatch { recs : list Rec }.

Definition New : Batch := mkBatch [].

Definition Put (b : Batch) (key : bytes) (value : option bytes) : Batch :=
  mkBatch (recs b ++ [mkRec (mkIK key 0 TypePut) value]).

Definition Delete (b : Batch) (key : bytes) : Batch :=
  mkBatch (recs b ++ [mkRec (mkIK key 0 TypeDel) None]).

Definition Len (b : Batch) : Z := len (recs b).

Definition Reset (b : Batch) : Batch := mkBatch [].

Definition Records (b : Batch) : list Rec := recs b.

Definition Size (b : Batch) : Z :=
  foldl (fun total rec => total + (4 + Records.Size rec + 4)) 0 (recs b).

(** The operations of a batch. *)
Inductive batch_op := OpPut (key : bytes) (value : option bytes) | OpDelete (key : bytes).

Definition run_op (b : Batch) (op : batch_op) : Batch :=
  match op with OpPut k v => Put b k v | OpDelete k => Delete b k end.

Definition op_small (op : batch_op) : Prop :=
  match op with
  | OpPut k v => len k + len (sbytes v) + 17 < 2 ^ 32
  | OpDelete k => len k + 17 < 2 ^ 32
  end.

Lemma small_renumber (l : list Rec) seq : Forall small_rec l -> Forall small_rec (renumber l seq).
Proof.
  intros H. revert seq. induction H as [|r l Hr _ IH]; intros seq; cbn [renumber]; [constructor|].
  constructor; [|apply IH]. destruct Hr as [[(H1 & H2 & H3) H4] H5].
  split; [|done]. split; [|done]. unfold wf_key. cbn [RKey UserKey SeqNum KType].
  pose proof (u64_range seq). done.
Qed.

Lemma run_ops_small ops b :
  Forall small_rec (recs b) -> Forall op_small ops ->
  Forall small_rec (recs (foldl run_op b ops)).
Proof.
  intros Hb Hops. revert b Hb. induction Hops as [|op ops Hop _ IH]; intros b Hb; [done|].
  apply IH. destruct op as [k v|k]; cbn [run_op Put Delete recs op_small] in *;
    apply Forall_app; (split; [done|]); constructor; try done;
    unfold small_rec, wf_rec, wf_key, TypePut, TypeDel; cbn [RKey UserKey SeqNum KType Value];
    pose proof (len_nonneg k); [pose proof (len_nonneg (sbytes v))|change (len (sbytes None)) with 0];
    lia.
Qed.

Lemma len_wal_bytes_renumber l seq : len (wal_bytes (renumber l seq)) = len (wal_bytes l).
Proof.
  revert seq. induction l as [|r l IH]; intros seq; [done|]. cbn [renumber].
  rewrite !wal_bytes_cons. rewrite !len_app, !len_frame, !len_record_bytes, IH. cbn [RKey UserKey Value]. lia.
Qed.

(** C39. [Size] of a batch built by any operations is the number of bytes that AppendBatch writes for it
    to the log, whatever sequence numbers it is given. *)
Theorem Size_AppendBatch ops w startSeq :
  Forall op_small ops ->
  let b := foldl run_op New ops in
  closed w = false -> ffaults (file w) = [] ->
  Len b = len ops ∧
  ∃ w' l, AppendBatch w (Records b) startSeq = Ok (w', None, l) ∧
    len (fdata (file w')) = len (fdata (file w)) + Size b.
Proof.
  intros Hops b Hc Hf.
  assert (Forall small_rec (recs b)) as Hs by (apply run_ops_small; [constructor|done]).
  split.
  - subst b. unfold Len, len. f_equal.
    assert (∀ b, length (recs (foldl run_op b ops)) = (length (recs b) + length ops)%nat) as H.
    { clear. induction ops as [|op ops IH]; intros b; cbn [foldl length]; [lia|].
      rewrite IH. destruct op; cbn; rewrite length_app; cbn; lia. }
    by rewrite H.
  - unfold AppendBatch. rewrite encodeRecords_spec by (by apply small_renumber).
    cbn [mbind res_bind]. unfold submit. rewrite Hc. unfold file_Write. rewrite Hf. cbn [tail].
    eexists _, _. split; [done|]. cbn [fdata file].
    unfold Size. rewrite foldl_total by done. change (Records b) with (recs b). rewrite len_app, len_wal_bytes_renumber. lia.
Qed.

Definition example_ops : list batch_op :=
  [OpPut [Byte.x61] (Some [Byte.x31; Byte.x32]); OpDelete [Byte.x62]].

Lemma Size_AppendBatch_witness :
  ∃ w' l, AppendBatch (Open NewFile SyncNone) (Records (foldl run_op New example_ops)) 7 =
      Ok (w', None, l) ∧
    len (fdata (file w')) = len (fdata NewFile) + Size (foldl run_op New example_ops) ∧
    Size (foldl run_op New example_ops) = 54.
Proof.
  destruct (Size_AppendBatch example_ops (Open NewFile SyncNone) 7) as (_ & w' & l & E & Hl).
  - repeat constructor; cbn; lia.
  - done.
  - done.
  - exists w', l. split_and!; [exact E|exact Hl|vm_compute; reflexivity].
Defined.
