(* ===== verification/GoHeap.v ===== *)
(** * container/heap

    The sift operations of Go's container/heap on a list, with the heap order given by a key
    function and a comparator: [Less(i, j)] is [cmp (f l[i]) (f l[j]) < 0].  The theorems are the
    contract the iterator heap relies on: the heap order is kept, the elements are permuted, and the
    root is a least element. *)

From S2P Require Import Prelude.

Definition swap {A} `{Inhabited A} (l : list A) (i j : nat) : list A :=
  <[i := l !!! j]> (<[j := l !!! i]> l).

Section heap.
Context {A K} `{Inhabited A} `{Comparator K} (f : A -> K).

Definition Less (l : list A) (i j : nat) : bool := cmp (f (l !!! i)) (f (l !!! j)) <? 0.

Fixpoint up (fuel : nat) (l : list A) (j : nat) : list A :=
  match fuel with
  | O => l
  | S fuel =>
      let i := ((j - 1) / 2)%nat in
      if (i =? j)%nat || negb (Less l j i) then l else up fuel (swap l i j) i
  end.

Fixpoint down (fuel : nat) (l : list A) (i n : nat) : list A :=
  match fuel with
  | O => l
  | S fuel =>
      let j1 := (2 * i + 1)%nat in
      if (n <=? j1)%nat then l
      else
        let j2 := (j1 + 1)%nat in
        let j := if (j2 <? n)%nat && Less l j2 j1 then j2 else j1 in
        if negb (Less l j i) then l else down fuel (swap l i j) j n
  end.

(** [for i := n/2 - 1; i >= 0; i-- { down(h, i, n) }], with [k] rounds left. *)
Fixpoint Init_loop (k : nat) (l : list A) : list A :=
  match k with
  | O => l
  | S i => Init_loop i (down (length l) l i (length l))
  end.

Definition Init (l : list A) : list A := Init_loop (length l / 2) l.

Definition Push (l : list A) (x : A) : list A := up (S (length l)) (l ++ [x]) (length l).

(** The removed element and the remaining heap; [None] on an empty heap (Go panics). *)
Definition Pop (l : list A) : option (A * list A) :=
  let n := (length l - 1)%nat in
  let l := down (length l) (swap l 0 n) 0 n in
  x ← last l; Some (x, removelast l).

(** *** The heap order *)

Abbreviation g l i := (f (l !!! i)).

Definition child (p c : nat) : Prop := (c = 2 * p + 1 ∨ c = 2 * p + 2)%nat.

(** The order holds between parents from [k] on and their children below [n]. *)
Definition heap_from (k : nat) (l : list A) (n : nat) : Prop :=
  ∀ p c, (k <= p)%nat -> child p c -> (c < n)%nat -> cmp (g l p) (g l c) <= 0.

Definition is_heap (l : list A) : Prop := heap_from 0 l (length l).
End heap.

Section heap_lemmas.
Context {A K} `{Inhabited A} `{ComparatorLaws K} (f : A -> K).
Implicit Types l : list A.

Abbreviation g l i := (f (l !!! i)).

Lemma insert_cons_Permutation l i (x y : A) :
  l !! i = Some x -> x :: <[i := y]> l ≡ₚ y :: l.
Proof.
  revert i. induction l as [|z l IH]; intros [|i]; cbn; try done.
  - intros [= ->]. apply Permutation_swap.
  - intros Hi. rewrite (Permutation_swap z x), (IH i Hi). apply Permutation_swap.
Qed.

Lemma length_swap l i j : length (swap l i j) = length l.
Proof. unfold swap. by rewrite !length_insert. Qed.

Lemma swap_lookup l i j k :
  (i < length l)%nat -> (j < length l)%nat ->
  swap l i j !!! k = if decide (k = i) then l !!! j else if decide (k = j) then l !!! i else l !!! k.
Proof.
  intros Hi Hj. unfold swap. destruct (decide (k = i)) as [->|Hki].
  - by rewrite list_lookup_total_insert_eq by (by rewrite length_insert).
  - rewrite list_lookup_total_insert_ne by done. destruct (decide (k = j)) as [->|Hkj].
    + by rewrite list_lookup_total_insert_eq.
    + by rewrite list_lookup_total_insert_ne.
Qed.

Lemma swap_Permutation l i j : (i < length l)%nat -> (j < length l)%nat -> swap l i j ≡ₚ l.
Proof.
  intros Hi Hj. unfold swap. set (x := l !!! i). set (y := l !!! j).
  assert (l !! i = Some x) as Ei by (by apply list_lookup_lookup_total_lt).
  assert (l !! j = Some y) as Ej by (by apply list_lookup_lookup_total_lt).
  assert (<[j:=x]> l !! i = Some x) as Ei'.
  { destruct (decide (i = j)) as [->|]; [by rewrite list_lookup_insert_eq|].
    by rewrite list_lookup_insert_ne. }
  pose proof (insert_cons_Permutation _ _ _ y Ei') as P1.
  pose proof (insert_cons_Permutation _ _ _ x Ej) as P2.
  apply (Permutation_cons_inv (a := x)). by rewrite P1, P2.
Qed.

(** The order except below [i], where the grandparents still dominate. *)
Definition down_inv (k : nat) l (i n : nat) : Prop :=
  (∀ p c, (k <= p)%nat -> p ≠ i -> child p c -> (c < n)%nat -> cmp (g l p) (g l c) <= 0) ∧
  (∀ q c, (k <= q)%nat -> child q i -> child i c -> (c < n)%nat -> cmp (g l q) (g l c) <= 0).

Ltac cmp_trans :=
  match goal with
  | H1 : cmp ?a ?b <= 0, H2 : cmp ?b ?c <= 0 |- cmp ?a ?c <= 0 => exact (cmp_le_trans a b c H1 H2)
  end.

Lemma Less_false l i j : Less f l i j = false -> cmp (g l j) (g l i) <= 0.
Proof. unfold Less. intros Hl%Z.ltb_ge. rewrite (cmp_opp (g l i)). lia. Qed.

Lemma Less_true l i j : Less f l i j = true -> cmp (g l i) (g l j) <= 0.
Proof. unfold Less. intros Hl%Z.ltb_lt. lia. Qed.

Lemma down_spec fuel k l i n :
  (n <= length l)%nat -> (n - i <= fuel)%nat -> (i < length l)%nat -> (k <= i)%nat -> down_inv k l i n ->
  down f fuel l i n ≡ₚ l ∧ heap_from f k (down f fuel l i n) n ∧
  ∀ x, (n <= x)%nat -> down f fuel l i n !!! x = l !!! x.
Proof.
  revert l i. induction fuel as [|fuel IH]; intros l i Hn Hf Hi Hk [Hd Hg]; cbn [down].
  { split_and!; [done| |done]. intros p c Hp Hc Hcn. apply Hd; [done| |done..].
    unfold child in Hc. lia. }
  destruct (Nat.leb_spec n (2 * i + 1)) as [Hle|Hlt].
  { split_and!; [done| |done]. intros p c Hp Hc Hcn. apply Hd; [done| |done..].
    unfold child in Hc. lia. }
  set (j := if _ && _ then _ else _).
  assert (child i j ∧ (j < n)%nat ∧ (i < j)%nat ∧
    ∀ c, child i c -> (c < n)%nat -> cmp (g l j) (g l c) <= 0) as (Hij & Hjn & Hlt' & Hmin).
  { subst j. unfold child. destruct (Nat.ltb_spec (2 * i + 1 + 1) n) as [H2|H2]; cbn [andb].
    - destruct (Less f l (2 * i + 1 + 1) (2 * i + 1)) eqn:EL.
      + apply Less_true in EL. split_and!; try lia. intros c [->| ->] Hc.
        * done.
        * replace (2 * i + 2)%nat with (2 * i + 1 + 1)%nat by lia. rewrite cmp_refl. lia.
      + apply Less_false in EL. split_and!; try lia. intros c [->| ->] Hc.
        * rewrite cmp_refl. lia.
        * by replace (2 * i + 2)%nat with (2 * i + 1 + 1)%nat by lia.
    - split_and!; try lia. intros c [->| ->] Hc; [rewrite cmp_refl|]; lia. }
  clearbody j. destruct (Less f l j i) eqn:EL; cbn [negb].
  - assert (cmp (g l j) (g l i) <= 0) as Hji by (by apply Less_true).
    destruct (IH (swap l i j) j) as (HP & Hh & Hx); try (rewrite ?length_swap; lia).
    + split.
      * intros p c Hp Hpj Hc Hcn. rewrite !swap_lookup by lia.
        destruct (decide (p = i)) as [->|Hpi].
        { rewrite (decide_False (P := c = i)) by (unfold child in Hc; lia).
          destruct (decide (c = j)) as [->|]; [done|]. by apply Hmin. }
        rewrite (decide_False (P := p = j)) by done.
        destruct (decide (c = i)) as [->|]; [by apply (Hg p j)|].
        rewrite decide_False; [by apply Hd|]. intros ->. unfold child in *. lia.
      * intros q c Hq Hqj Hjc Hcn. assert (q = i) as -> by (unfold child in *; lia).
        rewrite !swap_lookup by lia. rewrite decide_True by done.
        rewrite !decide_False by (unfold child in *; lia). apply Hd; try done; lia.
    + split_and!; [|done|].
      * rewrite HP. apply swap_Permutation; lia.
      * intros x Hxn. rewrite Hx, swap_lookup by lia. by rewrite !decide_False by lia.
  - apply Less_false in EL. split_and!; [done| |done]. intros p c Hp Hc Hcn.
    destruct (decide (p = i)) as [->|]; [|by apply Hd].
    specialize (Hmin c Hc Hcn). cmp_trans.
Qed.

Lemma down_length fuel l i n : length (down f fuel l i n) = length l.
Proof.
  revert l i. induction fuel as [|fuel IH]; intros l i; cbn [down]; [done|].
  destruct (_ <=? _)%nat; [done|]. destruct (negb _); [done|]. by rewrite IH, length_swap.
Qed.

Lemma Init_loop_spec k l :
  (k <= length l)%nat -> heap_from f k l (length l) ->
  Init_loop f k l ≡ₚ l ∧ is_heap f (Init_loop f k l).
Proof.
  revert l. induction k as [|k IH]; intros l Hk Hh; [done|]. cbn [Init_loop].
  destruct (down_spec (length l) k l k (length l)) as (HP & Hd & _); try lia.
  { split.
    - intros p c Hp Hpk. apply Hh. lia.
    - intros q c Hq Hqk. unfold child in Hqk. lia. }
  destruct (IH (down f (length l) l k (length l))) as [HP' Hh'].
  - rewrite down_length. lia.
  - by rewrite down_length.
  - split; [by rewrite HP'|done].
Qed.

Lemma Init_spec l : Init f l ≡ₚ l ∧ is_heap f (Init f l).
Proof.
  pose proof (Nat.div_mod_eq (length l) 2).
  pose proof (Nat.mod_upper_bound (length l) 2 ltac:(lia)).
  apply Init_loop_spec; [lia|]. intros p c Hp Hc Hcn. unfold child in Hc. lia.
Qed.

(** The order except above [j], whose children its parent still dominates. *)
Definition up_inv l (j : nat) : Prop :=
  (∀ p c, c ≠ j -> child p c -> (c < length l)%nat -> cmp (g l p) (g l c) <= 0) ∧
  (∀ q c, child q j -> child j c -> (c < length l)%nat -> cmp (g l q) (g l c) <= 0).

Lemma up_spec fuel l j :
  (j < length l)%nat -> (j < fuel)%nat -> up_inv l j ->
  up f fuel l j ≡ₚ l ∧ is_heap f (up f fuel l j).
Proof.
  revert l j. induction fuel as [|fuel IH]; intros l j Hj Hf [Hd Hg]; [lia|]. cbn [up].
  set (i := ((j - 1) / 2)%nat).
  assert (j = 0 ∧ i = 0 ∨ child i j ∧ i < j)%nat as Hi.
  { pose proof (Nat.div_mod_eq (j - 1) 2). pose proof (Nat.mod_upper_bound (j - 1) 2 ltac:(lia)).
    unfold child. subst i. destruct j; [left; done|right; lia]. }
  clearbody i. destruct (Nat.eqb_spec i j) as [->|Hne]; cbn [orb].
  { split; [done|]. intros p c _ Hc Hcn. apply Hd; [|done..].
    destruct Hi as [[-> _]|[_ ?]]; [unfold child in Hc|]; lia. }
  destruct Hi as [[-> ->]|[Hij Hlt]]; [done|].
  assert (∀ p, child p j -> p = i) as Hparent by (unfold child in *; lia).
  destruct (Less f l j i) eqn:EL; cbn [negb].
  - apply Less_true in EL.
    destruct (IH (swap l i j) i) as [HP Hh]; [rewrite length_swap; lia|lia| |].
    + split; rewrite length_swap.
      * intros p c Hci Hc Hcn. rewrite !swap_lookup by lia.
        rewrite (decide_False (P := c = i)) by done.
        destruct (decide (c = j)) as [->|Hcj].
        { apply Hparent in Hc as ->. by rewrite decide_True. }
        pose proof (Hd p c Hcj Hc Hcn) as Hpc.
        destruct (decide (p = i)) as [->|Hpi]; [cmp_trans|].
        destruct (decide (p = j)) as [->|Hpj]; [by apply Hg|done].
      * intros q c Hq Hc Hcn. rewrite !swap_lookup by lia.
        assert (q < i)%nat by (unfold child in *; lia).
        rewrite (decide_False (P := q = i)), (decide_False (P := q = j)) by lia.
        rewrite (decide_False (P := c = i)) by (unfold child in *; lia).
        assert (cmp (g l q) (g l i) <= 0) as Hqi by (apply Hd; [lia|done|lia]).
        destruct (decide (c = j)) as [->|Hcj]; [done|].
        pose proof (Hd i c Hcj Hc Hcn). cmp_trans.
    + split; [|done]. rewrite HP. apply swap_Permutation; lia.
  - apply Less_false in EL. split; [done|]. intros p c _ Hc Hcn.
    destruct (decide (c = j)) as [->|]; [|by apply Hd]. by rewrite (Hparent p Hc).
Qed.

Lemma Push_spec l x : is_heap f l -> Push f l x ≡ₚ x :: l ∧ is_heap f (Push f l x).
Proof.
  intros Hh. unfold Push. destruct (up_spec (S (length l)) (l ++ [x]) (length l)) as [HP Hh'].
  - rewrite length_app. cbn. lia.
  - lia.
  - split; rewrite length_app; cbn [length]; intros p c Hp Hc Hcn.
    + assert (p < c)%nat by (unfold child in Hc; lia).
      rewrite !lookup_total_app_l by lia. apply Hh; [lia|done|lia].
    + unfold child in *. lia.
  - split; [|done]. rewrite HP. by rewrite Permutation_app_comm.
Qed.

(** The root is least. *)
Lemma heap_root l i : is_heap f l -> (i < length l)%nat -> cmp (g l 0%nat) (g l i) <= 0.
Proof.
  intros Hh. induction i as [i IH] using (well_founded_induction lt_wf). intros Hi.
  destruct (decide (i = 0)%nat) as [->|Hne]; [rewrite cmp_refl; lia|].
  set (p := ((i - 1) / 2)%nat).
  assert (child p i ∧ p < i)%nat as [Hc Hp].
  { pose proof (Nat.div_mod_eq (i - 1) 2). pose proof (Nat.mod_upper_bound (i - 1) 2 ltac:(lia)).
    unfold child. subst p. lia. }
  assert (cmp (g l 0%nat) (g l p) <= 0) by (apply IH; lia).
  assert (cmp (g l p) (g l i) <= 0) by (apply Hh; [lia|done|done]). cmp_trans.
Qed.

Lemma Pop_spec x l :
  is_heap f (x :: l) ->
  ∃ l', Pop f (x :: l) = Some (x, l') ∧ l' ≡ₚ l ∧ is_heap f l' ∧
    Forall (fun y => cmp (f x) (f y) <= 0) l.
Proof.
  intros Hh. set (h := x :: l). set (n := (length h - 1)%nat).
  fold h in Hh. assert (length h = S n) as Hlen by (subst n h; cbn; lia).
  assert (Forall (fun y => cmp (f x) (f y) <= 0) l) as Hmin.
  { rewrite Forall_forall. intros y [i Hi]%list_elem_of_lookup.
    pose proof (heap_root h (S i) Hh) as Hr. pose proof (lookup_lt_Some _ _ _ Hi).
    rewrite (list_lookup_total_correct h (S i) y Hi) in Hr. apply Hr.
    unfold h. cbn [length]. lia. }
  destruct (down_spec (length h) 0 (swap h 0 n) 0 n) as (HP & Hd & Hx); rewrite ?length_swap; try lia.
  { split.
    - intros p c _ Hp Hc Hcn. assert (p < c)%nat by (unfold child in Hc; lia).
      rewrite !swap_lookup by lia. rewrite !decide_False by lia. apply Hh; [lia|done|lia].
    - intros q c _ Hq. unfold child in Hq. lia. }
  set (d := down f (length h) (swap h 0 n) 0 n) in *.
  assert (length d = S n) as Hdl by (subst d; rewrite down_length, length_swap; lia).
  assert (d !!! n = x) as Hdn.
  { rewrite Hx by lia. rewrite swap_lookup by lia. destruct (decide (n = 0)%nat) as [->|]; [done|].
    by rewrite decide_True. }
  destruct (exists_last (l := d)) as (l' & y & E); [by intros E; rewrite E in Hdl|].
  assert (length l' = n) as Hl' by (rewrite E, length_app in Hdl; cbn [length] in Hdl; lia).
  assert (y = x) as ->.
  { rewrite <- Hdn, E, lookup_total_app_r, Hl', Nat.sub_diag by lia. done. }
  exists l'. split_and!; [| | |done].
  - unfold Pop. fold n. fold h. fold d. by rewrite E, last_snoc, removelast_last.
  - apply (Permutation_cons_inv (a := x)). change (x :: l) with h.
    rewrite <- (swap_Permutation h 0 n), <- HP, E by lia. by rewrite Permutation_app_comm.
  - unfold is_heap. rewrite Hl'. intros p c Hp Hc Hcn.
    assert (p < c)%nat by (unfold child in Hc; lia).
    specialize (Hd p c Hp Hc Hcn). rewrite E in Hd. by rewrite !lookup_total_app_l in Hd by lia.
Qed.
End heap_lemmas.
