(* ===== verification/Iterators.v ===== *)
(** * Package internal: the iterator interface and the heap that merges iterators

    [iterator.go], [iterator_heap.go] and package compaction's [merger.go].  The Go interface is the
    class [IteratorOps]; what its clients rely on is the class [IteratorLaws], which the memtable
    iterator and the table iterator implement.  Iterators are pointers shared between a scan and its
    heap, so they live in a store, and heap items name them by index.  [W] is the state that
    advancing an iterator may change besides the iterator (the block cache). *)

From S2P Require Import Prelude.
From S2P Require Import GoStd.
From S2P Require Import GoHeap.
From S2P Require Import Records.
From S2P Require Import Skiplist.
From S2P Require Import Versions.
From S2P Require Import Memtable.

(** ** The interface *)

Class IteratorOps (W I : Type) := {
  iter_Valid : I -> bool;
  iter_InternalKey : I -> InternalKey;
  iter_Value : I -> option bytes;
  iter_Next : I -> W -> option (I * W);
  iter_Seek : InternalKey -> I -> W -> option (I * W)
}.

(** The outside state is consistent. *)
Class World (W : Type) := iworld : W -> Prop.

(** [irest it l]: [it] has the records [l] still to deliver; [icontent it l]: it ranges over the
    sorted records [l]. *)
Class IteratorSpec (I : Type) := {
  irest : I -> list Rec -> Prop;
  icontent : I -> list Rec -> Prop
}.

Class IteratorLaws (W I : Type) `{World W, IteratorOps W I, IteratorSpec I} : Prop := {
  rest_valid it l : irest it l -> iter_Valid it = negb (bool_decide (l = []));
  rest_current it r l : irest it (r :: l) ->
    iter_InternalKey it = RKey r ∧ iter_Value it = Value r;
  rest_next w it r l : iworld w -> irest it (r :: l) ->
    ∃ it' w', iter_Next it w = Some (it', w') ∧ iworld w' ∧ irest it' l ∧
      ∀ c, icontent it c -> icontent it' c;
  content_seek w it c t : iworld w -> icontent it c ->
    ∃ it' w', iter_Seek t it w = Some (it', w') ∧ iworld w' ∧ irest it' (seek_sorted t c) ∧
      icontent it' c;
  content_sorted it c : icontent it c -> sorted_recs c;
  rest_sorted it l : irest it l -> sorted_recs l
}.

(** Collect what an iterator delivers. *)
Fixpoint iter_collect {W I} `{IteratorOps W I} (fuel : nat) (it : I) (w : W) : option (list Rec * W) :=
  if iter_Valid it then
    match fuel with
    | O => None
    | S fuel =>
        let r := mkRec (iter_InternalKey it) (iter_Value it) in
        '(it, w) ← iter_Next it w;
        '(l, w) ← iter_collect fuel it w;
        Some (r :: l, w)
    end
  else Some ([], w).

(** The memtable iterator does not touch the outside state. *)
#[export] Instance MemtableIterator_Ops {W} : IteratorOps W MemtableIterator := {
  iter_Valid := Valid;
  iter_InternalKey := it_InternalKey;
  iter_Value := it_Value;
  iter_Next it w := it' ← Next it; Some (it', w);
  iter_Seek t it w := it' ← Seek it t; Some (it', w)
}.

(** Iterators of two kinds behind the interface. *)
#[export] Instance sum_Ops {W I J} `{IteratorOps W I, IteratorOps W J} : IteratorOps W (I + J) := {
  iter_Valid it := match it with inl i => iter_Valid i | inr j => iter_Valid j end;
  iter_InternalKey it := match it with inl i => iter_InternalKey i | inr j => iter_InternalKey j end;
  iter_Value it := match it with inl i => iter_Value i | inr j => iter_Value j end;
  iter_Next it w := match it with
    | inl i => '(i, w) ← iter_Next i w; Some (inl i, w)
    | inr j => '(j, w) ← iter_Next j w; Some (inr j, w)
    end;
  iter_Seek t it w := match it with
    | inl i => '(i, w) ← iter_Seek t i w; Some (inl i, w)
    | inr j => '(j, w) ← iter_Seek t j w; Some (inr j, w)
    end
}.

(** ** The heap of iterators *)

(** [Iter] names an iterator of the store. *)
Record Item := mkItem { Iter : nat; item_Record : Rec }.

Definition zero_Rec : Rec := mkRec (mkIK [] 0 0) None.

#[export] Instance Item_inhabited : Inhabited Item := populate (mkItem 0 zero_Rec).

Section heap.
Context {W I : Type} `{IteratorOps W I}.

Definition item_key (x : Item) : InternalKey := RKey (item_Record x).

Record IteratorHeap := mkIH { items : list Item }.

Definition current (it : I) : Rec := mkRec (iter_InternalKey it) (iter_Value it).

Fixpoint NewIteratorHeap_items (i : nat) (iters : list I) : list Item :=
  match iters with
  | [] => []
  | it :: iters =>
      if iter_Valid it then mkItem i (current it) :: NewIteratorHeap_items (S i) iters
      else NewIteratorHeap_items (S i) iters
  end.

Definition NewIteratorHeap (iters : list I) : IteratorHeap :=
  mkIH (Init item_key (NewIteratorHeap_items 0 iters)).

Definition Empty (h : IteratorHeap) : bool := (length (items h) =? 0)%nat.

Definition Peek (h : IteratorHeap) : option Item := hd_error (items h).

(** The record, the heap, the store and the outside state; [None] is a panic. *)
Definition PopAndAdvance (h : IteratorHeap) (iters : list I) (w : W) :
    option (Rec * IteratorHeap * list I * W) :=
  if Empty h then Some (zero_Rec, h, iters, w)
  else
    '(item, its) ← Pop item_key (items h);
    let rec := item_Record item in
    it ← iters !! Iter item;
    '(it, w) ← iter_Next it w;
    let iters := <[Iter item := it]> iters in
    if iter_Valid it
    then Some (rec, mkIH (Push item_key its (mkItem (Iter item) (current it))), iters, w)
    else Some (rec, mkIH its, iters, w).
End heap.
Arguments NewIteratorHeap {W I _} iters.
Arguments current {W I _} it.
Arguments NewIteratorHeap_items {W I _} i iters.

(** ** MergeIterator: the records of the heap in order *)

Section merge.
Context {W I : Type} `{IteratorOps W I}.

Record MergeIterator := mkMerge { merge_heap : IteratorHeap; merge_iters : list I }.

Definition NewMergeIterator (iters : list I) : MergeIterator :=
  mkMerge (NewIteratorHeap (W := W) iters) iters.

Definition merge_Valid (m : MergeIterator) : bool := negb (Empty (merge_heap m)).

Definition merge_Next (m : MergeIterator) (w : W) : option (MergeIterator * W) :=
  '(_, h, iters, w) ← PopAndAdvance (merge_heap m) (merge_iters m) w;
  Some (mkMerge h iters, w).

Definition merge_Record (m : MergeIterator) : option Rec :=
  item_Record <$> Peek (merge_heap m).

(** Drain the merger. *)
Fixpoint merge_collect (fuel : nat) (m : MergeIterator) (w : W) : option (list Rec * W) :=
  if merge_Valid m then
    match fuel with
    | O => None
    | S fuel =>
        r ← merge_Record m;
        '(m, w) ← merge_Next m w;
        '(l, w) ← merge_collect fuel m w;
        Some (r :: l, w)
    end
  else Some ([], w).
End merge.
Arguments MergeIterator : clear implicits.

(** ** Lemmas *)

#[export] Instance MemtableIterator_Spec : IteratorSpec MemtableIterator := {
  irest it l := remaining it l ∧ sorted_recs l;
  icontent it l := represents (it_list it) l ∧ sorted_recs l
}.

#[export] Instance MemtableIterator_Laws {W} `{World W} : IteratorLaws W MemtableIterator.
Proof.
  split.
  - intros it l [Hm _]. by apply Valid_remaining.
  - intros it r l [Hm _]. by eapply current_remaining.
  - intros w it r l Hw [Hm Hs]. destruct (Next_remaining it r l Hm) as (it' & E & Hm' & El).
    exists it', w. cbn. rewrite E, El. split_and!; try done.
    by apply StronglySorted_cons in Hs as [_ ?].
  - intros w it c t Hw [Hm Hs]. destruct (Seek_remaining it c t Hm) as (it' & E & Hm' & El).
    exists it', w. cbn. rewrite E, El. split_and!; try done.
    destruct (seek_sorted_spec t c Hs) as (pre & Ec & _). rewrite Ec in Hs.
    by apply StronglySorted_app in Hs as (_ & _ & ?).
  - by intros it c [_ Hs].
  - by intros it l [_ Hs].
Qed.

#[export] Instance sum_Spec {I J} `{IteratorSpec I, IteratorSpec J} : IteratorSpec (I + J) := {
  irest it l := match it with inl i => irest i l | inr j => irest j l end;
  icontent it l := match it with inl i => icontent i l | inr j => icontent j l end
}.

#[export] Instance sum_Laws {W I J} `{IteratorLaws W I, !IteratorOps W J, !IteratorSpec J,
    !IteratorLaws W J} : IteratorLaws W (I + J).
Proof.
  split.
  - intros [i|j] l; cbn; apply rest_valid.
  - intros [i|j] r l; cbn; apply rest_current.
  - intros w [i|j] r l Hw Hr; cbn in Hr.
    + destruct (rest_next w i r l Hw Hr) as (i' & w' & E & ? & ? & ?).
      exists (inl i'), w'. cbn. rewrite E. by split_and!.
    + destruct (rest_next w j r l Hw Hr) as (j' & w' & E & ? & ? & ?).
      exists (inr j'), w'. cbn. rewrite E. by split_and!.
  - intros w [i|j] c t Hw Hc; cbn in Hc.
    + destruct (content_seek w i c t Hw Hc) as (i' & w' & E & ? & ? & ?).
      exists (inl i'), w'. cbn. rewrite E. by split_and!.
    + destruct (content_seek w j c t Hw Hc) as (j' & w' & E & ? & ? & ?).
      exists (inr j'), w'. cbn. rewrite E. by split_and!.
  - intros [i|j] c; cbn; apply (content_sorted (W := W)).
  - intros [i|j] l; cbn; apply (rest_sorted (W := W)).
Qed.

Lemma iter_collect_rest {W I} `{IteratorLaws W I} (it : I) l (w : W) fuel :
  irest it l -> iworld w -> (length l <= fuel)%nat ->
  ∃ w', iter_collect fuel it w = Some (l, w') ∧ iworld w'.
Proof.
  revert it w fuel. induction l as [|r l IH]; intros it w fuel Hr Hw Hf.
  - exists w. pose proof (rest_valid it [] Hr) as Hv. destruct fuel; cbn; by rewrite Hv.
  - pose proof (rest_valid it (r :: l) Hr) as Hv. destruct fuel as [|fuel]; [cbn in Hf; lia|].
    cbn [iter_collect]. rewrite Hv. cbn [negb bool_decide].
    destruct (rest_current it r l Hr) as [-> ->].
    destruct (rest_next w it r l Hw Hr) as (it' & w' & -> & Hw' & Hr' & _). cbn [mbind option_bind].
    destruct (IH it' w' fuel Hr' Hw') as (w2 & -> & Hw2); [cbn in Hf; lia|]. cbn [mbind option_bind].
    exists w2. by destruct r.
Qed.

(** The heap items of iterators with the given remaining records. *)
Fixpoint heads (k : nat) (rests : list (list Rec)) : list Item :=
  match rests with
  | [] => []
  | [] :: rests => heads (S k) rests
  | (r :: _) :: rests => mkItem k r :: heads (S k) rests
  end.

Lemma elem_of_heads k rests x :
  x ∈ heads k rests <->
  ∃ j l, rests !! j = Some (item_Record x :: l) ∧ Iter x = (k + j)%nat.
Proof.
  revert k. induction rests as [|[|r l] rests IH]; intros k; cbn [heads].
  - split; [set_solver|]. by intros (j & l & ? & _).
  - rewrite IH. split.
    + intros (j & l & ? & ->). exists (S j), l. split; [done|lia].
    + intros ([|j] & l & Hj & ->); [done|]. exists j, l. split; [done|lia].
  - rewrite elem_of_cons, IH. split.
    + intros [->|(j & l' & ? & ->)]; [exists 0%nat, l; cbn; split; [done|lia]|].
      exists (S j), l'. split; [done|lia].
    + intros ([|j] & l' & Hj & Hi).
      * left. destruct x as [i r']. cbn in *. injection Hj as -> _. f_equal. lia.
      * right. exists j, l'. split; [done|lia].
Qed.

Definition head_item (k : nat) (l : list Rec) : list Item :=
  match l with [] => [] | r :: _ => [mkItem k r] end.

Lemma heads_insert k rests j l :
  (j < length rests)%nat ->
  heads k (<[j := l]> rests) ≡ₚ head_item (k + j) l ++ heads k (<[j := []]> rests).
Proof.
  revert k j. induction rests as [|x rests IH]; intros k [|j] Hj; cbn [length] in Hj; try lia.
  - cbn. rewrite Nat.add_0_r. by destruct l.
  - change (<[S j:=l]> (x :: rests)) with (x :: <[j:=l]> rests).
    change (<[S j:=[]]> (x :: rests)) with (x :: <[j:=[]]> rests).
    assert (k + S j = S k + j)%nat as -> by lia.
    destruct x as [|r x]; cbn [heads]; rewrite IH by lia; [done|].
    by rewrite Permutation_middle.
Qed.

Lemma concat_insert (rests : list (list Rec)) j r l :
  rests !! j = Some (r :: l) -> concat rests ≡ₚ r :: concat (<[j := l]> rests).
Proof.
  revert j. induction rests as [|x rests IH]; intros [|j]; cbn; try done.
  - by intros [= ->].
  - intros Hj. rewrite (IH j Hj). by rewrite Permutation_middle.
Qed.

Section heap_lemmas.
Context {W I : Type} `{IteratorLaws W I}.
Implicit Types (h : IteratorHeap) (iters : list I) (w : W) (rests cs : list (list Rec)).

Definition heap_inv h iters rests : Prop :=
  Forall2 irest iters rests ∧ items h ≡ₚ heads 0 rests ∧ is_heap item_key (items h).

Lemma current_rest it r l : irest it (r :: l) -> current (W := W) it = r.
Proof. intros Hr. unfold current. destruct (rest_current it r l Hr) as [-> ->]. by destruct r. Qed.

Lemma NewIteratorHeap_items_heads k iters rests :
  Forall2 irest iters rests -> NewIteratorHeap_items (W := W) k iters = heads k rests.
Proof.
  intros Hr. revert k. induction Hr as [|it l iters rests Hl _ IH]; intros k; [done|].
  cbn [NewIteratorHeap_items]. rewrite (rest_valid it l Hl).
  destruct l as [|r l]; cbn; rewrite IH; [done|]. by rewrite (current_rest it r l).
Qed.

Lemma NewIteratorHeap_inv iters rests :
  Forall2 irest iters rests -> heap_inv (NewIteratorHeap (W := W) iters) iters rests.
Proof.
  intros Hr. unfold NewIteratorHeap. cbn [items].
  rewrite (NewIteratorHeap_items_heads 0 iters rests Hr).
  destruct (Init_spec item_key (heads 0 rests)) as [HP Hh]. done.
Qed.

Lemma Empty_spec h iters rests : heap_inv h iters rests -> Empty h = bool_decide (concat rests = []).
Proof.
  intros (_ & HP & _). unfold Empty. apply Permutation_length in HP. rewrite HP. clear HP.
  cut (∀ k, (length (heads k rests) =? 0)%nat = bool_decide (concat rests = [])); [done|].
  induction rests as [|[|r l] rests IH]; intros k; [done|apply IH|done].
Qed.

(** One pop: a least record comes out of some iterator, which moves on. *)
Lemma PopAndAdvance_spec h iters rests cs w :
  heap_inv h iters rests -> iworld w -> Forall2 icontent iters cs -> concat rests ≠ [] ->
  ∃ r j l h' iters' w', PopAndAdvance h iters w = Some (r, h', iters', w') ∧
    item_Record <$> Peek h = Some r ∧ Empty h = false ∧
    rests !! j = Some (r :: l) ∧ heap_inv h' iters' (<[j := l]> rests) ∧
    iworld w' ∧ Forall2 icontent iters' cs ∧
    Forall (fun x : Rec => Compare r x <= 0) (concat rests).
Proof.
  intros Hinv Hw Hc Hne. pose proof (Empty_spec _ _ _ Hinv) as HE.
  rewrite bool_decide_false in HE by done. destruct Hinv as (Hr & HP & Hh).
  destruct h as [[|x its]]; [done|]. unfold PopAndAdvance. rewrite HE. cbn [items] in *.
  destruct (Pop_spec item_key x its Hh) as (its' & -> & HPp & Hh' & Hmin).
  cbn [mbind option_bind].
  assert (x ∈ heads 0 rests) as Hx by (rewrite <- HP; set_solver).
  apply elem_of_heads in Hx as (j & l & Hj & Hi). destruct x as [i r]. cbn in Hj, Hi. subst i.
  assert (∃ it, iters !! j = Some it ∧ irest it (r :: l)) as (it & Hit & Hitr).
  { destruct (Forall2_lookup_r _ _ _ _ _ Hr Hj) as (it & ? & ?). eauto. }
  cbn [Iter item_Record]. rewrite Hit. cbn [mbind option_bind].
  destruct (rest_next w it r l Hw Hitr) as (it' & w' & -> & Hw' & Hit' & Hcont).
  cbn [mbind option_bind].
  pose proof (lookup_lt_Some _ _ _ Hj) as Hjl.
  assert (its' ≡ₚ heads 0 (<[j := []]> rests)) as HP'.
  { rewrite HPp. apply (Permutation_cons_inv (a := mkItem j r)). rewrite HP.
    rewrite <- (list_insert_id rests j (r :: l)) at 1 by done. by rewrite heads_insert by done. }
  assert (Forall2 irest (<[j:=it']> iters) (<[j := l]> rests)) as Hr' by (by apply Forall2_insert).
  assert (Forall2 icontent (<[j:=it']> iters) cs) as Hc'.
  { apply Forall2_lookup. intros k. rewrite Forall2_lookup in Hc. specialize (Hc k).
    destruct (decide (k = j)) as [->|]; [|by rewrite list_lookup_insert_ne].
    rewrite list_lookup_insert_eq by (by eapply lookup_lt_Some). rewrite Hit in Hc.
    inversion Hc as [? c Hcc E|]; subst. constructor. by apply Hcont. }
  assert (Forall (fun y : Rec => Compare r y <= 0) (concat rests)) as Hleast.
  { rewrite Forall_forall. intros y Hy. apply list_elem_of_In, in_concat in Hy as (ly & Hly & Hy).
    apply list_elem_of_In, list_elem_of_lookup in Hly as [m Hm]. apply list_elem_of_In in Hy.
    destruct ly as [|z ly]; [set_solver|].
    assert (Compare r z <= 0) as Hrz.
    { assert (mkItem m z ∈ mkItem j r :: its) as Hin
        by (rewrite HP; apply elem_of_heads; by exists m, ly).
      apply elem_of_cons in Hin as [[= -> ->]|Hin]; [pose proof (cmp_refl (RKey r)) as Hc0;
        unfold cmp, InternalKey_Comparator in Hc0; lia|].
      rewrite Forall_forall in Hmin. by apply (Hmin _ Hin). }
    destruct (Forall2_lookup_r _ _ _ _ _ Hr Hm) as (itm & _ & Hitm%rest_sorted).
    apply StronglySorted_cons in Hitm as [Hz _]. rewrite Forall_forall in Hz.
    apply elem_of_cons in Hy as [->|Hy]; [done|].
    exact (cmp_le_trans (RKey r) (RKey z) (RKey y) Hrz (Hz _ Hy)). }
  rewrite (rest_valid it' l Hit'). destruct l as [|r' l].
  - cbn. exists r, j, []. eexists _, _, _. split_and!; try done.
  - cbn. exists r, j, (r' :: l). eexists _, _, _. split_and!; try done.
    rewrite (current_rest it' r' l) by done.
    destruct (Push_spec item_key its' (mkItem j r') Hh') as [HPu Hhu].
    split_and!; [done| |done]. cbn [items]. rewrite HPu, HP'.
    by rewrite (heads_insert 0 rests j (r' :: l)).
Qed.

(** The records a heap delivers when it is popped until it is empty; the store keeps ranging over
    the contents [cs]. *)
Fixpoint drains cs h iters w (l : list Rec) : Prop :=
  iworld w ∧ Forall2 icontent iters cs ∧
  match l with
  | [] => Empty h = true
  | r :: l => Empty h = false ∧ item_Record <$> Peek h = Some r ∧
      ∃ h' iters' w', PopAndAdvance h iters w = Some (r, h', iters', w') ∧
        drains cs h' iters' w' l
  end.

Lemma heap_drains h iters rests cs w :
  heap_inv h iters rests -> iworld w -> Forall2 icontent iters cs ->
  ∃ l, drains cs h iters w l ∧ sorted_recs l ∧ l ≡ₚ concat rests.
Proof.
  remember (length (concat rests)) as n eqn:Hn. revert h iters rests w Hn.
  induction n as [|n IH]; intros h iters rests w Hn Hinv Hw Hc.
  - symmetry in Hn. apply nil_length_inv in Hn. exists []. rewrite Hn. split_and!; [|constructor|done].
    cbn. rewrite (Empty_spec _ _ _ Hinv), bool_decide_true by done. done.
  - destruct (PopAndAdvance_spec h iters rests cs w) as
      (r & j & l & h' & iters' & w' & E & Hp & He & Hj & Hinv' & Hw' & Hc' & Hmin); try done.
    { intros E. by rewrite E in Hn. }
    pose proof (concat_insert rests j r l Hj) as HP.
    destruct (IH h' iters' (<[j := l]> rests) w') as (l' & Hd & Hs & HPl); try done.
    { apply Permutation_length in HP. rewrite HP in Hn. cbn in Hn. lia. }
    exists (r :: l'). split_and!.
    + cbn. split_and!; try done. by exists h', iters', w'.
    + apply StronglySorted_cons. split; [|done]. rewrite HPl. rewrite HP in Hmin.
      by apply Forall_cons in Hmin as [_ ?].
    + by rewrite HPl, HP.
Qed.

Lemma drains_world cs h iters w l : drains cs h iters w l -> iworld w ∧ Forall2 icontent iters cs.
Proof. destruct l; cbn; tauto. Qed.

Lemma merge_collect_drains cs h iters w l fuel :
  drains cs h iters w l -> (length l <= fuel)%nat ->
  ∃ w', merge_collect fuel (mkMerge h iters) w = Some (l, w') ∧ iworld w'.
Proof.
  revert h iters w fuel. induction l as [|r l IH]; intros h iters w fuel Hd Hf.
  - destruct Hd as (Hw & _ & He). destruct fuel; cbn; unfold merge_Valid; cbn; rewrite He; by eexists.
  - destruct Hd as (Hw & _ & He & Hp & h' & iters' & w' & E & Hd').
    destruct fuel as [|fuel]; [cbn in Hf; lia|]. cbn [merge_collect]. unfold merge_Valid. cbn [merge_heap].
    rewrite He. cbn [negb]. unfold merge_Record. cbn [merge_heap]. rewrite Hp. cbn [mbind option_bind].
    unfold merge_Next. cbn [merge_heap merge_iters]. rewrite E. cbn [mbind option_bind].
    destruct (IH h' iters' w' fuel Hd') as (w'' & -> & Hw''); [cbn in Hf; lia|].
    cbn. by eexists.
Qed.
End heap_lemmas.

(** ** What the merger guarantees *)

(** C18. Merging iterators delivers every record of every iterator once, in the order of internal keys,
    and then ends; no step panics. *)
Theorem MergeIterator_merges {W I} `{IteratorLaws W I}
    (iters : list I) rests cs (w : W) :
  Forall2 irest iters rests -> Forall2 icontent iters cs -> iworld w ->
  ∃ l w', merge_collect (length (concat rests)) (NewMergeIterator (W := W) iters) w = Some (l, w') ∧
    sorted_recs l ∧ l ≡ₚ concat rests.
Proof.
  intros Hr Hc Hw.
  destruct (heap_drains _ iters rests cs w (NewIteratorHeap_inv iters rests Hr) Hw Hc)
    as (l & Hd & Hs & HP).
  destruct (merge_collect_drains cs _ iters w l (length (concat rests)) Hd) as (w' & E & _).
  { by rewrite HP. }
  eauto.
Qed.

#[export] Instance unit_World : World unit := λ _, True.

Definition example_puts2 : list (list bool * Rec) :=
  [([], mkRec (mkIK [Byte.x63] 7 TypePut) (Some [Byte.x33]));
   ([true], mkRec (mkIK [Byte.x61] 2 TypePut) (Some [Byte.x34]))].

Lemma MergeIterator_merges_witness :
  ∃ (iters : list MemtableIterator) rests l w', length iters = 2%nat ∧ length (concat rests) = 5%nat ∧
    merge_collect (length (concat rests)) (NewMergeIterator (W := unit) iters) tt = Some (l, w') ∧
    sorted_recs l ∧ l ≡ₚ concat rests.
Proof.
  destruct (Put_all_holds _ _ example_puts (New_holds 100 4 ltac:(lia)))
    as (m1 & l1 & _ & [Hr1 Hs1] & HP1 & _).
  destruct (Put_all_holds _ _ example_puts2 (New_holds 100 4 ltac:(lia)))
    as (m2 & l2 & _ & [Hr2 Hs2] & HP2 & _).
  destruct (Iterator_remaining _ _ Hr1) as (it1 & _ & Hm1 & E1).
  destruct (Iterator_remaining _ _ Hr2) as (it2 & _ & Hm2 & E2).
  destruct (MergeIterator_merges [it1; it2] [l1; l2] [l1; l2] tt) as (l & w' & E & Hs & HP).
  - by repeat constructor.
  - repeat constructor; by rewrite ?E1, ?E2.
  - done.
  - exists [it1; it2], [l1; l2], l, w'. split_and!; try done.
    cbn [concat]. rewrite !length_app, HP1, HP2. reflexivity.
Defined.
