(* ===== verification/GoIO.v ===== *)
(** * Buffered and combined writers, and positioned reads

    [bufio.Writer], [io.MultiWriter] of a file and a CRC hash, [os.File]'s Stat and ReadAt. *)

From S2P Require Import Prelude.
From S2P Require Import GoStd.

(** ** bufio.Writer with the default buffer *)

Definition bufio_size : Z := 4096.

Record bufio_Writer (W : Type) := mkBufio { bbuf : bytes; berr : option error; bwr : W }.
Arguments mkBufio {W} _ _ _.
Arguments bbuf {W} _.
Arguments berr {W} _.
Arguments bwr {W} _.

Section bufio.
Context {W : Type} `{Writer W}.

Definition bufio_New (w : W) : bufio_Writer W := mkBufio [] None w.

Definition ErrShortWrite : error := ErrText "short write".

(** Flush keeps what the underlying writer did not take; errors are sticky. *)
Definition bufio_Flush (b : bufio_Writer W) : bufio_Writer W * option error :=
  match berr b with
  | Some e => (b, Some e)
  | None =>
      if len (bbuf b) =? 0 then (b, None)
      else
        let '(w, n, err) := w_Write (bwr b) (bbuf b) in
        let err := match err with
                   | None => if n <? len (bbuf b) then Some ErrShortWrite else None
                   | e => e
                   end in
        match err with
        | Some e => (mkBufio (drop (Z.to_nat n) (bbuf b)) (Some e) w, Some e)
        | None => (mkBufio [] None w, None)
        end
  end.

(** The loop's condition. *)
Definition bufio_more (b : bufio_Writer W) (p : bytes) : bool :=
  (bufio_size - len (bbuf b) <? len p) && bool_decide (berr b = None).

(** The loop of Write: [nn] bytes are taken, [p] is left.  A round empties the buffer or writes
    [p] past it, so that three rounds are enough. *)
Fixpoint bufio_Write_loop (fuel : nat) (b : bufio_Writer W) (nn : Z) (p : bytes) :
    bufio_Writer W * Z * bytes :=
  match fuel with
  | O => (b, nn, p)
  | S fuel =>
      if bufio_more b p then
        if len (bbuf b) =? 0 then
          let '(w, n, err) := w_Write (bwr b) p in
          bufio_Write_loop fuel (mkBufio (bbuf b) err w) (nn + n) (drop (Z.to_nat n) p)
        else
          let copied := take (Z.to_nat (bufio_size - len (bbuf b))) p in
          let b := mkBufio (bbuf b ++ copied) (berr b) (bwr b) in
          let '(b, _) := bufio_Flush b in
          bufio_Write_loop fuel b (nn + len copied) (drop (length copied) p)
      else (b, nn, p)
  end.

Definition bufio_Write (b : bufio_Writer W) (p : bytes) : bufio_Writer W * Z * option error :=
  let '(b, nn, p) := bufio_Write_loop 3 b 0 p in
  match berr b with
  | Some e => (b, nn, Some e)
  | None => (mkBufio (bbuf b ++ p) None (bwr b), nn + len p, None)
  end.

#[export] Instance bufio_Writer_Writer : Writer (bufio_Writer W) := bufio_Write.
End bufio.

(** ** io.MultiWriter(f, crc32.NewIEEE()): the hash takes what the file has taken without error. *)

Record TeeWriter := mkTee { tfile : File; tcrc : Z }.

#[export] Instance TeeWriter_Writer : Writer TeeWriter := λ t p,
  let '(f, n, err) := file_Write (tfile t) p in
  match err with
  | Some e => (mkTee f (tcrc t), n, Some e)
  | None => (mkTee f (crc32_Update (tcrc t) p), n, None)
  end.

(** ** Stat and ReadAt *)

Definition file_Stat (f : File) : File * (Z + error) :=
  match ffaults f with
  | Some _ :: fl => (mkFile (fdata f) (fdurable f) fl, inr ErrIO)
  | fl => (mkFile (fdata f) (fdurable f) (tail fl), inl (len (fdata f)))
  end.

(** [n] bytes at offset [off] of a file with the given contents. *)
Definition ReadAt_data (data : bytes) (n off : Z) : res bytes :=
  if off <? 0 then Err ErrIO
  else if n =? 0 then Ok []
  else if off + n <=? len data then slice data off (off + n)
  else Err ErrEOF.

(** ** Lemmas *)

Section bufio_lemmas.
Context {W : Type} `{WriterLaws W wdata}.

(** What has been accepted: the underlying data and the buffer. *)
Definition bdata (b : bufio_Writer W) : bytes := wdata (bwr b) ++ bbuf b.

Lemma bufio_Flush_spec b :
  let '(b', err) := bufio_Flush b in
  bdata b' = bdata b ∧ berr b' = err ∧ (err = None -> bbuf b' = []).
Proof.
  destruct b as [buf [e|] w]; unfold bufio_Flush; cbn; [done|].
  destruct (Z.eqb_spec (len buf) 0) as [E%len_zero_inv|E]; [by subst|].
  pose proof (w_Write_spec w buf) as Hw. destruct (w_Write w buf) as [[w' n] err].
  destruct Hw as (q & [s ->] & Hd & -> & He).
  assert (drop (Z.to_nat (len q)) (q ++ s) = s) as Hdrop
    by (unfold len; by rewrite Nat2Z.id, drop_app_length).
  destruct err as [e|].
  - cbn. split_and!; [|done|done]. unfold bdata. cbn. rewrite Hd, Hdrop. by rewrite <- app_assoc.
  - specialize (He eq_refl). assert (s = []) as ->.
    { apply (f_equal length) in He. rewrite length_app in He. destruct s; cbn in *; [done|lia]. }
    rewrite app_nil_r. rewrite Z.ltb_irrefl. cbn. split_and!; try done. unfold bdata. cbn.
    by rewrite Hd, app_nil_r.
Qed.

(** Rounds take a prefix of [p]; without error they end by the loop's own condition. *)
Lemma bufio_Write_loop_spec fuel b nn p :
  let '(b', nn', p') := bufio_Write_loop fuel b nn p in
  ∃ q, p = q ++ p' ∧ bdata b' = bdata b ++ q ∧ nn' = nn + len q.
Proof.
  revert b nn p. induction fuel as [|fuel IH]; intros b nn p; cbn [bufio_Write_loop].
  { exists []. rewrite app_nil_r. split_and!; [done..|len_lia]. }
  destruct (bufio_more b p); [|exists []; rewrite app_nil_r; split_and!; [done..|len_lia]].
  destruct (Z.eqb_spec (len (bbuf b)) 0) as [E%len_zero_inv|E].
  - pose proof (w_Write_spec (bwr b) p) as Hw. destruct (w_Write (bwr b) p) as [[w n] err].
    destruct Hw as (q & [s ->] & Hd & -> & _).
    assert (drop (Z.to_nat (len q)) (q ++ s) = s) as ->
      by (unfold len; by rewrite Nat2Z.id, drop_app_length).
    specialize (IH (mkBufio (bbuf b) err w) (nn + len q) s).
    destruct (bufio_Write_loop _ _ _ _) as [[b' nn'] p'].
    destruct IH as (q' & -> & Hb & ->). exists (q ++ q'). split_and!; [by rewrite app_assoc| |len_lia].
    rewrite Hb. unfold bdata. cbn [bwr bbuf]. rewrite E, Hd, !app_nil_r. by rewrite app_assoc.
  - set (c := take _ p). assert (p = c ++ drop (length c) p) as Ep.
    { subst c. rewrite length_take. rewrite <- (take_drop (Z.to_nat (bufio_size - len (bbuf b))) p) at 1.
      f_equal. destruct (decide (Z.to_nat (bufio_size - len (bbuf b)) <= length p)%nat).
      - f_equal. lia.
      - rewrite !drop_ge by lia. done. }
    set (b1 := mkBufio _ _ _). pose proof (bufio_Flush_spec b1) as Hf.
    destruct (bufio_Flush b1) as [b2 err]. destruct Hf as (Hd & _ & _).
    specialize (IH b2 (nn + len c) (drop (length c) p)).
    destruct (bufio_Write_loop _ _ _ _) as [[b' nn'] p'].
    destruct IH as (q' & Hp & Hb & ->). exists (c ++ q'). split_and!; [|..|len_lia].
    + rewrite Ep at 1. by rewrite Hp, app_assoc.
    + rewrite Hb, Hd. unfold bdata, b1. cbn [bwr bbuf]. by rewrite !app_assoc.
Qed.

(** Three rounds are enough: the loop ends by its own condition. *)
Definition bufio_todo (b : bufio_Writer W) (p : bytes) : nat :=
  if bufio_more b p then if len (bbuf b) =? 0 then 1 else 2 else 0.

Lemma bufio_more_err (b : bufio_Writer W) p : berr b ≠ None -> bufio_more b p = false.
Proof. intros He. unfold bufio_more. by rewrite bool_decide_false, andb_false_r. Qed.

Lemma bufio_Write_loop_done fuel (b : bufio_Writer W) nn p :
  (bufio_todo b p <= fuel)%nat ->
  let '(b', _, p') := bufio_Write_loop fuel b nn p in bufio_more b' p' = false.
Proof.
  revert b nn p. induction fuel as [|fuel IH]; intros b nn p; unfold bufio_todo;
    cbn [bufio_Write_loop]; destruct (bufio_more b p) eqn:Ec; try done.
  { destruct (len (bbuf b) =? 0); lia. }
  destruct (Z.eqb_spec (len (bbuf b)) 0) as [E%len_zero_inv|E]; intros Hf.
  - pose proof (w_Write_spec (bwr b) p) as Hw. destruct (w_Write (bwr b) p) as [[w n] err].
    destruct Hw as (q & _ & _ & -> & He). apply IH. unfold bufio_todo.
    enough (bufio_more (mkBufio (bbuf b) err w) (drop (Z.to_nat (len q)) p) = false) as -> by lia.
    destruct err as [e|]; [by apply bufio_more_err|].
    rewrite (He eq_refl), drop_ge by (unfold len; lia). unfold bufio_more. cbn [bbuf].
    by rewrite E.
  - set (c := take _ p). set (b1 := mkBufio _ _ _). pose proof (bufio_Flush_spec b1) as Hfl.
    destruct (bufio_Flush b1) as [b2 err]. destruct Hfl as (_ & Hb & He). apply IH.
    unfold bufio_todo. destruct err as [e|].
    + rewrite bufio_more_err by (by rewrite Hb). lia.
    + rewrite (He eq_refl), len_nil, Z.eqb_refl. destruct (bufio_more b2 _); lia.
Qed.

Lemma bufio_todo_le (b : bufio_Writer W) p : (bufio_todo b p <= 3)%nat.
Proof. unfold bufio_todo. destruct (bufio_more b p); [|lia]. destruct (_ =? _); lia. Qed.

#[export] Instance bufio_WriterLaws : WriterLaws (bufio_Writer W) bdata.
Proof.
  intros b p. unfold w_Write, bufio_Writer_Writer, bufio_Write.
  pose proof (bufio_Write_loop_spec 3 b 0 p) as Hl.
  destruct (bufio_Write_loop 3 b 0 p) as [[b' nn] p']. destruct Hl as (q & -> & Hd & ->).
  destruct (berr b') as [e|].
  - exists q. split_and!; [by eexists|done|lia|done].
  - exists (q ++ p'). split_and!; [done| |len_lia|done].
    unfold bdata in *. cbn [bwr bbuf]. by rewrite app_assoc, Hd, app_assoc.
Qed.

(** After a Write the buffer never holds more than its size. *)
Lemma bufio_Write_size b p :
  let '(b', _, err) := bufio_Write b p in err = None -> len (bbuf b') <= bufio_size.
Proof.
  unfold bufio_Write. pose proof (bufio_Write_loop_done 3 b 0 p (bufio_todo_le b p)) as Hd.
  destruct (bufio_Write_loop 3 b 0 p) as [[b' nn] p']. destruct (berr b') eqn:E; [done|]. intros _.
  unfold bufio_more in Hd. rewrite E, bool_decide_true, andb_true_r in Hd by done.
  apply Z.ltb_ge in Hd. cbn [bbuf]. rewrite len_app. lia.
Qed.

(** A property of the underlying writer that its successful writes keep is kept by buffered
    writes that report no error. *)
Context (I : W -> Prop)
  (HI : ∀ w p w' n, I w -> w_Write w p = (w', n, None) -> I w').

Definition binv (b : bufio_Writer W) : Prop := berr b = None -> I (bwr b).

Lemma bufio_Flush_inv b : binv b -> binv (bufio_Flush b).1.
Proof.
  intros Hb. unfold bufio_Flush. destruct (berr b) eqn:E; [done|].
  destruct (len (bbuf b) =? 0); [done|].
  destruct (w_Write (bwr b) (bbuf b)) as [[w n] err] eqn:Ew.
  destruct err as [e|]; [done|]. destruct (n <? _); [done|]. intros _. cbn.
  eapply HI; [by apply Hb|done].
Qed.

Lemma bufio_Write_loop_inv fuel b nn p : binv b -> binv (bufio_Write_loop fuel b nn p).1.1.
Proof.
  revert b nn p. induction fuel as [|fuel IH]; intros b nn p Hb; cbn [bufio_Write_loop]; [done|].
  destruct (bufio_more b p) eqn:Em; [|done].
  destruct (len (bbuf b) =? 0).
  - destruct (w_Write (bwr b) p) as [[w n] err] eqn:Ew. apply IH. intros He. cbn in *. subst err.
    eapply HI; [|done]. apply Hb. unfold bufio_more in Em.
    by apply andb_true_iff in Em as [_ ?%bool_decide_eq_true].
  - set (b1 := mkBufio _ _ _). assert (binv b1) as H1 by exact Hb.
    apply bufio_Flush_inv in H1. destruct (bufio_Flush b1) as [b2 err]. by apply IH.
Qed.

Lemma bufio_Write_inv b p : binv b -> binv (bufio_Write b p).1.1.
Proof.
  intros Hb. apply (bufio_Write_loop_inv 3 _ 0 p) in Hb. unfold bufio_Write.
  destruct (bufio_Write_loop 3 b 0 p) as [[b' nn] p']. cbn in Hb.
  destruct (berr b') eqn:E; [exact Hb|]. intros _. by apply Hb.
Qed.
End bufio_lemmas.

(** On an underlying writer that does not fail, a buffered one does not either. *)
Section bufio_no_fault.
Context {W : Type} `{Writer W} (I : W -> Prop)
  (HI : ∀ w p, I w -> ∃ w', w_Write w p = (w', len p, None) ∧ I w').

Definition bok (b : bufio_Writer W) : Prop := berr b = None ∧ I (bwr b).

Lemma bufio_Flush_ok b : bok b -> ∃ b', bufio_Flush b = (b', None) ∧ bok b'.
Proof.
  intros [He Hw]. unfold bufio_Flush. rewrite He. destruct (len (bbuf b) =? 0); [by exists b|].
  destruct (HI _ (bbuf b) Hw) as (w' & -> & Hw'). rewrite Z.ltb_irrefl. by eexists.
Qed.

Lemma bufio_Write_loop_ok fuel b nn p : bok b -> bok (bufio_Write_loop fuel b nn p).1.1.
Proof.
  revert b nn p. induction fuel as [|fuel IH]; intros b nn p Hb; cbn [bufio_Write_loop]; [done|].
  destruct (bufio_more b p); [|done]. destruct (len (bbuf b) =? 0).
  - destruct (HI _ p (proj2 Hb)) as (w' & -> & Hw'). by apply IH.
  - set (b1 := mkBufio _ _ _). destruct (bufio_Flush_ok b1) as (b2 & -> & H2); [by destruct Hb|].
    by apply IH.
Qed.

Lemma bufio_Write_ok b p : bok b -> ∃ b' n, bufio_Write b p = (b', n, None) ∧ bok b'.
Proof.
  intros Hb. apply (bufio_Write_loop_ok 3 _ 0 p) in Hb. unfold bufio_Write.
  destruct (bufio_Write_loop 3 b 0 p) as [[b' nn] p']. destruct Hb as [He Hw]. cbn in He, Hw.
  rewrite He. by eexists _, _.
Qed.
End bufio_no_fault.

Definition no_faults (f : File) : Prop := ffaults f = [].

Lemma file_Write_ok f p :
  no_faults f -> file_Write f p = (mkFile (fdata f ++ p) (fdurable f) [], len p, None).
Proof. intros Hf. unfold file_Write. by rewrite Hf. Qed.

Lemma tee_Write_ok (t : TeeWriter) p :
  no_faults (tfile t) -> ∃ t', w_Write t p = (t', len p, None) ∧ no_faults (tfile t').
Proof.
  intros Hf. unfold w_Write, TeeWriter_Writer. rewrite file_Write_ok by done. by eexists.
Qed.


#[export] Instance TeeWriter_WriterLaws : WriterLaws TeeWriter (fdata ∘ tfile).
Proof.
  intros t p. unfold w_Write, TeeWriter_Writer. pose proof (w_Write_spec (tfile t) p) as Hw.
  unfold w_Write, File_Writer in Hw. destruct (file_Write (tfile t) p) as [[f n] [e|]]; exact Hw.
Qed.

(** The hash is the checksum of what the file holds after [base]. *)
Definition tee_inv (base : bytes) (t : TeeWriter) : Prop :=
  ∃ p, fdata (tfile t) = base ++ p ∧ tcrc t = crc32_ChecksumIEEE p.

Lemma tee_inv_Write base (t : TeeWriter) p t' n :
  tee_inv base t -> w_Write t p = (t', n, None) -> tee_inv base t'.
Proof.
  intros (q & Hd & Hc). unfold w_Write, TeeWriter_Writer.
  pose proof (w_Write_spec (tfile t) p) as Hw. unfold w_Write, File_Writer in Hw.
  destruct (file_Write (tfile t) p) as [[f m] [e|]]; [done|]. intros [= <- <-].
  destruct Hw as (r & _ & Hd' & _ & Hr). rewrite (Hr eq_refl) in *. exists (q ++ p). cbn.
  split; [by rewrite Hd', Hd, app_assoc|]. rewrite Hc. unfold crc32_ChecksumIEEE.
  apply crc32_Update_app.
Qed.

Lemma ReadAt_data_app p q tl n :
  len q = n -> ReadAt_data (p ++ q ++ tl) n (len p) = Ok q.
Proof.
  intros <-. unfold ReadAt_data. pose proof (len_nonneg p). rewrite (proj2 (Z.ltb_ge _ _)) by lia.
  destruct (Z.eqb_spec (len q) 0) as [E%len_zero_inv|E]; [by subst|].
  rewrite (proj2 (Z.leb_le _ _)) by len_lia.
  by apply (slice_at_app _ _ q tl); exists p.
Qed.
