(* ===== verification/Filter.v ===== *)
(** * Package sstable: the Bloom filter

    [filter.go].  The bit vector with its double hashing, the sizing from floats, and the codec.
    [math.Log] and the result of a float conversion that the target type cannot hold are not fixed
    by the Go specification: they come from the class [FloatEnv]. *)

From S2P Require Import Prelude.
From S2P Require Import GoStd.
From S2P Require Import Records.
From Stdlib Require Import PrimFloat FloatOps SpecFloat.

(** The decimal probabilities of the source are rounded to binary64, as Go does. *)
#[local] Set Warnings "-inexact-float".

(** ** Floats *)

Class FloatEnv := {
  math_Log : float -> float;
  (** the value of an unrepresentable conversion to [w] bits *)
  unrepresentable : Z -> float -> Z
}.

Definition float64 (n : Z) : float := SF2Prim (binary_normalize 53 1024 n 0 false).

(** The integer part; none for infinities and NaN. *)
Definition sf_trunc (x : spec_float) : option Z :=
  match x with
  | S754_zero _ => Some 0
  | S754_finite s m e =>
      let a := if 0 <=? e then Z.shiftl (Zpos m) e else Z.shiftr (Zpos m) (- e) in
      Some (if s then - a else a)
  | _ => None
  end.

Definition math_Ceil (x : float) : float :=
  match Prim2SF x with
  | S754_finite false m e =>
      if 0 <=? e then x else float64 (Z.shiftr (Zpos m + (2 ^ (- e) - 1)) (- e))
  | S754_finite true m e =>
      if 0 <=? e then x else float64 (- Z.shiftr (Zpos m) (- e))
  | _ => x
  end.

(** Half away from zero. *)
Definition math_Round (x : float) : float :=
  match Prim2SF x with
  | S754_finite s m e =>
      if 0 <=? e then x
      else
        let a := Z.shiftr (Zpos m + 2 ^ (- e - 1)) (- e) in
        float64 (if s then - a else a)
  | _ => x
  end.

Definition math_Ln2 : float := 0x1.62e42fefa39efp-1.
(** [math.Ln2 * math.Ln2], a constant rounded once. *)
Definition math_Ln2_squared : float := 0x1.ebfbdff82c58fp-2.

Section NewFilter.
Context `{FloatEnv}.

Definition float_to_uint (w : Z) (x : float) : Z :=
  match sf_trunc (Prim2SF x) with
  | Some z => if (0 <=? z) && (z <? 2 ^ w) then z else unrepresentable w x mod 2 ^ w
  | None => unrepresentable w x mod 2 ^ w
  end.
End NewFilter.

(** ** The filter *)

Record Filter := mkFilter { bits : bytes; m : Z; k : Z }.

Definition NewFilter `{FloatEnv} (n : Z) (p : float) : Filter :=
  let m := float_to_uint 32
    (math_Ceil (PrimFloat.div (PrimFloat.mul (PrimFloat.opp (float64 n)) (math_Log p))
      math_Ln2_squared)) in
  let k := float_to_uint 8
    (math_Round (PrimFloat.mul (PrimFloat.div (float64 m) (float64 n)) math_Ln2)) in
  let k := if k =? 0 then 1 else k in
  mkFilter (zeros (u32 (m + 7) / 8)) m k.

Definition hash1 (key : bytes) : Z := fnv64a_Write fnv64a_offset key.

Definition hash2 (key : bytes) : Z :=
  fnv64a_Write (fnv64a_Write fnv64a_offset key) [Byte.xde; Byte.xad; Byte.xbe; Byte.xef].

(** [x % y]: a zero divisor panics. *)
Definition umod (x y : Z) : res Z := if y =? 0 then Panic else Ok (x mod y).

(** The probes [i], [i + 1], ... of the [n] rounds left. *)
Fixpoint Add_loop (f : Filter) (h1 h2 : Z) (n : nat) (i : Z) : res Filter :=
  match n with
  | O => Ok f
  | S n =>
      idx ← umod (u64 (h1 + u64 (i * h2))) (m f);
      b ← ByteAt (bits f) (idx / 8);
      bs ← PutByte (bits f) (idx / 8) (Z.lor b (u8 (Z.shiftl 1 (idx mod 8))));
      Add_loop (mkFilter bs (m f) (k f)) h1 h2 n (i + 1)
  end.

Definition Add (f : Filter) (key : bytes) : res Filter :=
  let h1 := hash1 key in
  let h2 := hash2 key in
  Add_loop f h1 h2 (Z.to_nat (k f)) 0.

Fixpoint Contains_loop (f : Filter) (h1 h2 : Z) (n : nat) (i : Z) : res bool :=
  match n with
  | O => Ok true
  | S n =>
      idx ← umod (u64 (h1 + u64 (i * h2))) (m f);
      b ← ByteAt (bits f) (idx / 8);
      if Z.land b (u8 (Z.shiftl 1 (idx mod 8))) =? 0 then Ok false
      else Contains_loop f h1 h2 n (i + 1)
  end.

Definition Contains (f : Filter) (key : bytes) : res bool :=
  let h1 := hash1 key in
  let h2 := hash2 key in
  Contains_loop f h1 h2 (Z.to_nat (k f)) 0.

(** *** The codec: [bits_len(4)][bits][m(4)][k(1)] *)

Definition EncodeFilter (f : Filter) : res bytes :=
  let buf := zeros (4 + len (bits f) + 4 + 1) in
  let off := 0 in
  buf ← PutUint32 buf off (u32 (len (bits f)));
  let off := off + 4 in
  buf ← copy_at buf off (bits f);
  let off := off + len (bits f) in
  buf ← PutUint32 buf off (m f);
  let off := off + 4 in
  PutByte buf off (k f).

Definition ErrFilter : error := ErrText "filter: buffer too small".

Definition DecodeFilter (b : bytes) : res Filter :=
  if len b <? 4 then Err ErrFilter else
  let off := 0 in
  bitsLen ← Uint32 b off;
  let off := off + 4 in
  if len b <? off + bitsLen + 4 + 1 then Err ErrFilter else
  bits ← slice b off (off + bitsLen);
  let off := off + bitsLen in
  m ← Uint32 b off;
  let off := off + 4 in
  k ← ByteAt b off;
  Ok (mkFilter bits m k).

(** ** Specification *)

Fixpoint Add_all (f : Filter) (keys : list bytes) : res Filter :=
  match keys with
  | [] => Ok f
  | key :: keys => f ← Add f key; Add_all f keys
  end.

(** The bit that probe [i] of [key] hits. *)
Definition probe (mm : Z) (key : bytes) (i : Z) : Z :=
  u64 (hash1 key + u64 (i * hash2 key)) mod mm.

(** Bit [j] of the vector. *)
Definition bit (bs : bytes) (j : Z) : bool :=
  Z.testbit (byte_to_Z (nth (Z.to_nat (j / 8)) bs Byte.x00)) (j mod 8).

(** The vector has all [m] bits. *)
Definition wf_filter (f : Filter) : Prop :=
  0 < m f ∧ m f <= 8 * len (bits f).

Definition filter_bytes (f : Filter) : bytes :=
  le_bytes 4 (len (bits f)) ++ bits f ++ le_bytes 4 (m f) ++ [byte_of_Z (k f)].

Definition enc_filter (f : Filter) : Prop :=
  len (bits f) < 2 ^ 32 ∧ 0 <= m f < 2 ^ 32 ∧ 0 <= k f < 256.

(** ** Bits *)

Lemma bit_set_byte b i j :
  0 <= i < 8 -> 0 <= j < 8 ->
  Z.testbit (byte_to_Z (byte_of_Z (Z.lor (byte_to_Z b) (u8 (Z.shiftl 1 i))))) j =
  Z.testbit (byte_to_Z b) j || (j =? i).
Proof.
  intros Hi Hj. rewrite byte_to_of_Z. change 256 with (2 ^ 8).
  rewrite Z.mod_pow2_bits_low, Z.lor_spec by lia. f_equal.
  unfold u8. rewrite Z.mod_pow2_bits_low, Z.shiftl_1_l, Z.pow2_bits_eqb by lia. apply Z.eqb_sym.
Qed.

Lemma bit_test_byte b i :
  0 <= i < 8 -> (Z.land (byte_to_Z b) (u8 (Z.shiftl 1 i)) =? 0) = negb (Z.testbit (byte_to_Z b) i).
Proof.
  intros Hi. assert (u8 (Z.shiftl 1 i) = 2 ^ i) as ->.
  { rewrite Z.shiftl_1_l. apply u8_small.
    assert (i = 0 ∨ i = 1 ∨ i = 2 ∨ i = 3 ∨ i = 4 ∨ i = 5 ∨ i = 6 ∨ i = 7) as E by lia.
    by intuition subst. }
  rewrite Z.land_comm, <- Z.shiftl_1_l.
  destruct (Z.testbit (byte_to_Z b) i) eqn:E; cbn [negb].
  - apply Z.eqb_neq. intros H. assert (Z.testbit (Z.land (Z.shiftl 1 i) (byte_to_Z b)) i = false) as Hf
      by (rewrite H; apply Z.bits_0).
    rewrite Z.land_spec, E, Z.shiftl_1_l, Z.pow2_bits_true in Hf by lia. done.
  - apply Z.eqb_eq, Z.bits_inj_0. intros j.
    rewrite Z.land_spec, Z.shiftl_1_l, Z.pow2_bits_eqb by lia.
    destruct (Z.eqb_spec i j) as [<-|]; [by rewrite E|done].
Qed.

Lemma ByteAt_nth bs i :
  0 <= i < len bs -> ByteAt bs i = Ok (byte_to_Z (nth (Z.to_nat i) bs Byte.x00)).
Proof.
  intros Hi. unfold ByteAt, index. rewrite (proj2 (Z.leb_le 0 i)) by lia.
  destruct (nth_lookup_or_length bs (Z.to_nat i) Byte.x00) as [->|]; [done|]. unfold len in Hi. lia.
Qed.

Lemma PutByte_insert bs i v :
  0 <= i < len bs -> PutByte bs i v = Ok (<[Z.to_nat i := byte_of_Z v]> bs).
Proof.
  intros Hi. unfold PutByte, put_at.
  rewrite (proj2 (Z.leb_le 0 i)), (proj2 (Z.leb_le (i + _) _)) by len_lia. cbn [andb].
  rewrite insert_take_drop by (unfold len in Hi; lia). cbn [length app].
  by rewrite Nat.add_1_r.
Qed.

(** Setting a bit sets it and no other. *)
Lemma bit_set bs i j :
  0 <= i < 8 * len bs -> 0 <= j ->
  bit (<[Z.to_nat (i / 8) := byte_of_Z (Z.lor (byte_to_Z (nth (Z.to_nat (i / 8)) bs Byte.x00))
    (u8 (Z.shiftl 1 (i mod 8))))]> bs) j = bit bs j || (j =? i).
Proof.
  intros Hi Hj. unfold bit. set (x := byte_of_Z _). rewrite nth_lookup.
  destruct (decide (j / 8 = i / 8)) as [E|E].
  - rewrite E, list_lookup_insert_eq by (unfold len in Hi; lia). cbn [default from_option id].
    subst x. rewrite bit_set_byte by lia. f_equal.
    destruct (Z.eqb_spec (j mod 8) (i mod 8)), (Z.eqb_spec j i); lia.
  - rewrite list_lookup_insert_ne by lia. rewrite <- nth_lookup.
    rewrite (proj2 (Z.eqb_neq j i)) by (intros ->; done). by rewrite orb_false_r.
Qed.

Section loops.
Context (key : bytes).
Implicit Types (f : Filter) (i j : Z).

Lemma umod_probe f i :
  0 < m f -> umod (u64 (hash1 key + u64 (i * hash2 key))) (m f) = Ok (probe (m f) key i).
Proof. intros H. unfold umod. by rewrite (proj2 (Z.eqb_neq _ 0)) by lia. Qed.

Lemma probe_range f i : wf_filter f -> 0 <= probe (m f) key i < 8 * len (bits f).
Proof.
  intros [H1 H2]. unfold probe. pose proof (Z.mod_pos_bound (u64 (hash1 key + u64 (i * hash2 key)))
    (m f) H1). lia.
Qed.

Lemma Add_loop_spec f n i :
  wf_filter f ->
  ∃ bs, Add_loop f (hash1 key) (hash2 key) n i = Ok (mkFilter bs (m f) (k f)) ∧
    len bs = len (bits f) ∧
    ∀ j, 0 <= j -> bit bs j = true <->
      bit (bits f) j = true ∨ ∃ i', i <= i' < i + Z.of_nat n ∧ j = probe (m f) key i'.
Proof.
  revert f i. induction n as [|n IH]; intros f i Hf; cbn [Add_loop].
  - exists (bits f). split_and!; [by destruct f|done|]. intros j Hj.
    split; [by left|]. intros [H|(i' & Hi' & _)]; [done|lia].
  - pose proof (probe_range f i Hf) as Hp. rewrite umod_probe by apply Hf. cbn [mbind res_bind].
    set (p := probe (m f) key i) in *.
    rewrite ByteAt_nth by lia. cbn [mbind res_bind].
    rewrite PutByte_insert by lia. cbn [mbind res_bind].
    set (bs := <[_ := _]> _). assert (len bs = len (bits f)) as Hl
      by (subst bs; unfold len; by rewrite length_insert).
    destruct (IH (mkFilter bs (m f) (k f)) (i + 1)) as (bs' & -> & Hl' & Hb).
    { destruct Hf. split; cbn; [done|]. by rewrite Hl. }
    cbn [bits m k] in *. exists bs'. split_and!; [done|lia|]. intros j Hj.
    rewrite (Hb j Hj). subst bs. rewrite bit_set by lia. rewrite orb_true_iff, Z.eqb_eq.
    split.
    + intros [[H| ->]|(i' & Hi' & ->)]; [by left|right; exists i; split; [lia|done]|].
      right. exists i'. split; [lia|done].
    + intros [H|(i' & Hi' & ->)]; [by left; left|].
      destruct (decide (i' = i)) as [->|]; [by left; right|]. right. exists i'. split; [lia|done].
Qed.

Lemma Contains_loop_spec f n i :
  wf_filter f ->
  ∃ b, Contains_loop f (hash1 key) (hash2 key) n i = Ok b ∧
    (b = true <-> ∀ i', i <= i' < i + Z.of_nat n -> bit (bits f) (probe (m f) key i') = true).
Proof.
  revert i. induction n as [|n IH]; intros i Hf; cbn [Contains_loop].
  - exists true. split; [done|]. split; [lia|done].
  - pose proof (probe_range f i Hf) as Hp. rewrite umod_probe by apply Hf. cbn [mbind res_bind].
    rewrite ByteAt_nth by lia. cbn [mbind res_bind]. rewrite bit_test_byte by lia.
    change (Z.testbit _ _) with (bit (bits f) (probe (m f) key i)).
    destruct (bit (bits f) (probe (m f) key i)) eqn:E; cbn [negb].
    + destruct (IH (i + 1) Hf) as (b & -> & Hb). exists b. split; [done|]. rewrite Hb. split.
      * intros H i' Hi'. destruct (decide (i' = i)) as [->|]; [done|apply H; lia].
      * intros H i' Hi'. apply H. lia.
    + exists false. split; [done|]. split; [done|]. intros H. rewrite <- E. apply H. lia.
Qed.
End loops.

Lemma Add_all_spec f keys :
  wf_filter f -> 0 <= k f ->
  ∃ bs, Add_all f keys = Ok (mkFilter bs (m f) (k f)) ∧ len bs = len (bits f) ∧
    ∀ j, 0 <= j -> bit bs j = true <->
      bit (bits f) j = true ∨ ∃ key i, key ∈ keys ∧ 0 <= i < k f ∧ j = probe (m f) key i.
Proof.
  intros Hf Hk. revert f Hf Hk. induction keys as [|key keys IH]; intros f Hf Hk; cbn [Add_all].
  - exists (bits f). split_and!; [by destruct f|done|]. intros j Hj. set_solver.
  - destruct (Add_loop_spec key f (Z.to_nat (k f)) 0 Hf) as (bs & E & Hl & Hb).
    unfold Add. rewrite E. cbn [mbind res_bind].
    destruct (IH (mkFilter bs (m f) (k f))) as (bs' & -> & Hl' & Hb'); [|done|].
    { destruct Hf. split; cbn; [done|]. by rewrite Hl. }
    cbn [bits m k] in *. exists bs'. split_and!; [done|lia|]. intros j Hj.
    rewrite (Hb' j Hj), (Hb j Hj). setoid_rewrite elem_of_cons.
    rewrite Z.add_0_l, Z2Nat.id by done. split.
    + intros [[H|(i & Hi & ->)]|(key' & i & ? & ? & ->)]; [by left|right; by exists key, i; auto|].
      right. exists key', i. auto.
    + intros [H|(key' & i & [->|Hk'] & Hi & ->)]; [by left; left|left; right; by exists i|].
      right. by exists key', i.
Qed.

Lemma Contains_spec f key :
  wf_filter f -> 0 <= k f ->
  ∃ b, Contains f key = Ok b ∧
    (b = true <-> ∀ i, 0 <= i < k f -> bit (bits f) (probe (m f) key i) = true).
Proof.
  intros Hf Hk. destruct (Contains_loop_spec key f (Z.to_nat (k f)) 0 Hf) as (b & E & Hb).
  exists b. split; [done|]. by rewrite Z.add_0_l, Z2Nat.id in Hb.
Qed.

(** A filter holding the bits of [keys] accepts each of them. *)
Definition covers (f : Filter) (keys : list bytes) : Prop :=
  wf_filter f ∧ 0 <= k f ∧ ∀ key i, key ∈ keys -> 0 <= i < k f ->
    bit (bits f) (probe (m f) key i) = true.

Lemma Add_covers f keys key :
  covers f keys -> ∃ f', Add f key = Ok f' ∧ covers f' (key :: keys) ∧ m f' = m f ∧ k f' = k f ∧
    len (bits f') = len (bits f).
Proof.
  intros (Hf & Hk & Hc). destruct (Add_loop_spec key f (Z.to_nat (k f)) 0 Hf) as (bs & E & Hl & Hb).
  eexists. split; [exact E|]. split_and!; try done. split_and!; [|done|].
  - destruct Hf. split; cbn; [done|]. by rewrite Hl.
  - cbn. intros key' i Hin Hi. pose proof (probe_range key' f i Hf).
    apply Hb; [lia|]. apply elem_of_cons in Hin as [->|Hin]; [right; exists i; split; [lia|done]|].
    left. by apply Hc.
Qed.

Lemma covers_Contains f keys key : covers f keys -> key ∈ keys -> Contains f key = Ok true.
Proof.
  intros (Hf & Hk & Hc) Hin. destruct (Contains_spec f key Hf Hk) as (b & -> & Hb).
  f_equal. apply Hb. auto.
Qed.

Lemma covers_perm f keys keys' : covers f keys -> keys ≡ₚ keys' -> covers f keys'.
Proof. intros (Hf & Hk & Hc) Hp. split_and!; [done..|]. intros key i Hin. apply Hc. by rewrite Hp. Qed.

Lemma bit_zeros n j : bit (zeros n) j = false.
Proof.
  unfold bit, zeros. rewrite nth_lookup.
  destruct (replicate (Z.to_nat n) Byte.x00 !! Z.to_nat (j / 8)) as [b|] eqn:E; cbn;
    [apply lookup_replicate in E as [-> _]|]; apply Z.bits_0.
Qed.

(** ** The codec *)

Lemma len_filter_bytes f : len (filter_bytes f) = len (bits f) + 9.
Proof. unfold filter_bytes. len_lia. Qed.

#[export] Hint Rewrite len_filter_bytes : len.

Lemma EncodeFilter_spec f : EncodeFilter f = Ok (filter_bytes f).
Proof.
  unfold EncodeFilter, PutUint32, PutByte. rewrite le_bytes_u32.
  set (n := 4 + len (bits f) + 4 + 1). pose proof (len_nonneg (bits f)).
  assert (len (zeros n) = n) as Hn by (apply len_zeros; lia).
  change (zeros n) with ([] ++ zeros n). do 3 put_step. rewrite put_at_app by len_lia.
  rewrite drop_ge; [|unfold len in *; rewrite ?drop_drop, length_drop, ?length_app, !length_le_bytes;
    cbn; lia].
  unfold filter_bytes. by rewrite app_nil_r, <- !app_assoc.
Qed.

Lemma DecodeFilter_filter_bytes f rest :
  enc_filter f -> DecodeFilter (filter_bytes f ++ rest) = Ok f.
Proof.
  intros (H1 & H2 & H3). remember (filter_bytes f ++ rest) as data eqn:E.
  pose proof (at_off_start data) as H. rewrite E in H at 2. clear E.
  unfold filter_bytes in H. rewrite <- !app_assoc in H. pose proof (len_nonneg (bits f)).
  unfold DecodeFilter. check_ok H. decode_step H. rewrite u32_small by lia.
  check_ok H. decode_step H. decode_step H. cbn [app] in H. decode_step H.
  rewrite byte_to_of_Z, Z.mod_small, u32_small by lia. by destruct f.
Qed.

Lemma DecodeFilter_cases data :
  (∃ f rest, DecodeFilter data = Ok f ∧ data = filter_bytes f ++ rest ∧ enc_filter f) ∨
  DecodeFilter data = Err ErrFilter.
Proof.
  assert (∃ tl, at_off data 0 tl ∧ data = tl) as (tl & H & Htl) by eauto using at_off_start.
  unfold DecodeFilter. repeat decode_cases H. left.
  rename select (len _ = _) into Hl. rename select (byte) into b. pose proof (byte_to_Z_range b).
  eexists (mkFilter _ _ (byte_to_Z b)), _. split_and!.
  - reflexivity.
  - rewrite Htl. unfold filter_bytes. cbn. rewrite Hl, byte_of_to_Z, <- !app_assoc. reflexivity.
  - unfold enc_filter. cbn. lia.
Qed.

(** ** What the filter guarantees *)

Lemma wf_NewFilter `{FloatEnv} n p :
  let f := NewFilter n p in
  0 < m f <= 2 ^ 32 - 8 -> wf_filter f ∧ len (bits f) = (m f + 7) / 8.
Proof.
  intros f Hm. assert (len (bits f) = (m f + 7) / 8) as E.
  { change (bits f) with (zeros (u32 (m f + 7) / 8)). rewrite u32_small by lia.
    apply len_zeros. lia. }
  split; [|done]. split; lia.
Qed.

Lemma NewFilter_k `{FloatEnv} n p : 1 <= k (NewFilter n p) < 256.
Proof.
  unfold NewFilter. cbn [k]. set (x := math_Round _).
  assert (0 <= float_to_uint 8 x < 256) as Hr.
  { unfold float_to_uint. change 256 with (2 ^ 8).
    destruct (sf_trunc (Prim2SF x)) as [z|]; [|apply Z.mod_pos_bound; lia].
    destruct (Z.leb_spec 0 z); cbn [andb]; [|apply Z.mod_pos_bound; lia].
    destruct (Z.ltb_spec z (2 ^ 8)); [lia|apply Z.mod_pos_bound; lia]. }
  destruct (Z.eqb_spec (float_to_uint 8 x) 0); lia.
Qed.

(** C19. The filter answers exactly: after any additions it accepts a key if and only if each of the
    key's probes was hit by a probe of some added key; in particular it accepts every added key. *)
Theorem Contains_exact `{FloatEnv} n p keys :
  0 < m (NewFilter n p) <= 2 ^ 32 - 8 ->
  ∃ f, Add_all (NewFilter n p) keys = Ok f ∧
    ∀ key, ∃ b, Contains f key = Ok b ∧
      (b = true <-> ∀ i, 0 <= i < k f ->
         ∃ key' j, key' ∈ keys ∧ 0 <= j < k f ∧ probe (m f) key i = probe (m f) key' j) ∧
      (key ∈ keys -> b = true).
Proof.
  intros Hm. destruct (wf_NewFilter n p Hm) as [Hwf Hl]. pose proof (NewFilter_k n p) as Hk.
  destruct (Add_all_spec (NewFilter n p) keys Hwf ltac:(lia)) as (bs & E & Hlb & Hb).
  eexists. split; [exact E|]. intros key. clear E.
  assert (∀ j, bit (bits (NewFilter n p)) j = false) as Hz by (intros j; apply bit_zeros).
  revert Hm Hwf Hl Hk Hlb Hb Hz. generalize (NewFilter n p) as f0. intros f0 Hm Hwf Hl Hk Hlb Hb Hz. set (f := mkFilter bs _ _).
  assert (wf_filter f) as Hf by (destruct Hwf; split; cbn; [done|by rewrite Hlb]).
  destruct (Contains_spec f key Hf ltac:(cbn; lia)) as (b & Ec & Hc).
  assert (b = true <-> ∀ i, 0 <= i < k f ->
    ∃ key' j, key' ∈ keys ∧ 0 <= j < k f ∧ probe (m f) key i = probe (m f) key' j) as Hbb.
  { rewrite Hc. split; intros Hp i Hi; specialize (Hp i Hi); cbn in *;
      pose proof (probe_range key f i Hf) as Hpr; cbn in Hpr.
    - apply Hb in Hp as [Hp|Hp]; [|naive_solver|lia]. by rewrite Hz in Hp.
    - apply Hb; [lia|]. right. naive_solver. }
  exists b. split_and!; [done..|]. intros Hin. apply Hbb. intros i Hi. by exists key, i.
Qed.

(** A logarithm table good enough for the default probability. *)
#[local] Instance example_env : FloatEnv := {
  math_Log := fun x => if PrimFloat.eqb x 1 then 0%float else (-4.605170185988091)%float;
  unrepresentable := fun _ _ => 0
}.

Definition example_rate : float := 0.01.

Lemma example_filter_m : m (NewFilter 1000 example_rate) = 9586.
Proof. vm_compute. reflexivity. Qed.

Lemma Contains_exact_witness :
  m (NewFilter 1000 example_rate) = 9586 ∧ k (NewFilter 1000 example_rate) = 7 ∧
  ∃ f, Add_all (NewFilter 1000 example_rate) [[Byte.x61]; [Byte.x62]] = Ok f ∧
    ∀ key, ∃ b, Contains f key = Ok b ∧
      (b = true <-> ∀ i, 0 <= i < k f ->
         ∃ key' j, key' ∈ [[Byte.x61]; [Byte.x62]] ∧ 0 <= j < k f ∧
           probe (m f) key i = probe (m f) key' j) ∧
      (key ∈ [[Byte.x61]; [Byte.x62]] -> b = true).
Proof.
  split_and!; [vm_compute; reflexivity..|].
  apply (Contains_exact 1000 example_rate [[Byte.x61]; [Byte.x62]]).
  rewrite example_filter_m. lia.
Defined.

(** C37. Encoding never panics; decoding accepts exactly the layouts of filters, whatever follows them,
    and returns the filter laid out; any other input is an error. *)
Theorem Filter_codec data f :
  EncodeFilter f = Ok (filter_bytes f) ∧
  (DecodeFilter data = Ok f <-> enc_filter f ∧ ∃ rest, data = filter_bytes f ++ rest) ∧
  safe (DecodeFilter data).
Proof.
  split; [apply EncodeFilter_spec|].
  pose proof (DecodeFilter_cases data) as [(f' & rest & E & -> & Hf)|E]; rewrite E; (split; [|done]).
  - split; [intros [= <-]; eauto|]. intros (Hf' & rest' & Eb). rewrite Eb in E.
    by rewrite DecodeFilter_filter_bytes in E.
  - split; [done|]. intros (Hf' & rest' & ->). by rewrite DecodeFilter_filter_bytes in E.
Qed.

(** C38. With a false positive rate of 1 the filter has no bits, and adding any key divides by zero. *)
Theorem Add_no_bits_panics `{FloatEnv} n key :
  m (NewFilter n 1) = 0 -> Add (NewFilter n 1) key = Panic.
Proof.
  intros Hm. unfold Add. pose proof (NewFilter_k n 1) as Hk.
  destruct (Z.to_nat (k (NewFilter n 1))) as [|x] eqn:E; [lia|]. cbn [Add_loop].
  unfold umod. by rewrite Hm.
Qed.

Lemma Add_no_bits_panics_witness :
  m (NewFilter 1000 1) = 0 ∧ Add (NewFilter 1000 1) [Byte.x61] = Panic.
Proof.
  assert (m (NewFilter 1000 1) = 0) as E by (vm_compute; reflexivity).
  split; [exact E|exact (Add_no_bits_panics 1000 [Byte.x61] E)].
Defined.
