(* ===== verification/Blocks.v ===== *)
(** * Package sstable: blocks, index and footer

    [block.go], [index.go] and [footer.go]: the decoders and encoders of the parts of a table file,
    with the layouts they read and write. *)

From S2P Require Import Prelude.
From S2P Require Import GoStd.
From S2P Require Import Records.

(** ** Data blocks: [total_size(4)][num_entries(4)][[entry_len(4)][entry]...][crc32(4)] *)

Record Block := mkBlock { entries : list Rec }.

(** The entries from [off] on, [n] of them. *)
Fixpoint decodeBlock_loop (b : bytes) (sumOffset : Z) (n : nat) (off : Z) : res (list Rec) :=
  match n with
  | O => Ok []
  | S n =>
      if sumOffset <? off + 4 then Err ErrCorruptRecord else
      entrySize ← Uint32 b off;
      let off := off + 4 in
      if len b <? off + entrySize then Err ErrCorruptRecord else
      data ← slice b off (off + entrySize);
      rec ← DecodeRecord data;
      let off := off + entrySize in
      rest ← decodeBlock_loop b sumOffset n off;
      Ok (rec :: rest)
  end.

Definition decodeBlock (b : bytes) : res Block :=
  if len b <? 12 then Err ErrCorruptRecord else
  let sumOffset := len b - 4 in
  expectedChecksum ← Uint32 b sumOffset;
  body ← slice b 0 sumOffset;
  let actualChecksum := crc32_ChecksumIEEE body in
  if negb (expectedChecksum =? actualChecksum) then Err ErrCorruptRecord else
  let off := 0 in
  let off := off + 4 in
  numEntries ← Uint32 b off;
  let off := off + 4 in
  es ← decodeBlock_loop b sumOffset (Z.to_nat numEntries) off;
  Ok (mkBlock es).

(** ** The index block: [num_entries(4)][[entry_len(4)][entry]...] *)

Record IndexEntry := mkIE { SeparatorKey : InternalKey; BlockOffset : Z; BlockSize : Z }.

Record IndexBlock := mkIB { ientries : list IndexEntry }.

(** [block_offset(8)][block_size(4)][separator_key...] *)
Definition encodeIndexEntry (e : IndexEntry) : res bytes :=
  let keySize := KeySize (SeparatorKey e) in
  let buf := zeros (8 + 4 + keySize) in
  let off := 0 in
  buf ← PutUint64 buf off (BlockOffset e);
  let off := off + 8 in
  buf ← PutUint32 buf off (BlockSize e);
  let off := off + 4 in
  '(buf, _) ← EncodeInternalKey buf off (SeparatorKey e);
  Ok buf.

Fixpoint encodeIndexEntries (es : list IndexEntry) : res (list bytes) :=
  match es with
  | [] => Ok []
  | e :: es => b ← encodeIndexEntry e; bs ← encodeIndexEntries es; Ok (b :: bs)
  end.

Fixpoint encodeIndexBlock_loop (encoded : list bytes) (buf : bytes) (off : Z) : res bytes :=
  match encoded with
  | [] => Ok buf
  | eb :: encoded =>
      buf ← PutUint32 buf off (u32 (len eb));
      let off := off + 4 in
      buf ← copy_at buf off eb;
      let off := off + len eb in
      encodeIndexBlock_loop encoded buf off
  end.

Definition encodeIndexBlock (b : IndexBlock) : res bytes :=
  encoded ← encodeIndexEntries (ientries b);
  let total := foldl (fun total eb => total + (4 + len eb)) 4 encoded in
  let buf := zeros total in
  let off := 0 in
  buf ← PutUint32 buf off (u32 (len (ientries b)));
  let off := off + 4 in
  encodeIndexBlock_loop encoded buf off.

Definition decodeIndexEntry (b : bytes) : res IndexEntry :=
  if len b <? 12 then Err ErrCorruptRecord else
  let off := 0 in
  blockOffset ← Uint64 b off;
  let off := off + 8 in
  blockSize ← Uint32 b off;
  let off := off + 4 in
  '(sepKey, _) ← DecodeInternalKey b off;
  Ok (mkIE sepKey blockOffset blockSize).

Fixpoint decodeIndexBlock_loop (b : bytes) (n : nat) (off : Z) : res (list IndexEntry) :=
  match n with
  | O => Ok []
  | S n =>
      if len b <? off + 4 then Err ErrCorruptRecord else
      entrySize ← Uint32 b off;
      let off := off + 4 in
      if len b <? off + entrySize then Err ErrCorruptRecord else
      data ← slice b off (off + entrySize);
      entry ← decodeIndexEntry data;
      let off := off + entrySize in
      rest ← decodeIndexBlock_loop b n off;
      Ok (entry :: rest)
  end.

Definition decodeIndexBlock (b : bytes) : res IndexBlock :=
  if len b <? 4 then Err ErrCorruptRecord else
  let off := 0 in
  numEntries ← Uint32 b off;
  let off := off + 4 in
  es ← decodeIndexBlock_loop b (Z.to_nat numEntries) off;
  Ok (mkIB es).

(** ** The footer *)

Definition Magic : Z := 0xdbb5a3c4f1e2d678.
Definition FooterSize : Z := 8 + 4 + 8 + 4 + 8.

Record Footer := mkFooter {
  IndexOffset : Z;
  IndexSize : Z;
  FilterOffset : Z;
  FilterSize : Z;
  FMagic : Z
}.

Definition encodeFooter (f : Footer) : res bytes :=
  let buf := zeros FooterSize in
  let off := 0 in
  buf ← PutUint64 buf off (IndexOffset f);
  let off := off + 8 in
  buf ← PutUint32 buf off (IndexSize f);
  let off := off + 4 in
  buf ← PutUint64 buf off (FilterOffset f);
  let off := off + 8 in
  buf ← PutUint32 buf off (FilterSize f);
  let off := off + 4 in
  PutUint64 buf off (FMagic f).

Definition decodeFooter (b : bytes) : res Footer :=
  if len b <? FooterSize then Err (ErrText "footer: buffer too small") else
  let off := 0 in
  indexOffset ← Uint64 b off;
  let off := off + 8 in
  indexSize ← Uint32 b off;
  let off := off + 4 in
  filterOffset ← Uint64 b off;
  let off := off + 8 in
  filterSize ← Uint32 b off;
  let off := off + 4 in
  magic ← Uint64 b off;
  if negb (magic =? Magic) then Err (ErrText "footer: corrupt sstable") else
  Ok (mkFooter indexOffset indexSize filterOffset filterSize magic).

(** ** Specification: the layouts *)

Definition framed (p : bytes) : bytes := le_bytes 4 (len p) ++ p.

Definition block_size (es : list Rec) : Z := 12 + len (concat (map (fun r => framed (record_bytes r)) es)).

Definition block_body (es : list Rec) : bytes :=
  le_bytes 4 (block_size es) ++ le_bytes 4 (len es) ++
  concat (map (fun r => framed (record_bytes r)) es).

Definition block_bytes (es : list Rec) : bytes :=
  block_body es ++ le_bytes 4 (crc32_ChecksumIEEE (block_body es)).

Definition index_entry_bytes (e : IndexEntry) : bytes :=
  le_bytes 8 (BlockOffset e) ++ le_bytes 4 (BlockSize e) ++ key_bytes (SeparatorKey e).

Definition index_bytes (es : list IndexEntry) : bytes :=
  le_bytes 4 (len es) ++ concat (map (fun e => framed (index_entry_bytes e)) es).

Definition footer_bytes (f : Footer) : bytes :=
  le_bytes 8 (IndexOffset f) ++ le_bytes 4 (IndexSize f) ++ le_bytes 8 (FilterOffset f) ++
  le_bytes 4 (FilterSize f) ++ le_bytes 8 (FMagic f).

Definition wf_index_entry (e : IndexEntry) : Prop :=
  wf_key (SeparatorKey e) ∧ len (UserKey (SeparatorKey e)) + 25 < 2 ^ 32 ∧
  0 <= BlockOffset e < 2 ^ 64 ∧ 0 <= BlockSize e < 2 ^ 32.

Definition wf_footer (f : Footer) : Prop :=
  0 <= IndexOffset f < 2 ^ 64 ∧ 0 <= IndexSize f < 2 ^ 32 ∧ 0 <= FilterOffset f < 2 ^ 64 ∧
  0 <= FilterSize f < 2 ^ 32 ∧ FMagic f = Magic.

Lemma len_framed p : len (framed p) = 4 + len p.
Proof. unfold framed. len_lia. Qed.

Lemma len_index_entry_bytes e : len (index_entry_bytes e) = 25 + len (UserKey (SeparatorKey e)).
Proof. unfold index_entry_bytes. len_lia. Qed.

Lemma len_block_body es : len (block_body es) = block_size es - 4.
Proof. unfold block_body, block_size. len_lia. Qed.

Lemma len_block_bytes es : len (block_bytes es) = block_size es.
Proof. unfold block_bytes. rewrite len_app, len_block_body. len_lia. Qed.

Lemma len_footer_bytes f : len (footer_bytes f) = FooterSize.
Proof. unfold footer_bytes, FooterSize. len_lia. Qed.

#[export] Hint Rewrite len_framed len_index_entry_bytes len_block_body len_block_bytes
  len_footer_bytes : len.

(** ** Encoding *)

Lemma encodeFooter_spec f : encodeFooter f = Ok (footer_bytes f).
Proof.
  unfold encodeFooter, PutUint64, PutUint32. change (zeros FooterSize) with ([] ++ zeros FooterSize).
  assert (len (zeros FooterSize) = 32) as Hn by done.
  do 4 put_step. rewrite put_at_app by len_lia.
  rewrite drop_ge; [|unfold len in *; rewrite !drop_drop, length_drop, !length_le_bytes; lia].
  unfold footer_bytes. by rewrite app_nil_r, <- !app_assoc.
Qed.

Lemma encodeIndexEntry_spec e :
  wf_index_entry e -> encodeIndexEntry e = Ok (index_entry_bytes e).
Proof.
  intros (_ & H & _). unfold encodeIndexEntry, PutUint64, PutUint32.
  rewrite KeySize_exact by lia. rewrite len_key_bytes. set (n := 8 + 4 + _).
  pose proof (len_nonneg (UserKey (SeparatorKey e))).
  assert (len (zeros n) = n) as Hn by (apply len_zeros; lia).
  change (zeros n) with ([] ++ zeros n). do 2 put_step.
  rewrite EncodeInternalKey_app; [|len_lia|len_lia]. cbn [mbind res_bind].
  rewrite drop_ge; [|unfold len in *; rewrite !drop_drop, length_drop, !length_le_bytes;
    pose proof (len_key_bytes (SeparatorKey e)) as Hk; unfold len in Hk; lia].
  unfold index_entry_bytes. by rewrite app_nil_r, <- !app_assoc.
Qed.

Lemma encodeIndexEntries_spec es :
  Forall wf_index_entry es -> encodeIndexEntries es = Ok (map index_entry_bytes es).
Proof.
  induction 1 as [|e es He _ IH]; [done|]. cbn [encodeIndexEntries map].
  rewrite encodeIndexEntry_spec by done. cbn [mbind res_bind]. by rewrite IH.
Qed.

Lemma encodeIndexBlock_loop_spec encoded p tl off :
  len p = off -> len tl = len (concat (map framed encoded)) ->
  encodeIndexBlock_loop encoded (p ++ tl) off = Ok (p ++ concat (map framed encoded)).
Proof.
  revert p tl off. induction encoded as [|eb encoded IH]; intros p tl off Hp Htl.
  - apply len_zero_inv in Htl as ->. done.
  - cbn [encodeIndexBlock_loop map concat] in *. autorewrite with len in Htl.
    pose proof (len_nonneg (concat (map framed encoded))). pose proof (len_nonneg eb).
    unfold PutUint32. rewrite le_bytes_u32. do 2 put_step.
    rewrite IH; [|len_lia|rewrite !len_drop_max; len_lia].
    unfold framed. by rewrite <- !app_assoc.
Qed.

Lemma foldl_index_total (encoded : list bytes) n :
  foldl (fun total eb => total + (4 + len eb)) n encoded = n + len (concat (map framed encoded)).
Proof.
  revert n. induction encoded as [|eb encoded IH]; intros n; cbn [foldl map concat].
  - len_lia.
  - rewrite IH. len_lia.
Qed.

Lemma encodeIndexBlock_spec es :
  Forall wf_index_entry es -> encodeIndexBlock (mkIB es) = Ok (index_bytes es).
Proof.
  intros H. unfold encodeIndexBlock. cbn [ientries]. rewrite encodeIndexEntries_spec by done.
  cbn [mbind res_bind]. cbv zeta. rewrite foldl_index_total. set (c := concat _).
  pose proof (len_nonneg c). assert (len (zeros (4 + len c)) = 4 + len c) as Hn
    by (apply len_zeros; lia).
  unfold PutUint32. rewrite le_bytes_u32. change (zeros (4 + len c)) with ([] ++ zeros (4 + len c)).
  put_step. rewrite encodeIndexBlock_loop_spec; [|done|fold c; rewrite len_drop_max; len_lia].
  unfold index_bytes. by rewrite map_map.
Qed.

(** ** Decoding *)

Lemma decodeFooter_footer_bytes f rest :
  wf_footer f -> decodeFooter (footer_bytes f ++ rest) = Ok f.
Proof.
  intros (H1 & H2 & H3 & H4 & H5). remember (footer_bytes f ++ rest) as data eqn:E.
  pose proof (at_off_start data) as H. rewrite E in H at 2. clear E.
  unfold footer_bytes in H. rewrite <- !app_assoc in H. unfold decodeFooter.
  rewrite (proj2 (Z.ltb_ge (len data) _)) by (pose proof (at_off_len _ _ _ H); unfold FooterSize; len_lia).
  do 5 decode_step H. rewrite H5. change (u64 Magic =? Magic) with true. cbn [negb].
  rewrite !u32_small, !u64_small by lia. change (u64 Magic) with Magic. destruct f. cbn in *. by subst.
Qed.

Lemma decodeFooter_cases data :
  (∃ f rest, decodeFooter data = Ok f ∧ data = footer_bytes f ++ rest ∧ wf_footer f) ∨
  ∃ e, decodeFooter data = Err e.
Proof.
  assert (∃ tl, at_off data 0 tl ∧ data = tl) as (tl & H & Htl) by eauto using at_off_start.
  unfold decodeFooter, FooterSize. destruct (Z.ltb_spec (len data) (8 + 4 + 8 + 4 + 8)); [eauto|].
  do 5 decode_cases H. destruct (Z.eqb_spec v3 Magic) as [->|]; [|cbn; eauto]. cbn [negb].
  left. eexists (mkFooter _ _ _ _ _), _. split_and!; [reflexivity|..].
  - rewrite Htl. unfold footer_bytes. cbn [IndexOffset IndexSize FilterOffset FilterSize FMagic]. by rewrite <- !app_assoc.
  - unfold wf_footer. cbn. done.
Qed.

Lemma decodeIndexEntry_index_entry_bytes e rest :
  wf_index_entry e -> decodeIndexEntry (index_entry_bytes e ++ rest) = Ok e.
Proof.
  intros (Hk & _ & Ho & Hs). remember (index_entry_bytes e ++ rest) as data eqn:E.
  pose proof (at_off_start data) as H. rewrite E in H at 2. clear E.
  unfold index_entry_bytes in H. rewrite <- !app_assoc in H. unfold decodeIndexEntry.
  check_ok H. do 2 decode_step H. rewrite u32_small, u64_small by lia.
  rewrite (DecodeInternalKey_key_bytes _ _ _ _ Hk H). cbn. by destruct e.
Qed.

Lemma decodeIndexEntry_cases data :
  (∃ e rest, decodeIndexEntry data = Ok e ∧ data = index_entry_bytes e ++ rest ∧
     wf_key (SeparatorKey e)) ∨ decodeIndexEntry data = Err ErrCorruptRecord.
Proof.
  assert (∃ tl, at_off data 0 tl ∧ data = tl) as (tl & H & Htl) by eauto using at_off_start.
  unfold decodeIndexEntry. repeat decode_cases H.
  destruct (DecodeInternalKey_cases _ _ _ H) as [(sep & rest1 & -> & Er & Hk)| ->]; [left|by right].
  cbn [mbind res_bind]. eexists (mkIE _ _ _), _. split_and!; [reflexivity| |done].
  rewrite Htl, Er. unfold index_entry_bytes. cbn [BlockOffset BlockSize SeparatorKey]. by rewrite <- !app_assoc.
Qed.

Lemma framed_app p rest : framed p ++ rest = le_bytes 4 (len p) ++ p ++ rest.
Proof. unfold framed. by rewrite <- app_assoc. Qed.

Lemma decodeIndexBlock_loop_spec es b off rest :
  Forall wf_index_entry es -> at_off b off (concat (map (fun e => framed (index_entry_bytes e)) es) ++ rest) ->
  decodeIndexBlock_loop b (length es) off = Ok es.
Proof.
  intros Hes. revert off. induction Hes as [|e es He _ IH]; intros off H; [done|].
  cbn [map concat length decodeIndexBlock_loop] in *. rewrite <- app_assoc, framed_app in H.
  pose proof (len_index_entry_bytes e) as Hl. destruct He as (Hk & Hs & Hr).
  pose proof (len_nonneg (UserKey (SeparatorKey e))).
  check_ok H. decode_step H. rewrite u32_small by lia. check_ok H. decode_step H.
  rewrite <- (app_nil_r (index_entry_bytes e)), decodeIndexEntry_index_entry_bytes by done.
  cbn [mbind res_bind]. rewrite app_nil_r. rewrite IH by done. done.
Qed.

Lemma decodeIndexBlock_index_bytes es rest :
  Forall wf_index_entry es -> len es < 2 ^ 32 ->
  decodeIndexBlock (index_bytes es ++ rest) = Ok (mkIB es).
Proof.
  intros Hes Hl. remember (index_bytes es ++ rest) as data eqn:E.
  pose proof (at_off_start data) as H. rewrite E in H at 2. clear E.
  unfold index_bytes in H. rewrite <- !app_assoc in H. unfold decodeIndexBlock. pose proof (len_nonneg es).
  check_ok H. decode_step H. rewrite u32_small by lia.
  unfold len at 1. rewrite Nat2Z.id. by rewrite (decodeIndexBlock_loop_spec _ _ _ _ Hes H).
Qed.

Lemma decodeBlock_loop_spec es b sumOffset off rest :
  Forall small_rec es ->
  at_off b off (concat (map (fun r => framed (record_bytes r)) es) ++ rest) ->
  off + len (concat (map (fun r => framed (record_bytes r)) es)) <= sumOffset ->
  decodeBlock_loop b sumOffset (length es) off = Ok (map normalize es).
Proof.
  intros Hes. revert off. induction Hes as [|r es Hr _ IH]; intros off H Hs; [done|].
  cbn [map concat length decodeBlock_loop] in *. rewrite <- app_assoc, framed_app in H.
  pose proof (len_record_bytes r) as Hl. destruct Hr as [Hwf Hsm].
  pose proof (len_nonneg (UserKey r)). pose proof (len_nonneg (sbytes (Value r))).
  set (c := concat _) in *. pose proof (len_nonneg c).
  rewrite !len_app, len_framed in Hs.
  rewrite (proj2 (Z.ltb_ge sumOffset _)) by lia. decode_step H. rewrite u32_small by lia.
  check_ok H. decode_step H.
  rewrite <- (app_nil_r (record_bytes r)), DecodeRecord_record_bytes by done.
  cbn [mbind res_bind]. rewrite app_nil_r. rewrite IH; [done|done|lia].
Qed.

(** The checksum splits off the body. *)
Lemma decodeBlock_split body c :
  8 <= len body ->
  decodeBlock (body ++ le_bytes 4 c) =
    if negb (u32 c =? crc32_ChecksumIEEE body) then Err ErrCorruptRecord
    else
      numEntries ← Uint32 (body ++ le_bytes 4 c) 4;
      es ← decodeBlock_loop (body ++ le_bytes 4 c) (len body) (Z.to_nat numEntries) 8;
      Ok (mkBlock es).
Proof.
  intros Hb. unfold decodeBlock. assert (len (body ++ le_bytes 4 c) = len body + 4) as Hl by len_lia.
  rewrite Hl. rewrite (proj2 (Z.ltb_ge _ _)) by lia. rewrite Z.add_simpl_r. cbv zeta.
  assert (at_off (body ++ le_bytes 4 c) (len body) (le_bytes 4 c ++ [])) as H
    by (exists body; by rewrite app_nil_r).
  rewrite (Uint32_at _ _ _ _ H). cbn [mbind res_bind].
  pose proof (slice_at_app _ _ _ _ (at_off_start (body ++ le_bytes 4 c))) as Hs.
  rewrite Z.add_0_l in Hs. rewrite Hs. cbn [mbind res_bind]. done.
Qed.

Lemma decodeBlock_block_bytes es :
  Forall small_rec es -> len es < 2 ^ 32 -> decodeBlock (block_bytes es) = Ok (mkBlock (map normalize es)).
Proof.
  intros Hes Hl. unfold block_bytes. pose proof (len_block_body es) as Hbb.
  assert (12 <= block_size es) as Hn.
  { unfold block_size. pose proof (len_nonneg (concat (map (fun r => framed (record_bytes r)) es))). lia. }
  rewrite decodeBlock_split by lia. rewrite u32_small by apply crc32_range. rewrite Z.eqb_refl.
  cbn [negb]. set (data := block_body es ++ _).
  assert (at_off data 0 (block_body es ++ le_bytes 4 (crc32_ChecksumIEEE (block_body es)))) as H
    by (apply at_off_start).
  unfold block_body at 1 in H. rewrite <- !app_assoc in H.
  apply (at_off_le_bytes 4) in H. change (0 + Z.of_nat 4) with 4 in H. pose proof (len_nonneg es).
  decode_step H. rewrite u32_small by lia. unfold len at 2. rewrite Nat2Z.id.
  rewrite (decodeBlock_loop_spec _ _ _ _ _ Hes H); [done|]. rewrite Hbb. unfold block_size. lia.
Qed.

(** *** Decoders never panic *)

Lemma at_off_at b off : 0 <= off <= len b -> at_off b off (drop (Z.to_nat off) b).
Proof. intros H. apply (at_off_drop b 0 off b); [apply at_off_start|done]. Qed.

Lemma decodeBlock_loop_safe b sumOffset n off :
  0 <= off <= len b -> sumOffset <= len b -> safe (decodeBlock_loop b sumOffset n off).
Proof.
  intros Ho Hs. revert off Ho. induction n as [|n IH]; intros off Ho; cbn [decodeBlock_loop]; [done|].
  pose proof (at_off_at b off Ho) as H.
  destruct (Z.ltb_spec sumOffset (off + 4)); [done|].
  destruct (Uint32_inv b off _ H) as (v & rest & -> & _ & Hv & Ha); [lia|]. cbn [mbind res_bind].
  destruct (Z.ltb_spec (len b) (off + 4 + v)); [done|].
  destruct (slice_inv b (off + 4) v _ Ha) as (c & rest' & -> & _ & Hc & _); [lia..|].
  cbn [mbind res_bind]. destruct (DecodeRecord_cases c) as [(r & ? & -> & _)| ->]; [|done].
  cbn [mbind res_bind]. specialize (IH (off + 4 + v) ltac:(lia)). unfold safe in *.
  destruct (decodeBlock_loop _ _ _ _); done.
Qed.

Lemma decodeIndexBlock_loop_safe b n off :
  0 <= off <= len b -> safe (decodeIndexBlock_loop b n off).
Proof.
  intros Ho. revert off Ho. induction n as [|n IH]; intros off Ho; cbn [decodeIndexBlock_loop]; [done|].
  pose proof (at_off_at b off Ho) as H.
  destruct (Z.ltb_spec (len b) (off + 4)); [done|].
  destruct (Uint32_inv b off _ H) as (v & rest & -> & _ & Hv & Ha); [lia|]. cbn [mbind res_bind].
  destruct (Z.ltb_spec (len b) (off + 4 + v)); [done|].
  destruct (slice_inv b (off + 4) v _ Ha) as (c & rest' & -> & _ & Hc & _); [lia..|].
  cbn [mbind res_bind]. destruct (decodeIndexEntry_cases c) as [(r & ? & -> & _)| ->]; [|done].
  cbn [mbind res_bind]. specialize (IH (off + 4 + v) ltac:(lia)). unfold safe in *.
  destruct (decodeIndexBlock_loop _ _ _); done.
Qed.

Lemma decodeIndexBlock_safe b : safe (decodeIndexBlock b).
Proof.
  unfold decodeIndexBlock. destruct (Z.ltb_spec (len b) 4); [done|].
  destruct (Uint32_inv b 0 _ (at_off_start b)) as (v & rest & -> & _ & Hv & _); [lia|].
  cbn [mbind res_bind]. pose proof (decodeIndexBlock_loop_safe b (Z.to_nat v) (0 + 4) ltac:(lia)) as H1.
  unfold safe in *. destruct (decodeIndexBlock_loop _ _ _); done.
Qed.

(** ** What the formats guarantee *)

(** C21. A block decodes to the records it was laid out from.  Whatever a block of at least twelve bytes
    holds, decoding does not panic, and it is rejected unless its last four bytes are the checksum
    of what precedes them. *)
Theorem decodeBlock_checked es body c :
  Forall small_rec es -> len es < 2 ^ 32 -> 8 <= len body ->
  decodeBlock (block_bytes es) = Ok (mkBlock (map normalize es)) ∧
  safe (decodeBlock (body ++ le_bytes 4 c)) ∧
  (u32 c ≠ crc32_ChecksumIEEE body -> decodeBlock (body ++ le_bytes 4 c) = Err ErrCorruptRecord).
Proof.
  intros Hes Hl Hb. split; [by apply decodeBlock_block_bytes|].
  rewrite decodeBlock_split by done.
  destruct (Z.eqb_spec (u32 c) (crc32_ChecksumIEEE body)) as [E|E]; cbn [negb]; [|done].
  split; [|done]. set (data := body ++ _).
  assert (len data = len body + 4) as Hd by (subst data; len_lia).
  destruct (Uint32_inv data 4 _ (at_off_at data 4 ltac:(lia))) as (v & rest & -> & _ & Hv & _); [lia|].
  cbn [mbind res_bind]. pose proof (decodeBlock_loop_safe data (len body) (Z.to_nat v) 8
    ltac:(lia) ltac:(lia)) as H1.
  unfold safe in *. by destruct (decodeBlock_loop _ _ _ _).
Qed.

Definition example_recs : list Rec :=
  [mkRec (mkIK [Byte.x61] 3 TypePut) (Some [Byte.x31]); mkRec (mkIK [Byte.x62] 2 TypeDel) None].

Lemma decodeBlock_checked_witness :
  decodeBlock (block_bytes example_recs) = Ok (mkBlock (map normalize example_recs)) ∧
  decodeBlock (zeros 8 ++ le_bytes 4 5) = Err ErrCorruptRecord.
Proof.
  destruct (decodeBlock_checked example_recs (zeros 8) 5) as (H1 & _ & H2).
  - by apply (bool_decide_unpack _).
  - done.
  - done.
  - split; [exact H1|]. apply H2. vm_compute. done.
Defined.

(** C33. The index and the footer: the encoders write the layouts without panicking, the decoders invert
    them whatever follows, and never panic on any input. *)
Theorem index_footer_codec es f rest :
  Forall wf_index_entry es -> len es < 2 ^ 32 -> wf_footer f ->
  encodeIndexBlock (mkIB es) = Ok (index_bytes es) ∧
  decodeIndexBlock (index_bytes es ++ rest) = Ok (mkIB es) ∧
  encodeFooter f = Ok (footer_bytes f) ∧ decodeFooter (footer_bytes f ++ rest) = Ok f ∧
  safe (decodeIndexBlock rest) ∧ safe (decodeFooter rest).
Proof.
  intros Hes Hl Hf. split_and!.
  - by apply encodeIndexBlock_spec.
  - by apply decodeIndexBlock_index_bytes.
  - apply encodeFooter_spec.
  - by apply decodeFooter_footer_bytes.
  - apply decodeIndexBlock_safe.
  - destruct (decodeFooter_cases rest) as [(? & ? & -> & _)|[? ->]]; done.
Qed.

Definition example_index : list IndexEntry := [mkIE (mkIK [Byte.x61] 3 1) 0 40; mkIE (mkIK [Byte.x62] 2 0) 40 41].
Definition example_footer : Footer := mkFooter 81 60 141 20 Magic.

Lemma index_footer_codec_witness :
  encodeIndexBlock (mkIB example_index) = Ok (index_bytes example_index) ∧
  decodeIndexBlock (index_bytes example_index ++ [Byte.x00]) = Ok (mkIB example_index) ∧
  encodeFooter example_footer = Ok (footer_bytes example_footer) ∧
  decodeFooter (footer_bytes example_footer ++ [Byte.x00]) = Ok example_footer ∧
  safe (decodeIndexBlock [Byte.x00]) ∧ safe (decodeFooter [Byte.x00]).
Proof.
  apply (index_footer_codec example_index example_footer [Byte.x00]).
  - repeat constructor; cbn; lia.
  - done.
  - unfold wf_footer. cbn. done.
Defined.
