(* ===== verification/BlockCache.v ===== *)
(** * Package sstable: the block cache

    [block_cache.go]: an LRU over container/list.  List elements are pointers shared by the list and
    the map, so they are numbered objects: [elems] holds their values, [order] is the list from
    front to back, [items] the map from block keys to elements. *)

From S2P Require Import Prelude.
From S2P Require Import GoStd.
From S2P Require Import Records.
From S2P Require Import Blocks.

(** [(fileNum, offset)] *)
Abbreviation blockKey := (Z * Z)%type.

Record entry := mkEntry { ekey : blockKey; evalue : Block }.

Record LRU := mkLRU {
  cap : Z;
  order : list nat;
  elems : gmap nat entry;
  next : nat;
  items : gmap blockKey nat
}.

Definition newLRU (cap : Z) : LRU := mkLRU cap [] ∅ 0 ∅.

(** list.MoveToFront: nothing happens if the element is not in the list. *)
Definition MoveToFront (c : LRU) (ele : nat) : LRU :=
  if decide (ele ∈ order c)
  then mkLRU (cap c) (ele :: filter (λ e, e ≠ ele) (order c)) (elems c) (next c) (items c)
  else c.

(** list.PushFront of a new element. *)
Definition PushFront (c : LRU) (v : entry) : LRU * nat :=
  (mkLRU (cap c) (next c :: order c) (<[next c := v]> (elems c)) (S (next c)) (items c), next c).

(** [None] as a whole is a nil dereference. *)
Definition get (c : LRU) (fileNum offset : Z) : option (LRU * option Block) :=
  match items c !! (fileNum, offset) with
  | None => Some (c, None)
  | Some ele =>
      let c := MoveToFront c ele in
      e ← elems c !! ele;
      Some (c, Some (evalue e))
  end.

Definition evict (c : LRU) : option LRU :=
  match last (order c) with
  | None => Some c
  | Some ele =>
      e ← elems c !! ele;
      Some (mkLRU (cap c) (filter (λ x, x ≠ ele) (order c)) (elems c) (next c)
        (delete (ekey e) (items c)))
  end.

Definition set (c : LRU) (fileNum offset : Z) (data : Block) : option LRU :=
  let key := (fileNum, offset) in
  match items c !! key with
  | Some ele =>
      let c := MoveToFront c ele in
      e ← elems c !! ele;
      Some (mkLRU (cap c) (order c) (<[ele := mkEntry (ekey e) data]> (elems c)) (next c) (items c))
  | None =>
      let '(c, ele) := PushFront c (mkEntry key data) in
      let c := mkLRU (cap c) (order c) (elems c) (next c) (<[key := ele]> (items c)) in
      if cap c <? len (order c) then evict c else Some c
  end.

(** The exported type only adds a mutex. *)
Definition BlockCache : Type := LRU.
Definition NewBlockCache (maxBlocks : Z) : BlockCache := newLRU maxBlocks.
Definition Get (bc : BlockCache) (fileNum offset : Z) : option (BlockCache * option Block) :=
  get bc fileNum offset.
Definition Set_ (bc : BlockCache) (fileNum offset : Z) (data : Block) : option BlockCache :=
  set bc fileNum offset data.

(** ** Specification: the blocks with their keys, most recently used first *)

Definition spec_remove (k : blockKey) (l : list (blockKey * Block)) : list (blockKey * Block) :=
  filter (λ x, x.1 ≠ k) l.

Fixpoint spec_find (k : blockKey) (l : list (blockKey * Block)) : option Block :=
  match l with
  | [] => None
  | (k', v) :: l => if decide (k' = k) then Some v else spec_find k l
  end.

Definition spec_get (l : list (blockKey * Block)) (k : blockKey) :
    list (blockKey * Block) * option Block :=
  match spec_find k l with
  | Some v => ((k, v) :: spec_remove k l, Some v)
  | None => (l, None)
  end.

Definition spec_set (cap : Z) (l : list (blockKey * Block)) (k : blockKey) (v : Block) :
    list (blockKey * Block) :=
  take (Z.to_nat cap) ((k, v) :: spec_remove k l).

(** The cache [c] holds [l]. *)
Definition holds_at (m : gmap nat entry) (ele : nat) (x : blockKey * Block) : Prop :=
  ∃ e, m !! ele = Some e ∧ (ekey e, evalue e) = x.

Record caches (c : LRU) (l : list (blockKey * Block)) : Prop := {
  caches_order : Forall2 (holds_at (elems c)) (order c) l;
  caches_NoDup : NoDup (order c);
  caches_keys : NoDup (l.*1);
  caches_items : ∀ k ele, items c !! k = Some ele <->
    ele ∈ order c ∧ ∃ v, holds_at (elems c) ele (k, v);
  caches_next : ∀ ele e, elems c !! ele = Some e -> (ele < next c)%nat
}.

(** ** Lemmas *)

Lemma holds_at_fun m ele x y : holds_at m ele x -> holds_at m ele y -> x = y.
Proof. unfold holds_at. naive_solver congruence. Qed.

Lemma newLRU_caches cp : caches (newLRU cp) [].
Proof.
  split; cbn; [constructor|constructor|constructor| |done].
  intros k ele. rewrite lookup_empty. set_solver.
Qed.

Lemma caches_hit c l k ele :
  caches c l -> items c !! k = Some ele ->
  ∃ o1 o2 l1 l2 v, order c = o1 ++ ele :: o2 ∧ l = l1 ++ (k, v) :: l2 ∧
    Forall2 (holds_at (elems c)) o1 l1 ∧ Forall2 (holds_at (elems c)) o2 l2 ∧
    holds_at (elems c) ele (k, v).
Proof.
  intros Hc Hk. apply (caches_items c l Hc) in Hk as [Hin (v & Hv)].
  apply list_elem_of_split in Hin as (o1 & o2 & E). pose proof (caches_order c l Hc) as HF.
  rewrite E in HF. apply Forall2_app_inv_l in HF as (l1 & l2 & H1 & H2 & ->).
  apply Forall2_cons_inv_l in H2 as (x & l2' & Hx & H2 & ->).
  rewrite (holds_at_fun _ _ _ _ Hx Hv). by exists o1, o2, l1, l2', v.
Qed.

Lemma caches_miss c l k : caches c l -> items c !! k = None -> k ∉ l.*1.
Proof.
  intros Hc Hk Hin. apply list_elem_of_fmap in Hin as ([k' v] & -> & Hin). cbn in Hk.
  apply list_elem_of_lookup in Hin as (i & Hi).
  destruct (Forall2_lookup_r _ _ _ _ _ (caches_order c l Hc) Hi) as (ele & He & Hh).
  assert (items c !! k' = Some ele) as E; [|by rewrite Hk in E].
  apply (caches_items c l Hc). split; [|eauto]. by apply list_elem_of_lookup_2 in He.
Qed.

Lemma filter_split (o1 o2 : list nat) ele :
  NoDup (o1 ++ ele :: o2) -> filter (λ x, x ≠ ele) (o1 ++ ele :: o2) = o1 ++ o2.
Proof.
  intros (_ & Hni & [Hn2 _]%NoDup_cons)%NoDup_app. rewrite filter_app, filter_cons_False by naive_solver.
  f_equal; apply filter_all; set_solver.
Qed.

Lemma spec_remove_split l1 l2 k v :
  NoDup ((l1 ++ (k, v) :: l2).*1) -> spec_remove k (l1 ++ (k, v) :: l2) = l1 ++ l2.
Proof.
  rewrite fmap_app, fmap_cons. cbn. intros (_ & Hni & [Hn2 _]%NoDup_cons)%NoDup_app.
  unfold spec_remove. rewrite filter_app, filter_cons_False by naive_solver.
  f_equal; apply filter_all; intros [k' v'] Hin Heq; cbn in Heq; subst k';
    apply (list_elem_of_fmap_2 fst) in Hin; cbn in Hin; [by eapply Hni; [|left]|done].
Qed.

Lemma spec_remove_miss l k : k ∉ l.*1 -> spec_remove k l = l.
Proof.
  intros Hk. apply filter_all. intros [k' v] Hin Heq. cbn in Heq. subst k'.
  by apply Hk, (list_elem_of_fmap_2 fst _ (k, v)).
Qed.

Lemma spec_find_split l1 l2 k v : k ∉ l1.*1 -> spec_find k (l1 ++ (k, v) :: l2) = Some v.
Proof.
  induction l1 as [|[k' v'] l1 IH]; cbn; intros H; [by destruct (decide _)|].
  destruct (decide (k' = k)) as [->|]; [set_solver|]. apply IH. set_solver.
Qed.

Lemma spec_find_miss l k : k ∉ l.*1 -> spec_find k l = None.
Proof.
  induction l as [|[k' v'] l IH]; cbn; intros H; [done|].
  destruct (decide (k' = k)) as [->|]; [set_solver|]. apply IH. set_solver.
Qed.

(** Reordering the list and changing the value of one element in it. *)
Lemma caches_move c l1 l2 o1 o2 ele k v e' :
  caches c (l1 ++ (k, v) :: l2) -> order c = o1 ++ ele :: o2 ->
  Forall2 (holds_at (elems c)) o1 l1 -> Forall2 (holds_at (elems c)) o2 l2 ->
  holds_at (elems c) ele (k, v) -> ekey e' = k ->
  caches (mkLRU (cap c) (ele :: o1 ++ o2) (<[ele := e']> (elems c)) (next c) (items c))
    ((k, evalue e') :: l1 ++ l2).
Proof.
  intros Hc Eo H1 H2 Hv Hk. pose proof (caches_NoDup _ _ Hc) as Hn. rewrite Eo in Hn.
  assert (∀ o l, Forall2 (holds_at (elems c)) o l -> ele ∉ o ->
    Forall2 (holds_at (<[ele := e']> (elems c))) o l) as Hext.
  { intros o l HF Hni. eapply Forall2_impl_elem with (1 := HF). intros x y Hx (e & He & <-).
    exists e. by rewrite lookup_insert_ne by set_solver. }
  apply NoDup_app in Hn as (Hn1 & Hni & [Hn2 Hn3]%NoDup_cons).
  split; cbn.
  - constructor; [exists e'; rewrite lookup_insert_eq; by subst k|].
    apply Forall2_app; apply Hext; set_solver.
  - apply NoDup_cons. split; [set_solver|]. apply NoDup_app. set_solver.
  - pose proof (caches_keys _ _ Hc) as Hk'. rewrite fmap_app, fmap_cons in Hk'. cbn in Hk'.
    rewrite fmap_app. by rewrite Permutation_middle.
  - intros k' ele'. rewrite (caches_items _ _ Hc k' ele'), Eo. split.
    + intros [Hin (v' & Hv')]. split; [set_solver|].
      destruct (decide (ele' = ele)) as [->|Hne].
      * pose proof (holds_at_fun _ _ _ _ Hv Hv') as [= <- <-].
        exists (evalue e'), e'. rewrite lookup_insert_eq. by subst k.
      * destruct Hv' as (e & He & ?). exists v', e. by rewrite lookup_insert_ne by done.
    + intros [Hin (v' & e & He & [= Ek Ev])]. split; [set_solver|].
      destruct (decide (ele' = ele)) as [->|Hne].
      * rewrite lookup_insert_eq in He. injection He as <-. exists v. by rewrite <- Ek, Hk.
      * rewrite lookup_insert_ne in He by done. exists v', e. by subst.
  - intros ele' e He. destruct (decide (ele' = ele)) as [->|Hne].
    + destruct Hv as (e0 & He0 & _). by eapply caches_next.
    + rewrite lookup_insert_ne in He by done. by eapply caches_next.
Qed.

Lemma MoveToFront_split c o1 o2 ele :
  NoDup (order c) -> order c = o1 ++ ele :: o2 ->
  MoveToFront c ele = mkLRU (cap c) (ele :: o1 ++ o2) (elems c) (next c) (items c).
Proof.
  intros Hn Eo. unfold MoveToFront. rewrite decide_True by (rewrite Eo; set_solver).
  rewrite Eo in *. by rewrite filter_split.
Qed.

Lemma get_refines c l f o :
  caches c l ->
  ∃ c', get c f o = Some (c', (spec_get l (f, o)).2) ∧ caches c' (spec_get l (f, o)).1 ∧
    cap c' = cap c.
Proof.
  intros Hc. unfold get, spec_get. destruct (items c !! (f, o)) as [ele|] eqn:Ei.
  - destruct (caches_hit _ _ _ _ Hc Ei) as (o1 & o2 & l1 & l2 & v & Eo & -> & H1 & H2 & Hv).
    pose proof (caches_keys _ _ Hc) as Hk. rewrite spec_remove_split by done.
    rewrite fmap_app, fmap_cons in Hk. apply NoDup_app in Hk as (_ & Hk & _).
    rewrite spec_find_split by (intros Hin; eapply Hk; [done|left]).
    rewrite (MoveToFront_split c o1 o2) by (done || by eapply caches_NoDup). cbn [elems].
    pose proof Hv as (e & He & [= Ek Ev]). rewrite He. cbn. rewrite Ev.
    eexists. split_and!; [done| |done].
    pose proof (caches_move c l1 l2 o1 o2 ele (f, o) v e Hc Eo H1 H2 Hv Ek) as Hm.
    rewrite insert_id in Hm by done. by rewrite Ev in Hm.
  - rewrite spec_find_miss by by eapply caches_miss. by eexists.
Qed.

Lemma evict_refines c l x :
  caches c (l ++ [x]) -> ∃ c', evict c = Some c' ∧ caches c' l ∧ cap c' = cap c.
Proof.
  intros Hc. pose proof (caches_order _ _ Hc) as HF.
  apply Forall2_app_inv_r in HF as (o1 & o2 & H1 & H2 & Eo).
  apply Forall2_cons_inv_r in H2 as (ele & o2' & Hx & ->%Forall2_nil_inv_r & ->).
  unfold evict. rewrite Eo, last_snoc. destruct Hx as (e & He & <-). rewrite He. cbn.
  eexists. split_and!; [done| |done]. pose proof (caches_NoDup _ _ Hc) as Hn. rewrite Eo in Hn.
  rewrite (filter_split o1 [] ele) by done. rewrite app_nil_r.
  pose proof (caches_keys _ _ Hc) as Hk. rewrite fmap_app in Hk. cbn in Hk.
  apply NoDup_app in Hn as (Hn1 & Hn2 & _). apply NoDup_app in Hk as (Hk1 & Hk2 & _).
  split; cbn; [done|done|done| |by apply (caches_next _ _ Hc)].
  intros k' ele'. destruct (decide (k' = ekey e)) as [->|Hne].
  - rewrite lookup_delete_eq. split; [done|]. intros [Hin (v & Hv)].
    apply list_elem_of_lookup in Hin as (i & Hi).
    destruct (Forall2_lookup_l _ _ _ _ _ H1 Hi) as (y & Hy & Hh).
    rewrite (holds_at_fun _ _ _ _ Hh Hv) in Hy. exfalso. apply (Hk2 (ekey e)); [|set_solver].
    by apply list_elem_of_lookup_2, (list_elem_of_fmap_2 fst) in Hy.
  - rewrite lookup_delete_ne, (caches_items _ _ Hc k' ele'), Eo by done.
    split; intros [Hin (v & Hv)]; (split; [|by exists v]); [|set_solver].
    apply elem_of_app in Hin as [?|Hin]; [done|]. apply list_elem_of_singleton in Hin as ->.
    destruct Hv as (e2 & He2 & [= Ek _]). congruence.
Qed.

Lemma set_refines c l f o v :
  caches c l -> len l <= Z.max 0 (cap c) ->
  ∃ c', set c f o v = Some c' ∧ caches c' (spec_set (cap c) l (f, o) v) ∧ cap c' = cap c.
Proof.
  intros Hc Hcap. unfold set, spec_set. destruct (items c !! (f, o)) as [ele|] eqn:Ei.
  - destruct (caches_hit _ _ _ _ Hc Ei) as (o1 & o2 & l1 & l2 & w & Eo & -> & H1 & H2 & Hv).
    rewrite spec_remove_split by by eapply caches_keys.
    rewrite take_ge by (unfold len in Hcap; rewrite length_app in *; cbn in *; rewrite length_app; lia).
    rewrite (MoveToFront_split c o1 o2) by (done || by eapply caches_NoDup). cbn [elems].
    pose proof Hv as (e & He & [= Ek Ev]). rewrite He. cbn. eexists. split_and!; [done| |done].
    by apply (caches_move c l1 l2 o1 o2 ele (f, o) w (mkEntry (ekey e) v) Hc Eo H1 H2 Hv).
  - pose proof (caches_miss _ _ _ Hc Ei) as Hm. rewrite spec_remove_miss by done.
    cbn [PushFront order cap next elems items]. set (c1 := mkLRU _ _ _ _ _).
    assert (next c ∉ order c) as Hfresh.
    { intros Hin. apply list_elem_of_lookup in Hin as (i & Hi).
      destruct (Forall2_lookup_l _ _ _ _ _ (caches_order _ _ Hc) Hi) as (y & _ & (e & He & _)).
      apply (caches_next _ _ Hc) in He. lia. }
    assert (caches c1 (((f, o), v) :: l)) as Hc1.
    { subst c1. split; cbn.
      - constructor; [eexists; by rewrite lookup_insert_eq|].
        eapply Forall2_impl_elem with (1 := caches_order _ _ Hc). intros x y Hx (e & He & <-).
        exists e. rewrite lookup_insert_ne; [done|]. set_solver.
      - apply NoDup_cons. split; [done|by eapply caches_NoDup].
      - apply NoDup_cons. split; [done|by eapply caches_keys].
      - intros k' ele'. destruct (decide (k' = (f, o))) as [->|Hne].
        + rewrite lookup_insert_eq. split.
          * intros [= <-]. split; [set_solver|]. eexists v, _. by rewrite lookup_insert_eq.
          * intros [Hin (w & e & He & [= Ek Ev])]. destruct (decide (ele' = next c)) as [->|Hn]; [done|].
            rewrite lookup_insert_ne in He by done. exfalso.
            assert (items c !! (f, o) = Some ele') as E; [|by rewrite Ei in E].
            apply (caches_items _ _ Hc). split; [set_solver|]. exists w, e. by rewrite Ek, Ev.
        + rewrite lookup_insert_ne, (caches_items _ _ Hc k' ele') by done. split.
          * intros [Hin (w & e & He & Ee)]. split; [set_solver|]. exists w, e.
            rewrite lookup_insert_ne; [done|]. set_solver.
          * intros [Hin (w & e & He & [= Ek Ev])]. destruct (decide (ele' = next c)) as [->|Hn].
            { rewrite lookup_insert_eq in He. injection He as <-. cbn in Ek. congruence. }
            rewrite lookup_insert_ne in He by done. split; [set_solver|]. exists w, e. by subst.
      - intros ele' e He. destruct (decide (ele' = next c)) as [->|Hn]; [lia|].
        rewrite lookup_insert_ne in He by done. apply (caches_next _ _ Hc) in He. lia. }
    pose proof (Forall2_length _ _ _ (caches_order _ _ Hc)) as Hlen.
    assert (len (order c1) = 1 + len l) as Hl1 by (subst c1; cbn [order]; rewrite len_cons; unfold len; by rewrite Hlen).
    change (len (next c :: order c)) with (len (order c1)). rewrite Hl1.
    destruct (Z.ltb_spec (cap c) (1 + len l)) as [Hlt|Hge].
    + destruct (exists_last (A := blockKey * Block) (l := ((f, o), v) :: l)) as (l' & x & El); [done|]. rewrite El in Hc1.
      destruct (evict_refines c1 l' x Hc1) as (c' & E & Hc' & Hcp). exists c'. split_and!; [done| |done].
      assert (Z.to_nat (cap c) = length l') as ->.
      { pose proof (f_equal length El) as El'. rewrite length_app in El'. cbn [length] in El'.
        unfold len in *. lia. }
      by rewrite El, take_app_length.
    + eexists. split_and!; [done| |done]. rewrite take_ge; [done|]. cbn. unfold len in *. lia.
Qed.

Lemma spec_find_elem k l v : spec_find k l = Some v -> (k, v) ∈ l.
Proof.
  induction l as [|[k' v'] l IH]; cbn; [done|]. destruct (decide (k' = k)) as [->|].
  - intros [= ->]. left.
  - intros H. right. by apply IH.
Qed.

Lemma spec_remove_subset k l x : x ∈ spec_remove k l -> x ∈ l.
Proof. unfold spec_remove. by intros [_ ?]%list_elem_of_filter. Qed.

Lemma spec_get_subset l k x : x ∈ (spec_get l k).1 -> x ∈ l.
Proof.
  unfold spec_get. destruct (spec_find k l) as [v|] eqn:E; cbn; [|done].
  intros [->|Hx%spec_remove_subset]%elem_of_cons; [|done]. by apply spec_find_elem.
Qed.

Lemma spec_set_subset cp l k v x : x ∈ spec_set cp l k v -> x = (k, v) ∨ x ∈ l.
Proof.
  unfold spec_set. intros Hx%elem_of_take. destruct Hx as (i & Hx & _).
  apply list_elem_of_lookup_2, elem_of_cons in Hx as [?|?%spec_remove_subset]; auto.
Qed.

Lemma len_spec_get l k : NoDup (l.*1) -> len (spec_get l k).1 = len l.
Proof.
  intros Hn. unfold spec_get. destruct (spec_find k l) as [v|] eqn:E; [|done]. cbn [fst].
  apply spec_find_elem, list_elem_of_split in E as (l1 & l2 & ->).
  rewrite spec_remove_split by done. len_lia.
Qed.

Lemma len_spec_set cp l k v : len (spec_set cp l k v) <= Z.max 0 cp.
Proof. unfold spec_set. rewrite len_take_min. lia. Qed.

(** Every cached block satisfies [P] of its key. *)
Definition coherent (P : blockKey -> Block -> Prop) (c : BlockCache) : Prop :=
  ∃ l, caches c l ∧ len l <= Z.max 0 (cap c) ∧ ∀ k b, (k, b) ∈ l -> P k b.

Lemma New_coherent P n : coherent P (NewBlockCache n).
Proof. exists []. split_and!; [apply newLRU_caches|rewrite len_nil; lia|set_solver]. Qed.

Lemma Get_coherent P c f o :
  coherent P c ->
  ∃ c' r, Get c f o = Some (c', r) ∧ coherent P c' ∧ ∀ b, r = Some b -> P (f, o) b.
Proof.
  intros (l & Hc & Hl & HP). destruct (get_refines c l f o Hc) as (c' & E & Hc' & Hcp).
  exists c', (spec_get l (f, o)).2. split_and!; [done| |].
  - eexists. split_and!; [done| |].
    + rewrite len_spec_get by by eapply caches_keys. by rewrite Hcp.
    + intros k b Hin%spec_get_subset. auto.
  - unfold spec_get. destruct (spec_find (f, o) l) as [v|] eqn:Ef; cbn; [|done].
    intros b [= <-]. apply HP. by apply spec_find_elem.
Qed.

Lemma Set_coherent P c f o v :
  coherent P c -> P (f, o) v -> ∃ c', Set_ c f o v = Some c' ∧ coherent P c'.
Proof.
  intros (l & Hc & Hl & HP) Hv. destruct (set_refines c l f o v Hc Hl) as (c' & E & Hc' & Hcp).
  exists c'. split; [done|]. eexists. split_and!; [done| |].
  - rewrite Hcp. apply len_spec_set.
  - intros k b [[= -> ->]|Hin]%spec_set_subset; auto.
Qed.

Lemma coherent_impl (P Q : blockKey -> Block -> Prop) c :
  coherent P c -> (∀ k b, P k b -> Q k b) -> coherent Q c.
Proof. intros (l & Hc & Hl & HP) H. exists l. split_and!; auto. Qed.

(** ** What the cache guarantees *)

Inductive cache_op := OpGet (fileNum offset : Z) | OpSet (fileNum offset : Z) (data : Block).

(** The answers of the Gets of a sequence of operations. *)
Fixpoint run_cache (c : BlockCache) (ops : list cache_op) :
    option (BlockCache * list (option Block)) :=
  match ops with
  | [] => Some (c, [])
  | OpGet f o :: ops =>
      '(c, r) ← Get c f o; '(c, rs) ← run_cache c ops; Some (c, r :: rs)
  | OpSet f o b :: ops => c ← Set_ c f o b; run_cache c ops
  end.

Fixpoint run_spec (cp : Z) (l : list (blockKey * Block)) (ops : list cache_op) :
    list (blockKey * Block) * list (option Block) :=
  match ops with
  | [] => (l, [])
  | OpGet f o :: ops =>
      let '(l, r) := spec_get l (f, o) in
      let '(l, rs) := run_spec cp l ops in (l, r :: rs)
  | OpSet f o b :: ops => run_spec cp (spec_set cp l (f, o) b) ops
  end.

(** C20. The cache refines the abstract LRU list: for any sequence of operations it never panics, gives
    the answers of the specification, and ends holding the same blocks in the same order, never
    more than its capacity; its map and its list agree on them. *)
Theorem BlockCache_refines_LRU maxBlocks ops :
  ∃ c, run_cache (NewBlockCache maxBlocks) ops = Some (c, (run_spec maxBlocks [] ops).2) ∧
    caches c (run_spec maxBlocks [] ops).1 ∧
    len (run_spec maxBlocks [] ops).1 <= Z.max 0 maxBlocks.
Proof.
  assert (∀ c l, caches c l -> cap c = maxBlocks -> len l <= Z.max 0 maxBlocks ->
    ∃ c', run_cache c ops = Some (c', (run_spec maxBlocks l ops).2) ∧
      caches c' (run_spec maxBlocks l ops).1 ∧
      len (run_spec maxBlocks l ops).1 <= Z.max 0 maxBlocks) as H.
  { induction ops as [|[f o|f o b] ops IH]; intros c l Hc Hcp Hl; cbn [run_cache run_spec].
    - by exists c.
    - destruct (get_refines c l f o Hc) as (c' & E & Hc' & Hcp').
      pose proof (len_spec_get l (f, o) (caches_keys _ _ Hc)) as Hl'.
      unfold Get. rewrite E. cbn [mbind option_bind].
      destruct (spec_get l (f, o)) as [l' r]. cbn [fst snd] in *.
      destruct (IH c' l' Hc') as (c2 & -> & Hc2 & Hl2); [congruence|lia|]. cbn [mbind option_bind].
      destruct (run_spec maxBlocks l' ops) as [l2 rs]. by exists c2.
    - rewrite <- Hcp in Hl. destruct (set_refines c l f o b Hc Hl) as (c' & E & Hc' & Hcp').
      unfold Set_. rewrite E. cbn [mbind option_bind]. rewrite Hcp in *.
      apply IH; [done|done|apply len_spec_set]. }
  apply H; [apply newLRU_caches|done|]. rewrite len_nil. lia.
Qed.
