(* ===== verification/Names.v ===== *)
(** * File names

    [engine/helpers.go] and the scanning of names in [recover.go] and [sstable.Open]: numbers are
    printed with ["%06d"] and scanned with ["%06d"], which reads at most six digits.  A path is the
    directory under the data directory and the name in it. *)

From S2P Require Import Prelude.
From Stdlib Require Import Ascii.

(** ** fmt.Sprintf and fmt.Sscanf of a decimal *)

(** The digits of [n], most significant first; twenty are enough for a uint64. *)
Fixpoint decimal (fuel : nat) (n : Z) : list Z :=
  match fuel with
  | O => []
  | S fuel => if n <? 10 then [n] else decimal fuel (n / 10) ++ [n mod 10]
  end.

Definition digit_char (d : Z) : ascii := ascii_of_N (Z.to_N (48 + d)).

Definition char_digit (c : ascii) : option Z :=
  let z := Z.of_N (N_of_ascii c) - 48 in if (0 <=? z) && (z <? 10) then Some z else None.

(** [%06d]: zeros on the left up to six characters. *)
Definition Sprintf_06d (n : Z) : list ascii :=
  let ds := decimal 20 n in map digit_char (replicate (6 - length ds) 0 ++ ds).

Fixpoint take_digits (n : nat) (s : list ascii) : list Z * list ascii :=
  match n, s with
  | S n, c :: s' =>
      match char_digit c with
      | Some d => let '(ds, rest) := take_digits n s' in (d :: ds, rest)
      | None => ([], s)
      end
  | _, _ => ([], s)
  end.

Definition digits_value (ds : list Z) : Z := foldl (fun v d => 10 * v + d) 0 ds.

(** Strip [p] from the front of [s]. *)
Fixpoint strip (p s : list ascii) : option (list ascii) :=
  match p, s with
  | [], _ => Some s
  | a :: p, b :: s => if decide (a = b) then strip p s else None
  | _ :: _, [] => None
  end.

Definition chars (s : string) : list ascii := String.list_ascii_of_string s.

(** [Sscanf(s, pre + "%06d" + post, &num)]: what [num] ends with, and whether there was no error.
    What follows [post] is not looked at. *)
Definition Sscanf_06d (pre post : string) (s : list ascii) : Z * bool :=
  match strip (chars pre) s with
  | None => (0, false)
  | Some s =>
      let '(ds, s) := take_digits 6 s in
      if (length ds =? 0)%nat then (0, false)
      else (digits_value ds, match strip (chars post) s with Some _ => true | None => false end)
  end.

(** ** Paths *)

Inductive path :=
  | TablePath (level : Z) (name : list ascii)
  | WalPath (name : list ascii)
  | RootPath (name : list ascii).

#[export] Instance path_eq_dec : EqDecision path.
Proof. solve_decision. Defined.

#[export] Instance path_countable : Countable path.
Proof.
  apply (inj_countable' (λ p, match p with
    | TablePath l n => inl (l, n) | WalPath n => inr (inl n) | RootPath n => inr (inr n) end)
    (λ x, match x with
    | inl (l, n) => TablePath l n | inr (inl n) => WalPath n | inr (inr n) => RootPath n end)).
  by intros [].
Defined.

Definition table_name (fileNum : Z) : list ascii :=
  chars "table-" ++ Sprintf_06d fileNum ++ chars ".sst".

Definition wal_name (fileNum : Z) : list ascii :=
  chars "wal-" ++ Sprintf_06d fileNum ++ chars ".log".

Definition tablePath (level fileNum : Z) : path := TablePath level (table_name fileNum).

Definition walPath (fileNum : Z) : path := WalPath (wal_name fileNum).

(** ** Lemmas *)

Lemma char_digit_char d : 0 <= d < 10 -> char_digit (digit_char d) = Some d.
Proof.
  intros Hd. assert (d = 0 ∨ d = 1 ∨ d = 2 ∨ d = 3 ∨ d = 4 ∨ d = 5 ∨ d = 6 ∨ d = 7 ∨ d = 8 ∨ d = 9)
    as E by lia. by intuition subst.
Qed.

Lemma digits_value_snoc ds d : digits_value (ds ++ [d]) = 10 * digits_value ds + d.
Proof. unfold digits_value. by rewrite foldl_app. Qed.

Lemma digits_value_zeros n ds : digits_value (replicate n 0 ++ ds) = digits_value ds.
Proof. unfold digits_value. induction n as [|n IH]; [done|]. exact IH. Qed.

Lemma decimal_spec fuel n :
  0 <= n < 10 ^ Z.of_nat fuel ->
  digits_value (decimal fuel n) = n ∧ Forall (fun d => 0 <= d < 10) (decimal fuel n).
Proof.
  revert n. induction fuel as [|fuel IH]; intros n Hn.
  - rewrite Z.pow_0_r in Hn. split; [cbn; lia|constructor].
  - rewrite Nat2Z.inj_succ, Z.pow_succ_r in Hn by lia. cbn [decimal].
    destruct (Z.ltb_spec n 10).
    + split; [cbn; lia|]. apply Forall_singleton. lia.
    + destruct (IH (n / 10)) as [Hv Hd]; [lia|]. rewrite digits_value_snoc, Hv. split; [lia|].
      apply Forall_app. split; [done|]. apply Forall_singleton. lia.
Qed.

Lemma length_decimal fuel n k :
  0 <= n < 10 ^ Z.of_nat k -> (1 <= k)%nat -> (length (decimal fuel n) <= k)%nat.
Proof.
  revert n k. induction fuel as [|fuel IH]; intros n k Hn Hk; cbn [decimal]; [cbn; lia|].
  destruct (Z.ltb_spec n 10); [cbn; lia|]. rewrite length_app. cbn [length].
  destruct k as [|k]; [lia|]. rewrite Nat2Z.inj_succ, Z.pow_succ_r in Hn by lia.
  destruct (decide (k = 0)%nat) as [->|]; [lia|]. specialize (IH (n / 10) k). lia.
Qed.

(** Seven digits and more from a million on. *)
Lemma length_decimal_ge fuel n k :
  (k <= fuel)%nat -> 10 ^ Z.of_nat k <= n -> (k < fuel)%nat -> (k < length (decimal fuel n))%nat.
Proof.
  revert n k. induction fuel as [|fuel IH]; intros n k Hk Hn Hf; [lia|]. cbn [decimal].
  destruct k as [|k].
  { destruct (n <? 10); [cbn; lia|rewrite length_app; cbn; lia]. }
  rewrite Nat2Z.inj_succ, Z.pow_succ_r in Hn by lia.
  pose proof (Z.pow_pos_nonneg 10 (Z.of_nat k) ltac:(lia) ltac:(lia)).
  rewrite (proj2 (Z.ltb_ge _ _)) by lia. rewrite length_app. cbn [length].
  specialize (IH (n / 10) k). lia.
Qed.

Lemma strip_app p s : strip p (p ++ s) = Some s.
Proof. induction p as [|a p IH]; cbn; [done|]. by rewrite decide_True. Qed.

Lemma take_digits_app n ds s :
  Forall (fun d => 0 <= d < 10) ds -> (length ds <= n)%nat ->
  (∀ c s', s = c :: s' -> char_digit c = None) ->
  take_digits n (map digit_char ds ++ s) = (ds, s).
Proof.
  intros Hd Hn Hs. revert n Hn. induction Hd as [|d ds Hd _ IH]; intros n Hn; cbn [map app].
  - destruct n as [|n]; [done|]. destruct s as [|c s']; [done|]. cbn. by rewrite (Hs c s').
  - destruct n as [|n]; [cbn in Hn; lia|]. cbn [take_digits]. rewrite char_digit_char by done.
    rewrite IH by (cbn in Hn; lia). done.
Qed.

Lemma take_digits_long n ds s :
  Forall (fun d => 0 <= d < 10) ds -> (n <= length ds)%nat ->
  take_digits n (map digit_char ds ++ s) = (take n ds, map digit_char (drop n ds) ++ s).
Proof.
  intros Hd. revert n. induction Hd as [|d ds Hd _ IH]; intros n Hn.
  - destruct n; [done|]. cbn in Hn. lia.
  - destruct n as [|n]; [done|]. cbn [map app take_digits]. rewrite char_digit_char by done.
    rewrite IH by (cbn in Hn; lia). done.
Qed.

(** The digits printed for a number. *)
Lemma Sprintf_06d_digits n :
  0 <= n < 2 ^ 64 ->
  ∃ ds, Sprintf_06d n = map digit_char ds ∧ Forall (fun d => 0 <= d < 10) ds ∧ digits_value ds = n ∧
    if n <? 10 ^ 6 then length ds = 6%nat else (6 < length ds)%nat.
Proof.
  intros Hn. destruct (decimal_spec 20 n) as [Hv Hd]; [lia|]. eexists. split_and!; [done|..].
  - apply Forall_app. split; [|done]. apply Forall_replicate. lia.
  - by rewrite digits_value_zeros.
  - rewrite length_app, length_replicate. destruct (Z.ltb_spec n (10 ^ 6)).
    + pose proof (length_decimal 20 n 6). lia.
    + pose proof (length_decimal_ge 20 n 6). lia.
Qed.

Lemma digits_value_range ds :
  Forall (fun d => 0 <= d < 10) ds -> 0 <= digits_value ds < 10 ^ len ds.
Proof.
  induction ds as [|d ds IH] using rev_ind; intros Hd; [done|].
  apply Forall_app in Hd as [Hd1 Hd]. rewrite Forall_singleton in Hd. specialize (IH Hd1).
  rewrite digits_value_snoc, len_app, Z.pow_add_r by (apply len_nonneg || done).
  change (10 ^ len [d]) with 10. lia.
Qed.

Lemma Sscanf_name pre post n :
  0 <= n < 2 ^ 64 -> (∀ c s', chars post = c :: s' -> char_digit c = None) -> chars post ≠ [] ->
  ∃ v, Sscanf_06d pre post (chars pre ++ Sprintf_06d n ++ chars post) = (v, bool_decide (n < 10 ^ 6)) ∧
    0 <= v < 10 ^ 6 ∧ (n < 10 ^ 6 -> v = n).
Proof.
  intros Hn Hpost Hne. destruct (Sprintf_06d_digits n Hn) as (ds & -> & Hd & Hv & Hl).
  unfold Sscanf_06d. rewrite strip_app. destruct (Z.ltb_spec n (10 ^ 6)).
  - rewrite take_digits_app by (done || lia). rewrite Hl. cbn [Nat.eqb].
    pose proof (strip_app (chars post) []) as E. rewrite app_nil_r in E. rewrite E, bool_decide_true by lia.
    exists (digits_value ds). split; [done|]. lia.
  - rewrite take_digits_long by (done || lia). rewrite length_take, Nat.min_l by lia. cbn [Nat.eqb].
    rewrite bool_decide_false by lia. exists (digits_value (take 6 ds)). split_and!; [|..|lia].
    + f_equal. destruct (drop 6 ds) as [|d rest] eqn:E.
      { apply (f_equal length) in E. rewrite length_drop in E. cbn in E. lia. }
      cbn [map app]. destruct (chars post) as [|c s'] eqn:Ep; [done|]. cbn [strip].
      rewrite decide_False; [done|]. intros ->. specialize (Hpost _ _ eq_refl).
      rewrite char_digit_char in Hpost; [done|].
      rewrite Forall_forall in Hd. apply Hd. rewrite <- (take_drop 6 ds), E. set_solver.
    + apply digits_value_range. by apply Forall_take.
    + pose proof (digits_value_range (take 6 ds) (Forall_take _ _ _ Hd)) as Hr.
      rewrite len_take_min in Hr. unfold len in Hr. rewrite Z.min_l in Hr by lia. apply Hr.
Qed.

Lemma Sprintf_06d_inj n1 n2 :
  0 <= n1 < 2 ^ 64 -> 0 <= n2 < 2 ^ 64 -> Sprintf_06d n1 = Sprintf_06d n2 -> n1 = n2.
Proof.
  intros H1 H2 E. destruct (Sprintf_06d_digits n1 H1) as (ds1 & E1 & Hd1 & Hv1 & _).
  destruct (Sprintf_06d_digits n2 H2) as (ds2 & E2 & Hd2 & Hv2 & _). rewrite E1, E2 in E.
  rewrite <- Hv1, <- Hv2. f_equal. clear -E Hd1 Hd2. revert ds2 E Hd2.
  induction Hd1 as [|d ds1 Hd _ IH]; intros [|d2 ds2] E Hd2; try done. cbn in E.
  injection E as Ed E. apply Forall_cons in Hd2 as [Hd2 Hds2]. f_equal; [|by apply IH].
  apply (f_equal char_digit) in Ed. rewrite !char_digit_char in Ed by done. congruence.
Qed.

(** The path of a table determines its level and number. *)
Lemma tablePath_inj l1 l2 n1 n2 :
  0 <= n1 < 2 ^ 64 -> 0 <= n2 < 2 ^ 64 -> tablePath l1 n1 = tablePath l2 n2 -> l1 = l2 ∧ n1 = n2.
Proof.
  intros H1 H2 [= -> E]. split; [done|].
  apply app_inv_tail in E. by apply Sprintf_06d_inj in E.
Qed.

Lemma walPath_inj n1 n2 :
  0 <= n1 < 2 ^ 64 -> 0 <= n2 < 2 ^ 64 -> walPath n1 = walPath n2 -> n1 = n2.
Proof.
  intros H1 H2 [= E].
  apply app_inv_tail in E. by apply Sprintf_06d_inj in E.
Qed.

Definition scan_wal (name : list ascii) : Z * bool := Sscanf_06d "wal-" ".log" name.
Definition scan_table (name : list ascii) : Z * bool := Sscanf_06d "table-" ".sst" name.

Lemma scan_wal_name n :
  0 <= n < 2 ^ 64 ->
  ∃ v, scan_wal (wal_name n) = (v, bool_decide (n < 10 ^ 6)) ∧ 0 <= v < 10 ^ 6 ∧ (n < 10 ^ 6 -> v = n).
Proof. intros Hn. apply (Sscanf_name "wal-" ".log" n Hn); [by intros c s' [= <- <-]|done]. Qed.

Lemma scan_table_name n :
  0 <= n < 2 ^ 64 ->
  ∃ v, scan_table (table_name n) = (v, bool_decide (n < 10 ^ 6)) ∧ 0 <= v < 10 ^ 6 ∧ (n < 10 ^ 6 -> v = n).
Proof. intros Hn. apply (Sscanf_name "table-" ".sst" n Hn); [by intros c s' [= <- <-]|done]. Qed.

(** ** What the names guarantee *)

(** C36. Below a million, the names that are printed are scanned back to their numbers.  From a million
    on every scan fails: recovery skips such logs, and a table is opened under the number that six
    digits hold, which is another table's. *)
Theorem names_round_trip n :
  0 <= n < 2 ^ 64 ->
  (n < 10 ^ 6 -> scan_wal (wal_name n) = (n, true) ∧ scan_table (table_name n) = (n, true)) ∧
  (10 ^ 6 <= n -> (scan_wal (wal_name n)).2 = false ∧
     ∃ m, m < 10 ^ 6 ∧ (scan_table (table_name n)).1 = (scan_table (table_name m)).1).
Proof.
  intros Hn. destruct (scan_wal_name n Hn) as (v1 & E1 & _ & H1).
  destruct (scan_table_name n Hn) as (v2 & E2 & Hv2 & H2). split.
  - intros Hlt. rewrite E1, E2, bool_decide_true by done. by rewrite H1, H2.
  - intros Hge. rewrite E1, bool_decide_false by lia. split; [done|]. exists v2. split; [lia|].
    destruct (scan_table_name v2) as (v3 & E3 & _ & H3); [lia|]. rewrite E2, E3. cbn.
    symmetry. apply H3. lia.
Qed.

Lemma names_round_trip_witness :
  scan_wal (wal_name 42) = (42, true) ∧ (scan_wal (wal_name 1000005)).2 = false ∧
  scan_table (table_name 1000005) = (100000, false).
Proof.
  split_and!.
  - apply (names_round_trip 42); lia.
  - apply (names_round_trip 1000005); lia.
  - reflexivity.
Defined.
