(* ===== verification/TableWriter.v ===== *)
(** * Package sstable: writing tables

    [writer.go].  The writer buffers the records of a block, writes each full block through a
    buffered writer that also feeds the checksum, and ends the file with index, filter and footer. *)

From S2P Require Import Prelude.
From S2P Require Import GoStd.
From S2P Require Import GoIO.
From S2P Require Import Records.
From S2P Require Import Filter.
From S2P Require Import Blocks.
From Stdlib Require Import PrimFloat.

Record TableWriter := mkTW {
  file : File;
  blockSize : Z;
  block : Block;
  currentBlockSize : Z;
  index : IndexBlock;
  filter : Filter;
  offset : Z;
  estimatedSize : Z
}.

(** [f] is the file that os.OpenFile has created or truncated. *)
Definition Create `{FloatEnv} (f : File) (blockSize expectedKeys : Z) (fpRate : float) : TableWriter :=
  mkTW f blockSize (mkBlock []) 8 (mkIB []) (NewFilter expectedKeys fpRate) 0 0.

(** *** writeBlock *)

(** Run [k] unless an error has been returned. *)
Definition and_then {A} (x : A * option error) (k : A -> A * option error) : A * option error :=
  match x with (a, None) => k a | x => x end.

Definition bw_Write (p : bytes) (bw : bufio_Writer TeeWriter) : bufio_Writer TeeWriter * option error :=
  let '(bw, _, err) := bufio_Write bw p in (bw, err).

Fixpoint writeBlock_loop (es : list Rec) (bw : bufio_Writer TeeWriter) :
    bufio_Writer TeeWriter * option error :=
  match es with
  | [] => (bw, None)
  | entry :: es =>
      and_then (bw_Write (le_bytes 4 (Records.Size entry)) bw) (λ bw,
      and_then (let '(bw, _, err) := EncodeRecordIntoWriter bw entry in (bw, err)) (λ bw,
      writeBlock_loop es bw))
  end.

Definition writeBlock (w : TableWriter) (f : File) : File * Z * option error :=
  let totalSize := u64 (currentBlockSize w + 4) in
  let bw := bufio_New (mkTee f 0) in
  let '(bw, err) :=
    and_then (bw_Write (le_bytes 4 (u32 totalSize)) bw) (λ bw,
    and_then (bw_Write (le_bytes 4 (u32 (len (entries (block w))))) bw) (λ bw,
    and_then (writeBlock_loop (entries (block w)) bw) (λ bw,
    bufio_Flush bw))) in
  let f := tfile (bwr bw) in
  match err with
  | Some e => (f, 0, Some e)
  | None =>
      let checksum := tcrc (bwr bw) in
      let '(f, _, err) := file_Write f (le_bytes 4 checksum) in
      match err with
      | Some e => (f, 0, Some e)
      | None => (f, totalSize, None)
      end
  end.

Definition set_file (w : TableWriter) (f : File) : TableWriter :=
  mkTW f (blockSize w) (block w) (currentBlockSize w) (index w) (filter w) (offset w)
    (estimatedSize w).

Definition flushBlock (w : TableWriter) : TableWriter * option error :=
  match last (entries (block w)) with
  | None => (w, None)
  | Some last =>
      let offset0 := offset w in
      let '(f, n, err) := writeBlock w (file w) in
      let w := set_file w f in
      match err with
      | Some e => (w, Some e)
      | None =>
          let ie := mkIE last offset0 (u32 n) in
          (mkTW (file w) (blockSize w) (mkBlock []) 8 (mkIB (ientries (index w) ++ [ie])) (filter w)
            (u64 (offset w + n)) (estimatedSize w), None)
      end
  end.

Definition Add (w : TableWriter) (r : Rec) : res (TableWriter * option error) :=
  f ← Filter.Add (filter w) (UserKey r);
  let w := mkTW (file w) (blockSize w) (mkBlock (entries (block w) ++ [r]))
    (u64 (u64 (currentBlockSize w + 4) + Records.Size r)) (index w) f (offset w)
    (u64 (estimatedSize w + Records.Size r)) in
  if blockSize w <=? currentBlockSize w then Ok (flushBlock w) else Ok (w, None).

Definition EstimatedSize (w : TableWriter) : Z := i64 (estimatedSize w).

(** The size of the file and the error; the file is closed without error at the end. *)
Definition Close (w : TableWriter) : res (TableWriter * Z * option error) :=
  match flushBlock w with
  | (w, Some e) => Ok (w, 0, Some e)
  | (w, None) =>
      let indexOffset := offset w in
      indexBytes ← encodeIndexBlock (index w);
      let '(f, indexSize, err) := file_Write (file w) indexBytes in
      let w := set_file w f in
      match err with
      | Some e => Ok (w, 0, Some e)
      | None =>
          let filterOffset := u64 (offset w + indexSize) in
          filterBytes ← EncodeFilter (filter w);
          let '(f, filterSize, err) := file_Write (file w) filterBytes in
          let w := set_file w f in
          match err with
          | Some e => Ok (w, 0, Some e)
          | None =>
              let offset' := u64 (filterOffset + filterSize) in
              let footer := mkFooter indexOffset (u32 indexSize) filterOffset (u32 filterSize) Magic in
              footerBytes ← encodeFooter footer;
              let '(f, _, err) := file_Write (file w) footerBytes in
              let w := mkTW f (blockSize w) (block w) (currentBlockSize w) (index w) (filter w)
                offset' (estimatedSize w) in
              match err with
              | Some e => Ok (w, 0, Some e)
              | None =>
                  match file_Sync f with
                  | (f, Some e) => Ok (set_file w f, 0, Some e)
                  | (f, None) =>
                      match file_Stat f with
                      | (f, inr e) => Ok (set_file w f, 0, Some e)
                      | (f, inl size) => Ok (set_file w f, size, None)
                      end
                  end
              end
          end
      end
  end.

(** ** Specification: the layout of a table *)

(** The index entries of consecutive blocks from offset [off] on. *)
Fixpoint index_of (off : Z) (bs : list (list Rec)) : list IndexEntry :=
  match bs with
  | [] => []
  | b :: bs =>
      mkIE (List.last (map RKey b) (mkIK [] 0 0)) off (block_size b) :: index_of (off + block_size b) bs
  end.

Definition data_bytes (bs : list (list Rec)) : bytes := concat (map block_bytes bs).

Definition table_footer (bs : list (list Rec)) (f : Filter) : Footer :=
  let off := len (data_bytes bs) in
  let ib := index_bytes (index_of 0 bs) in
  mkFooter off (len ib) (off + len ib) (len (filter_bytes f)) Magic.

Definition table_bytes (bs : list (list Rec)) (f : Filter) : bytes :=
  data_bytes bs ++ index_bytes (index_of 0 bs) ++ filter_bytes f ++ footer_bytes (table_footer bs f).

(** The space that [rs] may take, with all the overheads, and the bound under which no size of a
    table overflows its field. *)
Definition table_space (rs : list Rec) : Z := len (concat (map record_bytes rs)) + 64 * len rs.

Definition table_small (rs : list Rec) : Prop := table_space rs < 2 ^ 31.

(** The writer has written the blocks [bs] and buffers [cur]. *)
Record writes (w : TableWriter) (bs : list (list Rec)) (cur : list Rec) : Prop := {
  writes_data : fdata (file w) = data_bytes bs;
  writes_block : entries (block w) = cur;
  writes_size : currentBlockSize w = block_size cur - 4;
  writes_index : ientries (index w) = index_of 0 bs;
  writes_offset : offset w = len (data_bytes bs);
  writes_filter : covers (filter w) (map (λ r : Rec, UserKey r) (concat bs ++ cur));
  writes_bits : 8 * len (bits (filter w)) <= m (filter w) + 7 ∧ m (filter w) < 2 ^ 32 ∧ k (filter w) < 256;
  writes_nonempty : Forall (λ b, b ≠ []) bs;
  writes_small : Forall small_rec (concat bs ++ cur);
  writes_space : table_small (concat bs ++ cur)
}.

(** ** Writing a block *)

(** A chain of writes that reports no error has appended all of its bytes and kept the hash. *)
Definition wrote (base : bytes) (b : bufio_Writer TeeWriter) (p : bytes)
    (x : bufio_Writer TeeWriter * option error) : Prop :=
  let '(b', err) := x in
  err = None -> bdata (wdata := fdata ∘ tfile) b' = bdata (wdata := fdata ∘ tfile) b ++ p ∧
    (binv (tee_inv base) b -> binv (tee_inv base) b').

Lemma bw_Write_wrote base p b : wrote base b p (bw_Write p b).
Proof.
  unfold bw_Write, wrote. pose proof (w_Write_spec b p) as Hw.
  unfold w_Write, bufio_Writer_Writer in Hw.
  pose proof (bufio_Write_inv (tee_inv base) (tee_inv_Write base) b p) as Hi.
  destruct (bufio_Write b p) as [[b' n] err]. destruct Hw as (q & _ & Hd & _ & Hq).
  intros He. rewrite (Hq He) in Hd. done.
Qed.

Lemma and_then_wrote base b p q x k :
  wrote base b p x -> (∀ b', wrote base b' q (k b')) -> wrote base b (p ++ q) (and_then x k).
Proof.
  intros Hx Hk. destruct x as [b1 [e|]]; cbn; [done|]. specialize (Hk b1). unfold wrote in *.
  destruct (k b1) as [b2 err]. intros He. destruct (Hx eq_refl) as [E1 I1]. destruct (Hk He) as [E2 I2].
  split; [by rewrite E2, E1, app_assoc|auto].
Qed.

Lemma write_step_inv {W} `{Writer W} (I : W -> Prop) p st :
  (∀ w, I w -> I (w_Write w p).1.1) -> I st.1.1 -> I (write_step p st).1.1.
Proof.
  intros HI Hst. destruct st as [[w n] [e|]]; cbn in *; [done|]. specialize (HI w Hst).
  destruct (w_Write w p) as [[w' n'] err]. done.
Qed.

Lemma EncodeRecord_wrote base r b :
  wrote base b (record_bytes r) (let '(bw, _, err) := EncodeRecordIntoWriter b r in (bw, err)).
Proof.
  pose proof (EncodeRecordIntoWriter_layout b r) as Ha.
  assert (binv (tee_inv base) b -> binv (tee_inv base) (EncodeRecordIntoWriter b r).1.1) as Hi.
  { intros Hb. unfold EncodeRecordIntoWriter. repeat apply write_step_inv; [..|exact Hb];
      intros w Hw; by apply (bufio_Write_inv (tee_inv base) (tee_inv_Write base)). }
  destruct (EncodeRecordIntoWriter b r) as [[b' n] err]. destruct Ha as (q & _ & Hd & _ & Hq).
  intros He. rewrite (Hq He) in Hd. done.
Qed.

Lemma writeBlock_loop_wrote base es b :
  Forall small_rec es ->
  wrote base b (concat (map (fun r => framed (record_bytes r)) es)) (writeBlock_loop es b).
Proof.
  intros Hs. revert b. induction Hs as [|r es Hr _ IH]; intros b; cbn [map concat writeBlock_loop].
  - intros _. by rewrite app_nil_r.
  - unfold framed. rewrite <- app_assoc, (Size_exact r Hr).
    apply and_then_wrote; [apply bw_Write_wrote|]. intros b1.
    apply and_then_wrote; [apply EncodeRecord_wrote|]. done.
Qed.

Lemma bufio_Flush_wrote base b : wrote base b [] (bufio_Flush b).
Proof.
  pose proof (bufio_Flush_spec (wdata := fdata ∘ tfile) b) as Hf.
  pose proof (bufio_Flush_inv (tee_inv base) (tee_inv_Write base) b) as Hi.
  destruct (bufio_Flush b) as [b' err]. destruct Hf as (Hd & _ & _). intros _.
  by rewrite app_nil_r.
Qed.

Lemma block_size_pos es : 12 <= block_size es.
Proof. unfold block_size. pose proof (len_nonneg (concat (map (fun r => framed (record_bytes r)) es))). lia. Qed.

Lemma writeBlock_spec w f f' n :
  Forall small_rec (entries (block w)) -> currentBlockSize w = block_size (entries (block w)) - 4 ->
  block_size (entries (block w)) < 2 ^ 32 ->
  writeBlock w f = (f', n, None) ->
  fdata f' = fdata f ++ block_bytes (entries (block w)) ∧ n = block_size (entries (block w)).
Proof.
  intros Hs Hsz Hlt. unfold writeBlock. rewrite Hsz.
  set (es := entries (block w)) in *. pose proof (block_size_pos es).
  replace (block_size es - 4 + 4) with (block_size es) by lia.
  rewrite u64_small, u32_small by lia. rewrite le_bytes_u32.
  set (chain := and_then _ _).
  assert (wrote (fdata f) (bufio_New (mkTee f 0)) (block_body es ++ []) chain) as Hc.
  { unfold block_body. rewrite <- !app_assoc. apply and_then_wrote; [apply bw_Write_wrote|]. intros b1.
    apply and_then_wrote; [apply bw_Write_wrote|]. intros b2.
    apply and_then_wrote; [by apply writeBlock_loop_wrote|]. apply bufio_Flush_wrote. }
  assert (∀ b', chain = (b', None) -> bbuf b' = [] ∧ berr b' = None) as Hflushed.
  { unfold chain. intros b'. repeat match goal with
    | |- context [and_then ?x _] => destruct x as [? [?|]]; cbn [and_then]; [done|] end.
    match goal with |- bufio_Flush ?x = _ -> _ =>
      pose proof (bufio_Flush_spec (wdata := fdata ∘ tfile) x) as Hf end.
    intros E. rewrite E in Hf. destruct Hf as (_ & -> & Hn). auto. }
  clearbody chain. destruct chain as [b' [e|]]; [done|].
  destruct (Hflushed b' eq_refl) as [Hb He]. destruct (Hc eq_refl) as [Hd Hi].
  unfold bdata, bufio_New in Hd. cbn in Hd. rewrite Hb, !app_nil_r in Hd.
  destruct (Hi ltac:(intros _; by exists []; rewrite app_nil_r) He) as (p & Hp & Hcrc).
  rewrite Hd in Hp. apply app_inv_head in Hp. subst p.
  pose proof (w_Write_spec (tfile (bwr b')) (le_bytes 4 (tcrc (bwr b')))) as Hw.
  unfold w_Write, File_Writer in Hw.
  destruct (file_Write _ _) as [[f1 n1] [e|]]; [done|]. destruct Hw as (q & _ & Hd1 & _ & Hq).
  intros [= <- <-]. split; [|done]. rewrite Hd1, (Hq eq_refl), Hd, Hcrc.
  unfold block_bytes. by rewrite app_assoc.
Qed.

(** ** Sizes *)

Lemma len_concat_framed (l : list bytes) :
  len (concat (map framed l)) = len (concat l) + 4 * len l.
Proof.
  induction l as [|p l IH]; cbn [map concat]; [done|]. rewrite !len_app, IH, len_framed, len_cons. lia.
Qed.

Lemma block_size_eq es : block_size es = 12 + len (concat (map record_bytes es)) + 4 * len es.
Proof.
  unfold block_size. rewrite <- (map_map record_bytes framed), len_concat_framed, len_map. lia.
Qed.

Lemma block_size_snoc es r : block_size (es ++ [r]) = block_size es + 4 + len (record_bytes r).
Proof. rewrite !block_size_eq, map_app, concat_app. cbn. rewrite !len_app, app_nil_r. len_lia. Qed.

Lemma table_space_app l1 l2 : table_space (l1 ++ l2) = table_space l1 + table_space l2.
Proof. unfold table_space. rewrite map_app, concat_app. len_lia. Qed.

Lemma table_space_nonneg l : 0 <= table_space l.
Proof.
  unfold table_space. pose proof (len_nonneg (concat (map record_bytes l))).
  pose proof (len_nonneg l). lia.
Qed.

Lemma block_size_space es : block_size es <= 12 + table_space es.
Proof. rewrite block_size_eq. unfold table_space. pose proof (len_nonneg es). lia. Qed.

Lemma data_bytes_space bs :
  Forall (λ b, b ≠ []) bs -> len (data_bytes bs) + 48 * len bs <= table_space (concat bs).
Proof.
  induction 1 as [|b bs Hb _ IH]; [done|]. unfold data_bytes in *. cbn [map concat].
  rewrite table_space_app, len_app, len_block_bytes, block_size_eq, len_cons.
  unfold table_space at 1. assert (1 <= len b) by (destruct b; [done|len_lia]). lia.
Qed.

Lemma data_bytes_snoc bs b : data_bytes (bs ++ [b]) = data_bytes bs ++ block_bytes b.
Proof. unfold data_bytes. rewrite map_app, concat_app. cbn. by rewrite app_nil_r. Qed.

Lemma index_of_app off bs1 bs2 :
  index_of off (bs1 ++ bs2) = index_of off bs1 ++ index_of (off + len (data_bytes bs1)) bs2.
Proof.
  revert off. induction bs1 as [|b bs1 IH]; intros off; cbn [index_of app].
  - unfold data_bytes. cbn. by rewrite len_nil, Z.add_0_r.
  - rewrite IH. do 3 f_equal. unfold data_bytes. cbn [map concat]. rewrite len_app, len_block_bytes. lia.
Qed.

Lemma length_index_of off bs : length (index_of off bs) = length bs.
Proof. revert off. induction bs as [|b bs IH]; intros off; cbn; [done|]. by rewrite IH. Qed.

(** The index of blocks that fit is well-formed and small. *)
Lemma index_of_wf off bs :
  Forall (λ b, b ≠ []) bs -> Forall small_rec (concat bs) -> 0 <= off ->
  off + table_space (concat bs) < 2 ^ 31 ->
  Forall wf_index_entry (index_of off bs) ∧
  len (concat (map (fun e => framed (index_entry_bytes e)) (index_of off bs))) <= table_space (concat bs).
Proof.
  intros Hb. revert off. induction Hb as [|b bs Hb _ IH]; intros off Hs Ho Hsp; [done|].
  cbn [concat index_of map] in *. rewrite table_space_app in Hsp. apply Forall_app in Hs as [Hs1 Hs2].
  destruct (exists_last Hb) as (b' & r & ->). rewrite map_app. cbn [map]. rewrite List.last_last.
  apply Forall_app in Hs1 as [_ Hr]. apply Forall_cons in Hr as [[[Hk _] Hr] _].
  pose proof (block_size_space (b' ++ [r])) as Hbs. pose proof (block_size_pos (b' ++ [r])).
  pose proof (table_space_nonneg (concat bs)) as Hn.
  assert (len (record_bytes r) + 64 <= table_space (b' ++ [r])) as Hr2.
  { rewrite table_space_app. pose proof (table_space_nonneg b'). unfold table_space at 2. cbn.
    rewrite app_nil_r. len_lia. }
  pose proof (len_record_bytes r) as Hlr. pose proof (len_nonneg (sbytes (Value r))).
  pose proof (len_nonneg (UserKey r)).
  assert (12 + table_space (b' ++ [r]) - 60 >= block_size (b' ++ [r])) as Hbs2.
  { rewrite block_size_eq. unfold table_space. assert (1 <= len (b' ++ [r])) by len_lia. lia. }
  destruct (IH (off + block_size (b' ++ [r]))) as [IH1 IH2]; [done|lia|lia|].
  rewrite table_space_app, len_app, len_framed, len_index_entry_bytes.
  cbn [SeparatorKey]. split; [|lia]. constructor; [|done].
  unfold wf_index_entry. cbn. split_and!; try apply Hk; lia.
Qed.

(** ** The operations *)

Lemma Create_writes `{FloatEnv} fs bsz n p :
  0 < m (NewFilter n p) <= 2 ^ 32 - 8 -> writes (Create (mkFile [] 0 fs) bsz n p) [] [].
Proof.
  intros Hm. destruct (wf_NewFilter n p Hm) as [Hwf Hl]. pose proof (NewFilter_k n p).
  split; cbn [file block currentBlockSize index filter offset Create fdata entries ientries];
    try done.
  - split; [done|]. split; [lia|set_solver].
  - lia.
Qed.

Lemma table_small_app_l l1 l2 : table_small (l1 ++ l2) -> table_small l1.
Proof. unfold table_small. rewrite table_space_app. pose proof (table_space_nonneg l2). lia. Qed.

Lemma flushBlock_writes w bs cur w' :
  writes w bs cur -> flushBlock w = (w', None) ->
  writes w' (if decide (cur = []) then bs else bs ++ [cur]) [] ∧
  blockSize w' = blockSize w ∧ filter w' = filter w.
Proof.
  intros Hw. unfold flushBlock. rewrite (writes_block _ _ _ Hw).
  destruct (decide (cur = [])) as [->|Hne]; [by intros [= <-]|].
  destruct (exists_last Hne) as (cur' & r & Ecur). rewrite Ecur, last_snoc, <- Ecur.
  destruct (writeBlock w (file w)) as [[f n] [e|]] eqn:Ew; [done|]. intros [= <-].
  pose proof (writes_small _ _ _ Hw) as Hs. apply Forall_app in Hs as [Hs1 Hs2].
  pose proof (writes_space _ _ _ Hw) as Hsp. unfold table_small in Hsp. rewrite table_space_app in Hsp.
  pose proof (block_size_space cur) as Hbs. pose proof (block_size_pos cur).
  pose proof (data_bytes_space bs (writes_nonempty _ _ _ Hw)) as Hdb.
  pose proof (len_nonneg bs). pose proof (len_nonneg (data_bytes bs)).
  pose proof (table_space_nonneg (concat bs)).
  assert (48 + block_size cur <= table_space cur) as Hbs2.
  { rewrite block_size_eq. unfold table_space. assert (1 <= len cur) by (rewrite Ecur; len_lia). lia. }
  destruct (writeBlock_spec w (file w) f n) as [Hd ->];
    rewrite ?(writes_block _ _ _ Hw); [done|by rewrite (writes_size _ _ _ Hw)|lia|done|].
  rewrite (writes_block _ _ _ Hw) in Hd. unfold set_file. cbn. split; [|done].
  split; cbn [file block currentBlockSize index filter offset fdata entries ientries].
  - by rewrite Hd, (writes_data _ _ _ Hw), data_bytes_snoc.
  - done.
  - done.
  - rewrite index_of_app, (writes_index _ _ _ Hw), Z.add_0_l. f_equal. cbn [index_of].
    rewrite Ecur at 2. rewrite map_app. cbn [map]. rewrite List.last_last, u32_small, (writes_offset _ _ _ Hw) by lia. done.
  - rewrite data_bytes_snoc, len_app, len_block_bytes, (writes_offset _ _ _ Hw), u64_small by lia. done.
  - rewrite concat_app. cbn. rewrite !app_nil_r. apply (writes_filter _ _ _ Hw).
  - apply (writes_bits _ _ _ Hw).
  - apply Forall_app. split; [apply (writes_nonempty _ _ _ Hw)|by apply Forall_singleton].
  - rewrite concat_app. cbn. rewrite !app_nil_r. apply (writes_small _ _ _ Hw).
  - rewrite concat_app. cbn. rewrite !app_nil_r. apply (writes_space _ _ _ Hw).
Qed.

Lemma Add_writes w bs cur r :
  writes w bs cur -> small_rec r -> table_small ((concat bs ++ cur) ++ [r]) ->
  ∃ w' err, Add w r = Ok (w', err) ∧
    (err = None -> ∃ bs' cur', writes w' bs' cur' ∧ concat bs' ++ cur' = (concat bs ++ cur) ++ [r]).
Proof.
  intros Hw Hr Hsp. unfold Add.
  destruct (Add_covers _ _ (UserKey r) (writes_filter _ _ _ Hw)) as (f & -> & Hf & Hm & Hk & Hlb).
  cbn [mbind res_bind]. set (w1 := mkTW _ _ _ _ _ _ _ _).
  assert (writes w1 bs (cur ++ [r])) as Hw1.
  { pose proof (block_size_pos cur). unfold table_small in Hsp. rewrite !table_space_app in Hsp.
    pose proof (table_space_nonneg (concat bs)). pose proof (block_size_space cur).
    assert (len (record_bytes r) <= table_space [r]) as Hr2 by (unfold table_space; cbn; rewrite app_nil_r; len_lia).
    pose proof (len_nonneg (record_bytes r)). pose proof (table_space_nonneg cur).
    subst w1. split; cbn [file block currentBlockSize index filter offset fdata entries ientries];
      try apply Hw.
    - by rewrite (writes_block _ _ _ Hw).
    - rewrite (writes_size _ _ _ Hw), (Size_exact r Hr), block_size_snoc.
      rewrite (u64_small (block_size cur - 4 + 4)) by lia. rewrite u64_small by lia. lia.
    - eapply covers_perm; [exact Hf|]. rewrite !map_app. cbn [map].
      rewrite app_assoc, <- Permutation_cons_append. done.
    - rewrite Hm, Hk, Hlb. apply (writes_bits _ _ _ Hw).
    - rewrite app_assoc. apply Forall_app. split; [apply Hw|by apply Forall_singleton].
    - rewrite app_assoc. unfold table_small. rewrite !table_space_app. lia. }
  destruct (blockSize w1 <=? currentBlockSize w1).
  - destruct (flushBlock w1) as [w2 err] eqn:E. exists w2, err. split; [done|]. intros ->.
    destruct (flushBlock_writes _ _ _ _ Hw1 E) as [Hw2 _].
    rewrite decide_False in Hw2 by (by destruct cur). eexists _, _. split; [exact Hw2|].
    rewrite concat_app. cbn. by rewrite !app_nil_r, app_assoc.
  - exists w1, None. split; [done|]. intros _. exists bs, (cur ++ [r]). by rewrite app_assoc.
Qed.

(** A closed table file with the blocks [bs]. *)
Definition table_of (data : bytes) (bs : list (list Rec)) : Prop :=
  ∃ f, data = table_bytes bs f ∧ Forall (λ b, b ≠ []) bs ∧
    Forall small_rec (concat bs) ∧ table_small (concat bs) ∧ enc_filter f ∧
    len (filter_bytes f) < 2 ^ 32 ∧ covers f (map (λ r : Rec, UserKey r) (concat bs)).

(** A table of the records [rs]. *)
Definition is_table (data : bytes) (rs : list Rec) : Prop :=
  ∃ bs, table_of data bs ∧ concat bs = rs.

Lemma Close_writes w bs cur w' size :
  writes w bs cur -> Close w = Ok (w', size, None) ->
  is_table (fdata (file w')) (concat bs ++ cur) ∧ size = len (fdata (file w')) ∧
  fdurable (file w') = size.
Proof.
  intros Hw. unfold Close. destruct (flushBlock w) as [w1 [e|]] eqn:Ef; [done|].
  destruct (flushBlock_writes _ _ _ _ Hw Ef) as (Hw1 & _).
  set (bs1 := if decide (cur = []) then bs else bs ++ [cur]) in *.
  assert (concat bs1 = concat bs ++ cur) as Ebs.
  { subst bs1. destruct (decide (cur = [])) as [->|]; [by rewrite app_nil_r|].
    rewrite concat_app. cbn. by rewrite app_nil_r. }
  rewrite <- Ebs. clearbody bs1. clear Hw Ef Ebs bs cur.
  pose proof (writes_small _ _ _ Hw1) as Hs. pose proof (writes_space _ _ _ Hw1) as Hsp.
  pose proof (writes_filter _ _ _ Hw1) as Hfl. rewrite app_nil_r in Hs, Hsp, Hfl.
  unfold table_small in Hsp. pose proof (writes_nonempty _ _ _ Hw1) as Hne.
  destruct (index_of_wf 0 bs1 Hne Hs) as [Hwf Hlen]; [lia|lia|].
  assert (index w1 = mkIB (index_of 0 bs1)) as Ei
    by (rewrite <- (writes_index _ _ _ Hw1); by destruct (index w1)).
  rewrite Ei, encodeIndexBlock_spec by done. cbn [mbind res_bind].
  pose proof (w_Write_spec (file w1) (index_bytes (index_of 0 bs1))) as Hwr.
  unfold w_Write, File_Writer in Hwr. destruct (file_Write (file w1) _) as [[f1 n1] [e|]]; [done|].
  destruct Hwr as (q & _ & Hd1 & -> & Hq). rewrite (Hq eq_refl) in *. clear q Hq.
  rewrite EncodeFilter_spec. cbn [mbind res_bind set_file file filter offset].
  pose proof (w_Write_spec f1 (filter_bytes (filter w1))) as Hwr.
  unfold w_Write, File_Writer in Hwr. destruct (file_Write f1 _) as [[f2 n2] [e|]]; [done|].
  destruct Hwr as (q & _ & Hd2 & -> & Hq). rewrite (Hq eq_refl) in *. clear q Hq.
  rewrite encodeFooter_spec. cbn [mbind res_bind set_file file filter offset index].
  set (ft := mkFooter _ _ _ _ _).
  pose proof (w_Write_spec f2 (footer_bytes ft)) as Hwr.
  unfold w_Write, File_Writer in Hwr. destruct (file_Write f2 _) as [[f3 n3] [e|]]; [done|].
  destruct Hwr as (q & _ & Hd3 & -> & Hq). rewrite (Hq eq_refl) in *. clear q Hq.
  unfold file_Sync. intros Hok.
  assert (fdata (file w') = fdata f3 ∧ size = len (fdata f3) ∧ fdurable (file w') = len (fdata f3))
    as (E1 & -> & E2).
  { unfold file_Stat in Hok. destruct (ffaults f3) as [|[x|] fl]; cbn in Hok; [|done|].
    - injection Hok as <- <-. done.
    - destruct fl as [|[y|] fl]; cbn in Hok; [|done|]; injection Hok as <- <-; done. }
  rewrite E1. split; [|by rewrite E2]. clear Hok E1 E2 w'.
  pose proof (data_bytes_space bs1 Hne). pose proof (len_nonneg bs1).
  pose proof (len_nonneg (data_bytes bs1)). pose proof (writes_bits _ _ _ Hw1) as (Hb1 & Hb2 & Hb3).
  assert (len (index_bytes (index_of 0 bs1)) <= 4 + table_space (concat bs1)) as Hil
    by (unfold index_bytes; rewrite len_app; len_lia).
  pose proof (len_nonneg (index_bytes (index_of 0 bs1))). pose proof (len_nonneg (bits (filter w1))).
  destruct Hfl as (Hfl1 & Hfl2 & Hfl3). destruct Hfl1 as [Hm0 Hm1].
  exists bs1. split; [|done]. exists (filter w1). split_and!; try done; try lia.
  - rewrite Hd3, Hd2, Hd1, (writes_data _ _ _ Hw1). unfold table_bytes, table_footer.
    rewrite <- !app_assoc. subst ft. rewrite (writes_offset _ _ _ Hw1).
    rewrite len_filter_bytes in *. rewrite !u32_small by lia. rewrite u64_small by lia. done.
  - unfold enc_filter. lia.
  - rewrite len_filter_bytes. lia.
Qed.

(** Add the records until an error. *)
Fixpoint Add_records (w : TableWriter) (rs : list Rec) : res (TableWriter * option error) :=
  match rs with
  | [] => Ok (w, None)
  | r :: rs =>
      '(w, err) ← Add w r;
      match err with Some e => Ok (w, Some e) | None => Add_records w rs end
  end.

Lemma Add_records_writes w bs cur rs :
  writes w bs cur -> Forall small_rec rs -> table_small ((concat bs ++ cur) ++ rs) ->
  ∃ w' err, Add_records w rs = Ok (w', err) ∧
    (err = None -> ∃ bs' cur', writes w' bs' cur' ∧ concat bs' ++ cur' = (concat bs ++ cur) ++ rs).
Proof.
  intros Hw Hs. revert w bs cur Hw. induction Hs as [|r rs Hr Hs IH]; intros w bs cur Hw Hsp.
  - eexists _, _. split; [done|]. intros _. exists bs, cur. by rewrite app_nil_r.
  - cbn [Add_records]. replace ((concat bs ++ cur) ++ r :: rs) with (((concat bs ++ cur) ++ [r]) ++ rs) in *
      by (by rewrite <- app_assoc).
    destruct (Add_writes w bs cur r Hw Hr (table_small_app_l _ _ Hsp)) as (w1 & err & -> & Hw1).
    cbn [mbind res_bind]. destruct err as [e|]; [by eexists _, _|].
    destruct (Hw1 eq_refl) as (bs1 & cur1 & Hw1' & E). rewrite <- E in *. by apply IH.
Qed.

(** ** Without faults nothing fails *)

Definition ok_chain (x : bufio_Writer TeeWriter * option error) : Prop :=
  x.2 = None ∧ bok (no_faults ∘ tfile) x.1.

Lemma and_then_ok x k :
  ok_chain x -> (∀ b, bok (no_faults ∘ tfile) b -> ok_chain (k b)) -> ok_chain (and_then x k).
Proof. intros [He Hb] Hk. destruct x as [b err]. cbn in He. subst err. by apply Hk. Qed.

Lemma bw_Write_ok p b : bok (no_faults ∘ tfile) b -> ok_chain (bw_Write p b).
Proof.
  intros Hb. unfold bw_Write. destruct (bufio_Write_ok _ tee_Write_ok b p Hb) as (b' & n & -> & Hb').
  done.
Qed.

Lemma write_step_ok p (st : bufio_Writer TeeWriter * Z * option error) :
  ok_chain (st.1.1, st.2) -> ok_chain ((write_step p st).1.1, (write_step p st).2).
Proof.
  destruct st as [[b n] [e|]]; intros [He Hb]; [done|]. cbn [fst snd] in *. unfold write_step, w_Write,
    bufio_Writer_Writer. destruct (bufio_Write_ok _ tee_Write_ok b p Hb) as (b' & n' & -> & Hb'). done.
Qed.

Lemma EncodeRecord_ok r b :
  bok (no_faults ∘ tfile) b ->
  ok_chain (let '(bw, _, err) := EncodeRecordIntoWriter b r in (bw, err)).
Proof.
  intros Hb. assert (ok_chain ((EncodeRecordIntoWriter b r).1.1, (EncodeRecordIntoWriter b r).2)) as H.
  { unfold EncodeRecordIntoWriter. do 6 apply write_step_ok. done. }
  by destruct (EncodeRecordIntoWriter b r) as [[b' n] err].
Qed.

Lemma writeBlock_loop_ok es b : bok (no_faults ∘ tfile) b -> ok_chain (writeBlock_loop es b).
Proof.
  revert b. induction es as [|r es IH]; intros b Hb; cbn [writeBlock_loop]; [done|].
  apply and_then_ok; [by apply bw_Write_ok|]. intros b1 H1.
  apply and_then_ok; [by apply EncodeRecord_ok|]. auto.
Qed.

Lemma writeBlock_ok w f :
  no_faults f -> ∃ f' n, writeBlock w f = (f', n, None) ∧ no_faults f'.
Proof.
  intros Hf. unfold writeBlock. set (chain := and_then _ _).
  assert (ok_chain chain) as [He Hb].
  { apply and_then_ok; [by apply bw_Write_ok|]. intros b1 H1.
    apply and_then_ok; [by apply bw_Write_ok|]. intros b2 H2.
    apply and_then_ok; [by apply writeBlock_loop_ok|]. intros b3 H3.
    destruct (bufio_Flush_ok _ tee_Write_ok b3 H3) as (b4 & -> & H4). done. }
  clearbody chain. destruct chain as [b err]. cbn in He, Hb. subst err.
  rewrite file_Write_ok by apply Hb. by eexists _, _.
Qed.

Lemma flushBlock_ok w :
  no_faults (file w) -> ∃ w', flushBlock w = (w', None) ∧ no_faults (file w').
Proof.
  intros Hf. unfold flushBlock. destruct (last _); [|by eexists].
  destruct (writeBlock_ok w (file w) Hf) as (f' & n & -> & Hf'). by eexists.
Qed.

Lemma Add_ok w r w' err :
  no_faults (file w) -> Add w r = Ok (w', err) -> err = None ∧ no_faults (file w').
Proof.
  intros Hf. unfold Add. destruct (Filter.Add _ _) as [f| |]; [|done..]. cbn [mbind res_bind].
  set (w1 := mkTW _ _ _ _ _ _ _ _). destruct (_ <=? _); [|by intros [= <- <-]].
  destruct (flushBlock_ok w1) as (w2 & -> & H2); [done|]. by intros [= <- <-].
Qed.

Lemma Add_records_ok w rs w' err :
  no_faults (file w) -> Add_records w rs = Ok (w', err) -> err = None ∧ no_faults (file w').
Proof.
  revert w. induction rs as [|r rs IH]; intros w Hf; cbn [Add_records]; [by intros [= <- <-]|].
  destruct (Add w r) as [[w1 err1]| |] eqn:E; [|done..]. cbn [mbind res_bind].
  destruct (Add_ok _ _ _ _ Hf E) as [-> Hf1]. by apply IH.
Qed.

Lemma Close_ok w bs cur :
  writes w bs cur -> ∃ w' size err, Close w = Ok (w', size, err) ∧
    (no_faults (file w) -> err = None ∧ no_faults (file w')).
Proof.
  intros Hw. unfold Close. destruct (flushBlock w) as [w1 [e|]] eqn:Ef.
  { eexists _, _, _. split; [done|]. intros Hf.
    destruct (flushBlock_ok w Hf) as (w2 & E & _). by rewrite Ef in E. }
  destruct (flushBlock_writes _ _ _ _ Hw Ef) as (Hw1 & _).
  assert (no_faults (file w) -> no_faults (file w1)) as Hnf.
  { intros Hf. destruct (flushBlock_ok w Hf) as (w2 & E & H2). rewrite Ef in E. by injection E as <-. }
  assert (Forall wf_index_entry (ientries (index w1))) as Hwf.
  { rewrite (writes_index _ _ _ Hw1). pose proof (writes_space _ _ _ Hw1) as Hsp.
    pose proof (writes_small _ _ _ Hw1) as Hs. rewrite app_nil_r in Hs, Hsp.
    apply index_of_wf; [apply (writes_nonempty _ _ _ Hw1)|done|lia|exact Hsp]. }
  destruct (index w1) as [ies]. rewrite encodeIndexBlock_spec by done. cbn [mbind res_bind].
  destruct (file_Write (file w1) _) as [[f1 n1] err1] eqn:E1.
  assert (no_faults (file w) -> err1 = None ∧ no_faults f1) as Hn1.
  { intros Hf%Hnf. rewrite file_Write_ok in E1 by done. by injection E1 as <- <- <-. }
  destruct err1 as [e|]; [eexists _, _, _; split; [done|]; by intros [? _]%Hn1|].
  rewrite EncodeFilter_spec. cbn [mbind res_bind set_file file filter offset].
  destruct (file_Write f1 _) as [[f2 n2] err2] eqn:E2.
  assert (no_faults (file w) -> err2 = None ∧ no_faults f2) as Hn2.
  { intros [_ Hf]%Hn1. rewrite file_Write_ok in E2 by done. by injection E2 as <- <- <-. }
  destruct err2 as [e|]; [eexists _, _, _; split; [done|]; by intros [? _]%Hn2|].
  rewrite encodeFooter_spec. cbn [mbind res_bind set_file file filter offset].
  destruct (file_Write f2 _) as [[f3 n3] err3] eqn:E3.
  assert (no_faults (file w) -> err3 = None ∧ no_faults f3) as Hn3.
  { intros [_ Hf]%Hn2. rewrite file_Write_ok in E3 by done. by injection E3 as <- <- <-. }
  destruct err3 as [e|]; [eexists _, _, _; split; [done|]; by intros [? _]%Hn3|].
  destruct (file_Sync f3) as [f4 [e|]] eqn:E4.
  { eexists _, _, _. split; [done|]. intros [_ Hf]%Hn3. unfold file_Sync in E4. by rewrite Hf in E4. }
  destruct (file_Stat f4) as [f5 [n|e]] eqn:E5; (eexists _, _, _; split; [done|]; intros [_ Hf]%Hn3;
    unfold file_Sync in E4; rewrite Hf in E4; injection E4 as <-; cbn in E5; injection E5 as <-; done).
Qed.

(** ** What the writer guarantees *)

(** C17. Adding records and closing never panics.  When no step reports an error, the file holds a
    complete table of exactly the added records in order, all of it synced, and Close returns its
    size; and on a file system without faults no step reports an error. *)
Theorem TableWriter_correct `{FloatEnv} faults bsz n p rs :
  0 < m (NewFilter n p) <= 2 ^ 32 - 8 -> Forall small_rec rs -> table_small rs ->
  ∃ w err, Add_records (Create (mkFile [] 0 faults) bsz n p) rs = Ok (w, err) ∧
    (faults = [] -> err = None) ∧
    (err = None -> ∃ w' size cerr, Close w = Ok (w', size, cerr) ∧
       (faults = [] -> cerr = None) ∧
       (cerr = None -> is_table (fdata (file w')) rs ∧ size = len (fdata (file w')) ∧
          fdurable (file w') = size)).
Proof.
  intros Hm Hs Hsp. pose proof (Create_writes faults bsz n p Hm) as Hw.
  destruct (Add_records_writes _ [] [] rs Hw Hs Hsp) as (w & err & E & Hw').
  exists w, err. split; [done|]. split.
  { intros ->. by eapply Add_records_ok in E as [? _]. }
  intros ->. destruct (Hw' eq_refl) as (bs & cur & Hwr & Ers). cbn [concat app] in Ers.
  destruct (Close_ok _ _ _ Hwr) as (w' & size & cerr & Ec & Hc).
  exists w', size, cerr. split; [done|]. split.
  { intros ->. refine (proj1 (Hc _)). by eapply Add_records_ok in E as [_ ?]. }
  intros ->. destruct (Close_writes _ _ _ _ _ Hwr Ec) as (Ht & -> & Hd). by rewrite <- Ers.
Qed.

#[local] Existing Instance example_env.

Lemma TableWriter_correct_witness :
  ∃ w, Add_records (Create (mkFile [] 0 []) 20 1000 example_rate) example_recs = Ok (w, None) ∧
    ∃ w' size, Close w = Ok (w', size, None) ∧ is_table (fdata (file w')) example_recs ∧
      fdurable (file w') = size.
Proof.
  destruct (TableWriter_correct [] 20 1000 example_rate example_recs) as (w & err & E & He & Hw).
  - rewrite example_filter_m. lia.
  - by apply (bool_decide_unpack _).
  - done.
  - specialize (He eq_refl). subst err. exists w. split; [exact E|].
    destruct (Hw eq_refl) as (w' & size & cerr & Ec & Hc & Ht). specialize (Hc eq_refl). subst cerr.
    destruct (Ht eq_refl) as (Ht1 & _ & Ht2). exists w', size. split_and!; [exact Ec|exact Ht1|exact Ht2].
Defined.
