(* ===== verification/TableReader.v ===== *)
(** * Package sstable: reading tables

    [reader.go] and [iterator.go].  Readers share the block cache and the operating system: [RWorld]
    is what their operations may change, the cache, the faults of the coming reads and the set of
    closed file descriptors.  A table file does not change once it is open. *)

From S2P Require Import Prelude.
From S2P Require Import GoStd.
From S2P Require Import GoIO.
From S2P Require Import Records.
From S2P Require Import Skiplist.
From S2P Require Import Versions.
From S2P Require Import Iterators.
From S2P Require Import Filter.
From S2P Require Import Blocks.
From S2P Require Import BlockCache.
From S2P Require Import Names.
From S2P Require Import TableWriter.

(** ** Effects of reading *)

Record RWorld := mkRW { rcache : BlockCache; rfaults : list bool; rclosed : gset nat; rnext : nat }.

Definition RM (A : Type) : Type := RWorld -> res A * RWorld.

#[export] Instance RM_ret : MRet RM := λ A a w, (Ok a, w).
#[export] Instance RM_bind : MBind RM := λ A B f m w,
  match m w with (Ok a, w) => f a w | (Err e, w) => (Err e, w) | (Panic, w) => (Panic, w) end.

Definition lift {A} (m : res A) : RM A := λ w, (m, w).

(** One system call: an error if the next fault says so. *)
Definition syscall : RM unit := λ w,
  match rfaults w with
  | true :: fl => (Err ErrIO, mkRW (rcache w) fl (rclosed w) (rnext w))
  | fl => (Ok tt, mkRW (rcache w) (tail fl) (rclosed w) (rnext w))
  end.

(** File.ReadAt on descriptor [fd] of a file with contents [data]. *)
Definition pread (fd : nat) (data : bytes) (n off : Z) : RM bytes := λ w,
  (if decide (fd ∈ rclosed w) then Err (ErrText "file already closed") else ReadAt_data data n off, w).

Definition ReadAt (fd : nat) (data : bytes) (n off : Z) : RM bytes :=
  _ ← syscall; pread fd data n off.

Definition new_fd : RM nat := λ w,
  (Ok (rnext w), mkRW (rcache w) (rfaults w) (rclosed w) (S (rnext w))).

Definition cache_Get (f o : Z) : RM (option Block) := λ w,
  match BlockCache.Get (rcache w) f o with
  | Some (c, r) => (Ok r, mkRW c (rfaults w) (rclosed w) (rnext w))
  | None => (Panic, w)
  end.

Definition cache_Set (f o : Z) (b : Block) : RM unit := λ w,
  match BlockCache.Set_ (rcache w) f o b with
  | Some c => (Ok tt, mkRW c (rfaults w) (rclosed w) (rnext w))
  | None => (Panic, w)
  end.

(** ** The reader *)

Record TableReader := mkTR {
  rfd : nat;
  rdata : bytes;
  rindex : IndexBlock;
  rfilter : Filter;
  rfooter : Footer;
  rcached : bool; (* the cache pointer is not nil *)
  fileNum : Z
}.

Definition readAt (fd : nat) (data : bytes) (offset size : Z) : RM bytes := ReadAt fd data size offset.

(** [file]: the contents under the path, if it exists; [name]: the base name of the path. *)
Definition Open (file : option bytes) (name : list Ascii.ascii) (cached : bool) : RM TableReader :=
  data ← lift (match file with Some d => Ok d | None => Err ErrIO end);
  fd ← new_fd;
  _ ← syscall;
  let size := len data in
  footerBytes ← readAt fd data (size - FooterSize) FooterSize;
  footer ← lift (decodeFooter footerBytes);
  indexBytes ← readAt fd data (i64 (IndexOffset footer)) (IndexSize footer);
  index ← lift (decodeIndexBlock indexBytes);
  filterBytes ← readAt fd data (i64 (FilterOffset footer)) (FilterSize footer);
  filter ← lift (DecodeFilter filterBytes);
  let fileNum := (scan_table name).1 in
  mret (mkTR fd data index filter footer cached fileNum).

(** File.Close: a descriptor that is closed already is an error; the call may fail, and the
    descriptor is closed all the same. *)
Definition Close (r : TableReader) : RM unit := λ w,
  if decide (rfd r ∈ rclosed w) then (Err (ErrText "file already closed"), w)
  else let '(x, w) := syscall w in (x, mkRW (rcache w) (rfaults w) ({[rfd r]} ∪ rclosed w) (rnext w)).

Lemma Close_open r w :
  rfaults w = [] -> rfd r ∉ rclosed w ->
  Close r w = (Ok tt, mkRW (rcache w) (rfaults w) ({[rfd r]} ∪ rclosed w) (rnext w)).
Proof. intros Hf Hr. unfold Close, syscall. rewrite decide_False by exact Hr. by rewrite Hf. Qed.

(** Whatever Close answers, the reader is closed after it; a second Close is an error. *)
Lemma Close_closes r w : rfd r ∈ rclosed (Close r w).2.
Proof.
  unfold Close. destruct (decide _) as [Hin|_]; [exact Hin|]. destruct (syscall w) as [x w1]. cbn. set_solver.
Qed.

Lemma Close_twice r w : (Close r (Close r w).2).1 = Err (ErrText "file already closed").
Proof. unfold Close at 1. by rewrite decide_True by apply Close_closes. Qed.

(** The part of readBlock after a miss. *)
Definition fetchBlock (r : TableReader) (offset size : Z) : RM Block :=
  blockBytes ← ReadAt (rfd r) (rdata r) size (i64 offset);
  block ← lift (decodeBlock blockBytes);
  _ ← (if rcached r then cache_Set (fileNum r) offset block else mret tt);
  mret block.

Definition readBlock (r : TableReader) (offset size : Z) : RM Block :=
  hit ← (if rcached r then cache_Get (fileNum r) offset else mret None);
  match hit with
  | Some data => mret data
  | None => fetchBlock r offset size
  end.

Definition findBlockIndex (r : TableReader) (key : InternalKey) : nat :=
  let es := ientries (rindex r) in
  sort_Search (length es) (λ i,
    match es !! i with Some e => 0 <=? Compare (SeparatorKey e) key | None => false end).

Definition findBlock (r : TableReader) (key : InternalKey) : option IndexEntry :=
  ientries (rindex r) !! findBlockIndex r key.

(** The search in the entries of a block. *)
Definition searchBlock (es : list Rec) (key : InternalKey) : option Rec :=
  let idx := sort_Search (length es) (λ i,
    match (es !! i : option Rec) with Some x => 0 <=? Compare x key | None => false end) in
  match (es !! idx : option Rec) with
  | Some rec => if bytes_Equal (UserKey rec) (UserKey key) then Some rec else None
  | None => None
  end.

(** The record, if one was found. *)
Definition Get (r : TableReader) (key : InternalKey) : RM (option Rec) :=
  hit ← lift (Contains (rfilter r) (UserKey key));
  if negb hit then mret None else
  match findBlock r key with
  | None => mret None
  | Some entry =>
      block ← readBlock r (BlockOffset entry) (BlockSize entry);
      mret (searchBlock (entries block) key)
  end.

(** ** The iterator *)

Record SSTableIterator := mkSI {
  si_reader : TableReader;
  si_blockIndex : nat;
  si_block : option Block;
  si_entryIndex : nat
}.

(** Any error ends the iteration: the block becomes nil. *)
Definition loadBlock (it : SSTableIterator) (w : RWorld) : option (SSTableIterator * RWorld) :=
  let nil := mkSI (si_reader it) (si_blockIndex it) None (si_entryIndex it) in
  match ientries (rindex (si_reader it)) !! si_blockIndex it with
  | None => Some (nil, w)
  | Some entry =>
      match readBlock (si_reader it) (BlockOffset entry) (BlockSize entry) w with
      | (Panic, _) => None
      | (Err _, w) => Some (nil, w)
      | (Ok block, w) => Some (mkSI (si_reader it) (si_blockIndex it) (Some block) 0, w)
      end
  end.

Definition Iterator (r : TableReader) (w : RWorld) : option (SSTableIterator * RWorld) :=
  loadBlock (mkSI r 0 None 0) w.

Definition si_current (it : SSTableIterator) : option Rec :=
  b ← si_block it; entries b !! si_entryIndex it.

Definition si_Valid (it : SSTableIterator) : bool :=
  match si_block it with
  | Some b => (si_entryIndex it <? length (entries b))%nat
  | None => false
  end.

(** The accessors are only meant for a valid iterator; out of range they panic, here zero values. *)
Definition si_InternalKey (it : SSTableIterator) : InternalKey :=
  match si_current it with Some r => RKey r | None => mkIK [] 0 0 end.

Definition si_Value (it : SSTableIterator) : option bytes :=
  match si_current it with Some r => Value r | None => None end.

Definition si_Next (it : SSTableIterator) (w : RWorld) : option (SSTableIterator * RWorld) :=
  b ← si_block it;
  if (si_entryIndex it + 1 <? length (entries b))%nat
  then Some (mkSI (si_reader it) (si_blockIndex it) (si_block it) (si_entryIndex it + 1), w)
  else loadBlock (mkSI (si_reader it) (si_blockIndex it + 1) (si_block it) (si_entryIndex it)) w.

(** The loop of Seek: skip the entries before the target, from [i] on. *)
Fixpoint si_skip (es : list Rec) (target : InternalKey) : nat :=
  match es with
  | [] => 0
  | x :: es => if Compare (RKey x) target <? 0 then S (si_skip es target) else 0
  end.

Definition si_Seek (target : InternalKey) (it : SSTableIterator) (w : RWorld) :
    option (SSTableIterator * RWorld) :=
  let idx := findBlockIndex (si_reader it) target in
  if (length (ientries (rindex (si_reader it))) <=? idx)%nat
  then Some (mkSI (si_reader it) (si_blockIndex it) None (si_entryIndex it), w)
  else
    '(it, w) ← loadBlock (mkSI (si_reader it) idx (si_block it) (si_entryIndex it)) w;
    b ← si_block it;
    let e := (si_entryIndex it + si_skip (drop (si_entryIndex it) (entries b)) target)%nat in
    let it := mkSI (si_reader it) (si_blockIndex it) (si_block it) e in
    if (length (entries b) <=? e)%nat
    then loadBlock (mkSI (si_reader it) (si_blockIndex it + 1) (si_block it) e) w
    else Some (it, w).

#[export] Instance SSTableIterator_Ops : IteratorOps RWorld SSTableIterator := {
  iter_Valid := si_Valid;
  iter_InternalKey := si_InternalKey;
  iter_Value := si_Value;
  iter_Next := si_Next;
  iter_Seek := si_Seek
}.

(** ** Specification *)

Definition norm (l : list Rec) : list Rec := map normalize l.

Definition block_of (es : list Rec) : Block := mkBlock (norm es).

Definition sep (es : list Rec) : InternalKey := List.last (map RKey es) (mkIK [] 0 0).

(** A reader [r] of a table that holds the blocks [bs]. *)
Record wf_reader (r : TableReader) (bs : list (list Rec)) : Prop := {
  wf_rindex : ientries (rindex r) = index_of 0 bs;
  wf_rdata : ∃ tl, rdata r = data_bytes bs ++ tl;
  wf_rfilter : covers (rfilter r) (map (λ x : Rec, UserKey x) (concat bs));
  wf_rnonempty : Forall (λ b, b ≠ []) bs;
  wf_rsmall : Forall small_rec (concat bs);
  wf_rspace : table_small (concat bs);
  wf_rsorted : sorted_recs (concat bs)
}.

Section reading.
(** The tables on disk by number, and the descriptors closed and the next one, which reading does
    not change. *)
Context (disk : gmap Z (list (list Rec))) (cl : gset nat) (nx : nat).

Definition cached_ok (key : Z * Z) (b : Block) : Prop :=
  ∃ pre blk post, disk !! key.1 = Some (pre ++ blk :: post) ∧ key.2 = len (data_bytes pre) ∧
    b = block_of blk.

Definition reader_World : World RWorld := λ w,
  coherent cached_ok (rcache w) ∧ rfaults w = [] ∧ rclosed w = cl ∧ rnext w = nx.

Definition reads (r : TableReader) (bs : list (list Rec)) : Prop :=
  wf_reader r bs ∧ (rfd r ∉ cl) ∧ disk !! fileNum r = Some bs.

(** *** Blocks *)

Lemma data_bytes_app bs1 bs2 : data_bytes (bs1 ++ bs2) = data_bytes bs1 ++ data_bytes bs2.
Proof. unfold data_bytes. by rewrite map_app, concat_app. Qed.

Lemma data_bytes_cons b bs : data_bytes (b :: bs) = block_bytes b ++ data_bytes bs.
Proof. reflexivity. Qed.

(** What the space bound gives for each block of the table. *)
Lemma wf_reader_block r pre blk post :
  wf_reader r (pre ++ blk :: post) ->
  len (data_bytes pre) + block_size blk < 2 ^ 31 ∧ Forall small_rec blk ∧ len blk < 2 ^ 31 ∧ blk ≠ [].
Proof.
  intros Hr. pose proof (wf_rsmall _ _ Hr) as Hs. pose proof (wf_rspace _ _ Hr) as Hsp.
  pose proof (wf_rnonempty _ _ Hr) as Hn. unfold table_small in Hsp.
  pose proof (data_bytes_space _ Hn) as Hd. rewrite data_bytes_app, data_bytes_cons, !len_app in Hd.
  rewrite len_block_bytes in Hd. apply Forall_app in Hn as [_ [Hb _]%Forall_cons].
  rewrite concat_app in *. cbn [concat] in *. rewrite !table_space_app in *.
  apply Forall_app in Hs as [_ [Hs _]%Forall_app].
  rewrite len_cons in Hd. pose proof (len_nonneg pre). pose proof (len_nonneg post).
  pose proof (len_nonneg (data_bytes post)). pose proof (len_nonneg blk).
  pose proof (len_nonneg (concat (map record_bytes blk))).
  pose proof (table_space_nonneg (concat pre)). pose proof (table_space_nonneg (concat post)).
  split_and!; [lia|done| |done]. unfold table_space at 2 in Hsp. lia.
Qed.

Lemma wf_reader_index r pre blk post :
  wf_reader r (pre ++ blk :: post) ->
  ientries (rindex r) !! length pre = Some (mkIE (sep blk) (len (data_bytes pre)) (block_size blk)).
Proof.
  intros Hr. rewrite (wf_rindex _ _ Hr), index_of_app, <- (length_index_of 0 pre).
  rewrite lookup_app_r, Nat.sub_diag by lia. done.
Qed.

Lemma RM_bind_ok {A B} (m : RM A) (f : A -> RM B) w a w' :
  m w = (Ok a, w') -> (m ≫= f) w = f a w'.
Proof. intros E. unfold mbind, RM_bind. by rewrite E. Qed.

(** The offset of a block tells it from the others. *)
Lemma data_bytes_offset pre blk post pre' blk' post' :
  pre ++ blk :: post = pre' ++ blk' :: post' -> len (data_bytes pre) = len (data_bytes pre') -> blk = blk'.
Proof.
  revert pre'. induction pre as [|b pre IH]; intros [|b' pre'] E Ho; cbn [app] in E.
  - congruence.
  - rewrite data_bytes_cons, len_app, len_block_bytes in Ho. pose proof (block_size_pos b').
    pose proof (len_nonneg (data_bytes pre')). change (len (data_bytes [])) with 0 in Ho. lia.
  - rewrite data_bytes_cons, len_app, len_block_bytes in Ho. pose proof (block_size_pos b).
    pose proof (len_nonneg (data_bytes pre)). change (len (data_bytes [])) with 0 in Ho. lia.
  - injection E as -> E. apply (IH _ E). rewrite !data_bytes_cons, !len_app in Ho. lia.
Qed.

Lemma fetchBlock_reads r pre blk post w :
  reads r (pre ++ blk :: post) -> reader_World w ->
  ∃ w', fetchBlock r (len (data_bytes pre)) (block_size blk) w = (Ok (block_of blk), w') ∧
    reader_World w'.
Proof.
  intros (Hr & Hlive & Hdisk) (Hc & Hf & Hcl & Hnx).
  destruct (wf_reader_block _ _ _ _ Hr) as (Hlt & Hs & Hlb & _).
  pose proof (block_size_pos blk). pose proof (len_nonneg (data_bytes pre)).
  assert (ReadAt (rfd r) (rdata r) (block_size blk) (i64 (len (data_bytes pre))) w =
    (Ok (block_bytes blk), mkRW (rcache w) [] (rclosed w) (rnext w))) as E.
  { unfold ReadAt, mbind, RM_bind, syscall. rewrite Hf. unfold pread. cbn [rclosed].
    rewrite decide_False by set_solver.
    assert (i64 (len (data_bytes pre)) = len (data_bytes pre)) as ->
      by (apply i64_small; lia).
    destruct (wf_rdata _ _ Hr) as (tl & ->). rewrite data_bytes_app, data_bytes_cons, <- !app_assoc.
    by rewrite ReadAt_data_app by (by rewrite len_block_bytes). }
  unfold fetchBlock. rewrite (RM_bind_ok _ _ _ _ _ E).
  unfold lift. rewrite decodeBlock_block_bytes by (done || lia).
  change (mkBlock (map normalize blk)) with (block_of blk). unfold mbind, RM_bind.
  destruct (rcached r); [|eexists; split; [done|by split_and!]].
  unfold cache_Set. cbn [rcache].
  destruct (Set_coherent cached_ok (rcache w) (fileNum r) (len (data_bytes pre)) (block_of blk) Hc)
    as (c' & -> & Hc'); [|eexists; split; [done|by split_and!]].
  by exists pre, blk, post.
Qed.

Lemma readBlock_reads r pre blk post w :
  reads r (pre ++ blk :: post) -> reader_World w ->
  ∃ w', readBlock r (len (data_bytes pre)) (block_size blk) w = (Ok (block_of blk), w') ∧
    reader_World w'.
Proof.
  intros Hr Hw. pose proof Hr as (_ & _ & Hdisk). pose proof Hw as (Hc & Hf & Hcl & Hnx). unfold readBlock.
  destruct (rcached r); [|by apply (fetchBlock_reads r pre blk post)].
  destruct (Get_coherent cached_ok (rcache w) (fileNum r) (len (data_bytes pre)) Hc)
    as (c & hit & E & Hcc & Hhit).
  assert (cache_Get (fileNum r) (len (data_bytes pre)) w =
    (Ok hit, mkRW c (rfaults w) (rclosed w) (rnext w))) as Eg by (unfold cache_Get; by rewrite E).
  rewrite (RM_bind_ok _ _ _ _ _ Eg). destruct hit as [b|].
  - assert (b = block_of blk) as ->.
    { destruct (Hhit b eq_refl) as (pre' & blk' & post' & Hd & Ho & ->). cbn in Hd, Ho.
      rewrite Hdisk in Hd. injection Hd as Hd. by rewrite (data_bytes_offset _ _ _ _ _ _ Hd Ho). }
    eexists. split; [done|by split_and!].
  - apply (fetchBlock_reads r pre blk post); [done|by split_and!].
Qed.
(** *** Searching *)

Lemma sep_snoc es x : sep (es ++ [x]) = RKey x.
Proof. unfold sep. rewrite map_app. cbn [map]. by rewrite List.last_last. Qed.

(** Every record is at or before the separator of its block. *)
Lemma sep_le blk x : sorted_recs blk -> x ∈ blk -> Compare (RKey x) (sep blk) <= 0.
Proof.
  intros Hs Hx. destruct (exists_last (l := blk)) as (es & y & ->); [by destruct blk; [set_solver|]|].
  rewrite sep_snoc. apply StronglySorted_app in Hs as (Hs & _ & _).
  apply elem_of_app in Hx as [Hx|Hx].
  - apply (Hs x y Hx). set_solver.
  - apply list_elem_of_singleton in Hx as ->. pose proof (cmp_refl (RKey y)) as Hc.
    unfold cmp, InternalKey_Comparator in Hc. lia.
Qed.

Lemma sep_elem blk : blk ≠ [] -> ∃ x : Rec, x ∈ blk ∧ sep blk = RKey x.
Proof.
  intros Hn. destruct (exists_last Hn) as (es & y & ->). exists y. split; [set_solver|apply sep_snoc].
Qed.

Lemma sorted_seps bs :
  sorted_recs (concat bs) -> Forall (λ b, b ≠ []) bs ->
  StronglySorted (fun x y => cmp (sep x) (sep y) <= 0) bs.
Proof.
  intros Hs Hn. induction Hn as [|b bs Hb Hn IH]; [constructor|]. cbn [concat] in Hs.
  apply StronglySorted_app in Hs as (Hs1 & _ & Hs2). apply StronglySorted_cons. split; [|by apply IH].
  rewrite Forall_forall. intros b' Hb'. rewrite Forall_forall in Hn.
  destruct (sep_elem b Hb) as (x & Hx & ->). destruct (sep_elem b' (Hn b' Hb')) as (y & Hy & ->).
  apply (Hs1 x y Hx). apply list_elem_of_In, in_concat. exists b'.
  split; by apply list_elem_of_In.
Qed.

Lemma sorted_block bs pre blk post :
  sorted_recs (concat bs) -> bs = pre ++ blk :: post -> sorted_recs blk.
Proof.
  intros Hs ->. rewrite concat_app in Hs. cbn in Hs.
  apply StronglySorted_app in Hs as (_ & _ & Hs). by apply StronglySorted_app in Hs as (_ & ? & _).
Qed.

Lemma index_of_seps (P : InternalKey -> Prop) off bs :
  Forall (fun b => P (sep b)) bs -> Forall (fun e => P (SeparatorKey e)) (index_of off bs).
Proof. intros H. revert off. induction H as [|b bs Hb _ IH]; intros off; constructor; [done|apply IH]. Qed.

(** The block search splits the table: everything before the block found is before the target, the
    separator of the block is not. *)
Lemma findBlockIndex_split r bs t :
  wf_reader r bs ->
  ∃ pre post, bs = pre ++ post ∧ findBlockIndex r t = length pre ∧
    Forall (fun x : Rec => cmp (RKey x) t < 0) (concat pre) ∧
    Forall (fun b => 0 <= cmp (sep b) t) post.
Proof.
  intros Hr. pose proof (wf_rsorted _ _ Hr) as Hs. pose proof (wf_rnonempty _ _ Hr) as Hn.
  destruct (sorted_split sep t bs (sorted_seps bs Hs Hn)) as (pre & post & -> & Hpre & Hpost).
  exists pre, post. split_and!; [done| | |done].
  - unfold findBlockIndex. rewrite (wf_rindex _ _ Hr), index_of_app, <- (length_index_of 0 pre).
    apply (sort_Search_app (λ e, 0 <=? Compare (SeparatorKey e) t)).
    + apply (index_of_seps (λ k, (0 <=? Compare k t) = false)). eapply Forall_impl; [exact Hpre|].
      intros b Hb. unfold cmp, InternalKey_Comparator in Hb. cbn beta in *. lia.
    + apply (index_of_seps (λ k, (0 <=? Compare k t) = true)). eapply Forall_impl; [exact Hpost|].
      intros b Hb. unfold cmp, InternalKey_Comparator in Hb. cbn beta in *. lia.
    + by intros i x ->.
  - rewrite Forall_forall. intros x Hx. apply list_elem_of_In, in_concat in Hx as (b & Hb & Hx).
    apply list_elem_of_In in Hb, Hx. apply list_elem_of_split in Hb as (p1 & p2 & ->).
    rewrite Forall_forall in Hpre. apply cmp_le_lt_trans with (sep b).
    + apply sep_le; [|done]. eapply (sorted_block _ p1 b (p2 ++ post)); [exact Hs|].
      by rewrite <- app_assoc.
    + apply Hpre. set_solver.
Qed.

Lemma seek_sorted_norm t l : seek_sorted t (norm l) = norm (seek_sorted t l).
Proof.
  induction l as [|x l IH]; [done|]. cbn. destruct (_ <? 0); [apply IH|done].
Qed.

Lemma candidate_norm k s l : candidate k s (norm l) = normalize <$> candidate k s l.
Proof.
  unfold candidate. rewrite seek_sorted_norm. destruct (seek_sorted _ l) as [|x l']; [done|]. cbn.
  by destruct (bytes_Equal _ _).
Qed.

Lemma small_norm l : Forall small_rec l -> Forall small_rec (norm l).
Proof. intros H. unfold norm. apply Forall_map. eapply Forall_impl; [exact H|]. apply small_normalize. Qed.

Lemma sorted_norm l : sorted_recs l -> sorted_recs (norm l).
Proof.
  induction 1 as [|x l _ IH Hx]; cbn; constructor; [done|]. apply Forall_map. exact Hx.
Qed.

Lemma candidate_sound k s l r : candidate k s l = Some r -> r ∈ l ∧ UserKey r = k.
Proof.
  unfold candidate. intros H. assert (∀ x, x ∈ seek_sorted (mkIK k s 0) l -> x ∈ l) as Hin.
  { clear. induction l as [|y l IH]; [done|]. cbn. destruct (_ <? 0); [|done]. intros x Hx. right. auto. }
  destruct (seek_sorted _ l) as [|x l']; [done|].
  destruct (bytes_Equal (UserKey x) k) eqn:E; [|done]. injection H as ->.
  apply bytes_Equal_spec in E. split; [|done]. apply Hin. left.
Qed.

(** The search in a sorted block. *)
Lemma searchBlock_candidate es k s ty :
  sorted_recs es -> searchBlock es (mkIK k s ty) = candidate k s es.
Proof.
  intros Hs. destruct (sorted_split (fun x : Rec => RKey x) (mkIK k s 0) es Hs)
    as (pre & post & -> & Hpre & Hpost).
  unfold candidate. rewrite seek_sorted_app by done. unfold searchBlock. cbn [UserKey].
  rewrite (sort_Search_app (λ x : Rec, 0 <=? Compare (RKey x) (mkIK k s ty)) pre post).
  - rewrite lookup_app_r, Nat.sub_diag by lia. by destruct post.
  - eapply Forall_impl; [exact Hpre|]. intros x Hx. unfold cmp, InternalKey_Comparator, Compare in *.
    cbn in *. lia.
  - eapply Forall_impl; [exact Hpost|]. intros x Hx. unfold cmp, InternalKey_Comparator, Compare in *.
    cbn in *. lia.
  - by intros i x ->.
Qed.

Lemma seek_sorted_skip t l1 l2 :
  Forall (fun x : Rec => cmp (RKey x) t < 0) l1 -> seek_sorted t (l1 ++ l2) = seek_sorted t l2.
Proof.
  induction 1 as [|x l1 Hx _ IH]; [done|]. cbn. by rewrite (proj2 (Z.ltb_lt _ 0)).
Qed.

(** A block whose separator is not before the target holds the first record that is not. *)
Lemma seek_sorted_sep t blk : 0 <= cmp (sep blk) t -> blk ≠ [] -> seek_sorted t blk ≠ [].
Proof.
  intros Hc Hn. destruct (exists_last Hn) as (es & x & ->). rewrite sep_snoc in Hc. clear Hn.
  induction es as [|y es IH]; cbn.
  - by rewrite (proj2 (Z.ltb_ge _ 0)).
  - by destruct (_ <? 0).
Qed.

Lemma seek_sorted_in t blk rest :
  0 <= cmp (sep blk) t -> blk ≠ [] -> seek_sorted t (blk ++ rest) = seek_sorted t blk ++ rest.
Proof.
  intros Hc Hn. destruct (exists_last Hn) as (es & x & ->). rewrite sep_snoc in Hc. clear Hn.
  induction es as [|y es IH]; cbn.
  - by rewrite (proj2 (Z.ltb_ge _ 0)).
  - by destruct (_ <? 0).
Qed.

(** Get answers with the first record at or after the key, if it is a version of the user key. *)
Lemma Get_reads r bs k sq ty w :
  reads r bs -> reader_World w ->
  ∃ w', Get r (mkIK k sq ty) w = (Ok (candidate k sq (norm (concat bs))), w') ∧ reader_World w'.
Proof.
  intros Hreads Hw. pose proof Hreads as (Hr & _ & _). pose proof (wf_rsorted _ _ Hr) as Hs.
  pose proof (wf_rfilter _ _ Hr) as Hfl. unfold Get. cbn [UserKey].
  destruct (Contains_spec (rfilter r) k) as (b & Ec & _); [apply Hfl|apply Hfl|].
  rewrite (RM_bind_ok (lift (Contains (rfilter r) k)) _ w b w) by (unfold lift; by rewrite Ec).
  rewrite candidate_norm.
  destruct b; cbn [negb]; cycle 1.
  { exists w. split; [|done]. unfold mret, RM_ret. do 2 f_equal.
    destruct (candidate k sq (concat bs)) as [x|] eqn:Ex; [|done]. exfalso.
    apply candidate_sound in Ex as [Hx <-].
    rewrite (covers_Contains _ _ _ Hfl (list_elem_of_fmap_2 _ _ _ Hx)) in Ec. done. }
  destruct (findBlockIndex_split r bs (mkIK k sq ty) Hr) as (pre & post & -> & Ei & Hpre & Hpost).
  assert (candidate k sq (concat (pre ++ post)) = candidate k sq (concat post)) as ->.
  { unfold candidate. rewrite concat_app, seek_sorted_skip; [done|exact Hpre]. }
  unfold findBlock. rewrite Ei. destruct post as [|blk post].
  { rewrite lookup_ge_None_2; [by exists w|].
    rewrite (wf_rindex _ _ Hr), length_index_of, app_nil_r. done. }
  rewrite (wf_reader_index _ _ _ _ Hr). cbn [BlockOffset BlockSize].
  destruct (readBlock_reads r pre blk post w Hreads Hw) as (w' & E & Hw').
  rewrite (RM_bind_ok _ _ _ _ _ E). exists w'. split; [|done]. unfold mret, RM_ret. do 2 f_equal.
  assert (sorted_recs blk) as Hsb by (by eapply sorted_block).
  cbn [block_of entries]. rewrite searchBlock_candidate by (by apply sorted_norm).
  rewrite candidate_norm. f_equal. cbn [concat]. unfold candidate.
  apply Forall_cons in Hpost as [Hsep _].
  rewrite seek_sorted_in; [|exact Hsep|by apply (wf_reader_block _ _ _ _ Hr)].
  destruct (seek_sorted (mkIK k sq 0) blk) as [|x l] eqn:Ex; [|done]. exfalso.
  destruct (wf_reader_block _ _ _ _ Hr) as (_ & _ & _ & Hne).
  exact (seek_sorted_sep (mkIK k sq 0) blk Hsep Hne Ex).
Qed.

(** *** The iterator *)

(** The iterator stands at entry [i] of block [cur]. *)
Definition si_at (it : SSTableIterator) (pre : list (list Rec)) (cur : list Rec) (i : nat) : Prop :=
  si_blockIndex it = length pre ∧ si_block it = Some (block_of cur) ∧ si_entryIndex it = i ∧
  (i < length cur)%nat.

Definition si_rest (it : SSTableIterator) (l : list Rec) : Prop :=
  ∃ bs, reads (si_reader it) bs ∧
    match si_block it with
    | None => l = []
    | Some _ => ∃ pre cur post i, bs = pre ++ cur :: post ∧ si_at it pre cur i ∧
        l = norm (drop i cur ++ concat post)
    end.

Definition si_content (it : SSTableIterator) (l : list Rec) : Prop :=
  ∃ bs, reads (si_reader it) bs ∧ l = norm (concat bs).

Lemma loadBlock_reads r pre post b e w :
  reads r (pre ++ post) -> reader_World w ->
  ∃ it w', loadBlock (mkSI r (length pre) b e) w = Some (it, w') ∧ reader_World w' ∧
    si_reader it = r ∧ si_rest it (norm (concat post)) ∧
    match post with
    | [] => si_block it = None
    | cur :: _ => si_at it pre cur 0
    end.
Proof.
  intros Hr Hw. pose proof Hr as (Hwf & _ & _). unfold loadBlock. cbn [si_reader si_blockIndex].
  destruct post as [|cur post].
  - rewrite lookup_ge_None_2 by (rewrite (wf_rindex _ _ Hwf), length_index_of, app_nil_r; done).
    eexists _, w. split_and!; [done..| |done]. by exists (pre ++ []).
  - rewrite (wf_reader_index _ _ _ _ Hwf). cbn [BlockOffset BlockSize].
    destruct (readBlock_reads r pre cur post w Hr Hw) as (w' & -> & Hw').
    destruct (wf_reader_block _ _ _ _ Hwf) as (_ & _ & _ & Hne).
    assert (0 < length cur)%nat as Hl by (destruct cur; [done|cbn; lia]).
    eexists _, w'. split_and!; [done|done|done| |by split_and!].
    exists (pre ++ cur :: post). split; [done|]. exists pre, cur, post, 0%nat. by split_and!.
Qed.

Lemma si_at_current it pre cur i :
  si_at it pre cur i -> ∃ x l, drop i cur = x :: l ∧ si_Valid it = true ∧
    si_current it = Some (normalize x).
Proof.
  intros (_ & Hb & He & Hi). unfold si_Valid, si_current. rewrite Hb, He.
  destruct (lookup_lt_is_Some_2 cur i Hi) as [x Hx]. rewrite (drop_S _ x) by done.
  exists x, (drop (S i) cur). split_and!; [done| |].
  - cbn. apply Nat.ltb_lt. unfold norm. by rewrite length_map.
  - cbn. unfold norm. by rewrite list_lookup_fmap, Hx.
Qed.

Lemma si_rest_sorted it l : si_rest it l -> sorted_recs l.
Proof.
  intros (bs & (Hr & _) & Hb). destruct (si_block it); [|subst; constructor].
  destruct Hb as (pre & cur & post & i & -> & _ & ->). pose proof (wf_rsorted _ _ Hr) as Hs.
  rewrite concat_app in Hs. cbn in Hs. apply StronglySorted_app in Hs as (_ & _ & Hs).
  rewrite <- (take_drop i cur), <- app_assoc in Hs. apply StronglySorted_app in Hs as (_ & _ & Hs).
  by apply sorted_norm.
Qed.

Lemma si_Valid_rest it l : si_rest it l -> si_Valid it = negb (bool_decide (l = [])).
Proof.
  intros (bs & _ & Hb). destruct (si_block it) eqn:E.
  - destruct Hb as (pre & cur & post & i & _ & Hat & ->).
    destruct (si_at_current _ _ _ _ Hat) as (x & l & -> & -> & _). done.
  - subst l. unfold si_Valid. by rewrite E.
Qed.

Lemma si_current_rest it x l :
  si_rest it (x :: l) -> si_InternalKey it = RKey x ∧ si_Value it = Value x.
Proof.
  intros (bs & _ & Hb). destruct (si_block it) eqn:E; [|done].
  destruct Hb as (pre & cur & post & i & _ & Hat & El).
  destruct (si_at_current _ _ _ _ Hat) as (y & l' & Ed & _ & Ec). rewrite Ed in El. injection El as -> _.
  unfold si_InternalKey, si_Value. by rewrite Ec.
Qed.

Lemma app_cons_assoc {A} (l1 : list A) x l2 : l1 ++ x :: l2 = (l1 ++ [x]) ++ l2.
Proof. by rewrite <- app_assoc. Qed.

Lemma si_Next_rest it x l w :
  si_rest it (x :: l) -> reader_World w ->
  ∃ it' w', si_Next it w = Some (it', w') ∧ reader_World w' ∧ si_rest it' l ∧
    si_reader it' = si_reader it.
Proof.
  intros (bs & Hr & Hb) Hw. destruct (si_block it) eqn:E; [|done].
  destruct Hb as (pre & cur & post & i & -> & (Hbi & Hbl & Hei & Hi) & El).
  rewrite E in Hbl. injection Hbl as ->. unfold si_Next. rewrite E. cbn [mbind option_bind block_of entries].
  unfold norm at 1. rewrite length_map, Hei.
  destruct (lookup_lt_is_Some_2 cur i Hi) as [y Hy]. rewrite (drop_S _ y) in El by done.
  injection El as _ ->. destruct (Nat.ltb_spec (i + 1) (length cur)).
  - eexists _, w. split_and!; [done|done| |done]. exists (pre ++ cur :: post). split; [done|]. cbn [si_block].
    exists pre, cur, post, (S i). split_and!; [done| |done]. split_and!; cbn; [done|done|lia|lia].
  - rewrite Hbi. replace (length pre + 1)%nat with (length (pre ++ [cur])) by (rewrite length_app; cbn; lia).
    destruct (loadBlock_reads (si_reader it) (pre ++ [cur]) post (Some (block_of cur)) i w)
      as (it' & w' & -> & Hw' & Hrd & Hrest & _); [by rewrite <- app_cons_assoc|done|].
    exists it', w'. split_and!; [done|done| |done]. rewrite drop_ge by lia. exact Hrest.
Qed.

Lemma si_skip_drop t es : seek_sorted t es = drop (si_skip es t) es.
Proof. induction es as [|x es IH]; [done|]. cbn. unfold cmp, InternalKey_Comparator. by destruct (_ <? 0). Qed.

Lemma si_skip_norm t es : si_skip (norm es) t = si_skip es t.
Proof. unfold norm. induction es as [|x es IH]; [done|]. cbn. by rewrite IH. Qed.

Lemma si_Seek_content it c t w :
  si_content it c -> reader_World w ->
  ∃ it' w', si_Seek t it w = Some (it', w') ∧ reader_World w' ∧ si_rest it' (seek_sorted t c) ∧
    si_reader it' = si_reader it.
Proof.
  intros (bs & Hr & ->) Hw. pose proof Hr as (Hwf & _ & _).
  destruct (findBlockIndex_split (si_reader it) bs t Hwf) as (pre & post & -> & Ei & Hpre & Hpost).
  rewrite seek_sorted_norm, concat_app, seek_sorted_skip by exact Hpre.
  unfold si_Seek. rewrite Ei, (wf_rindex _ _ Hwf), length_index_of, length_app.
  destruct post as [|cur post].
  - rewrite (proj2 (Nat.leb_le _ _)) by (cbn; lia). eexists _, w. split_and!; [done|done| |done].
    by exists (pre ++ []).
  - rewrite (proj2 (Nat.leb_gt _ _)) by (cbn; lia). apply Forall_cons in Hpost as [Hsep _].
    destruct (wf_reader_block _ _ _ _ Hwf) as (_ & _ & _ & Hne).
    destruct (loadBlock_reads (si_reader it) pre (cur :: post) (si_block it) (si_entryIndex it) w Hr Hw)
      as (it1 & w1 & -> & Hw1 & Hrd & _ & (Hbi & Hbl & Hei & Hi)). cbn [mbind option_bind].
    rewrite Hbl. cbn [mbind option_bind block_of entries]. rewrite Hei, drop_0. cbn [Nat.add].
    rewrite si_skip_norm. unfold norm at 1. rewrite length_map.
    pose proof (seek_sorted_sep t cur Hsep Hne) as Hns. rewrite si_skip_drop in Hns.
    destruct (Nat.leb_spec (length cur) (si_skip cur t)); [by rewrite drop_ge in Hns|].
    eexists _, w1. split_and!; [done|done| |done]. exists (pre ++ cur :: post). cbn [si_reader si_block].
    rewrite Hrd. split; [done|].
    exists pre, cur, post, (si_skip cur t). split_and!; [done|by split_and!|].
    cbn [concat]. by rewrite (seek_sorted_in t cur), si_skip_drop.
Qed.

(** *** The iterator implements the interface *)

Definition SSTableIterator_Spec : IteratorSpec SSTableIterator :=
  {| irest := si_rest; icontent := si_content |}.

Lemma SSTableIterator_Laws :
  @IteratorLaws RWorld SSTableIterator reader_World SSTableIterator_Ops SSTableIterator_Spec.
Proof.
  split.
  - apply si_Valid_rest.
  - apply si_current_rest.
  - intros w it x l Hw Hr. destruct (si_Next_rest it x l w Hr Hw) as (it' & w' & E & Hw' & Hr' & Erd).
    exists it', w'. split_and!; [done..|]. intros c (bs & Hrd & ->). exists bs. by rewrite Erd.
  - intros w it c t Hw Hc. destruct (si_Seek_content it c t w Hc Hw) as (it' & w' & E & Hw' & Hr' & Erd).
    exists it', w'. split_and!; [done..|]. destruct Hc as (bs & Hrd & ->). exists bs. by rewrite Erd.
  - intros it c (bs & (Hwf & _) & ->). apply sorted_norm, (wf_rsorted _ _ Hwf).
  - apply si_rest_sorted.
Qed.

Lemma Iterator_rest r bs w :
  reads r bs -> reader_World w ->
  ∃ it w', Iterator r w = Some (it, w') ∧ reader_World w' ∧ si_rest it (norm (concat bs)) ∧
    si_content it (norm (concat bs)).
Proof.
  intros Hr Hw. destruct (loadBlock_reads r [] bs None 0 w Hr Hw) as (it & w' & E & Hw' & Erd & Hrest & _).
  exists it, w'. split_and!; [done..|]. exists bs. by rewrite Erd.
Qed.
End reading.

(** ** Opening *)

Lemma ReadAt_ok fd p q tl w n off :
  rfaults w = [] -> fd ∉ rclosed w -> len q = n -> off = len p ->
  ReadAt fd (p ++ q ++ tl) n off w = (Ok q, w).
Proof.
  intros Hf Hc Hn ->. unfold ReadAt, mbind, RM_bind, syscall. rewrite Hf. unfold pread. cbn [rclosed].
  rewrite decide_False by done. rewrite ReadAt_data_app by done. destruct w. cbn in *. by subst.
Qed.

Definition opened (w : RWorld) : RWorld := mkRW (rcache w) [] (rclosed w) (S (rnext w)).

Lemma Open_table data bs name cached w :
  table_of data bs -> sorted_recs (concat bs) -> rfaults w = [] -> rnext w ∉ rclosed w ->
  ∃ r, Open (Some data) name cached w = (Ok r, opened w) ∧ wf_reader r bs ∧
    rfd r = rnext w ∧ fileNum r = (scan_table name).1 ∧ rcached r = cached.
Proof.
  intros (f & -> & Hn & Hs & Hsp & Hef & Hfl & Hcov) Hsort Hf Hc. unfold table_small in Hsp.
  pose proof (data_bytes_space bs Hn) as Hd. pose proof (len_nonneg (data_bytes bs)). pose proof (len_nonneg bs).
  destruct (index_of_wf 0 bs Hn Hs) as [Hwf Hil]; [lia|lia|].
  assert (len (index_of 0 bs) = len bs) as Hli by (unfold len; by rewrite length_index_of).
  set (ib := index_bytes (index_of 0 bs)).
  assert (len ib <= 4 + table_space (concat bs)) as Hib by (subst ib; unfold index_bytes; rewrite len_app; len_lia).
  pose proof (len_nonneg ib). pose proof (len_nonneg (filter_bytes f)).
  set (ft := table_footer bs f).
  assert (wf_footer ft) as Hft.
  { subst ft. unfold wf_footer, table_footer. cbn [IndexOffset IndexSize FilterOffset FilterSize FMagic].
    fold ib. lia. }
  assert (table_bytes bs f = data_bytes bs ++ ib ++ filter_bytes f ++ footer_bytes ft) as Et by done.
  pose proof (len_footer_bytes ft) as Hlf.
  unfold Open. rewrite (RM_bind_ok _ _ w (table_bytes bs f) w) by done.
  rewrite (RM_bind_ok _ _ w (rnext w) (mkRW (rcache w) (rfaults w) (rclosed w) (S (rnext w)))) by done.
  rewrite Hf. rewrite (RM_bind_ok syscall _ _ tt (opened w)) by done. cbv zeta. unfold readAt.
  assert (rfaults (opened w) = []) as Hf1 by done. assert (rnext w ∉ rclosed (opened w)) as Hc1 by done.
  rewrite Et. rewrite (RM_bind_ok _ _ _ (footer_bytes ft) (opened w)); cycle 1.
  { pose proof (ReadAt_ok (rnext w) (data_bytes bs ++ ib ++ filter_bytes f) (footer_bytes ft) [] (opened w))
      as E. rewrite app_nil_r, <- !app_assoc in E.
    apply E; [done|done|done|]. rewrite !len_app. unfold FooterSize in *. lia. }
  rewrite (RM_bind_ok _ _ _ ft (opened w)); cycle 1.
  { unfold lift. rewrite <- (app_nil_r (footer_bytes ft)). by rewrite decodeFooter_footer_bytes. }
  rewrite (RM_bind_ok _ _ _ ib (opened w)); cycle 1.
  { apply ReadAt_ok; [done|done|done|]. change (IndexOffset ft) with (len (data_bytes bs)).
    rewrite i64_small by lia. done. }
  rewrite (RM_bind_ok _ _ _ (mkIB (index_of 0 bs)) (opened w)); cycle 1.
  { unfold lift. rewrite <- (app_nil_r ib). unfold ib. by rewrite decodeIndexBlock_index_bytes by (done || lia). }
  rewrite (RM_bind_ok _ _ _ (filter_bytes f) (opened w)); cycle 1.
  { rewrite app_assoc. apply ReadAt_ok; [done|done|done|].
    change (FilterOffset ft) with (len (data_bytes bs) + len ib). rewrite len_app, i64_small by lia. done. }
  rewrite (RM_bind_ok _ _ _ f (opened w)); cycle 1.
  { unfold lift. rewrite <- (app_nil_r (filter_bytes f)). by rewrite DecodeFilter_filter_bytes. }
  eexists. split; [done|]. split_and!; [|done..]. split; cbn; try done. by eexists.
Qed.

(** ** What the reader guarantees *)

(** A world in which nothing has been read yet. *)
Definition fresh_world (maxBlocks : Z) : RWorld := mkRW (NewBlockCache maxBlocks) [] ∅ 0.

Lemma fresh_reader_World disk n : reader_World disk ∅ 0 (fresh_world n).
Proof. split_and!; [apply New_coherent|done..]. Qed.

(** Several lookups one after the other, each with its key and sequence number. *)
Fixpoint Get_many (r : TableReader) (keys : list (bytes * Z)) : RM (list (option Rec)) :=
  match keys with
  | [] => mret []
  | (k, s) :: keys => o ← Get r (mkIK k s 0); os ← Get_many r keys; mret (o :: os)
  end.

Lemma Get_many_reads disk cl nx r bs keys w :
  reads disk cl r bs -> reader_World disk cl nx w ->
  ∃ w', Get_many r keys w = (Ok (map (λ '(k, s), candidate k s (norm (concat bs))) keys), w') ∧
    reader_World disk cl nx w'.
Proof.
  intros Hr. revert w. induction keys as [|[k s] keys IH]; intros w Hw; cbn [Get_many map]; [by exists w|].
  destruct (Get_reads disk cl nx r bs k s 0 w Hr Hw) as (w1 & E1 & Hw1). rewrite (RM_bind_ok _ _ _ _ _ E1).
  destruct (IH w1 Hw1) as (w2 & E2 & Hw2). rewrite (RM_bind_ok _ _ _ _ _ E2). by exists w2.
Qed.

(** C13. A complete table of sorted records opens, answers every sequence of lookups with the newest
    versions not after the given sequence numbers, and iterates, from any target on, over exactly
    its records in order; nothing panics, whatever the cache holds on the way. *)
Theorem TableReader_correct data rs name cached n keys t :
  is_table data rs -> sorted_recs rs ->
  ∃ r w1 os w2 it w3 it' w4 w5,
    Open (Some data) name cached (fresh_world n) = (Ok r, w1) ∧
    Get_many r keys w1 = (Ok os, w2) ∧
    Forall2 (λ '(k, s) o, newest k s (norm rs) o) keys os ∧
    Iterator r w2 = Some (it, w3) ∧ si_Seek t it w3 = Some (it', w4) ∧
    iter_collect (length rs) it' w4 = Some (seek_sorted t (norm rs), w5).
Proof.
  intros (bs & Ht & <-) Hs.
  destruct (Open_table data bs name cached (fresh_world n) Ht Hs eq_refl) as (r & Eo & Hr & Hfd & Hnum & _);
    [set_solver|].
  set (disk := {[fileNum r := bs]} : gmap Z (list (list Rec))).
  assert (reads disk ∅ r bs) as Hreads.
  { split_and!; [done|rewrite Hfd; set_solver|]. unfold disk. by rewrite lookup_singleton_eq. }
  assert (reader_World disk ∅ 1 (opened (fresh_world n))) as Hw1
    by (split_and!; [apply New_coherent|done..]).
  destruct (Get_many_reads disk ∅ 1 r bs keys _ Hreads Hw1) as (w2 & E2 & Hw2).
  destruct (Iterator_rest disk ∅ 1 r bs w2 Hreads Hw2) as (it & w3 & E3 & Hw3 & _ & Hct).
  destruct (si_Seek_content disk ∅ 1 it _ t w3 Hct Hw3) as (it' & w4 & E4 & Hw4 & Hrest & _).
  destruct (@iter_collect_rest _ _ _ _ _ (SSTableIterator_Laws disk ∅ 1) it' _ w4
    (length (concat bs)) Hrest Hw4) as (w5 & E5 & _).
  { destruct (seek_sorted_spec t (norm (concat bs)) (sorted_norm _ Hs)) as (pre & E & _).
    apply (f_equal length) in E. unfold norm in E at 1. rewrite length_map, length_app in E. lia. }
  eexists r, _, _, w2, it, w3, it', w4, w5. split_and!; try done.
  apply sorted_norm in Hs. clear -Hs. induction keys as [|[k s] keys IH]; cbn; constructor; [|done].
  by apply candidate_newest.
Qed.

(** A table built by the writer itself, for the witnesses: two blocks of one record each. *)
#[local] Existing Instance example_env.

Lemma build_table rs : Forall small_rec rs -> table_small rs -> ∃ data, is_table data rs.
Proof.
  intros Hs Hsp.
  destruct (Add_records_writes (TableWriter.Create (mkFile [] 0 []) 20 1000 example_rate) [] [] rs)
    as (w & err & E & Hw); [|done|done|].
  - apply Create_writes. rewrite example_filter_m. lia.
  - destruct (Add_records_ok _ _ _ _ (eq_refl : no_faults (file (TableWriter.Create (mkFile [] 0 []) 20 1000 example_rate))) E)
      as [-> Hf]. destruct (Hw eq_refl) as (bs & cur & Hwr & Ers).
    destruct (Close_ok w bs cur Hwr) as (w' & size & cerr & Ec & Hc). destruct (Hc Hf) as [-> _].
    destruct (Close_writes w bs cur w' size Hwr Ec) as (Ht & _). rewrite Ers in Ht. by eexists.
Qed.

Lemma example_table : ∃ data, is_table data example_recs.
Proof. apply build_table; [by apply (bool_decide_unpack _)|done]. Qed.

Lemma example_recs_sorted : sorted_recs example_recs.
Proof. repeat constructor. vm_compute. done. Qed.

Lemma TableReader_correct_witness :
  ∃ data r w1 os w2 it w3 it' w4 w5,
    Open (Some data) (table_name 7) true (fresh_world 16) = (Ok r, w1) ∧
    Get_many r [([Byte.x61], 9); ([Byte.x62], 1)] w1 = (Ok os, w2) ∧
    Forall2 (λ '(k, s) o, newest k s (norm example_recs) o) [([Byte.x61], 9); ([Byte.x62], 1)] os ∧
    Iterator r w2 = Some (it, w3) ∧ si_Seek (mkIK [Byte.x62] 9 0) it w3 = Some (it', w4) ∧
    iter_collect 2 it' w4 = Some (seek_sorted (mkIK [Byte.x62] 9 0) (norm example_recs), w5).
Proof.
  destruct example_table as (data & Ht). exists data.
  exact (TableReader_correct data example_recs (table_name 7) true 16
    [([Byte.x61], 9); ([Byte.x62], 1)] (mkIK [Byte.x62] 9 0) Ht example_recs_sorted).
Defined.

(** *** Reading from a closed file *)

Lemma ReadAt_cases fd data n off w :
  ∃ x fl, ReadAt fd data n off w = (x, mkRW (rcache w) fl (rclosed w) (rnext w)) ∧
    (fd ∈ rclosed w -> ∃ e, x = Err e).
Proof.
  unfold ReadAt, mbind, RM_bind, syscall, pread. destruct (rfaults w) as [|[] fl]; cbn; [|by eauto 6|];
    (destruct (decide (fd ∈ rclosed w)); [by eauto 6|]); eexists _, _; (split; [done|]); done.
Qed.

Lemma RM_bind_err {A B} (m : RM A) (f : A -> RM B) w e w' :
  m w = (Err e, w') -> (m ≫= f) w = (Err e, w').
Proof. intros E. unfold mbind, RM_bind. by rewrite E. Qed.

Lemma RM_bind_panic {A B} (m : RM A) (f : A -> RM B) w w' :
  m w = (Panic, w') -> (m ≫= f) w = (Panic, w').
Proof. intros E. unfold mbind, RM_bind. by rewrite E. Qed.

Lemma fetchBlock_cached (Q : Z * Z -> Prop) r off size w :
  coherent (λ k _, Q k) (rcache w) -> Q (fileNum r, off) ->
  coherent (λ k _, Q k) (rcache (fetchBlock r off size w).2).
Proof.
  intros Hc HQ. unfold fetchBlock.
  destruct (ReadAt_cases (rfd r) (rdata r) size (i64 off) w) as (x & fl & E & _). destruct x as [p|e|].
  - rewrite (RM_bind_ok _ _ _ _ _ E). cbn beta. destruct (decodeBlock p) as [b|e|] eqn:Ed.
    + rewrite (RM_bind_ok (lift (Ok b)) _ _ b (mkRW (rcache w) fl (rclosed w) (rnext w))) by done.
      cbn beta. destruct (rcached r); [|exact Hc].
      destruct (Set_coherent (λ k _, Q k) (rcache w) (fileNum r) off b Hc HQ) as (c' & Es & Hc').
      unfold mbind, RM_bind, cache_Set. cbn [rcache]. rewrite Es. exact Hc'.
    + erewrite (RM_bind_err (lift (Err e))) by done. exact Hc.
    + erewrite (RM_bind_panic (lift Panic)) by done. exact Hc.
  - rewrite (RM_bind_err _ _ _ _ _ E). exact Hc.
  - rewrite (RM_bind_panic _ _ _ _ E). exact Hc.
Qed.

Lemma readBlock_cases (Q : Z * Z -> Prop) r off size w :
  coherent (λ k _, Q k) (rcache w) ->
  (∃ b c, Q (fileNum r, off) ∧ coherent (λ k _, Q k) c ∧
     readBlock r off size w = (Ok b, mkRW c (rfaults w) (rclosed w) (rnext w))) ∨
  (∃ c, coherent (λ k _, Q k) c ∧
     readBlock r off size w = fetchBlock r off size (mkRW c (rfaults w) (rclosed w) (rnext w))).
Proof.
  intros Hc. unfold readBlock. destruct (rcached r).
  - destruct (Get_coherent (λ k _, Q k) (rcache w) (fileNum r) off Hc) as (c & hit & Eg & Hcc & Hhit).
    assert (cache_Get (fileNum r) off w = (Ok hit, mkRW c (rfaults w) (rclosed w) (rnext w))) as E
      by (unfold cache_Get; by rewrite Eg).
    rewrite (RM_bind_ok _ _ _ _ _ E). destruct hit as [b|]; [left|right; eauto].
    exists b, c. split_and!; [by apply (Hhit b)|done|done].
  - right. exists (rcache w). split; [done|]. by destruct w.
Qed.

(** Reading a block caches at most that block. *)
Lemma readBlock_cached (Q : Z * Z -> Prop) r off size w :
  coherent (λ k _, Q k) (rcache w) -> Q (fileNum r, off) ->
  coherent (λ k _, Q k) (rcache (readBlock r off size w).2).
Proof.
  intros Hc HQ. destruct (readBlock_cases Q r off size w Hc) as [(b & c & _ & Hcc & ->)|(c & Hcc & ->)].
  - exact Hcc.
  - by apply fetchBlock_cached.
Qed.

(** A block that is not cached cannot be read from a closed file. *)
Lemma readBlock_closed (Q : Z * Z -> Prop) r off size w :
  coherent (λ k _, Q k) (rcache w) -> ¬ Q (fileNum r, off) -> rfd r ∈ rclosed w ->
  ∃ e w', readBlock r off size w = (Err e, w').
Proof.
  intros Hc HQ Hcl. destruct (readBlock_cases Q r off size w Hc) as [(b & c & Hq & _)|(c & Hcc & ->)]; [done|].
  unfold fetchBlock.
  destruct (ReadAt_cases (rfd r) (rdata r) size (i64 off) (mkRW c (rfaults w) (rclosed w) (rnext w)))
    as (x & fl & E & Hx). destruct (Hx Hcl) as [e ->]. rewrite (RM_bind_err _ _ _ _ _ E). eauto.
Qed.

(** If the second block cannot be loaded, the iterator delivers the first one and ends. *)
Lemma collect_first_block r cur w i :
  (∀ b e, ∃ it' w', loadBlock (mkSI r 1 b e) w = Some (it', w') ∧ si_block it' = None) ->
  (i <= length cur)%nat ->
  (i < length cur)%nat ->
  ∃ w', iter_collect (length cur - i) (mkSI r 0 (Some (block_of cur)) i) w = Some (norm (drop i cur), w').
Proof.
  intros Hload _ Hi. remember (length cur - i)%nat as n eqn:Hn. revert i Hi Hn.
  induction n as [|n IH]; intros i Hi Hn; [lia|]. cbn [iter_collect iter_Valid SSTableIterator_Ops].
  assert (si_at (mkSI r 0 (Some (block_of cur)) i) [] cur i) as Hat by done.
  destruct (si_at_current _ _ _ _ Hat) as (x & l & Ed & -> & Ec).
  cbn [iter_InternalKey iter_Value iter_Next SSTableIterator_Ops]. unfold si_InternalKey, si_Value. rewrite Ec.
  unfold si_Next. cbn [si_block mbind option_bind block_of entries si_entryIndex si_blockIndex si_reader].
  unfold norm at 1. rewrite length_map. rewrite Ed. cbn [norm map].
  assert (drop (S i) cur = l) as El.
  { assert (drop (S i) cur = drop 1 (drop i cur)) as -> by (by rewrite drop_drop, Nat.add_1_r). by rewrite Ed. }
  destruct (Nat.ltb_spec (i + 1) (length cur)) as [Hlt|Hge].
  - cbn [mbind option_bind]. destruct (IH (i + 1)%nat) as (w' & E); [lia|lia|].
    rewrite E. cbn [mbind option_bind]. exists w'. rewrite Nat.add_1_r, El. done.
  - destruct (Hload (Some (block_of cur)) i) as (it' & w' & E & Hb). cbn [Nat.add]. rewrite E. cbn [mbind option_bind].
    assert (l = []) as -> by (by rewrite <- El, drop_ge by lia).
    exists w'. assert (si_Valid it' = false) as Hv by (unfold si_Valid; by rewrite Hb).
    destruct n as [|n]; cbn [iter_collect iter_Valid SSTableIterator_Ops]; rewrite Hv; done.
Qed.

(** C32. An iterator whose reader is closed under it ends after the block it holds: the records of the
    blocks that were not cached are lost to it without an error. *)
Theorem closed_reader_loses_records data cur post name n :
  table_of data (cur :: post) -> sorted_recs (concat (cur :: post)) ->
  ∃ r w1 it w2 w3 w4, Open (Some data) name true (fresh_world n) = (Ok r, w1) ∧
    Iterator r w1 = Some (it, w2) ∧ Close r w2 = (Ok tt, w3) ∧
    iter_collect (length cur) it w3 = Some (norm cur, w4).
Proof.
  intros Ht Hs. destruct (Open_table data _ name true (fresh_world n) Ht Hs eq_refl) as (r & Eo & Hr & Hfd & Hnum & _);
    [set_solver|].
  set (disk := {[fileNum r := cur :: post]} : gmap Z (list (list Rec))).
  assert (reads disk ∅ r ([] ++ cur :: post)) as Hreads.
  { split_and!; [done|rewrite Hfd; set_solver|]. unfold disk. by rewrite lookup_singleton_eq. }
  assert (reader_World disk ∅ 1 (opened (fresh_world n))) as Hw1
    by (split_and!; [apply New_coherent|done..]).
  destruct (readBlock_reads disk ∅ 1 r [] cur post _ Hreads Hw1) as (w2 & Eb & (_ & Hf2 & Hcl2 & _)).
  pose proof (wf_reader_block r [] cur post Hr) as (_ & _ & _ & Hne).
  assert (coherent (λ k _, k.2 = 0) (rcache w2)) as Hc2.
  { pose proof (readBlock_cached (λ k, k.2 = 0) r (len (data_bytes [])) (block_size cur)
      (opened (fresh_world n)) (New_coherent _ _) eq_refl) as Hc. rewrite Eb in Hc. exact Hc. }
  set (w3 := mkRW (rcache w2) (rfaults w2) ({[rfd r]} ∪ rclosed w2) (rnext w2)).
  assert (Iterator r (opened (fresh_world n)) = Some (mkSI r 0 (Some (block_of cur)) 0, w2)) as Ei.
  { unfold Iterator, loadBlock. cbn [si_reader si_blockIndex].
    pose proof (wf_reader_index r [] cur post Hr) as Ex. cbn [length] in Ex. rewrite Ex.
    cbn [BlockOffset BlockSize]. by rewrite Eb. }
  destruct (collect_first_block r cur w3 0) as (w4 & E4).
  - intros b e. unfold loadBlock. cbn [si_reader si_blockIndex]. destruct post as [|blk post].
    + rewrite lookup_ge_None_2; [by eexists _, _|]. rewrite (wf_rindex _ _ Hr), length_index_of. done.
    + pose proof (wf_reader_index r [cur] blk post Hr) as Ex. cbn [length] in Ex. rewrite Ex.
      cbn [BlockOffset BlockSize].
      destruct (readBlock_closed (λ k, k.2 = 0) r (len (data_bytes [cur])) (block_size blk) w3) as (x & w' & E).
      * exact Hc2.
      * cbn [snd]. rewrite data_bytes_cons, len_app, len_block_bytes.
        change (len (data_bytes [])) with 0. pose proof (block_size_pos cur). lia.
      * set_solver.
      * rewrite E. by eexists _, _.
  - lia.
  - destruct cur; [done|cbn; lia].
  - rewrite Nat.sub_0_r in E4. exists r. eexists _, _, _, _, w4. split_and!; [exact Eo|exact Ei| |exact E4].
    apply Close_open; [exact Hf2|]. rewrite Hcl2. apply Hreads.
Qed.

Lemma closed_reader_loses_records_witness :
  ∃ data bs, table_of data bs ∧ concat bs = example_recs ∧ ∃ cur post, bs = cur :: post ∧
  ∃ r w1 it w2 w3 w4, Open (Some data) (table_name 7) true (fresh_world 16) = (Ok r, w1) ∧
    Iterator r w1 = Some (it, w2) ∧ Close r w2 = (Ok tt, w3) ∧
    iter_collect (length cur) it w3 = Some (norm cur, w4).
Proof.
  destruct example_table as (data & bs & Ht & Ers). exists data, bs. split_and!; [exact Ht|exact Ers|].
  destruct bs as [|cur post]; [discriminate Ers|]. exists cur, post. split; [reflexivity|].
  apply (closed_reader_loses_records data cur post (table_name 7) 16 Ht).
  rewrite Ers. exact example_recs_sorted.
Defined.
