(* ===== verification/Meta.v ===== *)
(** * Package meta: table metadata, version edits and the version set

    [table_meta.go], [version.go], [version_set.go], [manifest.go] and [overlap.go].  Edits are
    appended to the manifest and applied in memory; Open replays the manifest. *)

From S2P Require Import Prelude.
From S2P Require Import GoStd.
From S2P Require Import GoIO.
From S2P Require Import Records.
From S2P Require Import Names.
From Stdlib Require Import Ascii.

(** ** table_meta.go *)

Definition TableMetaSize : Z := 4 + 8 + 8 + 4 + 4 + 4.

Record TableMeta := mkTM {
  FileNum : Z;
  FileSize : Z;
  Level : Z;
  MinKey : InternalKey;
  MaxKey : InternalKey
}.

Record DeletedTableMeta := mkDM { DLevel : Z; DFileNum : Z }.

#[export] Instance TableMeta_eq_dec : EqDecision TableMeta.
Proof. solve_decision. Defined.

Definition encodeTableMeta (m : TableMeta) : res bytes :=
  let minKeySize := KeySize (MinKey m) in
  let maxKeySize := KeySize (MaxKey m) in
  let totalSize := TableMetaSize + minKeySize + maxKeySize in
  let buf := zeros totalSize in
  let off := 0 in
  buf ← PutUint32 buf off (u32 totalSize);
  let off := off + 4 in
  buf ← PutUint64 buf off (FileNum m);
  let off := off + 8 in
  buf ← PutUint64 buf off (FileSize m);
  let off := off + 8 in
  buf ← PutUint32 buf off (Level m);
  let off := off + 4 in
  buf ← PutUint32 buf off (u32 minKeySize);
  let off := off + 4 in
  '(buf, off) ← EncodeInternalKey buf off (MinKey m);
  buf ← PutUint32 buf off (u32 maxKeySize);
  let off := off + 4 in
  '(buf, _) ← EncodeInternalKey buf off (MaxKey m);
  Ok buf.

Definition decodeTableMeta (b : bytes) : res TableMeta :=
  if len b <? TableMetaSize then Err ErrCorruptRecord else
  let off := 0 in
  let off := off + 4 in
  fileNum ← Uint64 b off;
  let off := off + 8 in
  fileSize ← Uint64 b off;
  let off := off + 8 in
  level ← Uint32 b off;
  let off := off + 4 in
  let off := off + 4 in
  '(minKey, off) ← DecodeInternalKey b off;
  let off := off + 4 in
  '(maxKey, _) ← DecodeInternalKey b off;
  Ok (mkTM fileNum fileSize level minKey maxKey).

Definition encodeDeletedTable (m : DeletedTableMeta) : res bytes :=
  let buf := zeros (4 + 8) in
  buf ← PutUint32 buf 0 (DLevel m);
  PutUint64 buf 4 (DFileNum m).

Definition decodeDeletedTable (b : bytes) : res DeletedTableMeta :=
  if len b <? 12 then Err ErrCorruptRecord else
  level ← Uint32 b 0;
  fileNum ← Uint64 b 4;
  Ok (mkDM level fileNum).

(** ** version.go *)

(** The tables of each level. *)
Abbreviation Version := (list (list TableMeta)).

Record VersionEdit := mkVE {
  AddTables : list TableMeta;
  DeleteTables : list DeletedTableMeta;
  LastSequence : option Z;
  NextFileNum_ : option Z;
  LogNumber_ : option Z
}.

Definition tagAddTable : Z := 1.
Definition tagDeleteTable : Z := 2.
Definition tagLastSequence : Z := 3.
Definition tagNextFileNum : Z := 4.
Definition tagLogNum : Z := 5.

Fixpoint encodeAdds (adds : list TableMeta) : res bytes :=
  match adds with
  | [] => Ok []
  | add :: adds =>
      b ← encodeTableMeta add; rest ← encodeAdds adds; Ok (PutUvarint tagAddTable ++ b ++ rest)
  end.

Fixpoint encodeDeletes (dels : list DeletedTableMeta) : res bytes :=
  match dels with
  | [] => Ok []
  | del :: dels =>
      b ← encodeDeletedTable del; rest ← encodeDeletes dels;
      Ok (PutUvarint tagDeleteTable ++ b ++ rest)
  end.

Definition encodeNumber (tag : Z) (n : option Z) : bytes :=
  match n with Some n => PutUvarint tag ++ PutUvarint n | None => [] end.

Definition encodeVersionEdit (edit : VersionEdit) : res bytes :=
  adds ← encodeAdds (AddTables edit);
  dels ← encodeDeletes (DeleteTables edit);
  Ok (adds ++ dels ++ encodeNumber tagLogNum (LogNumber_ edit) ++
      encodeNumber tagLastSequence (LastSequence edit) ++
      encodeNumber tagNextFileNum (NextFileNum_ edit)).

(** ** version_set.go *)

Record VersionSet := mkVS {
  Current : Version;
  nextFileNum : Z;
  lastSeqNum : Z;
  logNum : Z;
  manifest : File
}.

Definition set_Current (vs : VersionSet) (v : Version) : VersionSet :=
  mkVS v (nextFileNum vs) (lastSeqNum vs) (logNum vs) (manifest vs).

Definition set_manifest (vs : VersionSet) (f : File) : VersionSet :=
  mkVS (Current vs) (nextFileNum vs) (lastSeqNum vs) (logNum vs) f.

Definition NextFileNum (vs : VersionSet) : Z * VersionSet :=
  (nextFileNum vs,
   mkVS (Current vs) (u64 (nextFileNum vs + 1)) (lastSeqNum vs) (logNum vs) (manifest vs)).

Definition LastSequenceNum (vs : VersionSet) : Z := lastSeqNum vs.

Definition LogNumber (vs : VersionSet) : Z := logNum vs.

(** The first table of the number is cut out of the level. *)
Fixpoint delete_first (fileNum : Z) (l : list TableMeta) : list TableMeta :=
  match l with
  | [] => []
  | t :: l => if FileNum t =? fileNum then l else t :: delete_first fileNum l
  end.

(** [v[i] = f(v[i])]; an index out of range panics. *)
Definition at_level (v : Version) (i : Z) (f : list TableMeta -> res (list TableMeta)) : res Version :=
  match v !! Z.to_nat i with
  | Some l => l ← f l; Ok (<[Z.to_nat i := l]> v)
  | None => Panic
  end.

Fixpoint apply_deletes (v : Version) (dels : list DeletedTableMeta) : res Version :=
  match dels with
  | [] => Ok v
  | del :: dels =>
      v ← at_level v (DLevel del) (λ l, Ok (delete_first (DFileNum del) l)); apply_deletes v dels
  end.

Fixpoint apply_adds (v : Version) (adds : list TableMeta) : res Version :=
  match adds with
  | [] => Ok v
  | add :: adds => v ← at_level v (Level add) (λ l, Ok (l ++ [add])); apply_adds v adds
  end.

Definition apply (v : Version) (edit : VersionEdit) : res Version :=
  v ← apply_deletes v (DeleteTables edit); apply_adds v (AddTables edit).

Definition LogAndApply (vs : VersionSet) (edit : VersionEdit) : res (VersionSet * option error) :=
  b ← encodeVersionEdit edit;
  let '(f, _, err) := file_Write (manifest vs) b in
  let vs := set_manifest vs f in
  match err with
  | Some e => Ok (vs, Some e)
  | None =>
      let '(f, err) := file_Sync (manifest vs) in
      let vs := set_manifest vs f in
      match err with
      | Some e => Ok (vs, Some e)
      | None => v ← apply (Current vs) edit; Ok (set_Current vs v, None)
      end
  end.

(** *** replay *)

(** The loop of removeFromLevel: [arr] is the array behind the ranged slice, [m] the length of the
    level's slice of it, which each removal shifts in place while the range goes on. *)
Fixpoint removeFromLevel_loop (arr : list TableMeta) (m : nat) (fileNum : Z) (n i : nat) :
    res (list TableMeta) :=
  match n with
  | O => Ok (take m arr)
  | S n =>
      match arr !! i with
      | None => Panic
      | Some f =>
          if FileNum f =? fileNum then
            if (m <? i + 1)%nat then Panic
            else
              let tail := drop (i + 1) (take m arr) in
              let arr := take i arr ++ tail ++ drop (i + length tail) arr in
              removeFromLevel_loop arr (i + length tail) fileNum n (i + 1)
          else removeFromLevel_loop arr m fileNum n (i + 1)
      end
  end.

Definition removeFromLevel (v : Version) (level fileNum : Z) : res Version :=
  at_level v level (λ l, removeFromLevel_loop l (length l) fileNum (length l) 0).

(** bytes.Reader.Read into [n] zero bytes: a short read is no error, nothing left is. *)
Definition reader_Read (data : bytes) (n : Z) : res (bytes * bytes) :=
  if len data =? 0 then Err ErrEOF
  else
    let got := take (Z.to_nat n) data in
    Ok (got ++ zeros (n - len got), drop (Z.to_nat n) data).

(** binary.Read of a uint32, at the position to which the reader is then set back. *)
Definition peek_Uint32 (data : bytes) : res Z :=
  if 4 <=? len data then Uint32 data 0
  else if len data =? 0 then Err ErrEOF else Err ErrUnexpectedEOF.

(** One record of the manifest: the new state and the unread bytes. *)
Definition replay_step (vs : VersionSet) (data : bytes) : res (VersionSet * bytes) :=
  let '(tag, err, data) := ReadUvarint data in
  match err with
  | Some e => Err e
  | None =>
      if tag =? tagAddTable then
        size ← peek_Uint32 data;
        '(buf, data) ← reader_Read data size;
        tableMeta ← decodeTableMeta buf;
        v ← at_level (Current vs) (Level tableMeta) (λ l, Ok (l ++ [tableMeta]));
        Ok (set_Current vs v, data)
      else if tag =? tagDeleteTable then
        '(buf, data) ← reader_Read data 12;
        deleted ← decodeDeletedTable buf;
        v ← removeFromLevel (Current vs) (DLevel deleted) (DFileNum deleted);
        Ok (set_Current vs v, data)
      else if tag =? tagLastSequence then
        let '(val, _, data) := ReadUvarint data in
        Ok (mkVS (Current vs) (nextFileNum vs) val (logNum vs) (manifest vs), data)
      else if tag =? tagNextFileNum then
        let '(val, _, data) := ReadUvarint data in
        Ok (mkVS (Current vs) val (lastSeqNum vs) (logNum vs) (manifest vs), data)
      else if tag =? tagLogNum then
        let '(val, _, data) := ReadUvarint data in
        Ok (mkVS (Current vs) (nextFileNum vs) (lastSeqNum vs) val (manifest vs), data)
      else Ok (vs, data)
  end.

(** Every record takes at least the byte of its tag. *)
Fixpoint replay_loop (fuel : nat) (vs : VersionSet) (data : bytes) : option (res VersionSet) :=
  if len data =? 0 then Some (Ok vs)
  else
    match fuel with
    | O => None
    | S fuel =>
        match replay_step vs data with
        | Ok (vs, data) => replay_loop fuel vs data
        | Err e => Some (Err e)
        | Panic => Some Panic
        end
    end.

Definition replay (vs : VersionSet) (data : bytes) : option (res VersionSet) :=
  replay_loop (length data) vs data.

(** ** manifest.go *)

Definition currentFile : list ascii := chars "CURRENT".

Definition manifestName : list ascii := chars "MANIFEST-" ++ Sprintf_06d 1.

Definition ascii_byte (a : ascii) : byte := byte_of_Z (Z.of_N (N_of_ascii a)).
Definition byte_ascii (b : byte) : ascii := ascii_of_N (Z.to_N (byte_to_Z b)).

(** The version set before anything is read: seven levels, whatever the options say. *)
Definition emptyVersionSet : VersionSet := mkVS (replicate 7 []) 0 0 0 NewFile.

(** The data directory's files by name, and the faults of the coming system calls. *)
Record Root := mkRoot { root_files : gmap (list ascii) File; root_faults : list bool }.

Definition next_fault (r : Root) : bool * Root :=
  match root_faults r with
  | b :: fl => (b, mkRoot (root_files r) fl)
  | [] => (false, r)
  end.

Definition newManifest (r : Root) (vs : VersionSet) : Root * res VersionSet :=
  let '(fault, r) := next_fault r in
  if fault then (r, Err ErrIO)
  else
    let f := NewFile in
    let r := mkRoot (<[manifestName := f]> (root_files r)) (root_faults r) in
    let '(fault, r) := next_fault r in
    if fault then (r, Err ErrIO)
    else
      let current := mkFile (map ascii_byte manifestName) 0 [] in
      let r := mkRoot (<[currentFile := current]> (root_files r)) (root_faults r) in
      (r, Ok (mkVS (Current vs) 1 (lastSeqNum vs) (logNum vs) f)).

(** The manifest's file is owned by the version set from then on. *)
Definition Open (r : Root) : option (Root * res VersionSet) :=
  let '(fault, r) := next_fault r in
  let vs := emptyVersionSet in
  match root_files r !! currentFile with
  | None => if fault then Some (r, Err ErrIO) else Some (newManifest r vs)
  | Some c =>
      if fault then Some (r, Err ErrIO)
      else
        let '(fault, r) := next_fault r in
        match root_files r !! map byte_ascii (fdata c) with
        | None => Some (r, Err ErrIO)
        | Some f =>
            if fault then Some (r, Err ErrIO)
            else
              vs ← replay vs (fdata f);
              match vs with
              | Ok vs => Some (r, Ok (set_manifest vs f))
              | Err e => Some (r, Err e)
              | Panic => Some (r, Panic)
              end
        end
  end.

(** ** overlap.go *)

(** [!(t.MaxKey < minKey || t.MinKey > maxKey)] *)
Definition overlaps (t : TableMeta) (minKey maxKey : bytes) : bool :=
  negb ((bytes_Compare (UserKey (MaxKey t)) minKey <? 0) ||
        (0 <? bytes_Compare (UserKey (MinKey t)) maxKey)).

Definition FindOverlapping (tables : list TableMeta) (minKey maxKey : bytes) : list TableMeta :=
  filter (λ t, overlaps t minKey maxKey = true) tables.

(** Nil keys for no tables. *)
Definition KeyRangeOf (tables : list TableMeta) : bytes * bytes :=
  match tables with
  | [] => ([], [])
  | t0 :: tables =>
      foldl (λ '(minKey, maxKey) t,
        (if bytes_Compare (UserKey (MinKey t)) minKey <? 0 then UserKey (MinKey t) else minKey,
         if 0 <? bytes_Compare (UserKey (MaxKey t)) maxKey then UserKey (MaxKey t) else maxKey))
        (UserKey (MinKey t0), UserKey (MaxKey t0)) tables
  end.

(** ** Specification: the layouts and the meaning of an edit *)

Definition meta_bytes (m : TableMeta) : bytes :=
  le_bytes 4 (58 + len (UserKey (MinKey m)) + len (UserKey (MaxKey m))) ++
  le_bytes 8 (FileNum m) ++ le_bytes 8 (FileSize m) ++ le_bytes 4 (Level m) ++
  le_bytes 4 (len (key_bytes (MinKey m))) ++ key_bytes (MinKey m) ++
  le_bytes 4 (len (key_bytes (MaxKey m))) ++ key_bytes (MaxKey m).

Definition deleted_bytes (d : DeletedTableMeta) : bytes :=
  le_bytes 4 (DLevel d) ++ le_bytes 8 (DFileNum d).

Definition number_bytes (tag : Z) (n : option Z) : bytes :=
  match n with Some n => PutUvarint tag ++ PutUvarint n | None => [] end.

Definition edit_bytes (e : VersionEdit) : bytes :=
  concat (map (λ m, PutUvarint tagAddTable ++ meta_bytes m) (AddTables e)) ++
  concat (map (λ d, PutUvarint tagDeleteTable ++ deleted_bytes d) (DeleteTables e)) ++
  number_bytes tagLogNum (LogNumber_ e) ++ number_bytes tagLastSequence (LastSequence e) ++
  number_bytes tagNextFileNum (NextFileNum_ e).

Definition wf_meta (m : TableMeta) : Prop :=
  0 <= FileNum m < 2 ^ 64 ∧ 0 <= FileSize m < 2 ^ 64 ∧ 0 <= Level m < 2 ^ 32 ∧
  wf_key (MinKey m) ∧ wf_key (MaxKey m) ∧
  58 + len (UserKey (MinKey m)) + len (UserKey (MaxKey m)) < 2 ^ 32.

Definition wf_deleted (d : DeletedTableMeta) : Prop :=
  0 <= DLevel d < 2 ^ 32 ∧ 0 <= DFileNum d < 2 ^ 64.

Definition wf_number (n : option Z) : Prop :=
  match n with Some n => 0 <= n < 2 ^ 64 | None => True end.

Definition wf_edit (e : VersionEdit) : Prop :=
  Forall wf_meta (AddTables e) ∧ Forall wf_deleted (DeleteTables e) ∧
  wf_number (LogNumber_ e) ∧ wf_number (LastSequence e) ∧ wf_number (NextFileNum_ e).

(** The edit fits the version: its levels exist, and its new tables have numbers that no table of
    the version and no deletion has. *)
Definition edit_fits (v : Version) (e : VersionEdit) : Prop :=
  Forall (λ m, Level m < len v) (AddTables e) ∧ Forall (λ d, DLevel d < len v) (DeleteTables e) ∧
  NoDup (map FileNum (concat v ++ AddTables e)) ∧
  Forall (λ d, DFileNum d ∉ map FileNum (AddTables e)) (DeleteTables e).

Definition version_ok (v : Version) : Prop := NoDup (map FileNum (concat v)).

(** ** Table metadata *)

Lemma len_meta_bytes m :
  len (meta_bytes m) = 58 + len (UserKey (MinKey m)) + len (UserKey (MaxKey m)).
Proof. unfold meta_bytes. rewrite !len_app, !len_key_bytes, !len_le_bytes. lia. Qed.

Lemma len_deleted_bytes d : len (deleted_bytes d) = 12.
Proof. unfold deleted_bytes. len_lia. Qed.

Lemma encodeTableMeta_spec m : wf_meta m -> encodeTableMeta m = Ok (meta_bytes m).
Proof.
  intros (_ & _ & _ & _ & _ & Hl). pose proof (len_nonneg (UserKey (MinKey m))).
  pose proof (len_nonneg (UserKey (MaxKey m))). unfold encodeTableMeta, PutUint32, PutUint64, TableMetaSize.
  rewrite !KeySize_exact by lia. rewrite !le_bytes_u32. cbv zeta.
  set (n := 4 + 8 + 8 + 4 + 4 + 4 + _ + _).
  assert (n = len (meta_bytes m)) as Hn by (rewrite len_meta_bytes; subst n; rewrite !len_key_bytes; lia).
  assert (len (zeros n) = n) as Hz by (apply len_zeros; rewrite Hn; apply len_nonneg).
  rewrite len_meta_bytes in Hn. change (zeros n) with ([] ++ zeros n).
  pose proof (len_key_bytes (MinKey m)). pose proof (len_key_bytes (MaxKey m)).
  do 5 put_step. rewrite EncodeInternalKey_app; [|len_lia|len_lia]. cbn [mbind res_bind].
  put_step. rewrite EncodeInternalKey_app; [|len_lia|len_lia]. cbn [mbind res_bind].
  rewrite drop_ge; [|unfold len in *; rewrite !drop_drop, length_drop, !length_le_bytes; lia].
  unfold meta_bytes. rewrite app_nil_r, <- !app_assoc. cbn [app].
  do 2 f_equal. subst n. rewrite Hn. done.
Qed.

(** The three sizes are not looked at. *)
Lemma decodeTableMeta_layout sz n1 n2 m rest :
  wf_meta m ->
  decodeTableMeta (le_bytes 4 sz ++ le_bytes 8 (FileNum m) ++ le_bytes 8 (FileSize m) ++
    le_bytes 4 (Level m) ++ le_bytes 4 n1 ++ key_bytes (MinKey m) ++ le_bytes 4 n2 ++
    key_bytes (MaxKey m) ++ rest) = Ok m.
Proof.
  intros (H1 & H2 & H3 & H4 & H5 & H6).
  match goal with |- decodeTableMeta ?d = _ => remember d as data eqn:E end.
  pose proof (at_off_start data) as H. rewrite E in H at 2.
  assert (58 <= len data) as Hl by (rewrite E, !len_app, !len_key_bytes; len_lia). clear E.
  unfold decodeTableMeta, TableMetaSize.
  rewrite (proj2 (Z.ltb_ge (len data) _)) by lia.
  apply (at_off_le_bytes 4) in H. change (Z.of_nat 4) with 4 in H.
  do 3 decode_step H. rewrite u32_small, !u64_small by lia.
  apply (at_off_le_bytes 4) in H. change (Z.of_nat 4) with 4 in H.
  rewrite (DecodeInternalKey_key_bytes _ _ _ _ H4 H). cbn [mbind res_bind]. apply at_off_app in H.
  apply (at_off_le_bytes 4) in H. change (Z.of_nat 4) with 4 in H.
  rewrite (DecodeInternalKey_key_bytes _ _ _ _ H5 H). cbn [mbind res_bind]. by destruct m.
Qed.

Lemma decodeTableMeta_meta_bytes m rest :
  wf_meta m -> decodeTableMeta (meta_bytes m ++ rest) = Ok m.
Proof.
  intros Hm. unfold meta_bytes. rewrite <- !app_assoc. by apply decodeTableMeta_layout.
Qed.

Lemma encodeDeletedTable_spec d : encodeDeletedTable d = Ok (deleted_bytes d).
Proof.
  unfold encodeDeletedTable, PutUint32, PutUint64. change (zeros (4 + 8)) with ([] ++ zeros 12).
  assert (len (zeros 12) = 12) as Hz by done. put_step. rewrite put_at_app by len_lia.
  rewrite drop_ge; [|unfold len in *; rewrite length_drop, !length_le_bytes; lia].
  unfold deleted_bytes. by rewrite app_nil_r.
Qed.

Lemma decodeDeletedTable_deleted_bytes d rest :
  wf_deleted d -> decodeDeletedTable (deleted_bytes d ++ rest) = Ok d.
Proof.
  intros (H1 & H2). remember (deleted_bytes d ++ rest) as data eqn:E.
  pose proof (at_off_start data) as H. rewrite E in H at 2.
  assert (12 <= len data) as Hl by (rewrite E, len_app, len_deleted_bytes; len_lia). clear E.
  unfold deleted_bytes in H. rewrite <- !app_assoc in H. unfold decodeDeletedTable.
  rewrite (proj2 (Z.ltb_ge (len data) _)) by lia.
  decode_step H. change (0 + 4) with 4 in H. decode_step H.
  rewrite u32_small, u64_small by lia. by destruct d.
Qed.

Lemma encodeVersionEdit_spec e : wf_edit e -> encodeVersionEdit e = Ok (edit_bytes e).
Proof.
  intros (Ha & Hd & _). unfold encodeVersionEdit, edit_bytes.
  assert (encodeAdds (AddTables e) = Ok (concat (map (λ m, PutUvarint tagAddTable ++ meta_bytes m) (AddTables e))))
    as ->.
  { induction Ha as [|m ms Hm _ IH]; [done|]. cbn [encodeAdds map concat].
    rewrite encodeTableMeta_spec, IH by done. cbn [mbind res_bind]. by rewrite <- app_assoc. }
  assert (encodeDeletes (DeleteTables e) = Ok (concat (map (λ d, PutUvarint tagDeleteTable ++ deleted_bytes d) (DeleteTables e))))
    as ->.
  { clear Ha. induction Hd as [|d ds Hd' _ IH]; [done|]. cbn [encodeDeletes map concat].
    rewrite encodeDeletedTable_spec, IH. cbn [mbind res_bind]. by rewrite <- app_assoc. }
  reflexivity.
Qed.

(** ** Applying *)

Lemma at_level_ok v i f l l' :
  v !! Z.to_nat i = Some l -> f l = Ok l' -> at_level v i f = Ok (<[Z.to_nat i := l']> v).
Proof. intros Hl Hf. unfold at_level. rewrite Hl. cbn. by rewrite Hf. Qed.

(** The range of removeFromLevel finds nothing more. *)
Lemma removeFromLevel_loop_none arr m num n i :
  (∀ j, (i <= j < i + n)%nat -> ∃ t, arr !! j = Some t ∧ FileNum t ≠ num) ->
  removeFromLevel_loop arr m num n i = Ok (take m arr).
Proof.
  revert i. induction n as [|n IH]; intros i H; cbn [removeFromLevel_loop]; [done|].
  destruct (H i ltac:(lia)) as (t & -> & Ht). rewrite (proj2 (Z.eqb_neq _ _) Ht). apply IH.
  intros j Hj. apply H. lia.
Qed.

Lemma delete_first_none num l : num ∉ map FileNum l -> delete_first num l = l.
Proof.
  induction l as [|t l IH]; cbn; [done|]. intros H.
  rewrite (proj2 (Z.eqb_neq _ _)) by set_solver. f_equal. apply IH. set_solver.
Qed.

Lemma delete_first_split num l1 t l2 :
  num ∉ map FileNum l1 -> FileNum t = num -> delete_first num (l1 ++ t :: l2) = l1 ++ l2.
Proof.
  intros Hn Ht. induction l1 as [|t1 l1 IH]; cbn; [by rewrite Ht, Z.eqb_refl|].
  rewrite (proj2 (Z.eqb_neq _ _)) by set_solver. f_equal. apply IH. set_solver.
Qed.

Lemma delete_first_app num l1 l2 :
  num ∉ map FileNum l2 -> delete_first num (l1 ++ l2) = delete_first num l1 ++ l2.
Proof.
  intros Hn. induction l1 as [|t l1 IH]; cbn; [by apply delete_first_none|].
  destruct (_ =? _); [done|]. by rewrite IH.
Qed.

Lemma delete_first_sublist num l : delete_first num l `sublist_of` l.
Proof.
  induction l as [|t l IH]; cbn; [done|]. destruct (_ =? _).
  - by apply sublist_cons.
  - by apply sublist_skip.
Qed.

(** With different numbers the loop cuts out the table, as apply does. *)
Lemma removeFromLevel_loop_spec num l :
  NoDup (map FileNum l) -> removeFromLevel_loop l (length l) num (length l) 0 = Ok (delete_first num l).
Proof.
  intros Hn. destruct (decide (num ∈ map FileNum l)) as [Hin|Hni]; cycle 1.
  { rewrite delete_first_none by done. rewrite removeFromLevel_loop_none; [by rewrite take_ge by lia|].
    intros j Hj. destruct (lookup_lt_is_Some_2 l j) as [t Ht]; [lia|]. exists t. split; [done|].
    intros E. apply Hni. rewrite <- E. by eapply list_elem_of_fmap_2, list_elem_of_lookup_2. }
  apply list_elem_of_fmap in Hin as (t & Et & Hin). apply list_elem_of_split in Hin as (l1 & l2 & ->).
  rewrite map_app in Hn. cbn in Hn. apply NoDup_app in Hn as (_ & Hn1 & [Hn2 _]%NoDup_cons).
  assert (num ∉ map FileNum l1) as Hl1 by (intros H; eapply Hn1; [exact H|subst; left]).
  rewrite (delete_first_split num l1 t l2) by done.
  assert (∀ p i, length p = i -> num ∉ map FileNum l1 ->
    removeFromLevel_loop (p ++ l1 ++ t :: l2) (length (p ++ l1 ++ t :: l2)) num (length (l1 ++ t :: l2)) i =
    Ok (p ++ l1 ++ l2)) as H; [|by apply (H [] 0%nat)].
  clear Hl1. intros p i Hp Hl1. revert p i Hp. induction l1 as [|t1 l1 IH]; intros p i Hp.
  - cbn [app length]. cbn [removeFromLevel_loop]. rewrite list_lookup_middle by done. cbv iota beta.
    subst i. rewrite <- Et, Z.eqb_refl. rewrite length_app. cbn [length].
    rewrite (proj2 (Nat.ltb_ge _ _)) by lia.
    rewrite (take_ge _ (length p + S (length l2))) by (rewrite length_app; cbn; lia).
    assert (drop (length p + 1) (p ++ t :: l2) = l2) as ->.
    { rewrite <- drop_drop, drop_app_length. done. }
    rewrite take_app_length. rewrite removeFromLevel_loop_none.
    + rewrite app_assoc, take_app_le by (rewrite length_app; lia). by rewrite take_ge by (rewrite length_app; lia).
    + intros j Hj. destruct (decide (j < length p + length l2)%nat).
      * destruct (lookup_lt_is_Some_2 l2 (j - length p)%nat) as [t' Ht']; [lia|]. exists t'.
        rewrite lookup_app_r, lookup_app_l by lia. split; [done|]. intros E. apply Hn2. rewrite <- Et, <- E.
        by eapply list_elem_of_fmap_2, list_elem_of_lookup_2.
      * assert (j = length p + length l2)%nat as -> by lia.
        destruct l2 as [|t2 l2 _] using rev_ind; [cbn in *; lia|]. exists t2.
        rewrite lookup_app_r by lia. rewrite length_app in *. cbn [length] in *.
        rewrite lookup_app_r by (rewrite length_app; cbn; lia).
        rewrite length_app. cbn [length].
        replace (length p + (length l2 + 1) - length p - (length l2 + 1))%nat with 0%nat by lia.
        replace (length p + (length l2 + 1))%nat with (length (p ++ t :: l2)) by (rewrite length_app; cbn; lia).
        rewrite (app_assoc p (t :: l2) [t2] : p ++ t :: l2 ++ [t2] = _), drop_app_length. split; [done|].
        intros E. apply Hn2. rewrite <- Et, <- E, map_app. set_solver.
  - cbn [app length removeFromLevel_loop]. rewrite list_lookup_middle by done. cbv iota beta.
    subst i. rewrite (proj2 (Z.eqb_neq _ _)) by set_solver.
    specialize (IH ltac:(set_solver) ltac:(set_solver) (p ++ [t1]) (length p + 1)%nat).
    rewrite <- !app_assoc in IH. cbn in IH. apply IH. rewrite length_app. cbn. lia.
Qed.

(** ** Replaying *)

Lemma ReadUvarint_loop_rest n i x s data v err rest :
  ReadUvarint_loop n i x s data = (v, err, rest) ->
  (length rest <= length data)%nat ∧ (err = None -> length rest < length data)%nat.
Proof.
  revert i x s data. induction n as [|n IH]; intros i x s data; cbn [ReadUvarint_loop].
  - by intros [= _ <- <-].
  - destruct data as [|c data]; [by intros [= _ <- <-]|]. cbn [length].
    destruct (byte_to_Z c <? 128).
    + destruct (_ && _); intros [= _ <- <-]; split; (done || lia).
    + intros H%IH. destruct H as [H1 H2]. split; [lia|]. intros He. specialize (H2 He). lia.
Qed.

Lemma ReadUvarint_rest data v err rest :
  ReadUvarint data = (v, err, rest) ->
  (length rest <= length data)%nat ∧ (err = None -> length rest < length data)%nat.
Proof. apply ReadUvarint_loop_rest. Qed.

Lemma reader_Read_rest data n buf rest :
  reader_Read data n = Ok (buf, rest) -> (length rest <= length data)%nat.
Proof.
  unfold reader_Read. destruct (len data =? 0); [done|]. intros [= _ <-]. rewrite length_drop. lia.
Qed.

(** A record of the manifest takes at least one byte. *)
Lemma replay_step_consumes vs data vs' rest :
  replay_step vs data = Ok (vs', rest) -> (length rest < length data)%nat.
Proof.
  unfold replay_step. destruct (ReadUvarint data) as [[tag err] data1] eqn:E1.
  apply ReadUvarint_rest in E1 as [_ H1]. destruct err as [e|]; [done|]. specialize (H1 eq_refl).
  repeat case_match; subst; try (intros [= _ <-]; try done);
    try match goal with E : ReadUvarint _ = _ |- _ => apply ReadUvarint_rest in E as [? _]; lia end.
  - destruct (peek_Uint32 data1); [|done..]. cbn [mbind res_bind].
    destruct (reader_Read _ _) as [[buf data2]| |] eqn:E; [|done..]. cbn [mbind res_bind].
    destruct (decodeTableMeta buf); [|done..]. cbn [mbind res_bind].
    destruct (at_level _ _ _); [|done..]. cbn [mbind res_bind]. intros [= _ <-].
    apply reader_Read_rest in E. lia.
  - destruct (reader_Read _ _) as [[buf data2]| |] eqn:E; [|done..]. cbn [mbind res_bind].
    destruct (decodeDeletedTable buf); [|done..]. cbn [mbind res_bind].
    destruct (removeFromLevel _ _ _); [|done..]. cbn [mbind res_bind]. intros [= _ <-].
    apply reader_Read_rest in E. lia.
Qed.

Lemma replay_loop_fuel f1 f2 vs data :
  (length data <= f1)%nat -> (length data <= f2)%nat -> replay_loop f1 vs data = replay_loop f2 vs data.
Proof.
  revert f2 vs data. induction f1 as [|f1 IH]; intros f2 vs data H1 H2.
  - destruct data; [|cbn in H1; lia]. by destruct f2.
  - cbn [replay_loop]. destruct data as [|b data]; [by destruct f2|].
    destruct f2 as [|f2]; [cbn in H2; lia|]. cbn [replay_loop].
    destruct (len (b :: data) =? 0); [done|].
    destruct (replay_step vs (b :: data)) as [[vs' rest]| |] eqn:E; [|done..].
    apply replay_step_consumes in E. apply IH; lia.
Qed.

Lemma replay_step_replay vs data vs' rest :
  replay_step vs data = Ok (vs', rest) -> replay vs data = replay vs' rest.
Proof.
  intros E. pose proof (replay_step_consumes _ _ _ _ E) as Hl. unfold replay.
  destruct (length data) as [|n] eqn:En; [lia|]. cbn [replay_loop].
  rewrite (proj2 (Z.eqb_neq _ _)) by (unfold len; lia). rewrite E. apply replay_loop_fuel; lia.
Qed.

Lemma ReadUvarint_tag tag rest :
  1 <= tag <= 5 -> ReadUvarint (PutUvarint tag ++ rest) = (tag, None, rest).
Proof. intros H. apply ReadUvarint_PutUvarint. lia. Qed.

Lemma reader_Read_app p rest :
  p ≠ [] -> reader_Read (p ++ rest) (len p) = Ok (p, rest).
Proof.
  intros Hn. unfold reader_Read. rewrite (proj2 (Z.eqb_neq _ _)).
  - unfold len. rewrite Nat2Z.id, take_app_length, drop_app_length, Z.sub_diag. by rewrite app_nil_r.
  - rewrite len_app. destruct p; [done|len_lia].
Qed.

Lemma meta_bytes_head m : ∃ tl, meta_bytes m = le_bytes 4 (len (meta_bytes m)) ++ tl.
Proof. rewrite len_meta_bytes. unfold meta_bytes. by eexists. Qed.

Lemma replay_add vs m l rest :
  wf_meta m -> Current vs !! Z.to_nat (Level m) = Some l ->
  replay vs ((PutUvarint tagAddTable ++ meta_bytes m) ++ rest) =
  replay (set_Current vs (<[Z.to_nat (Level m) := l ++ [m]]> (Current vs))) rest.
Proof.
  intros Hm Hl. apply replay_step_replay. rewrite <- app_assoc. unfold replay_step.
  rewrite ReadUvarint_tag by (unfold tagAddTable; lia). rewrite Z.eqb_refl.
  assert (peek_Uint32 (meta_bytes m ++ rest) = Ok (len (meta_bytes m))) as ->.
  { unfold peek_Uint32. destruct Hm as (_ & _ & _ & _ & _ & Hs).
    pose proof (len_nonneg (UserKey (MinKey m))). pose proof (len_nonneg (UserKey (MaxKey m))).
    rewrite (proj2 (Z.leb_le _ _)) by (rewrite len_app, len_meta_bytes; len_lia).
    destruct (meta_bytes_head m) as (tl & E).
    rewrite (Uint32_at _ 0 (len (meta_bytes m)) (tl ++ rest)).
    - rewrite u32_small; [done|]. rewrite len_meta_bytes. lia.
    - rewrite app_assoc, <- E. apply at_off_start. }
  cbn [mbind res_bind]. rewrite reader_Read_app.
  - cbn [mbind res_bind]. rewrite <- (app_nil_r (meta_bytes m)), decodeTableMeta_meta_bytes by done.
    cbn [mbind res_bind]. by rewrite (at_level_ok _ _ _ l (l ++ [m])).
  - intros E. apply (f_equal len) in E. rewrite len_meta_bytes in E.
    pose proof (len_nonneg (UserKey (MinKey m))). pose proof (len_nonneg (UserKey (MaxKey m))).
    change (len (@nil byte)) with 0 in E. lia.
Qed.

Lemma replay_delete vs d l rest :
  wf_deleted d -> Current vs !! Z.to_nat (DLevel d) = Some l -> NoDup (map FileNum l) ->
  replay vs ((PutUvarint tagDeleteTable ++ deleted_bytes d) ++ rest) =
  replay (set_Current vs (<[Z.to_nat (DLevel d) := delete_first (DFileNum d) l]> (Current vs))) rest.
Proof.
  intros Hd Hl Hn. apply replay_step_replay. rewrite <- app_assoc. unfold replay_step.
  rewrite ReadUvarint_tag by (unfold tagDeleteTable; lia).
  change (tagDeleteTable =? tagAddTable) with false. rewrite Z.eqb_refl.
  change 12 with (len (deleted_bytes d)). rewrite reader_Read_app by done.
  cbn [mbind res_bind]. rewrite <- (app_nil_r (deleted_bytes d)), decodeDeletedTable_deleted_bytes by done.
  cbn [mbind res_bind]. unfold removeFromLevel.
  by rewrite (at_level_ok _ _ _ l (delete_first (DFileNum d) l)) by (done || by apply removeFromLevel_loop_spec).
Qed.

(** The numbers of an edit. *)
Definition set_numbers (vs : VersionSet) (e : VersionEdit) : VersionSet :=
  mkVS (Current vs) (default (nextFileNum vs) (NextFileNum_ e)) (default (lastSeqNum vs) (LastSequence e))
    (default (logNum vs) (LogNumber_ e)) (manifest vs).

Definition set_number (tag : Z) (n : option Z) (vs : VersionSet) : VersionSet :=
  match n with
  | None => vs
  | Some n =>
      if tag =? tagLastSequence then mkVS (Current vs) (nextFileNum vs) n (logNum vs) (manifest vs)
      else if tag =? tagNextFileNum then mkVS (Current vs) n (lastSeqNum vs) (logNum vs) (manifest vs)
      else mkVS (Current vs) (nextFileNum vs) (lastSeqNum vs) n (manifest vs)
  end.

Lemma replay_number tag n vs rest :
  tag = tagLastSequence ∨ tag = tagNextFileNum ∨ tag = tagLogNum -> wf_number n ->
  replay vs (number_bytes tag n ++ rest) = replay (set_number tag n vs) rest.
Proof.
  intros Ht Hn. destruct n as [n|]; [|done]. cbn [number_bytes wf_number] in *.
  apply replay_step_replay. rewrite <- app_assoc. unfold replay_step.
  rewrite ReadUvarint_tag by (unfold tagLastSequence, tagNextFileNum, tagLogNum in Ht; lia).
  destruct Ht as [->|[->| ->]]; cbn [Z.eqb tagAddTable tagDeleteTable tagLastSequence tagNextFileNum
    tagLogNum Pos.eqb]; by rewrite ReadUvarint_PutUvarint.
Qed.

Lemma replay_numbers vs e rest :
  wf_number (LogNumber_ e) -> wf_number (LastSequence e) -> wf_number (NextFileNum_ e) ->
  replay vs (number_bytes tagLogNum (LogNumber_ e) ++ number_bytes tagLastSequence (LastSequence e) ++
    number_bytes tagNextFileNum (NextFileNum_ e) ++ rest) = replay (set_numbers vs e) rest.
Proof.
  intros H1 H2 H3. rewrite !replay_number by (done || tauto). f_equal.
  destruct e as [ads dls [ls|] [nf|] [lg|]], vs; reflexivity.
Qed.

(** *** A whole edit *)

Lemma concat_insert_perm (v : Version) i l l' :
  v !! i = Some l -> ∃ rest, concat v ≡ₚ l ++ rest ∧ concat (<[i := l']> v) ≡ₚ l' ++ rest.
Proof.
  intros Hl. revert i Hl. induction v as [|l0 v IH]; intros [|i] Hl; [done|done| |].
  - injection Hl as ->. by exists (concat v).
  - destruct (IH i Hl) as (rest & E1 & E2). exists (l0 ++ rest).
    change (<[S i := l']> (l0 :: v)) with (l0 :: <[i := l']> v). cbn [concat]. rewrite E1, E2.
    split; apply Permutation_app_swap_app.
Qed.

(** Adding first and deleting then, as replay does. *)
Fixpoint add_all (v : Version) (adds : list TableMeta) : Version :=
  match adds with
  | [] => v
  | m :: adds => add_all (alter (λ l, l ++ [m]) (Z.to_nat (Level m)) v) adds
  end.

Fixpoint delete_all (v : Version) (dels : list DeletedTableMeta) : Version :=
  match dels with
  | [] => v
  | d :: dels => delete_all (alter (delete_first (DFileNum d)) (Z.to_nat (DLevel d)) v) dels
  end.

Lemma len_add_all v adds : length (add_all v adds) = length v.
Proof. revert v. induction adds as [|m adds IH]; intros v; cbn; [done|]. by rewrite IH, length_alter. Qed.

Lemma len_delete_all v dels : length (delete_all v dels) = length v.
Proof. revert v. induction dels as [|d dels IH]; intros v; cbn; [done|]. by rewrite IH, length_alter. Qed.

Lemma lookup_level (v : Version) i : 0 <= i < len v -> ∃ l, v !! Z.to_nat i = Some l.
Proof. intros H. apply lookup_lt_is_Some_2. unfold len in H. lia. Qed.

Lemma alter_insert (v : Version) i f l : v !! i = Some l -> alter f i v = <[i := f l]> v.
Proof.
  intros H. apply list_eq. intros j. destruct (decide (i = j)) as [->|].
  - rewrite list_lookup_alter_eq, H, list_lookup_insert_eq; [done|by eapply lookup_lt_Some].
  - by rewrite list_lookup_alter_ne, list_lookup_insert_ne.
Qed.

Lemma apply_adds_all v adds :
  Forall (λ m, 0 <= Level m < len v) adds -> apply_adds v adds = Ok (add_all v adds).
Proof.
  revert v. induction adds as [|m adds IH]; intros v Hl; cbn [apply_adds add_all]; [done|].
  apply Forall_cons in Hl as [Hm Hl]. destruct (lookup_level v (Level m) Hm) as [l Hv].
  rewrite (at_level_ok _ _ _ l (l ++ [m])) by done. cbn [mbind res_bind].
  rewrite (alter_insert _ _ _ l Hv). apply IH. unfold len in *. by rewrite length_insert.
Qed.

Lemma apply_deletes_all v dels :
  Forall (λ d, 0 <= DLevel d < len v) dels -> apply_deletes v dels = Ok (delete_all v dels).
Proof.
  revert v. induction dels as [|d dels IH]; intros v Hl; cbn [apply_deletes delete_all]; [done|].
  apply Forall_cons in Hl as [Hm Hl]. destruct (lookup_level v (DLevel d) Hm) as [l Hv].
  rewrite (at_level_ok _ _ _ l (delete_first (DFileNum d) l)) by done. cbn [mbind res_bind].
  rewrite (alter_insert _ _ _ l Hv). apply IH. unfold len in *. by rewrite length_insert.
Qed.

Lemma concat_alter_add (v : Version) i m : (i < length v)%nat -> concat (alter (λ l, l ++ [m]) i v) ≡ₚ concat v ++ [m].
Proof.
  intros Hi. destruct (lookup_lt_is_Some_2 v i Hi) as [l Hl]. rewrite (alter_insert _ _ _ l Hl).
  destruct (concat_insert_perm v i l (l ++ [m]) Hl) as (rest & -> & ->).
  rewrite <- !app_assoc. f_equiv. by rewrite Permutation_app_comm.
Qed.

Lemma concat_add_all v adds :
  Forall (λ m, 0 <= Level m < len v) adds -> concat (add_all v adds) ≡ₚ concat v ++ adds.
Proof.
  revert v. induction adds as [|m adds IH]; intros v Hl; cbn [add_all]; [by rewrite app_nil_r|].
  apply Forall_cons in Hl as [Hm Hl]. rewrite IH by (unfold len in *; by rewrite length_alter).
  rewrite concat_alter_add by (unfold len in *; lia). by rewrite <- app_assoc.
Qed.

Lemma concat_alter_delete (v : Version) i num : concat (alter (delete_first num) i v) `sublist_of` concat v.
Proof.
  revert i. induction v as [|l v IH]; intros [|i]; cbn; [done|done| |].
  - apply sublist_app; [apply delete_first_sublist|done].
  - apply sublist_app; [done|apply IH].
Qed.

Lemma concat_delete_all v dels : concat (delete_all v dels) `sublist_of` concat v.
Proof.
  revert v. induction dels as [|d dels IH]; intros v; cbn [delete_all]; [done|].
  etrans; [apply IH|apply concat_alter_delete].
Qed.

Lemma NoDup_level v i l : version_ok v -> v !! i = Some l -> NoDup (map FileNum l).
Proof.
  unfold version_ok. intros Hv Hl. apply list_elem_of_split_length in Hl as (v1 & v2 & -> & _).
  rewrite concat_app, map_app in Hv. cbn in Hv. rewrite map_app in Hv.
  apply NoDup_app in Hv as (_ & _ & Hv). by apply NoDup_app in Hv as (? & _).
Qed.

Lemma replay_adds vs adds rest :
  Forall wf_meta adds -> Forall (λ m, Level m < len (Current vs)) adds ->
  replay vs (concat (map (λ m, PutUvarint tagAddTable ++ meta_bytes m) adds) ++ rest) =
  replay (set_Current vs (add_all (Current vs) adds)) rest.
Proof.
  intros Hm. revert vs. induction Hm as [|m adds Hm _ IH]; intros vs Hl; cbn [map concat add_all].
  - by destruct vs.
  - apply Forall_cons in Hl as [Hlm Hl]. destruct (lookup_level (Current vs) (Level m)) as [l El];
      [split; [apply Hm|done]|].
    rewrite <- app_assoc, (replay_add vs m l) by done.
    rewrite (alter_insert _ _ _ l El), IH; [done|]. cbn [set_Current Current]. unfold len in *.
    by rewrite length_insert.
Qed.

Lemma replay_deletes vs dels rest :
  Forall wf_deleted dels -> Forall (λ d, DLevel d < len (Current vs)) dels -> version_ok (Current vs) ->
  replay vs (concat (map (λ d, PutUvarint tagDeleteTable ++ deleted_bytes d) dels) ++ rest) =
  replay (set_Current vs (delete_all (Current vs) dels)) rest.
Proof.
  intros Hm. revert vs. induction Hm as [|d dels Hd _ IH]; intros vs Hl Hv; cbn [map concat delete_all].
  - by destruct vs.
  - apply Forall_cons in Hl as [Hld Hl]. destruct (lookup_level (Current vs) (DLevel d)) as [l El];
      [split; [apply Hd|done]|].
    rewrite <- app_assoc, (replay_delete vs d l) by (done || by eapply NoDup_level).
    rewrite <- (alter_insert _ _ _ l El), IH; [done|..]; cbn [set_Current Current].
    + unfold len in *. by rewrite length_alter.
    + eapply sublist_NoDup; [exact Hv|]. apply (fmap_sublist FileNum), concat_alter_delete.
Qed.

Lemma delete_add_commute (v : Version) num i m :
  num ≠ FileNum m ->
  alter (delete_first num) i (alter (λ l, l ++ [m]) (Z.to_nat (Level m)) v) =
  alter (λ l, l ++ [m]) (Z.to_nat (Level m)) (alter (delete_first num) i v).
Proof.
  intros Hn. destruct (decide (i = Z.to_nat (Level m))) as [->|Hne].
  - rewrite !list_alter_alter_eq. apply list_alter_ext; [|done]. intros l _. cbn.
    apply delete_first_app. set_solver.
  - by apply list_alter_alter_ne.
Qed.

Lemma delete_add_all_commute v adds dels :
  Forall (λ d, DFileNum d ∉ map FileNum adds) dels ->
  delete_all (add_all v adds) dels = add_all (delete_all v dels) adds.
Proof.
  assert (∀ v adds d, DFileNum d ∉ map FileNum adds ->
    alter (delete_first (DFileNum d)) (Z.to_nat (DLevel d)) (add_all v adds) =
    add_all (alter (delete_first (DFileNum d)) (Z.to_nat (DLevel d)) v) adds) as H1.
  { clear. intros v adds d. revert v. induction adds as [|m adds IH]; intros v Hd; cbn [add_all]; [done|].
    rewrite IH by set_solver. rewrite delete_add_commute; [done|]. set_solver. }
  intros Hd. revert v. induction Hd as [|d dels Hd _ IH]; intros v; cbn [delete_all]; [done|].
  by rewrite H1, IH.
Qed.

Lemma fits_nonneg e :
  wf_edit e ->
  (∀ v, Forall (λ m, Level m < len v) (AddTables e) -> Forall (λ m, 0 <= Level m < len (A := list TableMeta) v) (AddTables e)) ∧
  (∀ v, Forall (λ d, DLevel d < len v) (DeleteTables e) -> Forall (λ d, 0 <= DLevel d < len (A := list TableMeta) v) (DeleteTables e)).
Proof.
  intros (Ha & Hd & _). split; intros v Hv; rewrite Forall_forall in *; intros x Hx.
  - destruct (Ha x Hx) as (_ & _ & ? & _). specialize (Hv x Hx). lia.
  - destruct (Hd x Hx) as [? _]. specialize (Hv x Hx). lia.
Qed.

(** The version after an edit. *)
Definition edited (v : Version) (e : VersionEdit) : Version :=
  add_all (delete_all v (DeleteTables e)) (AddTables e).

Lemma apply_edited v e : wf_edit e -> edit_fits v e -> apply v e = Ok (edited v e).
Proof.
  intros He (Hl1 & Hl2 & _). destruct (fits_nonneg e He) as [F1 F2]. unfold apply.
  rewrite apply_deletes_all by auto. cbn [mbind res_bind]. apply apply_adds_all.
  apply (F1 (delete_all v (DeleteTables e))). unfold len. by rewrite len_delete_all.
Qed.

Lemma edited_ok v e : wf_edit e -> edit_fits v e -> version_ok (edited v e) ∧ len (edited v e) = len v.
Proof.
  intros He (Hl1 & Hl2 & Hn & _). destruct (fits_nonneg e He) as [F1 F2]. split.
  - unfold version_ok, edited. rewrite concat_add_all.
    + eapply sublist_NoDup; [exact Hn|]. apply (fmap_sublist FileNum). apply sublist_app; [|done].
      apply concat_delete_all.
    + apply (F1 (delete_all v (DeleteTables e))). unfold len. by rewrite len_delete_all.
  - unfold edited, len. by rewrite len_add_all, len_delete_all.
Qed.

Lemma replay_edit vs e rest :
  wf_edit e -> edit_fits (Current vs) e ->
  replay vs (edit_bytes e ++ rest) = replay (set_numbers (set_Current vs (edited (Current vs) e)) e) rest.
Proof.
  intros He Hfit. pose proof He as (Ha & Hd & H1 & H2 & H3). pose proof Hfit as (Hl1 & Hl2 & Hn & Hdis).
  unfold edit_bytes. rewrite <- !app_assoc, replay_adds by done.
  assert (len (add_all (Current vs) (AddTables e)) = len (Current vs)) as Hlen
    by (unfold len; by rewrite len_add_all).
  rewrite replay_deletes; cbn [set_Current Current].
  - rewrite delete_add_all_commute by done. by rewrite replay_numbers.
  - done.
  - by rewrite Hlen.
  - unfold version_ok. destruct (fits_nonneg e He) as [F1 _]. by rewrite concat_add_all by auto.
Qed.

(** The edits fit one after another. *)
Fixpoint edits_ok (v : Version) (es : list VersionEdit) : Prop :=
  match es with
  | [] => True
  | e :: es => wf_edit e ∧ edit_fits v e ∧ edits_ok (edited v e) es
  end.

(** The number that the last of the edits to have one records. *)
Definition last_number (f : VersionEdit -> option Z) (n : Z) (es : list VersionEdit) : Z :=
  foldl (λ n e, default n (f e)) n es.

(** LogAndApply of each of the edits, up to the first error. *)
Fixpoint log_all (vs : VersionSet) (es : list VersionEdit) : res (VersionSet * option error) :=
  match es with
  | [] => Ok (vs, None)
  | e :: es =>
      '(vs, err) ← LogAndApply vs e;
      match err with None => log_all vs es | Some _ => Ok (vs, err) end
  end.

Lemma replay_edits vs es :
  edits_ok (Current vs) es ->
  replay vs (concat (map edit_bytes es)) =
  Some (Ok (mkVS (foldl edited (Current vs) es) (last_number NextFileNum_ (nextFileNum vs) es)
    (last_number LastSequence (lastSeqNum vs) es) (last_number LogNumber_ (logNum vs) es) (manifest vs))).
Proof.
  revert vs. induction es as [|e es IH]; intros vs Hes; [by destruct vs|].
  destruct Hes as (He & Hf & Hes). cbn [map concat]. rewrite replay_edit by done. by rewrite IH.
Qed.

Lemma file_Sync_ok f : no_faults f -> file_Sync f = (mkFile (fdata f) (len (fdata f)) [], None).
Proof. destruct f as [d n fl]. unfold no_faults. cbn. by intros ->. Qed.

(** An edit that fits is logged durably and applied. *)
Lemma LogAndApply_ok vs e :
  no_faults (manifest vs) -> wf_edit e -> edit_fits (Current vs) e ->
  let data := fdata (manifest vs) ++ edit_bytes e in
  LogAndApply vs e = Ok (set_Current (set_manifest vs (mkFile data (len data) [])) (edited (Current vs) e), None).
Proof.
  intros Hnf He Hf data. unfold LogAndApply.
  rewrite encodeVersionEdit_spec by done. cbn [mbind res_bind].
  rewrite file_Write_ok by done. cbv beta iota. fold data. rewrite file_Sync_ok by done. cbv beta iota.
  change (Current (set_manifest _ _)) with (Current vs) at 1.
  rewrite apply_edited by done. done.
Qed.

Lemma log_all_ok vs es :
  no_faults (manifest vs) -> edits_ok (Current vs) es ->
  ∃ f, log_all vs es = Ok (set_manifest (set_Current vs (foldl edited (Current vs) es)) f, None) ∧
    fdata f = fdata (manifest vs) ++ concat (map edit_bytes es) ∧
    (es ≠ [] -> fdurable f = len (fdata f)).
Proof.
  revert vs. induction es as [|e es IH]; intros vs Hnf Hes.
  { exists (manifest vs). rewrite app_nil_r. by destruct vs. }
  destruct Hes as (He & Hf & Hes). cbn [log_all]. rewrite LogAndApply_ok by done. cbn [mbind res_bind].
  set (data := fdata (manifest vs) ++ edit_bytes e).
  set (vs1 := set_Current _ _).
  destruct (IH vs1) as (f & E & Hd & Hs); [done|exact Hes|].
  exists f. rewrite E. split; [done|]. cbn [map concat]. rewrite app_assoc. fold data.
  split; [exact Hd|]. intros _. destruct es; [|by apply Hs]. cbn [log_all] in E. injection E as <-.
  done.
Qed.

Definition reopen (r : Root) (vs : VersionSet) : Root := mkRoot (<[manifestName := manifest vs]> (root_files r)) [].

Lemma Open_new r r1 vs :
  root_files r !! currentFile = None -> Open r = Some (r1, Ok vs) ->
  vs = mkVS (replicate 7 []) 1 0 0 NewFile ∧
  fdata <$> root_files r1 !! currentFile = Some (map ascii_byte manifestName).
Proof.
  intros Hc. unfold Open. destruct r as [files fl]. cbn [root_files] in Hc.
  destruct (next_fault _) as [f1 r2] eqn:E1.
  assert (root_files r2 = files) as -> by (destruct fl; by injection E1 as <- <-). rewrite Hc.
  destruct f1; [done|]. unfold newManifest.
  destruct (next_fault r2) as [f2 r3]. destruct f2; [done|].
  clear E1. destruct (next_fault (mkRoot _ _)) as [f3 r4]. destruct f3; [done|]. intros [= <- <-]. split; [done|].
  cbn [root_files]. by rewrite lookup_insert_eq.
Qed.

Lemma Open_existing r f vs :
  root_faults r = [] -> fdata <$> root_files r !! currentFile = Some (map ascii_byte manifestName) ->
  root_files r !! manifestName = Some f -> replay emptyVersionSet (fdata f) = Some (Ok vs) ->
  Open r = Some (r, Ok (set_manifest vs f)).
Proof.
  intros Hfl Hc Hm Hr. unfold Open. destruct r as [files fl]. cbn [root_files root_faults] in *. subst fl.
  cbn [next_fault root_faults root_files].
  destruct (files !! currentFile) as [c|]; [|done]. apply (inj Some) in Hc. rewrite Hc.
  assert (map byte_ascii (map ascii_byte manifestName) = manifestName) as -> by by vm_compute.
  by rewrite Hm, Hr.
Qed.

Lemma replay_loop_total fuel vs data :
  (length data <= fuel)%nat -> ∃ r, replay_loop fuel vs data = Some r.
Proof.
  revert vs data. induction fuel as [|fuel IH]; intros vs data Hl.
  - destruct data; [by eexists|cbn in Hl; lia].
  - cbn [replay_loop]. destruct (len data =? 0); [by eexists|].
    destruct (replay_step vs data) as [[vs' rest]| |] eqn:E; [|by eexists..].
    apply replay_step_consumes in E. apply IH. lia.
Qed.

(** A table's metadata cut off after the first key's size: zeros stand for the rest. *)
Definition torn_meta (m : TableMeta) : TableMeta :=
  mkTM (FileNum m) (FileSize m) (Level m) (mkIK [] 0 TypeDel) (mkIK [] 0 TypeDel).

Lemma decode_torn_meta m :
  wf_meta m ->
  decodeTableMeta (take 28 (meta_bytes m) ++ zeros (len (meta_bytes m) - 28)) = Ok (torn_meta m).
Proof.
  intros Hm. pose proof (len_nonneg (UserKey (MinKey m))). pose proof (len_nonneg (UserKey (MaxKey m))).
  assert (wf_meta (torn_meta m)) as Ht.
  { destruct Hm as (? & ? & ? & _). unfold wf_meta, wf_key, torn_meta, TypeDel.
    cbn [FileNum FileSize Level MinKey MaxKey UserKey SeqNum KType]. change (len []) with 0. lia. }
  rewrite len_meta_bytes. set (n := len (UserKey (MinKey m)) + len (UserKey (MaxKey m))).
  assert (zeros (58 + len (UserKey (MinKey m)) + len (UserKey (MaxKey m)) - 28) =
    key_bytes (mkIK [] 0 TypeDel) ++ le_bytes 4 0 ++ key_bytes (mkIK [] 0 TypeDel) ++ zeros n) as ->.
  { unfold zeros. replace (Z.to_nat (58 + _ + _ - 28)) with (30 + Z.to_nat n)%nat by lia.
    by rewrite replicate_add. }
  unfold meta_bytes.
  assert (∀ a b c d e tl : bytes, length a = 4%nat -> length b = 8%nat -> length c = 8%nat ->
    length d = 4%nat -> length e = 4%nat -> take 28 (a ++ b ++ c ++ d ++ e ++ tl) = a ++ b ++ c ++ d ++ e) as ->.
  { intros a b c d e tl Ha Hb Hc Hd He. rewrite !app_assoc. rewrite take_app_le by (rewrite !length_app; lia).
    by rewrite take_ge by (rewrite !length_app; lia). }
  2-6: apply length_le_bytes. rewrite <- !app_assoc.
  exact (decodeTableMeta_layout _ _ _ (torn_meta m) (zeros n) Ht).
Qed.

(** ** Key ranges *)

Definition in_range (k : bytes) (t : TableMeta) : Prop :=
  bytes_Compare (UserKey (MinKey t)) k <= 0 ∧ bytes_Compare k (UserKey (MaxKey t)) <= 0.

Lemma KeyRangeOf_bounds_loop l lo hi :
  let '(lo', hi') := foldl (λ '(minKey, maxKey) t,
    (if bytes_Compare (UserKey (MinKey t)) minKey <? 0 then UserKey (MinKey t) else minKey,
     if 0 <? bytes_Compare (UserKey (MaxKey t)) maxKey then UserKey (MaxKey t) else maxKey)) (lo, hi) l in
  bytes_Compare lo' lo <= 0 ∧ bytes_Compare hi hi' <= 0 ∧
  Forall (λ u, bytes_Compare lo' (UserKey (MinKey u)) <= 0 ∧ bytes_Compare (UserKey (MaxKey u)) hi' <= 0) l.
Proof.
  revert lo hi. induction l as [|t l IH]; intros lo hi; cbn [foldl].
  { rewrite !(proj2 (bytes_Compare_eq _ _)) by done. split_and!; [done..|constructor]. }
  set (lo1 := if _ <? 0 then _ else lo). set (hi1 := if 0 <? _ then _ else hi).
  assert (bytes_Compare lo1 lo <= 0 ∧ bytes_Compare lo1 (UserKey (MinKey t)) <= 0) as [L1 L2].
  { subst lo1. destruct (Z.ltb_spec (bytes_Compare (UserKey (MinKey t)) lo) 0).
    - rewrite (proj2 (bytes_Compare_eq (UserKey (MinKey t)) (UserKey (MinKey t)))) by done. lia.
    - rewrite (proj2 (bytes_Compare_eq lo lo)) by done. rewrite bytes_Compare_opp. lia. }
  assert (bytes_Compare hi hi1 <= 0 ∧ bytes_Compare (UserKey (MaxKey t)) hi1 <= 0) as [G1 G2].
  { subst hi1. destruct (Z.ltb_spec 0 (bytes_Compare (UserKey (MaxKey t)) hi)).
    - rewrite (proj2 (bytes_Compare_eq (UserKey (MaxKey t)) (UserKey (MaxKey t)))) by done.
      rewrite bytes_Compare_opp. lia.
    - rewrite (proj2 (bytes_Compare_eq hi hi)) by done. lia. }
  specialize (IH lo1 hi1). destruct (foldl _ (lo1, hi1) l) as [lo' hi']. destruct IH as (I1 & I2 & I3).
  split_and!; [by eapply bytes_Compare_le_trans|by eapply bytes_Compare_le_trans|].
  constructor; [|done]. split; by eapply bytes_Compare_le_trans.
Qed.

Lemma KeyRangeOf_covers l u k :
  u ∈ l -> in_range k u ->
  bytes_Compare (KeyRangeOf l).1 k <= 0 ∧ bytes_Compare k (KeyRangeOf l).2 <= 0.
Proof.
  destruct l as [|t0 l]; [set_solver|]. intros Hu [R1 R2]. cbn [KeyRangeOf].
  pose proof (KeyRangeOf_bounds_loop l (UserKey (MinKey t0)) (UserKey (MaxKey t0))) as Hb.
  destruct (foldl _ _ l) as [lo hi]. destruct Hb as (B1 & B2 & B3). cbn.
  apply elem_of_cons in Hu as [->|Hu].
  - split; by eapply bytes_Compare_le_trans.
  - rewrite Forall_forall in B3. destruct (B3 u Hu). split; by eapply bytes_Compare_le_trans.
Qed.

Lemma overlaps_iff t lo hi :
  overlaps t lo hi = true <->
  bytes_Compare lo (UserKey (MaxKey t)) <= 0 ∧ bytes_Compare (UserKey (MinKey t)) hi <= 0.
Proof.
  unfold overlaps. rewrite negb_true_iff, orb_false_iff, Z.ltb_ge, Z.ltb_ge, (bytes_Compare_opp lo). lia.
Qed.

Lemma FindOverlapping_iff t tables lo hi :
  t ∈ FindOverlapping tables lo hi <-> t ∈ tables ∧ overlaps t lo hi = true.
Proof. unfold FindOverlapping. rewrite list_elem_of_filter. tauto. Qed.

Lemma in_range_overlaps t k lo hi :
  in_range k t -> bytes_Compare lo k <= 0 -> bytes_Compare k hi <= 0 -> overlaps t lo hi = true.
Proof. intros [R1 R2] H1 H2. apply overlaps_iff. split; by eapply bytes_Compare_le_trans. Qed.

(** ** The properties *)

(** C12. Reopening gives the state that was logged: in a new data directory, any sequence of fitting
    edits is logged and applied without error, leaves a manifest that is completely synced, and
    replaying it in a later Open gives exactly the version in memory, with the sequence, file and
    log numbers of the last edits that record one (and zero for those never recorded, whatever the
    numbers in memory are). *)
Theorem reopen_logged r r1 vs0 es :
  root_files r !! currentFile = None -> Open r = Some (r1, Ok vs0) -> edits_ok (Current vs0) es ->
  es ≠ [] ->
  ∃ vs, log_all vs0 es = Ok (vs, None) ∧ fdurable (manifest vs) = len (fdata (manifest vs)) ∧
    Open (reopen r1 vs) = Some (reopen r1 vs, Ok (mkVS (Current vs) (last_number NextFileNum_ 0 es)
      (last_number LastSequence 0 es) (last_number LogNumber_ 0 es) (manifest vs))).
Proof.
  intros Hc Ho Hes Hne. destruct (Open_new _ _ _ Hc Ho) as [-> Hcur].
  destruct (log_all_ok (mkVS (replicate 7 []) 1 0 0 NewFile) es) as (f & -> & Hd & Hs); [done|exact Hes|].
  eexists. split; [done|]. cbn [set_manifest manifest Current set_Current] in *. split; [by apply Hs|].
  rewrite (Open_existing _ f (mkVS (foldl edited (replicate 7 []) es) (last_number NextFileNum_ 0 es)
    (last_number LastSequence 0 es) (last_number LogNumber_ 0 es) NewFile)); [done|done| | |]; unfold reopen; cbn [root_files manifest].
  - rewrite lookup_insert_ne; [exact Hcur|discriminate].
  - by rewrite lookup_insert_eq.
  - rewrite Hd. change (fdata NewFile) with (@nil byte). cbn [app].
    by rewrite (replay_edits emptyVersionSet) by exact Hes.
Qed.

Definition example_meta (num lvl : Z) (a b : byte) : TableMeta :=
  mkTM num 100 lvl (mkIK [a] 1 TypePut) (mkIK [b] 2 TypePut).

(** A flush, and the compaction of its table into the next level. *)
Definition example_edits : list VersionEdit :=
  [mkVE [example_meta 2 0 Byte.x61 Byte.x63] [] (Some 2) (Some 3) None;
   mkVE [example_meta 4 1 Byte.x61 Byte.x63] [mkDM 0 2] None (Some 5) None].

Lemma example_edits_ok : edits_ok (replicate 7 []) example_edits.
Proof.
  unfold example_edits, edits_ok, wf_edit, edit_fits, wf_meta, wf_deleted, wf_key, wf_number.
  split_and!; try exact I; apply (bool_decide_unpack _); vm_compute; exact I.
Qed.

Lemma reopen_logged_witness :
  ∃ r1 vs0, Open (mkRoot ∅ []) = Some (r1, Ok vs0) ∧
  ∃ vs, log_all vs0 example_edits = Ok (vs, None) ∧ fdurable (manifest vs) = len (fdata (manifest vs)) ∧
    Open (reopen r1 vs) = Some (reopen r1 vs, Ok (mkVS (Current vs) 5 2 0 (manifest vs))).
Proof.
  eexists _, _. split; [reflexivity|].
  exact (reopen_logged (mkRoot ∅ []) _ _ example_edits eq_refl eq_refl example_edits_ok ltac:(discriminate)).
Defined.

(** C30. Replaying any bytes at all ends: with a version set, an error or a panic. *)
Theorem replay_terminates vs data : ∃ r, replay vs data = Some r.
Proof. by apply replay_loop_total. Qed.

(** C31. A manifest record cut short after the first 28 bytes of a table's metadata is accepted: the
    read gets fewer bytes than asked for without an error, and the zeros of the buffer stand for
    the keys, so that the version has a table with empty key range. *)
Theorem torn_record_accepted vs m l :
  wf_meta m -> Current vs !! Z.to_nat (Level m) = Some l ->
  replay vs (PutUvarint tagAddTable ++ take 28 (meta_bytes m)) =
  Some (Ok (set_Current vs (<[Z.to_nat (Level m) := l ++ [torn_meta m]]> (Current vs)))).
Proof.
  intros Hm Hl. pose proof (len_nonneg (UserKey (MinKey m))). pose proof (len_nonneg (UserKey (MaxKey m))).
  pose proof (decode_torn_meta m Hm) as Hdec. pose proof (len_meta_bytes m) as Hlen.
  assert (len (take 28 (meta_bytes m)) = 28) as H28 by (rewrite len_take_min, Hlen; lia).
  assert (replay (set_Current vs (<[Z.to_nat (Level m) := l ++ [torn_meta m]]> (Current vs))) [] =
    Some (Ok (set_Current vs (<[Z.to_nat (Level m) := l ++ [torn_meta m]]> (Current vs))))) as <- by done.
  apply replay_step_replay. unfold replay_step. rewrite ReadUvarint_tag by (unfold tagAddTable; lia).
  rewrite Z.eqb_refl.
  assert (peek_Uint32 (take 28 (meta_bytes m)) = Ok (len (meta_bytes m))) as ->.
  { unfold peek_Uint32. rewrite (proj2 (Z.leb_le _ _)) by lia. destruct (meta_bytes_head m) as (tl & E).
    rewrite (Uint32_at _ 0 (len (meta_bytes m)) (take 24 tl)).
    - rewrite u32_small; [done|]. rewrite Hlen. destruct Hm as (_ & _ & _ & _ & _ & ?). lia.
    - rewrite E at 1. rewrite take_app_ge by (rewrite length_le_bytes; lia). rewrite length_le_bytes.
      apply at_off_start. }
  cbn [mbind res_bind]. unfold reader_Read. rewrite (proj2 (Z.eqb_neq _ _)) by lia.
  rewrite take_ge by (unfold len in *; lia). rewrite H28. cbn [mbind res_bind]. rewrite Hdec.
  cbn [mbind res_bind]. rewrite (at_level_ok _ _ _ l (l ++ [torn_meta m])) by done. cbn [mbind res_bind].
  by rewrite drop_ge by (unfold len in *; lia).
Qed.

Lemma torn_record_accepted_witness :
  wf_meta (example_meta 2 0 Byte.x61 Byte.x63) ∧
  replay emptyVersionSet (PutUvarint tagAddTable ++ take 28 (meta_bytes (example_meta 2 0 Byte.x61 Byte.x63))) =
  Some (Ok (set_Current emptyVersionSet ([mkTM 2 100 0 (mkIK [] 0 0) (mkIK [] 0 0)] :: replicate 6 []))).
Proof.
  assert (wf_meta (example_meta 2 0 Byte.x61 Byte.x63)) as Hm.
  { unfold wf_meta, wf_key. apply (bool_decide_unpack _). vm_compute. exact I. }
  split; [exact Hm|]. exact (torn_record_accepted emptyVersionSet _ [] Hm eq_refl).
Defined.

(** C29. The inputs of a compaction are closed under sharing keys: of the tables of a level,
    FindOverlapping with the key range of the inputs keeps, in order, at least all those that
    share some user key with an input; exactly, those that the range meets. *)
Theorem FindOverlapping_KeyRangeOf inputs tables :
  (∀ t u k, t ∈ tables -> u ∈ inputs -> in_range k t -> in_range k u ->
    t ∈ FindOverlapping tables (KeyRangeOf inputs).1 (KeyRangeOf inputs).2) ∧
  (∀ lo hi, FindOverlapping tables lo hi `sublist_of` tables ∧
    ∀ t, t ∈ FindOverlapping tables lo hi <-> t ∈ tables ∧
      bytes_Compare lo (UserKey (MaxKey t)) <= 0 ∧ bytes_Compare (UserKey (MinKey t)) hi <= 0).
Proof.
  split.
  - intros t u k Ht Hu Hkt Hku. destruct (KeyRangeOf_covers inputs u k Hu Hku).
    apply FindOverlapping_iff. split; [done|]. by eapply in_range_overlaps.
  - intros lo hi. split; [apply sublist_filter|]. intros t. by rewrite FindOverlapping_iff, overlaps_iff.
Qed.

Lemma FindOverlapping_KeyRangeOf_witness :
  FindOverlapping [example_meta 5 1 Byte.x63 Byte.x64; example_meta 6 1 Byte.x70 Byte.x71]
    [Byte.x61] [Byte.x63] = [example_meta 5 1 Byte.x63 Byte.x64] ∧
  example_meta 5 1 Byte.x63 Byte.x64 ∈
    FindOverlapping [example_meta 5 1 Byte.x63 Byte.x64; example_meta 6 1 Byte.x70 Byte.x71]
      (KeyRangeOf [example_meta 2 0 Byte.x61 Byte.x63]).1 (KeyRangeOf [example_meta 2 0 Byte.x61 Byte.x63]).2.
Proof.
  split; [by vm_compute|].
  apply (proj1 (FindOverlapping_KeyRangeOf [example_meta 2 0 Byte.x61 Byte.x63]
    [example_meta 5 1 Byte.x63 Byte.x64; example_meta 6 1 Byte.x70 Byte.x71])
    (example_meta 5 1 Byte.x63 Byte.x64) (example_meta 2 0 Byte.x61 Byte.x63) [Byte.x63]).
  - left.
  - left.
  - split; vm_compute; discriminate.
  - split; vm_compute; discriminate.
Defined.
