(* ===== verification/Scan.v ===== *)
(** * Package engine: the scan iterator

    [iterator.go].  A scan merges iterators over the memtables and the tables and delivers, for each
    user key before its end, the newest version not after its sequence number, deletions left out.
    It works over any store of iterators that meets [IteratorLaws]. *)

From S2P Require Import Prelude.
From S2P Require Import GoStd.
From S2P Require Import GoHeap.
From S2P Require Import Records.
From S2P Require Import Skiplist.
From S2P Require Import Versions.
From S2P Require Import Memtable.
From S2P Require Import Iterators.

(** ** The iterator *)

(** The choice of advance's inner loop: records after the sequence number are passed over. *)
Definition pick (seqNum : Z) (best : option Rec) (rec : Rec) : option Rec :=
  if seqNum <? SeqNum rec then best
  else match best with
       | None => Some rec
       | Some b => if SeqNum b <? SeqNum rec then Some rec else best
       end.

Section scan.
Context {W I : Type} `{IteratorOps W I}.

(** [s_current] stands for the pointer and the record it points to; [s_release] tells whether the
    release function is still there. *)
Record ScanIterator := mkScan {
  s_iters : list I;
  s_end : bytes;
  s_seqNum : Z;
  s_current : option Rec;
  s_heap : IteratorHeap;
  s_release : bool
}.

Definition set_scan (s : ScanIterator) (cur : option Rec) (h : IteratorHeap) (iters : list I) : ScanIterator :=
  mkScan iters (s_end s) (s_seqNum s) cur h (s_release s).

(** The inner loop of advance: the versions of [userKey], of which [best] is the newest visible one
    so far.  [None]: a panic, or not enough fuel. *)
Fixpoint pop_versions (fuel : nat) (userKey : bytes) (seqNum : Z) (best : option Rec)
    (h : IteratorHeap) (iters : list I) (w : W) : option (option Rec * IteratorHeap * list I * W) :=
  match Peek h with
  | Some item =>
      if bytes_Equal (UserKey (item_Record item)) userKey then
        match fuel with
        | O => None
        | S fuel =>
            '(rec, h, iters, w) ← PopAndAdvance h iters w;
            pop_versions fuel userKey seqNum (pick seqNum best rec) h iters w
        end
      else Some (best, h, iters, w)
  | None => Some (best, h, iters, w)
  end.

(** The outer loop: [fuel] for its rounds and for each inner loop. *)
Fixpoint advance_loop (fuel : nat) (s : ScanIterator) (w : W) : option (ScanIterator * W) :=
  match Peek (s_heap s) with
  | None => Some (set_scan s None (s_heap s) (s_iters s), w)
  | Some item =>
      let userKey := UserKey (item_Record item) in
      if 0 <=? bytes_Compare userKey (s_end s) then Some (set_scan s None (s_heap s) (s_iters s), w)
      else
        match fuel with
        | O => None
        | S fuel' =>
            '(best, h, iters, w) ← pop_versions fuel userKey (s_seqNum s) None (s_heap s) (s_iters s) w;
            match best with
            | Some b =>
                if IsTombstone b then advance_loop fuel' (set_scan s (s_current s) h iters) w
                else Some (set_scan s (Some b) h iters, w)
            | None => advance_loop fuel' (set_scan s (s_current s) h iters) w
            end
        end
  end.

(** Enough fuel: every round takes a record from the heap. *)
Definition advance (fuel : nat) (s : ScanIterator) (w : W) : option (ScanIterator * W) :=
  advance_loop fuel s w.

Definition NewScanIterator (fuel : nat) (iters : list I) (end_ : bytes) (seqNum : Z) (w : W) :
    option (ScanIterator * W) :=
  advance fuel (mkScan iters end_ seqNum None (NewIteratorHeap (W := W) iters) true) w.

Definition Valid (s : ScanIterator) : bool := match s_current s with Some _ => true | None => false end.

(** Key and Value dereference the current record. *)
Definition Key (s : ScanIterator) : option bytes := (λ r : Rec, UserKey r) <$> s_current s.
Definition Value_ (s : ScanIterator) : option (option bytes) := Value <$> s_current s.

Definition Next (fuel : nat) (s : ScanIterator) (w : W) : option (ScanIterator * W) :=
  match s_current s with None => Some (s, w) | Some _ => advance fuel s w end.

Fixpoint seek_all (target : InternalKey) (iters : list I) (w : W) : option (list I * W) :=
  match iters with
  | [] => Some ([], w)
  | it :: iters =>
      '(it, w) ← iter_Seek target it w; '(iters, w) ← seek_all target iters w; Some (it :: iters, w)
  end.

Definition Seek (fuel : nat) (target : InternalKey) (s : ScanIterator) (w : W) :
    option (ScanIterator * W) :=
  '(iters, w) ← seek_all target (s_iters s) w;
  advance fuel (set_scan s (s_current s) (NewIteratorHeap (W := W) iters) iters) w.

(** The release function runs at most once; whether it ran. *)
Definition Release (s : ScanIterator) : ScanIterator * bool :=
  (mkScan (s_iters s) (s_end s) (s_seqNum s) (s_current s) (s_heap s) false, s_release s).

(** What a scan delivers from here on: the current record and those that Next leads to. *)
Fixpoint scan_collect (n fuel : nat) (s : ScanIterator) (w : W) : option (list Rec * W) :=
  match s_current s with
  | None => Some ([], w)
  | Some r =>
      match n with
      | O => None
      | S n => '(s, w) ← Next fuel s w; '(l, w) ← scan_collect n fuel s w; Some (r :: l, w)
      end
  end.
End scan.
Arguments ScanIterator : clear implicits.

(** ** Specification *)

(** [r] is what a read of its key at [s] returns. *)
Definition shown (s : Z) (l : list Rec) (r : Rec) : Prop :=
  newest (UserKey r) s l (Some r) ∧ IsTombstone r = false.

Definition before (end_ : bytes) (r : Rec) : Prop := bytes_Compare (UserKey r) end_ < 0.

Definition keys_ascending (l : list Rec) : Prop :=
  StronglySorted (λ x y : Rec, bytes_Compare (UserKey x) (UserKey y) < 0) l.

(** ** Lemmas *)

Lemma pick_newest k s l best :
  Forall (λ r : Rec, UserKey r = k) l -> (∀ b : Rec, best = Some b -> UserKey b = k ∧ SeqNum b <= s) ->
  newest k s (option_list best ++ l) (foldl (pick s) best l).
Proof.
  intros Hl. revert best. induction Hl as [|r l Hk Hl IH]; intros best Hb; cbn [foldl].
  - rewrite app_nil_r. destruct best as [b|]; cbn; [|set_solver].
    split_and!; [set_solver|by apply Hb|]. intros r' Hr' _. rewrite list_elem_of_singleton in Hr'. by subst.
  - assert (∀ b : Rec, pick s best r = Some b -> UserKey b = k ∧ SeqNum b <= s) as Hb'.
    { unfold pick. intros b. destruct (Z.ltb_spec s (SeqNum r)); [by apply Hb|].
      destruct best as [b0|]; [|intros [= <-]; done].
      destruct (Z.ltb_spec (SeqNum b0) (SeqNum r)); intros [= <-]; [done|by apply Hb]. }
    specialize (IH _ Hb').
    assert (newest k s (option_list best ++ [r]) (pick s best r)) as H1.
    { unfold pick. destruct (Z.ltb_spec s (SeqNum r)).
      - destruct best as [b|]; cbn.
        + destruct (Hb b eq_refl). split_and!; [set_solver|done|].
          intros r' Hr' [_ Hs]. apply elem_of_cons in Hr' as [->|Hr']; [lia|].
          rewrite list_elem_of_singleton in Hr'. subst. lia.
        + intros r' Hr' [_ Hs]. rewrite list_elem_of_singleton in Hr'. subst. lia.
      - destruct best as [b|]; cbn.
        + destruct (Hb b eq_refl). destruct (Z.ltb_spec (SeqNum b) (SeqNum r)); cbn;
            (split_and!; [set_solver|done|]); intros r' Hr' _; apply elem_of_cons in Hr' as [->|Hr'];
            try rewrite list_elem_of_singleton in Hr'; subst; lia.
        + split_and!; [set_solver|done|]. intros r' Hr' _. rewrite list_elem_of_singleton in Hr'. by subst. }
    change (r :: l) with ([r] ++ l). rewrite app_assoc.
    destruct (foldl (pick s) (pick s best r) l) as [b|] eqn:E; cbn in IH |- *.
    + destruct IH as (Hi & Hv & Hm). split_and!; [|done|].
      * apply elem_of_app in Hi as [Hi|Hi]; [|set_solver].
        destruct (pick s best r) as [b'|] eqn:Ep; [|set_solver]. cbn in Hi.
        rewrite list_elem_of_singleton in Hi. subst b'. destruct H1 as [H1 _]. set_solver.
      * intros r' Hr' Hv'. apply elem_of_app in Hr' as [Hr'|Hr']; [|apply Hm; [set_solver|done]].
        destruct (pick s best r) as [b'|] eqn:Ep; [|by destruct (H1 r' Hr')].
        destruct H1 as (_ & Hvb & H1). specialize (H1 r' Hr' Hv').
        specialize (Hm b' ltac:(cbn; set_solver) Hvb). lia.
    + intros r' Hr' Hv'. apply elem_of_app in Hr' as [Hr'|Hr']; [|apply (IH r'); [set_solver|done]].
      destruct (pick s best r) as [b'|] eqn:Ep; [|by destruct (H1 r' Hr')].
      destruct (Hb' b' eq_refl). apply (IH b'); [cbn; set_solver|done].
Qed.

Lemma Compare_le_keys a b : Compare a b <= 0 -> bytes_Compare (UserKey a) (UserKey b) <= 0.
Proof. intros [?|[Hk _]]%Compare_le_iff; [lia|]. by rewrite (proj2 (bytes_Compare_eq _ _)). Qed.

(** The versions of the first key of a sorted list. *)
Lemma split_key k l :
  sorted_recs l -> Forall (λ x : Rec, bytes_Compare k (UserKey x) <= 0) l ->
  ∃ pre post, l = pre ++ post ∧ Forall (λ x : Rec, UserKey x = k) pre ∧
    Forall (λ x : Rec, bytes_Compare k (UserKey x) < 0) post.
Proof.
  induction l as [|x l IH]; intros Hs Hk; [by exists [], []|].
  apply StronglySorted_cons in Hs as [Hx Hs]. apply Forall_cons in Hk as [Hkx Hk].
  destruct (decide (bytes_Compare k (UserKey x) = 0)) as [E%bytes_Compare_eq|E].
  - destruct (IH Hs Hk) as (pre & post & -> & Hpre & Hpost). exists (x :: pre), post.
    split_and!; [done|by constructor|done].
  - exists [], (x :: l). split_and!; [done|done|]. constructor; [lia|].
    eapply Forall_impl; [exact Hx|]. intros y Hxy%Compare_le_keys.
    pose proof (bytes_Compare_le_trans k (UserKey x) (UserKey y) ltac:(lia) Hxy).
    destruct (Z.eq_dec (bytes_Compare k (UserKey y)) 0) as [E'%bytes_Compare_eq|]; [|lia].
    subst k. rewrite bytes_Compare_opp in Hkx, E. lia.
Qed.

Lemma sorted_keys x l :
  sorted_recs (x :: l) -> Forall (λ y : Rec, bytes_Compare (UserKey x) (UserKey y) <= 0) (x :: l).
Proof.
  intros [Hx _]%StronglySorted_cons. constructor; [by rewrite (proj2 (bytes_Compare_eq _ _))|].
  eapply Forall_impl; [exact Hx|]. intros y. apply Compare_le_keys.
Qed.

Lemma key_lt_ne k k' : bytes_Compare k k' < 0 -> k ≠ k'.
Proof. intros H ->. rewrite (proj2 (bytes_Compare_eq _ _)) in H by done. lia. Qed.

Lemma newest_app_r k s l1 l2 o :
  (∀ r : Rec, r ∈ l1 -> UserKey r ≠ k) -> newest k s (l1 ++ l2) o <-> newest k s l2 o.
Proof.
  intros Hn. assert (∀ r : Rec, r ∈ l1 -> ¬ visible k s r) as Hv by (intros r Hr [? _]; by apply (Hn r)).
  destruct o as [r|]; cbn; setoid_rewrite elem_of_app; split.
  - intros ([Hr|Hr] & Hvr & Hm); [by destruct (Hv r)|]. eauto.
  - intros (Hr & Hvr & Hm). split_and!; [by right|done|]. intros r' [Hr'|Hr'] Hv'; [by destruct (Hv r')|eauto].
  - eauto.
  - intros H r [Hr|Hr]; eauto.
Qed.

Lemma newest_app_l k s l1 l2 o :
  (∀ r : Rec, r ∈ l2 -> UserKey r ≠ k) -> newest k s (l1 ++ l2) o <-> newest k s l1 o.
Proof.
  intros Hn. rewrite (Permutation_app_comm l1 l2).
  by apply newest_app_r.
Qed.

Section scan_lemmas.
Context {W I : Type} `{IteratorLaws W I}.
Implicit Types (s : ScanIterator I) (h : IteratorHeap) (iters : list I) (w : W) (cs : list (list Rec)).

Lemma drains_peek cs h iters w l :
  drains cs h iters w l -> item_Record <$> Peek h = hd_error l.
Proof.
  destruct l as [|r l]; cbn.
  - intros (_ & _ & He). unfold Empty, Peek in *. by destruct (items h).
  - by intros (_ & _ & _ & Hp & _).
Qed.

Lemma pop_versions_spec fuel k sq best cs h iters w pre post :
  drains cs h iters w (pre ++ post) -> Forall (λ x : Rec, UserKey x = k) pre ->
  Forall (λ x : Rec, bytes_Compare k (UserKey x) < 0) post -> (length pre <= fuel)%nat ->
  ∃ h' iters' w', pop_versions fuel k sq best h iters w = Some (foldl (pick sq) best pre, h', iters', w') ∧
    drains cs h' iters' w' post.
Proof.
  intros Hd Hpre Hpost. revert fuel best h iters w Hd. induction Hpre as [|r pre Hr _ IH]; intros fuel best h iters w Hd Hf.
  - cbn [app foldl] in *. exists h, iters, w. split; [|done]. pose proof (drains_peek _ _ _ _ _ Hd) as Hp.
    destruct fuel; cbn [pop_versions]; (destruct (Peek h) as [item|]; [|done]);
      destruct post as [|x post]; try done; cbn in Hp; injection Hp as Hp; rewrite Hp;
      apply Forall_cons in Hpost as [Hx _];
      (destruct (bytes_Equal (UserKey x) k) eqn:E; [|done]); apply bytes_Equal_spec in E; subst k;
      by apply key_lt_ne in Hx.
  - pose proof (drains_peek _ _ _ _ _ Hd) as Hp. cbn [app drains] in Hd.
    destruct Hd as (_ & _ & _ & _ & h1 & iters1 & w1 & E & Hd).
    destruct fuel as [|fuel]; [cbn in Hf; lia|]. cbn [pop_versions foldl].
    destruct (Peek h) as [item|]; [|done]. cbn in Hp. injection Hp as ->.
    rewrite (proj2 (bytes_Equal_spec _ _) Hr), E. cbn [mbind option_bind].
    apply IH; [done|]. cbn in Hf. lia.
Qed.

(** What one advance does with the records [l] that the heap still has to deliver. *)
Definition advanced s l (cur : option Rec) (l' : list Rec) : Prop :=
  (∃ pre, l = pre ++ l' ∧ (cur = None ∨ pre ≠ [])) ∧
  match cur with
  | Some r => before (s_end s) r ∧ Forall (λ x : Rec, bytes_Compare (UserKey r) (UserKey x) < 0) l' ∧
      ∀ x, shown (s_seqNum s) l x ∧ before (s_end s) x <->
        x = r ∨ (shown (s_seqNum s) l' x ∧ before (s_end s) x)
  | None => ∀ x, ¬ (shown (s_seqNum s) l x ∧ before (s_end s) x)
  end.

(** Keys of a sorted list at or after the end are not before it. *)
Lemma not_before s l x :
  Forall (λ y : Rec, bytes_Compare (UserKey x) (UserKey y) <= 0) l -> 0 <= bytes_Compare (UserKey x) (s_end s) ->
  ∀ y, ¬ (shown (s_seqNum s) l y ∧ before (s_end s) y).
Proof.
  intros Hl Hx y [[(Hy & _) _] Hb]. rewrite Forall_forall in Hl. specialize (Hl y Hy). unfold before in Hb.
  rewrite bytes_Compare_opp in Hx.
  pose proof (bytes_Compare_le_trans (s_end s) (UserKey x) (UserKey y) ltac:(lia) Hl).
  rewrite bytes_Compare_opp in Hb. lia.
Qed.

(** The versions [pre] of one key before the others: they show the pick or nothing. *)
Lemma shown_split k sq pre post x :
  Forall (λ y : Rec, UserKey y = k) pre -> Forall (λ y : Rec, bytes_Compare k (UserKey y) < 0) post ->
  unique_versions (pre ++ post) ->
  shown sq (pre ++ post) x <->
  (foldl (pick sq) None pre = Some x ∧ IsTombstone x = false) ∨ shown sq post x.
Proof.
  intros Hpre Hpost Hu. pose proof (pick_newest k sq pre None Hpre ltac:(done)) as Hp. cbn [option_list app] in Hp.
  rewrite Forall_forall in Hpre, Hpost.
  assert (∀ r : Rec, r ∈ post -> UserKey r ≠ k) as Hne by (intros r Hr E; apply (key_lt_ne _ _ (Hpost r Hr)); done).
  assert (unique_versions pre) as Hu1 by (intros r r' Hr Hr'; apply Hu; set_solver).
  unfold shown. destruct (decide (UserKey x = k)) as [Hk|Hk].
  - rewrite Hk, newest_app_l by done. split.
    + intros [Hx Ht]. left. split; [|done]. by eapply newest_unique.
    + intros [[E Ht]|[[Hx _] _]]; [|by destruct (Hne x Hx)]. rewrite E in Hp. done.
  - rewrite newest_app_r by (intros r Hr E; by rewrite (Hpre r Hr) in E). split; [tauto|].
    intros [[E _]|?]; [|done]. rewrite E in Hp. destruct Hp as (_ & [? _] & _). done.
Qed.

Lemma advance_loop_spec fuel s w cs l :
  drains cs (s_heap s) (s_iters s) w l -> sorted_recs l -> unique_versions l -> (length l <= fuel)%nat ->
  ∃ cur h iters w' l', advance_loop fuel s w = Some (set_scan s cur h iters, w') ∧
    drains cs h iters w' l' ∧ advanced s l cur l'.
Proof.
  revert s w l. induction fuel as [|fuel IH]; intros s w l Hd Hs Hu Hf.
  - destruct l; [|cbn in Hf; lia]. pose proof (drains_peek _ _ _ _ _ Hd) as Hp. cbn [advance_loop].
    destruct (Peek (s_heap s)); [done|]. exists None, (s_heap s), (s_iters s), w, []. split_and!; try done.
    split; [exists []; auto|]. intros x [[(Hx & _) _] _]. set_solver.
  - pose proof (drains_peek _ _ _ _ _ Hd) as Hp. cbn [advance_loop].
    destruct (Peek (s_heap s)) as [item|]; destruct l as [|r0 l]; try done; cbn in Hp.
    2: { exists None, (s_heap s), (s_iters s), w, []. split_and!; try done.
      split; [exists []; auto|]. intros x [[(Hx & _) _] _]. set_solver. }
    + injection Hp as ->. pose proof (sorted_keys _ _ Hs) as Hk.
      destruct (Z.leb_spec 0 (bytes_Compare (UserKey r0) (s_end s))) as [Hend|Hend].
      { exists None, (s_heap s), (s_iters s), w, (r0 :: l). split_and!; try done.
        split; [exists []; auto|]. by eapply not_before. }
      destruct (split_key (UserKey r0) (r0 :: l) Hs Hk) as (pre & post & E & Hpre & Hpost).
      rewrite E in Hd, Hu.
      assert (pre ≠ []) as Hne.
      { intros ->. cbn in E. subst post. apply Forall_cons in Hpost as [Hc _]. by apply key_lt_ne in Hc. }
      destruct (pop_versions_spec (S fuel) (UserKey r0) (s_seqNum s) None cs _ _ w pre post Hd Hpre Hpost)
        as (h & iters & w' & -> & Hd').
      { apply (f_equal length) in E. rewrite length_app in E. cbn [length] in *. lia. }
      cbn [mbind option_bind].
      assert (sorted_recs post) as Hs' by (rewrite E in Hs; by apply StronglySorted_app in Hs as (_ & _ & ?)).
      assert (unique_versions post) as Hu' by (intros r r' Hr Hr'; apply Hu; set_solver).
      pose proof (λ x, shown_split (UserKey r0) (s_seqNum s) pre post x Hpre Hpost Hu) as Hsh.
      assert (length post <= fuel)%nat as Hf'.
      { apply (f_equal length) in E. rewrite length_app in E. destruct pre; [done|]. cbn [length] in *. lia. }
      assert (∀ s1, s_heap s1 = h -> s_iters s1 = iters -> s_end s1 = s_end s -> s_seqNum s1 = s_seqNum s ->
        s_release s1 = s_release s -> (∀ x, (foldl (pick (s_seqNum s)) None pre = Some x) -> IsTombstone x = true) ->
        ∃ cur h' iters' w'' l', advance_loop fuel s1 w' = Some (set_scan s cur h' iters', w'') ∧
          drains cs h' iters' w'' l' ∧ advanced s (r0 :: l) cur l') as Hrec.
      { intros s1 <- <- E1 E2 E3 Hno. destruct (IH s1 w' post Hd' Hs' Hu' Hf')
          as (cur & h' & iters' & w'' & l' & -> & Hd'' & [(p & Ep & Hpn) Hadv]).
        exists cur, h', iters', w'', l'. split_and!; [by unfold set_scan; rewrite E1, E2, E3|done|].
        rewrite E. split.
        { exists (pre ++ p). rewrite Ep, <- app_assoc. split; [done|].
          right. by intros [? _]%app_eq_nil. }
        rewrite E1, E2 in Hadv. destruct cur as [r|].
        - destruct Hadv as (Hb & Hl' & Hiff). split_and!; [done|done|]. intros x. rewrite <- Hiff, Hsh.
          split; [|tauto]. intros [[[Hx Ht]|?] ?]; [|done]. rewrite (Hno x Hx) in Ht. done.
        - intros x [Hx Hb]. apply Hsh in Hx as [[Hx Ht]|Hx]; [|by apply (Hadv x)].
          rewrite (Hno x Hx) in Ht. done. }
      destruct (foldl (pick (s_seqNum s)) None pre) as [b|] eqn:Eb.
      * destruct (IsTombstone b) eqn:Ht; [apply Hrec; try done; by intros x [= <-]|].
        exists (Some b), h, iters, w', post. split_and!; [done|done|]. rewrite E. split; [eauto|].
        assert (UserKey b = UserKey r0) as Ekb.
        { pose proof (pick_newest (UserKey r0) (s_seqNum s) pre None Hpre ltac:(done)) as Hn.
          rewrite Eb in Hn. by destruct Hn as (_ & [? _] & _). }
        split_and!.
        -- unfold before. by rewrite Ekb.
        -- by rewrite Ekb.
        -- intros x. rewrite Hsh. split.
           ++ intros [[[[= <-] _]|?] ?]; auto.
           ++ intros [->|[? ?]]; [|auto]. split; [auto|]. unfold before. by rewrite Ekb.
      * apply Hrec; done.
Qed.

(** All that follows the current record. *)
Lemma scan_collect_spec n fuel s w cs l :
  drains cs (s_heap s) (s_iters s) w l -> sorted_recs l -> unique_versions l ->
  (length l <= fuel)%nat -> (length l < n)%nat ->
  ∃ out w', scan_collect n fuel s w = Some (out, w') ∧ iworld w' ∧
    match s_current s with
    | None => out = []
    | Some r => ∃ out', out = r :: out' ∧ keys_ascending out' ∧
        ∀ x, x ∈ out' <-> shown (s_seqNum s) l x ∧ before (s_end s) x
    end.
Proof.
  revert s w l. induction n as [|n IH]; intros s w l Hd Hs Hu Hf Hn; [lia|]. cbn [scan_collect].
  pose proof (drains_world _ _ _ _ _ Hd) as [Hw _].
  destruct (s_current s) as [r|] eqn:Ec; [|by exists [], w]. unfold Next. rewrite Ec. unfold advance.
  destruct (advance_loop_spec fuel s w cs l Hd Hs Hu Hf)
    as (cur & h & iters & w1 & l' & -> & Hd' & [(pre & El & Hpre) Hadv]). cbn [mbind option_bind].
  assert (sorted_recs l') as Hs' by (rewrite El in Hs; by apply StronglySorted_app in Hs as (_ & _ & ?)).
  assert (unique_versions l') as Hu' by (intros x y Hx Hy; apply Hu; set_solver).
  assert (length l' + length pre = length l)%nat as Hlen by (rewrite El, length_app; lia).
  destruct cur as [r'|].
  - destruct Hpre as [?|Hpre]; [done|].
    assert (length l' < length l)%nat as Hlt by (destruct pre; cbn in *; [done|lia]).
    destruct (IH (set_scan s (Some r') h iters) w1 l' Hd' Hs' Hu') as (out & w2 & -> & Hw2 & Hout); [lia|lia|].
    cbn [mbind option_bind set_scan s_current] in *. destruct Hout as (out' & -> & Hasc & Hiff).
    destruct Hadv as (Hb & Hl' & Hiff'). eexists _, w2. split; [done|]. split; [done|]. exists (r' :: out').
    cbn [s_seqNum s_end] in Hiff. split_and!; [done| |].
    + apply StronglySorted_cons. split; [|done]. rewrite Forall_forall in *. intros x Hx.
      apply Hiff in Hx as [[(Hx & _) _] _]. by apply Hl'.
    + intros x. by rewrite Hiff', elem_of_cons, Hiff.
  - pose proof (drains_world _ _ _ _ _ Hd') as [Hw1 _].
    destruct n; (eexists _, w1; split; [cbn; reflexivity|]); (split; [done|]); exists []; (split_and!; [done|constructor|]);
      intros x; split; try set_solver; intros Hx; by destruct (Hadv x).
Qed.

(** From the records [cs] of the iterators that come after [t]: a scan from there. *)
Lemma advance_collect fuel s w cs rests :
  Forall2 irest (s_iters s) rests -> Forall2 icontent (s_iters s) cs -> iworld w ->
  s_heap s = NewIteratorHeap (W := W) (s_iters s) ->
  unique_versions (concat rests) -> (length (concat rests) <= fuel)%nat ->
  ∃ s1 w1 out w2 cur h iters, advance fuel s w = Some (s1, w1) ∧ s1 = set_scan s cur h iters ∧
    Forall2 icontent iters cs ∧ iworld w1 ∧
    scan_collect (S fuel) fuel s1 w1 = Some (out, w2) ∧ iworld w2 ∧ keys_ascending out ∧
    ∀ x, x ∈ out <-> shown (s_seqNum s) (concat rests) x ∧ before (s_end s) x.
Proof.
  intros Hr Hc Hw Hh Hu Hf.
  destruct (heap_drains _ (s_iters s) rests cs w (NewIteratorHeap_inv (s_iters s) rests Hr) Hw Hc)
    as (l & Hd & Hs & HP). rewrite <- Hh in Hd.
  assert (unique_versions l) as Hul by (intros x y; rewrite HP; apply Hu).
  assert (length l <= fuel)%nat as Hfl by (by rewrite HP).
  destruct (advance_loop_spec fuel s w cs l Hd Hs Hul Hfl)
    as (cur & h & iters & w1 & l' & E & Hd' & [(pre & El & Hpre) Hadv]).
  assert (sorted_recs l') as Hs' by (rewrite El in Hs; by apply StronglySorted_app in Hs as (_ & _ & ?)).
  assert (unique_versions l') as Hu' by (intros x y Hx Hy; apply Hul; set_solver).
  assert (length l' + length pre = length l)%nat as Hlen by (rewrite El, length_app; lia).
  destruct (scan_collect_spec (S fuel) fuel (set_scan s cur h iters) w1 cs l' Hd' Hs' Hu')
    as (out & w2 & Ec & Hw2 & Hout); [lia|lia|].
  destruct (drains_world _ _ _ _ _ Hd') as [Hw1 Hc1].
  assert (∀ x, shown (s_seqNum s) (concat rests) x <-> shown (s_seqNum s) l x) as Hsh
    by (intros x; unfold shown; by rewrite HP).
  exists (set_scan s cur h iters), w1, out, w2, cur, h, iters. split_and!; try done.
  - destruct cur as [r|]; cbn [set_scan s_current] in Hout; [|subst; constructor].
    destruct Hout as (out' & -> & Hasc & Hiff), Hadv as (_ & Hl' & _).
    apply StronglySorted_cons. split; [|done]. rewrite Forall_forall in *. intros x Hx.
    apply Hiff in Hx as [[(Hx & _) _] _]. by apply Hl'.
  - intros x. rewrite Hsh. destruct cur as [r|]; cbn [set_scan s_current s_seqNum s_end] in Hout.
    + destruct Hout as (out' & -> & Hasc & Hiff), Hadv as (_ & _ & ->). by rewrite elem_of_cons, Hiff.
    + subst out. split; [set_solver|]. intros Hx. by destruct (Hadv x).
Qed.

Lemma seek_all_spec t iters cs w :
  Forall2 icontent iters cs -> iworld w ->
  ∃ iters' w', seek_all t iters w = Some (iters', w') ∧ iworld w' ∧
    Forall2 irest iters' (map (seek_sorted t) cs) ∧ Forall2 icontent iters' cs.
Proof.
  intros Hc. revert w. induction Hc as [|it c iters cs Hit _ IH]; intros w Hw; [by exists [], w|].
  cbn [seek_all]. destruct (content_seek w it c t Hw Hit) as (it' & w1 & -> & Hw1 & Hr & Hit').
  cbn [mbind option_bind]. destruct (IH w1 Hw1) as (iters' & w2 & -> & Hw2 & Hrs & Hcs).
  cbn [mbind option_bind]. exists (it' :: iters'), w2. split_and!; [done|done|..]; by constructor.
Qed.
End scan_lemmas.

Lemma elem_of_concat {A} (x : A) ls : x ∈ concat ls <-> ∃ l, l ∈ ls ∧ x ∈ l.
Proof. rewrite list_elem_of_In, in_concat. by setoid_rewrite list_elem_of_In. Qed.

(** Seeking every list to [(k, s)] loses no version of [k] or a later key that is visible at [s]. *)
Lemma elem_of_seek k s l (x : Rec) :
  sorted_recs l ->
  x ∈ seek_sorted (mkIK k s 0) l <->
  x ∈ l ∧ (bytes_Compare k (UserKey x) < 0 ∨ UserKey x = k ∧ SeqNum x <= s).
Proof.
  intros Hs. destruct (seek_sorted_spec (mkIK k s 0) l Hs) as (pre & E & Hpre & Hpost).
  assert (0 <= Compare x (mkIK k s 0) <-> (bytes_Compare k (UserKey x) < 0 ∨ UserKey x = k ∧ SeqNum x <= s)) as Hiff.
  { rewrite (Compare_opp (mkIK k s 0) x). pose proof (Compare_le_iff (mkIK k s 0) x) as Hc. cbn in Hc.
    split; intros H; [assert (Compare (mkIK k s 0) x <= 0) as H1 by lia; apply Hc in H1|
      assert (Compare (mkIK k s 0) x <= 0) as H1; [apply Hc|lia]]; naive_solver. }
  rewrite Forall_forall in Hpre, Hpost. rewrite <- Hiff. split.
  - intros Hx. split; [rewrite E; set_solver|by apply Hpost].
  - intros [Hx Hge]. rewrite E in Hx. apply elem_of_app in Hx as [Hx|?]; [|done].
    specialize (Hpre x Hx). cbn in Hpre. lia.
Qed.

Lemma shown_seek k s cs x :
  Forall sorted_recs cs ->
  shown s (concat (map (seek_sorted (mkIK k s 0)) cs)) x <->
  shown s (concat cs) x ∧ bytes_Compare k (UserKey x) <= 0.
Proof.
  intros Hs. rewrite Forall_forall in Hs.
  assert (∀ y : Rec, y ∈ concat (map (seek_sorted (mkIK k s 0)) cs) <->
    y ∈ concat cs ∧ (bytes_Compare k (UserKey y) < 0 ∨ UserKey y = k ∧ SeqNum y <= s)) as Hin.
  { intros y. rewrite !elem_of_concat. split.
    - intros (l & (c & -> & Hc)%list_elem_of_fmap & Hy). apply elem_of_seek in Hy as [Hy ?]; [|by apply Hs]. eauto.
    - intros [(c & Hc & Hy) ?]. exists (seek_sorted (mkIK k s 0) c).
      split; [by apply list_elem_of_fmap_2|].
      apply elem_of_seek; [by apply Hs|done]. }
  unfold shown, newest. setoid_rewrite Hin. split.
  - intros [([Hx Hk] & Hv & Hm) Ht]. split; [split; [|done]|].
    + split_and!; [done|done|]. intros r' Hr' [Hk' Hs']. apply Hm; [|done]. split; [done|].
      rewrite Hk'. destruct Hk as [?|[E _]]; [by left|]. right. split; [done|exact Hs'].
    + destruct Hk as [?|[E _]]; [lia|]. rewrite (proj2 (bytes_Compare_eq _ _) (eq_sym E)). lia.
  - intros [[(Hx & Hv & Hm) Ht] Hk]. split; [|done]. split; [split; [done|]|split; [done|]].
    + destruct (Z.eq_dec (bytes_Compare k (UserKey x)) 0) as [E%bytes_Compare_eq|]; [|left; lia].
      right. by destruct Hv.
    + intros r' [Hr' _] Hv'. by apply Hm.
Qed.

Lemma length_seek_all t cs : (length (concat (map (seek_sorted t) cs)) <= length (concat cs))%nat.
Proof.
  induction cs as [|c cs IH]; cbn [map concat]; [done|]. rewrite !length_app.
  assert (length (seek_sorted t c) <= length c)%nat; [|lia].
  clear. induction c as [|x c IH]; cbn [seek_sorted]; [done|]. destruct (_ <? _); cbn [length]; lia.
Qed.

Lemma unique_sublist l1 l2 : (∀ x : Rec, x ∈ l1 -> x ∈ l2) -> unique_versions l2 -> unique_versions l1.
Proof. intros Hs Hu x y Hx Hy. apply Hu; auto. Qed.

Lemma elem_of_seek_concat t cs x :
  Forall sorted_recs cs -> x ∈ concat (map (seek_sorted t) cs) -> x ∈ concat cs.
Proof.
  intros Hs. rewrite !elem_of_concat. intros (l & (c & -> & Hc)%list_elem_of_fmap & Hx). exists c.
  split; [done|]. rewrite Forall_forall in Hs. destruct (seek_sorted_spec t c (Hs c Hc)) as (pre & E & _).
  rewrite E. set_solver.
Qed.

(** ** What a scan guarantees *)

(** C22. Iterators that were sought to the start key, as the engine's scan does, are merged to exactly
    what the database shows at the sequence number: a scan ends, no step of it panics, the keys
    come in strictly ascending order, and a record is delivered if and only if its key lies between
    the start and the end (the end excluded), it is the newest version of the key not after the
    sequence number among all the records, and it is no deletion.  A later Seek to another key gives
    the same from that key on. *)
Theorem ScanIterator_exact {W I} `{IteratorLaws W I} (iters : list I) cs start end_ s k2 (w : W) :
  Forall2 irest iters (map (seek_sorted (mkIK start s 0)) cs) -> Forall2 icontent iters cs ->
  iworld w -> unique_versions (concat cs) ->
  let fuel := length (concat cs) in
  ∃ s1 w1 out w2, NewScanIterator fuel iters end_ s w = Some (s1, w1) ∧
    scan_collect (S fuel) fuel s1 w1 = Some (out, w2) ∧ keys_ascending out ∧
    (∀ x, x ∈ out <-> shown s (concat cs) x ∧ bytes_Compare start (UserKey x) <= 0 ∧ before end_ x) ∧
  ∃ s2 w3 out2 w4, Seek fuel (mkIK k2 s 0) s1 w1 = Some (s2, w3) ∧
    scan_collect (S fuel) fuel s2 w3 = Some (out2, w4) ∧ keys_ascending out2 ∧
    ∀ x, x ∈ out2 <-> shown s (concat cs) x ∧ bytes_Compare k2 (UserKey x) <= 0 ∧ before end_ x.
Proof.
  intros Hr Hc Hw Hu fuel.
  assert (Forall sorted_recs cs) as Hsorted.
  { clear -Hc H2. induction Hc; constructor; [by eapply (content_sorted (W := W))|done]. }
  assert (∀ k, unique_versions (concat (map (seek_sorted (mkIK k s 0)) cs))) as Hu'.
  { intros k. eapply unique_sublist; [|exact Hu]. intros x. by apply elem_of_seek_concat. }
  destruct (advance_collect fuel (mkScan iters end_ s None (NewIteratorHeap (W := W) iters) true) w cs _ Hr Hc Hw eq_refl (Hu' start))
    as (s1 & w1 & out & w2 & cur & h & iters1 & E1 & Es1 & Hc1 & Hw1 & Eo & _ & Hasc & Hiff); [apply length_seek_all|].
  exists s1, w1, out, w2. split_and!; [done|done|done| |].
  { intros x. rewrite Hiff. cbn [s_seqNum s_end]. rewrite shown_seek by done. tauto. }
  destruct (seek_all_spec (mkIK k2 s 0) iters1 cs w1 Hc1 Hw1) as (iters2 & w3 & Esk & Hw3 & Hr3 & Hc3).
  destruct (advance_collect fuel (set_scan s1 (s_current s1) (NewIteratorHeap (W := W) iters2) iters2) w3 cs _ Hr3 Hc3 Hw3 eq_refl (Hu' k2))
    as (s2 & w4 & out2 & w5 & cur2 & h2 & iters4 & E2 & _ & _ & _ & Eo2 & _ & Hasc2 & Hiff2); [apply length_seek_all|].
  exists s2, w4, out2, w5. split_and!; [|done|done|].
  - unfold Seek. subst s1. cbn [set_scan s_iters] in *. rewrite Esk. exact E2.
  - intros x. rewrite Hiff2. subst s1. cbn [set_scan s_seqNum s_end]. rewrite shown_seek by done. tauto.
Qed.

(** Three sorted runs with an overwritten and a deleted key. *)
Lemma ScanIterator_exact_witness :
  ∃ (iters : list MemtableIterator) l1 l2 s1 out w2,
    NewScanIterator (length (concat [l1; l2])) iters [Byte.x7a] 9 tt = Some (s1, tt) ∧
    scan_collect (S (length (concat [l1; l2]))) (length (concat [l1; l2])) s1 tt = Some (out, w2) ∧
    keys_ascending out ∧
    ∀ x, x ∈ out <-> shown 9 (concat [l1; l2]) x ∧ bytes_Compare [Byte.x61] (UserKey x) <= 0 ∧ before [Byte.x7a] x.
Proof.
  destruct (Put_all_holds _ _ example_puts (New_holds 100 4 ltac:(lia)))
    as (m1 & l1 & _ & [Hr1 Hs1] & HP1 & _).
  destruct (Put_all_holds _ _ example_puts2 (New_holds 100 4 ltac:(lia)))
    as (m2 & l2 & _ & [Hr2 Hs2] & HP2 & _).
  destruct (Iterator_remaining _ _ Hr1) as (it1 & _ & Hm1 & E1).
  destruct (Iterator_remaining _ _ Hr2) as (it2 & _ & Hm2 & E2).
  assert (Forall2 icontent [it1; it2] [l1; l2]) as Hc by (repeat constructor; by rewrite ?E1, ?E2).
  destruct (seek_all_spec (W := unit) (mkIK [Byte.x61] 9 0) _ _ tt Hc I) as (iters & [] & _ & _ & Hr & Hc').
  destruct (ScanIterator_exact iters [l1; l2] [Byte.x61] [Byte.x7a] 9 [Byte.x62] tt Hr Hc' I)
    as (s1 & [] & out & w2 & Ea & Eb & Hasc & Hiff & _).
  { cbn [concat]. rewrite app_nil_r. intros x y. rewrite HP1, HP2. cbn.
    intros Hx Hy. repeat (apply elem_of_cons in Hx as [->|Hx]); repeat (apply elem_of_cons in Hy as [->|Hy]);
      try (by inversion Hx); try (by inversion Hy); done. }
  exists iters, l1, l2, s1, out, w2. split_and!; done.
Defined.
