(* ===== verification/EngineState.v ===== *)
(** * Package engine: the state, its effects, the table cache and the snapshots

    [engine.go]'s Engine with everything its operations share: the options, the logs, the memtables,
    the version set, the table and block caches, the queues of the background goroutines and the
    file system.  Objects that the program reaches through several pointers (memtables, logs) live
    in stores and are named by index; [getReader] ([read.go]), [helpers.go] and the list of
    [snapshot.go] are here as well. *)

From stdpp Require Import gmultiset.
From S2P Require Import Prelude.
From S2P Require Import GoStd.
From S2P Require Import GoIO.
From S2P Require Import Records.
From S2P Require Import Memtable.
From S2P Require Import Config.
From S2P Require Import Wal.
From S2P Require Import Batch.
From S2P Require Import Filter.
From S2P Require Import Blocks.
From S2P Require Import BlockCache.
From S2P Require Import Names.
From S2P Require Import TableWriter.
From S2P Require Import TableReader.
From S2P Require Import Meta.

(** ** The file system

    Paths lead to inodes, so that an open file outlives its name.  [io_faults] are the failures of
    the coming calls that open, create, list or remove; [new_faults] those of the writes to the
    coming new files. *)

Record FS := mkFS {
  dir : gmap path nat;
  inodes : list File;
  io_faults : list bool;
  new_faults : list (list (option Z))
}.

Definition fs_file (fs : FS) (p : path) : option File := i ← dir fs !! p; inodes fs !! i.

Definition set_inode (fs : FS) (i : nat) (f : File) : FS :=
  mkFS (dir fs) (<[i := f]> (inodes fs)) (io_faults fs) (new_faults fs).

(** ** The engine *)

(** An open log: its path, its file and the rest of the WAL object. *)
Record WalHandle := mkWH { wh_path : path; wh_inode : nat; wh_mode : SyncMode; wh_closed : bool }.

Record flushTask := mkTask {
  oldWalPath : option path;
  oldWal : option nat;
  task_mt : nat;
  writer : TableWriter;
  writer_path : path;
  task_fileNum : Z
}.

(** A compaction goroutine that has been started. *)
Record compactTask := mkCT { ct_level : Z; ct_inputs : list TableMeta; ct_outFileNum : Z }.

(** Indices stand for pointers into [mts] and [wals].  [flushChan] holds the tasks sent and not yet
    received, those of blocked senders included; [compactQueue] the compactions started and not yet
    run; [flips] are the coming random choices of the skip lists. *)
Record Engine := mkEngine {
  opts : Options;
  wal : option nat;
  imwal : option nat;
  mt : nat;
  immt : option nat;
  mts : list Memtable;
  wals : list WalHandle;
  vs : VersionSet;
  seqNum : Z;
  tableCache : gmap Z TableReader;
  rworld : RWorld;
  flushChan : list flushTask;
  compactQueue : list compactTask;
  isCompacting : bool;
  compactPointer : list bytes;
  snapshots : list Z;
  fs : FS;
  flips : list (list bool)
}.

Definition set_logs (e : Engine) (w iw : option nat) (ws : list WalHandle) : Engine :=
  mkEngine (opts e) w iw (mt e) (immt e) (mts e) ws (vs e) (seqNum e) (tableCache e) (rworld e)
    (flushChan e) (compactQueue e) (isCompacting e) (compactPointer e) (snapshots e) (fs e) (flips e).

Definition set_mems (e : Engine) (m : nat) (im : option nat) (ms : list Memtable) (fl : list (list bool)) : Engine :=
  mkEngine (opts e) (wal e) (imwal e) m im ms (wals e) (vs e) (seqNum e) (tableCache e) (rworld e)
    (flushChan e) (compactQueue e) (isCompacting e) (compactPointer e) (snapshots e) (fs e) fl.

Definition set_vs (e : Engine) (v : VersionSet) : Engine :=
  mkEngine (opts e) (wal e) (imwal e) (mt e) (immt e) (mts e) (wals e) v (seqNum e) (tableCache e) (rworld e)
    (flushChan e) (compactQueue e) (isCompacting e) (compactPointer e) (snapshots e) (fs e) (flips e).

Definition set_seqNum (e : Engine) (s : Z) : Engine :=
  mkEngine (opts e) (wal e) (imwal e) (mt e) (immt e) (mts e) (wals e) (vs e) s (tableCache e) (rworld e)
    (flushChan e) (compactQueue e) (isCompacting e) (compactPointer e) (snapshots e) (fs e) (flips e).

Definition set_tables (e : Engine) (tc : gmap Z TableReader) (w : RWorld) : Engine :=
  mkEngine (opts e) (wal e) (imwal e) (mt e) (immt e) (mts e) (wals e) (vs e) (seqNum e) tc w
    (flushChan e) (compactQueue e) (isCompacting e) (compactPointer e) (snapshots e) (fs e) (flips e).

Definition set_queues (e : Engine) (fc : list flushTask) (cq : list compactTask) : Engine :=
  mkEngine (opts e) (wal e) (imwal e) (mt e) (immt e) (mts e) (wals e) (vs e) (seqNum e) (tableCache e) (rworld e)
    fc cq (isCompacting e) (compactPointer e) (snapshots e) (fs e) (flips e).

Definition set_compact (e : Engine) (c : bool) (cp : list bytes) : Engine :=
  mkEngine (opts e) (wal e) (imwal e) (mt e) (immt e) (mts e) (wals e) (vs e) (seqNum e) (tableCache e) (rworld e)
    (flushChan e) (compactQueue e) c cp (snapshots e) (fs e) (flips e).

Definition set_snapshots (e : Engine) (l : list Z) : Engine :=
  mkEngine (opts e) (wal e) (imwal e) (mt e) (immt e) (mts e) (wals e) (vs e) (seqNum e) (tableCache e) (rworld e)
    (flushChan e) (compactQueue e) (isCompacting e) (compactPointer e) l (fs e) (flips e).

Definition set_fs (e : Engine) (f : FS) : Engine :=
  mkEngine (opts e) (wal e) (imwal e) (mt e) (immt e) (mts e) (wals e) (vs e) (seqNum e) (tableCache e) (rworld e)
    (flushChan e) (compactQueue e) (isCompacting e) (compactPointer e) (snapshots e) f (flips e).

(** ** The engine's operations: a result, which may be an error or a panic, and the new state *)

Definition EM (A : Type) : Type := Engine -> res A * Engine.

#[export] Instance EM_ret : MRet EM := λ A a e, (Ok a, e).
#[export] Instance EM_bind : MBind EM := λ A B f m e,
  match m e with (Ok a, e) => f a e | (Err x, e) => (Err x, e) | (Panic, e) => (Panic, e) end.

Definition gets {A} (f : Engine -> A) : EM A := λ e, (Ok (f e), e).
Definition modify (f : Engine -> Engine) : EM unit := λ e, (Ok tt, f e).
Definition lift {A} (m : res A) : EM A := λ e, (m, e).
Definition fail {A} (x : error) : EM A := lift (Err x).

(** The error as a value, for code that looks at it. *)
Definition attempt {A} (m : EM A) : EM (A + error) := λ e,
  match m e with (Ok a, e) => (Ok (inl a), e) | (Err x, e) => (Ok (inr x), e) | (Panic, e) => (Panic, e) end.

(** Return an error value as an error. *)
Definition check (o : option error) : EM unit := match o with None => mret tt | Some x => fail x end.

(** Operations on tables and iterators, with the engine's caches. *)
Definition reading {A} (m : RM A) : EM A := λ e,
  let '(r, w) := m (rworld e) in (r, set_tables e (tableCache e) w).

Definition iterating {A} (m : RWorld -> option (A * RWorld)) : EM A := λ e,
  match m (rworld e) with Some (a, w) => (Ok a, set_tables e (tableCache e) w) | None => (Panic, e) end.

(** *** File system calls *)

(** The next call that can fail. *)
Definition io : EM unit := λ e,
  let fs0 := fs e in
  match io_faults fs0 with
  | b :: fl =>
      (if b then Err ErrIO else Ok tt, set_fs e (mkFS (dir fs0) (inodes fs0) fl (new_faults fs0)))
  | [] => (Ok tt, e)
  end.

(** A new inode under the path. *)
Definition create (p : path) : EM nat := λ e,
  let fs0 := fs e in
  let i := length (inodes fs0) in
  (Ok i, set_fs e (mkFS (<[p := i]> (dir fs0))
    (inodes fs0 ++ [mkFile [] 0 (default [] (hd_error (new_faults fs0)))]) (io_faults fs0) (tail (new_faults fs0)))).

(** OpenFile with O_CREATE. *)
Definition open_or_create (p : path) : EM nat :=
  _ ← io;
  i ← gets (λ e, dir (fs e) !! p);
  match i with Some i => mret i | None => create p end.

(** OpenFile with O_CREATE and O_TRUNC. *)
Definition create_trunc (p : path) : EM nat :=
  i ← open_or_create p;
  f ← gets (λ e, inodes (fs e) !! i);
  match f with
  | Some f => _ ← modify (λ e, set_fs e (set_inode (fs e) i (mkFile [] 0 (ffaults f)))); mret i
  | None => lift Panic
  end.

(** os.Remove *)
Definition remove (p : path) : EM unit :=
  _ ← io;
  i ← gets (λ e, dir (fs e) !! p);
  match i with
  | Some _ => modify (λ e, set_fs e (mkFS (delete p (dir (fs e))) (inodes (fs e)) (io_faults (fs e)) (new_faults (fs e))))
  | None => fail ErrIO
  end.

(** The contents that a writer has given its file. *)
Definition put_file (p : path) (f : File) : EM unit :=
  i ← gets (λ e, dir (fs e) !! p);
  match i with Some i => modify (λ e, set_fs e (set_inode (fs e) i f)) | None => mret tt end.

(** *** Logs *)

Definition wal_Open (p : path) (mode : SyncMode) : EM nat :=
  i ← open_or_create p;
  w ← gets (λ e, length (wals e));
  _ ← modify (λ e, set_logs e (wal e) (imwal e) (wals e ++ [mkWH p i mode false]));
  mret w.

(** Run a method of the log [w], whose file is in the file system. *)
Definition on_wal {A} (w : nat) (m : WAL -> res (WAL * A)) : EM A := λ e,
  match wals e !! w with
  | Some h =>
      match inodes (fs e) !! wh_inode h with
      | Some f =>
          match m (mkWAL f (wh_mode h) (wh_closed h)) with
          | Ok (l, a) =>
              (Ok a, set_fs (set_logs e (wal e) (imwal e)
                (<[w := mkWH (wh_path h) (wh_inode h) (wh_mode h) (Wal.closed l)]> (wals e)))
                (set_inode (fs e) (wh_inode h) (Wal.file l)))
          | Err x => (Err x, e)
          | Panic => (Panic, e)
          end
      | None => (Panic, e)
      end
  | None => (Panic, e)
  end.

(** submit in either mode: in the mode SyncBatch the committer's round for this one buffer. *)
Definition wal_submit (l : WAL) (buf : bytes) : WAL * option error :=
  match Wal.mode l with
  | SyncNone => submit l buf
  | SyncBatch =>
      if Wal.closed l then (l, Some ErrClosed)
      else let '(f, err) := commit_batch (Wal.file l) [buf] in (mkWAL f (Wal.mode l) (Wal.closed l), err)
  end.

Definition wal_Append (w : nat) (r : Rec) : EM (option error) :=
  on_wal w (λ l, buf ← encodeRecords [r]; Ok (wal_submit l buf)).

(** The error and the renumbered records. *)
Definition wal_AppendBatch (w : nat) (recs : list Rec) (startSeq : Z) : EM (option error * list Rec) :=
  on_wal w (λ l,
    let recs := renumber recs startSeq in
    buf ← encodeRecords recs;
    let '(l, err) := wal_submit l buf in Ok (l, (err, recs))).

Definition wal_Sync (w : nat) : EM (option error) := on_wal w (λ l, Ok (Wal.Sync l)).

Definition wal_Close (w : nat) : EM (option error) :=
  on_wal w (λ l, match Wal.Close (Some l) with (Some l, err) => Ok (l, err) | (None, err) => Ok (l, err) end).

Definition wal_Path (w : option nat) : EM (option path) :=
  gets (λ e, w ← w; h ← wals e !! w; Some (wh_path h)).

(** *** Memtables *)

Definition the_mt (i : nat) : EM Memtable :=
  m ← gets (λ e, mts e !! i); match m with Some m => mret m | None => lift Panic end.

Definition update_mt (i : nat) (f : Memtable -> Memtable) : EM unit :=
  modify (λ e, set_mems e (mt e) (immt e) (alter f i (mts e)) (flips e)).

(** Put with the next random level. *)
Definition mt_Put (i : nat) (r : Rec) : EM unit :=
  m ← the_mt i;
  fl ← gets flips;
  match Memtable.Put m (default [] (hd_error fl)) r with
  | Some m => modify (λ e, set_mems e (mt e) (immt e) (<[i := m]> (mts e)) (tail fl))
  | None => lift Panic
  end.

Definition mt_New : EM nat :=
  i ← gets (λ e, length (mts e));
  _ ← modify (λ e, set_mems e (mt e) (immt e)
    (mts e ++ [Memtable.New (u64 (MemtableSize (opts e))) (Z.to_nat (SkiplistMaxLevel (opts e)))]) (flips e));
  mret i.

(** *** The version set *)

Definition next_file_num : EM Z := λ e,
  let '(n, v) := NextFileNum (vs e) in (Ok n, set_vs e v).

Definition log_and_apply (edit : VersionEdit) : EM (option error) := λ e,
  match LogAndApply (vs e) edit with
  | Ok (v, err) => (Ok err, set_vs e v)
  | Err x => (Err x, e)
  | Panic => (Panic, e)
  end.

(** ** The table cache *)

(** Open of the file under a path; [name] is the file's base name. *)
Definition open_table (level fileNum : Z) : EM TableReader := λ e,
  reading (TableReader.Open (fdata <$> fs_file (fs e) (tablePath level fileNum)) (table_name fileNum) true) e.

(** The second look into the cache is that of another goroutine that came first: here, none. *)
Definition getReader (t : TableMeta) : EM TableReader :=
  r ← gets (λ e, tableCache e !! FileNum t);
  match r with
  | Some r => mret r
  | None =>
      r ← open_table (Level t) (FileNum t);
      existing ← gets (λ e, tableCache e !! FileNum t);
      match existing with
      | Some existing => _ ← attempt (reading (TableReader.Close r)); mret existing
      | None =>
          _ ← modify (λ e, set_tables e (<[FileNum t := r]> (tableCache e)) (rworld e));
          mret r
      end
  end.

(** ** Snapshots *)

Record Snapshot := mkSnapshot { snap_seqNum : Z }.

Definition snapshots_add (l : list Z) (seq : Z) : list Z := slices_Sort (l ++ [seq]).

Fixpoint snapshots_remove (l : list Z) (seq : Z) : list Z :=
  match l with
  | [] => []
  | s :: l => if s =? seq then l else s :: snapshots_remove l seq
  end.

Definition oldest (l : list Z) : Z := match l with [] => MaxUint64 | s :: _ => s end.

Definition NewSnapshot : EM Snapshot :=
  seq ← gets seqNum;
  _ ← modify (λ e, set_snapshots e (snapshots_add (snapshots e) seq));
  mret (mkSnapshot seq).

Definition Release (s : Snapshot) : EM unit :=
  modify (λ e, set_snapshots e (snapshots_remove (snapshots e) (snap_seqNum s))).

(** *** The list against a multiset of the live snapshots *)

Inductive snapshot_op := Take (seq : Z) | Drop (seq : Z).

Definition snapshots_step (l : list Z) (op : snapshot_op) : list Z :=
  match op with Take s => snapshots_add l s | Drop s => snapshots_remove l s end.

Definition live_step (l : gmultiset Z) (op : snapshot_op) : gmultiset Z :=
  match op with Take s => l ⊎ {[+ s +]} | Drop s => l ∖ {[+ s +]} end.

Lemma snapshots_remove_live l s :
  list_to_set_disj (snapshots_remove l s) = (list_to_set_disj l ∖ {[+ s +]} : gmultiset Z).
Proof.
  induction l as [|x l IH]; cbn [snapshots_remove list_to_set_disj]; [multiset_solver|].
  destruct (Z.eqb_spec x s) as [->|Hne]; [multiset_solver|]. cbn [list_to_set_disj]. rewrite IH. multiset_solver.
Qed.

Lemma snapshots_remove_sublist l s : snapshots_remove l s `sublist_of` l.
Proof.
  induction l as [|x l IH]; cbn [snapshots_remove]; [done|].
  destruct (_ =? _); [by apply sublist_cons|by apply sublist_skip].
Qed.

Lemma StronglySorted_sublist {A} (R : A -> A -> Prop) l k :
  l `sublist_of` k -> StronglySorted R k -> StronglySorted R l.
Proof.
  induction 1 as [|x l k Hs IH|x l k Hs IH]; intros Hk; [done|..];
    apply StronglySorted_cons in Hk as [Hx Hk].
  - apply StronglySorted_cons. split; [|by apply IH]. rewrite Forall_forall in *. intros y Hy. apply Hx.
    by eapply elem_of_sublist.
  - by apply IH.
Qed.

(** C35. The list of snapshots stays sorted and holds each live snapshot as often as it was taken and
    not released, whatever the order of the calls; oldest is the least of them, or the greatest
    uint64 if there is none. *)
Theorem snapshots_oldest ops :
  let l := foldl snapshots_step [] ops in
  StronglySorted Z.le l ∧ list_to_set_disj l = foldl live_step ∅ ops ∧
  (l ≠ [] -> oldest l ∈ l) ∧ (∀ s, s ∈ l -> oldest l <= s) ∧ (l = [] -> oldest l = MaxUint64).
Proof.
  intros l. assert (StronglySorted Z.le l ∧ list_to_set_disj l = foldl live_step ∅ ops) as [Hs Hm].
  { subst l. change (foldl live_step ∅ ops) with (foldl live_step (list_to_set_disj []) ops).
    assert (StronglySorted Z.le []) as Hs by constructor. revert Hs. generalize (@nil Z) as l.
    induction ops as [|op ops IH]; intros l Hs; [done|]. cbn [foldl].
    assert (StronglySorted Z.le (snapshots_step l op) ∧
      list_to_set_disj (snapshots_step l op) = live_step (list_to_set_disj l) op) as [H1 H2].
    { destruct op as [s|s]; cbn [snapshots_step live_step].
      - unfold snapshots_add, slices_Sort. split.
        + apply Sorted_StronglySorted; [intros ???; lia|]. apply Sorted_merge_sort. intros ??; lia.
        + rewrite (merge_sort_Permutation Z.le). rewrite list_to_set_disj_app. cbn [list_to_set_disj]. by rewrite (right_id ∅ (⊎)).
      - split; [|apply snapshots_remove_live]. eapply StronglySorted_sublist; [apply snapshots_remove_sublist|done]. }
    destruct (IH _ H1) as [H3 H4]. split; [done|]. by rewrite H4, H2. }
  split_and!; [done|done|..].
  - intros Hne. destruct l as [|x l']; [done|]. left.
  - intros s Hin. destruct l as [|x l']; [by inversion Hin|]. apply StronglySorted_cons in Hs as [Hx _].
    cbn. apply elem_of_cons in Hin as [->|Hin]; [lia|]. rewrite Forall_forall in Hx. by apply Hx.
  - by intros ->.
Qed.
