(* ===== verification/EngineRead.v ===== *)
(** * Package engine: reads

    [read.go]: point lookups through the memtables and the levels, and scans, with the invariant of
    the engine's state under which both give what the database holds. *)

From S2P Require Import Prelude.
From S2P Require Import GoStd.
From S2P Require Import GoIO.
From S2P Require Import GoHeap.
From S2P Require Import Records.
From S2P Require Import Skiplist.
From S2P Require Import Versions.
From S2P Require Import Memtable.
From S2P Require Import Config.
From S2P Require Import Wal.
From S2P Require Import Iterators.
From S2P Require Import Filter.
From S2P Require Import Blocks.
From S2P Require Import BlockCache.
From S2P Require Import Names.
From S2P Require Import TableWriter.
From S2P Require Import TableReader.
From S2P Require Import Meta.
From S2P Require Import Scan.
From S2P Require Import EngineState.

(** ** read.go *)

(** The answer of a memtable's search: value, found, deleted. *)
Definition mt_Get (i : nat) (key : bytes) (lookupKey : InternalKey) : EM (option bytes * bool * bool) :=
  m ← the_mt i; lift (must (Memtable.Get m key lookupKey)).

(** The closure of get: errors are logged and the table is passed over. *)
Definition checkTable (lookupKey : InternalKey) (best : option Rec) (t : TableMeta) : EM (option Rec) :=
  reader ← attempt (getReader t);
  match reader with
  | inr _ => mret best
  | inl reader =>
      rec ← attempt (reading (TableReader.Get reader lookupKey));
      match rec with
      | inl (Some r) => mret (newer best (Some r))
      | _ => mret best
      end
  end.

(** Level 0, [tables] from the last to the first. *)
Fixpoint check_level0 (key : bytes) (lookupKey : InternalKey) (best : option Rec) (tables : list TableMeta) :
    EM (option Rec) :=
  match tables with
  | [] => mret best
  | t :: tables =>
      if (bytes_Compare key (UserKey (MinKey t)) <? 0) || (0 <? bytes_Compare key (UserKey (MaxKey t)))
      then check_level0 key lookupKey best tables
      else best ← checkTable lookupKey best t; check_level0 key lookupKey best tables
  end.

Definition level_index (lookupKey : InternalKey) (tables : list TableMeta) : nat :=
  sort_Search (length tables) (λ i,
    match tables !! i with Some t => 0 <=? Compare (MaxKey t) lookupKey | None => false end).

(** The levels after level 0. *)
Fixpoint check_levels (lookupKey : InternalKey) (best : option Rec) (levels : Version) : EM (option Rec) :=
  match levels with
  | [] => mret best
  | tables :: levels =>
      match tables !! level_index lookupKey tables with
      | None => check_levels lookupKey best levels
      | Some t =>
          best ← checkTable lookupKey best t;
          match best with
          | Some _ => mret best
          | None => check_levels lookupKey best levels
          end
      end
  end.

(** The value, if the key was found. *)
Definition get (key : bytes) (seqNum : Z) : EM (option (option bytes)) :=
  let lookupKey := mkIK key seqNum 0 in
  i ← gets mt;
  '(val, found, deleted) ← mt_Get i key lookupKey;
  if (found : bool) then mret (if (deleted : bool) then None else Some val) else
  im ← gets immt;
  '(val, found, deleted) ← match im with
                           | Some i => mt_Get i key lookupKey
                           | None => mret (None, false, false)
                           end;
  if (found : bool) then mret (if (deleted : bool) then None else Some val) else
  levels ← gets (λ e, Current (vs e));
  best ← match levels with
         | [] => mret None
         | l0 :: levels =>
             best ← check_level0 key lookupKey None (reverse l0); check_levels lookupKey best levels
         end;
  mret (read_result best).

(** A nil key is not looked up. *)
Definition Get (key : option bytes) : EM (option (option bytes)) :=
  match key with None => mret None | Some key => get key MaxUint64 end.

Definition snapshot_Get (s : Snapshot) (key : bytes) : EM (option (option bytes)) := get key (snap_seqNum s).

(** *** Scans *)

Abbreviation AnyIterator := (MemtableIterator + SSTableIterator)%type.

Definition mt_seek (i : nat) (t : InternalKey) : EM AnyIterator :=
  m ← the_mt i;
  it ← lift (must (Memtable.Iterator (list_ m)));
  it ← lift (must (Memtable.Seek it t));
  mret (inl it).

(** A table that cannot be opened ends the process. *)
Definition table_seek (t : TableMeta) (target : InternalKey) : EM AnyIterator :=
  reader ← attempt (getReader t);
  match reader with
  | inr _ => lift Panic
  | inl reader =>
      it ← iterating (TableReader.Iterator reader);
      it ← iterating (si_Seek target it);
      mret (inr it)
  end.

(** The tables that meet [start .. end], the end included. *)
Fixpoint seek_tables (start end_ : bytes) (target : InternalKey) (tables : list TableMeta) :
    EM (list AnyIterator) :=
  match tables with
  | [] => mret []
  | t :: tables =>
      if (bytes_Compare (UserKey (MaxKey t)) start <? 0) || (0 <? bytes_Compare (UserKey (MinKey t)) end_)
      then seek_tables start end_ target tables
      else
        it ← table_seek t target;
        its ← seek_tables start end_ target tables;
        mret (it :: its)
  end.

(** The iterators of a scan: the memtables' and those of the tables. *)
Definition scan_iterators (m : nat) (im : option nat) (start end_ : bytes) (target : InternalKey) :
    EM (list AnyIterator) :=
  it ← mt_seek m target;
  its ← match im with Some i => it ← mt_seek i target; mret [it] | None => mret [] end;
  levels ← gets (λ e, Current (vs e));
  tits ← seek_tables start end_ target (concat levels);
  mret (it :: its ++ tits).

(** The scan and the memtables whose references its release gives back; [fuel] is for the loops of
    advance. *)
Definition scan (fuel : nat) (start end_ : bytes) (seqNum : Z) :
    EM (ScanIterator AnyIterator * (nat * option nat)) :=
  let target := mkIK start seqNum 0 in
  m ← gets mt;
  im ← gets immt;
  _ ← update_mt m Ref;
  _ ← match im with Some i => update_mt i Ref | None => mret tt end;
  iters ← scan_iterators m im start end_ target;
  s ← iterating (NewScanIterator fuel iters end_ seqNum);
  mret (s, (m, im)).

Definition Scan_ (fuel : nat) (start end_ : bytes) : EM (ScanIterator AnyIterator * (nat * option nat)) :=
  scan fuel start end_ MaxUint64.

Definition snapshot_Scan (s : Snapshot) (fuel : nat) (start end_ : bytes) :
    EM (ScanIterator AnyIterator * (nat * option nat)) :=
  scan fuel start end_ (snap_seqNum s).

(** Release of the scan: the references go back once. *)
Definition scan_Release (s : ScanIterator AnyIterator) (ms : nat * option nat) : EM (ScanIterator AnyIterator) :=
  let '(s, run) := Scan.Release s in
  if (run : bool) then
    _ ← update_mt ms.1 Unref;
    _ ← match ms.2 with Some i => update_mt i Unref | None => mret tt end;
    mret s
  else mret s.

(** Draining a scan in the engine. *)
Definition scan_drain (fuel : nat) (s : ScanIterator AnyIterator) : EM (list Rec) :=
  iterating (scan_collect (S fuel) fuel s).

(** ** What the engine's state holds *)

(** The layers of the database, each newer than those after it. *)
Definition newer_layer (l l' : list Rec) : Prop :=
  ∀ r r' : Rec, r ∈ l -> r' ∈ l' -> UserKey r = UserKey r' -> SeqNum r' <= SeqNum r.

Definition layered (ls : list (list Rec)) : Prop := StronglySorted newer_layer ls.

(** The tables of a level follow each other without a common key. *)
Definition level_sorted (tables : list TableMeta) : Prop :=
  StronglySorted (λ t t', bytes_Compare (UserKey (MaxKey t)) (UserKey (MinKey t')) < 0) tables.

Section view.
(** The blocks of the tables by file number. *)
Context (D : gmap Z (list (list Rec))).

Definition table_recs (t : TableMeta) : list Rec := norm (concat (default [] (D !! FileNum t))).

Definition level_recs (tables : list TableMeta) : list Rec := concat (map table_recs tables).

(** The file of a table is complete and its metadata is right. *)
Record table_ok (f : FS) (t : TableMeta) (bs : list (list Rec)) : Prop := {
  tok_disk : D !! FileNum t = Some bs;
  tok_file : ∃ fl, fs_file f (tablePath (Level t) (FileNum t)) = Some fl ∧ table_of (fdata fl) bs;
  tok_sorted : sorted_recs (concat bs);
  tok_min : ∃ r l, concat bs = r :: l ∧ MinKey t = RKey r;
  tok_max : MaxKey t = sep (concat bs);
  tok_num : 0 <= FileNum t < 10 ^ 6
}.

(** The table cache and what its readers share. *)
Definition caches_ok (tc : gmap Z TableReader) (w : RWorld) : Prop :=
  coherent (cached_ok D) (rcache w) ∧ rfaults w = [] ∧ (∀ fd, fd ∈ rclosed w -> (fd < rnext w)%nat) ∧
  (∀ n r, tc !! n = Some r -> ∃ bs, reads D (rclosed w) r bs ∧ fileNum r = n ∧ (rfd r < rnext w)%nat) ∧
  ∀ n n' r r', tc !! n = Some r -> tc !! n' = Some r' -> rfd r = rfd r' -> n = n'.

(** The state [e] holds the records [lm] in its memtable, [li] in the immutable one, and the tables
    [D]. *)
Record view (lm li : list Rec) (e : Engine) : Prop := {
  view_mt : ∃ m, mts e !! mt e = Some m ∧ holds m lm;
  view_immt : match immt e with
              | Some i => ∃ m, mts e !! i = Some m ∧ holds m li
              | None => li = []
              end;
  view_tables : Forall (λ t, ∃ bs, table_ok (fs e) t bs) (concat (Current (vs e)));
  view_caches : caches_ok (tableCache e) (rworld e)
}.

(** All the records of the state. *)
Definition contents (lm li : list Rec) (levels : Version) : list Rec :=
  lm ++ li ++ concat (map level_recs levels).

(** *** Tables *)

Lemma table_recs_ok f t bs : table_ok f t bs -> table_recs t = norm (concat bs).
Proof. intros Ht. unfold table_recs. by rewrite (tok_disk _ _ _ Ht). Qed.

Lemma elem_of_norm (x : Rec) l : x ∈ norm l -> ∃ y : Rec, y ∈ l ∧ RKey x = RKey y.
Proof. intros (y & -> & Hy)%list_elem_of_fmap. by exists y. Qed.

(** The metadata bounds the keys. *)
Lemma table_bounds f t bs (x : Rec) :
  table_ok f t bs -> x ∈ table_recs t -> Compare (MinKey t) x <= 0 ∧ Compare x (MaxKey t) <= 0.
Proof.
  intros Ht. rewrite (table_recs_ok _ _ _ Ht). intros (y & Hy & ->)%elem_of_norm.
  pose proof (tok_sorted _ _ _ Ht) as Hs. rewrite (tok_max _ _ _ Ht). split; [|by apply sep_le].
  destruct (tok_min _ _ _ Ht) as (r & l & E & ->). rewrite E in Hs, Hy.
  apply elem_of_cons in Hy as [->|Hy]; [rewrite (proj2 (Compare_eq_iff _ _)) by done; done|].
  apply StronglySorted_cons in Hs as [Hr _]. rewrite Forall_forall in Hr. by apply Hr.
Qed.

(** The greatest key is that of a record. *)
Lemma table_max f t bs : table_ok f t bs -> ∃ x : Rec, x ∈ table_recs t ∧ RKey x = MaxKey t.
Proof.
  intros Ht. rewrite (table_recs_ok _ _ _ Ht), (tok_max _ _ _ Ht).
  destruct (tok_min _ _ _ Ht) as (r & l & E & _).
  destruct (sep_elem (concat bs)) as (x & Hx & ->); [by rewrite E|].
  exists (normalize x). split; [|done]. by apply list_elem_of_fmap_2.
Qed.

Lemma table_sorted f t bs : table_ok f t bs -> sorted_recs (table_recs t).
Proof. intros Ht. rewrite (table_recs_ok _ _ _ Ht). apply sorted_norm, (tok_sorted _ _ _ Ht). Qed.

(** A table outside whose range the key lies has no version of it. *)
Lemma table_skip f t bs k s :
  table_ok f t bs ->
  (bytes_Compare k (UserKey (MinKey t)) <? 0) || (0 <? bytes_Compare k (UserKey (MaxKey t))) = true ->
  newest k s (table_recs t) None.
Proof.
  intros Ht Hr. apply newest_none. intros x Hx <-. destruct (table_bounds _ _ _ x Ht Hx) as [H1 H2].
  apply Compare_le_keys in H1, H2. rewrite (bytes_Compare_opp (UserKey (MinKey t))) in Hr. lia.
Qed.

(** *** Opening and looking up *)

Lemma set_tables_twice e tc w tc' w' : set_tables (set_tables e tc w) tc' w' = set_tables e tc' w'.
Proof. done. Qed.

Lemma set_tables_same e : set_tables e (tableCache e) (rworld e) = e.
Proof. by destruct e. Qed.

Lemma EM_bind_ok {A B} (m : EM A) (f : A -> EM B) e a e' :
  m e = (Ok a, e') -> (m ≫= f) e = f a e'.
Proof. intros E. unfold mbind, EM_bind. by rewrite E. Qed.

Lemma attempt_ok {A} (m : EM A) e a e' : m e = (Ok a, e') -> attempt m e = (Ok (inl a), e').
Proof. intros E. unfold attempt. by rewrite E. Qed.

Lemma getReader_ok t bs e :
  table_ok (fs e) t bs -> caches_ok (tableCache e) (rworld e) ->
  ∃ r tc w, getReader t e = (Ok r, set_tables e tc w) ∧ caches_ok tc w ∧ reads D (rclosed w) r bs ∧
    rclosed w = rclosed (rworld e).
Proof.
  intros Ht Hc. pose proof Hc as (Hco & Hf & Hcl & Hrd & Hinj). unfold getReader.
  rewrite (EM_bind_ok _ _ e (tableCache e !! FileNum t) e) by done.
  destruct (tableCache e !! FileNum t) as [r|] eqn:Er.
  - exists r, (tableCache e), (rworld e). rewrite set_tables_same. split_and!; [done|done| |done].
    destruct (Hrd _ _ Er) as (bs' & Hreads & Hn & _). pose proof Hreads as (_ & _ & HD).
    rewrite Hn, (tok_disk _ _ _ Ht) in HD. by injection HD as <-.
  - destruct (tok_file _ _ _ Ht) as (fl & Efl & Hto).
    assert (rnext (rworld e) ∉ rclosed (rworld e)) as Hnx by (intros Hin%Hcl; lia).
    destruct (Open_table (fdata fl) bs (table_name (FileNum t)) true (rworld e) Hto (tok_sorted _ _ _ Ht) Hf Hnx)
      as (r & Eo & Hwf & Hfd & Hnum & _).
    assert (fileNum r = FileNum t) as Hfn.
    { destruct (tok_num _ _ _ Ht). rewrite Hnum.
      destruct (scan_table_name (FileNum t)) as (v & -> & _ & Hv); [lia|]. by apply Hv. }
    rewrite (EM_bind_ok _ _ e r (set_tables e (tableCache e) (opened (rworld e)))); cycle 1.
    { unfold open_table, reading. rewrite Efl. cbn [fmap option_fmap option_map]. by rewrite Eo. }
    rewrite (EM_bind_ok _ _ _ (tableCache e !! FileNum t) (set_tables e (tableCache e) (opened (rworld e)))) by done.
    rewrite Er. exists r, (<[FileNum t := r]> (tableCache e)), (opened (rworld e)).
    assert (reads D (rclosed (opened (rworld e))) r bs) as Hreads.
    { split_and!; [done|by rewrite Hfd|]. rewrite Hfn. apply (tok_disk _ _ _ Ht). }
    split_and!; [done| |done|done].
    assert (∀ n r', tableCache e !! n = Some r' -> rfd r' ≠ rfd r) as Hnew.
    { intros n r' Hl. destruct (Hrd n r' Hl) as (_ & _ & _ & ?). lia. }
    split_and!; [done|done|intros fd Hin; cbn; apply Hcl in Hin; lia| |].
    2: { intros n n' r1 r2 [[<- <-]|[_ H1]]%lookup_insert_Some [[<- <-]|[_ H2]]%lookup_insert_Some E; [done| | |by eapply Hinj].
         - by destruct (Hnew _ _ H2).
         - by destruct (Hnew _ _ H1). }
    intros n r' Hl. destruct (decide (n = FileNum t)) as [->|Hne].
    + rewrite lookup_insert_eq in Hl. injection Hl as <-. exists bs.
      split_and!; [done|done|]. rewrite Hfd. cbn. lia.
    + rewrite lookup_insert_ne in Hl by done. destruct (Hrd n r' Hl) as (bs' & ? & ? & ?).
      exists bs'. split_and!; [done|done|cbn; lia].
Qed.

Lemma caches_world tc w : caches_ok tc w -> reader_World D (rclosed w) (rnext w) w.
Proof. by intros (? & ? & _). Qed.

Lemma caches_keep tc w w' :
  caches_ok tc w -> reader_World D (rclosed w) (rnext w) w' -> caches_ok tc w'.
Proof.
  intros (_ & _ & Hcl & Hrd) (Hco & Hf & E1 & E2). unfold caches_ok. rewrite E1, E2. done.
Qed.

Lemma checkTable_ok k s best t bs e :
  table_ok (fs e) t bs -> caches_ok (tableCache e) (rworld e) ->
  ∃ tc w, checkTable (mkIK k s 0) best t e =
    (Ok (newer best (candidate k s (table_recs t))), set_tables e tc w) ∧ caches_ok tc w.
Proof.
  intros Ht Hc. destruct (getReader_ok t bs e Ht Hc) as (r & tc & w & E & Hc1 & Hrd & _). unfold checkTable.
  rewrite (EM_bind_ok _ _ _ _ _ (attempt_ok _ _ _ _ E)). cbv beta iota.
  destruct (Get_reads D _ _ r bs k s 0 w Hrd (caches_world _ _ Hc1)) as (w' & Eg & Hw').
  rewrite (EM_bind_ok (attempt _) _ _ (inl (candidate k s (norm (concat bs)))) (set_tables e tc w')); cycle 1.
  { apply attempt_ok. unfold reading. cbn [set_tables rworld]. by rewrite Eg. }
  rewrite (table_recs_ok _ _ _ Ht). exists tc, w'. split; [|by eapply caches_keep].
  destruct (candidate k s _); [done|]. by destruct best.
Qed.

Lemma newest_step k s L best t bs f :
  table_ok f t bs -> newest k s L best ->
  newest k s (L ++ table_recs t) (newer best (candidate k s (table_recs t))).
Proof. intros Ht Hb. apply newest_app; [done|]. apply candidate_newest. by eapply table_sorted. Qed.

Lemma check_level0_ok k s L best tables e :
  newest k s L best -> Forall (λ t, ∃ bs, table_ok (fs e) t bs) tables -> caches_ok (tableCache e) (rworld e) ->
  ∃ best' tc w, check_level0 k (mkIK k s 0) best tables e = (Ok best', set_tables e tc w) ∧ caches_ok tc w ∧
    newest k s (L ++ level_recs tables) best'.
Proof.
  intros Hb Ht. revert L best e Hb Ht. induction tables as [|t tables IH]; intros L best e Hb Ht Hc.
  - exists best, (tableCache e), (rworld e). rewrite set_tables_same. unfold level_recs. cbn. rewrite app_nil_r. done.
  - apply Forall_cons in Ht as [(bs & Ht) Hts]. cbn [check_level0]. cbn [level_recs map concat].
    fold (level_recs tables). rewrite app_assoc.
    destruct (_ || _) eqn:Er.
    + destruct (IH (L ++ table_recs t) best e) as (b' & tc & w & E & Hc' & Hn); [|done|done|eauto 10].
      pose proof (newest_app k s _ _ _ _ Hb (table_skip _ _ _ k s Ht Er)) as Hn. by destruct best.
    + destruct (checkTable_ok k s best t bs e Ht Hc) as (tc & w & E & Hc1).
      rewrite (EM_bind_ok _ _ _ _ _ E).
      destruct (IH (L ++ table_recs t) (newer best (candidate k s (table_recs t))) (set_tables e tc w))
        as (b' & tc' & w' & E' & Hc' & Hn'); [by eapply newest_step|done|done|].
      exists b', tc', w'. split_and!; [done|done|done].
Qed.

(** *** The binary search of a level *)

Lemma level_cmp tables f :
  level_sorted tables -> Forall (λ t, ∃ bs, table_ok f t bs) tables ->
  StronglySorted (λ t t', cmp (MaxKey t) (MaxKey t') <= 0) tables.
Proof.
  induction 1 as [|t tables Hs IH Ht]; intros Hok; [constructor|].
  apply Forall_cons in Hok as [_ Hok]. constructor; [by apply IH|].
  rewrite Forall_forall in *. intros t' Hin. specialize (Ht t' Hin). destruct (Hok t' Hin) as (bs & Hb).
  destruct (table_max _ _ _ Hb) as (x & Hx & Ex). destruct (table_bounds _ _ _ x Hb Hx) as [H1 _].
  apply Compare_le_keys in H1. rewrite Ex in H1. unfold cmp, InternalKey_Comparator. apply Compare_le_iff.
  left. rewrite bytes_Compare_opp. destruct (Z.lt_ge_cases 0 (bytes_Compare (UserKey (MaxKey t')) (UserKey (MaxKey t)))); [lia|].
  pose proof (bytes_Compare_le_trans (UserKey (MinKey t')) (UserKey (MaxKey t')) (UserKey (MaxKey t)) H1 ltac:(lia)).
  rewrite bytes_Compare_opp in Ht. lia.
Qed.

Lemma not_visible_before k s (x : Rec) : Compare x (mkIK k s 0) < 0 -> ¬ visible k s x.
Proof. intros [Hk|[Hk Hs]]%Compare_lt_iff [E Hv]; cbn in *; [by apply (key_lt_ne _ _ Hk)|lia]. Qed.

(** The first table whose greatest key is not before the lookup key decides the level. *)
Lemma level_lookup k s tables f :
  level_sorted tables -> Forall (λ t, ∃ bs, table_ok f t bs) tables ->
  match tables !! level_index (mkIK k s 0) tables with
  | None => newest k s (level_recs tables) None
  | Some t => newest k s (level_recs tables) (candidate k s (table_recs t))
  end.
Proof.
  intros Hs Hok. destruct (sorted_split MaxKey (mkIK k s 0) tables (level_cmp _ _ Hs Hok)) as (pre & post & -> & Hpre & Hpost).
  assert (level_index (mkIK k s 0) (pre ++ post) = length pre) as ->.
  { apply (sort_Search_app (λ t, 0 <=? Compare (MaxKey t) (mkIK k s 0))).
    - eapply Forall_impl; [exact Hpre|]. intros t Ht. unfold cmp, InternalKey_Comparator in Ht. cbn beta in *. lia.
    - eapply Forall_impl; [exact Hpost|]. intros t Ht. unfold cmp, InternalKey_Comparator in Ht. cbn beta in *. lia.
    - by intros i t ->. }
  apply Forall_app in Hok as [Hok1 Hok2].
  assert (∀ x : Rec, x ∈ level_recs pre -> ¬ visible k s x) as Hno.
  { intros x (l & (t & -> & Ht)%list_elem_of_fmap & Hx)%elem_of_concat. rewrite Forall_forall in Hpre, Hok1.
    destruct (Hok1 t Ht) as (bs & Hb). destruct (table_bounds _ _ _ x Hb Hx) as [_ H2].
    apply not_visible_before. exact (cmp_le_lt_trans (RKey x) (MaxKey t) (mkIK k s 0) H2 (Hpre t Ht)). }
  rewrite lookup_app_r, Nat.sub_diag by lia. unfold level_recs. rewrite map_app, concat_app.
  fold (level_recs pre) (level_recs post). destruct post as [|t post]; cbn [lookup list_lookup].
  { change (level_recs []) with (@nil Rec). rewrite app_nil_r. exact Hno. }
  apply Forall_cons in Hok2 as [(bs & Ht) Hok2]. apply Forall_cons in Hpost as [Hge _].
  assert (newest k s (level_recs post) None) as Hafter.
  { apply StronglySorted_app in Hs as (_ & _ & Hs). apply StronglySorted_cons in Hs as [Hlt _].
    apply newest_none. intros x (l & (t' & -> & Ht')%list_elem_of_fmap & Hx)%elem_of_concat Ek.
    rewrite Forall_forall in Hlt, Hok2. specialize (Hlt t' Ht'). destruct (Hok2 t' Ht') as (bs' & Hb').
    destruct (table_bounds _ _ _ x Hb' Hx) as [H1%Compare_le_keys _]. rewrite Ek in H1.
    assert (bytes_Compare k (UserKey (MaxKey t)) <= 0) as H2.
    { apply (Compare_le_keys (mkIK k s 0) (MaxKey t)). rewrite Compare_opp. unfold cmp, InternalKey_Comparator in Hge.
      lia. }
    pose proof (bytes_Compare_le_trans _ _ _ H1 H2). rewrite bytes_Compare_opp in Hlt. lia. }
  change (level_recs (t :: post)) with (table_recs t ++ level_recs post).
  pose proof (newest_app k s (level_recs pre) _ None _ Hno
    (newest_app k s _ _ _ _ (candidate_newest k s _ (table_sorted _ _ _ Ht)) Hafter)) as Hn.
  cbn [newer] in Hn. by destruct (candidate k s (table_recs t)).
Qed.

(** *** The levels, one after the other *)

Lemma newer_layers_stop k s L ls b :
  newest k s L (Some b) -> Forall (newer_layer L) ls -> newest k s (L ++ concat ls) (Some b).
Proof.
  intros (Hb & Hv & Hm) Hl. cbn. split_and!; [set_solver|done|]. intros r [Hr|Hr]%elem_of_app Hvr; [by apply Hm|].
  apply elem_of_concat in Hr as (l & Hin & Hr). rewrite Forall_forall in Hl.
  destruct Hv as [Ek _], Hvr as [Ek' _]. apply (Hl l Hin b r); [done|done|congruence].
Qed.

Lemma newer_layer_app l1 l2 l : newer_layer l1 l -> newer_layer l2 l -> newer_layer (l1 ++ l2) l.
Proof. intros H1 H2 r r' [?|?]%elem_of_app; eauto. Qed.

Lemma check_levels_ok k s L best levels e :
  newest k s L best -> Forall (λ t, ∃ bs, table_ok (fs e) t bs) (concat levels) ->
  Forall level_sorted levels -> Forall (newer_layer L) (map level_recs levels) ->
  layered (map level_recs levels) -> caches_ok (tableCache e) (rworld e) ->
  ∃ best' tc w, check_levels (mkIK k s 0) best levels e = (Ok best', set_tables e tc w) ∧ caches_ok tc w ∧
    newest k s (L ++ concat (map level_recs levels)) best'.
Proof.
  intros Hb Ht. revert L best e Hb Ht. induction levels as [|tables levels IH]; intros L best e Hb Ht Hs Hl Hlay Hc.
  - exists best, (tableCache e), (rworld e). rewrite set_tables_same. cbn. rewrite app_nil_r. done.
  - cbn [concat] in Ht. apply Forall_app in Ht as [Ht Hts]. apply Forall_cons in Hs as [Hs1 Hs].
    cbn [map] in *. apply Forall_cons in Hl as [Hl1 Hl]. apply StronglySorted_cons in Hlay as [Hlay1 Hlay].
    cbn [check_levels concat]. rewrite app_assoc.
    assert (Forall (newer_layer (L ++ level_recs tables)) (map level_recs levels)) as Hl'.
    { rewrite Forall_forall in *. intros l Hin. apply newer_layer_app; auto. }
    pose proof (level_lookup k s tables (fs e) Hs1 Ht) as Hn.
    destruct (tables !! level_index (mkIK k s 0) tables) as [t|] eqn:Et.
    + destruct (proj1 (Forall_lookup _ _) Ht _ _ Et) as (bs & Hok).
      destruct (checkTable_ok k s best t bs e Hok Hc) as (tc & w & E & Hc1).
      rewrite (EM_bind_ok _ _ _ _ _ E). pose proof (newest_app k s _ _ _ _ Hb Hn) as Hb'.
      destruct (newer best (candidate k s (table_recs t))) as [b|].
      * exists (Some b), tc, w. split_and!; [done|done|]. by apply newer_layers_stop.
      * destruct (IH (L ++ level_recs tables) None (set_tables e tc w)) as (b' & tc' & w' & E' & Hc' & Hn'); [done..|].
        exists b', tc', w'. done.
    + destruct (IH (L ++ level_recs tables) best e) as (b' & tc' & w' & E' & Hc' & Hn'); try done; [|eauto 10].
      pose proof (newest_app k s _ _ _ _ Hb Hn) as Hb'. by destruct best.
Qed.

(** *** Memtables *)

Lemma mt_Get_ok i m l k s e :
  mts e !! i = Some m -> holds m l ->
  mt_Get i k (mkIK k s 0) e = (Ok (memtable_result (candidate k s l)), e).
Proof.
  intros Hi Hm. unfold mt_Get, the_mt. rewrite (EM_bind_ok _ _ e m e).
  - unfold lift. by rewrite (Get_holds m l k s Hm).
  - rewrite (EM_bind_ok _ _ e (mts e !! i) e) by done. by rewrite Hi.
Qed.

Lemma memtable_result_found o :
  (memtable_result o).1.2 = true ->
  (if (memtable_result o).2 then None else Some (memtable_result o).1.1) = read_result o.
Proof. destruct o as [r|]; cbn; [|done]. by destruct (IsTombstone r). Qed.

Lemma memtable_result_none o : (memtable_result o).1.2 = false -> o = None.
Proof. destruct o as [r|]; cbn; [|done]. by destruct (IsTombstone r). Qed.

(** get in a state of layers: the newest version not after the sequence number. *)
Lemma get_ok lm li l0 levels k s e :
  view lm li e -> Current (vs e) = l0 :: levels -> Forall level_sorted levels ->
  layered (lm :: li :: level_recs l0 :: map level_recs levels) ->
  ∃ o tc w, get k s e = (Ok (read_result o), set_tables e tc w) ∧ caches_ok tc w ∧
    newest k s (contents lm li (l0 :: levels)) o.
Proof.
  intros [(m & Hm & Hlm) Him Ht Hc] Hcur Hs Hlay.
  apply StronglySorted_cons in Hlay as [Hlay1 Hlay]. apply StronglySorted_cons in Hlay as [Hlay2 Hlay].
  apply StronglySorted_cons in Hlay as [Hlay3 Hlay].
  assert (sorted_recs lm) as Hsm by apply Hlm.
  unfold get. rewrite (EM_bind_ok _ _ e (mt e) e) by done. cbv beta.
  rewrite (EM_bind_ok _ _ _ _ _ (mt_Get_ok _ m lm k s e Hm Hlm)).
  pose proof (candidate_newest k s lm Hsm) as Hn. unfold contents.
  destruct (memtable_result (candidate k s lm)) as [[v fd] dl] eqn:Er.
  pose proof (memtable_result_found (candidate k s lm)) as Hf. pose proof (memtable_result_none (candidate k s lm)) as Hnf.
  rewrite Er in Hf, Hnf. cbn [fst snd] in Hf, Hnf. destruct fd.
  { exists (candidate k s lm), (tableCache e), (rworld e). rewrite set_tables_same, <- Hf by done.
    split_and!; [done|done|]. destruct (candidate k s lm) as [b|]; [|done].
    exact (newer_layers_stop k s lm (li :: level_recs l0 :: map level_recs levels) b Hn Hlay1). }
  rewrite (Hnf eq_refl) in Hn. clear v dl Er Hf Hnf.
  rewrite (EM_bind_ok _ _ e (immt e) e) by done. cbv beta.
  assert (match immt e with
          | Some i => mt_Get i k (mkIK k s 0)
          | None => mret (None, false, false)
          end e = (Ok (memtable_result (candidate k s li)), e)) as Eim.
  { destruct (immt e) as [i|]; [|by rewrite Him]. destruct Him as (m' & Hm' & Hli). by apply (mt_Get_ok i m'). }
  rewrite (EM_bind_ok _ _ _ _ _ Eim).
  assert (sorted_recs li) as Hsi by (destruct (immt e); [by destruct Him as (? & _ & [_ ?])|rewrite Him; constructor]).
  pose proof (newest_app k s _ _ _ _ Hn (candidate_newest k s li Hsi)) as Hn2. cbn [newer] in Hn2.
  destruct (memtable_result (candidate k s li)) as [[v fd] dl] eqn:Er.
  pose proof (memtable_result_found (candidate k s li)) as Hf. pose proof (memtable_result_none (candidate k s li)) as Hnf.
  rewrite Er in Hf, Hnf. cbn [fst snd] in Hf, Hnf. rewrite app_assoc.
  assert (Forall (newer_layer (lm ++ li)) (level_recs l0 :: map level_recs levels)) as Hl2.
  { apply Forall_cons in Hlay1 as [_ Hlay1]. rewrite Forall_forall in *. intros l Hin. apply newer_layer_app; auto. }
  destruct fd.
  { exists (candidate k s li), (tableCache e), (rworld e). rewrite set_tables_same, <- Hf by done.
    split_and!; [done|done|]. destruct (candidate k s li) as [b|]; [|done].
    exact (newer_layers_stop k s _ (level_recs l0 :: map level_recs levels) b Hn2 Hl2). }
  rewrite (Hnf eq_refl) in Hn2.
  rewrite (EM_bind_ok _ _ e (Current (vs e)) e) by done. cbv beta. rewrite Hcur.
  rewrite Hcur in Ht. cbn [concat] in Ht. apply Forall_app in Ht as [Ht0 Ht].
  destruct (check_level0_ok k s (lm ++ li) None (reverse l0) e Hn2) as (b0 & tc0 & w0 & E0 & Hc0 & Hn0); [|done|].
  { by rewrite reverse_Permutation. }
  assert (level_recs (reverse l0) ≡ₚ level_recs l0) as HP.
  { unfold level_recs. by rewrite (reverse_Permutation l0). }
  rewrite HP in Hn0.
  destruct (check_levels_ok k s ((lm ++ li) ++ level_recs l0) b0 levels (set_tables e tc0 w0) Hn0)
    as (b & tc & w & E & Hc' & Hn'); try done.
  { apply Forall_cons in Hl2 as [_ Hl2]. rewrite Forall_forall in *. intros l Hin. apply newer_layer_app; auto. }
  exists b, tc, w. rewrite (EM_bind_ok _ _ e b (set_tables e tc w)).
  - split_and!; [done|done|]. cbn [map concat]. by rewrite app_assoc.
  - rewrite (EM_bind_ok _ _ _ _ _ E0). exact E.
Qed.

(** *** Scans *)

(** The interface laws for the iterators of a scan. *)
Definition any_Spec (cl : gset nat) : IteratorSpec AnyIterator :=
  @sum_Spec MemtableIterator SSTableIterator MemtableIterator_Spec (SSTableIterator_Spec D cl).

Lemma any_Laws cl nx :
  @IteratorLaws RWorld AnyIterator (reader_World D cl nx) _ (any_Spec cl).
Proof.
  apply (@sum_Laws RWorld MemtableIterator SSTableIterator (reader_World D cl nx) _ _ _ _
    (SSTableIterator_Spec D cl)). apply SSTableIterator_Laws.
Qed.

Lemma mt_seek_ok cl i m l t e :
  mts e !! i = Some m -> holds m l ->
  ∃ it, mt_seek i t e = (Ok it, e) ∧ @irest _ (any_Spec cl) it (seek_sorted t l) ∧ @icontent _ (any_Spec cl) it l.
Proof.
  intros Hi [Hr Hs]. unfold mt_seek, the_mt. rewrite (EM_bind_ok _ _ e m e); cycle 1.
  { rewrite (EM_bind_ok _ _ e (mts e !! i) e) by done. by rewrite Hi. }
  destruct (Iterator_remaining (list_ m) l Hr) as (it & E & Hrem & El). rewrite E.
  rewrite (EM_bind_ok _ _ e it e) by done.
  destruct (Seek_remaining it l t) as (it' & E' & Hrem' & El'); [by rewrite El|]. rewrite E'.
  rewrite (EM_bind_ok _ _ e it' e) by done. exists (inl it'). cbn.
  destruct (seek_sorted_spec t l Hs) as (pre & Es & _).
  split_and!; [done|done| |by rewrite El', El|done].
  rewrite Es in Hs. by apply StronglySorted_app in Hs as (_ & _ & ?).
Qed.

Lemma table_seek_ok t bs target e :
  table_ok (fs e) t bs -> caches_ok (tableCache e) (rworld e) ->
  ∃ it tc w, table_seek t target e = (Ok it, set_tables e tc w) ∧ caches_ok tc w ∧
    rclosed w = rclosed (rworld e) ∧
    @irest _ (any_Spec (rclosed w)) it (seek_sorted target (table_recs t)) ∧
    @icontent _ (any_Spec (rclosed w)) it (table_recs t).
Proof.
  intros Ht Hc. destruct (getReader_ok t bs e Ht Hc) as (r & tc & w & E & Hc1 & Hrd & Hcl). unfold table_seek.
  rewrite (EM_bind_ok _ _ _ _ _ (attempt_ok _ _ _ _ E)). cbv beta iota.
  destruct (Iterator_rest D _ _ r bs w Hrd (caches_world _ _ Hc1)) as (it & w1 & E1 & Hw1 & _ & Hct).
  rewrite (EM_bind_ok _ _ _ it (set_tables e tc w1)); cycle 1.
  { unfold iterating. cbn [set_tables rworld]. by rewrite E1. }
  destruct (si_Seek_content D _ _ it _ target w1 Hct Hw1) as (it' & w2 & E2 & Hw2 & Hrest & Erd).
  rewrite (EM_bind_ok _ _ _ it' (set_tables e tc w2)); cycle 1.
  { unfold iterating. cbn [set_tables rworld]. by rewrite E2. }
  pose proof (caches_keep _ _ _ Hc1 Hw2) as Hc2. destruct Hw2 as (_ & _ & Ecl & _).
  exists (inr it'), tc, w2. rewrite (table_recs_ok _ _ _ Ht), Ecl. split_and!; [done|done|done|exact Hrest|].
  destruct Hct as (bs' & Hrd' & E'). exists bs'. by rewrite Erd.
Qed.

Lemma seek_tables_ok start end_ target tables e :
  Forall (λ t, ∃ bs, table_ok (fs e) t bs) tables -> caches_ok (tableCache e) (rworld e) ->
  ∃ its ts tc w, seek_tables start end_ target tables e = (Ok its, set_tables e tc w) ∧ caches_ok tc w ∧
    rclosed w = rclosed (rworld e) ∧
    Forall2 (@irest _ (any_Spec (rclosed w))) its (map (seek_sorted target) (map table_recs ts)) ∧
    Forall2 (@icontent _ (any_Spec (rclosed w))) its (map table_recs ts) ∧
    ts `sublist_of` tables ∧
    (∀ x : Rec, x ∈ level_recs tables -> bytes_Compare start (UserKey x) <= 0 -> bytes_Compare (UserKey x) end_ <= 0 ->
      x ∈ level_recs ts).
Proof.
  intros Ht. revert e Ht. induction tables as [|t tables IH]; intros e Ht Hc.
  - exists [], [], (tableCache e), (rworld e). rewrite set_tables_same. by split_and!.
  - apply Forall_cons in Ht as [(bs & Ht) Hts]. cbn [seek_tables].
    destruct (_ || _) eqn:Er.
    + destruct (IH e Hts Hc) as (its & ts & tc & w & E & Hc1 & Hcl & Hr & Hct & Hsub & Hin).
      exists its, ts, tc, w. split_and!; try done; [by apply sublist_cons|].
      intros x Hx H1 H2. change (level_recs (t :: tables)) with (table_recs t ++ level_recs tables) in Hx.
      apply elem_of_app in Hx as [Hx|Hx]; [|by apply Hin]. exfalso.
      destruct (table_bounds _ _ _ x Ht Hx) as [B1%Compare_le_keys B2%Compare_le_keys].
      pose proof (bytes_Compare_le_trans _ _ _ H1 B2) as F1. pose proof (bytes_Compare_le_trans _ _ _ B1 H2) as F2.
      rewrite bytes_Compare_opp in F1. lia.
    + destruct (table_seek_ok t bs target e Ht Hc) as (it & tc & w & E & Hc1 & Hcl & Hr & Hct).
      rewrite (EM_bind_ok _ _ _ _ _ E).
      destruct (IH (set_tables e tc w) Hts Hc1) as (its & ts & tc' & w' & E' & Hc' & Hcl' & Hr' & Hct' & Hsub & Hin).
      rewrite (EM_bind_ok _ _ _ _ _ E'). cbn [set_tables rworld] in Hcl'.
      exists (it :: its), (t :: ts), tc', w'. split_and!; [done|done|congruence|..].
      * constructor; [by rewrite Hcl'|done].
      * constructor; [by rewrite Hcl'|done].
      * by apply sublist_skip.
      * intros x Hx H1 H2. change (level_recs (t :: tables)) with (table_recs t ++ level_recs tables) in Hx.
        change (level_recs (t :: ts)) with (table_recs t ++ level_recs ts).
        apply elem_of_app in Hx as [Hx|Hx]; apply elem_of_app; [by left|right]. by apply Hin.
Qed.

(** Lists with the same versions of the keys in a range show the same there. *)
Lemma shown_same s (l1 l2 : list Rec) (x : Rec) :
  (∀ y : Rec, UserKey y = UserKey x -> y ∈ l1 <-> y ∈ l2) -> shown s l1 x <-> shown s l2 x.
Proof.
  intros He. unfold shown, newest. rewrite (He x) by done.
  assert ((∀ r' : Rec, r' ∈ l1 -> visible (UserKey x) s r' -> SeqNum r' <= SeqNum x) <->
    (∀ r' : Rec, r' ∈ l2 -> visible (UserKey x) s r' -> SeqNum r' <= SeqNum x)) as ->; [|done].
  split; intros Hm r' Hr' Hv; apply Hm; try done; destruct Hv as [Hk _]; by apply He.
Qed.

Lemma holds_Ref m l : holds m l -> holds (Ref m) l.
Proof. done. Qed.

Lemma view_Ref lm li i e :
  view lm li e -> view lm li (set_mems e (mt e) (immt e) (alter Ref i (mts e)) (flips e)).
Proof.
  intros [(m & Hm & Hlm) Him Ht Hc].
  assert (∀ j m l, mts e !! j = Some m -> holds m l -> ∃ m', alter Ref i (mts e) !! j = Some m' ∧ holds m' l) as Hj.
  { intros j m' l Hj Hl. rewrite list_lookup_alter, Hj. destruct (decide (i = j)) as [->|]; [|eauto].
    rewrite Hj. exists (Ref m'). done. }
  split; cbn; [by eapply Hj| |done|done]. destruct (immt e); [|done].
  destruct Him as (m' & Hm' & Hl). by eapply Hj.
Qed.

Lemma view_tables_set lm li e tc w :
  view lm li e -> caches_ok tc w -> view lm li (set_tables e tc w).
Proof. intros [Hm Him Ht _] Hc. by split. Qed.

(** The references a scan holds. *)
Definition scan_refs (e : Engine) : Engine :=
  let e := set_mems e (mt e) (immt e) (alter Ref (mt e) (mts e)) (flips e) in
  match immt e with Some i => set_mems e (mt e) (immt e) (alter Ref i (mts e)) (flips e) | None => e end.

Lemma view_scan_refs lm li e : view lm li e -> view lm li (scan_refs e).
Proof.
  intros Hv. unfold scan_refs. cbn [immt set_mems]. pose proof (view_Ref lm li (mt e) e Hv) as Hv1.
  destruct (immt e) as [i|] eqn:E; [|exact Hv1]. apply (view_Ref lm li i) in Hv1. exact Hv1.
Qed.

Lemma level_recs_concat levels : concat (map level_recs levels) = level_recs (concat levels).
Proof.
  induction levels as [|tables levels IH]; [done|]. cbn [map concat]. rewrite IH. unfold level_recs.
  by rewrite map_app, concat_app.
Qed.

(** The iterators deliver, from the target on, records [cs] of the state that have all the versions
    of the keys in the range. *)
Lemma scan_iterators_ok lm li start end_ target e :
  view lm li e ->
  ∃ iters cs tc w, scan_iterators (mt e) (immt e) start end_ target e = (Ok iters, set_tables e tc w) ∧
    caches_ok tc w ∧
    Forall2 (@irest _ (any_Spec (rclosed w))) iters (map (seek_sorted target) cs) ∧
    Forall2 (@icontent _ (any_Spec (rclosed w))) iters cs ∧
    (length (concat cs) <= length (contents lm li (Current (vs e))))%nat ∧
    (∀ x : Rec, x ∈ concat cs -> x ∈ contents lm li (Current (vs e))) ∧
    ∀ x : Rec, x ∈ contents lm li (Current (vs e)) -> bytes_Compare start (UserKey x) <= 0 ->
      bytes_Compare (UserKey x) end_ <= 0 -> x ∈ concat cs.
Proof.
  intros [(m & Hm & Hlm) Him Ht Hc]. unfold scan_iterators. set (cl := rclosed (rworld e)).
  destruct (mt_seek_ok cl (mt e) m lm target e Hm Hlm) as (it & E & Hr0 & Hct0).
  rewrite (EM_bind_ok _ _ _ _ _ E). cbv beta. clear E.
  assert (∃ its ls, match immt e with
       | Some i => it0 ← mt_seek i target; mret [it0]
       | None => mret []
       end e = (Ok its, e) ∧ concat ls = li ∧
       Forall2 (@irest _ (any_Spec cl)) its (map (seek_sorted target) ls) ∧
       Forall2 (@icontent _ (any_Spec cl)) its ls) as (its & ls & E & Els & Hr1 & Hct1).
  { destruct (immt e) as [i|]; [|by exists [], []]. destruct Him as (m' & Hm' & Hli).
    destruct (mt_seek_ok cl i m' li target e Hm' Hli) as (it' & E & Hr1 & Hct1).
    exists [it'], [li]. rewrite (EM_bind_ok _ _ _ _ _ E). cbn [concat]. rewrite app_nil_r.
    split_and!; [done|done|by repeat constructor|by repeat constructor]. }
  rewrite (EM_bind_ok _ _ _ _ _ E). clear E.
  rewrite (EM_bind_ok _ _ e (Current (vs e)) e) by done. cbv beta.
  destruct (seek_tables_ok start end_ target (concat (Current (vs e))) e Ht Hc)
    as (tits & ts & tc & w & E & Hc1 & Hcl & Hr2 & Hct2 & Hsub & Hin).
  rewrite (EM_bind_ok _ _ _ _ _ E). clear E. fold cl in Hcl.
  exists (it :: its ++ tits), (lm :: ls ++ map table_recs ts), tc, w. rewrite Hcl in *.
  assert (concat (lm :: ls ++ map table_recs ts) = lm ++ li ++ level_recs ts) as ->
    by (cbn; by rewrite concat_app, Els).
  unfold contents. rewrite level_recs_concat. split_and!; [done|done|..].
  - assert (map (seek_sorted target) (lm :: ls ++ map table_recs ts) =
      seek_sorted target lm :: map (seek_sorted target) ls ++ map (seek_sorted target) (map table_recs ts)) as ->
      by (cbn [map]; by rewrite map_app).
    constructor; [done|]. by apply Forall2_app.
  - constructor; [done|]. by apply Forall2_app.
  - rewrite !length_app. assert (length (level_recs ts) <= length (level_recs (concat (Current (vs e)))))%nat; [|lia].
    clear -Hsub. unfold level_recs. induction Hsub; cbn; rewrite ?length_app; lia.
  - intros y. rewrite !elem_of_app. intros [?|[?|Hy]]; [auto..|]. right. right.
    apply elem_of_concat in Hy as (l & (t & -> & Hin')%list_elem_of_fmap & Hy). apply elem_of_concat.
    exists (table_recs t). split; [apply list_elem_of_fmap_2; by eapply elem_of_sublist|done].
  - intros y. rewrite !elem_of_app. intros [?|[?|Hy]] H1 H2; [auto..|]. right. right. by apply Hin.
Qed.

Lemma scan_ok lm li fuel start end_ s e :
  view lm li e -> unique_versions (contents lm li (Current (vs e))) ->
  (length (contents lm li (Current (vs e))) <= fuel)%nat ->
  ∃ sc tc w out tc' w', scan fuel start end_ s e = (Ok (sc, (mt e, immt e)), set_tables (scan_refs e) tc w) ∧
    caches_ok tc w ∧
    scan_drain fuel sc (set_tables (scan_refs e) tc w) = (Ok out, set_tables (scan_refs e) tc' w') ∧
    caches_ok tc' w' ∧ keys_ascending out ∧
    ∀ x, x ∈ out <-> shown s (contents lm li (Current (vs e))) x ∧ bytes_Compare start (UserKey x) <= 0 ∧ before end_ x.
Proof.
  intros Hv Hu Hf. pose proof (view_scan_refs _ _ _ Hv) as Hv1.
  assert (mt (scan_refs e) = mt e ∧ immt (scan_refs e) = immt e ∧ vs (scan_refs e) = vs e)
    as (Emt & Eim & Evs) by (unfold scan_refs; cbn [immt set_mems]; by destruct (immt e)).
  unfold scan. rewrite (EM_bind_ok _ _ e (mt e) e) by done. cbv beta.
  rewrite (EM_bind_ok _ _ e (immt e) e) by done. cbv beta.
  rewrite (EM_bind_ok _ _ e tt (set_mems e (mt e) (immt e) (alter Ref (mt e) (mts e)) (flips e))) by done.
  rewrite (EM_bind_ok _ _ _ tt (scan_refs e)); cycle 1.
  { unfold scan_refs. cbn [immt set_mems]. by destruct (immt e). }
  destruct (scan_iterators_ok lm li start end_ (mkIK start s 0) (scan_refs e) Hv1)
    as (iters & cs & tc & w & E & Hc1 & Hr & Hct & Hlen & Hsub & Hin).
  rewrite Emt, Eim in E. rewrite (EM_bind_ok _ _ _ _ _ E). clear E. rewrite Evs in Hlen, Hsub, Hin.
  assert (Forall sorted_recs cs) as Hsorted.
  { clear -Hct. induction Hct; constructor; [|done].
    by eapply (@content_sorted _ _ _ _ _ (any_Laws (rclosed w) 0)). }
  destruct (@advance_collect RWorld AnyIterator (reader_World D (rclosed w) (rnext w)) _ (any_Spec (rclosed w))
    (any_Laws _ _) fuel (mkScan iters end_ s None (NewIteratorHeap (W := RWorld) iters) true) w cs
    (map (seek_sorted (mkIK start s 0)) cs) Hr Hct)
    as (sc & w1 & out & w2 & cur & h & iters1 & E1 & _ & _ & Hw1 & E2 & Hw2 & Hasc & Hiff).
  { by eapply caches_world. }
  { done. }
  { eapply unique_sublist; [|exact Hu]. intros y Hy. apply Hsub. by eapply elem_of_seek_concat. }
  { etrans; [apply length_seek_all|lia]. }
  exists sc, tc, w1, out, tc, w2. split_and!.
  - rewrite (EM_bind_ok _ _ _ sc (set_tables (scan_refs e) tc w1)); [done|].
    unfold iterating, NewScanIterator. cbn [set_tables rworld]. by rewrite E1.
  - by eapply caches_keep.
  - unfold scan_drain, iterating. cbn [set_tables rworld]. by rewrite E2.
  - by eapply caches_keep.
  - done.
  - intros x. rewrite Hiff. cbn [s_seqNum s_end]. rewrite shown_seek by done.
    assert (bytes_Compare start (UserKey x) <= 0 ∧ before end_ x ->
      shown s (concat cs) x <-> shown s (contents lm li (Current (vs e))) x) as Hs; [|tauto].
    intros [H1 H2]. unfold before in H2. apply shown_same. intros y Ek. split; [apply Hsub|].
    intros Hy. apply Hin; [done|by rewrite Ek|rewrite Ek; lia].
Qed.
End view.

(** ** States for the examples *)

Definition example_engine (ms : list Memtable) (v : Version) (f : FS) : Engine :=
  mkEngine (WithDefaults example_options) None None 0 None ms [] (mkVS v 100 50 0 NewFile) 50 ∅
    (fresh_world 16) [] [] false (replicate 7 []) [] f [].

(** Tables in a file system of their own: level, number, contents. *)
Fixpoint example_fs (tables : list (Z * Z * bytes)) : FS :=
  match tables with
  | [] => mkFS ∅ [] [] []
  | (level, num, data) :: tables =>
      let f := example_fs tables in
      mkFS (<[tablePath level num := length (inodes f)]> (dir f)) (inodes f ++ [mkFile data 0 []]) [] []
  end.

(** The metadata of a table of one record. *)
Definition single_meta (level num : Z) (r : Rec) : TableMeta := mkTM num 100 level (RKey r) (RKey r).

Lemma build_single r :
  small_rec r -> table_small [r] -> ∃ data, table_of data [[r]].
Proof.
  intros Hr Hs. destruct (build_table [r]) as (data & bs & Ht & E); [by constructor|done|]. exists data.
  assert (Forall (λ b : list Rec, b ≠ []) bs) as Hn by (destruct Ht as (f & _ & Hn & _); exact Hn).
  destruct bs as [|[|x b] bs]; [done|by apply Forall_cons in Hn as [? _]|]. cbn in E. injection E as -> E.
  apply app_eq_nil in E as [-> E]. destruct bs as [|[|y c] bs]; [done| |done].
  apply Forall_cons in Hn as [_ [? _]%Forall_cons]. done.
Qed.

Lemma single_ok D f level num r data :
  D !! num = Some [[r]] -> fs_file f (tablePath level num) = Some (mkFile data 0 []) -> table_of data [[r]] ->
  0 <= num < 10 ^ 6 -> table_ok D f (single_meta level num r) [[r]].
Proof.
  intros HD Hf Ht Hn. split; cbn [single_meta FileNum Level MinKey MaxKey concat app]; try done.
  - by eexists.
  - repeat constructor.
  - by exists r, [].
Qed.

Lemma view_example D lm m v f :
  holds m lm -> Forall (λ t, ∃ bs, table_ok D f t bs) (concat v) -> view D lm [] (example_engine [m] v f).
Proof.
  intros Hm Ht. split; cbn; [by exists m|done|done|].
  split_and!; [apply New_coherent|done|set_solver|intros n r; by rewrite lookup_empty|intros n n' r r'; by rewrite lookup_empty].
Qed.

Definition example_r (k v : byte) (s : Z) : Rec := mkRec (mkIK [k] s TypePut) (Some [v]).

(** ** What reads guarantee *)

(** C5. A point lookup in a state whose layers (memtable, immutable memtable, level 0, the other
    levels) hold ever older versions and whose levels after the first are sorted returns the value
    of the newest version not after the sequence number among all records of the state, or nothing
    if there is none or it is a deletion; it only fills the caches, so that the state still holds
    the same records. *)
Theorem get_newest D lm li l0 levels k s e :
  view D lm li e -> Current (vs e) = l0 :: levels -> Forall level_sorted levels ->
  layered (lm :: li :: level_recs D l0 :: map (level_recs D) levels) ->
  ∃ o e', get k s e = (Ok (read_result o), e') ∧ newest k s (contents D lm li (l0 :: levels)) o ∧
    view D lm li e' ∧ ∃ tc w, e' = set_tables e tc w.
Proof.
  intros Hv Hcur Hs Hl. destruct (get_ok D lm li l0 levels k s e Hv Hcur Hs Hl) as (o & tc & w & E & Hc & Hn).
  exists o, (set_tables e tc w). split_and!; [done|done|by apply view_tables_set|eauto].
Qed.

(** A newer version in the memtable, an older one and another key in two levels. *)
Lemma get_newest_witness :
  ∃ D lm e o e', contents D lm [] (Current (vs e)) =
      [example_r Byte.x61 Byte.x33 3; example_r Byte.x61 Byte.x31 1; example_r Byte.x62 Byte.x32 2] ∧
    get [Byte.x61] 9 e = (Ok (read_result o), e') ∧ newest [Byte.x61] 9 (contents D lm [] (Current (vs e))) o ∧
    view D lm [] e'.
Proof.
  set (ra := example_r Byte.x61 Byte.x31 1). set (rb := example_r Byte.x62 Byte.x32 2).
  set (rm := example_r Byte.x61 Byte.x33 3).
  destruct (build_single ra) as (da & Ha); [by apply (bool_decide_unpack _)|done|].
  destruct (build_single rb) as (db & Hb); [by apply (bool_decide_unpack _)|done|].
  destruct (Put_holds (New 100 4) [] [true] rm (New_holds 100 4 ltac:(lia))) as (m & _ & Hm & _).
  set (D := {[5 := [[ra]]; 6 := [[rb]]]} : gmap Z (list (list Rec))).
  set (v := [[single_meta 0 5 ra]; [single_meta 1 6 rb]] : Version).
  set (f := example_fs [(0, 5, da); (1, 6, db)]).
  assert (view D [rm] [] (example_engine [m] v f)) as Hv.
  { apply view_example; [exact Hm|]. repeat constructor; eexists; eapply single_ok; try done. }
  exists D, [rm], (example_engine [m] v f).
  destruct (get_newest D [rm] [] [single_meta 0 5 ra] [[single_meta 1 6 rb]] [Byte.x61] 9 _ Hv eq_refl)
    as (o & e' & E & Hn & Hv' & _).
  - repeat constructor.
  - repeat constructor; intros x y Hx Hy Ek; cbn in Hx, Hy; repeat (apply elem_of_cons in Hx as [->|Hx]);
      repeat (apply elem_of_cons in Hy as [->|Hy]); try (by inversion Hx); try (by inversion Hy); by cbn in *.
  - exists o, e'. split_and!; [reflexivity|exact E|exact Hn|exact Hv'].
Defined.

(** C6. A scan delivers exactly what the state shows at its sequence number: the newest visible versions
    of the keys from the start to the end (the end excluded), deletions left out, in strictly
    ascending key order; opening it and draining it neither fails nor panics, and the state holds
    the same records afterwards.  The levels need not be sorted, nor the layers ordered. *)
Theorem scan_exact D lm li fuel start end_ s e :
  view D lm li e -> unique_versions (contents D lm li (Current (vs e))) ->
  (length (contents D lm li (Current (vs e))) <= fuel)%nat ->
  ∃ sc e1 out e2, scan fuel start end_ s e = (Ok (sc, (mt e, immt e)), e1) ∧
    scan_drain fuel sc e1 = (Ok out, e2) ∧ keys_ascending out ∧
    (∀ x, x ∈ out <-> shown s (contents D lm li (Current (vs e))) x ∧
      bytes_Compare start (UserKey x) <= 0 ∧ before end_ x) ∧ view D lm li e1 ∧ view D lm li e2.
Proof.
  intros Hv Hu Hf. destruct (scan_ok D lm li fuel start end_ s e Hv Hu Hf)
    as (sc & tc & w & out & tc' & w' & E1 & Hc1 & E2 & Hc2 & Hasc & Hiff).
  pose proof (view_scan_refs D _ _ _ Hv) as Hv1.
  exists sc, (set_tables (scan_refs e) tc w), out, (set_tables (scan_refs e) tc' w').
  split_and!; [done|done|done|done|by apply view_tables_set|by apply view_tables_set].
Qed.

Lemma scan_exact_witness :
  ∃ D lm e sc e1 out e2, contents D lm [] (Current (vs e)) =
      [example_r Byte.x61 Byte.x33 3; example_r Byte.x61 Byte.x31 1; example_r Byte.x62 Byte.x32 2] ∧
    scan 3 [Byte.x61] [Byte.x7a] 9 e = (Ok (sc, (0%nat, None)), e1) ∧ scan_drain 3 sc e1 = (Ok out, e2) ∧
    keys_ascending out ∧ ∀ x, x ∈ out <-> shown 9 (contents D lm [] (Current (vs e))) x ∧
      bytes_Compare [Byte.x61] (UserKey x) <= 0 ∧ before [Byte.x7a] x.
Proof.
  set (ra := example_r Byte.x61 Byte.x31 1). set (rb := example_r Byte.x62 Byte.x32 2).
  set (rm := example_r Byte.x61 Byte.x33 3).
  destruct (build_single ra) as (da & Ha); [by apply (bool_decide_unpack _)|done|].
  destruct (build_single rb) as (db & Hb); [by apply (bool_decide_unpack _)|done|].
  destruct (Put_holds (New 100 4) [] [true] rm (New_holds 100 4 ltac:(lia))) as (m & _ & Hm & _).
  set (D := {[5 := [[ra]]; 6 := [[rb]]]} : gmap Z (list (list Rec))).
  set (v := [[single_meta 0 5 ra]; [single_meta 1 6 rb]] : Version).
  set (f := example_fs [(0, 5, da); (1, 6, db)]).
  assert (view D [rm] [] (example_engine [m] v f)) as Hv.
  { apply view_example; [exact Hm|]. repeat constructor; eexists; eapply single_ok; try done. }
  destruct (scan_exact D [rm] [] 3 [Byte.x61] [Byte.x7a] 9 _ Hv) as (sc & e1 & out & e2 & E1 & E2 & Ha' & Hi & _).
  - intros x y Hx Hy. cbn in Hx, Hy. repeat (apply elem_of_cons in Hx as [->|Hx]);
      repeat (apply elem_of_cons in Hy as [->|Hy]); try (by inversion Hx); try (by inversion Hy); by cbn.
  - vm_compute. lia.
  - exists D, [rm], (example_engine [m] v f), sc, e1, out, e2. split_and!; [reflexivity|exact E1|exact E2|exact Ha'|exact Hi].
Defined.

Lemma candidate_nil k s : candidate k s [] = None.
Proof. done. Qed.

Lemma candidate_skip D f t bs k s :
  table_ok D f t bs -> bytes_Compare k (UserKey (MinKey t)) < 0 -> candidate k s (table_recs D t) = None.
Proof.
  intros Ht Hk. pose proof (candidate_newest k s _ (table_sorted D _ _ _ Ht)) as Hn.
  pose proof (table_skip D f t bs k s Ht) as Hno.
  rewrite (proj2 (Z.ltb_lt _ _) Hk) in Hno. specialize (Hno eq_refl).
  destruct (candidate k s (table_recs D t)) as [r|]; [|done]. destruct Hn as (Hr & Hv & _). by destruct (Hno r Hr).
Qed.

Lemma check_levels_empty k s best n e : check_levels (mkIK k s 0) best (replicate n []) e = (Ok best, e).
Proof. induction n as [|n IH]; [done|]. exact IH. Qed.

Lemma get_memtables_empty D k s e :
  view D [] [] e ->
  get k s e = (levels ← gets (λ e, Current (vs e));
    best ← match levels with
           | [] => mret None
           | l0 :: levels =>
               best ← check_level0 k (mkIK k s 0) None (reverse l0); check_levels (mkIK k s 0) best levels
           end;
    mret (read_result best)) e.
Proof.
  intros [(m & Hm & Hlm) Him _ _]. unfold get. rewrite (EM_bind_ok _ _ e (mt e) e) by done. cbv beta.
  rewrite (EM_bind_ok _ _ _ _ _ (mt_Get_ok _ m [] k s e Hm Hlm)). cbn [memtable_result candidate_nil].
  rewrite candidate_nil. cbn [memtable_result]. rewrite (EM_bind_ok _ _ e (immt e) e) by done. cbv beta.
  destruct (immt e) as [i|].
  - destruct Him as (m' & Hm' & Hl'). by rewrite (EM_bind_ok _ _ _ _ _ (mt_Get_ok _ m' [] k s e Hm' Hl')).
  - done.
Qed.

(** A level after the first whose tables are not in the order of their keys loses reads: if the
    table in the middle comes after the lookup key, the binary search never reaches the table that
    holds the key, and the lookup finds nothing although the state shows a version. *)
Theorem unsorted_level_misses D e ta tb tc n k s r :
  view D [] [] e -> Current (vs e) = [] :: [ta; tb; tc] :: replicate n [] ->
  Compare (MaxKey ta) (mkIK k s 0) < 0 -> bytes_Compare k (UserKey (MinKey tb)) < 0 ->
  shown s (contents D [] [] (Current (vs e))) r -> UserKey r = k ->
  ∃ e', get k s e = (Ok None, e') ∧ newest k s (contents D [] [] (Current (vs e))) (Some r) ∧
    read_result (Some r) = Some (Value r).
Proof.
  intros Hv Hcur Hta Hk [Hn Ht] <-. pose proof (get_memtables_empty D (UserKey r) s e Hv) as Eg.
  destruct Hv as [_ _ Htabs Hc].
  rewrite Hcur in Htabs. cbn [concat app] in Htabs. apply Forall_cons in Htabs as [_ [(bs & Hb) _]%Forall_cons].
  assert (0 <= Compare (MaxKey tb) (mkIK (UserKey r) s 0)) as Htb.
  { destruct (table_max D _ _ _ Hb) as (x & Hx & Ex). destruct (table_bounds D _ _ _ x Hb Hx) as [H1%Compare_le_keys _].
    rewrite Ex in H1. rewrite Compare_opp. assert (Compare (mkIK (UserKey r) s 0) (MaxKey tb) <= 0); [|lia].
    apply Compare_le_iff. left. cbn. rewrite bytes_Compare_opp in Hk |- *.
    destruct (Z.lt_ge_cases 0 (bytes_Compare (UserKey (MaxKey tb)) (UserKey r))); [lia|].
    pose proof (bytes_Compare_le_trans _ _ (UserKey r) H1 ltac:(lia)). lia. }
  assert (level_index (mkIK (UserKey r) s 0) [ta; tb; tc] = 1%nat) as Hidx.
  { unfold level_index, sort_Search. cbn. rewrite (proj2 (Z.leb_le _ _) Htb). cbn.
    by rewrite (proj2 (Z.leb_gt _ _) Hta). }
  destruct (checkTable_ok D (UserKey r) s None tb bs e Hb Hc) as (tc' & w & E & Hc').
  rewrite (candidate_skip D _ _ _ _ _ Hb Hk) in E. cbn [newer] in E.
  exists (set_tables e tc' w). split_and!; [|done|by cbn; rewrite Ht]. rewrite Eg.
  rewrite (EM_bind_ok _ _ e (Current (vs e)) e) by done. cbv beta. rewrite Hcur.
  rewrite (EM_bind_ok _ _ e None (set_tables e tc' w)); [done|].
  rewrite (EM_bind_ok _ _ e None e) by done. cbn [check_levels]. rewrite Hidx. cbn [lookup list_lookup].
  rewrite (EM_bind_ok _ _ _ _ _ E). apply check_levels_empty.
Qed.

(** Tables for the keys a, m and d in this order; d is lost. *)
Lemma unsorted_level_misses_witness :
  ∃ D e e', contents D [] [] (Current (vs e)) =
      [example_r Byte.x61 Byte.x31 1; example_r Byte.x6d Byte.x32 2; example_r Byte.x64 Byte.x33 3] ∧
    get [Byte.x64] 9 e = (Ok None, e') ∧
    newest [Byte.x64] 9 (contents D [] [] (Current (vs e))) (Some (example_r Byte.x64 Byte.x33 3)).
Proof.
  set (ra := example_r Byte.x61 Byte.x31 1). set (rm := example_r Byte.x6d Byte.x32 2).
  set (rd := example_r Byte.x64 Byte.x33 3).
  destruct (build_single ra) as (da & Ha); [by apply (bool_decide_unpack _)|done|].
  destruct (build_single rm) as (dm & Hm); [by apply (bool_decide_unpack _)|done|].
  destruct (build_single rd) as (dd & Hd); [by apply (bool_decide_unpack _)|done|].
  set (D := {[5 := [[ra]]; 6 := [[rm]]; 7 := [[rd]]]} : gmap Z (list (list Rec))).
  set (v := [[]; [single_meta 1 5 ra; single_meta 1 6 rm; single_meta 1 7 rd]] : Version).
  set (f := example_fs [(1, 5, da); (1, 6, dm); (1, 7, dd)]).
  assert (view D [] [] (example_engine [New 100 4] v f)) as Hv.
  { apply view_example; [apply New_holds; lia|]. repeat constructor; eexists; eapply single_ok; try done. }
  exists D, (example_engine [New 100 4] v f).
  destruct (unsorted_level_misses D _ _ _ _ 0 [Byte.x64] 9 rd Hv eq_refl) as (e' & E & Hn & _).
  - vm_compute. done.
  - vm_compute. done.
  - split; [|done]. split_and!; [vm_compute; set_solver|by split|].
    intros r' Hr' [Ek _]. vm_compute in Hr'. repeat (apply elem_of_cons in Hr' as [->|Hr']); [done..|by inversion Hr'].
  - done.
  - exists e'. split_and!; [reflexivity|exact E|exact Hn].
Defined.
