(* ===== verification/EngineCompact.v ===== *)
(** * Package engine: compaction

    [compactor.go]: the choice of a level and of its input tables, the merge into new tables of the
    next level, and the exchange of the tables in the version. *)

From S2P Require Import Prelude.
From S2P Require Import GoStd.
From S2P Require Import GoIO.
From S2P Require Import GoHeap.
From S2P Require Import Records.
From S2P Require Import Skiplist.
From S2P Require Import Versions.
From S2P Require Import Memtable.
From S2P Require Import Config.
From S2P Require Import Wal.
From S2P Require Import Iterators.
From S2P Require Import Filter.
From S2P Require Import Blocks.
From S2P Require Import BlockCache.
From S2P Require Import Names.
From S2P Require Import TableWriter.
From S2P Require Import TableReader.
From S2P Require Import Meta.
From S2P Require Import Scan.
From S2P Require Import EngineState.
From S2P Require Import EngineRead.

(** ** Choosing *)

Definition level_tables (v : Version) (level : Z) : res (list TableMeta) :=
  Prelude.index v level.

Definition levelSize (v : Version) (level : Z) : res Z :=
  tables ← level_tables v level;
  Ok (foldl (λ total t, i64 (total + i64 (FileSize t))) 0 tables).

(** The loop of levelCapacity, [n] rounds. *)
Fixpoint levelCapacity_loop (n : nat) (cap multiplier : Z) : Z :=
  match n with O => cap | S n => levelCapacity_loop n (i64 (cap * i64 multiplier)) multiplier end.

Definition levelCapacity (o : Options) (level : Z) : Z :=
  levelCapacity_loop (Z.to_nat (level - 1)) (MaxBytesBase o) (LevelMultiplier o).

(** Tables from the front until their sizes reach the target. *)
Fixpoint pick_tables (tables : list TableMeta) (pickedSize targetSize : Z) : list TableMeta :=
  match tables with
  | [] => []
  | t :: tables =>
      let pickedSize := i64 (pickedSize + i64 (FileSize t)) in
      t :: (if targetSize <=? pickedSize then [] else pick_tables tables pickedSize targetSize)
  end.

Definition pickCompactionInputs (e : Engine) (level : Z) : res (list TableMeta) :=
  tables ← level_tables (Current (vs e)) level;
  if (length tables =? 0)%nat then Ok [] else
  if level =? 0 then Ok tables else
  pointer ← Prelude.index (compactPointer e) level;
  let idx := sort_Search (length tables) (λ i,
    match tables !! i with Some t => 0 <? bytes_Compare (UserKey (MinKey t)) pointer | None => false end) in
  size ← levelSize (Current (vs e)) level;
  let targetSize := Z.max (i64 (size - levelCapacity (opts e) level)) 0 in
  Ok (pick_tables (drop idx tables) 0 targetSize).

(** Start the goroutine of a compaction of the level. *)
Definition spawn (level : Z) : EM unit :=
  inputs ← (λ e, (pickCompactionInputs e level, e));
  outFileNum ← next_file_num;
  modify (λ e, set_queues e (flushChan e) (compactQueue e ++ [mkCT level inputs outFileNum])).

(** The loop over the levels, [n] of them from [level] on. *)
Fixpoint schedule_levels (n : nat) (level : Z) : EM unit :=
  match n with
  | O => modify (λ e, set_compact e false (compactPointer e))
  | S n =>
      size ← (λ e, (levelSize (Current (vs e)) level, e));
      cap ← gets (λ e, levelCapacity (opts e) level);
      if size <=? cap then schedule_levels n (level + 1) else spawn level
  end.

Definition scheduleCompaction : EM unit :=
  busy ← gets isCompacting;
  if (busy : bool) then mret tt else
  _ ← modify (λ e, set_compact e true (compactPointer e));
  l0 ← (λ e, (level_tables (Current (vs e)) 0, e));
  maxL0 ← gets (λ e, MaxL0Files (opts e));
  if maxL0 <=? len l0 then spawn 0
  else
    n ← gets (λ e, length (Current (vs e)));
    schedule_levels (n - 2) 1.

(** ** Writing the output *)

Section output.
Context `{FE : FloatEnv}.

(** The local variables of writeCompactionOutput that its closures share. *)
Record Output := mkOut {
  out_writer : option (TableWriter * path);
  out_fileNum : Z;
  outTables : list TableMeta;
  out_firstKey : InternalKey;
  out_lastKey : InternalKey;
  out_first : bool
}.

Definition new_table (level fileNum : Z) : EM (TableWriter * path) :=
  let p := tablePath level fileNum in
  i ← create_trunc p;
  f ← gets (λ e, inodes (fs e) !! i);
  o ← gets opts;
  match f with
  | Some f => mret (TableWriter.Create f (Config.BlockSize o) (FilterExpectedKeys o) (FilterFPRate o), p)
  | None => lift Panic
  end.

Definition openWriter (level : Z) (o : Output) : EM Output :=
  w ← new_table level (out_fileNum o);
  mret (mkOut (Some w) (out_fileNum o) (outTables o) (out_firstKey o) (out_lastKey o) true).

(** The writer's file gets what has been written, also when Close fails. *)
Definition close_table (w : TableWriter * path) : EM Z :=
  '(w', size, err) ← lift (TableWriter.Close w.1);
  _ ← put_file w.2 (TableWriter.file w');
  _ ← check err;
  mret size.

Definition closeWriter (level : Z) (o : Output) : EM Output :=
  match out_writer o with
  | None => mret o
  | Some w =>
      size ← close_table w;
      let t := mkTM (out_fileNum o) (u64 size) (u32 level) (out_firstKey o) (out_lastKey o) in
      n ← next_file_num;
      mret (mkOut None n (outTables o ++ [t]) (out_firstKey o) (out_lastKey o) (out_first o))
  end.

(** The part of a round that writes the record. *)
Definition output_record (level : Z) (rec : Rec) (o : Output) : EM Output :=
  let firstKey := if out_first o then RKey rec else out_firstKey o in
  match out_writer o with
  | None => lift Panic
  | Some (w, p) =>
      '(w, err) ← lift (TableWriter.Add w rec);
      _ ← put_file p (TableWriter.file w);
      _ ← check err;
      let o := mkOut (Some (w, p)) (out_fileNum o) (outTables o) firstKey (RKey rec) false in
      max ← gets (λ e, MaxSSTableSize (opts e));
      if max <=? EstimatedSize w then o ← closeWriter level o; openWriter level o
      else mret o
  end.

(** The loop over the merged records; the merger is still valid where the source asks it before it
    opens the next writer. *)
Fixpoint output_loop (fuel : nat) (level : Z) (isBottomLevel : bool) (oldestSnap : Z) (lastUserKey : bytes)
    (m : MergeIterator SSTableIterator) (o : Output) : EM Output :=
  match merge_Record m with
  | None => mret o
  | Some rec =>
      match fuel with
      | O => lift Panic
      | S fuel =>
          let next lastUserKey o :=
            '(m, _) ← iterating (λ w, '(m, w) ← merge_Next m w; Some ((m, tt), w));
            output_loop fuel level isBottomLevel oldestSnap lastUserKey m o in
          if bytes_Equal (UserKey rec) lastUserKey then next lastUserKey o
          else if (KType rec =? TypeDel) && isBottomLevel && (SeqNum rec <? oldestSnap)
          then next (UserKey rec) o
          else o ← output_record level rec o; next (UserKey rec) o
      end
  end.

Definition writeCompactionOutput (fuel : nat) (fileNum level : Z) (iters : list SSTableIterator)
    (isBottomLevel : bool) : EM (list TableMeta) :=
  let merger := NewMergeIterator (W := RWorld) iters in
  let o := mkOut None fileNum [] (mkIK [] 0 0) (mkIK [] 0 0) true in
  o ← openWriter level o;
  oldestSnap ← gets (λ e, oldest (snapshots e));
  o ← output_loop fuel level isBottomLevel oldestSnap [] merger o;
  o ← match out_writer o with
      | Some w =>
          if negb (out_first o) then closeWriter level o
          else
            _ ← attempt (close_table w);
            _ ← attempt (remove w.2);
            mret o
      | None => mret o
      end;
  mret (outTables o).

(** ** The compaction of a level *)

(** The errors of Close are ignored. *)
Fixpoint close_all (readers : list TableReader) : EM unit :=
  match readers with
  | [] => mret tt
  | r :: readers => _ ← attempt (reading (TableReader.Close r)); close_all readers
  end.

(** Readers and iterators of the tables; on an error the readers so far are closed. *)
Fixpoint open_all (tables : list TableMeta) (readers : list TableReader) (iters : list SSTableIterator) :
    EM (list TableReader * list SSTableIterator) :=
  match tables with
  | [] => mret (readers, iters)
  | t :: tables =>
      reader ← attempt (open_table (Level t) (FileNum t));
      match reader with
      | inr x => _ ← close_all readers; fail x
      | inl reader =>
          it ← iterating (TableReader.Iterator reader);
          open_all tables (readers ++ [reader]) (iters ++ [it])
      end
  end.

(** The tables that have been replaced leave the table cache and the disk. *)
Fixpoint drop_tables (tables : list TableMeta) : EM unit :=
  match tables with
  | [] => mret tt
  | t :: tables =>
      r ← gets (λ e, tableCache e !! FileNum t);
      _ ← match r with
          | Some r =>
              _ ← attempt (reading (TableReader.Close r));
              modify (λ e, set_tables e (delete (FileNum t) (tableCache e)) (rworld e))
          | None => mret tt
          end;
      _ ← attempt (remove (tablePath (Level t) (FileNum t)));
      drop_tables tables
  end.

Definition clear_compacting : EM unit := modify (λ e, set_compact e false (compactPointer e)).

(** Remember where the compaction of the level ended: the key is appended to the pointer. *)
Definition move_pointer (level : Z) (inputs : list TableMeta) : EM unit :=
  match last inputs with
  | Some t =>
      if 0 <? level then
        p ← (λ e, (Prelude.index (compactPointer e) level, e));
        modify (λ e, set_compact e (isCompacting e)
          (<[Z.to_nat level := p ++ UserKey (MaxKey t)]> (compactPointer e)))
      else mret tt
  | None => mret tt
  end.

Definition compactLevel (fuel : nat) (level : Z) (inputs : list TableMeta) (outFileNum : Z) : EM unit :=
  let nextLevel := level + 1 in
  let '(minKey, maxKey) := KeyRangeOf inputs in
  nextLevelFiles ← (λ e, (level_tables (Current (vs e)) nextLevel, e));
  _ ← move_pointer level inputs;
  let overlapping := FindOverlapping nextLevelFiles minKey maxKey in
  let all := inputs ++ overlapping in
  opened ← attempt (open_all all [] []);
  match opened with
  | inr _ => mret tt
  | inl (readers, iters) =>
      isBottomLevel ← gets (λ e, nextLevel =? len (Current (vs e)) - 1);
      outTables ← attempt (writeCompactionOutput fuel outFileNum nextLevel iters isBottomLevel);
      match outTables with
      | inr _ => _ ← close_all readers; clear_compacting
      | inl outTables =>
          _ ← close_all readers;
          let deleted := map (λ t, mkDM (Level t) (FileNum t)) all in
          nextFileNum ← next_file_num;
          err ← log_and_apply (mkVE outTables deleted None (Some nextFileNum) None);
          match err with
          | Some _ => clear_compacting
          | None =>
              _ ← drop_tables all;
              _ ← clear_compacting;
              scheduleCompaction
          end
      end
  end.

(** The next compaction goroutine runs. *)
Definition run_compaction (fuel : nat) : EM unit :=
  q ← gets compactQueue;
  match q with
  | [] => mret tt
  | ct :: q =>
      _ ← modify (λ e, set_queues e (flushChan e) q);
      compactLevel fuel (ct_level ct) (ct_inputs ct) (ct_outFileNum ct)
  end.
End output.
