(* ===== verification/EngineWrite.v ===== *)
(** * Package engine: writes and flushes

    [write.go] and [flusher.go]: a write appends to the log and puts into the memtable, a full
    memtable is rotated out and its flush task sent to the flusher, which turns it into a table of
    level 0. *)

From S2P Require Import Prelude.
From S2P Require Import GoStd.
From S2P Require Import GoIO.
From S2P Require Import GoHeap.
From S2P Require Import Records.
From S2P Require Import Skiplist.
From S2P Require Import Versions.
From S2P Require Import Memtable.
From S2P Require Import Config.
From S2P Require Import Wal.
From S2P Require Import Batch.
From S2P Require Import Iterators.
From S2P Require Import Filter.
From S2P Require Import Blocks.
From S2P Require Import BlockCache.
From S2P Require Import Names.
From S2P Require Import TableWriter.
From S2P Require Import TableReader.
From S2P Require Import Meta.
From S2P Require Import Scan.
From S2P Require Import EngineState.
From S2P Require Import EngineRead.
From S2P Require Import EngineCompact.

Section write.
Context `{FE : FloatEnv}.

(** ** flusher.go *)

(** The log part of rotate: a new log, whose number is recorded; the old log and its path. *)
Definition rotate_wal : EM (option nat * option path) :=
  oldWal ← gets wal;
  _ ← modify (λ e, set_logs e (wal e) oldWal (wals e));
  oldWalPath ← wal_Path oldWal;
  logNum ← next_file_num;
  mode ← gets (λ e, Mode (opts e));
  newWal ← wal_Open (walPath logNum) mode;
  _ ← modify (λ e, set_logs e (Some newWal) (imwal e) (wals e));
  _ ← log_and_apply (mkVE [] [] None None (Some logNum));
  mret (oldWal, oldWalPath).

Definition rotate : EM flushTask :=
  m ← gets mt;
  _ ← modify (λ e, set_mems e (mt e) (Some m) (mts e) (flips e));
  recovery ← gets (λ e, CrashRecovery (opts e));
  '(oldWal, oldWalPath) ← (if (recovery : bool) then rotate_wal else mret (None, None));
  m' ← mt_New;
  _ ← modify (λ e, set_mems e m' (immt e) (mts e) (flips e));
  fileNum ← next_file_num;
  '(w, p) ← new_table 0 fileNum;
  mret (mkTask oldWalPath oldWal m w p fileNum).

Definition send (tasks : list flushTask) : EM unit :=
  modify (λ e, set_queues e (flushChan e ++ tasks) (compactQueue e)).

(** The loop of flush: the writer, the first and the last key, if there was one, and the error. *)
Fixpoint flush_loop (fuel : nat) (it : MemtableIterator) (w : TableWriter)
    (keys : option (InternalKey * InternalKey)) :
    res (TableWriter * option (InternalKey * InternalKey) * option error) :=
  if Memtable.Valid it then
    match fuel with
    | O => Panic
    | S fuel =>
        let key := it_InternalKey it in
        let value := it_Value it in
        let keys := match keys with Some (firstKey, _) => Some (firstKey, key) | None => Some (key, key) end in
        '(w, err) ← TableWriter.Add w (mkRec key value);
        match err with
        | Some x => Ok (w, keys, Some x)
        | None => it ← must (Memtable.Next it); flush_loop fuel it w keys
        end
    end
  else Ok (w, keys, None).

(** The part of flush under the lock, once the table is written. *)
Definition install_flush (task : flushTask) (edit : VersionEdit) : EM unit :=
  _ ← log_and_apply edit;
  _ ← match oldWal task with
      | Some w =>
          _ ← attempt (err ← wal_Close w; check err);
          _ ← attempt (match oldWalPath task with Some p => remove p | None => fail ErrIO end);
          mret tt
      | None => mret tt
      end;
  im ← gets immt;
  _ ← modify (λ e, set_logs (set_mems e (mt e) None (mts e) (flips e)) (wal e) None (wals e));
  l0 ← (λ e, (level_tables (Current (vs e)) 0, e));
  maxL0 ← gets (λ e, MaxL0Files (opts e));
  _ ← (if maxL0 <=? len l0 then scheduleCompaction else mret tt);
  match im with Some i => update_mt i Unref | None => mret tt end.

Definition flush (task : flushTask) : EM unit :=
  m ← the_mt (task_mt task);
  it ← lift (must (Memtable.Iterator (list_ m)));
  '(w, keys, err) ← lift (flush_loop (length (nodes (list_ m))) it (writer task) None);
  _ ← put_file (writer_path task) (TableWriter.file w);
  _ ← check err;
  match keys with
  | None =>
      _ ← attempt (close_table (w, writer_path task));
      remove (writer_path task)
  | Some (firstKey, lastKey) =>
      fileSize ← close_table (w, writer_path task);
      nextFileNum ← next_file_num;
      install_flush task
        (mkVE [mkTM (task_fileNum task) (u64 fileSize) 0 firstKey lastKey] []
          (Some (SeqNum lastKey)) (Some nextFileNum) None)
  end.

(** The flusher receives a task; an error is logged. *)
Definition run_flush : EM unit :=
  q ← gets flushChan;
  match q with
  | [] => mret tt
  | task :: q =>
      _ ← modify (λ e, set_queues e q (compactQueue e));
      _ ← attempt (flush task);
      mret tt
  end.

(** ** write.go *)

Definition next_seq (n : Z) : EM Z :=
  _ ← modify (λ e, set_seqNum e (u64 (seqNum e + n)));
  gets seqNum.

(** The stall of writers while level 0 has too many tables. *)
Definition stalled : EM bool :=
  l0 ← (λ e, (level_tables (Current (vs e)) 0, e));
  gets (λ e, MaxL0Files (opts e) * 2 <=? len l0).

Definition log_record (r : Rec) : EM unit :=
  recovery ← gets (λ e, CrashRecovery (opts e));
  if (recovery : bool) then
    w ← gets wal;
    match w with
    | Some w => err ← wal_Append w r; check err
    | None => lift Panic
    end
  else mret tt.

(** The part of write under the lock: the task of the memtable that became full. *)
Definition put_record (r : Rec) : EM (option flushTask) :=
  i ← gets mt;
  _ ← mt_Put i r;
  m ← the_mt i;
  if IsFull m then task ← rotate; mret (Some task) else mret None.

(** write after its sequence number is taken and the stall is over. *)
Definition finish_write (r : Rec) : EM unit :=
  _ ← log_record r;
  task ← put_record r;
  match task with Some task => send [task] | None => mret tt end.

(** The record of a write with the next sequence number. *)
Definition begin_write (key : bytes) (value : option bytes) (typ : Z) : EM Rec :=
  seq ← next_seq 1;
  mret (mkRec (mkIK key seq typ) value).

(** A round of write's loop, for the record that waits in it. [false]: level 0 still has too many
    tables, and the writer sleeps until its next round. *)
Definition resume_write (r : Rec) : EM bool :=
  wait ← stalled;
  if (wait : bool) then mret false else _ ← finish_write r; mret true.

(** write up to its first round; a writer that is waiting goes on with [resume_write], its sequence
    number being taken. The lock e.mu is not part of the state: where rotate fails the code returns
    with the lock held, and here the error is all that is seen of it. *)
Definition write (key : bytes) (value : option bytes) (typ : Z) : EM bool :=
  r ← begin_write key value typ; resume_write r.

Definition Put (key value : bytes) : EM bool :=
  if bytes_Equal key [] || bytes_Equal value [] then fail (ErrText "cannot put with empty key or value")
  else write key (Some value) TypePut.

(** Delete does not return write's error. *)
Definition Delete (key : bytes) : EM bool :=
  r ← attempt (write key None TypeDel);
  match r with inl b => mret b | inr _ => mret true end.

(** The checks of WriteBatch. *)
Fixpoint check_batch (recs : list Rec) : option error :=
  match recs with
  | [] => None
  | rec :: recs =>
      if KeyLen rec =? 0 then Some (ErrText "writebatch: empty key")
      else if (KType rec =? TypePut) && bool_decide (Value rec = None)
      then Some (ErrText "writebatch: nil value for key")
      else check_batch recs
  end.

(** The loop under the lock; an error loses the tasks of earlier rotations. *)
Fixpoint put_records (recs : list Rec) (tasks : list flushTask) : EM (list flushTask) :=
  match recs with
  | [] => mret tasks
  | r :: recs =>
      task ← put_record r;
      put_records recs (tasks ++ option_list task)
  end.

Definition log_batch (recs : list Rec) (startSeq : Z) : EM (list Rec) :=
  recovery ← gets (λ e, CrashRecovery (opts e));
  if (recovery : bool) then
    w ← gets wal;
    match w with
    | Some w => '(err, recs) ← wal_AppendBatch w recs startSeq; _ ← check err; mret recs
    | None => lift Panic
    end
  else mret recs.

Definition WriteBatch (b : Batch) : EM unit :=
  if Len b =? 0 then mret tt else
  _ ← check (check_batch (Records b));
  let n := u64 (Len b) in
  endSeq ← next_seq n;
  let startSeq := u64 (u64 (endSeq - n) + 1) in
  let recs := renumber (Records b) startSeq in
  recs ← log_batch recs startSeq;
  tasks ← put_records recs [];
  send tasks.

(** recoveryWrite, of a record that a log already holds. *)
Definition recoveryWrite (r : Rec) : EM unit :=
  task ← put_record r;
  match task with Some task => send [task] | None => mret tt end.
End write.
