(* ===== verification/EngineOpen.v ===== *)
(** * Package engine: opening, recovery, Sync and Close

    [recover.go] and the life cycle in [engine.go].  The data directory is in two parts: [Root] has
    CURRENT and the manifest, which package meta owns; [FS] has the directories of the logs and of
    the tables. *)

From S2P Require Import Prelude.
From S2P Require Import GoStd.
From S2P Require Import GoIO.
From S2P Require Import GoHeap.
From S2P Require Import Records.
From S2P Require Import Skiplist.
From S2P Require Import Versions.
From S2P Require Import Memtable.
From S2P Require Import Config.
From S2P Require Import Wal.
From S2P Require Import Batch.
From S2P Require Import Iterators.
From S2P Require Import Filter.
From S2P Require Import Blocks.
From S2P Require Import BlockCache.
From S2P Require Import Names.
From S2P Require Import TableWriter.
From S2P Require Import TableReader.
From S2P Require Import Meta.
From S2P Require Import Scan.
From S2P Require Import EngineState.
From S2P Require Import EngineRead.
From S2P Require Import EngineCompact.
From S2P Require Import EngineWrite.
From Stdlib Require Import Ascii.

Section open.
Context `{FE : FloatEnv}.

(** ** recover.go *)

(** os.ReadDir of the log directory. *)
Definition wal_entries (e : Engine) : list (list ascii) :=
  omap (λ p, match p.1 with WalPath name => Some name | _ => None end) (map_to_list (dir (fs e))).

Definition wal_numbers (entries : list (list ascii)) : list Z :=
  slices_Sort (omap (λ name, match scan_wal name with (num, true) => Some num | _ => None end) entries).

(** The callback of Replay: the engine, the greatest sequence number so far and whether a panic
    has ended it. *)
Definition replay_record (st : Engine * Z * bool) (r : Rec) : (Engine * Z * bool) * option error :=
  let '(e, maxSeq, _) := st in
  match recoveryWrite r e with
  | (Ok _, e) => ((e, if maxSeq <? SeqNum r then SeqNum r else maxSeq, false), None)
  | (Err x, e) => ((e, maxSeq, false), Some x)
  | (Panic, e) => ((e, maxSeq, true), Some ErrIO)
  end.

Definition replay_wal (w : nat) : EM Z := λ e,
  match h ← wals e !! w; inodes (fs e) !! wh_inode h with
  | None => (Panic, e)
  | Some f =>
      match Wal.Replay replay_record (e, 0, false) (fdata f) with
      | Some (Ok ((e, maxSeq, panicked), err)) =>
          (if (panicked : bool) then Panic else match err with Some x => Err x | None => Ok maxSeq end, e)
      | _ => (Panic, e)
      end
  end.

Fixpoint replay_logs (nums : list Z) : EM unit :=
  match nums with
  | [] => mret tt
  | num :: nums =>
      w ← wal_Open (walPath num) SyncNone;
      maxSeq ← replay_wal w;
      err ← wal_Close w;
      _ ← check err;
      _ ← remove (walPath num);
      seq ← gets seqNum;
      _ ← (if seq <? maxSeq then modify (λ e, set_seqNum e maxSeq) else mret tt);
      replay_logs nums
  end.

Definition set_wal (w : nat) : EM unit := modify (λ e, set_logs e (Some w) (imwal e) (wals e)).

Definition recover : EM unit :=
  logNumber ← gets (λ e, LogNumber (vs e));
  _ ← io;
  entries ← gets wal_entries;
  mode ← gets (λ e, Mode (opts e));
  if (length entries =? 0)%nat then w ← wal_Open (walPath logNumber) mode; set_wal w
  else replay_logs (wal_numbers entries).

(** ** engine.go *)

Fixpoint mkdir_all (n : nat) : EM unit :=
  match n with O => mret tt | S n => _ ← io; mkdir_all n end.

(** The directories wal, tables and one per level. *)
Definition mkdirs : EM unit :=
  n ← gets (λ e, NumLevels (opts e)); mkdir_all (2 + Z.to_nat n).

(** The engine before anything is opened. *)
Definition blank_engine (o : Options) (f : FS) (fl : list (list bool)) : Engine :=
  mkEngine o None None 0 None [Memtable.New (u64 (MemtableSize o)) (Z.to_nat (SkiplistMaxLevel o))] []
    emptyVersionSet 0 ∅ (mkRW (NewBlockCache (BlockCacheSize o)) [] ∅ 0) [] [] false
    (replicate (Z.to_nat (NumLevels o)) []) [] f fl.

(** What New does once the manifest is open. *)
Definition start_engine : EM unit :=
  s ← gets (λ e, LastSequenceNum (vs e));
  _ ← modify (λ e, set_seqNum e s);
  recovery ← gets (λ e, CrashRecovery (opts e));
  if (recovery : bool) then
    _ ← recover;
    n ← next_file_num;
    mode ← gets (λ e, Mode (opts e));
    w ← wal_Open (walPath n) mode;
    set_wal w
  else mret tt.

(** The outer option is that of the manifest's replay, which always ends. *)
Definition New (o : Options) (r : Root) (f : FS) (fl : list (list bool)) : option (res unit * Engine * Root) :=
  let e := blank_engine (WithDefaults o) f fl in
  match mkdirs e with
  | (Ok _, e) =>
      '(r, v) ← Meta.Open r;
      match v with
      | Ok v => let '(x, e) := start_engine (set_vs e v) in Some (x, e, r)
      | Err x => Some (Err x, e, r)
      | Panic => Some (Panic, e, r)
      end
  | (x, e) => Some (x, e, r)
  end.

(** Waiting for the flusher: the tasks sent so far are flushed. *)
Fixpoint drain_flushes (n : nat) : EM unit :=
  match n with O => mret tt | S n => _ ← run_flush; drain_flushes n end.

Definition wait_flushes : EM unit := n ← gets (λ e, length (flushChan e)); drain_flushes n.

Definition mt_Size : EM Z := i ← gets mt; m ← the_mt i; mret (Memtable.size m).

Definition Sync : EM unit :=
  recovery ← gets (λ e, CrashRecovery (opts e));
  w ← gets wal;
  _ ← (match w with
       | Some w => if (recovery : bool) then err ← wal_Sync w; check err else mret tt
       | None => mret tt
       end);
  size ← mt_Size;
  if size =? 0 then mret tt
  else task ← rotate; _ ← send [task]; wait_flushes.

(** Waiting for the compactions, each of which may start another: [None] of the fuel is the wait
    that has not ended yet. *)
Fixpoint wait_compactions (n fuel : nat) : EM bool :=
  q ← gets compactQueue;
  match q, n with
  | [], _ => mret true
  | _ :: _, O => mret false
  | _ :: _, S n => _ ← run_compaction fuel; wait_compactions n fuel
  end.

(** *** Close *)

(** How far a call of Close has come: it waits for the compactions, or it has returned, with an error
    or without one, and with or without the lock of the table cache. *)
Inductive close_outcome :=
  | Waiting
  | Returned (err : option error) (cache_locked : bool).

(** The loop over the cached readers ends at the first error. *)
Fixpoint close_cached (readers : list TableReader) : EM (option error) :=
  match readers with
  | [] => mret None
  | r :: readers =>
      x ← attempt (reading (TableReader.Close r));
      match x with inl _ => close_cached readers | inr err => mret (Some err) end
  end.

(** A send on the flush channel, which an earlier Close may have closed. *)
Definition send_flush (flush_closed : bool) (tasks : list flushTask) : EM unit :=
  match tasks with
  | [] => mret tt
  | _ => if flush_closed then lift Panic else send tasks
  end.

(** [flush_closed]: whether the flush channel is closed when the call begins; it is when the call
    waits for the compactions. [order]: the order in which range visits the table cache. [n] turns are
    enough to wait for the compactions, or the call is still waiting. *)
Definition Close (flush_closed : bool) (order : list TableReader -> list TableReader) (n fuel : nat) : EM close_outcome :=
  size ← mt_Size;
  tasks ← (if 0 <? size then task ← rotate; mret [task] else mret []);
  _ ← send_flush flush_closed tasks;
  _ ← wait_flushes;
  _ ← (if flush_closed then lift Panic else mret tt); (* close(e.flushChan) *)
  done_ ← wait_compactions n fuel;
  if (done_ : bool) then
    readers ← gets (λ e, order (map snd (map_to_list (tableCache e))));
    err ← close_cached readers;
    match err with
    | Some x => mret (Returned (Some x) true)
    | None =>
        w ← gets wal;
        match w with
        | Some w => err ← wal_Close w; mret (Returned err false)
        | None => mret (Returned None false)
        end
    end
  else mret Waiting.

(** The readers after the first whose Close fails stay as they are. *)
Lemma close_cached_app pre r post e e1 x e2 :
  close_cached pre e = (Ok None, e1) -> reading (TableReader.Close r) e1 = (Err x, e2) ->
  close_cached (pre ++ r :: post) e = (Ok (Some x), e2).
Proof.
  revert e. induction pre as [|r' pre IH]; intros e Hpre Hr.
  - injection Hpre as ->. cbn [app close_cached]. unfold attempt, mbind, EM_bind. by rewrite Hr.
  - revert Hpre. cbn [app close_cached]. unfold mbind, EM_bind.
    destruct (attempt _ e) as [[[[]|y]| |] e'] eqn:E; intros Hpre; try discriminate Hpre. by apply IH.
Qed.

(** A second Close, with an empty memtable and no task left, panics at the channel. *)
Lemma Close_again order n fuel e :
  mt_Size e = (Ok 0, e) -> flushChan e = [] -> Close true order n fuel e = (Panic, e).
Proof.
  intros Hs Hq. unfold Close. unfold mbind, EM_bind. rewrite Hs. cbn [Z.ltb Z.compare mret EM_ret send_flush].
  unfold wait_flushes, gets, mbind, EM_bind. rewrite Hq. reflexivity.
Qed.
End open.
