(* ===== verification/EngineFs.v ===== *)
(** * Package engine: the file system and the tables written to it

    What the calls of [EngineState] do on a file system without faults, and that a table written by
    the engine ends up complete under its path while every other file stays as it is. *)

From S2P Require Import Prelude.
From S2P Require Import GoStd.
From S2P Require Import GoIO.
From S2P Require Import Records.
From S2P Require Import Versions.
From S2P Require Import Memtable.
From S2P Require Import Config.
From S2P Require Import Wal.
From S2P Require Import Filter.
From S2P Require Import Blocks.
From S2P Require Import BlockCache.
From S2P Require Import Names.
From S2P Require Import TableWriter.
From S2P Require Import TableReader.
From S2P Require Import Meta.
From S2P Require Import EngineState.
From S2P Require Import EngineRead.
From S2P Require Import EngineCompact.

(** No fault is to come, and paths lead to inodes of their own. *)
Record fs_ok (f : FS) : Prop := {
  fs_io : io_faults f = [];
  fs_new : new_faults f = [];
  fs_quiet : Forall no_faults (inodes f);
  fs_range : ∀ p i, dir f !! p = Some i -> (i < length (inodes f))%nat;
  fs_inj : ∀ p q i, dir f !! p = Some i -> dir f !! q = Some i -> p = q
}.

(** From [f] to [f'] nothing has changed but the path [p]: the other paths lead where they led, and
    the inodes keep their contents, unless [p] leads to them. *)
Record fs_step (p : path) (f f' : FS) : Prop := {
  step_ok : fs_ok f';
  step_dir : ∀ q, q ≠ p -> dir f' !! q = dir f !! q;
  step_inodes : ∀ j x, inodes f !! j = Some x -> dir f !! p ≠ Some j -> inodes f' !! j = Some x
}.

(** The open inode [j] is no file under the path [p]. *)
Lemma fs_step_file p f f' q : fs_ok f -> fs_step p f f' -> q ≠ p -> fs_file f' q = fs_file f q.
Proof.
  intros Hf [_ Hd Hi] Hq. unfold fs_file. rewrite Hd by done. destruct (dir f !! q) as [i|] eqn:Ei; [|done].
  cbn. pose proof (fs_range _ Hf _ _ Ei) as Hr. apply lookup_lt_is_Some_2 in Hr as [x Hx].
  rewrite Hx. apply Hi; [done|]. intros Hp. apply Hq. by eapply fs_inj.
Qed.

Lemma fs_step_refl p f : fs_ok f -> fs_step p f f.
Proof. by split. Qed.

(** A step after which [p] leads to another inode than before, if it does, is one to a new inode. *)
Lemma fs_step_trans p f1 f2 f3 :
  fs_step p f1 f2 -> fs_step p f2 f3 -> (∀ j, dir f2 !! p = Some j -> dir f1 !! p ≠ Some j -> (length (inodes f1) <= j)%nat) ->
  fs_step p f1 f3.
Proof.
  intros [H1 D1 I1] [H2 D2 I2] Hnew. split; [done| |].
  - intros q Hq. by rewrite D2, D1.
  - intros j x Hj Hp. apply I2; [by apply I1|]. intros Hp2. pose proof (Hnew j Hp2 Hp).
    apply lookup_lt_Some in Hj. lia.
Qed.

Lemma io_ok e : io_faults (fs e) = [] -> io e = (Ok tt, e).
Proof. intros Hf. unfold io. by rewrite Hf. Qed.

Lemma set_fs_twice e f f' : set_fs (set_fs e f) f' = set_fs e f'.
Proof. done. Qed.

Lemma set_fs_same e : set_fs e (fs e) = e.
Proof. by destruct e. Qed.

Lemma open_or_create_ok p e :
  fs_ok (fs e) ->
  ∃ i f', open_or_create p e = (Ok i, set_fs e f') ∧ fs_step p (fs e) f' ∧ dir f' !! p = Some i ∧
    match dir (fs e) !! p with
    | Some j => i = j ∧ f' = fs e
    | None => i = length (inodes (fs e)) ∧ inodes f' !! i = Some NewFile
    end.
Proof.
  intros Hf. unfold open_or_create. rewrite (EM_bind_ok io _ e tt e) by apply io_ok, Hf.
  rewrite (EM_bind_ok _ _ e (dir (fs e) !! p) e) by done.
  destruct (dir (fs e) !! p) as [j|] eqn:Ej.
  - exists j, (fs e). rewrite set_fs_same. split_and!; [done|by apply fs_step_refl|done|done..].
  - unfold create. rewrite (fs_new _ Hf). eexists _, _. split; [reflexivity|]. split_and!.
    + split; [split|..]; cbn [io_faults new_faults inodes dir].
      * apply Hf.
      * done.
      * apply Forall_app. split; [apply Hf|]. by apply Forall_singleton.
      * intros q i Hq. rewrite length_app. cbn [length]. destruct (decide (q = p)) as [->|Hne].
        -- rewrite lookup_insert_eq in Hq. injection Hq as <-. lia.
        -- rewrite lookup_insert_ne in Hq by done. apply (fs_range _ Hf) in Hq. lia.
      * intros q1 q2 i H1 H2. destruct (decide (q1 = p)) as [->|N1], (decide (q2 = p)) as [->|N2]; try done.
        -- rewrite lookup_insert_eq in H1. rewrite lookup_insert_ne in H2 by done. injection H1 as <-.
           apply (fs_range _ Hf) in H2. lia.
        -- rewrite lookup_insert_eq in H2. rewrite lookup_insert_ne in H1 by done. injection H2 as <-.
           apply (fs_range _ Hf) in H1. lia.
        -- rewrite lookup_insert_ne in H1, H2 by done. by eapply (fs_inj _ Hf).
      * intros q Hq. by rewrite lookup_insert_ne.
      * intros j x Hj _. by rewrite lookup_app_l by (by eapply lookup_lt_Some).
    + cbn. by rewrite lookup_insert_eq.
    + done.
    + cbn. by rewrite lookup_app_r, Nat.sub_diag by lia.
Qed.

(** The contents of the inode under the path change. *)
Lemma set_inode_step p i x f :
  fs_ok f -> dir f !! p = Some i -> no_faults x ->
  fs_step p f (set_inode f i x) ∧ fs_file (set_inode f i x) p = Some x.
Proof.
  intros Hf Hp Hx. pose proof (fs_range _ Hf _ _ Hp) as Hr. split.
  - split; [split|..]; cbn [set_inode io_faults new_faults inodes dir]; try apply Hf.
    + by apply Forall_insert; [apply Hf|].
    + intros q j Hq. rewrite length_insert. by eapply (fs_range _ Hf).
    + done.
    + intros j y Hj Hne. rewrite list_lookup_insert_ne; [done|]. congruence.
  - unfold fs_file. cbn. rewrite Hp. cbn. by apply list_lookup_insert_eq.
Qed.

Lemma create_trunc_ok p e :
  fs_ok (fs e) ->
  ∃ i f', create_trunc p e = (Ok i, set_fs e f') ∧ fs_step p (fs e) f' ∧ dir f' !! p = Some i ∧
    inodes f' !! i = Some NewFile ∧ fs_file f' p = Some NewFile ∧
    (dir (fs e) !! p = None -> i = length (inodes (fs e))).
Proof.
  intros Hf. destruct (open_or_create_ok p e Hf) as (i & f1 & E & Hs & Hp & Hcase). unfold create_trunc.
  rewrite (EM_bind_ok _ _ _ _ _ E). pose proof (step_ok _ _ _ Hs) as Hf1.
  pose proof (fs_range _ Hf1 _ _ Hp) as Hr. apply lookup_lt_is_Some_2 in Hr as [x Hx].
  rewrite (EM_bind_ok _ _ _ (Some x) (set_fs e f1)) by (unfold gets; cbn; by rewrite Hx).
  assert (no_faults x) as Hnx by (eapply Forall_lookup_1; [apply (fs_quiet _ Hf1)|done]). unfold no_faults in Hnx.
  rewrite Hnx. destruct (set_inode_step p i NewFile f1 Hf1 Hp) as [Hs2 Hfile]; [done|].
  exists i, (set_inode f1 i NewFile). split_and!; [done| |done| |done|].
  - eapply fs_step_trans; [exact Hs|exact Hs2|]. intros j Hj Hne. rewrite Hp in Hj. injection Hj as <-.
    destruct (dir (fs e) !! p); [|by destruct Hcase as [-> _]]. destruct Hcase as [-> _]. done.
  - cbn. apply list_lookup_insert_eq. by eapply lookup_lt_Some.
  - intros E0. rewrite E0 in Hcase. tauto.
Qed.

Lemma put_file_ok p x e :
  fs_ok (fs e) -> is_Some (dir (fs e) !! p) -> no_faults x ->
  ∃ f', put_file p x e = (Ok tt, set_fs e f') ∧ fs_step p (fs e) f' ∧ fs_file f' p = Some x ∧
    dir f' = dir (fs e).
Proof.
  intros Hf [i Hi] Hx. unfold put_file. rewrite (EM_bind_ok _ _ e (dir (fs e) !! p) e) by done. rewrite Hi.
  destruct (set_inode_step p i x (fs e) Hf Hi Hx) as [Hs Hfile]. eexists. by split_and!.
Qed.

Lemma remove_ok p e :
  fs_ok (fs e) -> is_Some (dir (fs e) !! p) ->
  ∃ f', remove p e = (Ok tt, set_fs e f') ∧ fs_step p (fs e) f' ∧ dir f' = delete p (dir (fs e)) ∧
    inodes f' = inodes (fs e).
Proof.
  intros Hf [i Hi]. unfold remove. rewrite (EM_bind_ok io _ e tt e) by apply io_ok, Hf.
  rewrite (EM_bind_ok _ _ e (dir (fs e) !! p) e) by done. rewrite Hi. eexists. split; [reflexivity|].
  split_and!; [|done|done]. split; [split|..]; cbn; try apply Hf.
  - intros q j [_ Hq]%lookup_delete_Some. by eapply (fs_range _ Hf).
  - intros q1 q2 j [_ H1]%lookup_delete_Some [_ H2]%lookup_delete_Some. by eapply (fs_inj _ Hf).
  - intros q Hq. by rewrite lookup_delete_ne.
  - done.
Qed.

(** Closing a log syncs its file. *)
Lemma wal_Close_ok e w p i md fl :
  fs_ok (fs e) -> wals e !! w = Some (mkWH p i md false) -> inodes (fs e) !! i = Some fl ->
  wal_Close w e = (Ok None, set_fs (set_logs e (wal e) (imwal e) (<[w := mkWH p i md true]> (wals e)))
    (set_inode (fs e) i (mkFile (fdata fl) (len (fdata fl)) []))).
Proof.
  intros Hf Hw Hi. assert (no_faults fl) as Hnf by (eapply Forall_lookup_1; [apply (fs_quiet _ Hf)|exact Hi]).
  unfold wal_Close, on_wal. rewrite Hw. cbn [wh_inode wh_mode wh_closed wh_path]. rewrite Hi. cbn [Wal.Close Wal.closed Wal.file].
  by rewrite file_Sync_ok.
Qed.

(** *** Tables *)

Section tables.
Context `{FE : FloatEnv}.

(** The options size the filters of the tables so that a table can be written. *)
Definition filter_fits (o : Options) : Prop :=
  0 < m (NewFilter (FilterExpectedKeys o) (FilterFPRate o)) <= 2 ^ 32 - 8.

Lemma new_table_ok level n e :
  fs_ok (fs e) -> filter_fits (opts e) ->
  ∃ w f', new_table level n e = (Ok (w, tablePath level n), set_fs e f') ∧
    fs_step (tablePath level n) (fs e) f' ∧ is_Some (dir f' !! tablePath level n) ∧
    writes w [] [] ∧ no_faults (TableWriter.file w).
Proof.
  intros Hf Ho. destruct (create_trunc_ok (tablePath level n) e Hf) as (i & f' & E & Hs & Hp & Hi & _).
  unfold new_table. rewrite (EM_bind_ok _ _ _ _ _ E).
  rewrite (EM_bind_ok _ _ _ (Some NewFile) (set_fs e f')) by (unfold gets; cbn; by rewrite Hi).
  rewrite (EM_bind_ok _ _ _ (opts e) (set_fs e f')) by done.
  eexists _, f'. split_and!; [done|done|by eexists| |done].
  by apply Create_writes.
Qed.

(** Closing a writer leaves a complete table under its path. *)
Lemma close_table_ok w p bs cur e :
  writes w bs cur -> no_faults (TableWriter.file w) -> fs_ok (fs e) -> is_Some (dir (fs e) !! p) ->
  ∃ size f' fl, close_table (w, p) e = (Ok size, set_fs e f') ∧ fs_step p (fs e) f' ∧ dir f' = dir (fs e) ∧
    fs_file f' p = Some fl ∧ is_table (fdata fl) (concat bs ++ cur) ∧ size = len (fdata fl) ∧ fdurable fl = size.
Proof.
  intros Hw Hnf Hf Hp. destruct (Close_ok w bs cur Hw) as (w' & size & err & E & Herr).
  destruct (Herr Hnf) as [-> Hnf']. destruct (Close_writes w bs cur w' size Hw E) as (Ht & Hsz & Hdur).
  destruct (put_file_ok p (TableWriter.file w') e Hf Hp Hnf') as (f' & Ep & Hs & Hfile & Hd).
  exists size, f', (TableWriter.file w'). split_and!; try done. unfold close_table. cbn [fst snd].
  rewrite (EM_bind_ok _ _ e (w', size, None) e) by (unfold lift; by rewrite E).
  rewrite (EM_bind_ok _ _ _ _ _ Ep). done.
Qed.
End tables.
