(* ===== verification/EngineDisk.v ===== *)
(** * Package engine: what the directory holds for a later opening

    The manifest is the log of the edits that lead to the version in memory, and the tables of the
    version are complete and synced under numbers below the one that the manifest records. *)

From S2P Require Import Prelude.
From S2P Require Import GoStd.
From S2P Require Import GoIO.
From S2P Require Import Records.
From S2P Require Import Names.
From S2P Require Import Meta.
From S2P Require Import EngineState.
From S2P Require Import EngineFs.

(** Whether the state is known to survive a crash: the logs hold the records of the memtables, and the
    tables the sequence number that the manifest records. *)
Class Logged := logs_kept : bool.

Section disk.
Context `{LG : Logged}.

(** What Open would read of the version set's manifest. *)
Definition logged (v : VersionSet) : VersionSet :=
  match replay emptyVersionSet (fdata (manifest v)) with Some (Ok w) => w | _ => emptyVersionSet end.

(** The edits in the manifest lead to the version. *)
Definition edits_of (v : VersionSet) (es : list VersionEdit) : Prop :=
  fdata (manifest v) = concat (map edit_bytes es) ∧ edits_ok (replicate 7 []) es ∧
  Current v = foldl edited (replicate 7 []) es.

Definition synced (f : FS) (t : TableMeta) : Prop :=
  ∀ fl, fs_file f (tablePath (Level t) (FileNum t)) = Some fl -> fdurable fl = len (fdata fl).

Record disk_ok (f : FS) (v : VersionSet) : Prop := {
  dk_quiet : no_faults (manifest v);
  dk_durable : fdurable (manifest v) = len (fdata (manifest v));
  dk_edits : ∃ es, edits_of v es;
  dk_next : 0 <= nextFileNum (logged v) <= nextFileNum v;
  dk_tables : Forall (λ t, FileNum t < nextFileNum (logged v) ∧ synced f t) (concat (Current v));
  dk_seq : logs_kept = true -> lastSeqNum (logged v) = 0 ∨ ∃ t, t ∈ concat (Current v) ∧ SeqNum (MaxKey t) = lastSeqNum (logged v)
}.

Lemma replay_logged v es :
  edits_of v es ->
  replay emptyVersionSet (fdata (manifest v)) = Some (Ok (logged v)) ∧
  logged v = mkVS (Current v) (last_number NextFileNum_ 0 es) (last_number LastSequence 0 es) (last_number LogNumber_ 0 es) NewFile.
Proof.
  intros (E & Hes & HC). pose proof (replay_edits emptyVersionSet es Hes) as Hr. rewrite <- E in Hr.
  unfold logged. by rewrite Hr, HC.
Qed.

Lemma edits_ok_snoc v es e : edits_ok v es -> wf_edit e -> edit_fits (foldl edited v es) e -> edits_ok v (es ++ [e]).
Proof.
  revert v. induction es as [|x es IH]; intros v Hes Hw Hf; [by split|].
  destruct Hes as (? & ? & Hes). split_and!; [done|done|]. by apply IH.
Qed.

Lemma last_number_snoc g n es e : last_number g n (es ++ [e]) = default (last_number g n es) (g e).
Proof. unfold last_number. by rewrite foldl_app. Qed.

(** A logged edit. *)
Lemma logged_edit v v' e :
  (∃ es, edits_of v es) -> wf_edit e -> edit_fits (Current v) e ->
  fdata (manifest v') = fdata (manifest v) ++ edit_bytes e -> Current v' = edited (Current v) e ->
  (∃ es, edits_of v' es) ∧ nextFileNum (logged v') = default (nextFileNum (logged v)) (NextFileNum_ e) ∧
  lastSeqNum (logged v') = default (lastSeqNum (logged v)) (LastSequence e).
Proof.
  intros (es & Hes) Hw Hf Ed EC. pose proof Hes as (E & Hok & HC).
  assert (edits_of v' (es ++ [e])) as Hes'.
  { split_and!; [|apply edits_ok_snoc; by rewrite <- ?HC|].
    - rewrite Ed, E, map_app, concat_app. cbn [map concat]. by rewrite app_nil_r.
    - by rewrite EC, foldl_app, HC. }
  destruct (replay_logged v es Hes) as [_ ->], (replay_logged v' _ Hes') as [_ ->]. cbn.
  rewrite !last_number_snoc. split_and!; [by eexists|done|done].
Qed.

Lemma synced_step p f f' t :
  fs_ok f -> fs_step p f f' -> tablePath (Level t) (FileNum t) ≠ p -> synced f t -> synced f' t.
Proof. intros Hf Hs Hp Ht fl. rewrite (fs_step_file _ _ _ _ Hf Hs Hp). apply Ht. Qed.

(** A change of another file. *)
Lemma disk_ok_step p f f' v :
  fs_ok f -> fs_step p f f' -> (∀ t, t ∈ concat (Current v) -> tablePath (Level t) (FileNum t) ≠ p) ->
  disk_ok f v -> disk_ok f' v.
Proof.
  intros Hf Hs Hp [H1 H2 H3 H4 H5 H6]. split; try done. rewrite Forall_forall in *. intros t Ht.
  destruct (H5 t Ht). split; [done|]. by eapply synced_step; [..|by apply Hp|].
Qed.

(** Another number is handed out. *)
Lemma disk_ok_vs f v v' :
  disk_ok f v -> manifest v' = manifest v -> Current v' = Current v -> nextFileNum v <= nextFileNum v' -> disk_ok f v'.
Proof.
  intros [H1 H2 (es & H3) H4 H5 H6] Em EC Hn. assert (logged v' = logged v) as El by (unfold logged; by rewrite Em).
  split; rewrite ?El, ?Em, ?EC; try done; [|lia]. exists es. unfold edits_of in *. by rewrite Em, EC.
Qed.

(** What an edit must say of its tables and numbers. *)
Record edit_disk (f : FS) (v : VersionSet) (e : VersionEdit) : Prop := {
  ed_next : nextFileNum (logged v) <= default (nextFileNum (logged v)) (NextFileNum_ e) <= nextFileNum v;
  ed_tables : Forall (λ t, FileNum t < default (nextFileNum (logged v)) (NextFileNum_ e) ∧ synced f t) (AddTables e);
  ed_seq : logs_kept = true -> DeleteTables e = [] ∧
    ∀ s, LastSequence e = Some s -> ∃ t, t ∈ AddTables e ∧ SeqNum (MaxKey t) = s
}.

Lemma concat_edited v edit :
  wf_edit edit -> edit_fits v edit -> ∀ t, t ∈ concat (edited v edit) -> t ∈ concat v ∨ t ∈ AddTables edit.
Proof.
  intros Hw (Ha & Hd & _) t. unfold edited. destruct (fits_nonneg edit Hw) as [F1 _].
  rewrite concat_add_all by (apply (F1 (delete_all v _)); unfold len in *; by rewrite len_delete_all).
  intros [Ht|Ht]%elem_of_app; [left|by right]. eapply elem_of_sublist; [exact Ht|apply concat_delete_all].
Qed.

Lemma concat_edited_adds v e : wf_edit e -> edit_fits v e -> DeleteTables e = [] -> ∀ t, t ∈ concat (edited v e) <-> t ∈ concat v ∨ t ∈ AddTables e.
Proof.
  intros Hw (Ha & _) Hd t. unfold edited. rewrite Hd. cbn [delete_all]. destruct (fits_nonneg e Hw) as [F1 _].
  rewrite concat_add_all by by apply F1. apply elem_of_app.
Qed.

Lemma disk_ok_edit f v v' e :
  disk_ok f v -> wf_edit e -> edit_fits (Current v) e -> edit_disk f v e ->
  manifest v' = mkFile (fdata (manifest v) ++ edit_bytes e) (len (fdata (manifest v) ++ edit_bytes e)) [] ->
  Current v' = edited (Current v) e -> nextFileNum v' = nextFileNum v -> disk_ok f v'.
Proof.
  intros [H1 H2 H3 H4 H5 H6] Hw Hf [E1 E2 E3] Em EC En.
  destruct (logged_edit v v' e H3 Hw Hf ltac:(by rewrite Em) EC) as (Hes & Hn & Hs).
  split; rewrite ?Em; try done.
  - rewrite Hn. lia.
  - rewrite Hn, EC. rewrite Forall_forall in *. intros t [Ht|Ht]%(concat_edited _ _ Hw Hf); [|by apply E2]. destruct (H5 t Ht). split; [lia|done].
  - intros Hlg. destruct (E3 Hlg) as [Hd E4]. pose proof (concat_edited_adds _ e Hw Hf Hd) as Hc. rewrite <- EC in Hc.
    rewrite Hs. destruct (LastSequence e) as [s|]; cbn [default].
    + right. destruct (E4 s eq_refl) as (t & Ht & E). exists t. split; [apply Hc; by right|done].
    + destruct (H6 Hlg) as [?|(t & Ht & E)]; [by left|right]. exists t. split; [apply Hc; by left|done].
Qed.

Lemma disk_ok_empty f v : manifest v = NewFile -> Current v = replicate 7 [] -> 0 <= nextFileNum v -> disk_ok f v.
Proof.
  intros Em EC Hn. assert (logged v = emptyVersionSet) as El by (unfold logged; by rewrite Em).
  split; rewrite ?El, ?Em, ?EC; [done|done| |done|constructor|by left].
  exists []. unfold edits_of. by rewrite Em, EC.
Qed.
End disk.

Lemma disk_ok_forget (LG : Logged) f v : disk_ok (LG := LG) f v -> disk_ok (LG := false) f v.
Proof. by intros [H1 H2 H3 H4 H5 H6]. Qed.
