(* ===== verification/EngineFlow.v ===== *)
(** * Package engine: what writes and flushes do to the contents

    The invariant of the engine on a file system without faults, and the effect of putting a
    record, of rotating the memtable and of flushing it. *)

From S2P Require Import Prelude.
From S2P Require Import GoStd.
From S2P Require Import GoIO.
From S2P Require Import Records.
From S2P Require Import Skiplist.
From S2P Require Import Versions.
From S2P Require Import Memtable.
From S2P Require Import Config.
From S2P Require Import Wal.
From S2P Require Import Filter.
From S2P Require Import Blocks.
From S2P Require Import BlockCache.
From S2P Require Import Names.
From S2P Require Import TableWriter.
From S2P Require Import TableReader.
From S2P Require Import Meta.
From S2P Require Import Scan.
From S2P Require Import EngineState.
From S2P Require Import EngineRead.
From S2P Require Import EngineCompact.
From S2P Require Import EngineWrite.
From S2P Require Import EngineFs.
From S2P Require Import EngineDisk.

(** ** The invariant *)

Definition total_size (l : list Rec) : Z := foldr (λ r n, Records.Size r + n) 0 l.

(** A log in use: its object, its number and the records that it holds. *)
Record Log := mkLog { log_w : nat; log_num : Z; log_recs : list Rec }.

(** It is open under its path and holds the records, synced if the mode is to sync. *)
Definition open_log (md : SyncMode) (ws : list WalHandle) (f : FS) (l : Log) : Prop :=
  ∃ i fl, ws !! log_w l = Some (mkWH (walPath (log_num l)) i md false) ∧
    dir f !! walPath (log_num l) = Some i ∧ inodes f !! i = Some fl ∧ fdata fl = wal_bytes (log_recs l) ∧
    (md = SyncBatch -> fdurable fl = len (fdata fl)).

(** The logs in use are those in the directory, in the order of their numbers. *)
Record logs_ok (logs : list Log) (e : Engine) : Prop := {
  lo_open : Forall (open_log (Mode (opts e)) (wals e) (fs e)) logs;
  lo_sorted : StronglySorted (λ l l', log_num l < log_num l') logs;
  lo_range : Forall (λ l, 0 <= log_num l < nextFileNum (vs e) ∧ log_num l < 10 ^ 6) logs;
  lo_dir : ∀ name, is_Some (dir (fs e) !! WalPath name) -> ∃ l, l ∈ logs ∧ WalPath name = walPath (log_num l)
}.

Section flow.
Context `{FE : FloatEnv} `{LG : Logged}.

(** What holds at every step of the operations: the file numbers in use are below [nextFileNum]. *)
Record base_ok (D : gmap Z (list (list Rec))) (lm li : list Rec) (logs : list Log) (e : Engine) : Prop := {
  bo_view : view D lm li e;
  bo_fs : fs_ok (fs e);
  bo_disk : disk_ok (fs e) (vs e);
  bo_version : version_ok (Current (vs e)) ∧ 2 <= len (Current (vs e));
  bo_numbers : 0 <= nextFileNum (vs e) ∧ ∀ n bs, D !! n = Some bs -> n < nextFileNum (vs e);
  bo_small : Forall small_rec (lm ++ li);
  bo_opts : filter_fits (opts e) ∧ 1 <= SkiplistMaxLevel (opts e) ∧ 0 < MemtableSize (opts e) <= 2 ^ 28;
  bo_logs : logs_ok logs e
}.

(** What writes and flushes leave as it is. *)
Record same_rest (e e' : Engine) : Prop := {
  sr_opts : opts e' = opts e;
  sr_seq : seqNum e' = seqNum e;
  sr_tables : tableCache e' = tableCache e ∧ rworld e' = rworld e;
  sr_snapshots : snapshots e' = snapshots e;
  sr_flushes : flushChan e' = flushChan e
}.

#[export] Instance same_rest_preorder : PreOrder same_rest.
Proof.
  split; [by split|]. intros e1 e2 e3 [? ? [? ?] ? ?] [? ? [? ?] ? ?]. split; try split; congruence.
Qed.

(** *** Growing the tables *)

Lemma table_ok_mono D D' f f' p t bs :
  D ⊆ D' -> fs_ok f -> fs_step p f f' -> tablePath (Level t) (FileNum t) ≠ p -> table_ok D f t bs -> table_ok D' f' t bs.
Proof.
  intros HD Hf Hs Hp [H1 (fl & Hfl & Hto) H3 H4 H5 H6]. split; try done.
  - by eapply lookup_weaken.
  - exists fl. split; [|done]. by rewrite (fs_step_file _ _ _ _ Hf Hs Hp).
Qed.

Lemma tables_ok_mono D D' f f' p ts :
  D ⊆ D' -> fs_ok f -> fs_step p f f' -> (∀ t bs, t ∈ ts -> table_ok D f t bs -> tablePath (Level t) (FileNum t) ≠ p) ->
  Forall (λ t, ∃ bs, table_ok D f t bs) ts -> Forall (λ t, ∃ bs, table_ok D' f' t bs) ts.
Proof.
  intros HD Hf Hs Hp Ht. rewrite Forall_forall in *. intros t Hin. destruct (Ht t Hin) as (bs & Hb).
  exists bs. eapply table_ok_mono; try done. by eapply Hp.
Qed.

Lemma table_recs_mono D D' f t bs : D ⊆ D' -> table_ok D f t bs -> table_recs D' t = table_recs D t.
Proof. intros HD Ht. unfold table_recs. by rewrite (tok_disk _ _ _ _ Ht), (lookup_weaken _ _ _ _ (tok_disk _ _ _ _ Ht) HD). Qed.

Lemma level_recs_mono D D' f ts :
  D ⊆ D' -> Forall (λ t, ∃ bs, table_ok D f t bs) ts -> level_recs D' ts = level_recs D ts.
Proof.
  intros HD Ht. unfold level_recs. f_equal. apply map_ext_in. intros t Hin%list_elem_of_In.
  rewrite Forall_forall in Ht. destruct (Ht t Hin) as (bs & Hb). by eapply table_recs_mono.
Qed.

Lemma cached_ok_mono D D' key b : D ⊆ D' -> cached_ok D key b -> cached_ok D' key b.
Proof.
  intros HD (pre & blk & post & H & ? & ?). exists pre, blk, post. split_and!; [|done..]. by eapply lookup_weaken.
Qed.

Lemma caches_ok_mono D D' tc w : D ⊆ D' -> caches_ok D tc w -> caches_ok D' tc w.
Proof.
  intros HD (Hc & Hf & Hcl & Hrd & Hinj). split_and!; [|done|done| |done].
  - eapply coherent_impl; [exact Hc|]. intros key b. by apply cached_ok_mono.
  - intros n r Hn. destruct (Hrd n r Hn) as (bs & (Hwf & Hfd & HD') & ? & ?). exists bs.
    split_and!; [|done|done]. split_and!; [done|done|]. by eapply lookup_weaken.
Qed.

(** *** The parts of the invariant under changes of one part of the state *)

Lemma open_log_step p md ws f f' l :
  fs_ok f -> open_log md ws f l -> fs_step p f f' -> p ≠ walPath (log_num l) -> open_log md ws f' l.
Proof.
  intros Hf (i & fl & Hw & Hd & Hi & Hrest) Hs Hp. exists i, fl. split_and!; [done| | |by apply Hrest..].
  - by rewrite (step_dir _ _ _ Hs).
  - apply (step_inodes _ _ _ Hs); [done|]. intros Hp'. apply Hp. by eapply fs_inj.
Qed.

Lemma tablePath_not_wal l n name : tablePath l n ≠ WalPath name.
Proof. done. Qed.

Lemma table_path_step l n f f' name :
  fs_step (tablePath l n) f f' -> dir f' !! WalPath name = dir f !! WalPath name.
Proof. intros Hs. by apply (step_dir _ _ _ Hs). Qed.

Lemma logs_ok_table logs e l n f' :
  fs_ok (fs e) -> logs_ok logs e -> fs_step (tablePath l n) (fs e) f' -> logs_ok logs (set_fs e f').
Proof.
  intros Hf [Ho Hs Hr Hd] Hstep. split; cbn; try done.
  - eapply Forall_impl; [exact Ho|]. intros lg Hl. by eapply open_log_step.
  - intros name. rewrite (table_path_step _ _ _ _ _ Hstep). apply Hd.
Qed.

(** A file of no table of the version changes in the directory of the tables. *)
Lemma base_ok_table D lm li logs e l n f' :
  base_ok D lm li logs e -> fs_step (tablePath l n) (fs e) f' ->
  (∀ t bs, t ∈ concat (Current (vs e)) -> table_ok D (fs e) t bs -> tablePath (Level t) (FileNum t) ≠ tablePath l n) ->
  base_ok D lm li logs (set_fs e f').
Proof.
  intros [[Hm Him Ht Hc] Hf Hman Hv Hn Hs Ho Hl] Hstep Hp. split; cbn; try done.
  - split; cbn; try done. by eapply tables_ok_mono.
  - apply Hstep.
  - eapply disk_ok_step; [exact Hf|exact Hstep| |exact Hman]. intros t Hin. rewrite Forall_forall in Ht.
    destruct (Ht t Hin) as (bs & Hb). by eapply Hp.
  - by eapply logs_ok_table.
Qed.

Lemma base_ok_vs D lm li logs e v :
  base_ok D lm li logs e -> Current v = Current (vs e) -> disk_ok (fs e) v ->
  nextFileNum (vs e) <= nextFileNum v -> base_ok D lm li logs (set_vs e v).
Proof.
  intros [[Hm Him Ht Hc] Hf Hman Hv Hn Hs Ho [L1 L2 L3 L4]] HC Hman' Hle. split; cbn; try done.
  - split; cbn; try done. by rewrite HC.
  - by rewrite HC.
  - destruct Hn as [Hn1 Hn2]. split; [lia|]. intros n bs HD. specialize (Hn2 n bs HD). lia.
  - split; cbn; try done. eapply Forall_impl; [exact L3|]. cbn. lia.
Qed.

Lemma next_file_num_ok D lm li logs e :
  base_ok D lm li logs e -> nextFileNum (vs e) < 2 ^ 64 - 1 ->
  ∃ v, next_file_num e = (Ok (nextFileNum (vs e)), set_vs e v) ∧ base_ok D lm li logs (set_vs e v) ∧
    nextFileNum v = nextFileNum (vs e) + 1 ∧ Current v = Current (vs e) ∧ manifest v = manifest (vs e).
Proof.
  intros He Hlt. pose proof (bo_numbers _ _ _ _ _ He) as [Hn _]. pose proof (bo_disk _ _ _ _ _ He) as Hman.
  unfold next_file_num, NextFileNum. eexists. split; [reflexivity|]. cbn.
  rewrite u64_small by lia. split_and!; [|done|done|done].
  apply base_ok_vs; cbn; [done|done| |lia]. eapply disk_ok_vs; [exact Hman|done|done|cbn; lia].
Qed.

(** Logging an edit that fits. *)
Lemma log_and_apply_ok e edit :
  no_faults (manifest (vs e)) -> wf_edit edit -> edit_fits (Current (vs e)) edit ->
  ∃ v, log_and_apply edit e = (Ok None, set_vs e v) ∧ Current v = edited (Current (vs e)) edit ∧
    nextFileNum v = nextFileNum (vs e) ∧
    manifest v = mkFile (fdata (manifest (vs e)) ++ edit_bytes edit) (len (fdata (manifest (vs e)) ++ edit_bytes edit)) [].
Proof.
  intros Hman Hw Hf. unfold log_and_apply. rewrite LogAndApply_ok by done. eexists. by split_and!.
Qed.

(** No table of the version has the path of a number that is not in use. *)
Lemma fresh_table_path D f level n t bs :
  table_ok D f t bs -> 0 <= n < 10 ^ 6 -> D !! n = None -> tablePath (Level t) (FileNum t) ≠ tablePath level n.
Proof.
  intros Ht Hn Hne E. destruct (tok_num _ _ _ _ Ht). apply tablePath_inj in E as [_ <-]; [|lia..].
  by rewrite (tok_disk _ _ _ _ Ht) in Hne.
Qed.

Lemma number_fresh D lm li logs e n : base_ok D lm li logs e -> nextFileNum (vs e) <= n -> D !! n = None.
Proof.
  intros He Hn. destruct (D !! n) as [bs|] eqn:E; [|done]. apply (bo_numbers _ _ _ _ _ He) in E. lia.
Qed.

(** *** Logs *)

Lemma log_path_fresh logs e n :
  logs_ok logs e -> nextFileNum (vs e) <= n < 10 ^ 6 -> 0 <= n -> dir (fs e) !! walPath n = None.
Proof.
  intros [_ _ Hr Hd] Hn Hn0. destruct (dir (fs e) !! walPath n) as [i|] eqn:E; [|done].
  destruct (Hd (wal_name n)) as (l & Hl & El); [by exists i|]. rewrite Forall_forall in Hr.
  destruct (Hr l Hl). change (WalPath (wal_name n)) with (walPath n) in El. apply walPath_inj in El; [lia|lia..].
Qed.

Lemma open_log_wals md ws ws' f l : open_log md ws f l -> open_log md (ws ++ ws') f l.
Proof.
  intros (i & fl & Hw & Hrest). exists i, fl. split; [|done]. rewrite lookup_app_l; [done|].
  by eapply lookup_lt_Some.
Qed.

(** A new log under the next number. *)
Lemma new_log_ok logs e v n :
  fs_ok (fs e) -> logs_ok logs e -> n = nextFileNum (vs e) -> 0 <= n < 10 ^ 6 -> n < nextFileNum v ->
  ∃ f' h, wal_Open (walPath n) (Mode (opts e)) (set_vs e v) =
      (Ok (length (wals e)), set_logs (set_fs (set_vs e v) f') (wal e) (imwal e) (wals e ++ [h])) ∧
    fs_step (walPath n) (fs e) f' ∧
    ∀ w iw, logs_ok (logs ++ [mkLog (length (wals e)) n []]) (set_logs (set_fs (set_vs e v) f') w iw (wals e ++ [h])).
Proof.
  intros Hf Hlogs Hn Hlt Hv. pose proof (log_path_fresh logs e n Hlogs ltac:(lia) ltac:(lia)) as Hfresh.
  destruct (open_or_create_ok (walPath n) (set_vs e v) Hf) as (i & f' & E & Hs & Hd & Hcase). cbn [fs set_vs] in *.
  rewrite Hfresh in Hcase. destruct Hcase as [-> Hi]. exists f', (mkWH (walPath n) (length (inodes (fs e))) (Mode (opts e)) false).
  split_and!; [|done|].
  - unfold wal_Open. rewrite (EM_bind_ok _ _ _ _ _ E). done.
  - intros w iw. destruct Hlogs as [Ho Hsort Hr Hdir].
    assert (Forall (λ l, log_num l < n) logs) as Hless by (eapply Forall_impl; [exact Hr|cbn; lia]).
    split; cbn [fs set_logs set_fs set_vs opts wals vs].
    + apply Forall_app. split.
      * rewrite Forall_forall in *. intros l Hl. apply open_log_wals.
        apply (open_log_step _ _ _ _ _ _ Hf (Ho l Hl) Hs). intros El%walPath_inj; [|lia|].
        -- specialize (Hless l Hl). lia.
        -- destruct (Hr l Hl). lia.
      * apply Forall_singleton. exists (length (inodes (fs e))), NewFile. cbn [log_w log_num log_recs]. split_and!; try done.
        by rewrite lookup_app_r, Nat.sub_diag by lia.
    + apply StronglySorted_app. split_and!; [|done|by repeat constructor].
      intros l l' Hl ->%list_elem_of_singleton. rewrite Forall_forall in Hless. by apply Hless.
    + apply Forall_app. split; [|apply Forall_singleton; cbn; lia]. eapply Forall_impl; [exact Hr|cbn; lia].
    + intros name Hname. destruct (decide (WalPath name = walPath n)) as [En|Hne].
      * eexists. split; [by apply elem_of_app; right; apply list_elem_of_singleton|done].
      * rewrite (step_dir _ _ _ Hs) in Hname by done. destruct (Hdir name Hname) as (l & Hl & El).
        exists l. split; [by apply elem_of_app; left|done].
Qed.

(** The logs in use: the one of the flush that is pending, if there is one, and the one that is
    written to, after logs that New has left empty; they hold the records of the immutable memtable and of the memtable. *)
Definition log_state (e : Engine) (old : option Log) (logs : list Log) (lm li : list Rec) : Prop :=
  if CrashRecovery (opts e) then
    ∃ dead l, logs = dead ++ option_list old ++ [l] ∧ Forall (λ d, log_recs d = []) dead ∧
      wal e = Some (log_w l) ∧
      (logs_kept = true -> log_recs l ≡ₚ lm ∧ ∀ l0, old = Some l0 -> log_recs l0 ≡ₚ li)
  else logs = [] ∧ old = None.

Lemma log_state_eq e e' old logs lm lm' li :
  log_state e old logs lm li -> opts e' = opts e -> wal e' = wal e -> lm ≡ₚ lm' -> log_state e' old logs lm' li.
Proof.
  unfold log_state. intros Hl -> -> Hp. destruct (CrashRecovery (opts e)); [|done].
  destruct Hl as (dead & l & ? & ? & ? & E). exists dead, l. split_and!; [done..|]. by rewrite <- Hp.
Qed.

Definition mt_ok (lm : list Rec) (e : Engine) : Prop :=
  (∃ m, mts e !! mt e = Some m ∧ Memtable.size m = total_size lm ∧ Memtable.maxSize m = MemtableSize (opts e)) ∧
  immt e ≠ Some (mt e).

(** A flush task: the memtable is the immutable one, the table's file is there and still empty, its
    number is not in use, and the old log is that of the memtable. *)
Record task_ok (D : gmap Z (list (list Rec))) (li : list Rec) (old : option Log) (e : Engine) (t : flushTask) : Prop := {
  tk_mt : immt e = Some (task_mt t);
  tk_writer : writes (writer t) [] [] ∧ no_faults (TableWriter.file (writer t));
  tk_path : writer_path t = tablePath 0 (task_fileNum t) ∧ is_Some (dir (fs e) !! tablePath 0 (task_fileNum t));
  tk_num : 0 <= task_fileNum t < nextFileNum (vs e) ∧ task_fileNum t < 10 ^ 6 ∧ D !! task_fileNum t = None;
  tk_old : oldWal t = log_w <$> old ∧ oldWalPath t = (λ l, walPath (log_num l)) <$> old
}.

Definition log_edit (n : Z) : VersionEdit := mkVE [] [] None None (Some n).

Lemma log_edit_ok v n : version_ok v -> 0 <= n < 2 ^ 64 -> wf_edit (log_edit n) ∧ edit_fits v (log_edit n) ∧ edited v (log_edit n) = v.
Proof.
  intros Hv Hn. split_and!; [|split_and!|done].
  - split_and!; [apply Forall_nil_2|apply Forall_nil_2|exact Hn|done|done].
  - apply Forall_nil_2.
  - apply Forall_nil_2.
  - cbn. by rewrite app_nil_r.
  - apply Forall_nil_2.
Qed.

Lemma log_edit_disk f v n : disk_ok f v -> edit_disk f v (log_edit n).
Proof. intros Hd. pose proof (dk_next _ _ Hd). split; cbn; [lia|constructor|done]. Qed.

Lemma base_ok_view D lm li lm' li' logs e e' :
  base_ok D lm li logs e -> view D lm' li' e' -> Forall small_rec (lm' ++ li') ->
  fs e' = fs e -> vs e' = vs e -> opts e' = opts e -> wals e' = wals e -> base_ok D lm' li' logs e'.
Proof.
  intros [Hvw Hf Hman Hv Hn Hs Ho [L1 L2 L3 L4]] Hview Hsm E1 E2 E3 E4. split; rewrite ?E1, ?E2, ?E3, ?E4; try done.
  split; by rewrite ?E1, ?E2, ?E3, ?E4.
Qed.

(** The changes of a log at its path and in the store. *)
Lemma base_ok_logs D lm li logs logs' e n v f' w iw ws :
  base_ok D lm li logs e -> fs_step (walPath n) (fs e) f' -> Current v = Current (vs e) -> disk_ok (fs e) v ->
  nextFileNum (vs e) <= nextFileNum v -> logs_ok logs' (set_logs (set_fs (set_vs e v) f') w iw ws) ->
  base_ok D lm li logs' (set_logs (set_fs (set_vs e v) f') w iw ws).
Proof.
  intros [[Hm Him Ht Hc] Hf Hman Hv Hn Hs Ho _] Hstep HC Hman' Hle Hl. split; cbn; try done.
  - split; cbn; try done. rewrite HC. by eapply tables_ok_mono.
  - apply Hstep.
  - by eapply disk_ok_step.
  - by rewrite HC.
  - destruct Hn as [Hn1 Hn2]. split; [lia|]. intros m bs HD. specialize (Hn2 m bs HD). lia.
Qed.

Lemma rotate_wal_ok D lm li pre l e :
  base_ok D lm li (pre ++ [l]) e -> wal e = Some (log_w l) -> nextFileNum (vs e) < 10 ^ 6 ->
  ∃ l' f' v ws, let e' := set_logs (set_fs (set_vs e v) f') (Some (log_w l')) (wal e) ws in
    rotate_wal e = (Ok (Some (log_w l), Some (walPath (log_num l))), e') ∧
    base_ok D lm li ((pre ++ [l]) ++ [l']) e' ∧ log_recs l' = [] ∧
    nextFileNum v = nextFileNum (vs e) + 1 ∧ Current v = Current (vs e).
Proof.
  intros He Hw Hlt. pose proof (bo_numbers _ _ _ _ _ He) as [Hn0 _]. pose proof (bo_logs _ _ _ _ _ He) as Hlogs.
  destruct (proj1 (Forall_app _ _ _) (lo_open _ _ Hlogs)) as [_ (i & fl & Hl & _)%Forall_singleton].
  set (n := nextFileNum (vs e)) in *. set (e1 := set_logs e (wal e) (wal e) (wals e)).
  assert (base_ok D lm li (pre ++ [l]) e1) as He1.
  { apply (base_ok_view D lm li lm li _ e); [done| |apply He|done..]. by destruct (bo_view _ _ _ _ _ He). }
  destruct (next_file_num_ok D lm li (pre ++ [l]) e1 He1) as (v & En & Hev & Hv & HC & Hmf); [cbn; fold n; lia|].
  change (nextFileNum (vs e1)) with n in En, Hv. change (Current (vs e1)) with (Current (vs e)) in HC.
  destruct (new_log_ok (pre ++ [l]) e1 v n) as (f' & h & Eo & Hstep & Hlogs');
    [apply He1|apply He1|done|lia|lia|].
  destruct (log_edit_ok (Current v) n) as (Hwf & Hfit & Hed); [rewrite HC; apply He|lia|].
  set (e2 := set_logs (set_fs (set_vs e1 v) f') (Some (length (wals e))) (wal e) (wals e ++ [h])).
  destruct (log_and_apply_ok e2 (log_edit n)) as (v' & El & HC' & Hv' & Hman'); [apply Hev|done|done|].
  cbn [vs set_logs set_fs set_vs e2] in HC', Hv'. rewrite Hed in HC'.
  exists (mkLog (length (wals e)) n []), f', v', (wals e ++ [h]). cbn zeta. cbn [log_w log_recs]. split_and!.
  - unfold rotate_wal. rewrite (EM_bind_ok _ _ e (wal e) e) by done. cbv beta.
    rewrite (EM_bind_ok _ _ e tt e1) by done.
    rewrite (EM_bind_ok _ _ e1 (Some (walPath (log_num l))) e1); cycle 1.
    { unfold wal_Path, gets. cbn. rewrite Hw. cbn. by rewrite Hl. }
    rewrite (EM_bind_ok _ _ _ _ _ En). cbv beta.
    rewrite (EM_bind_ok _ _ _ (Mode (opts e)) (set_vs e1 v)) by done. cbv beta.
    rewrite (EM_bind_ok _ _ _ _ _ Eo). cbv beta. rewrite (EM_bind_ok _ _ _ tt e2) by done.
    fold (log_edit n). rewrite (EM_bind_ok _ _ _ _ _ El). unfold e2, e1. by rewrite Hw.
  - apply (base_ok_logs _ _ _ (pre ++ [l]) _ e n); [done|done|congruence| |fold n; lia|].
    { pose proof (bo_disk _ _ _ _ _ Hev) as Hd. eapply (disk_ok_edit (fs e) v v' (log_edit n)); try done. by apply log_edit_disk. }
    destruct (Hlogs' (Some (length (wals e))) (wal e)) as [L1 L2 L3 L4]. split; [done|done| |done].
    cbn in L3 |- *. rewrite Hv'. exact L3.
  - done.
  - fold n. lia.
  - congruence.
Qed.

Lemma base_ok_mems D lm li logs e m im ms fl lm' li' :
  base_ok D lm li logs e ->
  (∃ x, ms !! m = Some x ∧ holds x lm') ->
  match im with Some i => ∃ x, ms !! i = Some x ∧ holds x li' | None => li' = [] end ->
  Forall small_rec (lm' ++ li') -> base_ok D lm' li' logs (set_mems e m im ms fl).
Proof.
  intros He Hm Him Hs. apply (base_ok_view D lm li lm' li' _ e); [done| |done..].
  destruct (bo_view _ _ _ _ _ He). by split.
Qed.

(** The log part of rotate, whether there are logs or not. *)
Lemma rotate_logs_ok D lm li logs e :
  base_ok D lm li logs e -> log_state e None logs lm [] -> nextFileNum (vs e) < 10 ^ 6 ->
  ∃ old logs' e',
    (if CrashRecovery (opts e) then rotate_wal else mret (None, None)) e =
      (Ok (log_w <$> old, (λ l, walPath (log_num l)) <$> old), e') ∧
    base_ok D lm li logs' e' ∧ log_state e' old logs' [] lm ∧ same_rest e e' ∧
    (mt e', immt e', mts e', flips e') = (mt e, immt e, mts e, flips e) ∧
    nextFileNum (vs e) <= nextFileNum (vs e') <= nextFileNum (vs e) + 1 ∧ Current (vs e') = Current (vs e).
Proof.
  intros He Hl Hlt. unfold log_state in Hl. destruct (CrashRecovery (opts e)) eqn:Ecr.
  - destruct Hl as (dead & l & -> & Hdead & Hw & Hp). cbn [option_list app] in He.
    destruct (rotate_wal_ok D lm li dead l e He Hw Hlt) as (l' & f' & v & ws & E & He' & Hl' & Hv & HC).
    eexists (Some l), _, _. split_and!; [exact E|exact He'| |by split|done|cbn; lia..|exact HC].
    unfold log_state. cbn [opts set_logs set_fs set_vs]. rewrite Ecr. exists dead, l'.
    split_and!; [by rewrite <- app_assoc|done|done|]. intros Hlg. destruct (Hp Hlg) as [Hp' _].
    split; [by rewrite Hl'|]. by intros l0 [= <-].
  - destruct Hl as [-> _]. exists None, [], e. split_and!; [done|done| |by split|done|lia..|done].
    unfold log_state. by rewrite Ecr.
Qed.

Lemma mt_New_ok e :
  1 <= SkiplistMaxLevel (opts e) ->
  ∃ m, mt_New e = (Ok (length (mts e)), set_mems e (mt e) (immt e) (mts e ++ [m]) (flips e)) ∧
    holds m [] ∧ Memtable.size m = 0 ∧ Memtable.maxSize m = u64 (MemtableSize (opts e)).
Proof.
  intros Ho. eexists. split_and!; [reflexivity| |done|done]. apply New_holds. lia.
Qed.

(** Rotating moves the memtable's records to the immutable memtable and makes the flush task. *)
Lemma rotate_ok D lm logs e :
  base_ok D lm [] logs e -> log_state e None logs lm [] -> nextFileNum (vs e) + 2 <= 10 ^ 6 ->
  ∃ t e' old logs', rotate e = (Ok t, e') ∧ base_ok D [] lm logs' e' ∧ mt_ok [] e' ∧
    log_state e' old logs' [] lm ∧ task_ok D lm old e' t ∧ same_rest e e' ∧
    nextFileNum (vs e') <= nextFileNum (vs e) + 2 ∧ Current (vs e') = Current (vs e).
Proof.
  intros He Hl Hlt. destruct (bo_opts _ _ _ _ _ He) as (Ho1 & Ho2 & Ho3).
  pose proof (bo_small _ _ _ _ _ He) as Hsm. rewrite app_nil_r in Hsm.
  destruct (view_mt _ _ _ _ (bo_view _ _ _ _ _ He)) as (m & Hm & Hh).
  set (e1 := set_mems e (mt e) (Some (mt e)) (mts e) (flips e)).
  assert (base_ok D lm lm logs e1) as He1.
  { eapply base_ok_mems; [exact He|by exists m|by exists m|by apply Forall_app]. }
  destruct (rotate_logs_ok D lm lm logs e1 He1) as (old & logs' & e2 & E2 & He2 & Hl2 & [So Ss [St1 St2] Sn Sf] & Em & Hn2 & HC2);
    [exact Hl|cbn; lia|]. cbn in Hn2, HC2, So, Ss, St1, St2, Sn, Sf. injection Em as Em1 Em2 Em3 Em4.
  destruct (mt_New_ok e2) as (m' & Enew & Hh' & Hsz & Hmax); [by rewrite So|].
  set (e3 := set_mems e2 (length (mts e2)) (immt e2) (mts e2 ++ [m']) (flips e2)).
  assert (base_ok D [] lm logs' e3) as He3.
  { eapply base_ok_mems; [exact He2| | |done].
    - exists m'. split; [|done]. by rewrite lookup_app_r, Nat.sub_diag by lia.
    - rewrite Em2. exists m. split; [|done]. rewrite Em3. rewrite lookup_app_l; [done|]. by eapply lookup_lt_Some. }
  destruct (next_file_num_ok D [] lm logs' e3 He3) as (v & En & He4 & Hv & HC4 & _); [cbn; lia|].
  pose proof (bo_numbers _ _ _ _ _ He3) as [Hn0 _]. change (vs e3) with (vs e2) in En, Hv, HC4, Hn0.
  set (n := nextFileNum (vs e2)) in *. assert (0 <= n < 10 ^ 6) as Hn by lia.
  destruct (new_table_ok 0 n (set_vs e3 v)) as (w & f' & Et & Hstep & Hdir & Hw & Hnf); [apply He4|apply He4|].
  assert (D !! n = None) as HD by (eapply number_fresh; [exact He3|done]).
  exists (mkTask ((λ l, walPath (log_num l)) <$> old) (log_w <$> old) (mt e) w (tablePath 0 n) n), (set_fs (set_vs e3 v) f'), old, logs'.
  split_and!.
  - unfold rotate. rewrite (EM_bind_ok _ _ e (mt e) e) by done. cbv beta. rewrite (EM_bind_ok _ _ e tt e1) by done.
    rewrite (EM_bind_ok _ _ e1 (CrashRecovery (opts e1)) e1) by done. cbv beta. rewrite (EM_bind_ok _ _ _ _ _ E2). cbv beta iota.
    rewrite (EM_bind_ok _ _ _ _ _ Enew). cbv beta. rewrite (EM_bind_ok _ _ _ tt e3) by done.
    rewrite (EM_bind_ok _ _ _ _ _ En). cbv beta. rewrite (EM_bind_ok _ _ _ _ _ Et). done.
  - eapply base_ok_table; [exact He4|exact Hstep|]. intros t bs Ht Hok. by eapply fresh_table_path.
  - split; cbn.
    + exists m'. split_and!; [by rewrite lookup_app_r, Nat.sub_diag by lia|done|]. rewrite Hmax, So, u64_small; [done|lia].
    + rewrite Em2. intros [= Ei]. apply lookup_lt_Some in Hm. rewrite Em3 in Ei. cbn in Ei. lia.
  - unfold log_state in *. cbn [opts set_fs set_vs e3 set_mems wal]. exact Hl2.
  - split; cbn; [by rewrite Em2|done|done|split_and!; [lia..|done]|done].
  - by split.
  - cbn. lia.
  - cbn. congruence.
Qed.

(** *** Putting a record *)

Lemma total_size_cons r l : total_size (r :: l) = Records.Size r + total_size l.
Proof. done. Qed.

Lemma total_size_nonneg l : 0 <= total_size l.
Proof. induction l as [|r l IH]; [done|]. rewrite total_size_cons. pose proof (Size_range r). lia. Qed.

Lemma total_size_app l1 l2 : total_size (l1 ++ l2) = total_size l1 + total_size l2.
Proof. induction l1 as [|x l1 IH]; [done|]. cbn [app]. rewrite !total_size_cons, IH. lia. Qed.

#[export] Instance total_size_Permutation : Proper ((≡ₚ) ==> (=)) total_size.
Proof. induction 1; rewrite ?total_size_cons; lia. Qed.

(** The log gets the record. *)
Lemma on_wal_ok {A} logs pre l e (m : WAL -> res (WAL * A)) i fl l' a :
  fs_ok (fs e) -> logs_ok logs e -> logs = pre ++ [l] ->
  wals e !! log_w l = Some (mkWH (walPath (log_num l)) i (Mode (opts e)) false) -> inodes (fs e) !! i = Some fl ->
  m (mkWAL fl (Mode (opts e)) false) = Ok (l', a) -> Wal.closed l' = false ->
  on_wal (log_w l) m e = (Ok a, set_fs e (set_inode (fs e) i (Wal.file l'))).
Proof.
  intros Hf Hlogs -> Hw Hi Hm Hc. unfold on_wal. rewrite Hw. cbn [wh_inode wh_mode wh_closed wh_path]. rewrite Hi, Hm.
  rewrite Hc. rewrite list_insert_id by done. by destruct e.
Qed.

Lemma wal_submit_ok md fl buf :
  no_faults fl -> (md = SyncBatch -> fdurable fl = len (fdata fl)) ->
  ∃ fl', wal_submit (mkWAL fl md false) buf = (mkWAL fl' md false, None) ∧ fdata fl' = fdata fl ++ buf ∧
    no_faults fl' ∧ (md = SyncBatch -> fdurable fl' = len (fdata fl')).
Proof.
  intros Hnf Hd. unfold wal_submit. cbn [Wal.mode Wal.closed Wal.file]. destruct md.
  - unfold submit. cbn [Wal.closed Wal.file Wal.mode]. rewrite file_Write_ok by done. eexists. by split_and!.
  - rewrite commit_batch_no_faults by done. eexists. cbn [concat]. rewrite app_nil_r. by split_and!.
Qed.

(** Appending to the current log. *)
Lemma append_logs_ok logs pre l e i fl fl' recs :
  fs_ok (fs e) -> logs_ok logs e -> logs = pre ++ [l] ->
  wals e !! log_w l = Some (mkWH (walPath (log_num l)) i (Mode (opts e)) false) ->
  dir (fs e) !! walPath (log_num l) = Some i -> inodes (fs e) !! i = Some fl -> fdata fl = wal_bytes (log_recs l) ->
  fdata fl' = fdata fl ++ wal_bytes recs -> no_faults fl' -> (Mode (opts e) = SyncBatch -> fdurable fl' = len (fdata fl')) ->
  fs_step (walPath (log_num l)) (fs e) (set_inode (fs e) i fl') ∧
  logs_ok (pre ++ [mkLog (log_w l) (log_num l) (log_recs l ++ recs)]) (set_fs e (set_inode (fs e) i fl')).
Proof.
  intros Hf [Lo Ls Lr Ld] -> Hw Hd Hi Hdata Hdata' Hnf Hdur.
  destruct (set_inode_step (walPath (log_num l)) i fl' (fs e) Hf Hd Hnf) as [Hstep _]. split; [done|].
  apply Forall_app in Lo as [Lo Lol], Lr as [Lr Lrl]. pose proof (proj1 (Forall_singleton _ _) Lrl) as Hrl. cbv beta in Hrl. apply StronglySorted_app in Ls as (Ls1 & Ls2 & _).
  split; cbn [opts set_fs wals fs vs].
  - apply Forall_app. split.
    + rewrite Forall_forall in *. intros l0 Hl0. apply (open_log_step _ _ _ _ _ _ Hf (Lo l0 Hl0) Hstep).
      pose proof (Ls1 l0 l Hl0 ltac:(by apply list_elem_of_singleton)) as Hlt. cbv beta in Hlt.
      specialize (Lr l0 Hl0). intros E%walPath_inj; lia.
    + apply Forall_singleton. exists i, fl'. cbn [log_w log_num log_recs]. split_and!; try done.
      * cbn. apply list_lookup_insert_eq. by eapply lookup_lt_Some.
      * by rewrite Hdata', Hdata, wal_bytes_app.
  - apply StronglySorted_app. split_and!; [|done|by repeat constructor].
    intros l1 l2 H1 ->%list_elem_of_singleton. cbn. apply (Ls1 l1 l); [done|by apply list_elem_of_singleton].
  - apply Forall_app. split; [done|]. by apply Forall_singleton.
  - intros name Hname. destruct (Ld name Hname) as (l0 & Hin & El).
    apply elem_of_app in Hin as [Hl0| ->%list_elem_of_singleton].
    + exists l0. split; [by apply elem_of_app; left|done].
    + eexists. split; [by apply elem_of_app; right; apply list_elem_of_singleton|done].
Qed.

(** The state after a step that only adds to the current log. *)
Record log_step (e e' : Engine) : Prop := {
  ls_rest : same_rest e e';
  ls_mems : (mt e', immt e', mts e', flips e') = (mt e, immt e, mts e, flips e);
  ls_vs : vs e' = vs e;
  ls_tables : ∀ l n, dir (fs e') !! tablePath l n = dir (fs e) !! tablePath l n
}.

Lemma log_append_ok {A} D lm li old logs e recs (m : WAL -> res (WAL * A)) (g : option error -> A) :
  base_ok D lm li logs e -> log_state e old logs lm li -> CrashRecovery (opts e) = true ->
  (∀ l, m l = Ok (let '(l', err) := wal_submit l (wal_bytes recs) in (l', g err))) ->
  ∃ w e' logs', wal e = Some w ∧ on_wal w m e = (Ok (g None), e') ∧ base_ok D lm li logs' e' ∧
    log_state e' old logs' (recs ++ lm) li ∧ log_step e e'.
Proof.
  intros He Hl Ecr Hm. unfold log_state in Hl. rewrite Ecr in Hl. destruct Hl as (dead & l & El & Hdead & Hw & Hp).
  rewrite app_assoc in El.
  pose proof (bo_logs _ _ _ _ _ He) as Hlogs. pose proof (bo_fs _ _ _ _ _ He) as Hf.
  pose proof (lo_open _ _ Hlogs) as Lo. rewrite El in Lo.
  apply Forall_app in Lo as [_ Lo]. apply Forall_cons in Lo as [(i & fl & Hwh & Hd & Hi & Hdata & Hdur) _].
  assert (no_faults fl) as Hnf by (eapply Forall_lookup_1; [apply (fs_quiet _ Hf)|exact Hi]).
  destruct (wal_submit_ok (Mode (opts e)) fl (wal_bytes recs) Hnf Hdur) as (fl' & Es & Hdata' & Hnf' & Hdur').
  destruct (append_logs_ok logs _ l e i fl fl' recs Hf Hlogs El Hwh Hd Hi Hdata Hdata' Hnf' Hdur') as [Hstep Hlogs'].
  eexists (log_w l), (set_fs e (set_inode (fs e) i fl')), _. split_and!; [done| | | |].
  - rewrite (on_wal_ok logs (dead ++ option_list old) l e m i fl (mkWAL fl' (Mode (opts e)) false) (g None)); [done..| |done].
    by rewrite Hm, Es.
  - refine (base_ok_logs D lm li logs _ e (log_num l) (vs e) (set_inode (fs e) i fl') (wal e) (imwal e) (wals e) He Hstep
      eq_refl (bo_disk _ _ _ _ _ He) _ Hlogs'). done.
  - unfold log_state. cbn [opts set_fs wal]. rewrite Ecr. eexists dead, _. split_and!; [by rewrite app_assoc|done|done|].
    intros Hlg. destruct (Hp Hlg) as [Hp' Hold]. split; [|done]. cbn [log_recs]. rewrite Hp'. apply Permutation_app_comm.
  - by split.
Qed.

Lemma log_record_ok D lm li old logs e r :
  base_ok D lm li logs e -> log_state e old logs lm li -> small_rec r ->
  ∃ e' logs', log_record r e = (Ok tt, e') ∧ base_ok D lm li logs' e' ∧ log_state e' old logs' (r :: lm) li ∧ log_step e e'.
Proof.
  intros He Hl Hr. unfold log_record. rewrite (EM_bind_ok _ _ e (CrashRecovery (opts e)) e) by done. cbv beta.
  destruct (CrashRecovery (opts e)) eqn:Ecr.
  - destruct (log_append_ok D lm li old logs e [r] (λ l, buf ← encodeRecords [r]; Ok (wal_submit l buf)) id He Hl Ecr)
      as (w & e' & logs' & Hw & E & He' & Hl' & Hs).
    { intros l. rewrite encodeRecords_spec by by apply Forall_singleton. cbn [mbind res_bind]. f_equal.
      by destruct (wal_submit l _). }
    exists e', logs'. split_and!; [|done..]. rewrite (EM_bind_ok _ _ e (Some w) e) by (unfold gets; by rewrite Hw).
    cbv beta iota. unfold wal_Append. by rewrite (EM_bind_ok _ _ _ _ _ E).
  - exists e, logs. split_and!; [done|done| |by split]. unfold log_state in *. by rewrite Ecr in *.
Qed.

Lemma the_mt_ok i m e : mts e !! i = Some m -> the_mt i e = (Ok m, e).
Proof. intros Hm. unfold the_mt. rewrite (EM_bind_ok _ _ e (Some m) e) by (unfold gets; by rewrite Hm). done. Qed.

(** Putting into the memtable. *)
Definition mem_ok (lm : list Rec) (e : Engine) : Prop :=
  ∃ m, mts e !! mt e = Some m ∧ holds m lm ∧ Memtable.size m = total_size lm ∧ Memtable.maxSize m = MemtableSize (opts e).

Lemma mem_Put_ok lm e r :
  mem_ok lm e -> total_size lm + Records.Size r < 2 ^ 64 ->
  ∃ m, let ms := <[mt e := m]> (mts e) in let e' := set_mems e (mt e) (immt e) ms (tail (flips e)) in
    mt_Put (mt e) r e = (Ok tt, e') ∧ ms !! mt e = Some m ∧ mem_ok (insert_sorted r lm) e' ∧ holds m (insert_sorted r lm) ∧
    Memtable.size m = total_size (r :: lm) ∧ Memtable.maxSize m = MemtableSize (opts e).
Proof.
  intros (m & Hm & Hh & Hsz & Hmax) Hlt.
  destruct (Put_holds m lm (default [] (hd_error (flips e))) r Hh) as (m' & E & Hh' & Hsz' & Hmax' & _).
  pose proof (total_size_nonneg lm). pose proof (Size_range r). rewrite Hsz, u64_small in Hsz' by lia.
  assert (<[mt e:=m']> (mts e) !! mt e = Some m') as Hl by (apply list_lookup_insert_eq; by eapply lookup_lt_Some).
  assert (Memtable.size m' = total_size (r :: lm)) as Hsz2 by (rewrite total_size_cons; lia).
  exists m'. cbn zeta. split_and!; [|done| |done|done|congruence].
  - unfold mt_Put. rewrite (EM_bind_ok _ _ _ _ _ (the_mt_ok _ _ _ Hm)). cbv beta.
    rewrite (EM_bind_ok _ _ e (flips e) e) by done. cbv beta. by rewrite E.
  - exists m'. cbn [mts mt set_mems opts]. split_and!; [done|done|by rewrite insert_sorted_Permutation|congruence].
Qed.

(** A record that leaves room in the memtable. *)
Lemma put_record_fits lm e r :
  mem_ok lm e -> total_size (r :: lm) < MemtableSize (opts e) -> MemtableSize (opts e) <= 2 ^ 28 ->
  ∃ m, let e' := set_mems e (mt e) (immt e) (<[mt e := m]> (mts e)) (tail (flips e)) in
    put_record r e = (Ok None, e') ∧ mem_ok (insert_sorted r lm) e' ∧ holds m (insert_sorted r lm).
Proof.
  intros Hm Hroom Ho. pose proof Hroom as Hr. rewrite total_size_cons in Hr.
  destruct (mem_Put_ok lm e r Hm) as (m & E & Hl & Hm' & Hh & Hsz & Hmax); [lia|]. exists m. cbn zeta. split_and!; [|done|done].
  unfold put_record. rewrite (EM_bind_ok _ _ e (mt e) e) by done. cbv beta. rewrite (EM_bind_ok _ _ _ _ _ E). cbv beta.
  erewrite EM_bind_ok by (apply the_mt_ok; exact Hl). cbv beta. unfold IsFull.
  by rewrite Hsz, Hmax, (proj2 (Z.leb_gt _ _)) by done.
Qed.

Lemma mem_ok_mt lm e : mem_ok lm e -> immt e ≠ Some (mt e) -> mt_ok lm e.
Proof. intros (m & ? & ? & ? & ?) Hne. split; [by exists m|done]. Qed.

Lemma base_ok_mem D lm li logs e : base_ok D lm li logs e -> mt_ok lm e -> mem_ok lm e.
Proof.
  intros He [(m & Hm & Hsz & Hmax) _]. exists m. destruct (view_mt _ _ _ _ (bo_view _ _ _ _ _ He)) as (m0 & Hm0 & Hh).
  rewrite Hm in Hm0. by injection Hm0 as <-.
Qed.

Lemma base_ok_put D lm li logs e r m :
  base_ok D lm li logs e -> mt_ok lm e -> small_rec r -> holds m (insert_sorted r lm) ->
  base_ok D (insert_sorted r lm) li logs (set_mems e (mt e) (immt e) (<[mt e := m]> (mts e)) (tail (flips e))).
Proof.
  intros He [(x & Hx & _) Hne] Hr Hh. pose proof (lookup_lt_Some _ _ _ Hx) as Hlt. eapply base_ok_mems; [exact He| | |].
  - exists m. split; [by apply list_lookup_insert_eq|done].
  - pose proof (view_immt _ _ _ _ (bo_view _ _ _ _ _ He)) as Him. destruct (immt e) as [i|]; [|done].
    destruct Him as (y & Hy & Hhy). exists y. split; [|done]. rewrite list_lookup_insert_ne; [done|congruence].
  - rewrite insert_sorted_Permutation. constructor; [done|]. apply (bo_small _ _ _ _ _ He).
Qed.

Lemma mt_Put_ok D lm li logs e r :
  base_ok D lm li logs e -> mt_ok lm e -> small_rec r -> total_size lm + Records.Size r < 2 ^ 64 ->
  ∃ ms m, mt_Put (mt e) r e = (Ok tt, set_mems e (mt e) (immt e) ms (tail (flips e))) ∧ ms !! mt e = Some m ∧
    let e' := set_mems e (mt e) (immt e) ms (tail (flips e)) in
    base_ok D (insert_sorted r lm) li logs e' ∧ mt_ok (insert_sorted r lm) e' ∧
    Memtable.size m = total_size (r :: lm) ∧ Memtable.maxSize m = MemtableSize (opts e).
Proof.
  intros He Hmt Hr Hlt. destruct (mem_Put_ok lm e r (base_ok_mem _ _ _ _ _ He Hmt) Hlt) as (m & E & Hl & Hm & Hh & Hsz & Hmax).
  eexists _, m. cbn zeta. split_and!; [exact E|done|by apply base_ok_put|apply mem_ok_mt; [done|apply Hmt]|done|done].
Qed.

(** ** The invariant between the operations *)

(** Bounds under which a memtable, with the record that fills it, fits a table. *)
Definition max_record : Z := 2 ^ 27.
Definition max_memtable : Z := 2 ^ 28.

Lemma table_small_total l : Forall small_rec l -> total_size l <= max_memtable + max_record -> table_small l.
Proof.
  intros Hs Ht. assert (∀ l, Forall small_rec l -> len (concat (map record_bytes l)) = total_size l ∧ 17 * len l <= total_size l) as H.
  { clear. induction 1 as [|r l Hr _ [E H]]; [done|]. cbn [map concat]. rewrite total_size_cons, (Size_exact r Hr), len_app, E.
    rewrite len_cons. rewrite len_record_bytes in *. pose proof (len_nonneg (UserKey r)). pose proof (len_nonneg (sbytes (Value r))). lia. }
  destruct (H l Hs) as [E Hl]. unfold table_small, table_space. rewrite E. unfold max_memtable, max_record in Ht. lia.
Qed.

(** At most one flush is pending: that of the immutable memtable. *)
Definition pending_ok (D : gmap Z (list (list Rec))) (li : list Rec) (old : option Log) (e : Engine) : Prop :=
  match flushChan e with
  | [] => old = None ∧ immt e = None
  | [t] => task_ok D li old e t ∧ li ≠ [] ∧ total_size li <= max_memtable + max_record
  | _ => False
  end.

Record state_ok (D : gmap Z (list (list Rec))) (lm li : list Rec) (old : option Log) (logs : list Log) (e : Engine) : Prop := {
  so_base : base_ok D lm li logs e;
  so_mt : mt_ok lm e;
  so_log : log_state e old logs lm li;
  so_pending : pending_ok D li old e;
  so_room : total_size lm < MemtableSize (opts e)
}.

Lemma idle_li D lm li old logs e : state_ok D lm li old logs e -> flushChan e = [] -> li = [] ∧ old = None ∧ immt e = None.
Proof.
  intros [Hb _ _ Hp _] Hq. unfold pending_ok in Hp. rewrite Hq in Hp. destruct Hp as [-> Him].
  pose proof (view_immt _ _ _ _ (bo_view _ _ _ _ _ Hb)) as Hv. by rewrite Him in Hv.
Qed.

Lemma IsFull_spec m lm o : Memtable.size m = total_size lm -> Memtable.maxSize m = MemtableSize o ->
  IsFull m = bool_decide (MemtableSize o <= total_size lm).
Proof. intros E1 E2. unfold IsFull. rewrite E1, E2. case_bool_decide; lia. Qed.

(** A write that does not fill the memtable, whether a flush is pending or not. *)
Lemma put_record_room D lm li old logs e r :
  base_ok D lm li logs e -> mt_ok lm e -> small_rec r -> total_size (r :: lm) < MemtableSize (opts e) ->
  ∃ ms, let e' := set_mems e (mt e) (immt e) ms (tail (flips e)) in
    put_record r e = (Ok None, e') ∧ base_ok D (insert_sorted r lm) li logs e' ∧ mt_ok (insert_sorted r lm) e' ∧
    (pending_ok D li old e -> pending_ok D li old e') ∧ total_size (insert_sorted r lm) < MemtableSize (opts e').
Proof.
  intros He Hmt Hr Hroom. pose proof (bo_opts _ _ _ _ _ He) as (_ & _ & Ho).
  destruct (put_record_fits lm e r (base_ok_mem _ _ _ _ _ He Hmt) Hroom ltac:(lia)) as (m & E & Hm & Hh).
  eexists. cbn zeta. split_and!; [exact E|by apply base_ok_put|apply mem_ok_mt; [done|apply Hmt]| |].
  - unfold pending_ok. cbn [flushChan set_mems immt]. destruct (flushChan e) as [|t [|]]; [done| |done].
    intros ([T1 T2 T3 T4 T5] & ? & ?). split; [by split|done].
  - rewrite insert_sorted_Permutation. exact Hroom.
Qed.

(** A write that fills the memtable while no flush is pending. *)
Lemma put_record_full D lm logs e r :
  base_ok D lm [] logs e -> mt_ok lm e -> small_rec r -> log_state e None logs (r :: lm) [] ->
  total_size lm < MemtableSize (opts e) -> Records.Size r <= max_record -> MemtableSize (opts e) <= total_size (r :: lm) ->
  nextFileNum (vs e) + 2 <= 10 ^ 6 ->
  let lm' := insert_sorted r lm in
  ∃ t e' old logs', put_record r e = (Ok (Some t), e') ∧ base_ok D [] lm' logs' e' ∧ mt_ok [] e' ∧
    log_state e' old logs' [] lm' ∧ task_ok D lm' old e' t ∧ lm' ≠ [] ∧ total_size lm' <= max_memtable + max_record ∧
    same_rest e e' ∧ nextFileNum (vs e') <= nextFileNum (vs e) + 2 ∧ Current (vs e') = Current (vs e).
Proof.
  intros He Hmt Hr Hl Hlm Hsz Hfull Hn lm'. pose proof (bo_opts _ _ _ _ _ He) as (_ & _ & Ho).
  rewrite total_size_cons in Hfull. unfold max_record in Hsz.
  destruct (mt_Put_ok D lm [] logs e r He Hmt Hr) as (ms & m & E & Hm & He1 & Hmt1 & Hsz1 & Hmax); [lia|].
  set (e1 := set_mems e (mt e) (immt e) ms (tail (flips e))) in *. fold lm' in He1, Hmt1.
  assert (lm' ≡ₚ r :: lm) as Hp by apply insert_sorted_Permutation.
  destruct (rotate_ok D lm' logs e1 He1) as (t & e' & old & logs' & Er & He' & Hmt' & Hl' & Ht & Hs & Hn' & HC); [|done|].
  { by eapply log_state_eq. }
  exists t, e', old, logs'. split_and!; try done.
  - unfold put_record. rewrite (EM_bind_ok _ _ e (mt e) e) by done. cbv beta. rewrite (EM_bind_ok _ _ _ _ _ E). cbv beta.
    erewrite EM_bind_ok by (apply the_mt_ok; exact Hm). cbv beta.
    rewrite (IsFull_spec m (r :: lm) (opts e)) by done. rewrite total_size_cons. rewrite bool_decide_true by lia.
    rewrite (EM_bind_ok _ _ _ _ _ Er). done.
  - intros Enil. by rewrite Enil in Hp; apply Permutation_nil_cons in Hp.
  - rewrite Hp, total_size_cons. unfold max_memtable, max_record. lia.
  - etrans; [|exact Hs]. by split.
Qed.

(** What a client's operation leaves as it is. *)
Record same_core (e e' : Engine) : Prop := {
  sc_opts : opts e' = opts e;
  sc_seq : seqNum e' = seqNum e;
  sc_tables : tableCache e' = tableCache e ∧ rworld e' = rworld e;
  sc_snapshots : snapshots e' = snapshots e
}.

#[export] Instance same_core_preorder : PreOrder same_core.
Proof.
  split; [by split|]. intros e1 e2 e3 [? ? [? ?] ?] [? ? [? ?] ?]. split; try split; congruence.
Qed.

Lemma same_rest_core e e' : same_rest e e' -> same_core e e'.
Proof. by intros [? ? ? ? ?]. Qed.

Lemma state_ok_queue D lm li old logs e t cq :
  base_ok D lm li logs e -> mt_ok lm e -> log_state e old logs lm li -> total_size lm < MemtableSize (opts e) ->
  task_ok D li old e t -> li ≠ [] -> total_size li <= max_memtable + max_record ->
  state_ok D lm li old logs (set_queues e [t] cq).
Proof.
  intros He Hmt Hl Hr Ht Hne Hsz. split; [|exact Hmt|exact Hl| |exact Hr].
  - apply (base_ok_view D lm li lm li logs e); [done| |apply He|done..]. by destruct (bo_view _ _ _ _ _ He).
  - unfold pending_ok. cbn [flushChan set_queues]. destruct Ht. by split.
Qed.

Lemma send_nil e : send [] e = (Ok tt, e).
Proof. unfold send, modify. rewrite app_nil_r. by destruct e. Qed.

Lemma send_option (o : option flushTask) e :
  match o with Some t => send [t] | None => mret tt end e = send (option_list o) e.
Proof. destruct o; [done|]. by rewrite send_nil. Qed.

(** A logged record goes into the memtable, which it may fill if no flush is pending. *)
Lemma put_send_ok D lm li old logs e r :
  base_ok D lm li logs e -> mt_ok lm e -> pending_ok D li old e -> log_state e old logs (r :: lm) li ->
  total_size lm < MemtableSize (opts e) -> small_rec r -> Records.Size r <= max_record -> nextFileNum (vs e) + 2 <= 10 ^ 6 ->
  flushChan e = [] ∧ li = [] ∧ old = None ∨ total_size (r :: lm) < MemtableSize (opts e) ->
  ∃ o e1 e' lm' li' old' logs', put_record r e = (Ok o, e1) ∧ send (option_list o) e1 = (Ok tt, e') ∧
    state_ok D lm' li' old' logs' e' ∧
    (lm' = insert_sorted r lm ∧ li' = li ∨ li = [] ∧ lm' = [] ∧ li' = insert_sorted r lm) ∧
    same_core e e' ∧ nextFileNum (vs e') <= nextFileNum (vs e) + 2 ∧ Current (vs e') = Current (vs e).
Proof.
  intros He Hmt Hp Hl Hlt Hr Hsz Hn Hroom.
  destruct (decide (total_size (r :: lm) < MemtableSize (opts e))) as [Hfit|Hfull].
  - destruct (put_record_room D lm li old logs e r He Hmt Hr Hfit) as (ms & E2 & He2 & Hmt2 & Hp2 & Hlt2).
    eexists None, _, _, _, li, old, logs. split_and!; [exact E2|apply send_nil| |by left|by split|cbn; lia|done].
    split; [done|done| |by apply Hp2|done]. eapply log_state_eq; [exact Hl|done|done|]. by rewrite insert_sorted_Permutation.
  - destruct Hroom as [(Hq & -> & ->)|]; [|done].
    destruct (put_record_full D lm logs e r He Hmt Hr Hl)
      as (t & e2 & old' & logs' & E2 & He2 & Hmt2 & Hl2 & Ht2 & Hne & Htot & Hs2 & Hn2 & HC2); [done|done|lia|done|].
    exists (Some t), e2, (set_queues e2 [t] (compactQueue e2)), [], (insert_sorted r lm), old', logs'. split_and!; [exact E2| | |by right| |exact Hn2|exact HC2].
    + unfold send, modify. by rewrite (sr_flushes _ _ Hs2), Hq.
    + apply state_ok_queue; try done. pose proof (bo_opts _ _ _ _ _ He2) as (_ & _ & ?). change (total_size []) with 0. lia.
    + etrans; [apply same_rest_core, Hs2|]. by split.
Qed.

(** What follows an addition to the log finds the rest as it was. *)
Lemma log_step_state D lm li old e e' :
  log_step e e' -> mt_ok lm e -> pending_ok D li old e -> mt_ok lm e' ∧ pending_ok D li old e'.
Proof.
  intros [Hs Hm Hv Ht] Hmt Hp. injection Hm as Em1 Em2 Em3 Em4. split.
  - unfold mt_ok in *. by rewrite Em1, Em2, Em3, (sr_opts _ _ Hs).
  - unfold pending_ok in *. rewrite (sr_flushes _ _ Hs), Em2. destruct (flushChan e) as [|t [|]]; [done| |done].
    destruct Hp as ([T1 T2 T3 T4 T5] & ? & ?). split_and!; [|done..]. split; rewrite ?Em2, ?Hv, ?Ht; done.
Qed.

(** A write: it goes to the log and into the memtable, which it may fill if no flush is pending. *)
Lemma finish_write_ok D lm li old logs e r :
  state_ok D lm li old logs e -> small_rec r -> Records.Size r <= max_record -> nextFileNum (vs e) + 2 <= 10 ^ 6 ->
  flushChan e = [] ∨ total_size (r :: lm) < MemtableSize (opts e) ->
  ∃ e' lm' li' old' logs', finish_write r e = (Ok tt, e') ∧ state_ok D lm' li' old' logs' e' ∧
    (lm' = insert_sorted r lm ∧ li' = li ∨ li = [] ∧ lm' = [] ∧ li' = insert_sorted r lm) ∧
    same_core e e' ∧ nextFileNum (vs e') <= nextFileNum (vs e) + 2 ∧ Current (vs e') = Current (vs e).
Proof.
  intros Hst Hr Hsz Hn Hroom. pose proof Hst as [He Hmt Hl Hp Hlt].
  destruct (log_record_ok D lm li old logs e r He Hl Hr) as (e1 & logs1 & E1 & He1 & Hl1 & Hls).
  destruct (log_step_state D lm li old e e1 Hls Hmt Hp) as [Hmt1 Hp1]. destruct Hls as [Hs1 _ Hv1 _].
  destruct (put_send_ok D lm li old logs1 e1 r He1 Hmt1 Hp1 Hl1)
    as (o & e2 & e' & lm' & li' & old' & logs' & E2 & E3 & Hst' & Hcase & Hs' & Hn' & HC'); try done.
  { by rewrite (sr_opts _ _ Hs1). }
  { by rewrite Hv1. }
  { rewrite (sr_opts _ _ Hs1), (sr_flushes _ _ Hs1). destruct Hroom as [Hq|]; [left|by right].
    destruct (idle_li _ _ _ _ _ _ Hst Hq) as (-> & -> & _). done. }
  exists e', lm', li', old', logs'. rewrite Hv1 in Hn', HC'. split_and!; try done.
  - unfold finish_write. rewrite (EM_bind_ok _ _ _ _ _ E1). cbv beta. rewrite (EM_bind_ok _ _ _ _ _ E2). cbv beta.
    by rewrite send_option.
  - etrans; [apply same_rest_core, Hs1|done].
Qed.
End flow.

Lemma base_ok_forget `{FE : FloatEnv} (LG : Logged) D lm li logs e : base_ok (LG := LG) D lm li logs e -> base_ok (LG := false) D lm li logs e.
Proof. intros [Hvw Hf Hd Hv Hn Hs Ho Hl]. split; try done. by eapply disk_ok_forget. Qed.
