(* ===== verification/EngineFlush.v ===== *)
(** * Package engine: what a flush does

    The flush of the immutable memtable writes its records into a new table of level 0, logs the
    edit, drops the memtable's log and keeps everything else as it is. *)

From S2P Require Import Prelude.
From S2P Require Import GoStd.
From S2P Require Import GoIO.
From S2P Require Import Records.
From S2P Require Import Skiplist.
From S2P Require Import Versions.
From S2P Require Import Memtable.
From S2P Require Import Config.
From S2P Require Import Wal.
From S2P Require Import Filter.
From S2P Require Import Blocks.
From S2P Require Import BlockCache.
From S2P Require Import Names.
From S2P Require Import TableWriter.
From S2P Require Import TableReader.
From S2P Require Import Meta.
From S2P Require Import Scan.
From S2P Require Import EngineState.
From S2P Require Import EngineRead.
From S2P Require Import EngineCompact.
From S2P Require Import EngineWrite.
From S2P Require Import EngineFs.
From S2P Require Import EngineDisk.
From S2P Require Import EngineFlow.

Section flush.
Context `{FE : FloatEnv} `{LG : Logged}.

(** ** Writing the table *)

(** The keys that flush keeps after the records [l]. *)
Definition flush_keys (keys : option (InternalKey * InternalKey)) (l : list Rec) : option (InternalKey * InternalKey) :=
  foldl (λ keys (r : Rec), match keys with Some (f, _) => Some (f, RKey r) | None => Some (RKey r, RKey r) end) keys l.

Lemma flush_loop_ok l fuel it w bs cur keys :
  remaining it l -> (length l <= fuel)%nat -> writes w bs cur -> no_faults (TableWriter.file w) ->
  Forall small_rec l -> table_small ((concat bs ++ cur) ++ l) ->
  ∃ w' bs' cur', flush_loop fuel it w keys = Ok (w', flush_keys keys l, None) ∧ writes w' bs' cur' ∧
    concat bs' ++ cur' = (concat bs ++ cur) ++ l ∧ no_faults (TableWriter.file w').
Proof.
  intros Hit Hf Hw Hnf Hs. revert fuel it w bs cur keys Hit Hf Hw Hnf.
  induction Hs as [|r l Hr Hs IH]; intros fuel it w bs cur keys Hit Hf Hw Hnf Hsm.
  - exists w, bs, cur. rewrite app_nil_r. split_and!; [|done..].
    destruct fuel; cbn [flush_loop]; by rewrite (Valid_remaining _ _ Hit).
  - destruct fuel as [|fuel]; [cbn in Hf; lia|]. cbn [flush_loop]. rewrite (Valid_remaining _ _ Hit). cbn [negb bool_decide].
    destruct (current_remaining _ _ _ Hit) as [-> ->]. rewrite (cons_middle r) in Hsm |- *. rewrite app_assoc in Hsm |- *.
    destruct (Add_writes w bs cur r Hw Hr) as (w1 & err & E & Hw1); [by eapply table_small_app_l|].
    replace (mkRec (RKey r) (Value r)) with r by (by destruct r). rewrite E. cbn [mbind res_bind].
    destruct (Add_ok _ _ _ _ Hnf E) as [-> Hnf1]. destruct (Hw1 eq_refl) as (bs1 & cur1 & Hw1' & Ecat).
    destruct (Next_remaining _ _ _ Hit) as (it' & -> & Hit' & _). cbn [must mbind res_bind].
    rewrite <- Ecat in Hsm |- *. apply IH; [done|cbn in Hf; lia|done..].
Qed.

Lemma flush_keys_app keys l1 l2 : flush_keys keys (l1 ++ l2) = flush_keys (flush_keys keys l1) l2.
Proof. apply foldl_app. Qed.

Lemma flush_keys_all r l : flush_keys None (r :: l) = Some (RKey r, sep (r :: l)).
Proof.
  induction l as [|x l IH] using rev_ind; [done|].
  rewrite app_comm_cons, flush_keys_app, IH, sep_snoc. done.
Qed.

Definition new_meta (t : flushTask) (size : Z) (li : list Rec) : TableMeta :=
  mkTM (task_fileNum t) (u64 size) 0 (default (mkIK [] 0 0) (RKey <$> hd_error li)) (sep li).

Definition flush_edit (m : TableMeta) (nextFileNum : Z) : VersionEdit :=
  mkVE [m] [] (Some (SeqNum (MaxKey m))) (Some nextFileNum) None.

(** The part of flush before the lock: the table is complete under its path. *)
Lemma write_flush_table D lm li old logs e t :
  base_ok D lm li logs e -> task_ok D li old e t -> li ≠ [] -> total_size li <= max_memtable + max_record ->
  ∃ f' fl bs, flush t e =
      (n ← next_file_num; install_flush t (flush_edit (new_meta t (len (fdata fl)) li) n)) (set_fs e f') ∧
    fs_step (tablePath 0 (task_fileNum t)) (fs e) f' ∧ fs_file f' (tablePath 0 (task_fileNum t)) = Some fl ∧
    table_of (fdata fl) bs ∧ concat bs = li ∧ sorted_recs li ∧ fdurable fl = len (fdata fl).
Proof.
  intros He [T1 [T2 T2'] [T3 T3'] T4 T5] Hne Hsz. pose proof (bo_small _ _ _ _ _ He) as [_ Hs]%Forall_app.
  pose proof (view_immt _ _ _ _ (bo_view _ _ _ _ _ He)) as Him. rewrite T1 in Him. destruct Him as (m & Hm & Hh).
  destruct Hh as [Hrep Hsorted]. destruct (Iterator_remaining _ _ Hrep) as (it & Eit & Hrem & _).
  destruct (flush_loop_ok li (length (nodes (list_ m))) it (writer t) [] [] None) as (w & bs & cur & El & Hw & Ecat & Hnf);
    [done| |done|done|done| |].
  { destruct Hrep as (ids & Hwf & ->). rewrite length_map. pose proof (wf_length _ _ Hwf). lia. }
  { by apply table_small_total. }
  destruct (put_file_ok (writer_path t) (TableWriter.file w) e) as (f1 & E1 & Hs1 & _ & Hd1);
    [apply He|by rewrite T3|done|].
  destruct (close_table_ok w (writer_path t) bs cur (set_fs e f1)) as (size & f' & fl & E2 & Hs2 & Hd2 & Hfile & (bs' & Ht & Ebs) & Esz & Hdur);
    [done|done|apply Hs1|cbn; by rewrite Hd1, T3|].
  cbn [fs set_fs] in Hs2, Hd2. rewrite T3 in Hs1, Hs2, Hfile. exists f', fl, bs'. split_and!; [| |done|done|by rewrite Ebs|done|congruence].
  - unfold flush. rewrite (EM_bind_ok _ _ _ _ _ (the_mt_ok _ _ _ Hm)). cbv beta.
    rewrite (EM_bind_ok _ _ e it e) by (unfold lift; by rewrite Eit). cbv beta.
    rewrite (EM_bind_ok _ _ e (w, flush_keys None li, None) e) by (unfold lift; by rewrite El). cbv beta iota.
    rewrite (EM_bind_ok _ _ _ _ _ E1). cbv beta. rewrite (EM_bind_ok (check None) _ _ tt (set_fs e f1)) by done.
    destruct li as [|r l]; [done|]. rewrite flush_keys_all. cbv beta iota.
    rewrite (EM_bind_ok _ _ _ _ _ E2). by rewrite Esz.
  - eapply fs_step_trans; [exact Hs1|exact Hs2|]. intros j Hj Hj'. by rewrite Hd1 in Hj.
Qed.

(** ** Installing the table *)

Lemma base_ok_new_table D lm li logs e n lvl bs f' :
  base_ok D lm li logs e -> D !! n = None -> 0 <= n < 10 ^ 6 -> n < nextFileNum (vs e) ->
  fs_step (tablePath lvl n) (fs e) f' -> base_ok (<[n := bs]> D) lm li logs (set_fs e f').
Proof.
  intros He HD Hn Hlt Hstep. pose proof (insert_subseteq D n bs HD) as Hsub.
  destruct He as [[Hm Him Ht Hc] Hf Hman Hv [Hn0 HnD] Hs Ho Hl]. split; cbn; try done.
  - split; cbn; [done|done| |by eapply caches_ok_mono]. eapply tables_ok_mono; [done|exact Hf|exact Hstep| |exact Ht].
    intros t bs' _ Hok. by eapply fresh_table_path.
  - apply Hstep.
  - eapply disk_ok_step; [exact Hf|exact Hstep| |exact Hman]. intros t Hin. rewrite Forall_forall in Ht.
    destruct (Ht t Hin) as (bs' & Hok). by eapply fresh_table_path.
  - split; [done|]. intros n' bs' [[<- _]|[_ Hl']]%lookup_insert_Some; [done|by eapply HnD].
  - by eapply logs_ok_table.
Qed.

(** An edit whose new tables are there. *)
Lemma base_ok_edit D lm li logs e edit :
  base_ok D lm li logs e -> wf_edit edit -> edit_fits (Current (vs e)) edit ->
  Forall (λ t, ∃ bs, table_ok D (fs e) t bs) (AddTables edit) -> edit_disk (fs e) (vs e) edit ->
  ∃ v, log_and_apply edit e = (Ok None, set_vs e v) ∧ base_ok D lm li logs (set_vs e v) ∧
    Current v = edited (Current (vs e)) edit ∧ nextFileNum v = nextFileNum (vs e).
Proof.
  intros He Hw Hfit Hadd Hed. destruct (log_and_apply_ok e edit) as (v & E & HC & Hn & Hman); [apply He|done|done|].
  exists v. split_and!; [done| |done|done]. destruct (edited_ok _ _ Hw Hfit) as [Hvok Hlen].
  destruct He as [[Hm Him Ht Hc] Hf Hman0 Hv Hnums Hs Ho [L1 L2 L3 L4]]. split; cbn; rewrite ?HC, ?Hn; try done.
  - split; cbn; [done|done| |done]. rewrite HC. rewrite Forall_forall in *. intros t [?|?]%concat_edited; auto.
  - by eapply disk_ok_edit.
  - rewrite Hlen. split; [done|apply Hv].
  - split; cbn; rewrite ?Hn; done.
Qed.

(** *** The edit of a flush *)

Lemma total_size_elem (x : Rec) l : x ∈ l -> Records.Size x <= total_size l.
Proof.
  intros (l1 & l2 & ->)%list_elem_of_split. rewrite <- Permutation_middle, total_size_cons.
  pose proof (total_size_nonneg (l1 ++ l2)). lia.
Qed.

Lemma wf_key_small (x : Rec) l : Forall small_rec l -> total_size l <= max_memtable + max_record -> x ∈ l ->
  wf_key x ∧ len (UserKey x) < 2 ^ 29.
Proof.
  intros Hs Ht Hx. pose proof (total_size_elem x l Hx) as Hsz. rewrite Forall_forall in Hs. specialize (Hs x Hx).
  rewrite (Size_exact x Hs), len_record_bytes in Hsz. destruct Hs as [[Hk _] _]. split; [done|].
  pose proof (len_nonneg (sbytes (Value x))). unfold max_memtable, max_record in Ht. lia.
Qed.

Lemma new_meta_ok D f t li bs fl :
  fs_file f (tablePath 0 (task_fileNum t)) = Some fl -> table_of (fdata fl) bs -> concat bs = li -> sorted_recs li ->
  li ≠ [] -> 0 <= task_fileNum t < 10 ^ 6 -> D !! task_fileNum t = Some bs ->
  table_ok D f (new_meta t (len (fdata fl)) li) bs.
Proof.
  intros Hfl Ht Hb Hs Hne Hn HD. split; cbn [new_meta FileNum Level MinKey MaxKey]; try done.
  - by exists fl.
  - by rewrite Hb.
  - rewrite Hb. destruct li as [|r l]; [done|]. by exists r, l.
  - by rewrite Hb.
Qed.

Lemma flush_edit_ok v t size li n :
  Forall small_rec li -> total_size li <= max_memtable + max_record -> li ≠ [] -> 0 <= task_fileNum t < 10 ^ 6 ->
  0 <= n < 2 ^ 64 -> version_ok v -> 2 <= len v -> task_fileNum t ∉ map FileNum (concat v) ->
  wf_edit (flush_edit (new_meta t size li) n) ∧ edit_fits v (flush_edit (new_meta t size li) n).
Proof.
  intros Hs Ht Hne Hnum Hn Hv Hlen Hfresh. destruct (sep_elem li Hne) as (x & Hx & Ex).
  destruct (wf_key_small x li Hs Ht Hx) as [Hkx Hlx]. destruct li as [|r l]; [done|].
  destruct (wf_key_small r (r :: l) Hs Ht ltac:(apply elem_of_cons; by left)) as [Hkr Hlr].
  unfold flush_edit, new_meta. cbn [hd_error fmap option_fmap option_map default]. rewrite Ex. split; split_and!; cbn [AddTables DeleteTables].
  - apply Forall_singleton. split_and!; cbn; try done; try lia. all: unfold u64; lia.
  - apply Forall_nil_2.
  - done.
  - cbn. destruct Hkx as (_ & ? & _). lia.
  - cbn. lia.
  - apply Forall_singleton. cbn. lia.
  - apply Forall_nil_2.
  - rewrite map_app. apply NoDup_app. split_and!; [exact Hv| |apply NoDup_singleton].
    intros y Hy ->%list_elem_of_singleton. by apply Hfresh.
  - apply Forall_nil_2.
Qed.

(** *** The log of the flushed memtable *)

(** Close and remove the log, as flush does. *)
Definition drop_log (w : nat) (p : option path) : EM unit :=
  _ ← attempt (err ← wal_Close w; check err);
  _ ← attempt (match p with Some p => remove p | None => fail ErrIO end);
  mret tt.

(** Logs in use have different numbers, so that they are different objects under different paths. *)
Lemma log_ne l0 l md ws f :
  open_log md ws f l0 -> open_log md ws f l -> 0 <= log_num l0 < 10 ^ 6 -> 0 <= log_num l < 10 ^ 6 -> log_num l0 ≠ log_num l ->
  log_w l ≠ log_w l0 ∧ walPath (log_num l0) ≠ walPath (log_num l).
Proof.
  intros (i0 & fl0 & H0 & _) (i & fl & H & _) Hr0 Hr Hne.
  assert (walPath (log_num l0) ≠ walPath (log_num l)) as Hp by (intros E%walPath_inj; lia).
  split; [|done]. intros Ew. rewrite Ew, H0 in H. apply Hp. congruence.
Qed.

Lemma logs_ne pre l0 post e l :
  logs_ok (pre ++ l0 :: post) e -> l ∈ pre ++ post -> log_w l ≠ log_w l0 ∧ walPath (log_num l0) ≠ walPath (log_num l).
Proof.
  intros [Lo Ls Lr _] Hl. rewrite Forall_forall in Lo, Lr.
  assert (l0 ∈ pre ++ l0 :: post ∧ l ∈ pre ++ l0 :: post) as [H0 H1] by (rewrite !elem_of_app, !elem_of_cons in *; tauto).
  pose proof (Lr _ H0). pose proof (Lr _ H1). eapply log_ne; [by apply Lo|by apply Lo|lia|lia|].
  apply StronglySorted_app in Ls as (Ls1 & _ & Ls2). apply StronglySorted_cons in Ls2 as [Ls2 _].
  rewrite Forall_forall in Ls2. apply elem_of_app in Hl as [Hl|Hl].
  - specialize (Ls1 l l0 Hl ltac:(apply elem_of_cons; by left)). cbv beta in Ls1. lia.
  - specialize (Ls2 l Hl). cbv beta in Ls2. lia.
Qed.

(** Closing a log and removing its file. *)
Lemma close_remove_ok e w i fl p :
  fs_ok (fs e) -> wals e !! w = Some (mkWH p i (Mode (opts e)) false) -> dir (fs e) !! p = Some i -> inodes (fs e) !! i = Some fl ->
  ∃ f', drop_log w (Some p) e =
      (Ok tt, set_fs (set_logs e (wal e) (imwal e) (<[w := mkWH p i (Mode (opts e)) true]> (wals e))) f') ∧
    fs_step p (fs e) f' ∧ dir f' = delete p (dir (fs e)).
Proof.
  intros Hf Hw Hd Hi.
  set (fl' := mkFile (fdata fl) (len (fdata fl)) []). set (ws := <[w := _]> (wals e)).
  set (e1 := set_fs (set_logs e (wal e) (imwal e) ws) (set_inode (fs e) i fl')).
  assert (wal_Close w e = (Ok None, e1)) as E1 by by apply wal_Close_ok.
  destruct (set_inode_step p i fl' (fs e) Hf Hd) as [Hs1 _]; [done|].
  destruct (remove_ok p e1) as (f' & E2 & Hs2 & Hd2 & Hi2); [apply Hs1|cbn; by eexists|].
  cbn [fs e1 set_fs] in Hs2, Hd2. exists f'. split_and!; [| |done].
  - unfold drop_log. rewrite (EM_bind_ok _ _ e (inl tt) e1); cycle 1.
    { apply attempt_ok. by rewrite (EM_bind_ok _ _ _ _ _ E1). }
    cbv beta. by rewrite (EM_bind_ok _ _ _ _ _ (attempt_ok _ _ _ _ E2)).
  - eapply fs_step_trans; [exact Hs1|exact Hs2|]. intros j Hj Hj'. by cbn in Hj.
Qed.

Lemma drop_log_ok D lm li pre l0 post e :
  base_ok D lm li (pre ++ l0 :: post) e ->
  ∃ ws f', let e' := set_fs (set_logs e (wal e) (imwal e) ws) f' in
    drop_log (log_w l0) (Some (walPath (log_num l0))) e = (Ok tt, e') ∧ base_ok D lm li (pre ++ post) e'.
Proof.
  intros He. pose proof (bo_fs _ _ _ _ _ He) as Hf. pose proof (bo_logs _ _ _ _ _ He) as Hlogs.
  pose proof (lo_open _ _ Hlogs) as Lo. apply Forall_app in Lo as [Lo1 [(i & fl & Hw & Hd & Hi & _) Lo2]%Forall_cons].
  destruct (close_remove_ok e _ i fl _ Hf Hw Hd Hi) as (f' & E & Hstep & Hd'). set (p := walPath (log_num l0)) in *.
  eexists _, f'. cbn zeta. split; [exact E|]. set (ws := <[log_w l0 := _]> (wals e)).
  refine (base_ok_logs D lm li _ _ e (log_num l0) (vs e) f' (wal e) (imwal e) ws He Hstep eq_refl
    (bo_disk _ _ _ _ _ He) _ _); [done|].
  assert (pre ++ post `sublist_of` pre ++ l0 :: post) as Hsub by (apply sublist_app; [done|by apply sublist_cons]).
  pose proof Hlogs as [_ Ls Lr Ld]. split; cbn [opts wals fs vs set_logs set_fs set_vs].
  - assert (Forall (open_log (Mode (opts e)) (wals e) (fs e)) (pre ++ post)) as Lo by by apply Forall_app.
    rewrite Forall_forall in Lo |- *. intros l Hl. destruct (logs_ne _ _ _ _ l Hlogs Hl) as [Hne Hp].
    pose proof (open_log_step p _ _ _ _ _ Hf (Lo l Hl) Hstep Hp) as (j & x & Hx & Hrest).
    exists j, x. split; [|done]. unfold ws. by rewrite list_lookup_insert_ne.
  - by eapply StronglySorted_sublist.
  - rewrite Forall_forall in Lr |- *. intros l Hl. apply Lr. by eapply elem_of_sublist.
  - intros name Hname. rewrite Hd' in Hname. destruct Hname as [j [Hne Hj]%lookup_delete_Some].
    destruct (Ld name) as (l & Hl & E'); [by exists j|]. exists l. split; [|done].
    rewrite elem_of_app, elem_of_cons in Hl. rewrite elem_of_app. destruct Hl as [|[->|]]; [by left| |by right].
    by rewrite E' in Hne.
Qed.

(** *** The compaction that a flush may start *)

Lemma base_ok_same D lm li logs e e' :
  base_ok D lm li logs e -> fs e' = fs e -> vs e' = vs e -> opts e' = opts e -> wals e' = wals e ->
  mt e' = mt e -> immt e' = immt e -> mts e' = mts e -> tableCache e' = tableCache e -> rworld e' = rworld e ->
  base_ok D lm li logs e'.
Proof.
  intros He E1 E2 E3 E4 E5 E6 E7 E8 E9. apply (base_ok_view D lm li lm li logs e); [done| |apply He|done..].
  destruct (bo_view _ _ _ _ _ He) as [V1 V2 V3 V4]. split; by rewrite ?E1, ?E2, ?E5, ?E6, ?E7, ?E8, ?E9.
Qed.

Lemma level0 D lm li logs e : base_ok D lm li logs e -> ∃ l0 levels, Current (vs e) = l0 :: levels ∧ level_tables (Current (vs e)) 0 = Ok l0.
Proof.
  intros He. destruct (bo_version _ _ _ _ _ He) as [_ Hlen]. destruct (Current (vs e)) as [|l0 levels]; [by cbn in Hlen|].
  by exists l0, levels.
Qed.

Lemma index_lookup {A} (l : list A) i : 0 <= i < len l -> ∃ x, Prelude.index l i = Ok x ∧ l !! Z.to_nat i = Some x.
Proof.
  intros Hi. destruct (lookup_lt_is_Some_2 l (Z.to_nat i)) as [x Hx]; [unfold len in Hi; lia|].
  exists x. unfold Prelude.index. by rewrite (proj2 (Z.leb_le _ _)), Hx by lia.
Qed.

Lemma pickCompactionInputs_ok e level :
  0 <= level < len (Current (vs e)) -> (level = 0 ∨ level < len (compactPointer e)) -> ∃ ins, pickCompactionInputs e level = Ok ins.
Proof.
  intros Hl Hp. unfold pickCompactionInputs, levelSize, level_tables.
  destruct (index_lookup _ _ Hl) as (tables & -> & _). cbn [mbind res_bind].
  destruct (length tables =? 0)%nat; [by eexists|]. destruct (Z.eqb_spec level 0); [by eexists|].
  destruct (index_lookup (compactPointer e) level ltac:(lia)) as (p & -> & _). by eexists.
Qed.

(** A compaction is started: only the queue and the next file number change. *)
Lemma spawn_ok D lm li logs e level :
  base_ok D lm li logs e -> 0 <= level < len (Current (vs e)) -> (level = 0 ∨ level < len (compactPointer e)) ->
  nextFileNum (vs e) < 2 ^ 64 - 1 ->
  ∃ v cq, let e' := set_queues (set_vs e v) (flushChan e) cq in spawn level e = (Ok tt, e') ∧ base_ok D lm li logs e' ∧
    nextFileNum v = nextFileNum (vs e) + 1 ∧ Current v = Current (vs e).
Proof.
  intros He Hl Hp Hlt. destruct (pickCompactionInputs_ok e level Hl Hp) as [ins Hins].
  destruct (next_file_num_ok D lm li logs e He Hlt) as (v & En & He2 & Hv & HC & _).
  exists v, (compactQueue e ++ [mkCT level ins (nextFileNum (vs e))]). cbn zeta. split_and!; [| |done|done].
  - unfold spawn. rewrite (EM_bind_ok _ _ e ins e) by (by rewrite Hins). cbv beta. by rewrite (EM_bind_ok _ _ _ _ _ En).
  - by apply (base_ok_same D lm li logs (set_vs e v)).
Qed.

(** What scheduling may change. *)
Definition scheduled (e : Engine) (v : VersionSet) (c : bool) (cq : list compactTask) : Engine :=
  set_queues (set_compact (set_vs e v) c (compactPointer e)) (flushChan e) cq.

(** The engine's state is as [m] leaves it, up to what scheduling changes. *)
Definition schedules (m : EM unit) (D : gmap Z (list (list Rec))) (lm li : list Rec) (logs : list Log) (e : Engine) : Prop :=
  ∃ v c cq, m e = (Ok tt, scheduled e v c cq) ∧ base_ok D lm li logs (scheduled e v c cq) ∧
    nextFileNum (vs e) <= nextFileNum v <= nextFileNum (vs e) + 1 ∧ Current v = Current (vs e).

Lemma scheduled_base D lm li logs e v cq c :
  base_ok D lm li logs (set_queues (set_vs e v) (flushChan e) cq) -> base_ok D lm li logs (scheduled e v c cq).
Proof. intros He. by apply (base_ok_same D lm li logs _ _ He). Qed.

Lemma spawn_schedules D lm li logs e level :
  base_ok D lm li logs e -> 0 <= level < len (Current (vs e)) -> (level = 0 ∨ level < len (compactPointer e)) ->
  nextFileNum (vs e) < 2 ^ 64 - 1 -> schedules (spawn level) D lm li logs e.
Proof.
  intros He Hl Hp Hlt. destruct (spawn_ok D lm li logs e level He Hl Hp Hlt) as (v & cq & E & He' & Hv & HC).
  exists v, (isCompacting e), cq. split_and!; [by rewrite E; destruct e|by apply scheduled_base|lia|lia|done].
Qed.

Lemma schedule_levels_ok n : ∀ D lm li logs e level,
  base_ok D lm li logs e -> 0 <= level -> level + Z.of_nat n < len (Current (vs e)) -> len (Current (vs e)) <= len (compactPointer e) ->
  nextFileNum (vs e) < 2 ^ 64 - 1 -> schedules (schedule_levels n level) D lm li logs e.
Proof.
  induction n as [|n IH]; intros D lm li logs e level He Hl Hn Hp Hlt; cbn [schedule_levels].
  - exists (vs e), false, (compactQueue e). split_and!; [by destruct e| |lia|lia|done]. by apply (base_ok_same D lm li logs e).
  - destruct (index_lookup (Current (vs e)) level ltac:(lia)) as (ts & Ets & _).
    set (size := foldl (λ total t, i64 (total + i64 (FileSize t))) 0 ts).
    assert (levelSize (Current (vs e)) level = Ok size) as Esz.
    { unfold levelSize, level_tables. by rewrite Ets. }
    destruct (size <=? levelCapacity (opts e) level) eqn:Ec.
    + destruct (IH D lm li logs e (level + 1) He) as (v & c & cq & E & Hrest); [lia..|]. exists v, c, cq. split; [|exact Hrest].
      rewrite (EM_bind_ok _ _ e size e) by (by rewrite Esz). cbv beta.
      rewrite (EM_bind_ok _ _ e (levelCapacity (opts e) level) e) by done. cbv beta. by rewrite Ec.
    + destruct (spawn_schedules D lm li logs e level He) as (v & c & cq & E & Hrest); [lia|lia|lia|]. exists v, c, cq. split; [|exact Hrest].
      rewrite (EM_bind_ok _ _ e size e) by (by rewrite Esz). cbv beta.
      rewrite (EM_bind_ok _ _ e (levelCapacity (opts e) level) e) by done. cbv beta. by rewrite Ec.
Qed.

(** scheduleCompaction starts a compaction of level 0 if that is full, else of the first level that
    is above its capacity, if there is one. *)
Lemma scheduleCompaction_ok D lm li logs e l0 levels :
  base_ok D lm li logs e -> Current (vs e) = l0 :: levels -> MaxL0Files (opts e) <= len l0 ∨ len (Current (vs e)) <= len (compactPointer e) ->
  nextFileNum (vs e) < 2 ^ 64 - 1 -> schedules scheduleCompaction D lm li logs e.
Proof.
  intros He HC Hcase Hlt. unfold scheduleCompaction. pose proof (bo_version _ _ _ _ _ He) as [_ Hlen].
  destruct (isCompacting e) eqn:Eb.
  - exists (vs e), true, (compactQueue e). split_and!; [|by apply (base_ok_same D lm li logs e)|lia|lia|done].
    rewrite (EM_bind_ok _ _ e true e) by (unfold gets; by rewrite Eb). unfold scheduled. by rewrite <- Eb; destruct e.
  - set (e1 := set_compact e true (compactPointer e)).
    assert (base_ok D lm li logs e1) as He1 by by apply (base_ok_same D lm li logs e).
    assert (schedules (if MaxL0Files (opts e) <=? len l0 then spawn 0 else
      n ← gets (λ e, length (Current (vs e))); schedule_levels (n - 2) 1) D lm li logs e1) as (v & c & cq & E & He' & Hrest).
    { destruct (Z.leb_spec (MaxL0Files (opts e)) (len l0)) as [|Hr].
      - apply spawn_schedules; [done|change (vs e1) with (vs e); lia|by left|exact Hlt].
      - destruct (schedule_levels_ok (length (Current (vs e)) - 2) D lm li logs e1 1) as (v & c & cq & E & Hrest);
          [done|lia|change (vs e1) with (vs e); unfold len in *; lia|cbn; lia|exact Hlt|]. exists v, c, cq. split; [|exact Hrest].
        by rewrite (EM_bind_ok _ _ e1 (length (Current (vs e))) e1). }
    exists v, c, cq. split_and!; [|exact He'|apply Hrest..].
    rewrite (EM_bind_ok _ _ e false e) by (unfold gets; by rewrite Eb). cbv beta iota.
    rewrite (EM_bind_ok _ _ e tt e1) by done. rewrite (EM_bind_ok _ _ e1 l0 e1) by (cbn; by rewrite HC). cbv beta.
    rewrite (EM_bind_ok _ _ e1 (MaxL0Files (opts e)) e1) by done. exact E.
Qed.

(** ** The flush as a whole *)

(** The old log of the task, if there are logs. *)
Lemma drop_old_log_ok D lm li li' old logs e t :
  base_ok D lm li' logs e -> log_state e old logs lm li ->
  oldWal t = log_w <$> old -> oldWalPath t = (λ l, walPath (log_num l)) <$> old ->
  ∃ ws f' logs', let e' := set_fs (set_logs e (wal e) (imwal e) ws) f' in
    match oldWal t with Some w => drop_log w (oldWalPath t) | None => mret tt end e = (Ok tt, e') ∧
    base_ok D lm li' logs' e' ∧ log_state e' None logs' lm [].
Proof.
  intros He Hl T5 T5'. rewrite T5, T5'. unfold log_state in Hl. destruct old as [l0|]; cbn [fmap option_fmap option_map].
  - destruct (CrashRecovery (opts e)) eqn:Ecr; [|by destruct Hl]. destruct Hl as (dead & l & -> & Hdead & Hw & Hp). cbn [option_list app] in He.
    destruct (drop_log_ok D lm li' dead l0 [l] e He) as (ws & f' & E & He'). exists ws, f', (dead ++ [l]). split_and!; [done|done|].
    unfold log_state. cbn [opts set_fs set_logs]. rewrite Ecr. exists dead, l.
    split_and!; [done..|]. intros Hlg. by destruct (Hp Hlg).
  - exists (wals e), (fs e), logs. cbn zeta. split_and!; [by destruct e|by apply (base_ok_same D lm li' logs e)|].
    unfold log_state. cbn [opts set_fs set_logs wal]. destruct (CrashRecovery (opts e)); [|done].
    destruct Hl as (dead & l & -> & Hdead & Hw & Hp). exists dead, l.
    split_and!; [done..|]. intros Hlg. by destruct (Hp Hlg).
Qed.

Lemma unref_immt_ok D lm logs e i :
  base_ok D lm [] logs e -> mt_ok lm e -> i ≠ mt e -> immt e = None ->
  ∃ ms, update_mt i Unref e = (Ok tt, set_mems e (mt e) None ms (flips e)) ∧
    base_ok D lm [] logs (set_mems e (mt e) None ms (flips e)) ∧ mt_ok lm (set_mems e (mt e) None ms (flips e)).
Proof.
  intros He [(m & Hm & Hsz) Him] Hne Himm. exists (alter Unref i (mts e)).
  assert (alter Unref i (mts e) !! mt e = Some m) as Hm' by by rewrite list_lookup_alter_ne.
  split_and!; [by unfold update_mt, modify; rewrite Himm| |by split; [exists m|]].
  destruct (view_mt _ _ _ _ (bo_view _ _ _ _ _ He)) as (m0 & Hm0 & Hh). rewrite Hm in Hm0. injection Hm0 as <-.
  eapply base_ok_mems; [exact He|by exists m|done|apply He].
Qed.

(** The part under the lock, after the edit. *)
Lemma install_rest_ok D lm li old logs e t :
  base_ok D lm li logs e -> mt_ok lm e -> log_state e old logs lm li -> immt e = Some (task_mt t) ->
  oldWal t = log_w <$> old -> oldWalPath t = (λ l, walPath (log_num l)) <$> old ->
  nextFileNum (vs e) < 2 ^ 64 - 1 ->
  ∃ e' logs', (_ ← match oldWal t with Some w => drop_log w (oldWalPath t) | None => mret tt end;
     im ← gets immt;
     _ ← modify (λ e, set_logs (set_mems e (mt e) None (mts e) (flips e)) (wal e) None (wals e));
     l0 ← (λ e, (level_tables (Current (vs e)) 0, e));
     maxL0 ← gets (λ e, MaxL0Files (opts e));
     _ ← (if maxL0 <=? len l0 then scheduleCompaction else mret tt);
     match im with Some i => update_mt i Unref | None => mret tt end) e = (Ok tt, e') ∧
    base_ok D lm [] logs' e' ∧ mt_ok lm e' ∧ log_state e' None logs' lm [] ∧ same_rest e e' ∧ immt e' = None ∧
    nextFileNum (vs e') <= nextFileNum (vs e) + 1 ∧ Current (vs e') = Current (vs e).
Proof.
  intros He Hmt Hl Him T5 T5' Hn.
  destruct (drop_old_log_ok D lm li li old logs e t He Hl T5 T5') as (ws & f' & logs' & E1 & He1 & Hl1).
  set (e1 := set_fs (set_logs e (wal e) (imwal e) ws) f') in *.
  set (e2 := set_logs (set_mems e1 (mt e1) None (mts e1) (flips e1)) (wal e1) None (wals e1)).
  assert (base_ok D lm [] logs' e2) as He2.
  { destruct Hmt as [(m & Hm & _) _]. destruct (view_mt _ _ _ _ (bo_view _ _ _ _ _ He)) as (m0 & Hm0 & Hh).
    pose proof (bo_small _ _ _ _ _ He) as [Hsm _]%Forall_app.
    assert (base_ok D lm [] logs' (set_mems e1 (mt e1) None (mts e1) (flips e1))) as Hb.
    { eapply base_ok_mems; [exact He1|by exists m0|done|by rewrite app_nil_r]. }
    by apply (base_ok_same _ _ _ _ _ e2 Hb). }
  destruct (level0 _ _ _ _ _ He2) as (l0 & levels & HC & Hlev). change (Current (vs e2)) with (Current (vs e)) in HC.
  assert (∃ v c cq, let e3 := set_queues (set_compact (set_vs e2 v) c (compactPointer e2)) (flushChan e2) cq in
    (if MaxL0Files (opts e) <=? len l0 then scheduleCompaction else mret tt) e2 = (Ok tt, e3) ∧
    base_ok D lm [] logs' e3 ∧ nextFileNum v <= nextFileNum (vs e) + 1 ∧ Current v = Current (vs e))
    as (v & c & cq & E3 & He3 & Hv & HC3).
  { destruct (Z.leb_spec (MaxL0Files (opts e)) (len l0)) as [Hfull|Hroom].
    - destruct (scheduleCompaction_ok D lm [] logs' e2 l0 levels He2 HC (or_introl Hfull) Hn) as (v & c & cq & E & He3 & Hv & HCv).
      exists v, c, cq. split_and!; [done|done| |done]. change (vs e2) with (vs e) in Hv. lia.
    - exists (vs e2), (isCompacting e2), (compactQueue e2). cbn zeta. split_and!; [done|by apply (base_ok_same D lm [] logs' e2)|cbn; lia|done]. }
  set (e3 := set_queues (set_compact (set_vs e2 v) c (compactPointer e2)) (flushChan e2) cq) in *.
  destruct (unref_immt_ok D lm logs' e3 (task_mt t) He3) as (ms & E4 & He4 & Hmt4); [|by destruct Hmt as [_ Hne]; cbn; congruence|done|].
  { destruct Hmt as [Hm _]. split; [exact Hm|done]. }
  eexists _, logs'. split_and!; [|exact He4|exact Hmt4|exact Hl1|by split|done|cbn; lia|exact HC3].
  rewrite (EM_bind_ok _ _ _ _ _ E1). cbv beta. rewrite (EM_bind_ok _ _ e1 (Some (task_mt t)) e1) by (unfold gets; by rewrite <- Him).
  cbv beta. rewrite (EM_bind_ok _ _ e1 tt e2) by done. rewrite (EM_bind_ok _ _ e2 l0 e2) by (by rewrite Hlev). cbv beta.
  rewrite (EM_bind_ok _ _ e2 (MaxL0Files (opts e)) e2) by done. cbv beta. rewrite (EM_bind_ok _ _ _ _ _ E3). exact E4.
Qed.

(** The flush of the pending task. *)
Lemma flush_ok D lm li old logs e t :
  base_ok D lm li logs e -> mt_ok lm e -> log_state e old logs lm li -> task_ok D li old e t -> li ≠ [] ->
  total_size li <= max_memtable + max_record -> nextFileNum (vs e) + 2 <= 10 ^ 6 ->
  ∃ e' logs' bs m, let D' := <[task_fileNum t := bs]> D in flush t e = (Ok tt, e') ∧
    base_ok D' lm [] logs' e' ∧ mt_ok lm e' ∧ log_state e' None logs' lm [] ∧ same_rest e e' ∧ immt e' = None ∧
    nextFileNum (vs e') <= nextFileNum (vs e) + 2 ∧ D !! task_fileNum t = None ∧ concat bs = li ∧
    FileNum m = task_fileNum t ∧ Current (vs e') = alter (λ l, l ++ [m]) 0%nat (Current (vs e)).
Proof.
  intros He Hmt Hl Ht Hne Hsz Hn. pose proof (tk_num _ _ _ _ _ Ht) as (Hnum & Hnum' & HD).
  destruct (write_flush_table D lm li old logs e t He Ht Hne Hsz) as (f' & fl & bs & E & Hstep & Hfile & Htab & Hbs & Hsorted & Hdur).
  set (D' := <[task_fileNum t := bs]> D). set (m := new_meta t (len (fdata fl)) li) in *.
  assert (base_ok D' lm li logs (set_fs e f')) as He1 by (apply (base_ok_new_table D lm li logs e (task_fileNum t) 0); (done || lia)).
  destruct (next_file_num_ok D' lm li logs (set_fs e f') He1) as (v & En & He2 & Hv & HC & Hmf); [cbn; lia|].
  set (n := nextFileNum (vs (set_fs e f'))) in *. change (vs (set_fs e f')) with (vs e) in Hv, HC, n.
  set (e2 := set_vs (set_fs e f') v) in *. pose proof (bo_numbers _ _ _ _ _ He) as [Hn0 _].
  destruct (flush_edit_ok (Current (vs e2)) t (len (fdata fl)) li n) as [Hwf Hfit]; try done; try lia.
  { by pose proof (bo_small _ _ _ _ _ He) as [_ ?]%Forall_app. }
  { apply (bo_version _ _ _ _ _ He2). }
  { apply (bo_version _ _ _ _ _ He2). }
  { intros (t0 & E0 & Ht0)%list_elem_of_fmap. cbn [vs e2 set_vs] in Ht0. rewrite HC in Ht0.
    pose proof (view_tables _ _ _ _ (bo_view _ _ _ _ _ He)) as Hts. rewrite Forall_forall in Hts.
    destruct (Hts t0 Ht0) as (bs0 & Hok). pose proof (tok_disk _ _ _ _ Hok) as Hd. congruence. }
  fold m in Hwf, Hfit.
  destruct (base_ok_edit D' lm li logs e2 (flush_edit m n) He2 Hwf Hfit) as (v' & El & He3 & HC' & Hv').
  { apply Forall_singleton. exists bs. apply new_meta_ok; try done; [lia|]. apply lookup_insert_eq. }
  { assert (logged (vs e2) = logged (vs e)) as El by (unfold logged; cbn [vs e2 set_vs]; by rewrite Hmf).
    pose proof (dk_next _ _ (bo_disk _ _ _ _ _ He)). split; rewrite ?El; cbn [flush_edit NextFileNum_ AddTables LastSequence default].
    - cbn [vs e2 set_vs]. unfold n. cbn. lia.
    - apply Forall_singleton. split; [apply Hnum|]. intros fl' Hfl'. cbn in Hfl'. congruence.
    - intros _. split; [done|]. intros s [= <-]. exists m. split; [by apply list_elem_of_singleton|done]. }
  set (e3 := set_vs e2 v') in *. cbn [vs e2 set_vs] in HC', Hv'.
  destruct (install_rest_ok D' lm li old logs e3 t He3) as (e' & logs' & Er & He' & Hmt' & Hl' & Hs & Him & Hn' & HC'');
    [exact Hmt|exact Hl|apply Ht|apply (tk_old _ _ _ _ _ Ht)|apply (tk_old _ _ _ _ _ Ht)|cbn; lia|].
  exists e', logs', bs, m. cbn zeta. split_and!; [|done|done|done| |done| |done|done|done|].
  - rewrite E, (EM_bind_ok _ _ _ _ _ En). fold e2. unfold install_flush. rewrite (EM_bind_ok _ _ _ _ _ El). exact Er.
  - etrans; [|exact Hs]. by split.
  - cbn in Hn'. lia.
  - etrans; [exact HC''|]. change (Current v' = alter (λ l, l ++ [m]) 0%nat (Current (vs e))). by rewrite HC', HC.
Qed.

(** The flusher's turn, when a flush is pending. *)
Lemma run_flush_ok D lm li old logs e t :
  state_ok D lm li old logs e -> flushChan e = [t] -> nextFileNum (vs e) + 2 <= 10 ^ 6 ->
  ∃ e' logs' bs m, let D' := <[FileNum m := bs]> D in run_flush e = (Ok tt, e') ∧
    state_ok D' lm [] None logs' e' ∧ same_core e e' ∧ flushChan e' = [] ∧
    nextFileNum (vs e') <= nextFileNum (vs e) + 2 ∧ D !! FileNum m = None ∧ concat bs = li ∧
    Current (vs e') = alter (λ l, l ++ [m]) 0%nat (Current (vs e)).
Proof.
  intros [He Hmt Hl Hp Hroom] Hq Hn. unfold pending_ok in Hp. rewrite Hq in Hp. destruct Hp as (Ht & Hne & Hsz).
  set (e1 := set_queues e [] (compactQueue e)).
  assert (base_ok D lm li logs e1) as He1 by by apply (base_ok_same D lm li logs e).
  destruct (flush_ok D lm li old logs e1 t He1) as (e' & logs' & bs & m & E & He' & Hmt' & Hl' & Hs & Him & Hn' & HD & Hbs & Hm & HC);
    [exact Hmt|exact Hl|by destruct Ht|done|done|exact Hn|].
  assert (flushChan e' = []) as Hq' by by rewrite (sr_flushes _ _ Hs).
  exists e', logs', bs, m. cbn zeta. rewrite Hm. split_and!; [| |by destruct (same_rest_core _ _ Hs)|done|exact Hn'|done|done|exact HC].
  - unfold run_flush. rewrite (EM_bind_ok _ _ e [t] e) by (unfold gets; by rewrite Hq). cbv beta iota.
    rewrite (EM_bind_ok _ _ e tt e1) by done. by rewrite (EM_bind_ok _ _ _ _ _ (attempt_ok _ _ _ _ E)).
  - split; [done|done|done| |]; [unfold pending_ok; by rewrite Hq'|]. by rewrite (sr_opts _ _ Hs).
Qed.
End flush.
