(* ===== verification/EngineMerge.v ===== *)
(** * Package engine: what a compaction writes

    writeCompactionOutput keeps of the merged records the newest version of every key, and writes
    them, in order, into tables of the next level. *)

From S2P Require Import Prelude.
From S2P Require Import GoStd.
From S2P Require Import GoIO.
From S2P Require Import Records.
From S2P Require Import Skiplist.
From S2P Require Import Versions.
From S2P Require Import Memtable.
From S2P Require Import Config.
From S2P Require Import Wal.
From S2P Require Import GoHeap.
From S2P Require Import Iterators.
From S2P Require Import Filter.
From S2P Require Import Blocks.
From S2P Require Import BlockCache.
From S2P Require Import Names.
From S2P Require Import TableWriter.
From S2P Require Import TableReader.
From S2P Require Import Meta.
From S2P Require Import Scan.
From S2P Require Import EngineState.
From S2P Require Import EngineRead.
From S2P Require Import EngineCompact.
From S2P Require Import EngineWrite.
From S2P Require Import EngineFs.
From S2P Require Import EngineDisk.
From S2P Require Import EngineFlow.
From S2P Require Import EngineFlush.

(** ** The records that are kept *)

(** The first record of every key but [last]; at the bottom without the tombstones that no
    snapshot is before. *)
Fixpoint kept (bottom : bool) (oldest : Z) (last : bytes) (l : list Rec) : list Rec :=
  match l with
  | [] => []
  | r :: l =>
      if bytes_Equal (UserKey r) last then kept bottom oldest last l
      else if (KType r =? TypeDel) && bottom && (SeqNum r <? oldest) then kept bottom oldest (UserKey r) l
      else r :: kept bottom oldest (UserKey r) l
  end.

Lemma bytes_lt_le_trans a b c : bytes_Compare a b < 0 -> bytes_Compare b c <= 0 -> bytes_Compare a c < 0.
Proof.
  intros H1 H2. destruct (Z.ltb_spec (bytes_Compare a c) 0) as [|H3]; [done|]. rewrite bytes_Compare_opp in H3.
  pose proof (bytes_Compare_le_trans b c a H2 ltac:(lia)) as H. rewrite bytes_Compare_opp in H. lia.
Qed.

Section kept.
Context (bottom : bool) (oldest : Z).

Lemma kept_sublist last l : kept bottom oldest last l `sublist_of` l.
Proof.
  revert last. induction l as [|r l IH]; intros last; [done|]. cbn [kept].
  destruct (bytes_Equal _ _); [by apply sublist_cons|]. destruct (_ && _); [by apply sublist_cons|by apply sublist_skip].
Qed.

(** Every record of the list is not before the key. *)
Definition from_key (last : bytes) (l : list Rec) : Prop := Forall (λ r : Rec, bytes_Compare last (UserKey r) <= 0) l.

Lemma from_key_first r l : sorted_recs (r :: l) -> from_key (UserKey r) l.
Proof.
  intros [Hr _]%StronglySorted_cons. eapply Forall_impl; [exact Hr|]. intros x. apply Compare_le_keys.
Qed.

(** What is kept is beyond the key, with every key once. *)
Lemma kept_ascending last l :
  sorted_recs l -> from_key last l ->
  keys_ascending (kept bottom oldest last l) ∧ Forall (λ r : Rec, bytes_Compare last (UserKey r) < 0) (kept bottom oldest last l).
Proof.
  revert last. induction l as [|r l IH]; intros last Hs Hl; [by repeat constructor|].
  pose proof (from_key_first r l Hs) as Hf. apply Forall_cons in Hl as [Hr Hl]. apply StronglySorted_cons in Hs as [_ Hs].
  cbn [kept]. unfold bytes_Equal. case_bool_decide as Ek; [by apply IH|].
  assert (bytes_Compare last (UserKey r) < 0) as Hlt.
  { assert (bytes_Compare last (UserKey r) ≠ 0) by (intros E%bytes_Compare_eq; congruence). lia. }
  destruct (IH (UserKey r) Hs Hf) as [Ha Hk].
  assert (Forall (λ x : Rec, bytes_Compare last (UserKey x) < 0) (kept bottom oldest (UserKey r) l)) as Hk'.
  { eapply Forall_impl; [exact Hk|]. intros x Hx. eapply bytes_lt_le_trans; [exact Hlt|]. cbv beta in Hx. lia. }
  destruct (_ && _); [done|]. by repeat constructor.
Qed.

Lemma newest_cons_ne k s (r : Rec) l o : UserKey r ≠ k -> newest k s (r :: l) o <-> newest k s l o.
Proof.
  intros Hne. destruct o as [x|]; cbn.
  - split.
    + intros ([->|Hx]%elem_of_cons & Hv & Hm); [by destruct Hv|]. split_and!; [done|done|].
      intros r' Hr'. apply Hm. apply elem_of_cons. by right.
    + intros (Hx & Hv & Hm). split_and!; [apply elem_of_cons; by right|done|].
      intros r' [->|Hr']%elem_of_cons Hv'; [by destruct Hv'|by apply Hm].
  - split; intros H x Hx; [apply H, elem_of_cons; by right|]. apply elem_of_cons in Hx as [->|Hx]; [by intros [? _]|by apply H].
Qed.

Lemma unique_cons (r : Rec) l : unique_versions (r :: l) -> unique_versions l.
Proof. intros Hu x y Hx Hy. apply Hu; apply elem_of_cons; by right. Qed.

(** Of the versions of a key the newest one is kept, unless it is a tombstone at the bottom. *)
Lemma kept_newest last l k s o :
  sorted_recs l -> from_key last l -> unique_versions l -> k ≠ last -> (∀ r : Rec, r ∈ l -> SeqNum r <= s) -> newest k s l o ->
  ∃ o', newest k s (kept bottom oldest last l) o' ∧ (o' = o ∨ o' = None ∧ bottom = true ∧ read_result o = None).
Proof.
  revert last. induction l as [|r l IH]; intros last Hs Hl Hu Hk Hle Ho; [exists o; split; [done|by left]|].
  pose proof (from_key_first r l Hs) as Hf. pose proof Hs as [Hr Hs']%StronglySorted_cons. apply Forall_cons in Hl as [_ Hl].
  assert (∀ x : Rec, x ∈ l -> SeqNum x <= s) as Hle' by (intros x Hx; apply Hle, elem_of_cons; by right).
  apply unique_cons in Hu as Hu'. cbn [kept]. unfold bytes_Equal. case_bool_decide as Ek.
  { apply IH; try done. apply (newest_cons_ne k s r); [congruence|done]. }
  destruct (decide (UserKey r = k)) as [<-|Hne].
  - assert (newest (UserKey r) s (r :: l) (Some r)) as Hnew.
    { split_and!; [apply elem_of_cons; by left|split; [done|apply Hle, elem_of_cons; by left]|].
      intros x [->|Hx]%elem_of_cons [Ex _]; [done|]. rewrite Forall_forall in Hr.
      destruct (proj1 (Compare_le_iff _ _) (Hr x Hx)) as [Hlt|[_ ?]]; [|done]. rewrite Ex in Hlt.
      by rewrite (proj2 (bytes_Compare_eq _ _)) in Hlt. }
    rewrite (newest_unique _ _ _ _ _ Hu Ho Hnew).
    destruct (kept_ascending (UserKey r) l Hs' Hf) as [_ Hafter].
    assert (newest (UserKey r) s (kept bottom oldest (UserKey r) l) None) as Hnone.
    { apply newest_none. rewrite Forall_forall in Hafter. intros x Hx E. specialize (Hafter x Hx). cbv beta in Hafter.
      by rewrite (proj2 (bytes_Compare_eq _ _)) in Hafter. }
    destruct (_ && _) eqn:Ed.
    + exists None. split; [done|right]. apply andb_true_iff in Ed as [[Ed ->]%andb_true_iff _]. split_and!; [done|done|].
      cbn. unfold IsTombstone. by rewrite Ed.
    + exists (Some r). split; [|by left]. pose proof Hnew as (_ & Hv & _). split_and!; [apply elem_of_cons; by left|done|].
      intros x [->|Hx]%elem_of_cons Hvx; [done|]. by destruct (Hnone x Hx).
  - apply (newest_cons_ne k s r l o Hne) in Ho. destruct (IH (UserKey r) Hs' Hf Hu' (not_eq_sym Hne) Hle' Ho) as (o' & Ho' & Hc).
    exists o'. split; [|done]. destruct (_ && _); [done|]. by apply newest_cons_ne.
Qed.

(** So the reads of records that have, beside [l], only newer versions of its keys stay the same. *)
Lemma kept_reads rest l k s o :
  sorted_recs l -> unique_versions l -> k ≠ [] -> (∀ r : Rec, r ∈ rest ++ l -> SeqNum r <= s) ->
  (bottom = true -> newer_layer rest l) -> newest k s (rest ++ l) o -> unique_versions (rest ++ l) ->
  ∃ o', newest k s (rest ++ kept bottom oldest [] l) o' ∧ read_result o' = read_result o.
Proof.
  intros Hs Hu Hk Hle Hb Ho Huu.
  destruct (newest_exists k s rest) as [o1 H1], (newest_exists k s l) as [o2 H2].
  rewrite (newest_unique _ _ _ _ _ Huu Ho (newest_app _ _ _ _ _ _ H1 H2)).
  destruct (kept_newest [] l k s o2) as (o2' & H2' & Hc); try done.
  { apply Forall_forall. intros x _. by destruct (UserKey x). }
  { intros r Hr. apply Hle, elem_of_app. by right. }
  exists (newer o1 o2'). split; [by apply newest_app|]. destruct Hc as [->|(-> & Hbot & Hrd)]; [done|].
  destruct o1 as [r1|]; cbn [newer]; [|by destruct o2]. destruct o2 as [r2|]; [|done].
  destruct H1 as (Hi1 & [E1 _] & _), H2 as (Hi2 & [E2 _] & _).
  pose proof (Hb Hbot r1 r2 Hi1 Hi2 ltac:(congruence)). destruct (Z.ltb_spec (SeqNum r1) (SeqNum r2)); [lia|done].
Qed.
End kept.

(** ** Writing tables *)

Section output.
Context `{FE : FloatEnv} `{LG : Logged}.
Context (D : gmap Z (list (list Rec))) (lm li : list Rec) (logs : list Log) (level : Z).

(** A new table of the level that holds the records. *)
Definition out_table (f : FS) (t : TableMeta) (recs : list Rec) : Prop :=
  ∃ bs, table_ok {[FileNum t := bs]} f t bs ∧ concat bs = recs ∧ synced f t ∧ Level t = level ∧ 0 <= FileSize t < 2 ^ 64.

(** The tables written so far hold the [parts]; their numbers and the next one are new. *)
Record outputs (parts : list (list Rec)) (o : Output) (e : Engine) : Prop := {
  ou_base : base_ok D lm li logs e;
  ou_tables : Forall2 (out_table (fs e)) (outTables o) parts;
  ou_sorted : StronglySorted (λ t t', FileNum t < FileNum t') (outTables o);
  ou_numbers : Forall (λ t, D !! FileNum t = None ∧ FileNum t < out_fileNum o) (outTables o);
  ou_next : D !! out_fileNum o = None ∧ 0 <= out_fileNum o < nextFileNum (vs e)
}.

(** The table that is being written holds [cur]. *)
Definition current_writer (cur : list Rec) (o : Output) (f : FS) : Prop :=
  ∃ w bs blk, out_writer o = Some (w, tablePath level (out_fileNum o)) ∧ writes w bs blk ∧ concat bs ++ blk = cur ∧
    no_faults (TableWriter.file w) ∧ is_Some (dir f !! tablePath level (out_fileNum o)) ∧
    out_first o = bool_decide (cur = []) ∧
    (cur ≠ [] -> out_firstKey o = default (mkIK [] 0 0) (RKey <$> hd_error cur) ∧ out_lastKey o = sep cur).

Lemma out_table_step p f f' t recs :
  fs_ok f -> fs_step p f f' -> tablePath (Level t) (FileNum t) ≠ p -> out_table f t recs -> out_table f' t recs.
Proof.
  intros Hf Hs Hp (bs & Ht & Hbs & Hsy & Hl). exists bs. split_and!; [by eapply table_ok_mono|done|by eapply synced_step|apply Hl..].
Qed.

(** The file of the table that is being written changes. *)
Lemma outputs_step parts o o' e f' :
  outputs parts o e -> out_fileNum o < 10 ^ 6 -> fs_step (tablePath level (out_fileNum o)) (fs e) f' ->
  outTables o' = outTables o -> out_fileNum o' = out_fileNum o -> outputs parts o' (set_fs e f').
Proof.
  intros [Hb Ht Hs Hn [Hx1 Hx2]] Hlt Hstep Et En. split; cbn; rewrite ?Et, ?En; try done.
  - eapply base_ok_table; [exact Hb|exact Hstep|]. intros t bs Hin Hok. eapply fresh_table_path; [exact Hok|lia|done].
  - assert (∀ t, t ∈ outTables o -> FileNum t < out_fileNum o) as Hlt'.
    { intros t Hin. rewrite Forall_forall in Hn. by apply Hn. }
    clear -Ht Hstep Hb Hlt Hx2 Hlt'. induction Ht as [|t recs ts ps Hr Ht IH]; constructor.
    + eapply out_table_step; [apply Hb|exact Hstep| |exact Hr]. destruct Hr as (bs & Hok & _). destruct (tok_num _ _ _ _ Hok).
      specialize (Hlt' t ltac:(apply elem_of_cons; by left)). intros [_ E]%tablePath_inj; lia.
    + apply IH. intros t' Hin. apply Hlt', elem_of_cons. by right.
Qed.

Lemma outputs_same parts o o' e :
  outputs parts o e -> outTables o' = outTables o -> out_fileNum o' = out_fileNum o -> outputs parts o' e.
Proof. intros [Hb Ht Hs Hn Hx] Et En. split; rewrite ?Et, ?En; done. Qed.

Lemma openWriter_ok parts o e :
  outputs parts o e -> out_fileNum o < 10 ^ 6 ->
  ∃ o' f', openWriter level o e = (Ok o', set_fs e f') ∧ outputs parts o' (set_fs e f') ∧ current_writer [] o' f' ∧
    out_fileNum o' = out_fileNum o.
Proof.
  intros Ho Hlt. pose proof (ou_base _ _ _ Ho) as Hb.
  destruct (new_table_ok level (out_fileNum o) e) as (w & f' & E & Hs & Hd & Hw & Hnf); [apply Hb|apply Hb|].
  eexists _, f'. split_and!; [by unfold openWriter; rewrite (EM_bind_ok _ _ _ _ _ E)|by eapply outputs_step| |done].
  exists w, [], []. by split_and!.
Qed.

Lemma hd_error_app {A} (l : list A) x : l ≠ [] -> hd_error (l ++ [x]) = hd_error l.
Proof. by destruct l. Qed.

(** A record goes into the table. *)
Lemma add_record_ok parts cur o e r :
  outputs parts o e -> current_writer cur o (fs e) -> out_fileNum o < 10 ^ 6 -> small_rec r -> table_small (cur ++ [r]) ->
  ∃ w p w' f', let o' := mkOut (Some (w', p)) (out_fileNum o) (outTables o) (if out_first o then RKey r else out_firstKey o) (RKey r) false in
    out_writer o = Some (w, p) ∧ TableWriter.Add w r = Ok (w', None) ∧ put_file p (TableWriter.file w') e = (Ok tt, set_fs e f') ∧
    outputs parts o' (set_fs e f') ∧ current_writer (cur ++ [r]) o' f'.
Proof.
  intros Ho (w & bs & blk & Ew & Hw & Hcur & Hnf & Hd & Hfirst & Hkeys) Hlt Hr Hsm. subst cur.
  destruct (Add_writes w bs blk r Hw Hr Hsm) as (w' & err & Ea & Hw'). destruct (Add_ok _ _ _ _ Hnf Ea) as [-> Hnf'].
  destruct (Hw' eq_refl) as (bs' & blk' & Hww & Ebs).
  destruct (put_file_ok (tablePath level (out_fileNum o)) (TableWriter.file w') e) as (f' & Ep & Hs & _ & Hdir); [apply Ho|done|done|].
  exists w, (tablePath level (out_fileNum o)), w', f'. cbn zeta. split_and!; [done|done|exact Ep|by eapply outputs_step|].
  exists w', bs', blk'. cbn [out_writer out_fileNum out_first out_firstKey out_lastKey]. split_and!; [done|done|done|done|by rewrite Hdir| |].
  - rewrite bool_decide_false; [done|]. by destruct (concat bs ++ blk).
  - intros _. rewrite sep_snoc. split; [|done]. rewrite Hfirst. case_bool_decide as Ec; [by rewrite Ec|].
    rewrite hd_error_app by done. by apply Hkeys.
Qed.

Lemma out_table_new f n recs fl bs size :
  fs_file f (tablePath level n) = Some fl -> table_of (fdata fl) bs -> concat bs = recs -> sorted_recs recs -> recs ≠ [] ->
  fdurable fl = len (fdata fl) -> 0 <= n < 10 ^ 6 -> 0 <= size < 2 ^ 64 ->
  out_table f (mkTM n size level (default (mkIK [] 0 0) (RKey <$> hd_error recs)) (sep recs)) recs.
Proof.
  intros Hfl Ht Hbs Hs Hne Hd Hn Hsz. exists bs. split_and!; [|done| |done|apply Hsz..].
  - split; cbn [FileNum Level MinKey MaxKey]; [apply lookup_singleton_eq|by exists fl|by rewrite Hbs| |by rewrite Hbs|done].
    rewrite Hbs. destruct recs as [|r l]; [done|]. by exists r, l.
  - intros x Hx. cbn [FileNum Level] in Hx. rewrite Hfl in Hx. by injection Hx as <-.
Qed.

(** The table that is being written is completed. *)
Lemma closeWriter_ok parts cur o e :
  outputs parts o e -> current_writer cur o (fs e) -> cur ≠ [] -> sorted_recs cur -> 0 <= level < 2 ^ 32 ->
  nextFileNum (vs e) < 10 ^ 6 ->
  ∃ o' v f', let e' := set_vs (set_fs e f') v in closeWriter level o e = (Ok o', e') ∧
    outputs (parts ++ [cur]) o' e' ∧ out_writer o' = None ∧ nextFileNum v = nextFileNum (vs e) + 1 ∧ Current v = Current (vs e) ∧
    manifest v = manifest (vs e).
Proof.
  intros Ho (w & bs & blk & Ew & Hw & Hcur & Hnf & Hd & Hfirst & Hkeys) Hne Hsorted Hlev Hlt. pose proof (ou_next _ _ _ Ho) as [Hx1 Hx2].
  pose proof (bo_numbers _ _ _ _ _ (ou_base _ _ _ Ho)) as [Hn0 _].
  destruct (close_table_ok w (tablePath level (out_fileNum o)) bs blk e) as (size & f' & fl & Ec & Hs & Hdir & Hfl & (bs' & Ht & Ebs) & Esz & Hdur);
    [done|done|apply Ho|done|]. rewrite Hcur in Ebs.
  pose proof (outputs_step parts o o e f' Ho ltac:(lia) Hs eq_refl eq_refl) as Ho1.
  destruct (next_file_num_ok D lm li logs (set_fs e f')) as (v & En & Hv & Hnv & HCv & Hmv); [apply Ho1|cbn; lia|].
  cbn [vs set_fs] in Hnv, HCv, Hmv, En. destruct (Hkeys Hne) as [Ek1 Ek2].
  set (t := mkTM (out_fileNum o) (u64 size) (u32 level) (out_firstKey o) (out_lastKey o)).
  exists (mkOut None (nextFileNum (vs e)) (outTables o ++ [t]) (out_firstKey o) (out_lastKey o) (out_first o)), v, f'.
  cbn zeta. split_and!; [| |done|done|done|done].
  - unfold closeWriter. rewrite Ew. rewrite (EM_bind_ok _ _ _ _ _ Ec). cbv beta. rewrite (EM_bind_ok _ _ _ _ _ En). reflexivity.
  - destruct Ho1 as [Hb1 Ht1 Hs1 Hnum1 _]. rewrite Forall_forall in Hnum1. split; cbn [outTables out_fileNum fs set_vs set_fs vs]; [done| | | |].
    + apply Forall2_app; [exact Ht1|]. constructor; [|constructor]. unfold t. rewrite u32_small, Ek1, Ek2 by done.
      eapply out_table_new; [exact Hfl|exact Ht|done|done|done|congruence|lia|unfold u64; lia].
    + apply StronglySorted_app. split_and!; [|done|by repeat constructor].
      intros t1 t2 H1 ->%list_elem_of_singleton. cbn. by apply Hnum1.
    + apply Forall_app. split; [|apply Forall_singleton; cbn; split; [done|lia]].
      apply Forall_forall. intros t1 H1. destruct (Hnum1 t1 H1). split; [done|lia].
    + split; [|lia]. eapply number_fresh; [exact Hb1|]. cbn. lia.
Qed.

(** *** A round *)

(** File numbers have been taken. *)
Definition more_files (k : Z) (v v' : VersionSet) : Prop :=
  Current v' = Current v ∧ manifest v' = manifest v ∧ nextFileNum v <= nextFileNum v' <= nextFileNum v + k.

(** What a round changes. *)
Definition wrote (e : Engine) (v : VersionSet) (f : FS) (w : RWorld) : Engine := set_tables (set_fs (set_vs e v) f) (tableCache e) w.

Lemma sorted_ascending l : keys_ascending l -> sorted_recs l.
Proof.
  induction 1 as [|x l _ IH Hx]; constructor; [done|]. eapply Forall_impl; [exact Hx|]. intros y Hy. apply Compare_le_iff. by left.
Qed.

Lemma output_record_ok parts cur o e r :
  outputs parts o e -> current_writer cur o (fs e) -> small_rec r -> table_small (cur ++ [r]) -> sorted_recs (cur ++ [r]) ->
  0 <= level < 2 ^ 32 -> nextFileNum (vs e) + 1 < 10 ^ 6 ->
  ∃ o' v f parts' cur', let e' := set_vs (set_fs e f) v in output_record level r o e = (Ok o', e') ∧
    outputs parts' o' e' ∧ current_writer cur' o' f ∧ concat parts' ++ cur' = (concat parts ++ cur) ++ [r] ∧ more_files 1 (vs e) v.
Proof.
  intros Ho Hc Hr Hsm Hsorted Hlev Hn. pose proof (ou_next _ _ _ Ho) as [_ Hx].
  destruct (add_record_ok parts cur o e r Ho Hc ltac:(lia) Hr Hsm) as (w & p & w' & f1 & Ew & Ea & Ep & Ho1 & Hc1).
  set (o1 := mkOut _ _ _ _ _ _) in *. set (e1 := set_fs e f1) in *. unfold output_record. rewrite Ew.
  rewrite (EM_bind_ok (lift (TableWriter.Add w r)) _ e (w', None) e) by (unfold lift; by rewrite Ea).
  cbv beta iota. rewrite (EM_bind_ok _ _ _ _ _ Ep). cbv beta. rewrite (EM_bind_ok _ _ e1 tt e1) by done. cbv beta.
  rewrite (EM_bind_ok _ _ e1 (MaxSSTableSize (opts e)) e1) by done. cbv beta. fold o1.
  destruct (MaxSSTableSize (opts e) <=? EstimatedSize w').
  - destruct (closeWriter_ok parts (cur ++ [r]) o1 e1 Ho1 Hc1) as (o2 & v & f2 & E2 & Ho2 & _ & Hnv & HCv & Hmv);
      [by destruct cur|done|done|cbn; lia|]. cbn [vs e1 set_fs] in Hnv, HCv, Hmv.
    set (e2 := set_vs (set_fs e1 f2) v) in *. pose proof (ou_next _ _ _ Ho2) as [_ Hx2]. cbn [vs e2 set_vs] in Hx2.
    destruct (openWriter_ok (parts ++ [cur ++ [r]]) o2 e2 Ho2) as (o3 & f3 & E3 & Ho3 & Hc3 & _); [lia|].
    exists o3, v, f3, (parts ++ [cur ++ [r]]), []. cbn zeta. split_and!; [|exact Ho3|exact Hc3| |split_and!; (done || lia)].
    + rewrite (EM_bind_ok _ _ _ _ _ E2). cbv beta. exact E3.
    + rewrite concat_app. cbn [concat]. by rewrite !app_nil_r, app_assoc.
  - exists o1, (vs e), f1, parts, (cur ++ [r]). cbn zeta. split_and!; [by destruct e|by destruct e|exact Hc1|by rewrite app_assoc|].
    split_and!; (done || lia).
Qed.

Lemma outputs_tables parts o e w : outputs parts o e -> caches_ok D (tableCache e) w -> outputs parts o (set_tables e (tableCache e) w).
Proof.
  intros [Hb Ht Hs Hn Hx] Hw. split; try done. apply (base_ok_view D lm li lm li logs e); [done| |apply Hb|done..].
  apply view_tables_set; [apply Hb|done].
Qed.

(** *** The loop *)

Section loop.
Context (cl : gset nat) (nx : nat).

(** The merger delivers the records [l]. *)
Definition merged (m : MergeIterator SSTableIterator) (w : RWorld) (l : list Rec) : Prop :=
  ∃ cs, @drains RWorld SSTableIterator (reader_World D cl nx) SSTableIterator_Ops (SSTableIterator_Spec D cl) cs
    (merge_heap m) (merge_iters m) w l.

Lemma merged_world m w l : merged m w l -> reader_World D cl nx w.
Proof. intros (cs & Hd). by apply (@drains_world _ _ (reader_World D cl nx)) in Hd as [? _]. Qed.

Lemma merged_nil m w : merged m w [] -> merge_Record m = None.
Proof. intros (cs & _ & _ & He). unfold merge_Record, Iterators.Peek, Iterators.Empty in *. by destruct (Iterators.items (merge_heap m)). Qed.

Lemma merged_cons m w r l :
  merged m w (r :: l) -> merge_Record m = Some r ∧ ∃ m' w', merge_Next m w = Some (m', w') ∧ merged m' w' l.
Proof.
  intros (cs & _ & _ & _ & Hp & h' & its' & w' & E & Hd). split; [exact Hp|]. exists (mkMerge h' its'), w'.
  split; [unfold merge_Next; by rewrite E|by exists cs].
Qed.

Lemma more_files_refl v : more_files 0 v v.
Proof. split_and!; (done || lia). Qed.

Lemma more_files_trans k1 k2 k v1 v2 v3 : more_files k1 v1 v2 -> more_files k2 v2 v3 -> k1 + k2 <= k -> more_files k v1 v3.
Proof. intros (A1 & A2 & A3) (B1 & B2 & B3) Hk. split_and!; (congruence || lia). Qed.

Lemma output_loop_ok bottom oldest K l : ∀ last m parts cur o e fuel,
  merged m (rworld e) l -> cl = rclosed (rworld e) -> nx = rnext (rworld e) ->
  outputs parts o e -> current_writer cur o (fs e) -> (concat parts ++ cur) ++ kept bottom oldest last l = K ->
  keys_ascending K -> Forall small_rec K -> total_size K <= max_memtable + max_record -> (length l <= fuel)%nat ->
  nextFileNum (vs e) + len l < 10 ^ 6 -> 0 <= level < 2 ^ 32 ->
  ∃ o' parts' cur' v f w, let e' := wrote e v f w in output_loop fuel level bottom oldest last m o e = (Ok o', e') ∧
    outputs parts' o' e' ∧ current_writer cur' o' f ∧ concat parts' ++ cur' = K ∧ more_files (len l) (vs e) v ∧ reader_World D cl nx w.
Proof.
  induction l as [|r l IH]; intros last m parts cur o e fuel Hm Hcl Hnx Ho Hc HK Ha Hs Ht Hf Hn Hlev.
  - exists o, parts, cur, (vs e), (fs e), (rworld e). cbn [kept] in HK. rewrite app_nil_r in HK. cbn zeta.
    split_and!; [|by destruct e|exact Hc|exact HK|apply more_files_refl|by eapply merged_world].
    destruct fuel; cbn [output_loop]; rewrite (merged_nil _ _ Hm); by destruct e.
  - rewrite len_cons in Hn. destruct fuel as [|fuel]; [cbn in Hf; lia|]. cbn [length] in Hf.
    destruct (merged_cons _ _ _ _ Hm) as (Er & m' & w' & En & Hm'). pose proof (merged_world _ _ _ Hm') as Hw'.
    assert (∀ e1 last' o1 parts1 cur1 v1 f1, e1 = set_vs (set_fs e f1) v1 -> more_files 1 (vs e) v1 ->
      outputs parts1 o1 e1 -> current_writer cur1 o1 f1 -> (concat parts1 ++ cur1) ++ kept bottom oldest last' l = K ->
      ∃ o' parts' cur' v f w, let e' := wrote e v f w in
        ('(m0, _) ← iterating (λ w, '(m0, w) ← merge_Next m w; Some ((m0, tt), w)); output_loop fuel level bottom oldest last' m0 o1) e1 = (Ok o', e') ∧
        outputs parts' o' e' ∧ current_writer cur' o' f ∧ concat parts' ++ cur' = K ∧ more_files (len (r :: l)) (vs e) v ∧ reader_World D cl nx w) as Hnext.
    { intros e1 last' o1 parts1 cur1 v1 f1 -> Hmf Ho1 Hc1 HK1. set (e1 := set_vs (set_fs e f1) v1) in *. set (e2 := set_tables e1 (tableCache e1) w').
      assert (outputs parts1 o1 e2) as Ho2.
      { apply outputs_tables; [done|]. eapply caches_keep; [apply (ou_base _ _ _ Ho1)|].
        change (rworld e1) with (rworld e). by rewrite <- Hcl, <- Hnx. }
      destruct Hw' as (Q1 & Q2 & Q3 & Q4).
      destruct (IH last' m' parts1 cur1 o1 e2 fuel) as (o' & parts' & cur' & v & f & w & E & Ho' & Hc' & HK' & Hmf' & Hw); try done.
      - lia.
      - destruct Hmf as (_ & _ & ?). change (vs e2) with v1. lia.
      - exists o', parts', cur', v, f, w. cbn zeta.
        split_and!; [|exact Ho'|done|done|eapply more_files_trans; [exact Hmf|exact Hmf'|rewrite len_cons; lia]|done].
        rewrite (EM_bind_ok _ _ _ (m', tt) e2); [exact E|].
        unfold iterating. change (rworld e1) with (rworld e). by rewrite En. }
    cbn [output_loop]. rewrite Er. cbn [kept] in HK.
    destruct (bytes_Equal (UserKey r) last).
    { apply (Hnext e last o parts cur (vs e) (fs e)); try done; [by destruct e|]. split_and!; (done || lia). }
    destruct (_ && _).
    { apply (Hnext e (UserKey r) o parts cur (vs e) (fs e)); try done; [by destruct e|]. split_and!; (done || lia). }
    assert (small_rec r ∧ table_small (cur ++ [r]) ∧ sorted_recs (cur ++ [r])) as (Hr & Hsm & Hsort).
    { assert (concat parts ++ (cur ++ [r]) ++ kept bottom oldest (UserKey r) l = K) as E by (by rewrite <- HK, <- !app_assoc).
      rewrite <- E in Ha, Hs, Ht. apply Forall_app in Hs as [_ [Hs _]%Forall_app]. pose proof Hs as [_ [Hr _]%Forall_cons]%Forall_app.
      apply StronglySorted_app in Ha as (_ & _ & (_ & Ha & _)%StronglySorted_app). rewrite !total_size_app in Ht.
      pose proof (total_size_nonneg (concat parts)). pose proof (total_size_nonneg (kept bottom oldest (UserKey r) l)).
      split_and!; [done| |by apply sorted_ascending]. apply table_small_total; [done|]. rewrite total_size_app. lia. }
    destruct (output_record_ok parts cur o e r Ho Hc Hr Hsm Hsort Hlev) as (o1 & v1 & f1 & parts1 & cur1 & E1 & Ho1 & Hc1 & Hd1 & Hmf);
      [pose proof (len_nonneg l); lia|].
    rewrite (EM_bind_ok _ _ _ _ _ E1). cbv beta.
    apply (Hnext _ (UserKey r) o1 parts1 cur1 v1 f1 eq_refl Hmf Ho1 Hc1). rewrite Hd1, <- HK. by rewrite <- !app_assoc.
Qed.
End loop.

(** The table that is being written is completed; an empty one is removed. *)
Lemma last_writer_ok parts cur o e :
  outputs parts o e -> current_writer cur o (fs e) -> sorted_recs cur -> 0 <= level < 2 ^ 32 -> nextFileNum (vs e) < 10 ^ 6 ->
  ∃ o' parts' v f, let e' := set_vs (set_fs e f) v in
    match out_writer o with
    | Some w =>
        if negb (out_first o) then closeWriter level o
        else
          _ ← attempt (close_table w);
          _ ← attempt (remove w.2);
          mret o
    | None => mret o
    end e = (Ok o', e') ∧ outputs parts' o' e' ∧ concat parts' = concat parts ++ cur ∧ more_files 1 (vs e) v.
Proof.
  intros Ho Hc Hs Hlev Hn. pose proof Hc as (w & bs & blk & Ew & Hw & Hcur & Hnf & Hd & Hfirst & _).
  rewrite Ew, Hfirst. case_bool_decide as En; cbn [negb].
  - subst cur. pose proof (ou_next _ _ _ Ho) as [_ Hx]. set (p := tablePath level (out_fileNum o)) in *.
    destruct (close_table_ok w p bs blk e) as (size & f1 & fl & E1 & Hs1 & Hd1 & _); [done|done|apply Ho|done|].
    destruct (remove_ok p (set_fs e f1)) as (f2 & E2 & Hs2 & _); [apply Hs1|cbn; by rewrite Hd1|].
    assert (fs_step p (fs e) f2) as Hs12.
    { eapply fs_step_trans; [exact Hs1|exact Hs2|]. intros j Hj Hj'. by rewrite Hd1 in Hj. }
    exists o, parts, (vs e), f2. cbn zeta. split_and!; [| |by rewrite En, app_nil_r|split_and!; (done || lia)].
    + rewrite (EM_bind_ok _ _ _ _ _ (attempt_ok _ _ _ _ E1)). cbv beta. cbn [snd].
      rewrite (EM_bind_ok _ _ _ _ _ (attempt_ok _ _ _ _ E2)). by destruct e.
    + replace (set_vs (set_fs e f2) (vs e)) with (set_fs e f2) by by destruct e.
      eapply outputs_step; [exact Ho|lia|exact Hs12|done..].
  - destruct (closeWriter_ok parts cur o e Ho Hc) as (o' & v & f & E & Ho' & _ & Hnv & HCv & Hmv); [done..|].
    exists o', (parts ++ [cur]), v, f. cbn zeta. split_and!; [exact E|exact Ho'| |split_and!; (done || lia)].
    rewrite concat_app. cbn. by rewrite app_nil_r.
Qed.

(** What writeCompactionOutput writes: tables that hold, one after the other, the records kept. *)
Lemma writeCompactionOutput_ok bottom l fuel n iters e (K := kept bottom (oldest (snapshots e)) [] l) :
  base_ok D lm li logs e -> D !! n = None -> 0 <= n < nextFileNum (vs e) ->
  merged (rclosed (rworld e)) (rnext (rworld e)) (NewMergeIterator (W := RWorld) iters) (rworld e) l -> sorted_recs l ->
  Forall small_rec K -> total_size K <= max_memtable + max_record -> (length l <= fuel)%nat ->
  nextFileNum (vs e) + len l + 1 < 10 ^ 6 -> 0 <= level < 2 ^ 32 ->
  ∃ o parts v f w, let e' := wrote e v f w in writeCompactionOutput fuel n level iters bottom e = (Ok (outTables o), e') ∧
    outputs parts o e' ∧ concat parts = K ∧ more_files (len l + 1) (vs e) v ∧
    reader_World D (rclosed (rworld e)) (rnext (rworld e)) w.
Proof.
  intros Hb HD Hn Hm Hs Hsm Ht Hf Hlt Hlev. pose proof (len_nonneg l).
  set (o0 := mkOut None n [] (mkIK [] 0 0) (mkIK [] 0 0) true).
  assert (outputs [] o0 e) as Ho0 by (split; [done|constructor|constructor|constructor|done]).
  destruct (openWriter_ok [] o0 e Ho0) as (o1 & f1 & E1 & Ho1 & Hc1 & _); [cbn; lia|]. set (e1 := set_fs e f1) in *.
  assert (keys_ascending K) as Ha.
  { apply kept_ascending; [done|]. apply Forall_forall. intros x _. by destruct (UserKey x). }
  destruct (output_loop_ok (rclosed (rworld e)) (rnext (rworld e)) bottom (oldest (snapshots e)) K l []
    (NewMergeIterator (W := RWorld) iters) [] [] o1 e1 fuel) as (o2 & parts2 & cur2 & v2 & f2 & w2 & E2 & Ho2 & Hc2 & HK2 & Hmf2 & Hw2);
    [done..|change (vs e1) with (vs e); lia|done|].
  set (e2 := wrote e1 v2 f2 w2) in *. destruct Hmf2 as (M1 & M2 & M3). cbn [vs e1 set_fs] in M1, M2, M3.
  destruct (last_writer_ok parts2 cur2 o2 e2 Ho2 Hc2) as (o3 & parts3 & v3 & f3 & E3 & Ho3 & HK3 & Hmf3); [|done|cbn; lia|].
  { rewrite <- HK2 in Ha. apply StronglySorted_app in Ha as (_ & _ & Ha). by apply sorted_ascending. }
  exists o3, parts3, v3, f3, w2. cbn zeta. split_and!; [|exact Ho3|congruence| |done].
  - unfold writeCompactionOutput. fold o0. rewrite (EM_bind_ok _ _ _ _ _ E1). cbv beta.
    rewrite (EM_bind_ok _ _ e1 (oldest (snapshots e)) e1) by done. cbv beta.
    rewrite (EM_bind_ok _ _ _ _ _ E2). cbv beta. rewrite (EM_bind_ok _ _ _ _ _ E3). done.
  - destruct Hmf3 as (N1 & N2 & N3). cbn [vs e2 wrote set_tables set_fs set_vs] in N1, N2, N3. split_and!; [congruence|congruence|lia|lia].
Qed.
End output.
