(* ===== verification/EngineSwap.v ===== *)
(** * Package engine: what a compaction does to the contents

    compactLevel reads the tables of a level and those of the next one that overlap them, writes
    what is kept of their records into the next level, and takes them out of the version: the
    contents change, the results of reads do not. *)

From S2P Require Import Prelude.
From S2P Require Import GoStd.
From S2P Require Import GoIO.
From S2P Require Import Records.
From S2P Require Import Skiplist.
From S2P Require Import Versions.
From S2P Require Import Memtable.
From S2P Require Import Config.
From S2P Require Import Wal.
From S2P Require Import GoHeap.
From S2P Require Import Iterators.
From S2P Require Import Filter.
From S2P Require Import Blocks.
From S2P Require Import BlockCache.
From S2P Require Import Names.
From S2P Require Import TableWriter.
From S2P Require Import TableReader.
From S2P Require Import Meta.
From S2P Require Import Scan.
From S2P Require Import EngineState.
From S2P Require Import EngineRead.
From S2P Require Import EngineCompact.
From S2P Require Import EngineWrite.
From S2P Require Import EngineFs.
From S2P Require Import EngineDisk.
From S2P Require Import EngineFlow.
From S2P Require Import EngineFlush.
From S2P Require Import EngineMerge.

Section swap.
Context `{FE : FloatEnv} `{LG : Logged}.

(** ** Reading the tables *)

Section open.
Context (D : gmap Z (list (list Rec))).

(** The iterator has the whole table before it. *)
Definition reads_table (cl : gset nat) (it : SSTableIterator) (t : TableMeta) : Prop :=
  si_rest D cl it (table_recs D t) ∧ si_content D cl it (table_recs D t).

(** A descriptor of the compaction's own, opened between [n] and [n']. *)
Definition own_fd (n n' : nat) (r : TableReader) : Prop := (n <= rfd r < n')%nat.

Lemma open_reader_ok t bs e :
  table_ok D (fs e) t bs -> caches_ok D (tableCache e) (rworld e) ->
  ∃ r, open_table (Level t) (FileNum t) e = (Ok r, set_tables e (tableCache e) (opened (rworld e))) ∧
    reads D (rclosed (rworld e)) r bs ∧ rfd r = rnext (rworld e) ∧ caches_ok D (tableCache e) (opened (rworld e)).
Proof.
  intros Ht (Hco & Hf & Hcl & Hrd & Hinj). destruct (tok_file _ _ _ _ Ht) as (fl & Efl & Hto).
  assert (rnext (rworld e) ∉ rclosed (rworld e)) as Hnx by (intros Hin%Hcl; lia).
  destruct (Open_table (fdata fl) bs (table_name (FileNum t)) true (rworld e) Hto (tok_sorted _ _ _ _ Ht) Hf Hnx)
    as (r & Eo & Hwf & Hfd & Hnum & _).
  assert (fileNum r = FileNum t) as Hfn.
  { destruct (tok_num _ _ _ _ Ht). rewrite Hnum.
    destruct (scan_table_name (FileNum t)) as (v & -> & _ & Hv); [lia|]. by apply Hv. }
  exists r. split_and!; [|split_and!; [done|by rewrite Hfd|rewrite Hfn; apply Ht]|done|].
  - unfold open_table, reading. rewrite Efl. cbn [fmap option_fmap option_map]. by rewrite Eo.
  - split_and!; [done|done|intros fd Hin; cbn; apply Hcl in Hin; lia| |done].
    intros n r' Hl. destruct (Hrd n r' Hl) as (bs' & ? & ? & ?). exists bs'. split_and!; [done|done|cbn; lia].
Qed.

Lemma open_all_ok tables : ∀ readers iters e,
  Forall (λ t, ∃ bs, table_ok D (fs e) t bs) tables -> caches_ok D (tableCache e) (rworld e) ->
  ∃ rs its w, open_all tables readers iters e = (Ok (readers ++ rs, iters ++ its), set_tables e (tableCache e) w) ∧
    caches_ok D (tableCache e) w ∧ rclosed w = rclosed (rworld e) ∧ (rnext (rworld e) <= rnext w)%nat ∧
    Forall (own_fd (rnext (rworld e)) (rnext w)) rs ∧ Forall2 (reads_table (rclosed w)) its tables.
Proof.
  induction tables as [|t tables IH]; intros readers iters e Ht Hc.
  - exists [], [], (rworld e). rewrite !app_nil_r, set_tables_same. split_and!; [done|done|done|lia|constructor|constructor].
  - apply Forall_cons in Ht as [(bs & Ht) Hts].
    destruct (open_reader_ok t bs e Ht Hc) as (r & E & Hrd & Hfd & Hc1).
    destruct (Iterator_rest D _ _ r bs (opened (rworld e)) Hrd (caches_world _ _ _ Hc1)) as (it & w1 & E1 & Hw1 & Hre & Hco).
    pose proof (caches_keep _ _ _ _ Hc1 Hw1) as Hc2. destruct Hw1 as (_ & _ & Ecl & Enx). cbn [opened rclosed rnext] in Ecl, Enx.
    destruct (IH (readers ++ [r]) (iters ++ [it]) (set_tables e (tableCache e) w1)) as (rs & its & w & E2 & Hc3 & Hcl & Hle & Hfds & Hits);
      [done|done|]. cbn [rworld set_tables tableCache] in *.
    exists (r :: rs), (it :: its), w. split_and!; [|done|congruence|lia| |].
    + cbn [open_all]. rewrite (EM_bind_ok _ _ _ _ _ (attempt_ok _ _ _ _ E)). cbv beta iota.
      rewrite (EM_bind_ok _ _ _ it (set_tables e (tableCache e) w1)); cycle 1.
      { unfold iterating. cbn [rworld set_tables]. by rewrite E1. }
      cbv beta. rewrite E2. by rewrite <- !app_assoc.
    + constructor; [unfold own_fd; lia|]. eapply Forall_impl; [exact Hfds|]. unfold own_fd. intros x. lia.
    + constructor; [|done]. unfold reads_table. rewrite Hcl, Ecl, (table_recs_ok _ _ _ _ Ht). done.
Qed.

(** The merger over the iterators delivers the records of the tables in order. *)
Lemma merged_inputs its tables w :
  reader_World D (rclosed w) (rnext w) w -> Forall2 (reads_table (rclosed w)) its tables ->
  ∃ l, merged D (rclosed w) (rnext w) (NewMergeIterator (W := RWorld) its) w l ∧ sorted_recs l ∧ l ≡ₚ level_recs D tables.
Proof.
  intros Hw Hi. set (cs := map (table_recs D) tables).
  pose proof (SSTableIterator_Laws D (rclosed w) (rnext w)) as HL.
  assert (Forall2 (si_rest D (rclosed w)) its cs ∧ Forall2 (si_content D (rclosed w)) its cs) as [Hr Hc].
  { unfold cs. clear Hw. induction Hi as [|it t its ts [? ?] _ [? ?]]; [by split; constructor|]. by split; constructor. }
  destruct (@heap_drains RWorld SSTableIterator (reader_World D (rclosed w) (rnext w)) SSTableIterator_Ops
    (SSTableIterator_Spec D (rclosed w)) HL (NewIteratorHeap (W := RWorld) its) its cs cs w) as (l & Hd & Hs & Hp); [| |done|].
  - by apply (@NewIteratorHeap_inv RWorld SSTableIterator (reader_World D (rclosed w) (rnext w)) SSTableIterator_Ops
      (SSTableIterator_Spec D (rclosed w)) HL).
  - done.
  - exists l. split_and!; [by exists cs|done|done].
Qed.

(** Closing descriptors of the compaction's own leaves the cached readers as they are. *)
Lemma close_ok r tc w n :
  caches_ok D tc w -> (∀ m r', tc !! m = Some r' -> (rfd r' < n)%nat) -> own_fd n (rnext w) r ->
  ∃ x w', TableReader.Close r w = (x, w') ∧ x ≠ Panic ∧ caches_ok D tc w' ∧ rnext w' = rnext w.
Proof.
  intros Hc Hn [H1 H2]. destruct (decide (rfd r ∈ rclosed w)) as [Hd|Hd].
  { eexists _, w. unfold TableReader.Close. rewrite decide_True by exact Hd. by split_and!. }
  destruct Hc as (Hco & Hf & Hcl & Hrd & Hinj).
  eexists _, _. split_and!; [by apply Close_open|done| |done]. split_and!; [done|done| | |done].
  - intros fd [->%elem_of_singleton|Hin]%elem_of_union; [done|by apply Hcl].
  - intros m r' Hm. destruct (Hrd m r' Hm) as (bs & (Hwf & Hfd & HD) & ? & ?). exists bs. split_and!; [|done|done].
    split_and!; [done| |done]. specialize (Hn m r' Hm). cbn. rewrite not_elem_of_union, not_elem_of_singleton. split; [lia|done].
Qed.

Lemma close_all_ok n rs : ∀ e,
  caches_ok D (tableCache e) (rworld e) -> (∀ m r', tableCache e !! m = Some r' -> (rfd r' < n)%nat) ->
  Forall (own_fd n (rnext (rworld e))) rs ->
  ∃ w, close_all rs e = (Ok tt, set_tables e (tableCache e) w) ∧ caches_ok D (tableCache e) w.
Proof.
  induction rs as [|r rs IH]; intros e Hc Hn Hrs.
  - exists (rworld e). by rewrite set_tables_same.
  - apply Forall_cons in Hrs as [Hr Hrs]. destruct (close_ok r _ _ n Hc Hn Hr) as (x & w1 & E & Hx & Hc1 & Hnx).
    destruct (IH (set_tables e (tableCache e) w1)) as (w & E2 & Hc2); [done|done| |].
    { cbn [rworld set_tables]. by rewrite Hnx. }
    exists w. split; [|done]. cbn [close_all].
    assert (∃ y, attempt (reading (TableReader.Close r)) e = (Ok y, set_tables e (tableCache e) w1)) as [y Ey].
    { unfold attempt, reading. rewrite E. destruct x; [by eexists..|done]. }
    rewrite (EM_bind_ok _ _ _ _ _ Ey). exact E2.
Qed.
End open.

(** ** Dropping the tables that have been replaced *)

Section drop.
Context (D : gmap Z (list (list Rec))) (lm li : list Rec) (logs : list Log).

Lemma base_ok_tables e tc w : base_ok D lm li logs e -> caches_ok D tc w -> base_ok D lm li logs (set_tables e tc w).
Proof.
  intros He Hw. apply (base_ok_view D lm li lm li logs e); [done| |apply He|done..]. apply view_tables_set; [apply He|done].
Qed.

(** A reader is closed and leaves the table cache. *)
Lemma uncache_ok n r tc w :
  caches_ok D tc w -> tc !! n = Some r ->
  caches_ok D (delete n tc) (mkRW (rcache w) (rfaults w) ({[rfd r]} ∪ rclosed w) (rnext w)).
Proof.
  intros (Hco & Hf & Hcl & Hrd & Hinj) Hr. split_and!; [done|done| | |].
  - intros fd [->%elem_of_singleton|Hin]%elem_of_union; [|by apply Hcl]. destruct (Hrd n r Hr) as (_ & _ & _ & ?). done.
  - intros m r' [Hne Hm]%lookup_delete_Some. destruct (Hrd m r' Hm) as (bs & (Hwf & Hfd & HD) & ? & ?). exists bs.
    split_and!; [|done|done]. split_and!; [done| |done]. cbn. rewrite not_elem_of_union, not_elem_of_singleton. split; [|done].
    intros E. apply Hne. by eapply Hinj.
  - intros m m' r1 r2 [_ H1]%lookup_delete_Some [_ H2]%lookup_delete_Some. by apply Hinj.
Qed.

(** A table outside the version. *)
Definition outside (e : Engine) (t : TableMeta) : Prop :=
  0 <= FileNum t < 10 ^ 6 ∧ (FileNum t ∉ map FileNum (concat (Current (vs e)))) ∧ is_Some (dir (fs e) !! tablePath (Level t) (FileNum t)).

Lemma drop_table_ok t ts e :
  base_ok D lm li logs e -> outside e t ->
  ∃ tc w f, let e' := set_fs (set_tables e tc w) f in
    drop_tables (t :: ts) e = drop_tables ts e' ∧ base_ok D lm li logs e' ∧
    dir f = delete (tablePath (Level t) (FileNum t)) (dir (fs e)).
Proof.
  intros He (Hn & Hout & Hdir). set (p := tablePath (Level t) (FileNum t)).
  assert (∃ tc w, match tableCache e !! FileNum t with
    | Some r => _ ← attempt (reading (TableReader.Close r)); (modify (λ e, set_tables e (delete (FileNum t) (tableCache e)) (rworld e)))
    | None => mret tt end e = (Ok tt, set_tables e tc w) ∧ caches_ok D tc w) as (tc & w & E & Hc).
  { pose proof (view_caches _ _ _ _ (bo_view _ _ _ _ _ He)) as Hc. destruct (tableCache e !! FileNum t) as [r|] eqn:Er.
    - pose proof Hc as (_ & Hf & _ & Hrd & _). destruct (Hrd _ _ Er) as (bs & (_ & Hfd & _) & _).
      eexists _, _. split; [|by apply (uncache_ok _ _ _ _ Hc Er)].
      rewrite (EM_bind_ok _ _ e (inl tt) (set_tables e (tableCache e)
        (mkRW (rcache (rworld e)) (rfaults (rworld e)) ({[rfd r]} ∪ rclosed (rworld e)) (rnext (rworld e))))); [reflexivity|].
      apply attempt_ok. unfold reading. by rewrite Close_open.
    - exists (tableCache e), (rworld e). split; [by rewrite set_tables_same|done]. }
  pose proof (base_ok_tables e tc w He Hc) as He1. set (e1 := set_tables e tc w) in *.
  destruct (remove_ok p e1) as (f & E2 & Hs & Hd & _); [apply He1|exact Hdir|]. exists tc, w, f. cbn zeta. split_and!; [| |exact Hd].
  - cbn [drop_tables]. rewrite (EM_bind_ok _ _ e (tableCache e !! FileNum t) e) by done. cbv beta.
    rewrite (EM_bind_ok _ _ _ _ _ E). cbv beta. by rewrite (EM_bind_ok _ _ _ _ _ (attempt_ok _ _ _ _ E2)).
  - eapply base_ok_table; [exact He1|exact Hs|]. intros t' bs Hin Hok E'. destruct (tok_num _ _ _ _ Hok).
    apply tablePath_inj in E' as [_ E']; [|lia..]. apply Hout. rewrite <- E'. by apply list_elem_of_fmap_2.
Qed.

Lemma drop_tables_ok tables : ∀ e,
  base_ok D lm li logs e -> Forall (outside e) tables -> NoDup (map FileNum tables) ->
  ∃ tc w f, let e' := set_fs (set_tables e tc w) f in drop_tables tables e = (Ok tt, e') ∧ base_ok D lm li logs e'.
Proof.
  induction tables as [|t tables IH]; intros e He Ht Hnd.
  - exists (tableCache e), (rworld e), (fs e). cbn zeta. by rewrite set_tables_same, set_fs_same.
  - apply Forall_cons in Ht as [Ht Hts]. cbn [map] in Hnd. apply NoDup_cons in Hnd as [Hni Hnd].
    destruct (drop_table_ok t tables e He Ht) as (tc & w & f & E & He1 & Hd). set (e1 := set_fs (set_tables e tc w) f) in *.
    destruct (IH e1 He1) as (tc2 & w2 & f2 & E2 & He2); [|done|].
    { rewrite Forall_forall in *. intros t' Hin. destruct (Hts t' Hin) as (Hn & Hout & Hx). split_and!; [lia|lia|exact Hout|].
      cbn [fs e1 set_fs]. rewrite Hd, lookup_delete_ne; [done|]. destruct Ht as (Hn' & _). intros [_ E']%tablePath_inj; [|lia..].
      apply Hni. rewrite E'. by apply list_elem_of_fmap_2. }
    exists tc2, w2, f2. cbn zeta. split; [by rewrite E|exact He2].
Qed.
End drop.

(** ** The new tables *)

(** The new tables join the tables on disk. *)
Lemma adopt_ok D lm li logs level ts parts : ∀ e,
  base_ok D lm li logs e -> Forall2 (out_table level (fs e)) ts parts -> StronglySorted (λ t t', FileNum t < FileNum t') ts ->
  Forall (λ t, D !! FileNum t = None ∧ FileNum t < nextFileNum (vs e)) ts ->
  ∃ D', D ⊆ D' ∧ base_ok D' lm li logs e ∧ Forall2 (λ t p, ∃ bs, table_ok D' (fs e) t bs ∧ concat bs = p) ts parts.
Proof.
  intros e He Ht. revert D He. induction Ht as [|t p ts parts (bs & Hok & Hbs & _) Ht IH]; intros D He Hs Hn.
  - exists D. split_and!; [done|done|constructor].
  - apply StronglySorted_cons in Hs as [Hlt Hs]. apply Forall_cons in Hn as [[HD Hnx] Hn].
    pose proof (tok_num _ _ _ _ Hok) as Hnum. pose proof (bo_fs _ _ _ _ _ He) as Hf.
    assert (base_ok (<[FileNum t := bs]> D) lm li logs e) as He1.
    { rewrite <- (set_fs_same e). eapply base_ok_new_table; [exact He|exact HD|lia|exact Hnx|].
      by apply (fs_step_refl (tablePath level (FileNum t))). }
    destruct (IH _ He1 Hs) as (D' & Hsub & He' & Hts).
    { rewrite Forall_forall in *. intros t' Hin. destruct (Hn t' Hin). specialize (Hlt t' Hin). split; [|done].
      rewrite lookup_insert_ne; [done|lia]. }
    exists D'. split_and!; [|done|].
    + etrans; [|exact Hsub]. by apply insert_subseteq.
    + constructor; [|done]. exists bs. split; [|done].
      assert (D' !! FileNum t = Some bs) as HD'.
      { eapply lookup_weaken; [|exact Hsub]. apply lookup_insert_eq. }
      destruct Hok as [_ O2 O3 O4 O5 O6]. by split.
Qed.

(** *** The version after the edit *)

Lemma add_level v i l ts :
  v !! i = Some l -> Forall (λ t, Z.to_nat (Level t) = i) ts -> add_all v ts = <[i := l ++ ts]> v.
Proof.
  intros Hv Ht. revert v l Hv. induction Ht as [|t ts Ht _ IH]; intros v l Hv; cbn [add_all].
  - by rewrite app_nil_r, list_insert_id.
  - rewrite Ht, (alter_insert _ _ _ _ Hv). rewrite (IH _ (l ++ [t])); [by rewrite list_insert_insert_eq, <- app_assoc|].
    apply list_lookup_insert_eq. by eapply lookup_lt_Some.
Qed.

Definition deletions (ts : list TableMeta) : list DeletedTableMeta := map (λ t, mkDM (Level t) (FileNum t)) ts.

Lemma delete_level v i pre ts post :
  v !! i = Some (pre ++ ts ++ post) -> Forall (λ t, Z.to_nat (Level t) = i) ts -> NoDup (map FileNum (pre ++ ts ++ post)) ->
  delete_all v (deletions ts) = <[i := pre ++ post]> v.
Proof.
  intros Hv Ht. revert v Hv. induction Ht as [|t ts Ht _ IH]; intros v Hv Hn; cbn [deletions map delete_all DLevel DFileNum].
  - by rewrite list_insert_id.
  - cbn [app] in Hv, Hn. rewrite Ht, (alter_insert _ _ _ _ Hv). rewrite map_app, NoDup_app in Hn. cbn [map] in Hn.
    destruct Hn as (Hn1 & Hn2 & Hn3). rewrite delete_first_split; [| |done].
    + fold (deletions ts). rewrite IH.
      * by rewrite list_insert_insert_eq.
      * apply list_lookup_insert_eq. by eapply lookup_lt_Some.
      * rewrite map_app, NoDup_app. apply NoDup_cons in Hn3 as [_ Hn3]. split_and!; [done| |done].
        intros x Hx Hx'. apply (Hn2 x Hx). apply elem_of_cons. by right.
    + intros Hin. apply (Hn2 _ Hin). apply elem_of_cons. by left.
Qed.

Lemma delete_all_app v d1 d2 : delete_all v (d1 ++ d2) = delete_all (delete_all v d1) d2.
Proof. revert v. induction d1 as [|d d1 IH]; intros v; cbn; [done|]. apply IH. Qed.

(** The edit of a compaction takes the inputs out of the level and replaces the tables [over] of
    the next one by the new tables. *)
Lemma edited_swap v1 pre inputs post low over v2 outs n (i := length v1)
    (v := v1 ++ (pre ++ inputs ++ post) :: (low ++ over) :: v2) :
  version_ok v -> Forall (λ t, Level t = Z.of_nat i) inputs -> Forall (λ t, Level t = Z.of_nat i + 1) (over ++ outs) ->
  edited v (mkVE outs (deletions (inputs ++ over)) None n None) = v1 ++ (pre ++ post) :: (low ++ outs) :: v2.
Proof.
  intros Hv H1 [H2 H3]%Forall_app. unfold edited. cbn [DeleteTables AddTables].
  assert (v !! i = Some (pre ++ inputs ++ post)) as Li by by apply list_lookup_middle.
  assert (v !! S i = Some (low ++ over)) as Ln.
  { unfold v. rewrite lookup_app_r by (unfold i; lia). by replace (S i - length v1)%nat with 1%nat by (unfold i; lia). }
  unfold deletions at 1. rewrite map_app, delete_all_app. fold (deletions inputs) (deletions over).
  rewrite (delete_level v i pre inputs post Li); [| |by eapply NoDup_level].
  2: { eapply Forall_impl; [exact H1|]. cbn. lia. }
  pose proof (NoDup_level _ _ _ Hv Ln) as Hnd.
  rewrite (delete_level _ (S i) low over []); [| | |by rewrite app_nil_r].
  2: { rewrite app_nil_r, list_lookup_insert_ne by lia. exact Ln. }
  2: { eapply Forall_impl; [exact H2|]. cbn. lia. }
  rewrite app_nil_r, (add_level _ (S i) low outs).
  - rewrite list_insert_insert_eq. unfold v, i. rewrite insert_app_r_alt by lia. rewrite Nat.sub_diag. cbn.
    rewrite insert_app_r_alt by lia. by replace (S (length v1) - length v1)%nat with 1%nat by lia.
  - apply list_lookup_insert_eq. rewrite length_insert. by eapply lookup_lt_Some.
  - eapply Forall_impl; [exact H3|]. cbn. lia.
Qed.

(** ** The levels *)

(** The levels are layers of the contents; each but the first is sorted. *)
Record leveled (D : gmap Z (list (list Rec))) (lm li : list Rec) (v : Version) : Prop := {
  lv_layers : layered (lm :: li :: map (level_recs D) v);
  lv_sorted : Forall level_sorted (tail v);
  lv_place : ∀ i l, v !! i = Some l -> Forall (λ t, Level t = Z.of_nat i) l;
  lv_unique : unique_versions (contents D lm li v);
  lv_seven : length v = 7%nat
}.

Lemma newer_layer_sub a b a' b' : newer_layer a b -> a' ⊆ a -> b' ⊆ b -> newer_layer a' b'.
Proof. intros Hn Ha Hb r r' Hr Hr'. apply Hn; [by apply Ha|by apply Hb]. Qed.

Lemma newer_layer_both a b c : newer_layer a b -> newer_layer a c -> newer_layer a (b ++ c).
Proof. intros H1 H2 r r' Hr [Hr'|Hr']%elem_of_app; auto. Qed.

(** Records move from a layer to the next one. *)
Lemma layered_swap X A B R A' B' :
  layered (X ++ A :: B :: R) -> A' ⊆ A -> B' ⊆ A ++ B -> newer_layer A' B' -> layered (X ++ A' :: B' :: R).
Proof.
  intros Hl HA HB Hn. apply StronglySorted_app in Hl as (H1 & HX & H2). apply StronglySorted_cons in H2 as [HAB H2].
  apply Forall_cons in HAB as [HAB HAR]. apply StronglySorted_cons in H2 as [HBR HR].
  rewrite Forall_forall in HAR, HBR. apply StronglySorted_app. split_and!; [|done|].
  - intros x y Hx [->|[->|Hy]%elem_of_cons]%elem_of_cons.
    + eapply newer_layer_sub; [apply (H1 x A Hx); apply elem_of_cons; by left|done|done].
    + eapply newer_layer_sub; [|done|exact HB]. apply newer_layer_both; apply H1; set_solver.
    + apply H1; set_solver.
  - constructor; [constructor; [done|]|].
    + apply Forall_forall. intros y Hy. eapply newer_layer_sub; [|exact HB|done].
      apply newer_layer_app; auto.
    + constructor; [done|]. apply Forall_forall. intros y Hy. eapply newer_layer_sub; [by apply HAR|done|done].
Qed.

(** The tables of the next level that do not overlap are before those that do, if none is beyond. *)
Lemma next_split D f next lo hi :
  level_sorted next -> Forall (λ t, ∃ bs, table_ok D f t bs) next ->
  Forall (λ t, bytes_Compare (UserKey (MinKey t)) hi <= 0) next ->
  ∃ low, next = low ++ FindOverlapping next lo hi ∧ Forall (λ t, bytes_Compare (UserKey (MaxKey t)) lo < 0) low.
Proof.
  intros Hs Hok Hhi. induction Hs as [|t next Hs IH Ht]; [by exists []|].
  apply Forall_cons in Hok as [_ Hok]. apply Forall_cons in Hhi as [Hhit Hhi].
  destruct (overlaps t lo hi) eqn:Eo.
  - exists []. split; [|constructor]. cbn [app]. unfold FindOverlapping. rewrite filter_cons_True by done. f_equal.
    symmetry. apply filter_all. intros t' Hin. apply overlaps_iff in Eo as [Hlo _].
    rewrite Forall_forall in *. specialize (Ht t' Hin). destruct (Hok t' Hin) as (bs & Hb).
    destruct (table_max _ _ _ _ Hb) as (x & Hx & Ex). destruct (table_bounds _ _ _ _ x Hb Hx) as [H1 _].
    apply Compare_le_keys in H1. rewrite Ex in H1. apply overlaps_iff. split; [|by apply Hhi].
    pose proof (bytes_lt_le_trans _ _ _ Ht H1). eapply bytes_Compare_le_trans; [exact Hlo|lia].
  - destruct (IH Hok Hhi) as (low & E & Hlow). exists (t :: low). unfold FindOverlapping. rewrite filter_cons_False by congruence.
    split; [cbn; by f_equal|]. constructor; [|done].
    destruct (Z.ltb_spec (bytes_Compare (UserKey (MaxKey t)) lo) 0) as [|Hge]; [done|].
    assert (overlaps t lo hi = true) as Et; [|by rewrite Et in Eo]. apply overlaps_iff. split; [|done]. rewrite bytes_Compare_opp. lia.
Qed.

(** The new tables are in the order of their records. *)
Lemma outs_sorted D f outs parts :
  Forall2 (λ t p, ∃ bs, table_ok D f t bs ∧ concat bs = p) outs parts -> keys_ascending (concat parts) -> level_sorted outs.
Proof.
  assert (∀ t bs, table_ok D f t bs -> (∃ x, x ∈ concat bs ∧ MaxKey t = RKey x) ∧ ∃ x, x ∈ concat bs ∧ MinKey t = RKey x) as Hkeys.
  { intros t bs [_ _ _ (r & l & E & Em) O5 _]. split; [|exists r; split; [rewrite E; apply elem_of_cons; by left|done]].
    destruct (sep_elem (concat bs)) as (x & Hx & Ex); [by rewrite E|]. exists x. split; [done|congruence]. }
  induction 1 as [|t p outs parts (bs & Hok & <-) Hos IH]; intros Ha; [constructor|].
  cbn [concat] in Ha. apply StronglySorted_app in Ha as (Hlt & _ & Ha). constructor; [by apply IH|].
  apply Forall_forall. intros t' Hin. apply list_elem_of_lookup in Hin as [i Hi].
  destruct (Forall2_lookup_l _ _ _ _ _ Hos Hi) as (p' & Hp' & bs' & Hok' & <-).
  destruct (Hkeys _ _ Hok) as [(x & Hx & ->) _]. destruct (Hkeys _ _ Hok') as [_ (y & Hy & ->)].
  apply Hlt; [done|]. apply elem_of_concat. exists (concat bs'). split; [by eapply list_elem_of_lookup_2|done].
Qed.

Lemma outs_recs D f outs parts :
  Forall2 (λ t p, ∃ bs, table_ok D f t bs ∧ concat bs = p) outs parts -> level_recs D outs = norm (concat parts).
Proof.
  induction 1 as [|t p outs parts (bs & Hok & <-) _ IH]; [done|]. cbn [concat]. unfold norm at 1. rewrite map_app.
  fold (norm (concat bs)) (norm (concat parts)). rewrite <- IH, <- (table_recs_ok _ _ _ _ Hok). done.
Qed.

(** *** The levels before and after *)

Section levels.
Context (D D' : gmap Z (list (list Rec))) (f : FS) (lm li : list Rec).
Context (v1 v2 : Version) (pre inputs post low over outs : list TableMeta) (lo : bytes).
Context (bottom : bool) (oldest : Z) (l : list Rec) (parts : list (list Rec)).

Let v : Version := v1 ++ (pre ++ inputs ++ post) :: (low ++ over) :: v2.
Let v' : Version := v1 ++ (pre ++ post) :: (low ++ outs) :: v2.
Let K := kept bottom oldest [] l.

Context (Hlev : leveled D lm li v) (Hsub : D ⊆ D').
Context (Htab : Forall (λ t, ∃ bs, table_ok D f t bs) (concat v)).
Context (Houts : Forall2 (λ t p, ∃ bs, table_ok D' f t bs ∧ concat bs = p) outs parts) (HK : concat parts = K).
Context (Hl : l ≡ₚ level_recs D (inputs ++ over)) (Hsorted : sorted_recs l).
Context (Hrest : newer_layer (level_recs D (pre ++ post)) (level_recs D inputs)).
Context (Hlow : Forall (λ t, bytes_Compare (UserKey (MaxKey t)) lo < 0) low).
Context (Hlo : Forall (λ t, bytes_Compare lo (UserKey (MinKey t)) <= 0) inputs).
Context (Hplace : Forall (λ t, Level t = Z.of_nat (length v1) + 1) outs).

Lemma tables_in ts : (∀ t, t ∈ ts -> t ∈ concat v) -> Forall (λ t, ∃ bs, table_ok D f t bs) ts.
Proof. intros Hin. rewrite Forall_forall in *. auto. Qed.

Lemma level_recs_app D0 ts ts' : level_recs D0 (ts ++ ts') = level_recs D0 ts ++ level_recs D0 ts'.
Proof. unfold level_recs. by rewrite map_app, concat_app. Qed.

(** The tables of [v] by their place. *)
Lemma in_version t : t ∈ concat v <-> t ∈ concat v1 ∨ t ∈ pre ∨ t ∈ inputs ∨ t ∈ post ∨ t ∈ low ∨ t ∈ over ∨ t ∈ concat v2.
Proof using. unfold v. clear. rewrite concat_app. cbn [concat]. rewrite !elem_of_app. tauto. Qed.

Lemma same_recs ts : (∀ t, t ∈ ts -> t ∈ concat v) -> level_recs D' ts = level_recs D ts.
Proof. intros Hin. eapply level_recs_mono; [exact Hsub|]. by apply tables_in. Qed.

Lemma recs_elem x ts : x ∈ level_recs D ts <-> ∃ t, t ∈ ts ∧ x ∈ table_recs D t.
Proof.
  unfold level_recs. rewrite elem_of_concat. split.
  - intros (r & (t & -> & Ht)%list_elem_of_fmap & Hx). by exists t.
  - intros (t & Ht & Hx). exists (table_recs D t). split; [|done]. by apply list_elem_of_fmap_2.
Qed.

Lemma kept_in : K ⊆ level_recs D inputs ++ level_recs D over.
Proof.
  intros x Hx. assert (x ∈ l) as Hx' by (eapply elem_of_sublist; [exact Hx|apply kept_sublist]).
  rewrite Hl in Hx'. by rewrite <- level_recs_app.
Qed.

Lemma norm_recs ts : (∀ t, t ∈ ts -> t ∈ concat v) -> Forall (λ r, normalize r = r) (level_recs D ts).
Proof.
  intros Hin. pose proof (tables_in ts Hin) as Ht. apply Forall_forall. intros x (t & Hts & Hx)%recs_elem.
  rewrite Forall_forall in Ht. destruct (Ht t Hts) as (bs & Hb). rewrite (table_recs_ok _ _ _ _ Hb) in Hx.
  by apply list_elem_of_fmap in Hx as (y & -> & _).
Qed.

Lemma outs_kept : level_recs D' outs = K.
Proof.
  rewrite (outs_recs _ _ _ _ Houts), HK. unfold norm. assert (Forall (λ r, normalize r = r) K) as Hn.
  { apply Forall_forall. intros x Hx%kept_in. rewrite <- level_recs_app in Hx.
    assert (∀ t, t ∈ inputs ++ over -> t ∈ concat v) as Hin by (intros t [?|?]%elem_of_app; apply in_version; tauto).
    pose proof (norm_recs _ Hin) as Hn. rewrite Forall_forall in Hn. by apply Hn. }
  rewrite <- (map_id K) at 2. apply map_ext_in. intros x Hx%list_elem_of_In. rewrite Forall_forall in Hn. by apply Hn.
Qed.

(** The records of the other tables of the next level are before those kept. *)
Lemma low_before t (x : Rec) : t ∈ low -> x ∈ level_recs D inputs ++ level_recs D over -> bytes_Compare (UserKey (MaxKey t)) (UserKey x) < 0.
Proof using Hlev Htab Hlow Hlo.
  clear Hsub Houts HK Hl Hsorted Hrest Hplace K v' outs.
  intros Ht Hx. rewrite elem_of_app, !recs_elem in Hx.
  assert (∀ t', t' ∈ concat v -> x ∈ table_recs D t' -> bytes_Compare (UserKey (MaxKey t)) (UserKey (MinKey t')) < 0 ->
    bytes_Compare (UserKey (MaxKey t)) (UserKey x) < 0) as Hvia.
  { intros t' Hin Hx' Hlt. rewrite Forall_forall in Htab. destruct (Htab t' Hin) as (bs & Hb).
    destruct (table_bounds _ _ _ _ x Hb Hx') as [H1%Compare_le_keys _]. by eapply bytes_lt_le_trans. }
  destruct Hx as [(t' & Hin & Hx)|(t' & Hin & Hx)]; (apply (Hvia t'); [apply in_version; tauto|done|]).
  - rewrite Forall_forall in Hlow, Hlo. eapply bytes_lt_le_trans; [by apply Hlow|by apply Hlo].
  - assert (level_sorted (low ++ over)) as Hs.
    { pose proof (lv_sorted _ _ _ _ Hlev) as Hs. rewrite Forall_forall in Hs. apply Hs. unfold v. destruct v1; cbn; set_solver. }
    apply StronglySorted_app in Hs as (Hs & _). by apply Hs.
Qed.

Lemma next_layer_sub : level_recs D low ++ K ⊆ level_recs D (pre ++ inputs ++ post) ++ level_recs D (low ++ over).
Proof. rewrite !level_recs_app. pose proof kept_in. set_solver. Qed.

Lemma levels_layered : layered (lm :: li :: map (level_recs D') v').
Proof.
  unfold v'. rewrite map_app. cbn [map]. set (X := lm :: li :: map (level_recs D) v1).
  assert (map (level_recs D') v1 = map (level_recs D) v1 ∧ map (level_recs D') v2 = map (level_recs D) v2) as [-> ->].
  { split; apply map_ext_in; intros ts Hin%list_elem_of_In; apply same_recs; intros t Ht; apply in_version;
      [left|do 6 right]; apply elem_of_concat; by exists ts. }
  rewrite (level_recs_app D' low), outs_kept, !same_recs by (intros t; rewrite ?elem_of_app, in_version; tauto).
  change (lm :: li :: map (level_recs D) v1 ++ ?A) with (X ++ A).
  pose proof (lv_layers _ _ _ _ Hlev) as HL. unfold v in HL. rewrite map_app in HL. cbn [map] in HL.
  change (lm :: li :: map (level_recs D) v1 ++ ?A) with (X ++ A) in HL. eapply layered_swap; [exact HL| |apply next_layer_sub|].
  - rewrite !level_recs_app. set_solver.
  - apply StronglySorted_app in HL as (_ & _ & HL). apply StronglySorted_cons in HL as [HL _].
    apply Forall_cons in HL as [HL _].
    assert (level_recs D (pre ++ post) ⊆ level_recs D (pre ++ inputs ++ post)) as Hpp by (rewrite !level_recs_app; set_solver).
    assert (level_recs D low ⊆ level_recs D (low ++ over) ∧ level_recs D over ⊆ level_recs D (low ++ over)) as [Hlw Hov]
      by (rewrite level_recs_app; set_solver).
    apply newer_layer_both; [by eapply newer_layer_sub|].
    eapply (newer_layer_sub _ (level_recs D inputs ++ level_recs D over)); [|reflexivity|apply kept_in].
    apply newer_layer_both; [exact Hrest|eapply newer_layer_sub; [exact HL|exact Hpp|exact Hov]].
Qed.

Lemma levels_sorted : Forall level_sorted (tail v').
Proof.
  pose proof (lv_sorted _ _ _ _ Hlev) as Hs.
  assert (level_sorted (low ++ over) ∧ Forall level_sorted v2) as [Hn H2].
  { revert Hs. unfold v. clear. destruct v1 as [|t0 w]; cbn; rewrite ?Forall_app, !Forall_cons; tauto. }
  assert (level_sorted (low ++ outs)) as Hn'.
  { apply StronglySorted_app in Hn as (_ & Hlw & _). apply StronglySorted_app. split_and!; [|done|].
    - intros t t' Ht Ht'. apply list_elem_of_lookup in Ht' as [i Hi].
      destruct (Forall2_lookup_l _ _ _ _ _ Houts Hi) as (p' & Hp' & bs & [_ _ _ (r & r' & E & ->) _ _] & Hbs).
      apply (low_before t r Ht), kept_in. rewrite <- HK. apply elem_of_concat. exists p'.
      split; [by eapply list_elem_of_lookup_2|]. rewrite <- Hbs, E. apply elem_of_cons. by left.
    - eapply outs_sorted; [exact Houts|]. rewrite HK. apply kept_ascending; [done|].
      apply Forall_forall. intros x _. by destruct (UserKey x). }
  revert Hs. unfold v, v'. destruct v1 as [|t0 w]; cbn [app tail]; rewrite ?Forall_app, !Forall_cons; [tauto|].
  intros (? & Hlv & _). split_and!; [done| |done|done]. eapply StronglySorted_sublist; [|exact Hlv].
  apply sublist_app; [done|]. by apply sublist_inserts_l.
Qed.

Lemma levels_placed i ts : v' !! i = Some ts -> Forall (λ t, Level t = Z.of_nat i) ts.
Proof.
  pose proof (lv_place _ _ _ _ Hlev) as Hp. unfold v'.
  destruct (decide (i < length v1)%nat) as [Hi|Hi].
  { rewrite lookup_app_l by done. intros Ht. apply Hp. unfold v. by rewrite lookup_app_l. }
  pose proof (Hp (length v1) _ (list_lookup_middle _ _ _ _ eq_refl)) as H1.
  specialize (Hp i). unfold v in Hp. rewrite !lookup_app_r in * by lia.
  destruct (i - length v1)%nat as [|[|j]] eqn:Ej; cbn in *; [..|by apply Hp].
  - intros [= <-]. assert (i = length v1) as -> by lia. apply Forall_app in H1 as [? H1]. apply Forall_app in H1 as [? ?].
    by apply Forall_app.
  - intros [= <-]. specialize (Hp _ eq_refl). apply Forall_app in Hp as [? ?]. apply Forall_app. split; [done|].
    eapply Forall_impl; [exact Hplace|]. cbn. lia.
Qed.

(** The records outside the merged tables. *)
Definition untouched : list Rec :=
  lm ++ li ++ concat (map (level_recs D) v1) ++ level_recs D (pre ++ post) ++ level_recs D low ++ concat (map (level_recs D) v2).

Lemma contents_before : contents D lm li v ≡ₚ untouched ++ l.
Proof.
  unfold contents, untouched, v. rewrite Hl, map_app, concat_app. cbn [map concat]. rewrite !level_recs_app. solve_Permutation.
Qed.

Lemma contents_after : contents D' lm li v' ≡ₚ untouched ++ K.
Proof.
  unfold contents, untouched, v'. rewrite map_app, concat_app. cbn [map concat].
  assert (map (level_recs D') v1 = map (level_recs D) v1 ∧ map (level_recs D') v2 = map (level_recs D) v2) as [-> ->].
  { split; apply map_ext_in; intros ts Hin%list_elem_of_In; apply same_recs; intros t Ht; apply in_version;
      [left|do 6 right]; apply elem_of_concat; by exists ts. }
  rewrite (level_recs_app D' low), outs_kept, !same_recs by (intros t; rewrite ?elem_of_app, in_version; tauto).
  solve_Permutation.
Qed.

Lemma leveled_after : leveled D' lm li v'.
Proof.
  split; [apply levels_layered|apply levels_sorted|apply levels_placed| |].
  - intros r r' Hr Hr'. rewrite contents_after in Hr, Hr'.
    assert (untouched ++ K ⊆ contents D lm li v) as Hin.
    { intros x Hx. rewrite contents_before. apply elem_of_app in Hx as [?|Hx]; apply elem_of_app; [by left|right].
      eapply elem_of_sublist; [exact Hx|apply kept_sublist]. }
    apply (lv_unique _ _ _ _ Hlev); by apply Hin.
  - pose proof (lv_seven _ _ _ _ Hlev) as H7. unfold v in H7. unfold v'. by rewrite !length_app in *.
Qed.
End levels.

(** ** The edit *)

Lemma total_size_sublist (l l' : list Rec) : l `sublist_of` l' -> total_size l <= total_size l'.
Proof. intros (k & ->)%sublist_submseteq%submseteq_Permutation. rewrite total_size_app. pose proof (total_size_nonneg k). lia. Qed.

Lemma table_recs_small D f t bs : table_ok D f t bs -> Forall small_rec (table_recs D t).
Proof.
  intros Ht. rewrite (table_recs_ok _ _ _ _ Ht). destruct (tok_file _ _ _ _ Ht) as (fl & _ & (? & _ & _ & Hs & _)).
  by apply small_norm.
Qed.

Lemma level_recs_small D f ts : Forall (λ t, ∃ bs, table_ok D f t bs) ts -> Forall small_rec (level_recs D ts).
Proof.
  induction 1 as [|t ts (bs & Ht) _ IH]; [constructor|]. apply Forall_app. split; [by eapply table_recs_small|exact IH].
Qed.

Section edit.
Context (D : gmap Z (list (list Rec))) (lm li : list Rec) (logs : list Log) (level : Z).

Lemma outputs_vs parts o e v :
  outputs D lm li logs level parts o e -> base_ok D lm li logs (set_vs e v) -> nextFileNum (vs e) <= nextFileNum v ->
  outputs D lm li logs level parts o (set_vs e v).
Proof. intros [Hb Ht Hs Hn [Hx1 Hx2]] Hb' Hle. split; try done. cbn. split; [done|lia]. Qed.

(** The metadata of the new tables can be encoded. *)
Lemma outs_wf f outs parts :
  0 <= level < 2 ^ 32 -> Forall2 (out_table level f) outs parts -> Forall small_rec (concat parts) ->
  total_size (concat parts) <= max_memtable + max_record -> Forall wf_meta outs.
Proof.
  intros Hlev Ho Hs Ht. apply Forall_forall. intros t Hin. apply list_elem_of_lookup in Hin as [i Hi].
  destruct (Forall2_lookup_l _ _ _ _ _ Ho Hi) as (p & Hp & bs & Hok & <- & _ & Hl & Hsz).
  assert (∀ x : Rec, x ∈ concat bs -> wf_key x ∧ len (UserKey x) < 2 ^ 29) as Hkey.
  { intros x Hx. apply (wf_key_small x (concat parts)); [done|done|]. apply elem_of_concat. exists (concat bs).
    split; [by eapply list_elem_of_lookup_2|done]. }
  destruct Hok as [_ _ _ (r & l & E & Emin) Emax Hnum].
  destruct (sep_elem (concat bs)) as (x & Hx & Ex); [by rewrite E|]. rewrite Ex in Emax.
  destruct (Hkey x Hx) as [? ?], (Hkey r) as [? ?]; [rewrite E; apply elem_of_cons; by left|].
  split_and!; rewrite ?Emin, ?Emax; (done || lia).
Qed.

Lemma swap_edit_ok parts o e all m (edit := mkVE (outTables o) (deletions all) None (Some m) None) :
  0 <= level < 7 -> outputs D lm li logs level parts o e -> out_fileNum o <= m <= nextFileNum (vs e) ->
  nextFileNum (logged (vs e)) <= m -> nextFileNum (vs e) < 10 ^ 6 -> length (Current (vs e)) = 7%nat ->
  Forall (λ t, t ∈ concat (Current (vs e)) ∧ 0 <= Level t < 7) all -> Forall small_rec (concat parts) ->
  total_size (concat parts) <= max_memtable + max_record ->
  wf_edit edit ∧ edit_fits (Current (vs e)) edit ∧ edit_disk (LG := false) (fs e) (vs e) edit.
Proof.
  intros Hlev Ho Hm Hlg Hlt H7 Hall Hs Hsz. pose proof (outs_wf _ _ _ ltac:(lia) (ou_tables _ _ _ _ _ _ _ _ Ho) Hs Hsz) as Hwf.
  destruct Ho as [Hb Ht Hsrt Hnum Hx]. rewrite Forall_forall in Hnum, Hall.
  pose proof (view_tables _ _ _ _ (bo_view _ _ _ _ _ Hb)) as Hok. rewrite Forall_forall in Hok.
  assert (Forall (λ t, Level t = level ∧ synced (fs e) t) (outTables o)) as Hout.
  { clear -Ht. induction Ht as [|t p ts ps (bs & _ & _ & ? & ? & _) _ IH]; by constructor. }
  rewrite Forall_forall in Hout.
  assert (∀ t, t ∈ all -> ∃ bs, table_ok D (fs e) t bs ∧ 0 <= Level t < 7) as Hold.
  { intros t Hin. destruct (Hall t Hin) as [Hc ?]. destruct (Hok t Hc) as (bs & ?). by exists bs. }
  assert (len (Current (vs e)) = 7) as Hlen by (unfold len; lia).
  split_and!; [split_and!|split_and!|split]; cbn [edit AddTables DeleteTables NextFileNum_ LastSequence LogNumber_ default]; try done.
  - unfold deletions. apply Forall_fmap, Forall_forall. intros t Hin. destruct (Hold t Hin) as (bs & Hbs & ?).
    destruct (tok_num _ _ _ _ Hbs). split; cbn; lia.
  - cbn. destruct Hx. lia.
  - apply Forall_forall. intros t Hin. destruct (Hout t Hin). lia.
  - unfold deletions. apply Forall_fmap, Forall_forall. intros t Hin. destruct (Hold t Hin) as (bs & _ & ?). cbn. lia.
  - rewrite map_app. apply NoDup_app. split_and!; [apply (bo_version _ _ _ _ _ Hb)| |].
    + intros n (t & -> & Hin)%list_elem_of_fmap (t' & E & Hin')%list_elem_of_fmap. destruct (Hok t Hin) as (bs & Hbs).
      destruct (Hnum t' Hin') as [HD _]. pose proof (tok_disk _ _ _ _ Hbs). congruence.
    + clear -Hsrt. induction Hsrt as [|t ts _ IH Ht]; constructor; [|done].
      intros (t' & E & Hin)%list_elem_of_fmap. rewrite Forall_forall in Ht. specialize (Ht t' Hin). cbv beta in Ht. lia.
  - unfold deletions. apply Forall_fmap, Forall_forall. intros t Hin (t' & E & Hin')%list_elem_of_fmap. cbn in E.
    destruct (Hold t Hin) as (bs & Hbs & _). destruct (Hnum t' Hin') as [HD _]. pose proof (tok_disk _ _ _ _ Hbs). congruence.
  - unfold id. lia.
  - apply Forall_forall. intros t Hin. destruct (Hnum t Hin), (Hout t Hin). unfold id. split; [lia|done].
Qed.
End edit.

Lemma move_pointer_ok level inputs e :
  0 <= level < len (compactPointer e) ->
  ∃ p, move_pointer level inputs e = (Ok tt, set_compact e (isCompacting e) p) ∧ length p = length (compactPointer e).
Proof.
  intros Hl. unfold move_pointer.
  assert (∃ p, (Ok tt, e) = (Ok tt, set_compact e (isCompacting e) p) ∧ length p = length (compactPointer e)) as Hnone.
  { exists (compactPointer e). split; [by destruct e|done]. }
  destruct (last inputs) as [t|]; [|exact Hnone]. destruct (0 <? level); [|exact Hnone].
  destruct (index_lookup (compactPointer e) level Hl) as (p & Ep & _).
  exists (<[Z.to_nat level := p ++ UserKey (MaxKey t)]> (compactPointer e)). split; [|by rewrite length_insert].
  by rewrite (EM_bind_ok _ _ e p e) by (by rewrite Ep).
Qed.
End swap.
