(* ===== verification/EngineRefine.v ===== *)
(** * Package engine: the engine refines a store with a history

    The abstract store keeps the map of every sequence number.  Every operation of the engine, with
    its flusher running at any time that leaves at most one flush pending, behaves as the
    operation on that store: a write adds a map, a read at a sequence number reads its map. *)

From S2P Require Import Prelude.
From S2P Require Import GoStd.
From S2P Require Import GoIO.
From S2P Require Import Records.
From S2P Require Import Skiplist.
From S2P Require Import Versions.
From S2P Require Import Memtable.
From S2P Require Import Config.
From S2P Require Import Wal.
From S2P Require Import Batch.
From S2P Require Import Filter.
From S2P Require Import Blocks.
From S2P Require Import BlockCache.
From S2P Require Import Names.
From S2P Require Import TableWriter.
From S2P Require Import TableReader.
From S2P Require Import Meta.
From S2P Require Import Scan.
From S2P Require Import EngineState.
From S2P Require Import EngineRead.
From S2P Require Import EngineCompact.
From S2P Require Import EngineWrite.
From S2P Require Import EngineFs.
From S2P Require Import EngineFlow.
From S2P Require Import EngineFlush.

(** ** The abstract store *)

Abbreviation kv := (gmap bytes bytes).

(** The maps of the sequence numbers from 0 on. *)
Abbreviation history := (list (gmap bytes bytes)).

Definition now (h : history) : kv := default ∅ (last h).

(** One change of a map: a value for the key, or none. *)
Definition change (k : bytes) (v : option bytes) (m : kv) : kv := partial_alter (λ _, v) k m.

Inductive op :=
  | OPut (k v : bytes)
  | ODelete (k : bytes)
  | OBatch (ops : list batch_op)
  | OGet (k : bytes)
  | OScan (start end_ : bytes)
  | OSnapshot
  | OSnapGet (s : Z) (k : bytes)
  | OSnapScan (s : Z) (start end_ : bytes)
  | ORelease (s : Z)
  | OFlush.

Inductive obs :=
  | RDone
  | RStalled
  | RError
  | RValue (v : option (option bytes))
  | RSnapshot (s : Z)
  | RPairs (l : list (bytes * option bytes)).

(** The bindings of the map from [start] on before [end_], in the order of the keys. *)
Definition pairs_of (m : kv) (start end_ : bytes) (l : list (bytes * option bytes)) : Prop :=
  StronglySorted (λ x y, bytes_Compare x.1 y.1 < 0) l ∧
  ∀ k v, (k, v) ∈ l <-> (∃ w, m !! k = Some w ∧ v = Some w) ∧ bytes_Compare start k <= 0 ∧ bytes_Compare k end_ < 0.

Definition batch_valid (op : batch_op) : Prop :=
  match op with OpPut k v => k ≠ [] ∧ v ≠ None | OpDelete k => k ≠ [] end.

Definition batch_change (op : batch_op) : kv -> kv :=
  match op with OpPut k v => change k v | OpDelete k => change k None end.

(** The maps that the operations of a batch go through. *)
Fixpoint batch_maps (m : kv) (ops : list batch_op) : history :=
  match ops with
  | [] => []
  | op :: ops => batch_change op m :: batch_maps (batch_change op m) ops
  end.

(** The operations of the store.  A write that waits in the stall uses up a sequence number. *)
Inductive spec_step (h : history) : op -> obs -> history -> Prop :=
  | spec_put k v : k ≠ [] -> v ≠ [] -> spec_step h (OPut k v) RDone (h ++ [change k (Some v) (now h)])
  | spec_put_stalled k v : k ≠ [] -> v ≠ [] -> spec_step h (OPut k v) RStalled (h ++ [now h])
  | spec_put_error k v : k = [] ∨ v = [] -> spec_step h (OPut k v) RError h
  | spec_delete k : spec_step h (ODelete k) RDone (h ++ [change k None (now h)])
  | spec_delete_stalled k : spec_step h (ODelete k) RStalled (h ++ [now h])
  | spec_batch ops : Forall batch_valid ops -> spec_step h (OBatch ops) RDone (h ++ batch_maps (now h) ops)
  | spec_batch_error ops : ¬ Forall batch_valid ops -> spec_step h (OBatch ops) RError h
  | spec_get k : spec_step h (OGet k) (RValue (Some <$> now h !! k)) h
  | spec_scan start end_ l : pairs_of (now h) start end_ l -> spec_step h (OScan start end_) (RPairs l) h
  | spec_snapshot : spec_step h OSnapshot (RSnapshot (len h - 1)) h
  | spec_snap_get s k m : 0 <= s -> h !! Z.to_nat s = Some m -> spec_step h (OSnapGet s k) (RValue (Some <$> m !! k)) h
  | spec_snap_scan s start end_ m l :
      0 <= s -> h !! Z.to_nat s = Some m -> pairs_of m start end_ l -> spec_step h (OSnapScan s start end_) (RPairs l) h
  | spec_release s : spec_step h (ORelease s) RDone h
  | spec_flush : spec_step h OFlush RDone h.

Inductive spec_run : history -> list op -> list obs -> history -> Prop :=
  | run_nil h : spec_run h [] [] h
  | run_cons h op o h1 ops os h2 : spec_step h op o h1 -> spec_run h1 ops os h2 -> spec_run h (op :: ops) (o :: os) h2.

(** ** The records against the history *)

(** A record that a client has written: a nil value means a deletion. *)
Definition client_rec (r : Rec) : Prop := KType r = TypeDel ∨ KType r = TypePut ∧ Value r ≠ None.

(** The records [C], with sequence numbers up to [n], show the maps of [h]. *)
Record store_ok (h : history) (n : Z) (C : list Rec) : Prop := {
  st_len : len h = n + 1;
  st_seq : ∀ r : Rec, r ∈ C -> 1 <= SeqNum r <= n;
  st_nodup : NoDup (map (λ r : Rec, SeqNum r) C);
  st_client : ∀ r : Rec, r ∈ C -> client_rec r;
  st_hist : ∀ s m k o, h !! s = Some m -> newest k (Z.of_nat s) C o -> read_result o = Some <$> m !! k
}.

#[export] Instance store_ok_Permutation h n : Proper ((≡ₚ) ==> iff) (store_ok h n).
Proof.
  assert (∀ C C', C ≡ₚ C' -> store_ok h n C -> store_ok h n C') as H.
  { intros C C' E [H1 H2 H3 H4 H5]. split; [done|..].
    - intros r. rewrite <- E. apply H2.
    - by rewrite <- E.
    - intros r. rewrite <- E. apply H4.
    - intros s m k o Hs. rewrite <- E. by apply H5. }
  intros C C' E. split; apply H; [done|by symmetry].
Qed.

Lemma now_snoc h m : now (h ++ [m]) = m.
Proof. unfold now. by rewrite last_snoc. Qed.

Lemma store_now h n C : store_ok h n C -> 0 <= n -> h !! Z.to_nat n = Some (now h).
Proof.
  intros [Hl _ _ _ _] Hn. unfold len in Hl. destruct h as [|m h _] using rev_ind; [cbn in Hl; lia|].
  rewrite length_app in Hl. cbn in Hl. rewrite now_snoc, lookup_app_r by lia.
  by replace (Z.to_nat n - length h)%nat with 0%nat by lia.
Qed.

(** Reading at the greatest sequence number is reading the latest map. *)
Lemma newest_bound k n s C o :
  (∀ r : Rec, r ∈ C -> SeqNum r <= n) -> n <= s -> newest k s C o -> newest k n C o.
Proof.
  intros Hb Hs. destruct o as [r|]; cbn.
  - intros (Hr & [E Hv] & Hm). split_and!; [done|split; [done|by apply Hb]|].
    intros r' Hr' [E' Hv']. apply Hm; [done|]. split; [done|lia].
  - intros Hno r Hr [E Hv]. apply (Hno r Hr). split; [done|lia].
Qed.

Lemma store_read h n C s m k o :
  store_ok h n C -> (0 <= s <= n ∧ h !! Z.to_nat s = Some m ∨ n <= s ∧ m = now h ∧ 0 <= n) ->
  newest k s C o -> read_result o = Some <$> m !! k.
Proof.
  intros Hst [(Hs & Hm)|(Hs & -> & Hn)] Ho.
  - eapply (st_hist _ _ _ Hst); [done|]. by rewrite Z2Nat.id by lia.
  - eapply (st_hist _ _ _ Hst); [by eapply store_now|]. rewrite Z2Nat.id by lia.
    eapply newest_bound; [|exact Hs|exact Ho]. intros r Hr. apply (st_seq _ _ _ Hst r Hr).
Qed.

(** What a record does to the map. *)
Definition rec_change (r : Rec) : kv -> kv := change (UserKey r) (if IsTombstone r then None else Value r).

Lemma store_skip h n C : store_ok h n C -> 0 <= n -> store_ok (h ++ [now h]) (n + 1) C.
Proof.
  intros Hst Hn. pose proof Hst as [H1 H2 H3 H4 H5]. split; [by rewrite len_app, H1| |done|done|].
  - intros r Hr. specialize (H2 r Hr). lia.
  - intros s m k o [Hs|[Hlt Hs]]%lookup_app_Some Ho; [by eapply H5|].
    apply list_lookup_singleton_Some in Hs as [Es <-]. eapply (store_read h n C (Z.of_nat s)); [done| |exact Ho].
    right. split_and!; [|done|done]. unfold len in H1. lia.
Qed.

Lemma store_add h n C (r : Rec) :
  store_ok h n C -> 0 <= n -> SeqNum r = n + 1 -> client_rec r ->
  store_ok (h ++ [rec_change r (now h)]) (n + 1) (r :: C).
Proof.
  intros Hst Hn Hr Hc. pose proof Hst as [H1 H2 H3 H4 H5]. split.
  - by rewrite len_app, H1.
  - intros x [->|Hx]%elem_of_cons; [lia|]. specialize (H2 x Hx). lia.
  - cbn [map]. apply NoDup_cons. split; [|done]. intros (x & E & Hx)%list_elem_of_fmap. specialize (H2 x Hx). lia.
  - intros x [->|Hx]%elem_of_cons; [done|by apply H4].
  - intros s m k o [Hs|[Hlt Hs]]%lookup_app_Some Ho.
    + eapply H5; [exact Hs|]. assert (Z.of_nat s <= n) as Hsn by (apply lookup_lt_Some in Hs; unfold len in H1; lia).
      assert (¬ visible k (Z.of_nat s) r) as Hnv by (intros [_ ?]; lia). destruct o as [x|]; cbn in Ho |- *.
      * destruct Ho as ([->|Hx]%elem_of_cons & Hv & Hm); [done|]. split_and!; [done|done|]. intros r' Hr' Hv'.
        apply Hm; [by apply elem_of_cons; right|done].
      * intros x Hx. apply Ho. by apply elem_of_cons; right.
    + apply list_lookup_singleton_Some in Hs as [Es <-]. unfold rec_change, change.
      assert (Z.of_nat s = n + 1) as Hs' by (unfold len in H1; lia). rewrite Hs' in Ho.
      destruct (decide (UserKey r = k)) as [<-|Hne].
      * rewrite lookup_partial_alter_eq. destruct o as [x|]; cbn in Ho; [|exfalso; apply (Ho r); [by apply elem_of_cons; left|split; [done|lia]]].
        destruct Ho as (Hx & [Ex Hv] & Hm).
        pose proof (Hm r ltac:(by apply elem_of_cons; left) ltac:(by split; [|lia])).
        apply elem_of_cons in Hx as [->|Hx]; [|specialize (H2 x Hx); lia].
        cbn. destruct Hc as [Hd|[Hp Hval]]; unfold IsTombstone; [by rewrite Hd|]. rewrite Hp. cbn. by destruct (Value r).
      * rewrite lookup_partial_alter_ne by done. eapply (store_read h n C (n + 1)); [done|right; split_and!; [lia|done|done]|].
        assert (∀ x : Rec, visible k (n + 1) x -> x ≠ r) as Hvr by (intros x [<- _] ->; done).
        destruct o as [x|]; cbn in Ho |- *.
        -- destruct Ho as ([->|Hx]%elem_of_cons & Hv & Hm); [by destruct (Hvr r Hv)|]. split_and!; [done|done|].
           intros r' Hr' Hv'. apply Hm; [by apply elem_of_cons; right|done].
        -- intros x Hx. apply Ho. by apply elem_of_cons; right.
Qed.

(** What a table does to the values changes no answer. *)
Lemma normalize_client (r : Rec) : client_rec r -> client_rec (normalize r) ∧ read_result (Some (normalize r)) = read_result (Some r).
Proof.
  destruct r as [[k s t] v]. unfold client_rec, normalize, IsTombstone, read_result. cbn. intros [->|[-> Hv]].
  - split; [by left|done].
  - destruct v as [v|]; [|done]. split; [by right|done].
Qed.

Lemma store_norm h n A B : store_ok h n (A ++ B) -> store_ok h n (norm A ++ B).
Proof.
  intros [H1 H2 H3 H4 H5].
  assert (∀ x : Rec, x ∈ norm A ++ B -> ∃ y : Rec, y ∈ A ++ B ∧ RKey x = RKey y ∧ (x = normalize y ∨ x = y)) as Hb.
  { intros x [(y & -> & Hy)%list_elem_of_fmap|Hx]%elem_of_app; eexists; (split; [apply elem_of_app; eauto|eauto]). }
  assert (∀ y : Rec, y ∈ A ++ B -> ∃ x : Rec, x ∈ norm A ++ B ∧ RKey x = RKey y) as Hf.
  { intros y [Hy|Hy]%elem_of_app; [exists (normalize y)|exists y]; (split; [|done]); apply elem_of_app; [left|by right].
    by apply list_elem_of_fmap_2. }
  split; [done|..].
  - intros x (y & Hy & E & _)%Hb. rewrite E. by apply H2.
  - unfold norm. rewrite map_app, map_map in *. exact H3.
  - intros x (y & Hy & E & [->| ->])%Hb; [apply normalize_client|]; by apply H4.
  - intros s m k o Hs Ho. destruct o as [x|].
    + destruct Ho as (Hx & [Ex Hv] & Hm). destruct (Hb x Hx) as (y & Hy & E & Hxy).
      transitivity (read_result (Some y)).
      { destruct Hxy as [->| ->]; [|done]. apply normalize_client. by apply H4. }
      eapply H5; [exact Hs|]. split_and!; [done|split; by rewrite <- E|]. intros y' Hy' [Ey' Hv'].
      destruct (Hf y' Hy') as (x' & Hx' & E'). rewrite <- E, <- E'. apply Hm; [done|]. split; by rewrite E'.
    + eapply (H5 s m k None); [exact Hs|]. intros y Hy [Ey Hv]. destruct (Hf y Hy) as (x & Hx & E).
      apply (Ho x Hx). split; by rewrite E.
Qed.

Lemma NoDup_map_inj {A B} (f : A -> B) (l : list A) x y : NoDup (map f l) -> x ∈ l -> y ∈ l -> f x = f y -> x = y.
Proof.
  intros Hn [i Hi]%list_elem_of_lookup [j Hj]%list_elem_of_lookup E.
  assert (i = j) as ->; [|congruence]. eapply (NoDup_lookup (map f l) i j (f x)); [done|..];
    rewrite list_lookup_fmap; [by rewrite Hi|by rewrite Hj, E].
Qed.

Lemma store_unique h n C : store_ok h n C -> unique_versions C.
Proof. intros Hst r r' Hr Hr' _ E. by eapply NoDup_map_inj; [apply Hst|..]. Qed.

(** ** The engine's operations *)

Section refine.
Context `{FE : FloatEnv}.

Definition written (r : bool + error) : obs := match r with inl true => RDone | inl false => RStalled | inr _ => RError end.

Definition run_scan (fuel : nat) (open : EM (ScanIterator AnyIterator * (nat * option nat))) : EM obs :=
  '(sc, ms) ← open;
  out ← scan_drain fuel sc;
  _ ← scan_Release sc ms;
  mret (RPairs (map (λ r : Rec, (UserKey r, Value r)) out)).

Definition exec (fuel : nat) (o : op) : EM obs :=
  match o with
  | OPut k v => r ← attempt (EngineWrite.Put k v); mret (written r)
  | ODelete k => r ← attempt (EngineWrite.Delete k); mret (written r)
  | OBatch ops =>
      r ← attempt (WriteBatch (foldl run_op Batch.New ops));
      mret (match r with inl _ => RDone | inr _ => RError end)
  | OGet k => v ← EngineRead.Get (Some k); mret (RValue v)
  | OScan start end_ => run_scan fuel (Scan_ fuel start end_)
  | OSnapshot => s ← NewSnapshot; mret (RSnapshot (snap_seqNum s))
  | OSnapGet s k => v ← snapshot_Get (mkSnapshot s) k; mret (RValue v)
  | OSnapScan s start end_ => run_scan fuel (snapshot_Scan (mkSnapshot s) fuel start end_)
  | ORelease s => _ ← EngineState.Release (mkSnapshot s); mret RDone
  | OFlush => _ ← run_flush; mret RDone
  end.

Fixpoint exec_all (fuel : nat) (ops : list op) : EM (list obs) :=
  match ops with
  | [] => mret []
  | o :: ops => r ← exec fuel o; rs ← exec_all fuel ops; mret (r :: rs)
  end.

(** The records that a write puts, all but the last, do not fill the memtable, nor does the last
    while a flush is pending. *)
Definition op_recs (o : op) : list Rec :=
  match o with
  | OPut k v => [mkRec (mkIK k 0 TypePut) (Some v)]
  | ODelete k => [mkRec (mkIK k 0 TypeDel) None]
  | OBatch ops => Records (foldl run_op Batch.New ops)
  | _ => []
  end.

Definition mt_room (e : Engine) (l : list Rec) : bool :=
  match mts e !! mt e with
  | Some m => Memtable.size m + total_size l <? MemtableSize (opts e)
  | None => false
  end.

Definition ready (o : op) (e : Engine) : bool :=
  mt_room e (if (length (flushChan e) =? 0)%nat then removelast (op_recs o) else op_recs o).

(** A snapshot read refers to a sequence number that has been reached. *)
Definition op_ok (o : op) (e : Engine) : bool :=
  match o with OSnapGet s _ | OSnapScan s _ _ => (0 <=? s) && (s <=? seqNum e) | _ => true end.

(** The sequence of operations keeps to this at every step. *)
Fixpoint paced (fuel : nat) (ops : list op) (e : Engine) : bool :=
  match ops with
  | [] => true
  | o :: ops => ready o e && op_ok o e && paced fuel ops (exec fuel o e).2
  end.
End refine.
