(* ===== verification/EngineSim.v ===== *)
(** * Package engine: the simulation

    Every operation of [EngineRefine] preserves the invariant that ties the engine's state to a
    history of maps, and answers as the store does. *)

From S2P Require Import Prelude.
From S2P Require Import GoStd.
From S2P Require Import GoIO.
From S2P Require Import Records.
From S2P Require Import Skiplist.
From S2P Require Import Versions.
From S2P Require Import Memtable.
From S2P Require Import Config.
From S2P Require Import Wal.
From S2P Require Import Batch.
From S2P Require Import Filter.
From S2P Require Import Blocks.
From S2P Require Import BlockCache.
From S2P Require Import Names.
From S2P Require Import TableWriter.
From S2P Require Import TableReader.
From S2P Require Import Meta.
From S2P Require Import Scan.
From S2P Require Import EngineState.
From S2P Require Import EngineRead.
From S2P Require Import EngineCompact.
From S2P Require Import EngineWrite.
From S2P Require Import EngineFs.
From S2P Require Import EngineDisk.
From S2P Require Import EngineFlow.
From S2P Require Import EngineFlush.
From S2P Require Import EngineRefine.

Section sim.
Context `{FE : FloatEnv} `{LG : Logged}.

(** The records of the first list are newer than those of the second, whatever their keys. *)
Definition newer_than (l l' : list Rec) : Prop := ∀ r r' : Rec, r ∈ l -> r' ∈ l' -> SeqNum r' <= SeqNum r.

Lemma newer_than_layer l l' : newer_than l l' -> newer_layer l l'.
Proof. intros H r r' Hr Hr' _. by apply H. Qed.

(** The state [e] represents the history [h]: its records show the maps, the layers get older, and
    only level 0 has tables. *)
Record refines (h : history) (D : gmap Z (list (list Rec))) (lm li : list Rec) (old : option Log) (logs : list Log)
    (l0 : list TableMeta) (e : Engine) : Prop := {
  rf_state : state_ok D lm li old logs e;
  rf_levels : ∃ n, Current (vs e) = l0 :: replicate n [];
  rf_layers : newer_than lm li ∧ newer_than lm (level_recs D l0) ∧ newer_than li (level_recs D l0);
  rf_store : store_ok h (seqNum e) (lm ++ li ++ level_recs D l0);
  rf_seq : 0 <= seqNum e
}.

Lemma layered_empty ls n : layered ls -> layered (ls ++ replicate n []).
Proof.
  intros Hl. apply StronglySorted_app. split_and!; [|done|].
  - intros l l' _ Hl'%elem_of_replicate_inv. subst l'. intros r r' _ Hr'. by inversion Hr'.
  - induction n as [|n IH]; [constructor|]. constructor; [done|]. apply Forall_forall.
    intros l Hl'%elem_of_replicate_inv r r' _ Hr'. subst l. by inversion Hr'.
Qed.

Lemma map_replicate_nil D n : map (level_recs D) (replicate n []) = replicate n [].
Proof. induction n as [|n IH]; [done|]. cbn [replicate map]. by rewrite IH. Qed.

Lemma concat_replicate_nil {A} n : concat (replicate n (@nil A)) = [].
Proof. induction n as [|n IH]; [done|]. exact IH. Qed.

Lemma contents_levels D lm li l0 n : contents D lm li (l0 :: replicate n []) = lm ++ li ++ level_recs D l0.
Proof. unfold contents. cbn [map concat]. by rewrite map_replicate_nil, concat_replicate_nil, app_nil_r. Qed.

(** ** Reads *)

(** Caches and references of memtables do not matter. *)
Lemma state_ok_tables D lm li old logs e tc w :
  state_ok D lm li old logs e -> caches_ok D tc w -> state_ok D lm li old logs (set_tables e tc w).
Proof.
  intros [He Hmt Hl Hp Hr] Hc. split; [|exact Hmt|exact Hl| |exact Hr].
  - apply (base_ok_view D lm li lm li logs e); [done| |apply He|done..]. apply view_tables_set; [apply He|done].
  - unfold pending_ok in *. cbn [flushChan set_tables immt]. destruct (flushChan e) as [|t [|]]; [done| |done].
    destruct Hp as ([T1 T2 T3 T4 T5] & ? & ?). by split_and!.
Qed.

Lemma state_ok_alter D lm li old logs e f i :
  (∀ m, list_ (f m) = list_ m ∧ Memtable.size (f m) = Memtable.size m ∧ Memtable.maxSize (f m) = Memtable.maxSize m) ->
  state_ok D lm li old logs e -> state_ok D lm li old logs (set_mems e (mt e) (immt e) (alter f i (mts e)) (flips e)).
Proof.
  intros Hf [He [(m & Hm & Hsz & Hmax) Hne] Hl Hp Hr].
  assert (∀ j m, mts e !! j = Some m -> ∃ m', alter f i (mts e) !! j = Some m' ∧ list_ m' = list_ m ∧
    Memtable.size m' = Memtable.size m ∧ Memtable.maxSize m' = Memtable.maxSize m) as Hj.
  { intros j x Hx. rewrite list_lookup_alter, Hx. destruct (decide (i = j)) as [->|]; [|eauto].
    rewrite Hx. exists (f x). by split. }
  assert (∀ j l, (∃ m, mts e !! j = Some m ∧ holds m l) -> ∃ m, alter f i (mts e) !! j = Some m ∧ holds m l) as Hh.
  { intros j l (x & Hx & Hrep & Hs). destruct (Hj j x Hx) as (x' & Hx' & E & _). exists x'. split; [done|]. by split; [rewrite E|]. }
  pose proof (bo_view _ _ _ _ _ He) as [V1 V2 V3 V4]. split; [| |exact Hl| |exact Hr].
  - eapply base_ok_mems; [exact He|by apply Hh| |apply He]. destruct (immt e); [by apply Hh|done].
  - split; [|exact Hne]. destruct (Hj _ _ Hm) as (m' & Hm' & E1 & E2 & E3). exists m'. cbn. by rewrite E2, E3.
  - unfold pending_ok in *. cbn [flushChan set_mems immt]. destruct (flushChan e) as [|t [|]]; [done| |done].
    destruct Hp as ([T1 T2 T3 T4 T5] & ? & ?). by split_and!.
Qed.

Lemma refines_state h D lm li old logs l0 e e' :
  refines h D lm li old logs l0 e -> state_ok D lm li old logs e' -> Current (vs e') = Current (vs e) -> seqNum e' = seqNum e ->
  refines h D lm li old logs l0 e'.
Proof. intros [H1 H2 H3 H4 H5] Hs E1 E2. split; [done|by rewrite E1|done|by rewrite E2|by rewrite E2]. Qed.

(** The map that a read at [s] sees. *)
Definition map_at (h : history) (n s : Z) (m : kv) : Prop :=
  0 <= s <= n ∧ h !! Z.to_nat s = Some m ∨ n <= s ∧ m = now h ∧ 0 <= n.

Lemma get_sim h D lm li old logs l0 e k s m :
  refines h D lm li old logs l0 e -> map_at h (seqNum e) s m ->
  ∃ e', get k s e = (Ok (Some <$> m !! k), e') ∧ refines h D lm li old logs l0 e' ∧ ∃ tc w, e' = set_tables e tc w.
Proof.
  intros Hr Hs. pose proof Hr as [Hst [n HC] (Hl1 & Hl2 & Hl3) Hstore Hseq].
  destruct (get_ok D lm li l0 (replicate n []) k s e) as (o & tc & w & E & Hc & Hn);
    [apply Hst|done|by apply Forall_replicate; constructor| |].
  - rewrite map_replicate_nil. apply (layered_empty [lm; li; level_recs D l0] n). repeat constructor; by apply newer_than_layer.
  - rewrite contents_levels in Hn. rewrite (store_read _ _ _ _ _ _ _ Hstore Hs Hn) in E.
    exists (set_tables e tc w). split_and!; [done| |by exists tc, w].
    eapply refines_state; [exact Hr|by apply state_ok_tables|done|done].
Qed.

(** What a scan delivers, as bindings of the map. *)
Lemma scan_pairs h n s m C out start end_ :
  store_ok h n C -> map_at h n s m -> keys_ascending out ->
  (∀ x, x ∈ out <-> shown s C x ∧ bytes_Compare start (UserKey x) <= 0 ∧ before end_ x) ->
  pairs_of m start end_ (map (λ r : Rec, (UserKey r, Value r)) out).
Proof.
  intros Hst Hs Hasc Hout. split.
  - clear Hout. induction Hasc as [|x out _ IH Hx]; [constructor|]. cbn [map]. constructor; [done|].
    apply Forall_map. exact Hx.
  - intros k v. split.
    + intros (x & [= -> ->] & Hx)%list_elem_of_fmap. apply Hout in Hx as ([Hn Ht] & Hb1 & Hb2).
      pose proof (store_read _ _ _ _ _ _ _ Hst Hs Hn) as E. cbn in E. rewrite Ht in E.
      split_and!; [|done|done]. destruct (m !! UserKey x) as [w|]; [|done]. exists w. split; [done|]. by injection E.
    + intros ((w & Hm & ->) & Hb1 & Hb2). destruct (newest_exists k s C) as [o Ho].
      pose proof (store_read _ _ _ _ _ _ _ Hst Hs Ho) as E. rewrite Hm in E. destruct o as [x|]; [|done]. cbn in E.
      destruct (IsTombstone x) eqn:Ht; [done|]. injection E as E. pose proof Ho as (_ & [Ek _] & _).
      apply list_elem_of_fmap. exists x. split; [by rewrite Ek, E|]. apply Hout. unfold shown, before. by rewrite Ek.
Qed.

Lemma scan_sim h D lm li old logs l0 e fuel start end_ s m open :
  refines h D lm li old logs l0 e -> map_at h (seqNum e) s m -> open = scan fuel start end_ s ->
  (length (lm ++ li ++ level_recs D l0) <= fuel)%nat ->
  ∃ e' l, run_scan fuel open e = (Ok (RPairs l), e') ∧ pairs_of m start end_ l ∧ refines h D lm li old logs l0 e' ∧
    flushChan e' = flushChan e ∧ vs e' = vs e ∧ seqNum e' = seqNum e ∧ opts e' = opts e.
Proof.
  intros Hr Hs -> Hf. pose proof Hr as [Hst [n HC] _ Hstore Hseq].
  destruct (scan_ok D lm li fuel start end_ s e) as (sc & tc & w & out & tc' & w' & E1 & Hc1 & E2 & Hc2 & Hasc & Hiff);
    [apply Hst|rewrite HC, contents_levels; by eapply store_unique|by rewrite HC, contents_levels|].
  rewrite HC, contents_levels in Hiff. set (e2 := set_tables (scan_refs e) tc' w') in *.
  assert (state_ok D lm li old logs (scan_refs e)) as Hst1.
  { unfold scan_refs. pose proof (state_ok_alter D lm li old logs e Ref (mt e)) as H1. cbn [immt set_mems].
    destruct (immt e) as [i|] eqn:Ei; [|by apply H1].
    pose proof (state_ok_alter D lm li old logs _ Ref i ltac:(done) (H1 ltac:(done) Hst)) as H2. cbn [mt immt mts set_mems flips] in H2. exact H2. }
  assert (Current (vs e2) = Current (vs e) ∧ flushChan e2 = flushChan e ∧ vs e2 = vs e ∧ seqNum e2 = seqNum e ∧ opts e2 = opts e) as (F1 & F2 & F3 & F4 & F5).
  { unfold e2, scan_refs. cbn [immt set_mems]. by destruct (immt e). }
  pose proof (state_ok_tables _ _ _ _ _ _ _ _ Hst1 Hc2) as Hst2. fold e2 in Hst2.
  assert (∃ e3 sc', scan_Release sc (mt e, immt e) e2 = (Ok sc', e3) ∧ state_ok D lm li old logs e3 ∧
    flushChan e3 = flushChan e ∧ vs e3 = vs e ∧ seqNum e3 = seqNum e ∧ opts e3 = opts e) as (e3 & sc' & E3 & Hst3 & G2 & G3 & G4 & G5).
  { unfold scan_Release. destruct (Scan.Release sc) as [sc' run]. cbn [fst snd]. destruct run; [|by exists e2, sc'].
    pose proof (state_ok_alter D lm li old logs e2 Unref (mt e) ltac:(done) Hst2) as H1.
    destruct (immt e) as [i|]; [|eexists _, sc'; by split_and!].
    pose proof (state_ok_alter D lm li old logs _ Unref i ltac:(done) H1) as H2.
    eexists _, sc'. split; [reflexivity|]. by split_and!. }
  exists e3, (map (λ r : Rec, (UserKey r, Value r)) out). split_and!; try done.
  - unfold run_scan. rewrite (EM_bind_ok _ _ _ _ _ E1). cbv beta iota. rewrite (EM_bind_ok _ _ _ _ _ E2). cbv beta.
    by rewrite (EM_bind_ok _ _ _ _ _ E3).
  - by eapply scan_pairs.
  - eapply refines_state; [exact Hr|done|by rewrite G3|done].
Qed.

(** ** Flushes *)

Lemma newer_than_norm l l' : newer_than l l' -> newer_than l (norm l').
Proof. intros H r r' Hr (y & Hy & E)%elem_of_norm. rewrite E. by apply H. Qed.

Lemma newer_than_app_r l l1 l2 : newer_than l l1 -> newer_than l l2 -> newer_than l (l1 ++ l2).
Proof. intros H1 H2 r r' Hr [?|?]%elem_of_app; auto. Qed.

Lemma newer_than_nil l : newer_than [] l.
Proof. intros r r' Hr. by inversion Hr. Qed.

Lemma flush_sim h D lm li old logs l0 e :
  refines h D lm li old logs l0 e -> nextFileNum (vs e) + 2 <= 10 ^ 6 ->
  ∃ e' D' li' old' logs' l0', run_flush e = (Ok tt, e') ∧ refines h D' lm li' old' logs' l0' e' ∧ flushChan e' = [] ∧
    nextFileNum (vs e') <= nextFileNum (vs e) + 2 ∧ len l0 <= len l0' ∧ seqNum e' = seqNum e ∧ opts e' = opts e ∧
    length (li' ++ level_recs D' l0') = length (li ++ level_recs D l0).
Proof.
  intros Hr Hn. pose proof Hr as [Hst [n HC] (Hl1 & Hl2 & Hl3) Hstore Hseq]. pose proof (so_pending _ _ _ _ _ _ Hst) as Hp.
  unfold pending_ok in Hp. destruct (flushChan e) as [|t [|]] eqn:Hq; [| |done].
  { exists e, D, li, old, logs, l0. split_and!; try done; try lia. unfold run_flush.
    by rewrite (EM_bind_ok _ _ e [] e) by (unfold gets; by rewrite Hq). }
  destruct (run_flush_ok D lm li old logs e t Hst Hq Hn) as (e' & logs' & bs & m & E & Hst' & [So Ss _ _] & Hq' & Hn' & HD & Hbs & HC').
  rewrite HC in HC'. cbn [alter list_alter] in HC'. set (D' := <[FileNum m := bs]> D) in *.
  assert (level_recs D' (l0 ++ [m]) = level_recs D l0 ++ norm li) as Hrecs.
  { unfold level_recs at 1. rewrite map_app, concat_app. fold (level_recs D' l0). cbn [map concat]. rewrite app_nil_r. f_equal.
    - eapply level_recs_mono; [by apply insert_subseteq|]. pose proof (view_tables _ _ _ _ (bo_view _ _ _ _ _ (so_base _ _ _ _ _ _ Hst))) as Ht.
      rewrite HC in Ht. cbn [concat] in Ht. by apply Forall_app in Ht as [Ht _].
    - unfold table_recs, D'. by rewrite lookup_insert_eq, <- Hbs. }
  exists e', D', [], None, logs', (l0 ++ [m]). split_and!; try done.
  - split; [exact Hst'|by exists n| | |by rewrite Ss].
    + rewrite Hrecs. split_and!; [intros r r' _ Hr'; by inversion Hr'| |apply newer_than_nil].
      apply newer_than_app_r; [done|by apply newer_than_norm].
    + rewrite Ss, Hrecs. cbn [app]. rewrite Permutation_app_comm, <- app_assoc, Permutation_app_comm, <- app_assoc.
      apply store_norm. by rewrite app_assoc, (Permutation_app_comm li lm), <- app_assoc.
  - rewrite len_app. pose proof (len_nonneg [m]). lia.
  - cbn [app]. rewrite Hrecs, !length_app. unfold norm. rewrite length_map. lia.
Qed.

(** ** Writes *)

(** The records of a write move into the memtable, or through it into the immutable one. *)
Definition moved (recs lm li lm' li' : list Rec) : Prop :=
  lm' ≡ₚ recs ++ lm ∧ li' = li ∨ li = [] ∧ lm' = [] ∧ li' ≡ₚ recs ++ lm.

Lemma write_layers lm li L recs lm' li' :
  newer_than lm li -> newer_than lm L -> newer_than li L ->
  (∀ x r : Rec, x ∈ lm ++ li ++ L -> r ∈ recs -> SeqNum x <= SeqNum r) -> moved recs lm li lm' li' ->
  newer_than lm' li' ∧ newer_than lm' L ∧ newer_than li' L.
Proof.
  intros H1 H2 H3 Hr.
  assert (∀ l l', l' ≡ₚ recs ++ lm -> (∀ x r : Rec, x ∈ l -> r ∈ recs -> SeqNum x <= SeqNum r) -> newer_than lm l -> newer_than l' l) as Hins.
  { intros l l' E Hl Hn x y Hx Hy. rewrite E in Hx. apply elem_of_app in Hx as [Hx|Hx]; [by apply Hl|by apply Hn]. }
  intros [[E ->]|(-> & -> & E)]; split_and!; try apply newer_than_nil; try done; eapply Hins; try done;
    intros x r Hx; apply Hr; rewrite !elem_of_app; tauto.
Qed.

(** The maps after each of the records. *)
Fixpoint rec_maps (m : kv) (recs : list Rec) : history :=
  match recs with [] => [] | r :: recs => rec_change r m :: rec_maps (rec_change r m) recs end.

(** Consecutive sequence numbers after [n]. *)
Fixpoint numbered (n : Z) (recs : list Rec) : Prop :=
  match recs with [] => True | r :: recs => SeqNum (r : Rec) = n + 1 ∧ numbered (n + 1) recs end.

Lemma store_adds h n C recs :
  store_ok h n C -> 0 <= n -> numbered n recs -> Forall client_rec recs ->
  store_ok (h ++ rec_maps (now h) recs) (n + len recs) (recs ++ C).
Proof.
  intros Hst Hn Hnum Hc. revert h n C Hst Hn Hnum. induction Hc as [|r recs Hr _ IH]; intros h n C Hst Hn Hnum.
  - change (len []) with 0. by rewrite app_nil_r, Z.add_0_r.
  - destruct Hnum as [Hs Hnum]. pose proof (IH _ _ _ (store_add _ _ _ r Hst Hn Hs Hr) ltac:(lia) Hnum) as H.
    rewrite now_snoc, <- app_assoc, <- Permutation_middle in H. rewrite len_cons.
    by replace (n + (1 + len recs)) with (n + 1 + len recs) by lia.
Qed.

Lemma numbered_seq n recs r : numbered n recs -> r ∈ recs -> n < SeqNum (r : Rec).
Proof.
  revert n. induction recs as [|x recs IH]; intros n Hn Hr; [by inversion Hr|].
  destruct Hn as [Hx Hn]. apply elem_of_cons in Hr as [->|Hr]; [lia|]. specialize (IH _ Hn Hr). lia.
Qed.

Lemma refines_write h D lm li old logs l0 e e' lm' li' old' logs' recs :
  refines h D lm li old logs l0 e -> numbered (seqNum e) recs -> Forall client_rec recs ->
  state_ok D lm' li' old' logs' e' -> Current (vs e') = Current (vs e) -> seqNum e' = seqNum e + len recs ->
  moved recs lm li lm' li' ->
  refines (h ++ rec_maps (now h) recs) D lm' li' old' logs' l0 e'.
Proof.
  intros [Hst Hlev (Hl1 & Hl2 & Hl3) Hstore Hseq] Hrs Hrc Hst' HC Hs' Hcase.
  assert (∀ x r : Rec, x ∈ lm ++ li ++ level_recs D l0 -> r ∈ recs -> SeqNum x <= SeqNum r) as Hle.
  { intros x r Hx Hr. pose proof (st_seq _ _ _ Hstore x Hx). pose proof (numbered_seq _ _ _ Hrs Hr). lia. }
  pose proof (len_nonneg recs).
  split; [exact Hst'|by rewrite HC|by eapply (write_layers lm li (level_recs D l0) recs)| |lia].
  rewrite Hs'. pose proof (store_adds _ _ _ recs Hstore Hseq Hrs Hrc) as Hadd. revert Hadd.
  apply store_ok_Permutation. destruct Hcase as [[-> ->]|(-> & -> & ->)]; cbn [app]; by rewrite <- ?app_assoc.
Qed.

Lemma state_ok_seq D lm li old logs e s : state_ok D lm li old logs e -> state_ok D lm li old logs (set_seqNum e s).
Proof.
  intros [He Hmt Hl Hp Hr]. split; [|exact Hmt|exact Hl| |exact Hr].
  - by apply (base_ok_same D lm li logs e).
  - unfold pending_ok in *. cbn [flushChan set_seqNum immt]. destruct (flushChan e) as [|t [|]]; [done| |done].
    destruct Hp as ([T1 T2 T3 T4 T5] & ? & ?). by split_and!.
Qed.

Lemma state_ok_snapshots D lm li old logs e l : state_ok D lm li old logs e -> state_ok D lm li old logs (set_snapshots e l).
Proof.
  intros [He Hmt Hl Hp Hr]. split; [|exact Hmt|exact Hl| |exact Hr].
  - by apply (base_ok_same D lm li logs e).
  - unfold pending_ok in *. cbn [flushChan set_snapshots immt]. destruct (flushChan e) as [|t [|]]; [done| |done].
    destruct Hp as ([T1 T2 T3 T4 T5] & ? & ?). by split_and!.
Qed.

Lemma next_seq_ok n e : 0 <= n -> 0 <= seqNum e -> seqNum e + n < 2 ^ 64 ->
  next_seq n e = (Ok (seqNum e + n), set_seqNum e (seqNum e + n)).
Proof. intros. unfold next_seq, modify, gets, mbind, EM_bind. by rewrite u64_small by lia. Qed.

Lemma stalled_ok D lm li old logs l0 h e :
  refines h D lm li old logs l0 e -> stalled e = (Ok (MaxL0Files (opts e) * 2 <=? len l0), e).
Proof.
  intros Hr. destruct (rf_levels _ _ _ _ _ _ _ _ Hr) as [n HC]. unfold stalled.
  by rewrite (EM_bind_ok _ _ e l0 e) by (by rewrite HC).
Qed.

(** The write of one record. *)
Lemma write_sim h D lm li old logs l0 e k value typ :
  let r := mkRec (mkIK k (seqNum e + 1) typ) value in
  refines h D lm li old logs l0 e -> small_rec r -> Records.Size r <= max_record -> client_rec r ->
  nextFileNum (vs e) + 2 <= 10 ^ 6 -> seqNum e + 1 < 2 ^ 64 ->
  flushChan e = [] ∨ total_size (r :: lm) < MemtableSize (opts e) ->
  ∃ e' b lm' li' old' logs', let h' := h ++ [if b : bool then rec_change r (now h) else now h] in
    write k value typ e = (Ok b, e') ∧ refines h' D lm' li' old' logs' l0 e' ∧
    (b = false -> MaxL0Files (opts e) * 2 <= len l0) ∧ nextFileNum (vs e') <= nextFileNum (vs e) + 2 ∧
    seqNum e' = seqNum e + 1 ∧ opts e' = opts e ∧ (length (lm' ++ li') <= S (length (lm ++ li)))%nat.
Proof.
  intros r Hr Hsm Hsz Hc Hn Hseq Hroom. pose proof (rf_seq _ _ _ _ _ _ _ _ Hr) as Hs0.
  set (e1 := set_seqNum e (seqNum e + 1)). pose proof (rf_state _ _ _ _ _ _ _ _ Hr) as Hst.
  pose proof (state_ok_seq _ _ _ _ _ _ (seqNum e + 1) Hst) as Hst1. fold e1 in Hst1.
  assert (begin_write k value typ e = (Ok r, e1)) as Eb.
  { unfold begin_write. by rewrite (EM_bind_ok _ _ _ _ _ (next_seq_ok 1 e ltac:(lia) Hs0 Hseq)). }
  assert (stalled e1 = (Ok (MaxL0Files (opts e) * 2 <=? len l0), e1)) as Es.
  { destruct (rf_levels _ _ _ _ _ _ _ _ Hr) as [n HC]. unfold stalled. by rewrite (EM_bind_ok _ _ e1 l0 e1) by (cbn; by rewrite HC). }
  unfold write. rewrite (EM_bind_ok _ _ _ _ _ Eb). cbv beta. unfold resume_write. rewrite (EM_bind_ok _ _ _ _ _ Es). cbv beta.
  destruct (Z.leb_spec (MaxL0Files (opts e) * 2) (len l0)) as [Hstall|Hgo].
  - exists e1, false, lm, li, old, logs. cbn zeta. split_and!; try done; [|cbn; lia|lia].
    destruct Hr as [_ H2 H3 H4 H5]. split; [exact Hst1|exact H2|exact H3| |cbn; lia]. by apply store_skip.
  - destruct (finish_write_ok D lm li old logs e1 r Hst1 Hsm Hsz Hn Hroom)
      as (e' & lm' & li' & old' & logs' & E & Hst' & Hcase & [So Ss _ _] & Hn' & HC).
    assert (moved [r] lm li lm' li') as Hmv.
    { destruct Hcase as [[-> ->]|(-> & -> & ->)]; [left|right]; by rewrite insert_sorted_Permutation. }
    exists e', true, lm', li', old', logs'. cbn zeta. split_and!; [|  |done|exact Hn'|done|done|].
    + by rewrite (EM_bind_ok _ _ _ _ _ E).
    + apply (refines_write h D lm li old logs l0 e e' lm' li' old' logs' [r]); [done|by split| |done|done|done|done].
      by apply Forall_singleton.
    + destruct Hmv as [[E' ->]|(-> & -> & E')]; rewrite ?length_app, E', ?length_app; cbn; lia.
Qed.

(** ** Batches *)

Lemma put_records_app l1 l2 tasks e :
  put_records (l1 ++ l2) tasks e = (tasks ← put_records l1 tasks; put_records l2 tasks) e.
Proof.
  revert tasks e. induction l1 as [|r l1 IH]; intros tasks e; [done|]. cbn [app put_records].
  unfold mbind, EM_bind. destruct (put_record r e) as [[o| |] e1]; [|done..]. apply IH.
Qed.

Lemma put_records_room D lm li old logs e tasks recs :
  base_ok D lm li logs e -> mt_ok lm e -> pending_ok D li old e -> Forall small_rec recs ->
  total_size (recs ++ lm) < MemtableSize (opts e) -> total_size lm < MemtableSize (opts e) ->
  ∃ e' lm', put_records recs tasks e = (Ok tasks, e') ∧ lm' ≡ₚ recs ++ lm ∧ base_ok D lm' li logs e' ∧ mt_ok lm' e' ∧
    pending_ok D li old e' ∧ same_rest e e' ∧ vs e' = vs e ∧ wal e' = wal e.
Proof.
  intros He Hmt Hp Hs. revert lm e He Hmt Hp. induction Hs as [|r recs Hr _ IH]; intros lm e He Hmt Hp Hroom Hlm.
  - exists e, lm. by split_and!.
  - pose proof (total_size_nonneg recs) as Hnn.
    assert (total_size (recs ++ r :: lm) < MemtableSize (opts e)) as Hroom' by by rewrite <- Permutation_middle.
    assert (total_size (r :: lm) < MemtableSize (opts e)) as Hr1.
    { clear -Hroom' Hnn. induction recs as [|x recs IH]; [done|]. cbn [app] in Hroom'. rewrite total_size_cons in Hroom', Hnn.
      pose proof (Size_range x). apply IH; [apply total_size_nonneg|lia]. }
    destruct (put_record_room D lm li old logs e r He Hmt Hr Hr1) as (ms & E & He1 & Hmt1 & Hp1 & Hlt1).
    destruct (IH (insert_sorted r lm) _ He1 Hmt1 (Hp1 Hp)) as (e' & lm' & E' & Hlm' & He' & Hmt' & Hp' & Hs' & Hv & Hw).
    { rewrite insert_sorted_Permutation. exact Hroom'. }
    { exact Hlt1. }
    exists e', lm'. split_and!; try done.
    + cbn [put_records]. rewrite (EM_bind_ok _ _ _ _ _ E). cbv beta. cbn [option_list]. by rewrite app_nil_r.
    + rewrite Hlm', insert_sorted_Permutation, <- Permutation_middle. done.
    + etrans; [|exact Hs']. by split.
Qed.

Lemma snoc_perm {A} (l1 l2 : list A) x : (l1 ++ [x]) ++ l2 ≡ₚ x :: l1 ++ l2.
Proof. rewrite <- app_assoc. cbn [app]. by rewrite <- Permutation_middle. Qed.

(** The records of a batch, all but the last of which leave room. *)
Lemma put_batch_ok D lm li old logs e recs r :
  base_ok D lm li logs e -> mt_ok lm e -> pending_ok D li old e -> log_state e old logs ((recs ++ [r]) ++ lm) li ->
  Forall small_rec (recs ++ [r]) -> Records.Size r <= max_record -> nextFileNum (vs e) + 2 <= 10 ^ 6 ->
  total_size lm < MemtableSize (opts e) ->
  total_size ((recs ++ [r]) ++ lm) < MemtableSize (opts e) ∨
    flushChan e = [] ∧ li = [] ∧ old = None ∧ total_size (recs ++ lm) < MemtableSize (opts e) ->
  ∃ tasks e1 e' lm' li' old' logs', put_records (recs ++ [r]) [] e = (Ok tasks, e1) ∧ send tasks e1 = (Ok tt, e') ∧
    state_ok D lm' li' old' logs' e' ∧ moved (recs ++ [r]) lm li lm' li' ∧ same_core e e' ∧
    nextFileNum (vs e') <= nextFileNum (vs e) + 2 ∧ Current (vs e') = Current (vs e).
Proof.
  intros He Hmt Hp Hl Hsm Hsz Hn Hlm Hcond. rewrite Forall_app in Hsm. destruct Hsm as [Hsm [Hr _]%Forall_cons].
  rewrite snoc_perm, total_size_cons in Hcond. pose proof (Size_range r).
  destruct (put_records_room D lm li old logs e [] recs He Hmt Hp Hsm)
    as (e1 & lm1 & E1 & Hp1 & He1 & Hmt1 & Hpend1 & Hs1 & Hv1 & Hw1); [destruct Hcond as [?|(_ & _ & _ & ?)]; lia|done|].
  destruct (put_send_ok D lm1 li old logs e1 r He1 Hmt1 Hpend1)
    as (o & e2 & e' & lm' & li' & old' & logs' & E2 & E3 & Hst' & Hcase & Hs' & Hn' & HC'); try done.
  { eapply log_state_eq; [exact Hl|apply (sr_opts _ _ Hs1)|done|]. by rewrite Hp1, snoc_perm. }
  { rewrite (sr_opts _ _ Hs1), Hp1. destruct Hcond as [?|(_ & _ & _ & ?)]; lia. }
  { by rewrite Hv1. }
  { rewrite (sr_opts _ _ Hs1), (sr_flushes _ _ Hs1), total_size_cons, Hp1. destruct Hcond as [?|(? & ? & ? & _)]; [right; lia|by left]. }
  exists (option_list o), e2, e', lm', li', old', logs'. rewrite Hv1 in Hn', HC'. split_and!; try done.
  - rewrite put_records_app, (EM_bind_ok _ _ _ _ _ E1). cbv beta. cbn [put_records]. by rewrite (EM_bind_ok _ _ _ _ _ E2).
  - assert (insert_sorted r lm1 ≡ₚ (recs ++ [r]) ++ lm) as Ep by by rewrite insert_sorted_Permutation, Hp1, snoc_perm.
    destruct Hcase as [[-> ->]|(-> & -> & ->)]; [by left|by right].
  - etrans; [apply same_rest_core, Hs1|done].
Qed.

(** The record of an operation of a batch. *)
Definition op_rec (op : batch_op) : Rec :=
  match op with OpPut k v => mkRec (mkIK k 0 TypePut) v | OpDelete k => mkRec (mkIK k 0 TypeDel) None end.

Lemma batch_recs ops : Records (foldl run_op Batch.New ops) = map op_rec ops.
Proof.
  assert (∀ b, recs (foldl run_op b ops) = recs b ++ map op_rec ops) as H; [|apply H].
  induction ops as [|op ops IH]; intros b; cbn [foldl map]; [by rewrite app_nil_r|].
  rewrite IH. destruct op; cbn [run_op Batch.Put Batch.Delete recs op_rec]; by rewrite <- app_assoc.
Qed.

Lemma check_batch_valid ops :
  Forall small_rec (map op_rec ops) -> check_batch (map op_rec ops) = None <-> Forall batch_valid ops.
Proof.
  induction ops as [|op ops IH]; intros Hs; [by split|]. cbn [map] in Hs. apply Forall_cons in Hs as [Hop Hs].
  cbn [map check_batch]. rewrite Forall_cons, <- (IH Hs).
  assert ((KeyLen (op_rec op) =? 0) = bool_decide (UserKey (op_rec op) = [])) as ->.
  { destruct Hop as [[(Hk & _ & _) _] _]. unfold KeyLen, keyLen. pose proof (len_nonneg (UserKey (op_rec op))).
    rewrite u32_small by lia. destruct (UserKey (op_rec op)) as [|x k] eqn:E; [done|]. rewrite bool_decide_false by done.
    rewrite len_cons in *. pose proof (len_nonneg k). lia. }
  destruct op as [k [v|]|k]; cbn; destruct (bool_decide_reflect (k = [])) as [->|Hk]; naive_solver.
Qed.

Lemma numbered_renumber l n : 0 <= n -> n + len l < 2 ^ 64 -> numbered n (renumber l (n + 1)).
Proof.
  revert n. induction l as [|r l IH]; intros n Hn Hlt; [done|]. rewrite len_cons in Hlt. pose proof (len_nonneg l).
  cbn [renumber numbered]. split; [cbn; rewrite u64_small by lia; done|]. apply IH; lia.
Qed.

Lemma renumber_twice l n : renumber (renumber l n) n = renumber l n.
Proof. revert n. induction l as [|r l IH]; intros n; [done|]. cbn [renumber]. f_equal. apply IH. Qed.

Lemma renumber_app l1 l2 n : renumber (l1 ++ l2) n = renumber l1 n ++ renumber l2 (n + len l1).
Proof.
  revert n. induction l1 as [|r l1 IH]; intros n; cbn [app renumber]; [by rewrite Z.add_0_r|].
  rewrite IH, len_cons. do 3 f_equal. lia.
Qed.

Lemma len_renumber l n : len (renumber l n) = len l.
Proof. revert n. induction l as [|r l IH]; intros n; [done|]. cbn [renumber]. by rewrite !len_cons, IH. Qed.

Lemma total_size_renumber l n : total_size (renumber l n) = total_size l.
Proof. revert n. induction l as [|r l IH]; intros n; [done|]. cbn [renumber]. by rewrite !total_size_cons, IH. Qed.

Lemma client_renumber ops n : Forall batch_valid ops -> Forall client_rec (renumber (map op_rec ops) n).
Proof.
  intros H. revert n. induction H as [|op ops Hop _ IH]; intros n; [constructor|]. cbn [map renumber]. constructor; [|apply IH].
  destruct op as [k v|k]; [right; split; [done|apply Hop]|by left].
Qed.

Lemma rec_maps_batch m ops n : rec_maps m (renumber (map op_rec ops) n) = batch_maps m ops.
Proof.
  revert m n. induction ops as [|op ops IH]; intros m n; [done|]. cbn [map renumber rec_maps batch_maps]. rewrite IH.
  by destruct op.
Qed.

Lemma mt_room_ok D lm li old logs e l :
  state_ok D lm li old logs e -> mt_room e l = true -> total_size (l ++ lm) < MemtableSize (opts e).
Proof.
  intros Hst Hroom. destruct (so_mt _ _ _ _ _ _ Hst) as [(m & Hm & Hsz & _) _]. unfold mt_room in Hroom.
  rewrite Hm, Hsz in Hroom. rewrite total_size_app. lia.
Qed.

(** The log part of a batch. *)
Lemma log_batch_ok D lm li old logs e rs s :
  base_ok D lm li logs e -> log_state e old logs lm li -> Forall small_rec rs -> renumber rs s = rs ->
  ∃ e' logs', log_batch rs s e = (Ok rs, e') ∧ base_ok D lm li logs' e' ∧ log_state e' old logs' (rs ++ lm) li ∧ log_step e e'.
Proof.
  intros He Hl Hrs Hnum. unfold log_batch. rewrite (EM_bind_ok _ _ e (CrashRecovery (opts e)) e) by done. cbv beta.
  destruct (CrashRecovery (opts e)) eqn:Ecr.
  - destruct (log_append_ok D lm li old logs e rs
      (λ l, let recs := renumber rs s in buf ← encodeRecords recs; let '(l, err) := wal_submit l buf in Ok (l, (err, recs)))
      (λ err, (err, rs)) He Hl Ecr) as (w & e' & logs' & Hw & E & He' & Hl' & Hs).
    { intros l. cbv zeta. rewrite Hnum, encodeRecords_spec by done. cbn [mbind res_bind]. by destruct (wal_submit l _). }
    exists e', logs'. split_and!; [|done..]. rewrite (EM_bind_ok _ _ e (Some w) e) by (unfold gets; by rewrite Hw).
    cbv beta iota. unfold wal_AppendBatch. rewrite (EM_bind_ok _ _ _ _ _ E). done.
  - exists e, logs. split_and!; [done|done| |by split]. unfold log_state in *. by rewrite Ecr in *.
Qed.

(** Bounds on what an operation writes. *)
Definition op_bounded (o : op) : Prop := Forall (λ r : Rec, small_rec r ∧ Records.Size r <= max_record) (op_recs o).

(** What remains true of the numbers: at most two file numbers for an operation, a sequence number
    for a record. *)
Record progress (o : op) (n : nat) (e e' : Engine) (n' : nat) : Prop := {
  pg_files : nextFileNum (vs e') <= nextFileNum (vs e) + 2;
  pg_seq : seqNum e' <= seqNum e + len (op_recs o);
  pg_opts : opts e' = opts e;
  pg_count : (n' <= n + length (op_recs o))%nat
}.

(** The steps of a batch once it has its sequence numbers. *)
Lemma batch_steps D lm li old logs e rs0 r s :
  state_ok D lm li old logs e -> renumber (rs0 ++ [r]) s = rs0 ++ [r] -> Forall small_rec (rs0 ++ [r]) ->
  Records.Size r <= max_record -> nextFileNum (vs e) + 2 <= 10 ^ 6 ->
  total_size ((rs0 ++ [r]) ++ lm) < MemtableSize (opts e) ∨
    flushChan e = [] ∧ total_size (rs0 ++ lm) < MemtableSize (opts e) ->
  ∃ tasks e2 e3 e' lm' li' old' logs', log_batch (rs0 ++ [r]) s e = (Ok (rs0 ++ [r]), e2) ∧
    put_records (rs0 ++ [r]) [] e2 = (Ok tasks, e3) ∧ send tasks e3 = (Ok tt, e') ∧
    state_ok D lm' li' old' logs' e' ∧ moved (rs0 ++ [r]) lm li lm' li' ∧ same_core e e' ∧
    nextFileNum (vs e') <= nextFileNum (vs e) + 2 ∧ Current (vs e') = Current (vs e).
Proof.
  intros Hst Hnum Hrs Hsz Hn Hcond. pose proof Hst as [He Hmt Hl Hp Hlt].
  destruct (log_batch_ok D lm li old logs e _ s He Hl Hrs Hnum) as (e2 & logs2 & E2 & He2 & Hl2 & Hls).
  destruct (log_step_state D lm li old e e2 Hls Hmt Hp) as [Hmt2 Hp2]. destruct Hls as [Hs2 _ Hv2 _].
  destruct (put_batch_ok D lm li old logs2 e2 rs0 r)
    as (tasks & e3 & e' & lm' & li' & old' & logs' & E3 & E4 & Hst' & Hmv & Hs' & Hn' & HC'); try done.
  { by rewrite Hv2. }
  { by rewrite (sr_opts _ _ Hs2). }
  { rewrite (sr_opts _ _ Hs2), (sr_flushes _ _ Hs2). destruct Hcond as [|[Hq ?]]; [by left|right].
    by destruct (idle_li _ _ _ _ _ _ Hst Hq) as (-> & -> & _). }
  rewrite Hv2 in Hn', HC'. exists tasks, e2, e3, e', lm', li', old', logs'. split_and!; try done.
  etrans; [apply same_rest_core, Hs2|done].
Qed.

Lemma ready_batch D lm li old logs e rs0 r :
  state_ok D lm li old logs e ->
  mt_room e (if (length (flushChan e) =? 0)%nat then rs0 else rs0 ++ [r]) = true ->
  total_size ((rs0 ++ [r]) ++ lm) < MemtableSize (opts e) ∨
    flushChan e = [] ∧ total_size (rs0 ++ lm) < MemtableSize (opts e).
Proof.
  intros Hst Hready. apply (mt_room_ok D lm li old logs e _ Hst) in Hready.
  destruct (Nat.eqb_spec (length (flushChan e)) 0) as [Hq%nil_length_inv|_]; [by right|by left].
Qed.

(** The batch's preamble: its checks and its sequence numbers. *)
Lemma WriteBatch_eq ops e :
  Forall small_rec (map op_rec ops) -> ops ≠ [] -> Forall batch_valid ops -> 0 <= seqNum e -> seqNum e + len ops < 2 ^ 64 ->
  WriteBatch (foldl run_op Batch.New ops) e =
    (recs ← log_batch (renumber (map op_rec ops) (seqNum e + 1)) (seqNum e + 1);
     tasks ← put_records recs [];
     send tasks) (set_seqNum e (seqNum e + len ops)).
Proof.
  intros Hsm Hne Hval Hs0 Hseq. pose proof (len_nonneg ops).
  assert (len (map op_rec ops) = len ops) as Hlen by (unfold len; by rewrite length_map).
  assert (len ops ≠ 0) as Hops0 by (destruct ops as [|op ops]; [done|]; rewrite len_cons; pose proof (len_nonneg ops); lia).
  unfold WriteBatch, Batch.Len. change (recs (foldl run_op Batch.New ops)) with (Records (foldl run_op Batch.New ops)).
  rewrite batch_recs, Hlen. rewrite (proj2 (Z.eqb_neq _ _) Hops0). rewrite (proj2 (check_batch_valid ops Hsm) Hval).
  rewrite (EM_bind_ok (check None) _ e tt e) by done. cbv beta zeta. rewrite (u64_small (len ops)) by lia.
  rewrite (EM_bind_ok _ _ _ _ _ (next_seq_ok (len ops) e ltac:(lia) Hs0 Hseq)). cbv beta.
  replace (u64 (u64 (seqNum e + len ops - len ops) + 1)) with (seqNum e + 1); [done|].
  rewrite (u64_small (_ - _)) by lia. rewrite u64_small by lia. lia.
Qed.

Lemma write_batch_sim h D lm li old logs l0 e ops :
  refines h D lm li old logs l0 e -> ops ≠ [] -> Forall batch_valid ops -> op_bounded (OBatch ops) ->
  nextFileNum (vs e) + 2 <= 10 ^ 6 -> seqNum e + len ops < 2 ^ 64 -> ready (OBatch ops) e = true ->
  ∃ e' lm' li' old' logs', WriteBatch (foldl run_op Batch.New ops) e = (Ok tt, e') ∧
    refines (h ++ batch_maps (now h) ops) D lm' li' old' logs' l0 e' ∧
    progress (OBatch ops) (length (lm ++ li)) e e' (length (lm' ++ li')).
Proof.
  intros Hr Hne Hval Hb Hn Hseq Hready. pose proof Hr as [Hst _ _ _ Hs0].
  unfold op_bounded in Hb. cbn [op_recs] in Hb. rewrite batch_recs in Hb.
  assert (Forall small_rec (map op_rec ops)) as Hsm by (eapply Forall_impl; [exact Hb|naive_solver]).
  set (e1 := set_seqNum e (seqNum e + len ops)). set (rs := renumber (map op_rec ops) (seqNum e + 1)).
  assert (∃ rs0 r, rs = rs0 ++ [r] ∧ Records.Size r <= max_record ∧
    (total_size ((rs0 ++ [r]) ++ lm) < MemtableSize (opts e) ∨ flushChan e = [] ∧ total_size (rs0 ++ lm) < MemtableSize (opts e)))
    as (rs0 & r & Ers & Hsz & Hcond).
  { destruct ops as [|op ops0 _] using rev_ind; [done|]. unfold ready in Hready. cbn [op_recs] in Hready.
    rewrite batch_recs, map_app in Hready. cbn [map] in Hready. rewrite removelast_last in Hready.
    unfold rs. rewrite map_app, renumber_app. cbn [map renumber]. eexists _, _. split; [reflexivity|]. split.
    - rewrite map_app in Hb. apply Forall_app in Hb as [_ [[_ Hb] _]%Forall_cons]. exact Hb.
    - pose proof (ready_batch D lm li old logs e _ _ Hst Hready) as Hc. rewrite !total_size_app in Hc |- *.
      rewrite total_size_renumber. exact Hc. }
  pose proof (small_renumber _ (seqNum e + 1) Hsm) as Hrs. fold rs in Hrs. pose proof (renumber_twice (map op_rec ops) (seqNum e + 1)) as Htw.
  fold rs in Htw. rewrite Ers in Hrs, Htw.
  destruct (batch_steps D lm li old logs e1 rs0 r (seqNum e + 1)) as (tasks & e2 & e3 & e' & lm' & li' & old' & logs' & E2 & E3 & E4 & Hst' & Hmv & [So Ss _ _] & Hn' & HC');
    [by apply state_ok_seq|done..|].
  rewrite <- Ers in E2, E3, Hmv. assert (len rs = len ops) as Elen by (unfold rs; rewrite len_renumber; unfold len; by rewrite length_map).
  exists e', lm', li', old', logs'. split_and!.
  - rewrite WriteBatch_eq by done. fold rs e1. rewrite (EM_bind_ok _ _ _ _ _ E2). cbv beta. rewrite (EM_bind_ok _ _ _ _ _ E3). exact E4.
  - rewrite <- (rec_maps_batch _ _ (seqNum e + 1)). fold rs.
    apply (refines_write h D lm li old logs l0 e e' lm' li' old' logs' rs); [done| |by apply client_renumber|done|done|by rewrite Elen|done].
    apply numbered_renumber; [lia|]. unfold len in *. by rewrite length_map.
  - split; [exact Hn'| |exact So|].
    + rewrite Ss. cbn [op_recs e1 seqNum set_seqNum]. rewrite batch_recs. unfold len. rewrite length_map. lia.
    + cbn [op_recs]. rewrite batch_recs, length_map. unfold len in Elen.
      destruct Hmv as [[E' ->]|(-> & -> & E')]; rewrite ?length_app, E', ?length_app; cbn; lia.
Qed.

(** ** Every operation *)

(** The engine [e] represents the history, with [n] records. *)
Definition represents_store (h : history) (n : nat) (e : Engine) : Prop :=
  ∃ D lm li old logs l0, refines h D lm li old logs l0 e ∧ n = length (lm ++ li ++ level_recs D l0).

Definition l0_count (e : Engine) : Z := match Current (vs e) with l0 :: _ => len l0 | [] => 0 end.

(** The state after an operation; a stall is one only if level 0 is full. *)
Record op_result (h' : history) (o : op) (ob : obs) (n : nat) (e e' : Engine) : Prop := {
  or_store : ∃ n', represents_store h' n' e' ∧ (n' <= n + length (op_recs o))%nat;
  or_files : nextFileNum (vs e') <= nextFileNum (vs e) + 2;
  or_seq : seqNum e' <= seqNum e + len (op_recs o);
  or_opts : opts e' = opts e;
  or_level0 : l0_count e <= l0_count e';
  or_stalled : ob = RStalled -> MaxL0Files (opts e) * 2 <= l0_count e
}.

Lemma refines_l0 h D lm li old logs l0 e : refines h D lm li old logs l0 e -> l0_count e = len l0.
Proof. intros Hr. destruct (rf_levels _ _ _ _ _ _ _ _ Hr) as [n HC]. unfold l0_count. by rewrite HC. Qed.

(** An operation that writes nothing. *)
Lemma read_result_ok h D lm li old logs l0 e e' o ob :
  refines h D lm li old logs l0 e -> refines h D lm li old logs l0 e' -> vs e' = vs e -> seqNum e' = seqNum e -> opts e' = opts e ->
  ob ≠ RStalled -> op_result h o ob (length (lm ++ li ++ level_recs D l0)) e e'.
Proof.
  intros Hr Hr' Hv Hs Ho Hob. pose proof (len_nonneg (op_recs o)). split.
  - eexists. split; [by exists D, lm, li, old, logs, l0|]. lia.
  - rewrite Hv. lia.
  - lia.
  - done.
  - rewrite (refines_l0 _ _ _ _ _ _ _ _ Hr), (refines_l0 _ _ _ _ _ _ _ _ Hr'). lia.
  - done.
Qed.

(** An operation that writes. *)
Lemma write_result_ok h h' D lm li old logs l0 e e' o ob lm' li' old' logs' :
  refines h D lm li old logs l0 e -> refines h' D lm' li' old' logs' l0 e' ->
  progress o (length (lm ++ li)) e e' (length (lm' ++ li')) -> (ob = RStalled -> MaxL0Files (opts e) * 2 <= len l0) ->
  op_result h' o ob (length (lm ++ li ++ level_recs D l0)) e e'.
Proof.
  intros Hr Hr' [P1 P2 P3 P4] Hob. split; try done.
  - eexists. split; [by exists D, lm', li', old', logs', l0|]. rewrite !length_app in *. lia.
  - rewrite (refines_l0 _ _ _ _ _ _ _ _ Hr), (refines_l0 _ _ _ _ _ _ _ _ Hr'). lia.
  - by rewrite (refines_l0 _ _ _ _ _ _ _ _ Hr).
Qed.

(** The write of a record as an operation. *)
Lemma single_write_ok h D lm li old logs l0 e o k value typ (m : EM bool) :
  refines h D lm li old logs l0 e -> op_recs o = [mkRec (mkIK k 0 typ) value] -> op_bounded o ->
  client_rec (mkRec (mkIK k 0 typ) value) -> nextFileNum (vs e) + 2 <= 10 ^ 6 -> seqNum e + 1 < 2 ^ 64 -> ready o e = true ->
  (∀ b e', write k value typ e = (Ok b, e') -> m e = (Ok b, e')) ->
  ∃ ob e' h', (r ← attempt m; mret (written r)) e = (Ok ob, e') ∧
    (ob = RDone ∧ h' = h ++ [rec_change (mkRec (mkIK k 0 typ) value) (now h)] ∨ ob = RStalled ∧ h' = h ++ [now h]) ∧
    op_result h' o ob (length (lm ++ li ++ level_recs D l0)) e e'.
Proof.
  intros Hr Ho Hb Hc Hn Hseq Hready Hm. unfold op_bounded in Hb. rewrite Ho in Hb. apply Forall_cons in Hb as [[Hsm Hsz] _].
  pose proof (rf_seq _ _ _ _ _ _ _ _ Hr) as Hs0. pose proof (rf_state _ _ _ _ _ _ _ _ Hr) as Hst.
  destruct (write_sim h D lm li old logs l0 e k value typ) as (e' & b & lm' & li' & old' & logs' & E & Hr' & Hstall & Hn' & Hs' & Ho' & Hcnt); try done.
  { destruct Hsm as [[(H1 & _ & H3) H4] H5]. split; [|done]. split; [|done]. split_and!; [done|cbn; lia|cbn; lia|apply H3|apply H3]. }
  { unfold ready in Hready. rewrite Ho in Hready. pose proof (ready_batch D lm li old logs e [] _ Hst Hready) as [H|[H _]]; [by right|by left]. }
  exists (written (inl b)), e', (h ++ [if b then rec_change (mkRec (mkIK k 0 typ) value) (now h) else now h]). split_and!.
  - by rewrite (EM_bind_ok _ _ _ _ _ (attempt_ok _ _ _ _ (Hm _ _ E))).
  - destruct b; [by left|by right].
  - eapply write_result_ok; [exact Hr|exact Hr'| |].
    + split; [done|rewrite Ho; change (len [_]) with 1; lia|done|]. rewrite Ho. cbn. lia.
    + destruct b; [done|]. intros _. by apply Hstall.
Qed.

Lemma map_at_now h D lm li old logs l0 e : refines h D lm li old logs l0 e -> seqNum e < 2 ^ 64 -> map_at h (seqNum e) MaxUint64 (now h).
Proof. intros Hr Hs. right. split_and!; [unfold MaxUint64; lia|done|apply Hr]. Qed.

Lemma map_at_snapshot h D lm li old logs l0 e s :
  refines h D lm li old logs l0 e -> (0 <=? s) && (s <=? seqNum e) = true -> ∃ m, h !! Z.to_nat s = Some m ∧ 0 <= s ∧ map_at h (seqNum e) s m.
Proof.
  intros Hr Hs. pose proof (st_len _ _ _ (rf_store _ _ _ _ _ _ _ _ Hr)) as Hl. unfold len in Hl.
  destruct (lookup_lt_is_Some_2 h (Z.to_nat s)) as [m Hm]; [lia|]. exists m. split_and!; [done|lia|left; split; [lia|done]].
Qed.

(** A write with its checks. *)
Lemma put_sim h D lm li old logs l0 e k v fuel :
  refines h D lm li old logs l0 e -> op_bounded (OPut k v) -> nextFileNum (vs e) + 2 <= 10 ^ 6 -> seqNum e + 1 < 2 ^ 64 ->
  ready (OPut k v) e = true ->
  ∃ ob e' h', exec fuel (OPut k v) e = (Ok ob, e') ∧ spec_step h (OPut k v) ob h' ∧
    op_result h' (OPut k v) ob (length (lm ++ li ++ level_recs D l0)) e e'.
Proof.
  intros Hr Hb Hn Hseq Hready. destruct (decide (k = [] ∨ v = [])) as [Hbad|Hgood].
  - exists RError, e, h. split_and!; [|by constructor|by eapply read_result_ok].
    cbn [exec]. unfold EngineWrite.Put. destruct Hbad as [->| ->]; [done|]. by rewrite orb_true_r.
  - assert (k ≠ [] ∧ v ≠ []) as [Hk Hv] by tauto.
    destruct (single_write_ok h D lm li old logs l0 e (OPut k v) k (Some v) TypePut (EngineWrite.Put k v))
      as (ob & e' & h' & E & Hcase & Hres); try done; [by right| |].
    { intros b e' Ew. unfold EngineWrite.Put. unfold bytes_Equal. by rewrite !bool_decide_false. }
    exists ob, e', h'. split_and!; [done| |done]. destruct Hcase as [[-> ->]|[-> ->]]; by constructor.
Qed.

Lemma delete_sim h D lm li old logs l0 e k fuel :
  refines h D lm li old logs l0 e -> op_bounded (ODelete k) -> nextFileNum (vs e) + 2 <= 10 ^ 6 -> seqNum e + 1 < 2 ^ 64 ->
  ready (ODelete k) e = true ->
  ∃ ob e' h', exec fuel (ODelete k) e = (Ok ob, e') ∧ spec_step h (ODelete k) ob h' ∧
    op_result h' (ODelete k) ob (length (lm ++ li ++ level_recs D l0)) e e'.
Proof.
  intros Hr Hb Hn Hseq Hready.
  destruct (single_write_ok h D lm li old logs l0 e (ODelete k) k None TypeDel (EngineWrite.Delete k))
    as (ob & e' & h' & E & Hcase & Hres); try done; [by left| |].
  { intros b e' Ew. unfold EngineWrite.Delete. by rewrite (EM_bind_ok _ _ _ _ _ (attempt_ok _ _ _ _ Ew)). }
  exists ob, e', h'. split_and!; [done| |done]. destruct Hcase as [[-> ->]|[-> ->]]; by constructor.
Qed.

Lemma check_batch_invalid ops e :
  Forall small_rec (map op_rec ops) -> ¬ Forall batch_valid ops -> ∃ x, WriteBatch (foldl run_op Batch.New ops) e = (Err x, e).
Proof.
  intros Hsm Hbad. destruct ops as [|op ops]; [by destruct Hbad|]. set (l := op :: ops) in *.
  destruct (check_batch (map op_rec l)) as [x|] eqn:Ec; [|by apply (check_batch_valid l Hsm) in Ec]. exists x.
  unfold WriteBatch, Batch.Len. change (recs (foldl run_op Batch.New l)) with (Records (foldl run_op Batch.New l)).
  rewrite batch_recs. assert (len (map op_rec l) ≠ 0) as Hl.
  { unfold l. cbn [map]. rewrite len_cons. pose proof (len_nonneg (map op_rec ops)). lia. }
  rewrite (proj2 (Z.eqb_neq _ _) Hl), Ec. done.
Qed.

Lemma batch_sim h D lm li old logs l0 e ops fuel :
  refines h D lm li old logs l0 e -> op_bounded (OBatch ops) -> nextFileNum (vs e) + 2 <= 10 ^ 6 ->
  seqNum e + len (op_recs (OBatch ops)) < 2 ^ 64 -> ready (OBatch ops) e = true ->
  ∃ ob e' h', exec fuel (OBatch ops) e = (Ok ob, e') ∧ spec_step h (OBatch ops) ob h' ∧
    op_result h' (OBatch ops) ob (length (lm ++ li ++ level_recs D l0)) e e'.
Proof.
  intros Hr Hb Hn Hseq Hready. cbn [exec]. cbn [op_recs] in Hseq. rewrite batch_recs in Hseq. unfold len in Hseq. rewrite length_map in Hseq.
  destruct (decide (ops = [])) as [->|Hne].
  { exists RDone, e, h. split_and!; [done| |by eapply read_result_ok]. rewrite <- (app_nil_r h) at 2.
    apply (spec_batch h []). constructor. }
  assert (Decision (Forall batch_valid ops)) as Hdec.
  { apply Forall_dec. intros [k v|k]; unfold batch_valid; apply _. }
  destruct (decide (Forall batch_valid ops)) as [Hval|Hbad].
  - destruct (write_batch_sim h D lm li old logs l0 e ops) as (e' & lm' & li' & old' & logs' & E & Hr' & Hp); try done.
    exists RDone, e', (h ++ batch_maps (now h) ops). split_and!; [|by constructor|by eapply write_result_ok].
    by rewrite (EM_bind_ok _ _ _ _ _ (attempt_ok _ _ _ _ E)).
  - destruct (check_batch_invalid ops e) as [x E]; [|done|].
    { unfold op_bounded in Hb. cbn [op_recs] in Hb. rewrite batch_recs in Hb. eapply Forall_impl; [exact Hb|naive_solver]. }
    exists RError, e, h. split_and!; [|by constructor|by eapply read_result_ok].
    rewrite (EM_bind_ok _ _ e (inr x) e) by (unfold attempt; by rewrite E). done.
Qed.

(** Every operation behaves as that of the store. *)
Lemma step_sim h n e o fuel :
  represents_store h n e -> op_bounded o -> nextFileNum (vs e) + 2 <= 10 ^ 6 -> seqNum e + len (op_recs o) < 2 ^ 64 ->
  (n <= fuel)%nat -> ready o e = true -> op_ok o e = true ->
  ∃ ob e' h', exec fuel o e = (Ok ob, e') ∧ spec_step h o ob h' ∧ op_result h' o ob n e e'.
Proof.
  intros (D & lm & li & old & logs & l0 & Hr & ->) Hb Hn Hseq Hf Hready Hok.
  assert (seqNum e < 2 ^ 64) as Hs by (pose proof (len_nonneg (op_recs o)); lia).
  pose proof (map_at_now _ _ _ _ _ _ _ _ Hr Hs) as Hnow.
  destruct o as [k v|k|ops|k|start end_| |s k|s start end_|s|].
  - by eapply put_sim.
  - by eapply delete_sim.
  - by eapply batch_sim.
  - destruct (get_sim h D lm li old logs l0 e k MaxUint64 (now h) Hr Hnow) as (e' & E & Hr' & tc & w & ->).
    eexists _, _, h. split_and!; [cbn [exec EngineRead.Get]; by rewrite (EM_bind_ok _ _ _ _ _ E)|by constructor|by eapply read_result_ok].
  - destruct (scan_sim h D lm li old logs l0 e fuel start end_ _ _ _ Hr Hnow eq_refl Hf) as (e' & l & E & Hl & Hr' & _ & Hv & Hsq & Ho).
    exists (RPairs l), e', h. split_and!; [exact E|by constructor|by eapply read_result_ok].
  - eexists (RSnapshot (seqNum e)), _, h. split_and!; [reflexivity| |].
    + replace (seqNum e) with (len h - 1); [constructor|]. pose proof (st_len _ _ _ (rf_store _ _ _ _ _ _ _ _ Hr)). lia.
    + eapply read_result_ok; [exact Hr| |done..]. eapply refines_state; [exact Hr| |done|done].
      apply state_ok_snapshots, (rf_state _ _ _ _ _ _ _ _ Hr).
  - destruct (map_at_snapshot _ _ _ _ _ _ _ _ _ Hr Hok) as (m & Hm & Hs0 & Hat).
    destruct (get_sim h D lm li old logs l0 e k _ _ Hr Hat) as (e' & E & Hr' & tc & w & ->).
    eexists _, _, h. split_and!; [cbn [exec]; unfold snapshot_Get; cbn [snap_seqNum]; by rewrite (EM_bind_ok _ _ _ _ _ E)|by econstructor|by eapply read_result_ok].
  - destruct (map_at_snapshot _ _ _ _ _ _ _ _ _ Hr Hok) as (m & Hm & Hs0 & Hat).
    destruct (scan_sim h D lm li old logs l0 e fuel start end_ _ _ _ Hr Hat eq_refl Hf) as (e' & l & E & Hl & Hr' & _ & Hv & Hsq & Ho).
    exists (RPairs l), e', h. split_and!; [exact E|by econstructor|by eapply read_result_ok].
  - eexists RDone, _, h. split_and!; [reflexivity|constructor|].
    eapply read_result_ok; [exact Hr| |done..]. eapply refines_state; [exact Hr| |done|done]. apply state_ok_snapshots, (rf_state _ _ _ _ _ _ _ _ Hr).
  - destruct (flush_sim h D lm li old logs l0 e Hr Hn) as (e' & D' & li' & old' & logs' & l0' & E & Hr' & _ & Hn' & Hl & Hsq & Ho & Hc).
    exists RDone, e', h. split_and!; [cbn [exec]; by rewrite (EM_bind_ok _ _ _ _ _ E)|constructor|].
    split; [|done|rewrite Hsq; change (len (op_recs OFlush)) with 0; lia|done| |done].
    + eexists. split; [by exists D', lm, li', old', logs', l0'|]. rewrite !length_app in *. lia.
    + by rewrite (refines_l0 _ _ _ _ _ _ _ _ Hr), (refines_l0 _ _ _ _ _ _ _ _ Hr').
Qed.
End sim.
