(* ===== verification/EngineRun.v ===== *)
(** * Package engine: from New on, the engine is the store

    An engine opened in an empty directory represents the empty history, and every paced sequence
    of operations on it is one of the store. *)

From S2P Require Import Prelude.
From S2P Require Import GoStd.
From S2P Require Import GoIO.
From S2P Require Import Records.
From S2P Require Import Skiplist.
From S2P Require Import Versions.
From S2P Require Import Memtable.
From S2P Require Import Config.
From S2P Require Import Wal.
From S2P Require Import Batch.
From S2P Require Import Filter.
From S2P Require Import Blocks.
From S2P Require Import BlockCache.
From S2P Require Import Names.
From S2P Require Import TableWriter.
From S2P Require Import TableReader.
From S2P Require Import Meta.
From S2P Require Import Scan.
From S2P Require Import EngineState.
From S2P Require Import EngineRead.
From S2P Require Import EngineCompact.
From S2P Require Import EngineWrite.
From S2P Require Import EngineOpen.
From S2P Require Import EngineFs.
From S2P Require Import EngineDisk.
From S2P Require Import EngineFlow.
From S2P Require Import EngineFlush.
From S2P Require Import EngineRefine.
From S2P Require Import EngineSim.

Section run.
Context `{FE : FloatEnv} `{LG : Logged}.

(** ** Sequences of operations *)

Definition total_recs (ops : list op) : nat := sum_list (map (λ o, length (op_recs o)) ops).

Lemma run_sim fuel ops h n e :
  represents_store h n e -> Forall op_bounded ops -> nextFileNum (vs e) + 2 * len ops <= 10 ^ 6 ->
  seqNum e + Z.of_nat (total_recs ops) < 2 ^ 64 -> (n + total_recs ops <= fuel)%nat -> paced fuel ops e = true ->
  ∃ os e' h' n', exec_all fuel ops e = (Ok os, e') ∧ spec_run h ops os h' ∧ represents_store h' n' e' ∧
    opts e' = opts e ∧ l0_count e <= l0_count e' ∧ (RStalled ∈ os -> MaxL0Files (opts e) * 2 <= l0_count e') ∧
    nextFileNum (vs e') <= nextFileNum (vs e) + 2 * len ops ∧ seqNum e' <= seqNum e + Z.of_nat (total_recs ops) ∧
    (n' <= n + total_recs ops)%nat.
Proof.
  intros Hr Hb. revert h n e Hr. induction Hb as [|o ops Ho _ IH]; intros h n e Hr Hn Hs Hf Hp.
  - exists [], e, h, n. split_and!; [done|constructor|done|done|lia|by intros ?%elem_of_nil|change (len (@nil op)) with 0; lia|change (total_recs []) with 0%nat; lia|lia].
  - cbn [paced] in Hp. apply andb_true_iff in Hp as [[Hready Hok]%andb_true_iff Hp].
    rewrite len_cons in Hn. pose proof (len_nonneg ops). change (total_recs (o :: ops)) with (length (op_recs o) + total_recs ops)%nat in *.
    destruct (step_sim h n e o fuel Hr Ho) as (ob & e1 & h1 & E & Hstep & [(n1 & Hr1 & Hn1) R1 R2 R3 R4 R5]); [lia|unfold len; lia|lia|done|done|].
    rewrite E in Hp. cbn [snd] in Hp. unfold len in R2.
    destruct (IH h1 n1 e1 Hr1) as (os & e' & h' & n' & E' & Hrun & Hr' & Ho' & Hl' & Hst & Hn' & Hs' & Hc'); [lia|lia|lia|done|].
    exists (ob :: os), e', h', n'. split_and!; [|by econstructor|done|congruence|lia| |rewrite len_cons; lia|lia|lia].
    + cbn [exec_all]. rewrite (EM_bind_ok _ _ _ _ _ E). cbv beta. by rewrite (EM_bind_ok _ _ _ _ _ E').
    + intros [E0|Hin]%elem_of_cons; [specialize (R5 (eq_sym E0)); lia|]. specialize (Hst Hin). rewrite R3 in Hst. lia.
Qed.

(** ** New in an empty directory *)

Definition empty_root : Root := mkRoot ∅ [].
Definition empty_fs : FS := mkFS ∅ [] [] [].

(** The options that the bounds of the model allow. *)
Definition options_ok (o : Options) : Prop :=
  filter_fits (WithDefaults o) ∧ 1 <= SkiplistMaxLevel (WithDefaults o) ∧ 0 < MemtableSize o <= max_memtable.

Lemma mkdirs_ok e : io_faults (fs e) = [] -> mkdirs e = (Ok tt, e).
Proof.
  intros Hf. unfold mkdirs. rewrite (EM_bind_ok _ _ e (NumLevels (opts e)) e) by done. cbv beta.
  generalize (2 + Z.to_nat (NumLevels (opts e)))%nat as k. intros k. induction k as [|k IH]; [done|]. cbn [mkdir_all].
  by rewrite (EM_bind_ok _ _ _ _ _ (io_ok e Hf)).
Qed.

Definition first_version : VersionSet := mkVS (replicate 7 []) 1 0 0 NewFile.

(** CURRENT names the manifest. *)
Definition root_current (r : Root) : Prop := fdata <$> root_files r !! currentFile = Some (map ascii_byte manifestName).

Lemma Open_empty : ∃ r, Meta.Open empty_root = Some (r, Ok first_version) ∧ root_current r.
Proof. by eexists. Qed.

(** The engine with nothing in it. *)
Definition started (o : Options) (fl : list (list bool)) : Engine :=
  set_seqNum (set_vs (blank_engine (WithDefaults o) empty_fs fl) first_version) 0.

Lemma fresh_caches D n : caches_ok D ∅ (mkRW (NewBlockCache n) [] ∅ 0).
Proof. split_and!; [apply New_coherent|done|set_solver|intros m r; by rewrite lookup_empty|intros m m' r r'; by rewrite lookup_empty]. Qed.

(** The memtable of an engine that has just been made. *)
Lemma blank_mem o f fl : options_ok o -> mem_ok [] (blank_engine (WithDefaults o) f fl).
Proof.
  intros (_ & H2 & H3). eexists. split_and!; [reflexivity|apply New_holds; lia|done|].
  cbn. rewrite u64_small; [done|]. unfold max_memtable in H3. lia.
Qed.

Lemma started_base o fl : options_ok o -> base_ok ∅ [] [] [] (started o fl) ∧ mt_ok [] (started o fl).
Proof.
  intros Ho. pose proof (blank_mem o empty_fs fl Ho) as Hm. destruct Ho as (H1 & H2 & H3). cbn in H2. split.
  - split; cbn.
    + split; cbn; [|done|constructor|apply fresh_caches].
      destruct Hm as (m & Hm & Hh & _). by exists m.
    + split; cbn; [done|done|constructor|..].
      * intros p i Hl. by rewrite lookup_empty in Hl.
      * intros p q i Hl. by rewrite lookup_empty in Hl.
    + by apply disk_ok_empty.
    + split; [constructor|done].
    + split; [lia|]. intros n bs Hl. by rewrite lookup_empty in Hl.
    + constructor.
    + split; [exact H1|]. unfold max_memtable in H3. cbn. lia.
    + split; cbn; [constructor|constructor|constructor|]. intros name [i Hi]. by rewrite lookup_empty in Hi.
  - by apply mem_ok_mt.
Qed.

Lemma mt_ok_same lm e e' : mt_ok lm e -> mt e' = mt e -> immt e' = immt e -> mts e' = mts e -> opts e' = opts e -> mt_ok lm e'.
Proof. intros [H1 H2] E1 E2 E3 E4. unfold mt_ok. by rewrite E1, E2, E3, E4. Qed.

(** A further log becomes the one that is written to. *)
Lemma open_next_log D lm li logs e v :
  base_ok D lm li logs e -> nextFileNum (vs e) < 10 ^ 6 -> Current v = Current (vs e) -> disk_ok (fs e) v ->
  nextFileNum (vs e) < nextFileNum v ->
  ∃ l f' ws, let n := nextFileNum (vs e) in let e' := set_logs (set_fs (set_vs e v) f') (Some (log_w l)) (imwal e) ws in
    (w ← wal_Open (walPath n) (Mode (opts e)); set_wal w) (set_vs e v) = (Ok tt, e') ∧
    base_ok D lm li (logs ++ [l]) e' ∧ log_recs l = [].
Proof.
  intros He Hlt HC Hman Hv. pose proof (bo_numbers _ _ _ _ _ He) as [Hn0 _].
  destruct (new_log_ok logs e v (nextFileNum (vs e)) (bo_fs _ _ _ _ _ He) (bo_logs _ _ _ _ _ He) eq_refl ltac:(lia) Hv)
    as (f' & h & E & Hstep & Hlogs).
  eexists (mkLog (length (wals e)) _ []), f', (wals e ++ [h]). cbn zeta. split_and!; [|  |done].
  - by rewrite (EM_bind_ok _ _ _ _ _ E).
  - apply (base_ok_logs D lm li logs _ e (nextFileNum (vs e))); [done|done|done|done|lia|]. apply Hlogs.
Qed.

Lemma start_engine_ok o fl :
  options_ok o ->
  ∃ e logs, start_engine (set_vs (blank_engine (WithDefaults o) empty_fs fl) first_version) = (Ok tt, e) ∧
    state_ok ∅ [] [] None logs e ∧ seqNum e = 0 ∧ Current (vs e) = replicate 7 [] ∧ nextFileNum (vs e) <= 2 ∧
    opts e = WithDefaults o ∧ flushChan e = [].
Proof.
  intros Ho. destruct (started_base o fl Ho) as [He Hmt]. set (e0 := started o fl) in *.
  assert (MemtableSize (opts e0) = MemtableSize o) as Hms by done. destruct Ho as (_ & _ & Hsz).
  unfold start_engine. rewrite (EM_bind_ok _ _ _ 0 (set_vs (blank_engine (WithDefaults o) empty_fs fl) first_version)) by done. cbv beta.
  rewrite (EM_bind_ok _ _ _ tt e0) by done. rewrite (EM_bind_ok _ _ e0 (CrashRecovery (opts e0)) e0) by done. cbv beta.
  destruct (CrashRecovery (opts e0)) eqn:Ecr; cycle 1.
  { exists e0, []. split_and!; try done. split; [done|done| |done|rewrite Hms; change (total_size []) with 0; lia].
    unfold log_state. by rewrite Ecr. }
  set (v0 := mkVS (replicate 7 []) 0 0 0 NewFile).
  assert (base_ok ∅ [] [] [] (set_vs e0 v0)) as He0.
  { destruct He as [[V1 V2 V3 V4] Hf Hman Hv Hn Hs Hop [L1 L2 L3 L4]]. split; try done; by apply disk_ok_empty. }
  destruct (open_next_log ∅ [] [] [] (set_vs e0 v0) first_version He0) as (l1 & f1 & ws1 & E1 & He1 & Hl1); [done|done|by apply disk_ok_empty|cbn; lia|].
  cbn [app] in He1. set (e1 := set_logs _ _ _ _) in E1, He1. change (set_vs (set_vs e0 v0) first_version) with e0 in E1.
  set (e2 := set_vs e1 (mkVS (replicate 7 []) 2 0 0 NewFile)).
  destruct (open_next_log ∅ [] [] [l1] e1 (vs e2) He1) as (l2 & f2 & ws2 & E2 & He2 & Hl2); [done|done|by apply disk_ok_empty|cbn; lia|].
  cbn [app] in He2. set (e3 := set_logs _ _ _ _) in E2, He2.
  exists e3, [l1; l2]. split_and!; try done.
  - rewrite (EM_bind_ok recover _ e0 tt e1); [exact E2|]. exact E1.
  - split; [done|by eapply mt_ok_same| |done|cbn; change (total_size []) with 0; lia].
    unfold log_state. change (CrashRecovery (opts e3)) with (CrashRecovery (opts e0)). rewrite Ecr. exists [l1], l2.
    split_and!; [done|by apply Forall_singleton|done|intros _; by rewrite Hl2].
Qed.

Lemma new_empty o fl :
  options_ok o ->
  ∃ e r, New o empty_root empty_fs fl = Some (Ok tt, e, r) ∧ represents_store [∅] 0 e ∧ nextFileNum (vs e) <= 2 ∧
    seqNum e = 0 ∧ opts e = WithDefaults o ∧ root_current r.
Proof.
  intros Ho. destruct (start_engine_ok o fl Ho) as (e & logs & E & Hst & Hs & HC & Hn & Hopt & Hq). destruct Open_empty as (r & Er & Hr).
  exists e, r. split_and!; try done.
  - unfold New. rewrite mkdirs_ok by done. rewrite Er. cbn [mbind option_bind]. by rewrite E.
  - exists ∅, [], [], None, logs, []. split; [|done].
    split; [done|by exists 6%nat|split_and!; apply newer_than_nil| |lia]. rewrite Hs. split; [done| |constructor| |].
    + intros r0 Hr0. by inversion Hr0.
    + intros r0 Hr0. by inversion Hr0.
    + intros s m k oo Hs' Ho'. destruct s as [|s]; [|done]. injection Hs' as <-. rewrite lookup_empty.
      destruct oo as [x|]; [|done]. destruct Ho' as (Hx & _). by inversion Hx.
Qed.

End run.

(** ** The refinement *)

#[local] Instance logs_known : Logged := true.

Section refinement.
Context `{FE : FloatEnv}.


End refinement.

#[local] Existing Instance example_env.

(** A memtable of 40 bytes and the defaults. *)
Definition small_options : Options := mkOptions "data" true 40 64 0 example_rate 0 0 0 0 0 7 0 example_rate SyncBatch 0.

(** Three writes fill the memtable; a read of it before its flush; a snapshot, the flush, a batch
    into the next memtable, reads of both, a scan and a write that is refused. *)
Definition example_ops : list op :=
  let a := [Byte.x61] in let b := [Byte.x62] in let c := [Byte.x63] in
  [OPut a [Byte.x31]; OPut b [Byte.x32]; OPut c [Byte.x33]; OGet a; OSnapshot; OFlush;
   OBatch [OpPut a (Some [Byte.x34]); OpDelete b]; OGet a; OSnapGet 3 a; OScan a c; OFlush; OGet b; OPut [] b].

Definition example_obs : list obs :=
  let a := [Byte.x61] in let b := [Byte.x62] in
  [RDone; RDone; RDone; RValue (Some (Some [Byte.x31])); RSnapshot 3; RDone; RDone;
   RValue (Some (Some [Byte.x34])); RValue (Some (Some [Byte.x31])); RPairs [(a, Some [Byte.x34])]; RDone; RValue None; RError].

Lemma example_run :
  match New small_options empty_root empty_fs [] with
  | Some (Ok _, e, _) => paced 10 example_ops e = true ∧ (exec_all 10 example_ops e).1 = Ok example_obs
  | _ => False
  end.
Proof. vm_compute. split; reflexivity. Qed.

Lemma small_options_ok : options_ok small_options.
Proof. unfold options_ok, filter_fits. vm_compute. repeat split; intros H; discriminate H. Qed.

(** Concrete operations are bounded by evaluation. *)
Ltac solve_bounded :=
  unfold op_bounded; repeat (apply Forall_cons; split); try apply Forall_nil_2; cbn [op_recs];
  repeat (apply Forall_cons; split); try apply Forall_nil_2; (split; [apply (bool_decide_unpack _); done|done]).

Lemma example_bounded : Forall op_bounded example_ops.
Proof. solve_bounded. Qed.


