(* ===== verification/EngineKeep.v ===== *)
(** * Package engine: a compaction keeps what reads see

    The whole of compactLevel, as the compaction goroutine runs it: the state stays well formed, its
    levels stay sorted layers, and every read at or after the newest sequence number has the result
    it had before. *)

From S2P Require Import Prelude.
From S2P Require Import GoStd.
From S2P Require Import GoIO.
From S2P Require Import Records.
From S2P Require Import Skiplist.
From S2P Require Import Versions.
From S2P Require Import Memtable.
From S2P Require Import Config.
From S2P Require Import Wal.
From S2P Require Import GoHeap.
From S2P Require Import Iterators.
From S2P Require Import Filter.
From S2P Require Import Blocks.
From S2P Require Import BlockCache.
From S2P Require Import Names.
From S2P Require Import TableWriter.
From S2P Require Import TableReader.
From S2P Require Import Meta.
From S2P Require Import Scan.
From S2P Require Import EngineState.
From S2P Require Import EngineRead.
From S2P Require Import EngineCompact.
From S2P Require Import EngineWrite.
From S2P Require Import EngineFs.
From S2P Require Import EngineDisk.
From S2P Require Import EngineFlow.
From S2P Require Import EngineFlush.
From S2P Require Import EngineMerge.
From S2P Require Import EngineSwap.
From S2P Require Import EngineRefine.
From S2P Require Import EngineSim.
From S2P Require Import EngineOpen.
From S2P Require Import EngineRun.

Section keep.
Context `{FE : FloatEnv} `{LG : Logged}.

Lemma KeyRangeOf_min inputs : Forall (λ t, bytes_Compare (KeyRangeOf inputs).1 (UserKey (MinKey t)) <= 0) inputs.
Proof.
  destruct inputs as [|t0 ts]; [constructor|]. cbn [KeyRangeOf].
  pose proof (KeyRangeOf_bounds_loop ts (UserKey (MinKey t0)) (UserKey (MaxKey t0))) as Hb.
  destruct (foldl _ _ ts) as [lo hi]. destruct Hb as (B1 & _ & B3). cbn. constructor; [done|].
  eapply Forall_impl; [exact B3|]. by intros t [? _].
Qed.

(** *** The compaction as it starts *)

(** The compaction of a level [length v1] whose inputs are the tables [inputs] of it; [n] is the
    number of its first new table. *)
Record compactable (D : gmap Z (list (list Rec))) (lm li : list Rec) (logs : list Log) (e : Engine) (fuel : nat)
    (v1 : Version) (pre inputs post next : list TableMeta) (v2 : Version) (n : Z)
    (all := inputs ++ FindOverlapping next (KeyRangeOf inputs).1 (KeyRangeOf inputs).2) : Prop := {
  co_base : base_ok D lm li logs e;
  co_leveled : leveled D lm li (Current (vs e));
  co_levels : Current (vs e) = v1 ++ (pre ++ inputs ++ post) :: next :: v2;
  co_pointer : length (compactPointer e) = 7%nat;
  co_older : newer_layer (level_recs D (pre ++ post)) (level_recs D inputs);
  co_within : Forall (λ t, bytes_Compare (UserKey (MinKey t)) (KeyRangeOf inputs).2 <= 0) next;
  co_size : total_size (level_recs D all) <= max_memtable + max_record;
  co_fuel : (length (level_recs D all) <= fuel)%nat;
  co_number : D !! n = None ∧ 0 <= n < nextFileNum (vs e);
  co_numbers : nextFileNum (vs e) + len (level_recs D all) + 4 < 10 ^ 6
}.

(** What has changed when the new tables are written. *)
Definition worked (e : Engine) (c : bool) (p : list bytes) (v : VersionSet) (f : FS) (w : RWorld) : Engine :=
  set_tables (set_fs (set_vs (set_compact e c p) v) f) (tableCache e) w.

(** The rest of compactLevel. *)
Definition install (all outs : list TableMeta) (m : Z) : EM unit :=
  err ← log_and_apply (mkVE outs (deletions all) None (Some m) None);
  match err with
  | Some _ => clear_compacting
  | None =>
      _ ← drop_tables all;
      _ ← clear_compacting;
      scheduleCompaction
  end.

Section run.
Context (D : gmap Z (list (list Rec))) (lm li : list Rec) (logs : list Log) (e : Engine) (fuel : nat).
Context (v1 : Version) (pre inputs post next : list TableMeta) (v2 : Version) (n : Z).
Context (Hco : compactable D lm li logs e fuel v1 pre inputs post next v2 n).

Let level := Z.of_nat (length v1).
Let over := FindOverlapping next (KeyRangeOf inputs).1 (KeyRangeOf inputs).2.
Let bottom := level + 1 =? len (Current (vs e)) - 1.

Lemma level_range : 0 <= level ∧ level + 1 < 7 ∧ len (Current (vs e)) = 7.
Proof.
  pose proof (lv_seven _ _ _ _ (co_leveled _ _ _ _ _ _ _ _ _ _ _ _ _ Hco)) as H7.
  rewrite (co_levels _ _ _ _ _ _ _ _ _ _ _ _ _ Hco) in *. unfold len. rewrite length_app in *. cbn [length] in *. unfold level. lia.
Qed.

Lemma level_lookups : Current (vs e) !! length v1 = Some (pre ++ inputs ++ post) ∧ Current (vs e) !! S (length v1) = Some next.
Proof.
  rewrite (co_levels _ _ _ _ _ _ _ _ _ _ _ _ _ Hco). split; [by apply list_lookup_middle|].
  rewrite lookup_app_r by lia. by replace (S (length v1) - length v1)%nat with 1%nat by lia.
Qed.

Lemma all_in_version t : t ∈ inputs ++ over -> t ∈ concat (Current (vs e)) ∧ 0 <= Level t < 7.
Proof.
  pose proof level_range as (? & ? & _). destruct level_lookups as [L1 L2].
  pose proof (lv_place _ _ _ _ (co_leveled _ _ _ _ _ _ _ _ _ _ _ _ _ Hco)) as Hp.
  pose proof (Hp _ _ L1) as P1. pose proof (Hp _ _ L2) as P2. rewrite Forall_forall in P1, P2.
  assert (∀ ts i, Current (vs e) !! i = Some ts -> t ∈ ts -> t ∈ concat (Current (vs e))) as Hc.
  { intros ts i Hi Ht. apply elem_of_concat. exists ts. split; [by eapply list_elem_of_lookup_2|done]. }
  intros [Ht|Ht]%elem_of_app.
  - assert (t ∈ pre ++ inputs ++ post) as Ht' by (rewrite !elem_of_app; tauto).
    split; [exact (Hc _ _ L1 Ht')|]. specialize (P1 t Ht'). unfold level in *. lia.
  - apply FindOverlapping_iff in Ht as [Ht _]. split; [exact (Hc _ _ L2 Ht)|]. specialize (P2 t Ht). unfold level in *. lia.
Qed.

Lemma all_ok f : (∀ t, t ∈ concat (Current (vs e)) -> ∃ bs, table_ok D f t bs) -> Forall (λ t, ∃ bs, table_ok D f t bs) (inputs ++ over).
Proof. intros Hok. apply Forall_forall. intros t Ht. by apply Hok, all_in_version. Qed.

(** Up to the edit: the tables are read, the new ones are written. *)
Lemma compact_writes :
  ∃ o parts l c p v f w, let e' := worked e c p v f w in
    compactLevel fuel level inputs n e = install (inputs ++ over) (outTables o) (nextFileNum v - 1) e' ∧
    outputs D lm li logs (level + 1) parts o e' ∧ out_fileNum o <= nextFileNum v - 1 ∧
    concat parts = kept bottom (oldest (snapshots e)) [] l ∧ sorted_recs l ∧ l ≡ₚ level_recs D (inputs ++ over) ∧
    length p = 7%nat ∧ Current v = Current (vs e) ∧ manifest v = manifest (vs e) ∧
    nextFileNum (vs e) < nextFileNum v < 10 ^ 6 - 1.
Proof.
  pose proof level_range as (L1 & L2 & L3). destruct Hco as [Hb Hlev Hlevels Hptr Hold Hwin Hsize Hfuel [HD Hn] Hnum].
  destruct level_lookups as [Li Ln]. fold over in Hsize, Hfuel, Hnum.
  destruct (move_pointer_ok level inputs e) as (p & Ep & Hp); [unfold len; lia|].
  set (e1 := set_compact e (isCompacting e) p) in *.
  assert (base_ok D lm li logs e1) as Hb1 by by apply (base_ok_same D lm li logs e).
  assert (Forall (λ t, ∃ bs, table_ok D (fs e1) t bs) (inputs ++ over)) as Hok.
  { apply all_ok. pose proof (view_tables _ _ _ _ (bo_view _ _ _ _ _ Hb)) as Ht. by rewrite Forall_forall in Ht. }
  destruct (open_all_ok D (inputs ++ over) [] [] e1 Hok (view_caches _ _ _ _ (bo_view _ _ _ _ _ Hb1)))
    as (rs & its & w2 & E2 & Hc2 & Hcl2 & Hle2 & Hrs & Hits). set (e2 := set_tables e1 (tableCache e1) w2) in *.
  destruct (merged_inputs D its (inputs ++ over) w2 (caches_world _ _ _ Hc2) Hits) as (l & Hm & Hsl & Hpl).
  pose proof (level_recs_small _ _ _ Hok) as Hsm. rewrite <- Hpl in Hsm, Hsize. rewrite <- Hpl in Hfuel.
  assert (len l = len (level_recs D (inputs ++ over))) as Hlen by (unfold len; by rewrite Hpl). rewrite <- Hlen in Hnum.
  pose proof (kept_sublist bottom (oldest (snapshots e)) [] l) as Hsub.
  pose proof (base_ok_tables D lm li logs e1 _ w2 Hb1 Hc2) as Hb2. fold e2 in Hb2.
  destruct (writeCompactionOutput_ok D lm li logs (level + 1) bottom l fuel n its e2)
    as (o & parts & v3 & f3 & w3 & E3 & Ho3 & HK & (M1 & M2 & M3) & Hw3); [done|done|done|done|done| | |done| |lia|].
  { rewrite Forall_forall in Hsm |- *. intros x Hx. apply Hsm. by eapply elem_of_sublist. }
  { pose proof (total_size_sublist _ _ Hsub). change (snapshots e2) with (snapshots e). lia. }
  { change (vs e2) with (vs e). lia. }
  change (vs e2) with (vs e) in M1, M2, M3. set (e3 := wrote e2 v3 f3 w3) in *.
  pose proof (ou_base _ _ _ _ _ _ _ _ Ho3) as Hb3. destruct Hw3 as (W1 & W2 & W3 & W4). cbn [rworld e2 set_tables] in W3, W4.
  destruct (close_all_ok D (rnext (rworld e1)) rs e3) as (w4 & E4 & Hc4).
  { apply (bo_view _ _ _ _ _ Hb3). }
  { intros m r Hr. destruct (view_caches _ _ _ _ (bo_view _ _ _ _ _ Hb1)) as (_ & _ & _ & Hrd & _).
    destruct (Hrd m r Hr) as (_ & _ & _ & ?). done. }
  { cbn [rworld e3 wrote set_tables]. by rewrite W4. }
  pose proof (outputs_tables D lm li logs (level + 1) parts o e3 w4 Ho3 Hc4) as Ho4. set (e4 := set_tables e3 (tableCache e3) w4) in *.
  destruct (next_file_num_ok D lm li logs e4) as (v5 & E5 & Hb5 & N1 & N2 & N3); [apply Ho4|cbn; lia|].
  change (vs e4) with v3 in E5, N1, N2, N3. pose proof (ou_next _ _ _ _ _ _ _ _ Ho4) as [_ Hx]. change (vs e4) with v3 in Hx.
  exists o, parts, l, (isCompacting e), p, v5, f3, w4. cbn zeta. split_and!; [| | |exact HK|done|done|lia|congruence|congruence|lia|lia].
  - unfold compactLevel. fold bottom over. change (worked e (isCompacting e) p v5 f3 w4) with (set_vs e4 v5).
    assert (level_tables (Current (vs e)) (level + 1) = Ok next) as Enext.
    { unfold level_tables, Prelude.index. rewrite (proj2 (Z.leb_le _ _)) by lia.
      replace (Z.to_nat (level + 1)) with (S (length v1)) by (unfold level; lia). by rewrite Ln. }
    unfold over in *. destruct (KeyRangeOf inputs) as [lo hi]. cbn [fst snd] in *.
    rewrite (EM_bind_ok _ _ e next e) by (by rewrite Enext). cbv beta. rewrite (EM_bind_ok _ _ _ _ _ Ep). cbv beta.
    rewrite (EM_bind_ok _ _ _ _ _ (attempt_ok _ _ _ _ E2)). cbv beta iota. cbn [app].
    rewrite (EM_bind_ok _ _ e2 bottom e2) by done. cbv beta.
    rewrite (EM_bind_ok _ _ _ _ _ (attempt_ok _ _ _ _ E3)). cbv beta iota.
    rewrite (EM_bind_ok _ _ _ _ _ E4). cbv beta. rewrite (EM_bind_ok _ _ _ _ _ E5). cbv beta.
    unfold install, deletions. by replace (nextFileNum v5 - 1) with (nextFileNum v3) by lia.
  - apply (outputs_vs D lm li logs (level + 1) parts o e4 v5 Ho4 Hb5). change (vs e4) with v3. lia.
  - lia.
Qed.
End run.
End keep.

(** ** The whole compaction *)

Section whole.
Context `{FE : FloatEnv}.
#[local] Instance logs_unknown : Logged := false.

(** The tables of a version before and after the exchange, but for the order. *)
Lemma concat_levels (v1 : Version) (l next : list TableMeta) (v2 : Version) :
  concat (v1 ++ l :: next :: v2) = concat v1 ++ l ++ next ++ concat v2.
Proof. by rewrite concat_app. Qed.

(** The tables that are taken out have numbers that no other table of the version has. *)
Lemma exchanged_outside (v1 : Version) pre inputs post low over (v2 : Version) outs t :
  version_ok (v1 ++ (pre ++ inputs ++ post) :: (low ++ over) :: v2) ->
  NoDup (map FileNum (concat (v1 ++ (pre ++ inputs ++ post) :: (low ++ over) :: v2) ++ outs)) ->
  t ∈ inputs ++ over ->
  FileNum t ∉ map FileNum (concat (v1 ++ (pre ++ post) :: (low ++ outs) :: v2)).
Proof.
  intros _ Hn Ht. set (others := concat v1 ++ pre ++ post ++ low ++ concat v2).
  assert (concat (v1 ++ (pre ++ inputs ++ post) :: (low ++ over) :: v2) ++ outs ≡ₚ (inputs ++ over) ++ others ++ outs) as E1
    by (rewrite concat_levels; unfold others; solve_Permutation).
  assert (concat (v1 ++ (pre ++ post) :: (low ++ outs) :: v2) ≡ₚ others ++ outs) as E2
    by (rewrite concat_levels; unfold others; solve_Permutation).
  rewrite E1, map_app in Hn. apply NoDup_app in Hn as (_ & Hn & _). rewrite E2. apply Hn. by apply list_elem_of_fmap_2.
Qed.

Section install.
Context (D : gmap Z (list (list Rec))) (lm li : list Rec) (logs : list Log) (e : Engine).
Context (v1 v2 : Version) (pre inputs post low over : list TableMeta) (o : Output) (parts : list (list Rec)).
Let level := Z.of_nat (length v1).
Let v := v1 ++ (pre ++ inputs ++ post) :: (low ++ over) :: v2.
Let v' := v1 ++ (pre ++ post) :: (low ++ outTables o) :: v2.

Lemma install_ok m :
  outputs D lm li logs (level + 1) parts o e -> Current (vs e) = v -> leveled D lm li v -> out_fileNum o <= m <= nextFileNum (vs e) ->
  nextFileNum (logged (vs e)) <= m -> nextFileNum (vs e) < 10 ^ 6 - 1 -> length (compactPointer e) = 7%nat ->
  Forall small_rec (concat parts) -> total_size (concat parts) <= max_memtable + max_record ->
  ∃ D' e', install (inputs ++ over) (outTables o) m e = (Ok tt, e') ∧ base_ok D' lm li logs e' ∧ D ⊆ D' ∧ Current (vs e') = v' ∧
    Forall2 (λ t p, ∃ bs, table_ok D' (fs e) t bs ∧ concat bs = p) (outTables o) parts ∧ Forall (λ t, Level t = level + 1) (outTables o).
Proof.
  intros Ho HC Hlev Hm Hlg Hlt Hptr Hsm Hsz. pose proof (lv_seven _ _ _ _ Hlev) as H7. pose proof (lv_place _ _ _ _ Hlev) as Hp.
  assert (0 <= level + 1 < 7) as Hlevel.
  { unfold v in H7. rewrite length_app in H7. cbn [length] in H7. unfold level. lia. }
  pose proof (Hp (length v1) _ (list_lookup_middle _ _ _ _ eq_refl)) as P1.
  assert (v !! S (length v1) = Some (low ++ over)) as Ln.
  { unfold v. rewrite lookup_app_r by lia. by replace (S (length v1) - length v1)%nat with 1%nat by lia. }
  pose proof (Hp _ _ Ln) as P2. apply Forall_app in P1 as [_ [P1 _]%Forall_app]. apply Forall_app in P2 as [_ P2].
  assert (Forall (λ t, t ∈ concat (Current (vs e)) ∧ 0 <= Level t < 7) (inputs ++ over)) as Hall.
  { rewrite HC. unfold v. rewrite concat_levels. apply Forall_forall. rewrite Forall_forall in P1, P2.
    intros t [Ht|Ht]%elem_of_app; rewrite !elem_of_app; [specialize (P1 t Ht)|specialize (P2 t Ht)]; (split; [tauto|unfold level in *; lia]). }
  assert (Forall (λ t, Level t = level + 1) (outTables o)) as P3.
  { pose proof (ou_tables _ _ _ _ _ _ _ _ Ho) as Ht. clear -Ht. induction Ht as [|t p ts ps (bs & _ & _ & _ & ? & _) _ IH]; by constructor. }
  destruct (swap_edit_ok D lm li logs (level + 1) parts o e (inputs ++ over) m) as (Hwf & Hfit & Hdisk);
    [done|done|done|done|lia|by rewrite HC|done..|].
  destruct (adopt_ok D lm li logs (level + 1) (outTables o) parts e) as (D' & HD' & Hb' & Hout); [apply Ho|apply Ho|apply Ho| |].
  { pose proof (ou_numbers _ _ _ _ _ _ _ _ Ho) as Hnum. pose proof (ou_next _ _ _ _ _ _ _ _ Ho) as [_ Hx].
    eapply Forall_impl; [exact Hnum|]. intros t [? ?]. split; [done|lia]. }
  destruct (base_ok_edit D' lm li logs e _ Hb' Hwf Hfit) as (v6 & E6 & Hb6 & HC6 & HN6); [|done|].
  { cbn [AddTables]. apply Forall_forall. intros t Hin. apply list_elem_of_lookup in Hin as [i Hi].
    destruct (Forall2_lookup_l _ _ _ _ _ Hout Hi) as (p & _ & bs & Hok & _). by exists bs. }
  set (e6 := set_vs e v6) in *. pose proof (bo_version _ _ _ _ _ (ou_base _ _ _ _ _ _ _ _ Ho)) as [Hvok _]. rewrite HC in Hvok.
  destruct Hfit as (_ & _ & Hnd & _). cbn [AddTables] in Hnd. rewrite HC in Hnd.
  assert (Current v6 = v') as HC6'.
  { rewrite HC6, HC. unfold v, v'. apply edited_swap; [exact Hvok|exact P1|]. apply Forall_app. split; [|exact P3].
    eapply Forall_impl; [exact P2|]. cbn. lia. }
  destruct (drop_tables_ok D' lm li logs (inputs ++ over) e6 Hb6) as (tc & w & f & E7 & Hb7).
  { apply Forall_forall. intros t Ht. pose proof (view_tables _ _ _ _ (bo_view _ _ _ _ _ (ou_base _ _ _ _ _ _ _ _ Ho))) as Hok.
    rewrite Forall_forall in Hok, Hall. destruct (Hall t Ht) as [Hin _]. destruct (Hok t Hin) as (bs & Hbs).
    pose proof (tok_num _ _ _ _ Hbs). split_and!; [lia|lia| |].
    - change (vs e6) with v6. rewrite HC6'. by apply (exchanged_outside v1 pre inputs post low over v2).
    - destruct (tok_file _ _ _ _ Hbs) as (fl & Hfl & _). change (fs e6) with (fs e). unfold fs_file in Hfl.
      destruct (dir (fs e) !! _); [by eexists|done]. }
  { assert (inputs ++ over ⊆+ concat v) as (k & Ek)%submseteq_Permutation.
    { unfold v. rewrite concat_levels. solve_submseteq. }
    unfold version_ok in Hvok. fold v in Hvok. rewrite Ek, map_app in Hvok. by apply NoDup_app in Hvok as (? & _). }
  set (e7 := set_fs (set_tables e6 tc w) f) in *. set (e8 := set_compact e7 false (compactPointer e7)).
  assert (base_ok D' lm li logs e8) as Hb8 by by apply (base_ok_same D' lm li logs e7).
  assert (Current (vs e8) = v') as HC8 by done.
  destruct (level0 _ _ _ _ _ Hb8) as (l0 & levels & Hl0 & _).
  destruct (scheduleCompaction_ok D' lm li logs e8 l0 levels Hb8 Hl0) as (v9 & c & cq & E9 & Hb9 & HN9 & HC9).
  { right. rewrite HC8. unfold len. change (compactPointer e8) with (compactPointer e). rewrite Hptr.
    pose proof H7 as H7'. unfold v in H7'. unfold v'. rewrite !length_app in *. cbn [length] in *. lia. }
  { change (nextFileNum v6 < 2 ^ 64 - 1). rewrite HN6. lia. }
  exists D', (scheduled e8 v9 c cq). split_and!; [|done|done|by etrans|done|done].
  unfold install. rewrite (EM_bind_ok _ _ _ _ _ E6). cbv beta iota. rewrite (EM_bind_ok _ _ _ _ _ E7). cbv beta.
  rewrite (EM_bind_ok _ _ e7 tt e8) by done. exact E9.
Qed.
End install.

(** At the bottom everything that is not merged is newer than what is, or has other keys. *)
Lemma untouched_newer D f lm li v1 pre inputs post low over lo l :
  leveled D lm li (v1 ++ [pre ++ inputs ++ post; low ++ over]) ->
  Forall (λ t, ∃ bs, table_ok D f t bs) (concat (v1 ++ [pre ++ inputs ++ post; low ++ over])) ->
  l ≡ₚ level_recs D (inputs ++ over) -> newer_layer (level_recs D (pre ++ post)) (level_recs D inputs) ->
  Forall (λ t, bytes_Compare (UserKey (MaxKey t)) lo < 0) low -> Forall (λ t, bytes_Compare lo (UserKey (MinKey t)) <= 0) inputs ->
  newer_layer (untouched D lm li v1 [] pre post low) l.
Proof.
  intros Hlev Htab Hl Hold Hlow Hlo. pose proof (lv_layers _ _ _ _ Hlev) as HL. rewrite map_app in HL. cbn [map] in HL.
  set (A := level_recs D (pre ++ inputs ++ post)) in *. set (B := level_recs D (low ++ over)) in *.
  change (layered ((lm :: li :: map (level_recs D) v1) ++ [A; B])) in HL.
  apply StronglySorted_app in HL as (HX & _ & HAB). apply StronglySorted_cons in HAB as [HAB _]. apply Forall_cons in HAB as [HAB _].
  assert (l ⊆ level_recs D inputs ++ level_recs D over) as Hin by (intros x Hx; by rewrite Hl, level_recs_app in Hx).
  assert (level_recs D inputs ⊆ A ∧ level_recs D (pre ++ post) ⊆ A) as [SA SA'] by (unfold A; rewrite !level_recs_app; set_solver).
  assert (level_recs D over ⊆ B) as SB by (unfold B; rewrite level_recs_app; set_solver).
  assert (∀ x, x ∈ lm :: li :: map (level_recs D) v1 -> newer_layer x l) as Hup.
  { intros x Hx. eapply newer_layer_sub; [|reflexivity|exact Hin].
    apply newer_layer_both; [eapply newer_layer_sub; [apply (HX x A Hx)|reflexivity|exact SA]|
      eapply newer_layer_sub; [apply (HX x B Hx)|reflexivity|exact SB]]; set_solver. }
  unfold untouched. cbn [map concat]. rewrite app_nil_r. repeat apply newer_layer_app.
  - apply Hup. set_solver.
  - apply Hup. set_solver.
  - intros r r' (x & Hx & Hr)%elem_of_concat. apply (Hup x); [set_solver|done].
  - eapply newer_layer_sub; [|reflexivity|exact Hin]. apply newer_layer_both; [done|]. eapply newer_layer_sub; [exact HAB|exact SA'|exact SB].
  - intros r r' (t & Ht & Hr)%recs_elem Hr'%Hin Ek. exfalso. rewrite Forall_forall in Htab.
    destruct (Htab t) as (bs & Hok). { rewrite concat_levels. set_solver. }
    destruct (table_bounds _ _ _ _ r Hok Hr) as [_ Hle%Compare_le_keys].
    pose proof (low_before D f lm li v1 [] pre inputs post low over lo Hlev) as Hlt.
    specialize (Hlt ltac:(by apply Forall_forall) Hlow Hlo t r' Ht Hr').
    rewrite Ek in Hle. rewrite bytes_Compare_opp in Hlt. lia.
Qed.

(** The reads that a compaction must keep: those at or after every sequence number. *)
Definition same_reads (l : list Rec) (e e' : Engine) : Prop :=
  ∀ k s, k ≠ [] -> (∀ r : Rec, r ∈ l -> SeqNum r <= s) -> ∃ a, (get k s e).1 = Ok a ∧ (get k s e').1 = Ok a.

Lemma get_leveled D lm li e k s :
  view D lm li e -> leveled D lm li (Current (vs e)) ->
  ∃ o, (get k s e).1 = Ok (read_result o) ∧ newest k s (contents D lm li (Current (vs e))) o.
Proof.
  intros Hv [Hl Hs _ _ H7]. destruct (Current (vs e)) as [|l0 levels] eqn:EC; [done|].
  destruct (get_ok D lm li l0 levels k s e Hv EC Hs Hl) as (o & tc & w & E & _ & Hn). exists o. by rewrite E.
Qed.

Lemma reads_kept D D' lm li e e' bottom oldest rest l :
  view D lm li e -> leveled D lm li (Current (vs e)) -> view D' lm li e' -> leveled D' lm li (Current (vs e')) ->
  contents D lm li (Current (vs e)) ≡ₚ rest ++ l -> contents D' lm li (Current (vs e')) ≡ₚ rest ++ kept bottom oldest [] l ->
  sorted_recs l -> (bottom = true -> newer_layer rest l) -> same_reads (contents D lm li (Current (vs e))) e e'.
Proof.
  intros Hv Hl Hv' Hl' E1 E2 Hs Hb k s Hk Hle.
  destruct (get_leveled D lm li e k s Hv Hl) as (o & Eo & Ho), (get_leveled D' lm li e' k s Hv' Hl') as (o1 & Eo1 & Ho1).
  rewrite E1 in Ho. rewrite E2 in Ho1.
  assert (unique_versions (rest ++ l)) as Hu.
  { intros x y Hx Hy. apply (lv_unique _ _ _ _ Hl); by rewrite E1. }
  assert (unique_versions (rest ++ kept bottom oldest [] l)) as Hu'.
  { intros x y Hx Hy. apply (lv_unique _ _ _ _ Hl'); by rewrite E2. }
  assert (unique_versions l) as Hul by (intros x y Hx Hy; apply Hu; apply elem_of_app; by right).
  destruct (kept_reads bottom oldest rest l k s o) as (o2 & Ho2 & Er); try done.
  { intros r Hr. apply Hle. by rewrite E1. }
  exists (read_result o). rewrite Eo, Eo1, <- Er. by rewrite (newest_unique _ _ _ _ _ Hu' Ho1 Ho2).
Qed.

Lemma compactLevel_ok D lm li logs e fuel v1 pre inputs post next v2 n :
  compactable D lm li logs e fuel v1 pre inputs post next v2 n ->
  ∃ D' e' low outs, compactLevel fuel (Z.of_nat (length v1)) inputs n e = (Ok tt, e') ∧ base_ok D' lm li logs e' ∧
    Current (vs e') = v1 ++ (pre ++ post) :: (low ++ outs) :: v2 ∧ leveled D' lm li (Current (vs e')) ∧
    contents D' lm li (Current (vs e')) ⊆ contents D lm li (Current (vs e)) ∧
    same_reads (contents D lm li (Current (vs e))) e e'.
Proof.
  intros Hco. set (lo := (KeyRangeOf inputs).1). set (over := FindOverlapping next lo (KeyRangeOf inputs).2).
  destruct (compact_writes D lm li logs e fuel v1 pre inputs post next v2 n Hco)
    as (o & parts & l & c & p & v & f & w & E1 & Ho & Hx & HK & Hsl & Hpl & Hp & HCv & Hmv & Hnv).
  fold lo over in E1, Hpl. set (bottom := _ =? _) in HK. set (e1 := worked e c p v f w) in *.
  pose proof Hco as [Hb Hlev HC _ Hold Hwin Hsize _ _ _]. fold lo over in Hsize.
  pose proof (view_tables _ _ _ _ (bo_view _ _ _ _ _ (ou_base _ _ _ _ _ _ _ _ Ho))) as Htab.
  change (Current (vs e1)) with (Current v) in Htab. rewrite HCv in Htab.
  pose proof (all_ok D lm li logs e fuel v1 pre inputs post next v2 n Hco (fs e1) (proj1 (Forall_forall _ _) Htab)) as Hall. fold lo over in Hall.
  assert (∃ low, next = low ++ over ∧ Forall (λ t, bytes_Compare (UserKey (MaxKey t)) lo < 0) low) as (low & En & Hlow).
  { eapply next_split; [| |exact Hwin].
    - pose proof (lv_sorted _ _ _ _ Hlev) as Hs. rewrite HC in Hs. rewrite Forall_forall in Hs. apply Hs. destruct v1; cbn; set_solver.
    - rewrite HC, concat_levels in Htab. by apply Forall_app in Htab as [_ [_ [Htab _]%Forall_app]%Forall_app]. }
  clearbody over. subst next. rewrite HC in Htab, Hlev |- *.
  assert (Forall small_rec (concat parts) ∧ total_size (concat parts) <= max_memtable + max_record) as [Hsm Hsz].
  { rewrite HK. pose proof (kept_sublist bottom (oldest (snapshots e)) [] l) as Hsub. split.
    - pose proof (level_recs_small _ _ _ Hall) as Hs. rewrite <- Hpl in Hs. rewrite Forall_forall in Hs |- *.
      intros x Hin. apply Hs. by eapply elem_of_sublist.
    - pose proof (total_size_sublist _ _ Hsub). rewrite <- Hpl in Hsize. lia. }
  assert (nextFileNum (logged v) <= nextFileNum v - 1) as Hlg.
  { pose proof (dk_next _ _ (bo_disk _ _ _ _ _ Hb)) as Hd. unfold logged in *. rewrite Hmv. lia. }
  destruct (install_ok D lm li logs e1 v1 v2 pre inputs post low over o parts (nextFileNum v - 1)) as (D' & e2 & E2 & Hb2 & HD' & HC2 & Hout & Hplace);
    [done|by rewrite <- HC, <- HCv|done|change (vs e1) with v; lia|done|change (vs e1) with v; lia|done|done|done|].
  pose proof (KeyRangeOf_min inputs) as Hlo. fold lo in Hlo.
  pose proof (leveled_after D D' (fs e1) lm li v1 v2 pre inputs post low over (outTables o) lo bottom (oldest (snapshots e)) l parts
    Hlev HD' Htab Hout HK Hpl Hsl Hold Hlow Hlo Hplace) as Hlev2.
  pose proof (contents_before D lm li v1 v2 pre inputs post low over l Hpl) as P1.
  pose proof (contents_after D D' (fs e1) lm li v1 v2 pre inputs post low over (outTables o) lo bottom (oldest (snapshots e)) l parts
    HD' Htab Hout HK Hpl Hlow Hlo Hplace) as P2.
  exists D', e2, low, (outTables o). rewrite HC2. split_and!; [by rewrite E1, E2|done|done|done| |].
  - intros x. rewrite P1, P2. rewrite !elem_of_app. intros [?|Hin]; [by left|right]. eapply elem_of_sublist; [exact Hin|apply kept_sublist].
  - rewrite <- HC. eapply (reads_kept D D' lm li e e2 bottom (oldest (snapshots e)) (untouched D lm li v1 v2 pre post low) l);
      [apply Hb|by rewrite HC|apply Hb2|by rewrite HC2|by rewrite HC|by rewrite HC2|done|].
    intros Hbot. assert (v2 = []) as ->.
    { pose proof (lv_seven _ _ _ _ Hlev) as H7. unfold bottom in Hbot. apply Z.eqb_eq in Hbot. rewrite HC in Hbot. unfold len in Hbot.
      rewrite length_app in *. cbn [length] in *. destruct v2; [done|cbn [length] in *; lia]. }
    eapply untouched_newer; done.
Qed.

(** C3. The next compaction, if it meets the conditions of [compactable] in a well-formed state without
    file system faults, runs to its end without error or panic, whatever tables it has to merge into
    the next level.  The conditions: no table of the next level lies beyond the inputs' range, which
    the program does not ensure; the other tables of the inputs' level hold no older versions of the
    inputs' keys; the merged records are within the size of a memtable and the fuel, and the file
    numbers within six digits.  Then the inputs and the tables of the next level that overlap
    them are replaced by new tables, the levels are again sorted layers of the contents, no record
    appears, and a read of any non-empty key at or after every sequence number has the result it had. *)
Theorem compaction_keeps_reads D lm li logs e fuel v1 pre inputs post next v2 n q :
  compactable D lm li logs e fuel v1 pre inputs post next v2 n ->
  compactQueue e = mkCT (Z.of_nat (length v1)) inputs n :: q ->
  ∃ D' e' low outs, run_compaction fuel e = (Ok tt, e') ∧ base_ok D' lm li logs e' ∧
    Current (vs e') = v1 ++ (pre ++ post) :: (low ++ outs) :: v2 ∧ leveled D' lm li (Current (vs e')) ∧
    contents D' lm li (Current (vs e')) ⊆ contents D lm li (Current (vs e)) ∧
    same_reads (contents D lm li (Current (vs e))) e e'.
Proof.
  intros Hco Hq. set (e1 := set_queues e (flushChan e) q).
  assert (compactable D lm li logs e1 fuel v1 pre inputs post next v2 n) as Hco1.
  { destruct Hco. split; try done. by apply (base_ok_same D lm li logs e). }
  destruct (compactLevel_ok D lm li logs e1 fuel v1 pre inputs post next v2 n Hco1) as (D' & e' & low & outs & E & Hb & HC & Hl & Hin & Hr).
  exists D', e', low, outs. split_and!; [|done|done|done|done|].
  - unfold run_compaction. rewrite (EM_bind_ok _ _ e (compactQueue e) e) by done. rewrite Hq.
    by rewrite (EM_bind_ok _ _ e tt e1) by done.
  - intros k s Hk Hle. destruct (Hr k s Hk Hle) as (a & Ea & Ea'). exists a. split; [|done].
    destruct (get_leveled D lm li e k s) as (o & Eo & Ho); [apply (co_base _ _ _ _ _ _ _ _ _ _ _ _ _ Hco)|apply (co_leveled _ _ _ _ _ _ _ _ _ _ _ _ _ Hco)|].
    destruct (get_leveled D lm li e1 k s) as (o1 & Eo1 & Ho1); [apply (co_base _ _ _ _ _ _ _ _ _ _ _ _ _ Hco1)|apply (co_leveled _ _ _ _ _ _ _ _ _ _ _ _ _ Hco1)|].
    rewrite Eo, <- Ea, Eo1. by rewrite (newest_unique _ _ _ _ _ (lv_unique _ _ _ _ (co_leveled _ _ _ _ _ _ _ _ _ _ _ _ _ Hco)) Ho Ho1).
Qed.
End whole.

(** ** What is scheduled can be compacted *)

Section schedule.
Context `{FE : FloatEnv}.
#[local] Existing Instance logs_unknown.

Lemma pick_tables_prefix tables : ∀ picked target, ∃ rest, tables = pick_tables tables picked target ++ rest.
Proof.
  induction tables as [|t tables IH]; intros picked target; [by exists []|]. cbn [pick_tables].
  destruct (_ <=? _); [by exists tables|]. destruct (IH (i64 (picked + i64 (FileSize t))) target) as (rest & E).
  exists rest. cbn [app]. by f_equal.
Qed.

(** The inputs are tables of the level that follow each other; all of them, at level 0. *)
Lemma picked_segment e level tables :
  Prelude.index (Current (vs e)) level = Ok tables -> (level = 0 ∨ 0 <= level < len (compactPointer e)) ->
  ∃ pre ins post, pickCompactionInputs e level = Ok ins ∧ tables = pre ++ ins ++ post ∧ (level = 0 -> pre = [] ∧ post = []).
Proof.
  intros Et Hp. unfold pickCompactionInputs, levelSize, level_tables. rewrite Et. cbn [mbind res_bind].
  destruct (Nat.eqb_spec (length tables) 0) as [->%nil_length_inv|Hne]; [by exists [], [], []|].
  destruct (Z.eqb_spec level 0) as [->|Hl]; [exists [], tables, []; by rewrite app_nil_r|].
  destruct (index_lookup (compactPointer e) level) as (p & -> & _); [lia|]. cbn [mbind res_bind]. set (i := sort_Search _ _).
  set (size := foldl _ _ _). destruct (pick_tables_prefix (drop i tables) 0 (Z.max (i64 (size - levelCapacity (opts e) level)) 0)) as (rest & E).
  exists (take i tables), (pick_tables (drop i tables) 0 (Z.max (i64 (size - levelCapacity (opts e) level)) 0)), rest.
  split_and!; [done| |done]. by rewrite <- E, take_drop.
Qed.

(** The other tables of a sorted level have other keys. *)
Lemma segment_disjoint D f pre ins post :
  level_sorted (pre ++ ins ++ post) -> Forall (λ t, ∃ bs, table_ok D f t bs) (pre ++ ins ++ post) ->
  newer_layer (level_recs D (pre ++ post)) (level_recs D ins).
Proof.
  intros Hs Hok r r' (t & Ht & Hr)%recs_elem (t' & Ht' & Hr')%recs_elem Ek. exfalso. rewrite Forall_forall in Hok.
  destruct (Hok t) as (bs & Hb); [rewrite !elem_of_app in *; tauto|]. destruct (Hok t') as (bs' & Hb'); [rewrite !elem_of_app in *; tauto|].
  destruct (table_bounds _ _ _ _ r Hb Hr) as [L1%Compare_le_keys L2%Compare_le_keys].
  destruct (table_bounds _ _ _ _ r' Hb' Hr') as [M1%Compare_le_keys M2%Compare_le_keys].
  assert (∀ a b, bytes_Compare a b < 0 -> bytes_Compare (UserKey r) a <= 0 -> bytes_Compare b (UserKey r) <= 0 -> False) as Hno.
  { intros a b Hab H1 H2. pose proof (bytes_lt_le_trans _ _ _ Hab H2) as H3. rewrite bytes_Compare_opp in H3. lia. }
  apply StronglySorted_app in Hs as (S1 & _ & (S2 & _ & _)%StronglySorted_app). rewrite <- Ek in M1, M2.
  apply elem_of_app in Ht as [Ht|Ht].
  - apply (Hno (UserKey (MaxKey t)) (UserKey (MinKey t'))); [|done|done]. apply S1; [done|]. rewrite elem_of_app. by left.
  - apply (Hno (UserKey (MaxKey t')) (UserKey (MinKey t))); [|done|done]. by apply S2.
Qed.

Lemma level_recs_sublist D ts ts' : ts `sublist_of` ts' -> level_recs D ts `sublist_of` level_recs D ts'.
Proof.
  unfold level_recs. induction 1 as [|t ts ts' _ IH|t ts ts' _ IH]; [done|by apply sublist_app|]. cbn [map concat].
  etrans; [exact IH|]. by apply sublist_inserts_l.
Qed.

(** C7. Starting a compaction of any level but the last of a well-formed state queues one task, whose
    inputs are a contiguous part of the level, the rest of which holds no older versions of their keys,
    and whose number for its first new table is in use nowhere.  Of the conditions of a compaction
    ([compactable]) the program does not ensure exactly one: they hold for the task if and only if no
    table of the next level lies beyond the inputs' range. *)
Theorem scheduled_compaction D lm li logs e fuel v1 tables next v2 :
  base_ok D lm li logs e -> leveled D lm li (Current (vs e)) -> Current (vs e) = v1 ++ tables :: next :: v2 ->
  length (compactPointer e) = 7%nat -> total_size (level_recs D (tables ++ next)) <= max_memtable + max_record ->
  (length (level_recs D (tables ++ next)) <= fuel)%nat -> nextFileNum (vs e) + len (level_recs D (tables ++ next)) + 5 < 10 ^ 6 ->
  ∃ pre inputs post n e', spawn (Z.of_nat (length v1)) e = (Ok tt, e') ∧ tables = pre ++ inputs ++ post ∧
    compactQueue e' = compactQueue e ++ [mkCT (Z.of_nat (length v1)) inputs n] ∧
    newer_layer (level_recs D (pre ++ post)) (level_recs D inputs) ∧ D !! n = None ∧ 0 <= n < nextFileNum (vs e') ∧
    (compactable D lm li logs e' fuel v1 pre inputs post next v2 n <->
     Forall (λ t, bytes_Compare (UserKey (MinKey t)) (KeyRangeOf inputs).2 <= 0) next).
Proof.
  intros Hb Hlev HC Hp Hsz Hf Hn. pose proof (lv_seven _ _ _ _ Hlev) as H7. pose proof H7 as H7'. rewrite HC, length_app in H7'. cbn [length] in H7'.
  assert (Current (vs e) !! length v1 = Some tables) as Hl by (rewrite HC; by apply list_lookup_middle).
  assert (Prelude.index (Current (vs e)) (Z.of_nat (length v1)) = Ok tables) as Et.
  { unfold Prelude.index. rewrite (proj2 (Z.leb_le _ _)) by lia. by rewrite Nat2Z.id, Hl. }
  destruct (picked_segment e _ tables Et) as (pre & ins & post & Ei & Es & H0); [right; unfold len; lia|].
  destruct (next_file_num_ok D lm li logs e Hb) as (v & En & Hb' & Hv & HCv & _); [pose proof (len_nonneg (level_recs D (tables ++ next))); lia|].
  set (e' := set_queues (set_vs e v) (flushChan e) (compactQueue e ++ [mkCT (Z.of_nat (length v1)) ins (nextFileNum (vs e))])).
  pose proof (view_tables _ _ _ _ (bo_view _ _ _ _ _ Hb)) as Hok. pose proof (bo_numbers _ _ _ _ _ Hb) as [Hn0 _].
  pose proof (len_nonneg (level_recs D (tables ++ next))) as Hlen0.
  assert (newer_layer (level_recs D (pre ++ post)) (level_recs D ins)) as Hnew.
  { destruct (decide (length v1 = 0)%nat) as [Hz|Hz].
    { destruct H0 as [-> ->]; [lia|]. intros r r' Hr. by inversion Hr. }
    apply (segment_disjoint D (fs e)); rewrite <- Es.
    - pose proof (lv_sorted _ _ _ _ Hlev) as Hs. rewrite HC in Hs. rewrite Forall_forall in Hs. apply Hs. destruct v1; [done|]. cbn. set_solver.
    - rewrite HC, concat_levels in Hok. by apply Forall_app in Hok as [_ [? _]%Forall_app]. }
  assert (D !! nextFileNum (vs e) = None) as Hfresh by (eapply number_fresh; [exact Hb|lia]).
  assert (0 <= nextFileNum (vs e) < nextFileNum (vs e')) as Hlt by (cbn [e' vs set_queues set_vs]; lia).
  exists pre, ins, post, (nextFileNum (vs e)), e'. split_and!; [|done|done|done|done|lia|lia|].
  - unfold spawn. rewrite (EM_bind_ok _ _ e ins e) by (by rewrite Ei). cbv beta. by rewrite (EM_bind_ok _ _ _ _ _ En).
  - split; [apply co_within|]. intros Hwin.
    assert (level_recs D (ins ++ FindOverlapping next (KeyRangeOf ins).1 (KeyRangeOf ins).2) `sublist_of` level_recs D (tables ++ next)) as Hsub.
    { apply level_recs_sublist. rewrite Es. apply sublist_app; [|apply sublist_filter]. apply sublist_inserts_l. by apply sublist_inserts_r. }
    pose proof (total_size_sublist _ _ Hsub). pose proof (sublist_length _ _ Hsub).
    split; cbn [e' Current vs set_queues set_vs compactPointer]; rewrite ?HCv, ?Hv.
    + by apply (base_ok_same D lm li logs (set_vs e v)).
    + exact Hlev.
    + by rewrite HC, Es.
    + exact Hp.
    + exact Hnew.
    + exact Hwin.
    + lia.
    + lia.
    + split; [exact Hfresh|lia].
    + unfold len in *. lia.
Qed.
End schedule.

(** *** An example *)

#[local] Existing Instance example_env.
#[local] Existing Instance logs_unknown.

(** A memtable of 30 bytes; a table in level 0 is already one too many. *)
Definition full_options : Options := mkOptions "data" true 30 64 0 example_rate 0 1 0 0 0 0 7 example_rate SyncBatch 0.

Definition full_1 : Rec := example_r Byte.x61 Byte.x31 1.
Definition full_2 : Rec := example_r Byte.x61 Byte.x32 2.

Definition full_state0 : Engine := (start_engine (set_vs (blank_engine (WithDefaults full_options) empty_fs []) first_version)).2.
Definition full_state1 : Engine := (finish_write full_1 full_state0).2.
Definition full_state2 : Engine := (finish_write full_2 full_state1).2.
Definition full_state3 : Engine := (run_flush full_state2).2.
Definition full_meta : TableMeta := mkTM 3 1332 0 (RKey full_2) (RKey full_1).

Lemma full_run :
  flushChan full_state1 = [] ∧ length (flushChan full_state2) = 1%nat ∧ Current (vs full_state3) = [full_meta] :: replicate 6 [] ∧
  compactQueue full_state3 = [mkCT 0 [full_meta] 5] ∧ nextFileNum (vs full_state3) = 6 ∧ length (compactPointer full_state3) = 7%nat.
Proof. vm_compute. by repeat split. Qed.

Lemma full_options_ok : options_ok full_options.
Proof. unfold options_ok, filter_fits. vm_compute. repeat split; intros H; discriminate H. Qed.

Lemma full_steps :
  full_state0 = (start_engine (set_vs (blank_engine (WithDefaults full_options) empty_fs []) first_version)).2 ∧
  full_state1 = (finish_write full_1 full_state0).2 ∧ full_state2 = (finish_write full_2 full_state1).2 ∧
  full_state3 = (run_flush full_state2).2.
Proof. by split_and!. Qed.

#[local] Opaque full_state0 full_state1 full_state2 full_state3.

(** The state is reached by the writes and the flush, so that it is well formed. *)
Lemma full_state_ok :
  ∃ D bs logs, base_ok D [] [] logs full_state3 ∧ D = {[3 := bs]} ∧ concat bs = [full_2; full_1].
Proof.
  destruct full_run as (Q1 & Q2 & HC & _), full_steps as (F0 & F1 & F2 & F3).
  assert (small_rec full_1 ∧ small_rec full_2) as [S1 S2] by (split; by apply (bool_decide_unpack _)).
  destruct (start_engine_ok full_options [] full_options_ok) as (e0 & logs0 & E0 & H0 & _ & HC0 & Hn0 & _ & Hq0).
  rewrite E0 in F0. cbn [snd] in F0. clear E0.
  destruct (finish_write_ok ∅ [] [] None logs0 e0 full_1 H0 S1) as (e1 & lm1 & li1 & old1 & logs1 & E1 & H1 & Hc1 & _ & Hn1 & HC1);
    [vm_compute; discriminate|lia|by left|].
  rewrite F0, E1 in F1. cbn [snd] in F1. rewrite F1 in Q1.
  destruct (idle_li _ _ _ _ _ _ H1 Q1) as (-> & -> & _).
  assert (lm1 = [full_1]) as ->. { destruct Hc1 as [[-> _]|(_ & _ & Hc1)]; [reflexivity|discriminate Hc1]. }
  destruct (finish_write_ok ∅ [full_1] [] None logs1 e1 full_2 H1 S2) as (e2 & lm2 & li2 & old2 & logs2 & E2 & H2 & Hc2 & _ & Hn2 & HC2);
    [vm_compute; discriminate|lia|by left|].
  rewrite F1, E2 in F2. cbn [snd] in F2. rewrite F2 in Q2.
  destruct (flushChan e2) as [|t [|]] eqn:Et; [discriminate Q2| |discriminate Q2].
  assert (lm2 = [] ∧ li2 = [full_2; full_1]) as [-> ->].
  { destruct Hc2 as [[_ ->]|(_ & -> & ->)]; [|split; [reflexivity|vm_compute; reflexivity]]. exfalso. pose proof (so_pending _ _ _ _ _ _ H2) as Hp. unfold pending_ok in Hp.
    rewrite Et in Hp. destruct Hp as (_ & Hne & _). exact (Hne eq_refl). }
  destruct (run_flush_ok ∅ [] [full_2; full_1] old2 logs2 e2 t H2 Et) as (e3 & logs3 & bs & m & E3 & H3 & _ & _ & _ & _ & Hbs & HC3); [lia|].
  rewrite F2, E3 in F3. cbn [snd] in F3.
  rewrite <- F3, HC, HC2, HC1, HC0 in HC3. injection HC3 as <-.
  exists {[3 := bs]}, bs, logs3. rewrite F3. split_and!; [|done|done]. apply H3.
Qed.

Lemma full_compactable :
  ∃ D bs logs, compactable D [] [] logs full_state3 2 [] [] [full_meta] [] [] (replicate 5 []) 5 ∧ D = {[3 := bs]} ∧
    contents D [] [] (Current (vs full_state3)) = [full_2; full_1].
Proof.
  destruct full_state_ok as (D & bs & logs & Hb & HD & Hbs). exists D, bs, logs.
  destruct full_run as (_ & _ & HC & _ & Hn & Hp).
  assert (table_recs D full_meta = [full_2; full_1]) as Ht by (unfold table_recs; rewrite HD; change (FileNum full_meta) with 3; rewrite lookup_singleton_eq; unfold default, from_option, id; by rewrite Hbs).
  assert (level_recs D [full_meta] = [full_2; full_1]) as Hl by (unfold level_recs; cbn [map concat]; by rewrite Ht).
  assert (contents D [] [] (Current (vs full_state3)) = [full_2; full_1]) as Hcon.
  { rewrite HC. change ([full_meta] :: replicate 6 []) with ([full_meta] :: replicate 6 (@nil TableMeta)). by rewrite contents_levels, Hl. }
  split; [|split; [exact HD|exact Hcon]]. split; [exact Hb| |exact HC|exact Hp| |constructor| | | |].
  - rewrite HC. split.
    + cbn [map]. rewrite Hl, map_replicate_nil. apply (layered_empty [[]; []; [full_2; full_1]] 6).
      repeat constructor; intros r r' Hr; by inversion Hr.
    + cbn [tail]. repeat constructor.
    + intros i l Hi. destruct i as [|i]; [injection Hi as <-; by repeat constructor|].
      change (replicate 6 (@nil TableMeta) !! i = Some l) in Hi. apply lookup_replicate in Hi as [-> _]. constructor.
    + rewrite <- HC, Hcon. intros r r' Hr Hr'. rewrite elem_of_cons, list_elem_of_singleton in Hr, Hr'.
      destruct Hr as [->| ->], Hr' as [->| ->]; (reflexivity || (intros _ Hs; discriminate Hs)).
    + reflexivity.
  - intros r r' Hr. by inversion Hr.
  - change (FindOverlapping [] _ _) with (@nil TableMeta). cbn [app]. rewrite Hl. vm_compute. discriminate.
  - change (FindOverlapping [] _ _) with (@nil TableMeta). cbn [app]. rewrite Hl. vm_compute. lia.
  - rewrite HD, Hn. split; [by apply lookup_singleton_ne|lia].
  - change (FindOverlapping [] _ _) with (@nil TableMeta). cbn [app]. rewrite Hl, Hn. vm_compute. reflexivity.
Qed.

Lemma compaction_keeps_reads_witness :
  ∃ D e D' e', contents D [] [] (Current (vs e)) = [full_2; full_1] ∧ run_compaction 2 e = (Ok tt, e') ∧
    contents D' [] [] (Current (vs e')) ⊆ [full_2; full_1] ∧ same_reads [full_2; full_1] e e'.
Proof.
  destruct full_compactable as (D & bs & logs & Hc & _ & E). destruct full_run as (_ & _ & _ & Hq & _).
  destruct (compaction_keeps_reads D [] [] logs full_state3 2 [] [] [full_meta] [] [] (replicate 5 []) 5 [] Hc Hq)
    as (D' & e' & low & outs & Er & _ & _ & _ & Hin & Hs).
  rewrite E in Hin, Hs. exists D, full_state3, D', e'. split_and!; [exact E|exact Er|exact Hin|exact Hs].
Defined.

Lemma scheduled_compaction_witness :
  ∃ D logs pre inputs post n e', spawn 0 full_state3 = (Ok tt, e') ∧ [full_meta] = pre ++ inputs ++ post ∧
    compactQueue e' = [mkCT 0 [full_meta] 5; mkCT 0 inputs n] ∧ compactable D [] [] logs e' 2 [] pre inputs post [] (replicate 5 []) n.
Proof.
  destruct full_compactable as (D & bs & logs & [Hb Hlev HC Hp _ _ Hsz Hf _ _] & _ & _). destruct full_run as (_ & _ & _ & Hq & Hn & _).
  change (FindOverlapping [] _ _) with (@nil TableMeta) in Hsz, Hf.
  destruct (scheduled_compaction D [] [] logs full_state3 2 [] [full_meta] [] (replicate 5 []) Hb Hlev HC Hp Hsz Hf)
    as (pre & inputs & post & n & e' & E & Es & Eq & _ & _ & _ & Hc).
  { rewrite Hn. cbn [app] in Hf |- *. unfold len. lia. }
  exists D, logs, pre, inputs, post, n, e'. rewrite Hq in Eq. split_and!; [exact E|exact Es|exact Eq|]. apply Hc. constructor.
Defined.
