(* ===== verification/EngineRecover.v ===== *)
(** * Package engine: recovery from a crash

    A crash keeps the directory and loses the memory; [New] on what is left replays the logs. *)

From stdpp Require Import sorting.
From S2P Require Import Prelude.
From S2P Require Import GoStd.
From S2P Require Import GoIO.
From S2P Require Import Records.
From S2P Require Import Skiplist.
From S2P Require Import Versions.
From S2P Require Import Memtable.
From S2P Require Import Config.
From S2P Require Import Wal.
From S2P Require Import Batch.
From S2P Require Import Filter.
From S2P Require Import Blocks.
From S2P Require Import BlockCache.
From S2P Require Import Names.
From S2P Require Import TableWriter.
From S2P Require Import TableReader.
From S2P Require Import Meta.
From S2P Require Import Scan.
From S2P Require Import EngineState.
From S2P Require Import EngineRead.
From S2P Require Import EngineCompact.
From S2P Require Import EngineWrite.
From S2P Require Import EngineOpen.
From S2P Require Import EngineFs.
From S2P Require Import EngineDisk.
From S2P Require Import EngineFlow.
From S2P Require Import EngineFlush.
From S2P Require Import EngineRefine.
From S2P Require Import EngineSim.
From S2P Require Import EngineRun.

Section recover.
Context `{FE : FloatEnv}.

(** ** Replaying records *)

Definition max_seq (n : Z) (recs : list Rec) : Z := foldl (λ n (r : Rec), Z.max n (SeqNum r)) n recs.

Lemma max_seq_ge recs n : n <= max_seq n recs ∧ ∀ r : Rec, r ∈ recs -> SeqNum r <= max_seq n recs.
Proof.
  revert n. induction recs as [|r recs IH]; intros n; [split; [done|intros r Hr; by inversion Hr]|].
  destruct (IH (Z.max n (SeqNum r))) as [H1 H2]. change (max_seq n (r :: recs)) with (max_seq (Z.max n (SeqNum r)) recs).
  split; [lia|]. intros x [->|Hx]%elem_of_cons; [lia|by apply H2].
Qed.

Lemma max_seq_le recs n b : n <= b -> (∀ r : Rec, r ∈ recs -> SeqNum r <= b) -> max_seq n recs <= b.
Proof.
  revert n. induction recs as [|r recs IH]; intros n Hn Hr; [done|]. apply (IH (Z.max n (SeqNum r))).
  - pose proof (Hr r ltac:(apply elem_of_cons; by left)). lia.
  - intros x Hx. apply Hr. apply elem_of_cons. by right.
Qed.

Lemma max_seq_app n l1 l2 : max_seq n (l1 ++ l2) = max_seq (max_seq n l1) l2.
Proof. apply foldl_app. Qed.

Lemma max_seq_max recs n s : max_seq (Z.max n s) recs = Z.max s (max_seq n recs).
Proof.
  revert n. induction recs as [|r recs IH]; intros n; [cbn; lia|]. cbn. change (foldl _ ?a recs) with (max_seq a recs).
  rewrite <- IH. f_equal. lia.
Qed.

Lemma total_size_mid l1 (r : Rec) l2 : total_size ((r :: l1) ++ l2) = total_size (l1 ++ r :: l2).
Proof. cbn [app]. by rewrite <- Permutation_middle. Qed.

(** The callback on records that leave room in the memtable. *)
Lemma replay_records_ok recs lm e s :
  mem_ok lm e -> total_size (recs ++ lm) < MemtableSize (opts e) -> MemtableSize (opts e) <= 2 ^ 28 ->
  ∃ ms fl lm', let e' := set_mems e (mt e) (immt e) ms fl in
    deliver replay_record (e, s, false) recs = (e', max_seq s recs, false, None) ∧ mem_ok lm' e' ∧ lm' ≡ₚ recs ++ lm.
Proof.
  revert lm e s. induction recs as [|r recs IH]; intros lm e s Hm Hroom Ho.
  - exists (mts e), (flips e), lm. cbn zeta. split_and!; [by destruct e|exact Hm|done].
  - assert (total_size (r :: lm) < MemtableSize (opts e)) as Hr.
    { pose proof (total_size_nonneg recs). cbn [app] in Hroom. rewrite total_size_cons, total_size_app in Hroom. rewrite total_size_cons. lia. }
    destruct (put_record_fits lm e r Hm Hr Ho) as (m & E & Hm' & _). set (e1 := set_mems e _ _ _ _) in *.
    destruct (IH (insert_sorted r lm) e1 (Z.max s (SeqNum r)) Hm') as (ms & fl & lm' & E' & Hm'' & Hp);
      [by rewrite insert_sorted_Permutation, <- total_size_mid|done|].
    exists ms, fl, lm'. cbn zeta. split_and!; [|exact Hm''|].
    + cbn [deliver]. unfold replay_record at 1. unfold recoveryWrite. rewrite (EM_bind_ok _ _ _ _ _ E). cbn [mret EM_ret].
      replace (if s <? SeqNum r then SeqNum r else s) with (Z.max s (SeqNum r)) by (destruct (Z.ltb_spec s (SeqNum r)); lia).
      exact E'.
    + rewrite Hp, insert_sorted_Permutation. cbn [app]. by rewrite <- Permutation_middle.
Qed.

(** ** Replaying the logs *)

(** A log in the directory. *)
Definition log_file (f : FS) (l : Log) : Prop :=
  ∃ i fl, dir f !! walPath (log_num l) = Some i ∧ inodes f !! i = Some fl ∧ fdata fl = wal_bytes (log_recs l).

(** What replaying changes. *)
Definition replayed (e : Engine) (ms : list Memtable) (fl : list (list bool)) (ws : list WalHandle) (f : FS) (s : Z) : Engine :=
  set_seqNum (set_fs (set_logs (set_mems e (mt e) (immt e) ms fl) (wal e) (imwal e) ws) f) s.

Lemma wal_Open_existing p i md e :
  fs_ok (fs e) -> dir (fs e) !! p = Some i ->
  wal_Open p md e = (Ok (length (wals e)), set_logs e (wal e) (imwal e) (wals e ++ [mkWH p i md false])).
Proof.
  intros Hf Hd. destruct (open_or_create_ok p e Hf) as (j & f' & E & _ & _ & Hcase). rewrite Hd in Hcase. destruct Hcase as [-> ->].
  unfold wal_Open. rewrite (EM_bind_ok _ _ _ _ _ E). by destruct e.
Qed.

Lemma deliver_norm recs (st : Engine * Z * bool) :
  Forall small_rec recs -> Wal.Replay replay_record st (wal_bytes recs) = Some (Ok (deliver replay_record st (map normalize recs))).
Proof.
  intros Hs. destruct (Replay_wal replay_record st recs [] Hs) as (fuel & Hf & E). rewrite app_nil_r in E. rewrite E.
  destruct (deliver _ _ _) as [s' [x|]]; [done|]. destruct fuel; [cbn in Hf; lia|]. apply Replay_loop_nil.
Qed.

(** One log: its records come into the memtable, its file goes. *)
Lemma replay_log_ok l nums lm e :
  fs_ok (fs e) -> log_file (fs e) l -> Forall small_rec (log_recs l) -> mem_ok lm e ->
  total_size (norm (log_recs l) ++ lm) < MemtableSize (opts e) -> MemtableSize (opts e) <= 2 ^ 28 ->
  ∃ ms fl ws f' lm', let e' := replayed e ms fl ws f' (Z.max (seqNum e) (max_seq 0 (norm (log_recs l)))) in
    replay_logs (log_num l :: nums) e = replay_logs nums e' ∧ mem_ok lm' e' ∧ lm' ≡ₚ norm (log_recs l) ++ lm ∧
    fs_step (walPath (log_num l)) (fs e) f' ∧ dir f' = delete (walPath (log_num l)) (dir (fs e)).
Proof.
  intros Hf (i & x & Hd & Hi & Hx) Hs Hm Hroom Ho. set (p := walPath (log_num l)) in *. set (w := length (wals e)).
  set (e1 := set_logs e (wal e) (imwal e) (wals e ++ [mkWH p i SyncNone false])).
  assert (wals e1 !! w = Some (mkWH p i SyncNone false)) as Hw by (cbn; by rewrite lookup_app_r, Nat.sub_diag by lia).
  destruct (replay_records_ok (norm (log_recs l)) lm e1 0) as (ms & fl & lm' & E2 & Hm2 & Hp); [exact Hm|exact Hroom|exact Ho|].
  set (e2 := set_mems e1 _ _ _ _) in *. set (ms0 := max_seq 0 (norm (log_recs l))) in *.
  assert (replay_wal w e1 = (Ok ms0, e2)) as Er.
  { unfold replay_wal. rewrite Hw. cbn [mbind option_bind wh_inode]. change (fs e1) with (fs e). rewrite Hi, Hx, deliver_norm by done. fold (norm (log_recs l)). by rewrite E2. }
  pose proof (wal_Close_ok e2 w p i SyncNone x Hf Hw Hi) as Ec. set (e3 := set_fs (set_logs e2 _ _ _) _) in *.
  destruct (set_inode_step p i (mkFile (fdata x) (len (fdata x)) []) (fs e) Hf Hd) as [Hs3 _]; [done|].
  destruct (remove_ok p e3) as (f' & Ed & Hs4 & Hd4 & _); [apply Hs3|cbn; by eexists|]. cbn [fs e3 set_fs] in Hs4, Hd4.
  exists ms, fl, (<[w := mkWH p i SyncNone true]> (wals e1)), f', lm'. cbn zeta. split_and!; [|exact Hm2|exact Hp| |exact Hd4].
  - cbn [replay_logs]. rewrite (EM_bind_ok _ _ _ _ _ (wal_Open_existing p i SyncNone e Hf Hd)). cbv beta.
    rewrite (EM_bind_ok _ _ _ _ _ Er). cbv beta. rewrite (EM_bind_ok _ _ _ _ _ Ec). cbv beta.
    rewrite (EM_bind_ok _ _ _ tt e3) by done. rewrite (EM_bind_ok _ _ _ _ _ Ed). cbv beta.
    rewrite (EM_bind_ok _ _ _ (seqNum e) (set_fs e3 f')) by done. cbv beta.
    destruct (Z.ltb_spec (seqNum e) ms0) as [Hlt|Hge].
    + rewrite Z.max_r by lia. done.
    + rewrite Z.max_l by lia. done.
  - eapply fs_step_trans; [exact Hs3|exact Hs4|]. intros j Hj Hj'. by cbn in Hj.
Qed.

(** What holds of the file system while logs are replayed: the other files stay. *)
Record logs_gone (f f' : FS) (logs : list Log) : Prop := {
  lg_ok : fs_ok f';
  lg_files : ∀ l n, fs_file f' (tablePath l n) = fs_file f (tablePath l n);
  lg_dir : ∀ name, is_Some (dir f' !! WalPath name) <-> is_Some (dir f !! WalPath name) ∧ ∀ l, l ∈ logs -> WalPath name ≠ walPath (log_num l)
}.

Lemma log_file_step p f f' l : fs_ok f -> log_file f l -> fs_step p f f' -> p ≠ walPath (log_num l) -> log_file f' l.
Proof.
  intros Hf (i & fl & Hd & Hi & Hx) Hs Hp. exists i, fl. split_and!; [|  |done].
  - by rewrite (step_dir _ _ _ Hs).
  - apply (step_inodes _ _ _ Hs); [done|]. intros Hp'. apply Hp. by eapply fs_inj.
Qed.

Definition all_recs (logs : list Log) : list Rec := norm (concat (map log_recs logs)).

Lemma all_recs_cons l logs : all_recs (l :: logs) = norm (log_recs l) ++ all_recs logs.
Proof. unfold all_recs, norm. cbn [map concat]. by rewrite map_app. Qed.

Lemma replay_logs_ok logs lm e :
  fs_ok (fs e) -> Forall (log_file (fs e)) logs -> NoDup (map log_num logs) -> Forall (λ l, 0 <= log_num l < 10 ^ 6) logs ->
  Forall (λ l, Forall small_rec (log_recs l)) logs -> mem_ok lm e ->
  total_size (all_recs logs ++ lm) < MemtableSize (opts e) -> MemtableSize (opts e) <= 2 ^ 28 -> 0 <= seqNum e ->
  ∃ ms fl ws f' lm', let e' := replayed e ms fl ws f' (max_seq (seqNum e) (all_recs logs)) in
    replay_logs (map log_num logs) e = (Ok tt, e') ∧ mem_ok lm' e' ∧ lm' ≡ₚ all_recs logs ++ lm ∧ logs_gone (fs e) f' logs.
Proof.
  intros Hf Hl Hn Hr Hs Hm Hroom Ho. revert lm e Hf Hl Hm Hroom Ho.
  induction logs as [|l logs IH]; intros lm e Hf Hl Hm Hroom Ho Hseq.
  - exists (mts e), (flips e), (wals e), (fs e), lm. cbn zeta. split_and!; [by destruct e|exact Hm|done|].
    split; [done|done|]. intros name. split; [|tauto]. intros Hname. split; [done|]. intros l Hl'. by inversion Hl'.
  - apply Forall_cons in Hl as [Hl Hls]. apply NoDup_cons in Hn as [Hnl Hn]. apply Forall_cons in Hr as [Hr Hrs].
    apply Forall_cons in Hs as [Hsl Hs]. rewrite all_recs_cons, <- app_assoc in Hroom.
    pose proof (total_size_nonneg (all_recs logs)) as Hnn. pose proof Hroom as Hroom'. rewrite !total_size_app in Hroom'.
    destruct (replay_log_ok l (map log_num logs) lm e) as (ms1 & fl1 & ws1 & f1 & lm1 & E1 & Hm1 & Hp1 & Hst1 & Hd1); try done.
    { rewrite total_size_app. lia. }
    set (s1 := Z.max (seqNum e) _) in *. set (e1 := replayed e ms1 fl1 ws1 f1 s1) in *.
    assert (∀ l', l' ∈ logs -> walPath (log_num l) ≠ walPath (log_num l')) as Hne.
    { intros l' Hin E%walPath_inj; [|lia|].
      - apply Hnl. rewrite E. by apply list_elem_of_fmap_2.
      - rewrite Forall_forall in Hrs. specialize (Hrs l' Hin). cbv beta in Hrs. lia. }
    destruct (IH Hn Hrs Hs lm1 e1) as (ms & fl & ws & f' & lm' & E & Hm' & Hp' & Hg); try done.
    + apply Hst1.
    + rewrite Forall_forall in *. intros l' Hin. eapply log_file_step; [exact Hf|by apply Hls|exact Hst1|by apply Hne].
    + rewrite Hp1. change (opts e1) with (opts e). rewrite !total_size_app in *. lia.
    + cbn. lia.
    + exists ms, fl, ws, f', lm'. cbn zeta. change (seqNum e1) with s1 in E, Hm'.
      assert (max_seq s1 (all_recs logs) = max_seq (seqNum e) (all_recs (l :: logs))) as Es.
      { rewrite all_recs_cons, max_seq_app. unfold s1. f_equal. rewrite <- max_seq_max. f_equal. lia. }
      rewrite Es in E, Hm'. cbn [map]. split_and!; [by rewrite E1|exact Hm'| |].
      * rewrite Hp', Hp1, all_recs_cons, !app_assoc. by rewrite (Permutation_app_comm (all_recs logs)).
      * destruct Hg as [G1 G2 G3]. split; [done| |].
        -- intros lv n. rewrite G2. by apply (fs_step_file _ _ _ _ Hf Hst1).
        -- intros name. rewrite G3. cbn [fs e1 replayed set_seqNum set_fs]. rewrite Hd1, lookup_delete_is_Some. split.
           ++ intros [[H1 H2] H3]. split; [done|]. intros l' [->|Hin]%elem_of_cons; [done|by apply H3].
           ++ intros [H1 H2]. split_and!; [|done|].
              ** apply not_eq_sym, H2, elem_of_cons. by left.
              ** intros l' Hin. apply H2, elem_of_cons. by right.
Qed.

(** ** The logs in the directory *)

Lemma StronglySorted_weaken {A} (R S : A -> A -> Prop) (l : list A) :
  (∀ x y, R x y -> S x y) -> StronglySorted R l -> StronglySorted S l.
Proof. intros H. induction 1 as [|x l _ IH Hx]; constructor; [done|]. eapply Forall_impl; [exact Hx|auto]. Qed.

Lemma NoDup_omap_inj {A B} (f : A -> option B) (l : list A) :
  (∀ x y b, x ∈ l -> y ∈ l -> f x = Some b -> f y = Some b -> x = y) -> NoDup l -> NoDup (omap f l).
Proof.
  intros Hf Hn. induction Hn as [|x l Hx Hn IH]; [constructor|]. cbn [omap list_omap].
  assert (NoDup (omap f l)) as Hl by (apply IH; intros y z b Hy Hz; apply Hf; by apply elem_of_cons; right).
  destruct (f x) as [b|] eqn:E; [|done]. apply NoDup_cons. split; [|done]. intros (y & Hy & Ey)%list_elem_of_omap.
  assert (x = y) as ->; [|done]. apply (Hf x y b); [apply elem_of_cons; by left|apply elem_of_cons; by right|done|done].
Qed.

(** The names of the logs are those of the directory. *)
Definition logs_in (f : FS) (logs : list Log) : Prop :=
  ∀ name, is_Some (dir f !! WalPath name) <-> ∃ l, l ∈ logs ∧ WalPath name = walPath (log_num l).

Lemma wal_entries_logs e logs :
  logs_in (fs e) logs -> NoDup (map log_num logs) -> Forall (λ l, 0 <= log_num l < 10 ^ 6) logs ->
  wal_entries e ≡ₚ map (λ l, wal_name (log_num l)) logs.
Proof.
  intros Hd Hn Hr. unfold wal_entries. apply NoDup_Permutation.
  - apply NoDup_omap_inj; [|apply NoDup_map_to_list].
    intros [p i] [q j] b Hp%elem_of_map_to_list Hq%elem_of_map_to_list. cbn. destruct p, q; try done.
    intros [= ->] [= ->]. f_equal. congruence.
  - rewrite <- (map_map log_num wal_name). apply NoDup_fmap_2_strong; [|done].
    intros n1 n2 (l1 & -> & H1)%list_elem_of_fmap (l2 & -> & H2)%list_elem_of_fmap E. rewrite Forall_forall in Hr.
    specialize (Hr l1 H1) as R1. specialize (Hr l2 H2) as R2. apply walPath_inj; [lia|lia|]. unfold walPath. by rewrite E.
  - intros name. rewrite list_elem_of_omap, list_elem_of_fmap. split.
    + intros ([p i] & Hp%elem_of_map_to_list & E). cbn in E. destruct p as [|name'|]; try done. injection E as ->.
      destruct (proj1 (Hd name)) as (l & Hl & El); [by eexists|]. exists l. split; [|done]. by injection El.
    + intros (l & -> & Hl). destruct (proj2 (Hd (wal_name (log_num l)))) as [i Hi]; [by exists l|].
      exists (WalPath (wal_name (log_num l)), i). split; [by apply elem_of_map_to_list|done].
Qed.

Lemma scan_logs logs :
  Forall (λ l, 0 <= log_num l < 10 ^ 6) logs ->
  omap (λ name, match scan_wal name with (num, true) => Some num | _ => None end) (map (λ l, wal_name (log_num l)) logs) = map log_num logs.
Proof.
  induction 1 as [|l logs Hl _ IH]; [done|]. cbn [map omap list_omap].
  destruct (scan_wal_name (log_num l)) as (v & -> & _ & Hv); [lia|]. rewrite bool_decide_true by lia. rewrite Hv by lia.
  by f_equal.
Qed.

(** os.ReadDir, Sscanf and Sort give the numbers in order. *)
Lemma wal_numbers_logs e logs :
  logs_in (fs e) logs -> StronglySorted (λ l l', log_num l < log_num l') logs -> Forall (λ l, 0 <= log_num l < 10 ^ 6) logs ->
  wal_numbers (wal_entries e) = map log_num logs ∧ length (wal_entries e) = length logs ∧ NoDup (map log_num logs).
Proof.
  intros Hd Hs Hr.
  assert (StronglySorted Z.lt (map log_num logs)) as Hss.
  { clear -Hs. induction Hs as [|l logs _ IH Hl]; [constructor|]. cbn [map]. constructor; [done|]. by apply Forall_map. }
  assert (NoDup (map log_num logs)) as Hn.
  { clear -Hss. induction Hss as [|n l _ IH Hl]; [constructor|]. constructor; [|done]. intros Hin.
    rewrite Forall_forall in Hl. specialize (Hl n Hin). lia. }
  pose proof (wal_entries_logs e logs Hd Hn Hr) as Hp. split_and!; [|by rewrite Hp, length_map|done].
  unfold wal_numbers, slices_Sort. apply (Sorted_unique Z.le).
  - apply Sorted_merge_sort. intros x y. lia.
  - apply StronglySorted_Sorted. eapply StronglySorted_weaken; [|exact Hss]. intros; lia.
  - by rewrite merge_sort_Permutation, Hp, scan_logs.
Qed.

(** ** recover *)

Lemma recover_ok e logs :
  fs_ok (fs e) -> logs_in (fs e) logs -> logs ≠ [] -> StronglySorted (λ l l', log_num l < log_num l') logs ->
  Forall (λ l, 0 <= log_num l < 10 ^ 6) logs -> Forall (log_file (fs e)) logs -> Forall (λ l, Forall small_rec (log_recs l)) logs ->
  mem_ok [] e -> total_size (all_recs logs) < MemtableSize (opts e) -> MemtableSize (opts e) <= 2 ^ 28 -> 0 <= seqNum e ->
  ∃ ms fl ws f' lm, let e' := replayed e ms fl ws f' (max_seq (seqNum e) (all_recs logs)) in
    recover e = (Ok tt, e') ∧ mem_ok lm e' ∧ lm ≡ₚ all_recs logs ∧ fs_ok f' ∧
    (∀ l n, fs_file f' (tablePath l n) = fs_file (fs e) (tablePath l n)) ∧ logs_in f' [].
Proof.
  intros Hf Hin Hne Hs Hr Hl Hsm Hm Hroom Ho Hseq. destruct (wal_numbers_logs e logs Hin Hs Hr) as (Enum & Elen & Hn).
  destruct (replay_logs_ok logs [] e) as (ms & fl & ws & f' & lm & E & Hm' & Hp & [G1 G2 G3]); try done; [by rewrite app_nil_r|].
  rewrite app_nil_r in Hp. exists ms, fl, ws, f', lm. cbn zeta. split_and!; [|exact Hm'|exact Hp|exact G1|exact G2|].
  - unfold recover. rewrite (EM_bind_ok _ _ e (LogNumber (vs e)) e) by done. cbv beta.
    rewrite (EM_bind_ok _ _ e tt e) by apply io_ok, Hf. rewrite (EM_bind_ok _ _ e (wal_entries e) e) by done. cbv beta.
    rewrite (EM_bind_ok _ _ e (Mode (opts e)) e) by done. cbv beta. rewrite Elen, Enum.
    destruct logs; [done|]. exact E.
  - intros name. rewrite G3, (Hin name). split; [|by intros (l & Hl' & _); inversion Hl'].
    intros [(l & Hl' & E') H]. by destruct (H l Hl').
Qed.

(** ** What a replay does to the records *)

Lemma total_size_norm l : total_size (norm l) = total_size l.
Proof. induction l as [|r l IH]; [done|]. change (norm (r :: l)) with (normalize r :: norm l). by rewrite !total_size_cons, IH. Qed.

#[local] Instance norm_Permutation : Proper ((≡ₚ) ==> (≡ₚ)) norm.
Proof. intros l l' E. unfold norm. by rewrite E. Qed.

Lemma all_recs_dead dead l : Forall (λ d, log_recs d = []) dead -> all_recs (dead ++ [l]) = norm (log_recs l).
Proof.
  induction 1 as [|d dead Hd _ IH]; cbn [app]; rewrite all_recs_cons; [apply app_nil_r|]. by rewrite Hd, IH.
Qed.

Lemma store_take h n C n2 :
  store_ok h n C -> 0 <= n2 <= n -> (∀ r : Rec, r ∈ C -> SeqNum r <= n2) ->
  store_ok (take (S (Z.to_nat n2)) h) n2 C ∧ now (take (S (Z.to_nat n2)) h) = now h.
Proof.
  intros Hst Hn Hle. pose proof Hst as [H1 H2 H3 H4 H5]. unfold len in H1.
  assert (store_ok (take (S (Z.to_nat n2)) h) n2 C) as Hst2.
  { split; [|intros r Hr; specialize (H2 r Hr); specialize (Hle r Hr); lia|done|done|].
    - unfold len. rewrite length_take. lia.
    - intros s m k o Hs Ho. eapply H5; [|exact Ho]. by apply lookup_take_Some in Hs as [Hs _]. }
  split; [done|]. pose proof (store_now _ _ _ Hst2 ltac:(lia)) as Hnow.
  pose proof (store_now _ _ _ Hst ltac:(lia)) as Hnow'. apply map_eq. intros k.
  destruct (newest_exists k n C) as [o Ho]. pose proof (newest_bound k n2 n C o Hle ltac:(lia) Ho) as Ho2.
  pose proof (H5 _ _ k o Hnow' ltac:(by rewrite Z2Nat.id by lia)) as E1.
  pose proof (st_hist _ _ _ Hst2 _ _ k o Hnow ltac:(by rewrite Z2Nat.id by lia)) as E2. rewrite E1 in E2.
  destruct (now h !! k), (now (take _ h) !! k); cbn in E2; congruence.
Qed.

(** ** Crashes *)

(** The file after a crash: with the power, what was not synced is lost. *)
Definition crash_file (power : bool) (f : File) : File :=
  mkFile (if power then take (Z.to_nat (fdurable f)) (fdata f) else fdata f) (fdurable f) [].

Definition crash_fs (power : bool) (f : FS) : FS := mkFS (dir f) (map (crash_file power) (inodes f)) [] [].

(** The manifest crashes as the other files; CURRENT, written once, is taken as written back. *)
Definition crash_root (power : bool) (r : Root) (e : Engine) : Root :=
  reopen r (set_manifest (vs e) (crash_file power (manifest (vs e)))).

Lemma crash_file_data power f : (power = true -> fdurable f = len (fdata f)) -> fdata (crash_file power f) = fdata f.
Proof.
  intros H. destruct power; [|done]. unfold crash_file. cbn [fdata]. rewrite H by done. unfold len. by rewrite Nat2Z.id, firstn_all.
Qed.

Lemma crash_fs_file power f p : fs_file (crash_fs power f) p = crash_file power <$> fs_file f p.
Proof. unfold fs_file. cbn. destruct (dir f !! p) as [i|]; [|done]. cbn. apply list_lookup_fmap. Qed.

Lemma crash_fs_ok power f : fs_ok f -> fs_ok (crash_fs power f).
Proof.
  intros [H1 H2 H3 H4 H5]. split; cbn; try done.
  - apply Forall_map. by apply Forall_true.
  - intros p i Hp. rewrite length_map. by eapply H4.
Qed.

Lemma crash_synced power f t : synced f t -> synced (crash_fs power f) t.
Proof.
  intros Ht fl Hfl. rewrite crash_fs_file in Hfl. destruct (fs_file f _) as [x|] eqn:E; [|done]. injection Hfl as <-.
  specialize (Ht x E). by rewrite crash_file_data.
Qed.

Lemma crash_table D power f t bs : synced f t -> table_ok D f t bs -> table_ok D (crash_fs power f) t bs.
Proof.
  intros Hs [H1 (x & Hx & Ht) H3 H4 H5 H6]. split; try done. exists (crash_file power x). split.
  - by rewrite crash_fs_file, Hx.
  - by rewrite crash_file_data by (intros _; by apply Hs).
Qed.

Lemma crash_log power md ws f l : (power = true -> md = SyncBatch) -> open_log md ws f l -> log_file (crash_fs power f) l.
Proof.
  intros Hp (i & fl & _ & Hd & Hi & Hx & Hdur). exists i, (crash_file power fl). split_and!; [done| |].
  - cbn. by rewrite list_lookup_fmap, Hi.
  - rewrite crash_file_data; [done|]. auto.
Qed.

(** ** New after a crash *)

Definition crash_version (power : bool) (e : Engine) : VersionSet :=
  set_manifest (logged (vs e)) (crash_file power (manifest (vs e))).

Lemma crash_Open `{LG : Logged} power r e :
  disk_ok (fs e) (vs e) -> root_current r ->
  Meta.Open (crash_root power r e) = Some (crash_root power r e, Ok (crash_version power e)) ∧
  disk_ok (crash_fs power (fs e)) (crash_version power e) ∧ Current (crash_version power e) = Current (vs e) ∧
  0 <= nextFileNum (crash_version power e) <= nextFileNum (vs e).
Proof.
  intros [H1 H2 (es & H3) H4 H5 H6] Hr. destruct (replay_logged _ _ H3) as [Hrep El]. set (m' := crash_file power (manifest (vs e))).
  assert (fdata m' = fdata (manifest (vs e))) as Ed by by apply crash_file_data.
  assert (logged (crash_version power e) = logged (vs e)) as Elog.
  { unfold logged at 1. change (manifest (crash_version power e)) with m'. by rewrite Ed, Hrep. }
  assert (Current (crash_version power e) = Current (vs e)) as EC by (unfold crash_version; by rewrite El).
  split_and!; [|split|exact EC|apply H4..].
  - apply (Open_existing _ m' (logged (vs e))); [done| | |].
    + cbn. by rewrite lookup_insert_ne by done.
    + cbn. apply lookup_insert_eq.
    + by rewrite Ed.
  - done.
  - change (fdurable (manifest (vs e)) = len (fdata m')). by rewrite Ed.
  - exists es. unfold edits_of in *. change (manifest (crash_version power e)) with m'. by rewrite Ed, EC.
  - rewrite Elog. cbn. lia.
  - rewrite Elog, EC. rewrite Forall_forall in *. intros t Ht. destruct (H5 t Ht). split; [done|by apply crash_synced].
  - by rewrite Elog, EC.
Qed.

(** The tables of the version alone. *)
Definition version_disk (D : gmap Z (list (list Rec))) (v : Version) : gmap Z (list (list Rec)) :=
  base.filter (λ x, x.1 ∈ map FileNum (concat v)) D.

Lemma version_disk_table D v f t bs : t ∈ concat v -> table_ok D f t bs -> table_ok (version_disk D v) f t bs.
Proof.
  intros Ht [H1 H2 H3 H4 H5 H6]. split; try done. apply map_lookup_filter_Some. split; [done|]. cbn [fst]. by apply list_elem_of_fmap_2.
Qed.

Lemma version_disk_sub D v : version_disk D v ⊆ D.
Proof. apply map_filter_subseteq. Qed.

(** The engine that New makes of what a crash has left, once the manifest is read. *)
Definition reopened (o : Options) (power : bool) (e : Engine) (fl : list (list bool)) : Engine :=
  set_vs (blank_engine (WithDefaults o) (crash_fs power (fs e)) fl) (crash_version power e).

(** The tables are there as they were. *)
Lemma reopened_tables `{LG : Logged} D lm li logs e power f :
  base_ok D lm li logs e -> (∀ l n, fs_file f (tablePath l n) = fs_file (crash_fs power (fs e)) (tablePath l n)) ->
  Forall (λ t, ∃ bs, table_ok (version_disk D (Current (vs e))) f t bs) (concat (Current (vs e))).
Proof.
  intros He Hf. pose proof (view_tables _ _ _ _ (bo_view _ _ _ _ _ He)) as Ht. pose proof (dk_tables _ _ (bo_disk _ _ _ _ _ He)) as Hs.
  rewrite Forall_forall in *. intros t Hin. destruct (Ht t Hin) as (bs & Hok). exists bs.
  apply version_disk_table; [done|]. destruct (Hs t Hin) as [_ Hsy].
  destruct (crash_table D power (fs e) t bs Hsy Hok) as [T1 T2 T3 T4 T5 T6]. split; try done. by rewrite Hf.
Qed.

Lemma reopened_numbers `{LG : Logged} D v f :
  disk_ok f v -> ∀ n bs, version_disk D (Current v) !! n = Some bs -> n < nextFileNum (logged v).
Proof.
  intros Hd n bs [_ Hn]%map_lookup_filter_Some. apply list_elem_of_fmap in Hn as (t & E & Ht). cbn in E. subst n.
  pose proof (dk_tables _ _ Hd) as Hts. rewrite Forall_forall in Hts. by apply Hts.
Qed.

Lemma crash_logs logs e power :
  logs_ok logs e -> (power = true -> Mode (opts e) = SyncBatch) ->
  logs_in (crash_fs power (fs e)) logs ∧ Forall (λ l, 0 <= log_num l < 10 ^ 6) logs ∧ Forall (log_file (crash_fs power (fs e))) logs.
Proof.
  intros [L1 L2 L3 L4] Hp. split_and!.
  - intros name. split; [apply L4|]. intros (l & Hl & ->). rewrite Forall_forall in L1. destruct (L1 l Hl) as (i & fl & _ & Hd & _). by exists i.
  - eapply Forall_impl; [exact L3|]. cbn. lia.
  - eapply Forall_impl; [exact L1|]. intros l. by apply crash_log.
Qed.

(** The engine after its recovery: its memtable has the records of the log, its tables are the old ones. *)
Lemma recovered_base `{LG : Logged} D lm logs e o power fl l dead :
  base_ok D lm [] logs e -> options_ok o -> opts e = WithDefaults o -> (power = true -> Mode (opts e) = SyncBatch) ->
  logs = dead ++ [l] -> Forall (λ d, log_recs d = []) dead -> log_recs l ≡ₚ lm -> total_size lm < MemtableSize (opts e) ->
  let s := lastSeqNum (logged (vs e)) in let e0 := set_seqNum (reopened o power e fl) s in 0 <= s ->
  ∃ e1 lm', recover e0 = (Ok tt, e1) ∧ base_ok (version_disk D (Current (vs e))) lm' [] [] e1 ∧ mem_ok lm' e1 ∧
    lm' ≡ₚ norm lm ∧ seqNum e1 = max_seq s (norm (log_recs l)) ∧ vs e1 = crash_version power e ∧ opts e1 = opts e ∧ flushChan e1 = [] ∧ immt e1 = None.
Proof.
  intros He Ho Eo Hp -> Hdead Hl Hroom s e0 Hs0. pose proof (bo_small _ _ _ _ _ He) as Hsm. rewrite app_nil_r in Hsm.
  destruct (crash_logs _ e power (bo_logs _ _ _ _ _ He) Hp) as (Hin & Hr & Hfiles).
  destruct (bo_opts _ _ _ _ _ He) as (Ho1 & Ho2 & Ho3). pose proof (all_recs_dead dead l Hdead) as Eall.
  assert (total_size (all_recs (dead ++ [l])) < MemtableSize (opts e0)) as Hroom0.
  { rewrite Eall, total_size_norm, Hl. cbn [opts e0 set_seqNum reopened set_vs blank_engine]. by rewrite <- Eo. }
  assert (mem_ok [] e0) as Hm0 by by apply blank_mem.
  destruct (recover_ok e0 (dead ++ [l])) as (ms & fls & ws & f' & lm' & E & Hm & Hperm & Hf & Hfile & Hnone); try done.
  { apply crash_fs_ok, (bo_fs _ _ _ _ _ He). }
  { by destruct dead. }
  { apply (lo_sorted _ _ (bo_logs _ _ _ _ _ He)). }
  { apply Forall_app. split; [|apply Forall_singleton; by rewrite Hl].
    eapply Forall_impl; [exact Hdead|]. cbv beta. intros d ->. constructor. }
  { change (opts e0) with (WithDefaults o). rewrite <- Eo. lia. }
  rewrite Eall in Hperm. set (e1 := replayed e0 ms fls ws f' _) in *. exists e1, lm'.
  destruct (crash_Open power (mkRoot {[currentFile := mkFile (map ascii_byte manifestName) 0 []]} []) e (bo_disk _ _ _ _ _ He))
    as (_ & Hdisk & EC & Hn); [by vm_compute|].
  split_and!; [exact E| |exact Hm|by rewrite Hperm, Hl|cbn; by rewrite Eall|done|by rewrite Eo|done|done].
  destruct (bo_version _ _ _ _ _ He) as [Hv1 Hv2].
  assert (∀ lv n, fs_file f' (tablePath lv n) = fs_file (crash_fs power (fs e)) (tablePath lv n)) as Hfile' by exact Hfile.
  split; cbn [fs vs opts e1 replayed set_seqNum set_fs e0 reopened set_vs set_logs set_mems].
  - destruct Hm as (m & Hm & Hh & _). split; [by exists m|done| |apply fresh_caches].
    cbn [fs vs e1 replayed set_seqNum set_fs e0 reopened set_vs set_logs set_mems]. rewrite EC. by eapply reopened_tables.
  - exact Hf.
  - destruct Hdisk as [K1 K2 K3 K4 K5 K6]. split; try done. rewrite Forall_forall in *. intros t Ht. destruct (K5 t Ht) as [Hlt Hsy].
    split; [exact Hlt|]. intros x. rewrite Hfile'. apply Hsy.
  - by rewrite EC.
  - split; [apply Hn|]. apply (reopened_numbers D (vs e) (fs e)), He.
  - rewrite app_nil_r, Hperm. apply small_norm. by rewrite Hl.
  - rewrite Eo in Ho1, Ho2, Ho3. exact (conj Ho1 (conj Ho2 Ho3)).
  - split; cbn; [constructor|constructor|constructor|]. intros name Hname. by apply Hnone.
Qed.

(** The sequence number in the manifest is one of a record in the tables. *)
Lemma logged_seq_bounds h D lm li old logs l0 e :
  refines (LG := true) h D lm li old logs l0 e -> 0 <= lastSeqNum (logged (vs e)) <= seqNum e.
Proof.
  intros [[He _ _ _ _] [n HC] _ Hst Hseq]. destruct (dk_seq _ _ (bo_disk _ _ _ _ _ He) eq_refl) as [->|(t & Ht & <-)]; [lia|].
  pose proof (view_tables _ _ _ _ (bo_view _ _ _ _ _ He)) as Hts. rewrite Forall_forall in Hts. destruct (Hts t Ht) as (bs & [T1 _ _ T4 T5 _]).
  destruct T4 as (r & recs & Eb & _). destruct (sep_elem (concat bs)) as (x & Hx & Ex); [by rewrite Eb|]. rewrite T5, Ex.
  pose proof (st_seq _ _ _ Hst (normalize x)) as H. cbn in H. assert (1 <= SeqNum x <= seqNum e); [|lia]. apply H.
  rewrite HC in Ht. cbn [concat] in Ht. rewrite concat_replicate_nil, app_nil_r in Ht.
  rewrite !elem_of_app. right. right. unfold level_recs. apply elem_of_concat. exists (table_recs D t). split.
  - by apply list_elem_of_fmap_2.
  - unfold table_recs. rewrite T1. cbn. unfold norm. by apply list_elem_of_fmap_2.
Qed.

(** After a crash with records in the memtable, New is back at the latest map. *)
Lemma restart_ok h D lm logs l0 e o power r fl :
  refines (LG := true) h D lm [] None logs l0 e -> options_ok o -> opts e = WithDefaults o -> CrashRecovery o = true ->
  (power = true -> Mode (opts e) = SyncBatch) -> lm ≠ [] -> root_current r -> nextFileNum (vs e) < 10 ^ 6 - 1 ->
  ∃ e2 h2 n2, New o (crash_root power r e) (crash_fs power (fs e)) fl = Some (Ok tt, e2, crash_root power r e) ∧
    represents_store (LG := false) h2 n2 e2 ∧ h2 `prefix_of` h ∧ now h2 = now h ∧
    nextFileNum (vs e2) <= nextFileNum (vs e) + 1 ∧ seqNum e2 <= seqNum e ∧ opts e2 = opts e ∧
    n2 = length (lm ++ [] ++ level_recs D l0).
Proof.
  intros Hr Ho Eo Hcr Hp Hne Hroot Hnum. pose proof (logged_seq_bounds _ _ _ _ _ _ _ _ Hr) as Hs.
  pose proof Hr as [[He Hmt Hl Hpend Hroom] [n HC] (_ & Hnew & _) Hst Hseq].
  assert (CrashRecovery (opts e) = true) as Hcr' by by rewrite Eo. unfold log_state in Hl. rewrite Hcr' in Hl.
  destruct Hl as (dead & l & Elogs & Hdead & _ & Hlm). destruct (Hlm eq_refl) as [Hlm' _]. cbn [option_list app] in Elogs.
  destruct (recovered_base D lm logs e o power fl l dead He Ho Eo Hp Elogs Hdead Hlm' Hroom ltac:(lia))
    as (e1 & lm' & Erec & He1 & Hm1 & Hperm & Hs1 & Hv1 & Ho1 & Hq1 & Him1).
  set (s := lastSeqNum (logged (vs e))) in *. set (e0 := set_seqNum (reopened o power e fl) s) in *.
  destruct (crash_Open power r e (bo_disk _ _ _ _ _ He) Hroot) as (Eopen & _ & EC & Hn).
  destruct (next_file_num_ok _ _ _ _ _ He1) as (v & En & He1' & Hv & HCv & Hmv); [rewrite Hv1; lia|].
  destruct (open_next_log _ _ _ _ e1 v He1) as (l' & f' & ws & El & He2 & Hl'); [rewrite Hv1; lia|done|apply (bo_disk _ _ _ _ _ He1')|lia|].
  set (e2 := set_logs _ _ _ _) in El, He2. cbn [app] in He2. set (D' := version_disk D (Current (vs e))) in *.
  assert (level_recs D' l0 = level_recs D l0) as Hlev.
  { symmetry. apply (level_recs_mono D' D (fs e)); [apply version_disk_sub|]. pose proof (view_tables _ _ _ _ (bo_view _ _ _ _ _ He)) as Hts.
    rewrite HC in Hts. cbn [concat] in Hts. rewrite concat_replicate_nil, app_nil_r in Hts. rewrite Forall_forall in Hts |- *.
    intros t Ht. destruct (Hts t Ht) as (bs & Hok). exists bs. apply version_disk_table; [|done].
    rewrite HC. cbn [concat]. apply elem_of_app. by left. }
  pose proof (max_seq_ge (norm (log_recs l)) s) as [Hge Hge']. rewrite <- Hs1 in Hge, Hge'.
  assert (seqNum e1 <= seqNum e) as Hle.
  { rewrite Hs1. apply max_seq_le; [lia|]. intros x (y & -> & Hy)%list_elem_of_fmap. cbn. rewrite Hlm' in Hy.
    apply (st_seq _ _ _ Hst y). apply elem_of_app. by left. }
  assert (∀ x : Rec, x ∈ lm -> SeqNum x <= seqNum e1) as Hlmle.
  { intros x Hx. apply (Hge' (normalize x)). unfold norm. apply list_elem_of_fmap_2. by rewrite Hlm'. }
  destruct (store_take h (seqNum e) (lm ++ [] ++ level_recs D l0) (seqNum e1) Hst) as [Hst2 Hnow]; [lia| |].
  { intros x [Hx|Hx]%elem_of_app; [by apply Hlmle|]. destruct lm as [|y lm0]; [done|].
    pose proof (Hnew y x ltac:(apply elem_of_cons; by left) Hx). pose proof (Hlmle y ltac:(apply elem_of_cons; by left)). lia. }
  assert (opts e2 = opts e) as Ho2 by exact Ho1.
  exists e2, (take (S (Z.to_nat (seqNum e1))) h), (length (lm' ++ [] ++ level_recs D' l0)).
  split_and!; [| |by eexists (drop _ h); rewrite take_drop|done|cbn; rewrite Hv1 in Hv; lia|exact Hle|done|].
  - unfold New. rewrite mkdirs_ok by done. rewrite Eopen. cbn [mbind option_bind].
    change (set_vs (blank_engine (WithDefaults o) (crash_fs power (fs e)) fl) (crash_version power e)) with (reopened o power e fl).
    assert (start_engine (reopened o power e fl) = (Ok tt, e2)) as ->; [|done].
    unfold start_engine. rewrite (EM_bind_ok _ _ _ s (reopened o power e fl)) by done. cbv beta.
    rewrite (EM_bind_ok _ _ _ tt e0) by done. rewrite (EM_bind_ok _ _ e0 true e0) by (unfold gets; cbn; by rewrite Hcr). cbv beta iota.
    rewrite (EM_bind_ok _ _ _ _ _ Erec). cbv beta. rewrite (EM_bind_ok _ _ _ _ _ En). exact El.
  - exists D', lm', [], None, [l'], l0. split; [|by rewrite Hlev]. split.
    + split; [by eapply base_ok_forget|apply mem_ok_mt; [exact Hm1|by cbn; rewrite Him1]| | |by rewrite Hperm, total_size_norm, Ho2].
      * unfold log_state. rewrite Ho2, Hcr'. by exists [], l'.
      * unfold pending_ok. cbn. by rewrite Hq1.
    + exists n. cbn. by rewrite HCv, Hv1, EC.
    + rewrite Hlev. split_and!; [intros x y _ Hy; by inversion Hy| |apply newer_than_nil].
      intros x y Hx Hy. rewrite Hperm in Hx. apply list_elem_of_fmap in Hx as (z & -> & Hz). by apply (Hnew z y).
    + rewrite Hlev, Hperm. by apply store_norm.
    + cbn. lia.
  - rewrite Hlev, !length_app, Hperm. unfold norm. by rewrite length_map.
Qed.

(** The memtable has records and no flush is pending. *)
Definition unflushed (e : Engine) : bool :=
  (length (flushChan e) =? 0)%nat && match mts e !! mt e with Some m => 0 <? Memtable.size m | None => false end.

Lemma unflushed_ok `{LG : Logged} D lm li old logs e :
  state_ok D lm li old logs e -> unflushed e = true -> lm ≠ [] ∧ li = [] ∧ old = None.
Proof.
  intros Hst [Hq Hm]%andb_true_iff. destruct (flushChan e) eqn:Eq; [|done].
  destruct (idle_li _ _ _ _ _ _ Hst Eq) as (-> & -> & _). destruct (so_mt _ _ _ _ _ _ Hst) as [(m & Em & Es & _) _].
  rewrite Em, Es in Hm. split_and!; [|done|done]. by intros ->.
Qed.

End recover.

#[local] Existing Instance example_env.

(** Three writes fill the memtable and are flushed, one more stays in it; the power fails. *)
Definition crash_ops : list op :=
  let a := [Byte.x61] in let b := [Byte.x62] in let c := [Byte.x63] in
  [OPut a [Byte.x31]; OPut b [Byte.x32]; ODelete c; OFlush; OPut a [Byte.x33]].

Definition crash_obs : list obs := [RDone; RDone; RDone; RDone; RDone].

Definition after_ops : list op :=
  let a := [Byte.x61] in let b := [Byte.x62] in let c := [Byte.x63] in
  [OGet a; OGet b; ODelete b; OScan a c; OSnapshot].

Definition after_obs : list obs :=
  let a := [Byte.x61] in
  [RValue (Some (Some [Byte.x33])); RValue (Some (Some [Byte.x32])); RDone; RPairs [(a, Some [Byte.x33])]; RSnapshot 5].

Lemma crash_run :
  match New small_options empty_root empty_fs [] with
  | Some (Ok _, e, r) =>
      let '(x, e') := exec_all 10 crash_ops e in
      paced 10 crash_ops e = true ∧ x = Ok crash_obs ∧ unflushed e' = true ∧
      match New small_options (crash_root true r e') (crash_fs true (fs e')) [] with
      | Some (Ok _, e2, _) => paced 10 after_ops e2 = true ∧ (exec_all 10 after_ops e2).1 = Ok after_obs
      | _ => False
      end
  | _ => False
  end.
Proof. vm_compute. repeat split; reflexivity. Qed.

Lemma crash_bounded : Forall op_bounded crash_ops ∧ Forall op_bounded after_ops.
Proof.
  split; solve_bounded.
Qed.

