(* ===== verification/EngineFaults.v ===== *)
(** * Package engine: what the store does not keep

    Runs, evaluated, in which the engine leaves the store of [EngineRefine]: they show that the
    conditions of [EngineRun.engine_refines_store] and [EngineRecover.New_after_crash] (one flush
    pending at most, records in the memtable at the crash, no compaction) are needed. *)

From S2P Require Import Prelude.
From S2P Require Import GoStd.
From S2P Require Import GoIO.
From S2P Require Import Records.
From S2P Require Import Skiplist.
From S2P Require Import Versions.
From S2P Require Import Memtable.
From S2P Require Import Config.
From S2P Require Import Wal.
From S2P Require Import Batch.
From S2P Require Import Filter.
From S2P Require Import Blocks.
From S2P Require Import BlockCache.
From S2P Require Import Names.
From S2P Require Import TableWriter.
From S2P Require Import TableReader.
From S2P Require Import Meta.
From S2P Require Import Scan.
From S2P Require Import EngineState.
From S2P Require Import EngineRead.
From S2P Require Import EngineCompact.
From S2P Require Import EngineWrite.
From S2P Require Import EngineOpen.
From S2P Require Import EngineFs.
From S2P Require Import EngineDisk.
From S2P Require Import EngineFlow.
From S2P Require Import EngineFlush.
From S2P Require Import EngineRefine.
From S2P Require Import EngineSim.
From S2P Require Import EngineRun.
From S2P Require Import EngineRecover.

#[local] Existing Instance example_env.

(** ** Runs with crashes and compactions *)

(** Operations of clients and turns of the flusher; the turn of a compaction; the process dies and
    is started again. *)
Inductive act :=
  | Do (ops : list op)
  | Compact
  | Crash.

(** An engine and the root of its directory. *)
Abbreviation machine := (Engine * Root)%type.

Definition opened (x : option (res unit * Engine * Root)) : option machine :=
  match x with Some (Ok _, e, r) => Some (e, r) | _ => None end.

Definition play_act (o : Options) (a : act) (s : machine) : option (list obs * machine) :=
  let '(e, r) := s in
  match a with
  | Do ops => match exec_all 10 ops e with (Ok os, e) => Some (os, (e, r)) | _ => None end
  | Compact => match run_compaction 10 e with (Ok _, e) => Some ([], (e, r)) | _ => None end
  | Crash => s ← opened (New o (crash_root false r e) (crash_fs false (fs e)) []); Some ([], s)
  end.

Fixpoint play_acts (o : Options) (acts : list act) (s : machine) : option (list obs) :=
  match acts with
  | [] => Some []
  | a :: acts => '(os, s) ← play_act o a s; rest ← play_acts o acts s; Some (os ++ rest)
  end.

(** The answers of a run that starts with New in an empty directory. *)
Definition play (o : Options) (acts : list act) : option (list obs) :=
  s ← opened (New o empty_root empty_fs []); play_acts o acts s.

(** The operations of a run. *)
Definition played (acts : list act) : list op := concat (map (λ a, match a with Do ops => ops | _ => [] end) acts).

(** No history of the store explains the answers. *)
Definition unexplained (acts : list act) (os : list obs) : Prop := ∀ h', ¬ spec_run [∅] (played acts) os h'.

(** A compaction for every table of level 0. *)
Definition eager_options : Options := mkOptions "data" true 40 64 0 example_rate 0 1 0 0 0 7 0 example_rate SyncBatch 0.

Definition ka : bytes := [Byte.x61].
Definition kb : bytes := [Byte.x62].
Definition kc : bytes := [Byte.x63].
Definition kd : bytes := [Byte.x64].
Definition v1 : bytes := [Byte.x31].
Definition v2 : bytes := [Byte.x32].
Definition v3 : bytes := [Byte.x33].

Definition found (v : bytes) : obs := RValue (Some (Some v)).
Definition missing : obs := RValue None.

(** Evaluate the run; follow the store to the answer that it does not give. *)
Ltac spec_cases :=
  repeat match goal with
         | H : spec_run _ (_ :: _) _ _ |- _ => inversion H; clear H; subst
         | H : spec_run _ [] _ _ |- _ => inversion H; clear H; subst
         | H : spec_step _ _ _ _ |- _ => inversion H; clear H; subst
         end.

Ltac evaluate_run :=
  split; [by vm_compute|]; let H := fresh in intros h' H; cbn [played map concat app] in H; spec_cases;
  repeat match goal with H : _ !! _ = Some ?m |- _ => is_var m; cbn in H; apply (inj Some) in H; subst m end;
  match goal with H : Some <$> _ = _ |- _ => vm_compute in H; discriminate H end.

(** ** Compactions *)

(** C23. Compactions can lose the keys of a level: the tables of the second one are appended behind
    those of the first, out of key order, and the binary search of a lookup misses all four keys. *)
Theorem compactions_lose_keys :
  let acts := [Do [OPut kc v1; OPut kd v2; OPut kd v3; OFlush]; Compact; Do [OPut ka v1; OPut kb v2; OPut kb v3; OFlush];
    Do [OGet ka; OGet kb; OGet kc; OGet kd]; Compact; Do [OGet ka; OGet kb; OGet kc; OGet kd]] in
  let os := [RDone; RDone; RDone; RDone; RDone; RDone; RDone; RDone; found v1; found v3; found v1; found v3;
    missing; missing; missing; missing] in
  play eager_options acts = Some os ∧ unexplained acts os.
Proof. evaluate_run. Qed.

(** Nor do they keep the versions that a snapshot sees. *)
Theorem compaction_ignores_snapshots :
  let acts := [Do [OPut ka v1; OSnapshot; OPut ka v2; OPut ka v3; OFlush; OSnapGet 1 ka]; Compact; Do [OSnapGet 1 ka]] in
  let os := [RDone; RSnapshot 1; RDone; RDone; RDone; found v1; missing] in
  play eager_options acts = Some os ∧ unexplained acts os.
Proof. evaluate_run. Qed.

(** The compactions that are scheduled at the end of a run. *)
Fixpoint after_acts (o : Options) (acts : list act) (s : machine) : option machine :=
  match acts with
  | [] => Some s
  | a :: acts => '(_, s) ← play_act o a s; after_acts o acts s
  end.

Definition scheduled_after (o : Options) (acts : list act) : option (list (Z * list TableMeta)) :=
  s ← opened (New o empty_root empty_fs []); s ← after_acts o acts s;
  Some (map (λ t, (ct_level t, ct_inputs t)) (compactQueue s.1)).

(** Levels of one byte, ten bytes and so on. *)
Definition tight_options : Options := mkOptions "data" true 40 64 0 example_rate 0 1 1 0 0 7 0 example_rate SyncBatch 0.

(** The pointer of a level never goes back: a table that does not begin after it stays, the compaction
    that the size of the level asks for has no inputs, and its end schedules the same one again. *)
Theorem compaction_spins :
  let flush := Do [OPut ka v1; OPut ka v2; OPut ka v3; OFlush] in
  let acts := [flush; Compact; Compact; Compact; Compact; Compact; flush; Compact] in
  map (λ n, scheduled_after tight_options (acts ++ replicate n Compact)) [0; 1; 2; 3]%nat = replicate 4 (Some [(1, [])]).
Proof. by vm_compute. Qed.

(** ** Crashes *)

(** C24. A flush records the sequence number of its last key, not the greatest one: when New finds no
    newer record in the logs, it gives out numbers again that older records have, and the flush of a
    later write brings the older value back. *)
Theorem reopening_reuses_sequence_numbers :
  let acts := [Do [OPut kb v1; OPut ka v1; OPut ka v2; OFlush]; Crash; Do [OPut ka v3; OGet ka; OPut kc v1; OPut kc v2; OFlush; OGet ka]] in
  let os := [RDone; RDone; RDone; RDone; RDone; found v3; RDone; RDone; RDone; found v2] in
  play small_options acts = Some os ∧ unexplained acts os.
Proof. evaluate_run. Qed.

(** C25. Recovery removes a log as soon as its records are in the memtable: a second crash before
    the next flush loses them. *)
Theorem second_crash_loses_writes :
  let acts := [Do [OPut kb v1]; Crash; Do [OGet kb]; Crash; Do [OGet kb]] in
  let os := [RDone; found v1; missing] in
  play small_options acts = Some os ∧ unexplained acts os.
Proof. evaluate_run. Qed.

(** A batch that fills the memtable half way is in the old log as a whole: when the flush of the
    first half has removed that log, a crash loses the second half. *)
Theorem batch_loses_tail :
  let acts := [Do [OBatch [OpPut ka (Some v1); OpPut kb (Some v1); OpPut kc (Some v1); OpPut kd (Some v1)]; OFlush; OGet kd];
    Crash; Do [OGet ka; OGet kd]] in
  let os := [RDone; RDone; found v1; found v1; missing] in
  play small_options acts = Some os ∧ unexplained acts os.
Proof. evaluate_run. Qed.

(** ** Two flushes at once *)

(** A second rotation before the flush of the first memtable hides that memtable, and the first
    flush then hides the second one, until it is flushed as well. *)
Theorem rotation_hides_memtable :
  let acts := [Do [OPut ka v1; OPut ka v2; OPut ka v3; OGet ka; OPut kb v1; OPut kb v2; OPut kb v3; OGet ka; OGet kb;
    OFlush; OGet ka; OGet kb; OFlush; OGet ka; OGet kb]] in
  let os := [RDone; RDone; RDone; found v3; RDone; RDone; RDone; missing; found v3;
    RDone; found v3; missing; RDone; found v3; found v3] in
  play small_options acts = Some os ∧ unexplained acts os.
Proof. evaluate_run. Qed.
